(* ===== verification/_CoqProject ===== *)
-Q . S2P
Prelude.v
RustStr.v
Http.v
Response.v
Request.v
RequestSpec.v
RequestRefine.v
RequestProps.v
Router.v
Asset.v
App.v
Site.v
Conn.v
ConnSpec.v
ConnProps.v
Syscall.v
Socket.v
Listener.v
SysPoll.v
ConnTable.v
EventIo.v
Epoll.v
EpollInv.v
Sim.v
EventIoProps.v
Session.v
Trace.v
Process.v
EpollProps.v
Reactor.v
ReactorProps.v
EpollTrace.v
Poll.v
PollProps.v
PollTrace.v
Blocking.v
BlockingProps.v
Serving.v
ServingProps.v
Signals.v
Preforked.v
PreforkedProps.v
Multireactor.v
MultireactorProps.v
MultireactorRun.v
MultireactorTrace.v
IoUring.v
IoUringProps.v
IoUringInv.v
IoUringRun.v
UringTrace.v
Forking.v
ForkingProps.v
SimProc.v
ForkServing.v
ForkServingProps.v
BlockingTrace.v
Fair.v
ServingLive.v
Responsive.v
SimReady.v
PollLive.v
EpollLive.v
ForkLive.v
ThreadPerConn.v
ThreadPerConnProps.v
ThreadsServing.v
ThreadsLive.v
ThreadPool.v
ThreadPoolProps.v
PoolServing.v
PoolLive.v
Loadgen.v
LoadgenProps.v
LoadQueue.v
LoadQueueProps.v
F64.v
LoadArgs.v
LoadRun.v
LoadOutput.v
