(* ===== verification/Prelude.v ===== *)
(** * Verification of Rust-Tcp-Server

    The repository serves one small web site with eleven concurrency models
    over a shared, sans-IO core: [core] parses requests, routes them, encodes
    responses and runs a connection as a state machine; [server] drives that
    machine with blocking calls, poll, epoll, io_uring, processes or threads;
    [loadgen] is the client that measures it.  The development follows that
    shape, bottom up.  Paths below are under src/.

    ** The files

    - Prelude: bytes, [result], the [outcome] monad, shared lemmas and tactics.
    - RustStr: the part of Rust's [str] the code uses: UTF-8, trims, splits,
      integer parsing.
    - Http: core/src/limits.rs, http/method.rs, http/headers.rs.
    - Response: http/response.rs, the encoder and its layout.
    - Request: http/request.rs, the incremental parser, in [outcome].
      RequestSpec is a parser of the byte stream without buffers;
      RequestRefine proves that the incremental one refines it; RequestProps
      has the parser's properties.
    - Router, Asset, App: router.rs; asset.rs; metrics.rs, app.rs and the
      configuration of core/src/server.rs.  Calling a handler is the class
      [Handlers].
    - Site: server/src/main.rs, the handlers and the command line.
    - Conn: core/src/conn.rs.  ConnSpec is the connection as an automaton over
      the bytes received and sent; ConnProps has its properties.
    - Syscall: server/src/sys/syscall.rs and the operating system: the class
      [Kernel] has one operation per call the source makes, [KernelLaws] the
      documented behaviour the proofs use.  Sim is a small kernel that has it,
      on which the witnesses run.
    - Socket, SysPoll, ConnTable: sys/socket.rs; sys/poll.rs and sys/epoll.rs;
      sys/conn_table.rs.  Listener: [bind_listener] and the accept timeout of
      core/src/server.rs over the class [Sockets] of the socket2 calls,
      with what it opens and closes.
    - Signals: sys/signal.rs: which handlers a process installs, how a child
      inherits them, what a signal does then.
    - EventIo: models/event_io.rs, [drive_io].
    - Session: what a connection writes as a function of the chunks it reads.
      Trace: a kernel that records what is exchanged with every connection
      accepted, an instance of the same classes.  Process: the same for
      processes with a descriptor table each, over the class [Processes] of
      fork, exit and waitpid; SimProc is a kernel that has them.
    - Epoll: models/epoll.rs; EpollInv is the invariant of its loop and
      EpollProps its properties.  Reactor: reactor.rs and models/event_loop.rs.
      Poll: models/poll.rs.  EpollTrace, PollTrace: these loops on the
      recording kernel.
    - Blocking: models/blocking.rs and models/iterative.rs.  Serving: the same
      loop one system call at a time, and the streams of a process whose
      threads run it; ServingProps has its equivalence and invariant.
    - IoUring: models/io_uring.rs over the class [Ring] of the crate's queues;
      IoUringProps (codec, kernel gate, buffers), IoUringInv (what is in
      flight) and IoUringRun (batches and rounds).  UringTrace: the runtime on
      a ring that records its completions.
    - Preforked: models/preforked.rs, the parent with its workers as processes,
      and the loop of one worker over [Blocking]; PreforkedProps.
    - Multireactor: models/multireactor.rs and sys/affinity.rs, threads over
      [Reactor]; MultireactorProps has the lemmas of one thread,
      MultireactorRun the properties of an execution, MultireactorTrace what
      the clients of all the reactors are written.
    - Forking: models/forking.rs with the reaper of sys/signal.rs.
      ForkServing: its processes with their own descriptors, every child one
      system call at a time; ForkServingProps has the invariant and what the
      clients are written, ForkLive that every child ends.
      BlockingTrace: the child of [Forking], the worker of [Preforked] and the
      iterative model on the recording kernel.
      ThreadPerConn and ThreadPool: models/thread_per_conn.rs and
      models/thread_pool.rs.  In these, and in Preforked, a step is one access
      to what processes or threads share, and an execution any interleaving of
      steps; in Multireactor a step is a stage of a thread's set-up or one
      round of its reactor.  PoolServing and ThreadsServing put Serving inside
      the steps of the two thread models, so that every system call of every
      worker is a step.
    - Fair: schedules that give every thread its turns, and the rule by which
      something happens under all of them.  ServingLive: how far a connection
      is from its end, given that its client sends a finite number of chunks
      (classes [FiniteClients] and [ForkLive.FinitePeers]).  ThreadsLive,
      PoolLive: the two thread models serve everyone.
    - Responsive: kernels that keep nobody waiting for ever, for poll and for
      epoll under both triggers (classes [Responsive], [Notifying]; [Faultless],
      [Unfailing]: one connection does not fail), and what a loop on them does
      for one client; SimReady is such a kernel.  PollLive, EpollLive: the poll
      and epoll loops serve everyone; no readiness edge is lost.
    - Loadgen: the client side of one exchange of loadgen/src/main.rs.
      LoadQueue: its queue, scheduler and workers as steps.  LoadArgs: its
      command line.  F64: the [f64] and [Duration] of [std].  LoadRun: [run],
      from connecting over the cadence to the summary.  LoadOutput: the files it
      writes, over the classes [Files] and [Histogram].

    ** How code becomes definitions

    A struct is a Record, an enum an Inductive type, a method a function from
    the old state to the new one.  A function that can index out of range,
    underflow or panic is in [outcome]; theorems exclude [Panic], and [Diverge]
    where a loop has fuel.  Integers keep their width where the code can reach
    it: counters are modulo 2^64, [as] casts are written out, the decimal
    writer's buffer has its size.  The clock, the shutdown flag and every
    system call are operations of the kernel state, so a theorem about a loop
    holds for every behaviour of the operating system within the laws.

    ** What the theorems show

    - RequestProps: under every segmentation the parser answers what the
      stream parser answers, never panics, keeps a bounded buffer, loses no
      pipelined byte, and inverts printing; with the one exception of a
      request line of exactly the limit.
    - Response, Router, Asset, Site: the encoder frames exactly once; the trie
      is a finite map; the cache serves the tree; the application is the
      table of its routes.
    - ConnProps: the connection refines its automaton under all calls;
      deadlines, errors and pipelining.
    - EventIoProps, EpollProps, PollProps, ReactorProps: the event loops never
      panic, never leak a descriptor, hold the cap, and the reactor makes the
      system calls of epoll-et.
    - BlockingProps: a client is written exactly the session of what it sent.
      BlockingTrace: so is every client of a loop that serves one after the
      other, and that of a forked child alone.
      EpollTrace, PollTrace, MultireactorTrace, UringTrace, PoolServing,
      ThreadsServing, ForkServingProps: so is every client, open or gone, of a
      server that interleaves many, whatever the order of events, of threads
      and of processes.
    - ThreadsLive, PoolLive, ForkLive: under every fair schedule each client
      that sends a finite number of pieces is served to its end, though it waits
      for a permit or in the queue; a child of the forking model serves its
      client, exits and is waited for.
    - PollLive, EpollLive: however late, partial or spurious the readiness
      reported, while the server runs every client that sends a finite number of
      pieces is heard out, or until its automaton closes, and answered
      completely, or a sweep finds its connection past its deadline.
    - IoUringProps, IoUringRun: every buffer is conserved, and every connection
      has exactly the one operation in flight that its automaton asks for, but
      where the submission queue refused it even after a flush.  For both the
      ring's theorems the responses are shorter than 4 GiB.
    - ForkingProps, ThreadPerConnProps, ThreadPoolProps: under every
      interleaving, caps, conservation, reaping, no lost wake-up.
    - PreforkedProps: under every interleaving each forked worker is signalled
      and reaped before the parent returns, on the error path too; shutdown and
      the loop of a worker terminate.
    - MultireactorRun: reactors own disjoint descriptors, the first error in
      spawning order is returned, and shutdown terminates.
    - Signals: a signal has the effect its installer documents, whatever was
      inherited.
    - LoadgenProps: the client reads what the server writes, one response for
      each request.  LoadQueueProps: each scheduled request is counted once, as
      a sample or an error, and a run ends.  LoadRun: the cadence computed in
      [f64] is exact to the nanosecond, and a run reports exactly its instants.
      LoadOutput: rows are appended, the header first where the file is empty or
      its length cannot be had, and the dump ends.

    ** Bounds and fuel

    The accept loops and [drive_io] run on [Syscall.budget], a bound the kernel
    gives on the calls that can still succeed before they would block; the
    proofs show that it suffices.  The blocking loop waits for its peer: its
    theorems give an amount of fuel from which on the result is the same.  There
    the budget says that each client sends a finite amount, which the blocking
    calls on a connection do not raise: one that sent for ever would hold an
    iterative server or a worker for ever.  So do [ServingLive.FiniteClients],
    [ForkLive.FinitePeers] and [Responsive] for the liveness theorems.  A
    server loop runs until a signal: its theorems hold after any number [n] of
    rounds; that of a preforked worker ends because the class
    [PreforkedProps.SignalDue] bounds the calls before the flag is up.
    Termination of an interleaving is a measure every step lowers
    ([PreforkedProps.left], [MultireactorProps.multi_left],
    [LoadQueueProps.load_left]) and a step that is always possible.  Under a
    fair schedule ([Fair.progress]) it is a measure no step raises and, at every
    moment, a step of some thread that lowers it and stays possible until taken.
    For an event loop the measure is [Responsive.reach]: what the client has
    still to send, what it is still to be written, and the calls in a row that
    may be in vain; every round lowers it.
    [IoUring.apply] recurses at most twice. The scheduler's loop needs one round
    for each request and one more, [LoadRun.scheduled] says how many; the dump
    of the load generator 25. [read_head] takes a byte in every round.

    ** What is not modelled

    Logging and the [verbose] flag; [Instant] and [usize] overflow of times and
    buffer lengths; the memory behind the buffer ring (its addresses are
    offsets into the pool); a panic inside a worker of the thread models (there
    is none in what it runs), and of [thread::spawn] at the start of the thread
    pool and of the load generator; the death signal the children of the forking
    and preforked models ask for; cores past the 1024 of [cpu_set_t].
    Of the load generator: how the rate is parsed to an [f64], sleeping until an
    instant (the schedule is a list of times, pushed at any), the histogram's
    buckets and what it says on stderr.  Not proved: liveness of the reactors and
    of the ring; finer steps of multireactor, and of the workers of the preforked
    model beside each other. *)

From stdpp Require Export base tactics list numbers option strings gmap.
From Stdlib Require Export Init.Byte Strings.Byte.

(** ** Bytes and string literals

    A Rust [u8] is [Byte.byte]; a [Vec<u8>], [&[u8]], [String] or [&str] is a
    list of bytes (a [String] is one that [RustStr.utf8_valid] accepts). *)

Abbreviation bytes := (list byte).

#[global] Instance byte_eq_dec : EqDecision byte := Byte.byte_eq_dec.

#[global] Program Instance byte_countable : Countable byte :=
  inj_countable Byte.to_N Byte.of_N _.
Next Obligation. intros b. apply Byte.of_to_N. Qed.

Declare Scope rust_scope.
Delimit Scope rust_scope with rust.
Open Scope rust_scope.

(** [b"GET"] of the source is [B "GET"] here. *)
Definition B (s : string) : bytes := String.list_byte_of_string s.

(** The numeric value of a byte. *)
Definition u8 (b : byte) : N := Byte.to_N b.

Definition CR : byte := x0d.
Definition LF : byte := x0a.
Definition SP : byte := x20.

(** The literal ["\r\n"]. *)
Definition CRLF : bytes := [CR; LF].

(** ** [Result] *)

Inductive result (A E : Type) :=
  | Ok (a : A)
  | Err (e : E).
Arguments Ok {A E} _.
Arguments Err {A E} _.

(** [r] is [Ok]. *)
Definition is_Ok {A E} (r : result A E) : Prop := exists a, r = Ok a.

(** ** Panics

    Safe Rust panics on an index or slice out of range and (with overflow
    checks) on an unsigned subtraction below zero.  A function of the source
    that can do either is modelled in the [outcome] monad, so that "it never
    panics" is a theorem.  [Diverge] is the answer of a loop whose fuel ran
    out; it is excluded by the same theorems. *)

Inductive outcome (A : Type) :=
  | Ret (a : A)
  | Panic
  | Diverge.
Arguments Ret {A} _.
Arguments Panic {A}.
Arguments Diverge {A}.

#[global] Instance outcome_ret : MRet outcome := fun A a => Ret a.
#[global] Instance outcome_bind : MBind outcome := fun A C f m =>
  match m with
  | Ret a => f a
  | Panic => Panic
  | Diverge => Diverge
  end.
#[global] Instance outcome_fmap : FMap outcome := fun A C f m =>
  match m with
  | Ret a => Ret (f a)
  | Panic => Panic
  | Diverge => Diverge
  end.

(** Unsigned subtraction [a - b] of [usize] values. *)
Definition usub (a b : nat) : outcome nat :=
  if b <=? a then Ret (a - b) else Panic.

(** [&s[i..j]] *)
Definition slice {A} (s : list A) (i j : nat) : outcome (list A) :=
  if (i <=? j) && (j <=? length s) then Ret (take (j - i) (drop i s)) else Panic.

(** [&s[i..]] *)
Definition slice_from {A} (s : list A) (i : nat) : outcome (list A) :=
  slice s i (length s).

(** [n > lim] for a length [n] and a limit of [limits.rs]; limits and
    parsed integers are kept in binary. *)
Definition exceeds (n : nat) (lim : N) : bool := (lim <? N.of_nat n)%N.

(** [usize] is 64 bits wide. *)
Definition usize_max : N := (2 ^ 64 - 1)%N.

(** ** Tactics and hints *)

Create HintDb rust.
Create Rewrite HintDb rust.
#[export] Hint Rewrite @length_app @length_drop @length_take : rust.

(** Case analysis on the scrutinee of the innermost [match] or [if] of the
    goal or of a hypothesis, keeping its equation. *)
Ltac case_on t :=
  let E := fresh "E" in destruct t eqn:E; simplify_eq/=.

Lemma exceeds_spec n lim : exceeds n lim = true <-> (lim < N.of_nat n)%N.
Proof. unfold exceeds. apply N.ltb_lt. Qed.

Lemma exceeds_false n lim : exceeds n lim = false <-> (N.of_nat n <= lim)%N.
Proof. unfold exceeds. apply N.ltb_ge. Qed.

Lemma usub_ret a b : b <= a -> usub a b = Ret (a - b).
Proof. intros H. unfold usub. by rewrite (proj2 (Nat.leb_le b a) H). Qed.

Lemma slice_ret {A} (s : list A) i j :
  i <= j -> j <= length s -> slice s i j = Ret (take (j - i) (drop i s)).
Proof.
  intros H1 H2. unfold slice.
  by rewrite (proj2 (Nat.leb_le i j) H1), (proj2 (Nat.leb_le j _) H2).
Qed.

Lemma slice_from_ret {A} (s : list A) i :
  i <= length s -> slice_from s i = Ret (drop i s).
Proof.
  intros H. unfold slice_from. rewrite slice_ret by lia.
  f_equal. apply take_ge. rewrite length_drop. lia.
Qed.

Lemma outcome_bind_ret {A C} (m : outcome A) (f : A -> outcome C) c :
  (m ≫= f) = Ret c <-> exists a, m = Ret a /\ f a = Ret c.
Proof.
  split.
  - destruct m as [a| |]; simpl; intros H; simplify_eq. by exists a.
  - intros (a & -> & H). done.
Qed.

(** Induction on the length of a list. *)
Lemma list_length_ind {A} (P : list A -> Prop) :
  (forall s, (forall r, length r < length s -> P r) -> P s) -> forall s, P s.
Proof. apply (well_founded_induction_type (Nat.lt_wf_0_projected length)). Qed.

(** [List.filter] on permutations, and taking out one element. *)
Lemma filter_permutation {A} (f : A -> bool) l l' : l ≡ₚ l' -> List.filter f l ≡ₚ List.filter f l'.
Proof.
  intros Hp. induction Hp as [|x l l' _ IH|x y l|? ? ? _ IH1 _ IH2]; cbn [List.filter].
  - done.
  - by destruct (f x); rewrite IH.
  - destruct (f x), (f y); try done. apply perm_swap.
  - by etrans.
Qed.

Lemma filter_take_out {A} (f : A -> bool) x l l' :
  (forall y, f y = true <-> y <> x) -> NoDup l -> l ≡ₚ x :: l' -> List.filter f l ≡ₚ l'.
Proof.
  intros Hf Hnd Hp. rewrite (filter_permutation f _ _ Hp).
  assert (NoDup (x :: l')) as [Hx _]%NoDup_cons by by rewrite <-Hp.
  cbn [List.filter]. destruct (f x) eqn:E; [by apply Hf in E|].
  clear -Hx Hf. induction l' as [|y l' IH]; [done|]. apply not_elem_of_cons in Hx as [Hne Hx].
  cbn [List.filter]. rewrite (proj2 (Hf y)) by congruence. by rewrite IH.
Qed.
