(* ===== verification/RustStr.v ===== *)
(** * The parts of Rust's standard library the server parses with

    UTF-8 validation ([str::from_utf8]), [str::trim], [slice::split],
    ASCII case folding and [FromStr] for unsigned integers, on byte lists;
    with the facts the components use. *)

From S2P Require Import Prelude.

(** ** ASCII case *)

(** [u8::to_ascii_lowercase] *)
Definition to_ascii_lowercase (b : byte) : byte :=
  if ((65 <=? u8 b) && (u8 b <=? 90))%N
  then default b (Byte.of_N (u8 b + 32)) else b.

(** [str::eq_ignore_ascii_case] *)
Definition eq_ignore_ascii_case (s t : bytes) : bool :=
  bool_decide (to_ascii_lowercase <$> s = to_ascii_lowercase <$> t).

(** ** UTF-8 *)

Section Utf8.
Local Open Scope N_scope.

Definition in_range (b : byte) (lo hi : N) : bool := (lo <=? u8 b) && (u8 b <=? hi).

(** A continuation byte [10xxxxxx]. *)
Definition cont (b : byte) : bool := in_range b 0x80 0xBF.

(** The second byte of a three-byte sequence: no overlong form, no
    surrogate. *)
Definition second3 (b0 b1 : byte) : bool :=
  if u8 b0 =? 0xE0 then in_range b1 0xA0 0xBF
  else if u8 b0 =? 0xED then in_range b1 0x80 0x9F
  else cont b1.

(** The second byte of a four-byte sequence: no overlong form, nothing past
    U+10FFFF. *)
Definition second4 (b0 b1 : byte) : bool :=
  if u8 b0 =? 0xF0 then in_range b1 0x90 0xBF
  else if u8 b0 =? 0xF4 then in_range b1 0x80 0x8F
  else cont b1.

(** The well-formed byte sequences (Unicode 15, table 3-7), which is what
    [str::from_utf8] accepts. *)
Fixpoint utf8_valid (s : bytes) : bool :=
  match s with
  | [] => true
  | b0 :: s1 =>
    if in_range b0 0 0x7F then utf8_valid s1 else
    match s1 with
    | [] => false
    | b1 :: s2 =>
      if in_range b0 0xC2 0xDF then cont b1 && utf8_valid s2 else
      match s2 with
      | [] => false
      | b2 :: s3 =>
        if in_range b0 0xE0 0xEF then second3 b0 b1 && cont b2 && utf8_valid s3 else
        match s3 with
        | [] => false
        | b3 :: s4 =>
          in_range b0 0xF0 0xF4 && second4 b0 b1 && cont b2 && cont b3 && utf8_valid s4
        end
      end
    end
  end.

(** [char::is_whitespace] on one-, two- and three-byte characters (White_Space
    has no longer ones): U+0009..U+000D, U+0020; U+0085, U+00A0; U+1680,
    U+2000..U+200A, U+2028, U+2029, U+202F, U+205F, U+3000. *)
Definition ws1 (b : byte) : bool := in_range b 9 13 || (u8 b =? 32).
Definition ws2 (b0 b1 : byte) : bool :=
  (u8 b0 =? 0xC2) && ((u8 b1 =? 0x85) || (u8 b1 =? 0xA0)).
Definition ws3 (b0 b1 b2 : byte) : bool :=
  ((u8 b0 =? 0xE1) && (u8 b1 =? 0x9A) && (u8 b2 =? 0x80)) ||
  ((u8 b0 =? 0xE2) && (u8 b1 =? 0x80) &&
     (in_range b2 0x80 0x8A || (u8 b2 =? 0xA8) || (u8 b2 =? 0xA9) || (u8 b2 =? 0xAF))) ||
  ((u8 b0 =? 0xE2) && (u8 b1 =? 0x81) && (u8 b2 =? 0x9F)) ||
  ((u8 b0 =? 0xE3) && (u8 b1 =? 0x80) && (u8 b2 =? 0x80)).

End Utf8.

(** [str::from_utf8] *)
Definition from_utf8 (s : bytes) : option bytes := if utf8_valid s then Some s else None.

(** ** [str::trim] *)

Fixpoint trim_start (s : bytes) : bytes :=
  match s with
  | [] => []
  | b0 :: s1 =>
    if ws1 b0 then trim_start s1 else
    match s1 with
    | [] => s
    | b1 :: s2 =>
      if ws2 b0 b1 then trim_start s2 else
      match s2 with
      | [] => s
      | b2 :: s3 => if ws3 b0 b1 b2 then trim_start s3 else s
      end
    end
  end.

(** [trim_start] on the reversed string, with the bytes of a character in
    reverse order.  A lead byte is never a continuation byte, so a suffix
    that spells a whitespace character is that character. *)
Fixpoint trim_start_rev (s : bytes) : bytes :=
  match s with
  | [] => []
  | b0 :: s1 =>
    if ws1 b0 then trim_start_rev s1 else
    match s1 with
    | [] => s
    | b1 :: s2 =>
      if ws2 b1 b0 then trim_start_rev s2 else
      match s2 with
      | [] => s
      | b2 :: s3 => if ws3 b2 b1 b0 then trim_start_rev s3 else s
      end
    end
  end.

Definition trim_end (s : bytes) : bytes := rev (trim_start_rev (rev s)).

Definition trim (s : bytes) : bytes := trim_end (trim_start s).

(** ** Splitting *)

(** [slice::split] at the elements that satisfy [f]: always at least one
    part. *)
Fixpoint split_when (f : byte -> bool) (s : bytes) : list bytes :=
  match s with
  | [] => [[]]
  | b :: s' =>
    if f b then [] :: split_when f s' else
    match split_when f s' with
    | [] => [[b]]
    | p :: ps => (b :: p) :: ps
    end
  end.

Definition split_on (sep : byte) : bytes -> list bytes := split_when (Byte.eqb sep).

(** [iter().position(|&b| b == x)] *)
Fixpoint position (x : byte) (s : bytes) : option nat :=
  match s with
  | [] => None
  | b :: s' => if Byte.eqb b x then Some 0 else S <$> position x s'
  end.

(** ** [FromStr] of unsigned integers *)

Definition digit_of (b : byte) : option N :=
  if in_range b 48 57 then Some (u8 b - 48)%N else None.

Fixpoint parse_digits (max acc : N) (s : bytes) : option N :=
  match s with
  | [] => Some acc
  | b :: s' =>
    d ← digit_of b;
    let acc := (acc * 10 + d)%N in
    if (max <? acc)%N then None else parse_digits max acc s'
  end.

(** Base 10, an optional leading [+], at least one digit, overflow is an
    error. *)
Definition parse_uint (max : N) (s : bytes) : option N :=
  match s with
  | [] => None
  | b :: s' =>
    if Byte.eqb b x2b then
      match s' with [] => None | _ => parse_digits max 0 s' end
    else parse_digits max 0 s
  end.

Definition parse_usize : bytes -> option N := parse_uint usize_max.

(** ** Facts: bytes *)

Lemma u8_inj a b : u8 a = u8 b -> a = b.
Proof.
  unfold u8. intros H.
  assert (Some a = Some b) as ?; [|congruence].
  by rewrite <-!Byte.of_to_N, H.
Qed.

Lemma u8_of_N n : (n < 256)%N -> exists b, Byte.of_N n = Some b /\ u8 b = n.
Proof.
  intros H. destruct (Byte.of_N n) as [b|] eqn:E.
  - exists b. split; [done|]. by apply Byte.to_of_N.
  - apply Byte.of_N_None_iff in E. lia.
Qed.

Lemma byte_eqb_spec a b : Byte.eqb a b = bool_decide (a = b).
Proof.
  destruct (Byte.eqb a b) eqn:E; symmetry.
  - apply bool_decide_eq_true. by apply Byte.byte_dec_bl.
  - apply bool_decide_eq_false. by apply Byte.eqb_false.
Qed.

Lemma byte_eqb_sym a b : Byte.eqb a b = Byte.eqb b a.
Proof. rewrite !byte_eqb_spec. by apply bool_decide_ext. Qed.

Lemma in_range_spec b lo hi : in_range b lo hi = true <-> (lo <= u8 b <= hi)%N.
Proof. unfold in_range. rewrite andb_true_iff, !N.leb_le. done. Qed.

(** ** Facts: splitting *)

Lemma split_when_nonempty f s : split_when f s <> [].
Proof. destruct s as [|b s]; simpl; [done|]. destruct (f b); [done|]. by destruct (split_when f s). Qed.

Lemma split_when_none f s : forallb (fun b => negb (f b)) s = true -> split_when f s = [s].
Proof.
  induction s as [|b s IH]; simpl; intros H; [done|].
  apply andb_true_iff in H as [Hb Hs]. apply negb_true_iff in Hb.
  by rewrite Hb, IH.
Qed.

Lemma split_when_app f s b t :
  forallb (fun b => negb (f b)) s = true -> f b = true ->
  split_when f (s ++ b :: t) = s :: split_when f t.
Proof.
  intros Hs Hb. induction s as [|c s IH]; simpl in *.
  - by rewrite Hb.
  - apply andb_true_iff in Hs as [Hc Hs]. apply negb_true_iff in Hc.
    by rewrite Hc, IH.
Qed.

Lemma position_app x s t :
  forallb (fun b => negb (Byte.eqb b x)) s = true ->
  position x (s ++ x :: t) = Some (length s).
Proof.
  induction s as [|b s IH]; simpl; intros H.
  - by rewrite byte_eqb_spec, bool_decide_true.
  - apply andb_true_iff in H as [Hb Hs]. apply negb_true_iff in Hb.
    by rewrite Hb, IH.
Qed.

Lemma position_lt x s i : position x s = Some i -> i < length s.
Proof.
  revert i. induction s as [|b s IH]; simpl; intros i H; [done|].
  destruct (Byte.eqb b x); simplify_eq; [lia|].
  destruct (position x s) as [j|]; simplify_eq/=. specialize (IH j eq_refl). lia.
Qed.

(** ** Facts: integers *)

Lemma parse_digits_bound max acc s n :
  parse_digits max acc s = Some n -> (acc <= max)%N -> (n <= max)%N.
Proof.
  revert acc. induction s as [|b s IH]; simpl; intros acc H Ha; [by simplify_eq|].
  destruct (digit_of b) as [d|]; simplify_eq/=.
  destruct (max <? acc * 10 + d)%N eqn:E; [done|].
  apply N.ltb_ge in E. by apply (IH _ H).
Qed.

Lemma parse_uint_bound max s n : parse_uint max s = Some n -> (n <= max)%N.
Proof.
  unfold parse_uint. intros H. destruct s as [|b s]; [done|].
  destruct (Byte.eqb b x2b); [destruct s; [done|]|];
    eapply parse_digits_bound; eauto; lia.
Qed.

(** ** Facts: UTF-8 *)

Lemma utf8_valid_app s t : utf8_valid s = true -> utf8_valid t = true -> utf8_valid (s ++ t) = true.
Proof.
  intros Hs Ht. revert Hs. induction s as [s IH] using list_length_ind.
  destruct s as [|b0 s1]; [done|]. cbn [utf8_valid app].
  destruct (in_range b0 0 0x7F). { apply IH. simpl. lia. }
  destruct s1 as [|b1 s2]; [done|]. cbn [app].
  destruct (in_range b0 0xC2 0xDF).
  { rewrite !andb_true_iff. intros [H1 H]. split; [done|]. apply IH; [simpl; lia|done]. }
  destruct s2 as [|b2 s3]; [done|]. cbn [app].
  destruct (in_range b0 0xE0 0xEF).
  { rewrite !andb_true_iff. intros [H1 H]. split; [done|]. apply IH; [simpl; lia|done]. }
  destruct s3 as [|b3 s4]; [done|]. cbn [app].
  rewrite !andb_true_iff. intros [H1 H]. split; [done|]. apply IH; [simpl; lia|done].
Qed.
