(* ===== verification/Http.v ===== *)
(** * Limits, methods, versions and headers

    core/src/limits.rs, core/src/http/method.rs, core/src/http/headers.rs. *)

From S2P Require Import Prelude RustStr.

(** ** limits.rs *)

Definition MAX_REQUEST_LINE : N := 8 * 1024.
Definition MAX_HEADER_BYTES : N := 32 * 1024.
Definition MAX_HEADER_COUNT : N := 100.
Definition MAX_BODY_BYTES : N := 1024 * 1024.
Definition READ_CHUNK : N := 16 * 1024.

(** ** method.rs *)

Inductive Method := Get | Head | Unsupported.

#[global] Instance Method_eq_dec : EqDecision Method.
Proof. solve_decision. Defined.

(** [Method] derives [Hash], the router keys a map with it. *)
#[global] Instance Method_countable : Countable Method.
Proof.
  refine (inj_countable'
    (fun m => match m with Get => 0 | Head => 1 | Unsupported => 2 end)
    (fun n => match n with 0 => Get | 1 => Head | _ => Unsupported end) _).
  by intros [].
Defined.

Definition Method_parse (token : bytes) : Method :=
  if decide (token = B "GET") then Get
  else if decide (token = B "HEAD") then Head
  else Unsupported.

Inductive Version := Http10 | Http11.

#[global] Instance Version_eq_dec : EqDecision Version.
Proof. solve_decision. Defined.

Definition Version_parse (token : bytes) : option Version :=
  if decide (token = B "HTTP/1.0") then Some Http10
  else if decide (token = B "HTTP/1.1") then Some Http11
  else None.

(** ** headers.rs *)

(** Insertion-ordered name/value pairs, names not unique. *)
Record Headers := mkHeaders { inner : list (bytes * bytes) }.

Definition Headers_new : Headers := mkHeaders [].

(** First value whose name matches, ignoring ASCII case. *)
Definition Headers_get (h : Headers) (name : bytes) : option bytes :=
  snd <$> List.find (fun kv => eq_ignore_ascii_case kv.1 name) h.(inner).

Definition Headers_insert (h : Headers) (name value : bytes) : Headers :=
  mkHeaders (h.(inner) ++ [(name, value)]).

Definition Headers_iter (h : Headers) : list (bytes * bytes) := h.(inner).

(** ** Facts *)

Lemma eq_ignore_ascii_case_refl s : eq_ignore_ascii_case s s = true.
Proof. unfold eq_ignore_ascii_case. by rewrite bool_decide_eq_true. Qed.

Lemma eq_ignore_ascii_case_sym s t :
  eq_ignore_ascii_case s t = eq_ignore_ascii_case t s.
Proof. unfold eq_ignore_ascii_case. by apply bool_decide_ext. Qed.

Lemma eq_ignore_ascii_case_trans s t u :
  eq_ignore_ascii_case s t = true ->
  eq_ignore_ascii_case s u = eq_ignore_ascii_case t u.
Proof.
  unfold eq_ignore_ascii_case. rewrite bool_decide_eq_true. intros ->. done.
Qed.

Lemma Headers_get_insert h k v name :
  Headers_get (Headers_insert h k v) name =
  match Headers_get h name with
  | Some w => Some w
  | None => if eq_ignore_ascii_case k name then Some v else None
  end.
Proof.
  unfold Headers_get, Headers_insert; simpl.
  induction h.(inner) as [|[k' v'] l IH]; simpl.
  - by destruct (eq_ignore_ascii_case k name).
  - by destruct (eq_ignore_ascii_case k' name).
Qed.

Lemma Headers_get_new name : Headers_get Headers_new name = None.
Proof. done. Qed.

#[export] Hint Rewrite Headers_get_insert Headers_get_new : rust.
