(* ===== verification/Response.v ===== *)
(** * Responses and their encoder

    core/src/http/response.rs. *)

From S2P Require Import Prelude RustStr Http.

(** ** Status codes *)

(** [StatusCode(pub u16)] *)
Record StatusCode := mkStatus { code : N }.

#[global] Instance StatusCode_eq_dec : EqDecision StatusCode.
Proof. solve_decision. Defined.

Definition OK := mkStatus 200.
Definition BAD_REQUEST := mkStatus 400.
Definition NOT_FOUND := mkStatus 404.
Definition METHOD_NOT_ALLOWED := mkStatus 405.
Definition URI_TOO_LONG := mkStatus 414.
Definition PAYLOAD_TOO_LARGE := mkStatus 413.
Definition HEADER_FIELDS_TOO_LARGE := mkStatus 431.
Definition INTERNAL_ERROR := mkStatus 500.
Definition VERSION_NOT_SUPPORTED := mkStatus 505.

Definition reason (s : StatusCode) : bytes :=
  match s.(code) with
  | 200 => B "OK"
  | 400 => B "Bad Request"
  | 404 => B "Not Found"
  | 405 => B "Method Not Allowed"
  | 413 => B "Payload Too Large"
  | 414 => B "URI Too Long"
  | 431 => B "Request Header Fields Too Large"
  | 500 => B "Internal Server Error"
  | 505 => B "HTTP Version Not Supported"
  | _ => B "Unknown"
  end%N.

(** ** Responses *)

(** [Arc<[u8]>] is immutable shared bytes: its value is the bytes. *)
Inductive Body :=
  | Empty
  | Bytes (b : bytes).

Record Response := mkResponse {
  status : StatusCode;
  headers : Headers;
  body : Body;
}.

Definition Response_new (status : StatusCode) : Response :=
  mkResponse status Headers_new Empty.

Definition Response_ok (content_type : bytes) (b : bytes) : Response :=
  let r := Response_new OK in
  mkResponse r.(status)
    (Headers_insert r.(headers) (B "Content-Type") content_type) (Bytes b).

Definition Response_text (status : StatusCode) (msg : bytes) : Response :=
  let r := Response_new status in
  mkResponse r.(Response.status)
    (Headers_insert r.(headers) (B "Content-Type") (B "text/plain; charset=utf-8"))
    (Bytes msg).

Definition with_header (r : Response) (name value : bytes) : Response :=
  mkResponse r.(status) (Headers_insert r.(headers) name value) r.(body).

(** ** Decimal output *)

(** [b'0' + (n % 10) as u8] *)
Definition digit (n : N) : byte := default x00 (Byte.of_N (48 + n mod 10)).

(** The [while n > 0] loop: [i] counts down through [tmp]. *)
Fixpoint digits_loop (fuel : nat) (n : N) (i : nat) (tmp : bytes) : outcome (nat * bytes) :=
  match fuel with
  | 0 => Diverge
  | S fuel =>
    if (n =? 0)%N then Ret (i, tmp) else
    i ← usub i 1;
    if i <? length tmp then digits_loop fuel (n / 10)%N i (<[i := digit n]> tmp)
    else Panic
  end.

(** [write_u16_usize]: at most 20 digits, so 21 rounds of the loop. *)
Definition write_u16_usize (out : bytes) (n : N) : outcome bytes :=
  if (n =? 0)%N then Ret (out ++ B "0") else
  let tmp := replicate 20 x00 in
  '(i, tmp) ← digits_loop 21 n (length tmp) tmp;
  s ← slice_from tmp i;
  Ret (out ++ s).

Definition write_u16 (out : bytes) (n : N) : outcome bytes := write_u16_usize out n.

(** ** The encoder *)

Definition body_bytes (r : Response) : bytes :=
  match r.(body) with
  | Empty => []
  | Bytes b => b
  end.

(** The names the encoder owns. *)
Definition owned (k : bytes) : bool :=
  eq_ignore_ascii_case k (B "content-length") || eq_ignore_ascii_case k (B "connection").

(** The loop over the user headers. *)
Fixpoint encode_headers (out : bytes) (hs : list (bytes * bytes)) : bytes :=
  match hs with
  | [] => out
  | (k, v) :: hs =>
    if owned k then encode_headers out hs
    else encode_headers (out ++ k ++ B ": " ++ v ++ CRLF) hs
  end.

Definition encode (r : Response) (keep_alive include_body : bool) (out : bytes)
    : outcome bytes :=
  let bb := body_bytes r in
  let out := out ++ B "HTTP/1.1 " in
  out ← write_u16 out r.(status).(code);
  let out := out ++ [SP] ++ reason r.(status) ++ CRLF in
  let out := encode_headers out (Headers_iter r.(headers)) in
  let out := out ++ B "Content-Length: " in
  out ← write_u16_usize out (N.of_nat (length bb));
  let out := out ++ CRLF in
  let out := out ++ B "Connection: " ++ (if keep_alive then B "keep-alive" else B "close") ++ CRLF in
  let out := out ++ CRLF in
  Ret (if include_body then out ++ bb else out).

(** ** Decimal numerals *)

(** The digits of [n], most significant first, at most [k] of them. *)
Fixpoint dec_digits (k : nat) (n : N) : bytes :=
  match k with
  | 0 => []
  | S k => if (n =? 0)%N then [] else dec_digits k (n / 10) ++ [digit n]
  end.

Definition decimal (n : N) : bytes := if (n =? 0)%N then B "0" else dec_digits 20 n.

Lemma digit_u8 n : u8 (digit n) = (48 + n mod 10)%N.
Proof.
  unfold digit. destruct (u8_of_N (48 + n mod 10)) as (b & -> & H); [|done].
  pose proof (N.mod_lt n 10). lia.
Qed.

Lemma digit_of_digit n : digit_of (digit n) = Some (n mod 10)%N.
Proof.
  unfold digit_of. rewrite (proj2 (in_range_spec _ _ _)); rewrite digit_u8;
    pose proof (N.mod_lt n 10 ltac:(lia)); generalize dependent (n mod 10)%N;
    intros; [f_equal|]; lia.
Qed.

Lemma dec_digits_le k n : length (dec_digits k n) <= k.
Proof.
  revert n. induction k as [|k IH]; intros n; simpl; [lia|].
  destruct (n =? 0)%N; simpl; [lia|]. rewrite length_app; simpl.
  specialize (IH (n / 10)%N). lia.
Qed.

Lemma pow10_div k n : (n < 10 ^ N.of_nat (S k) -> n / 10 < 10 ^ N.of_nat k)%N.
Proof.
  intros H. apply N.Div0.div_lt_upper_bound.
  by rewrite <-N.pow_succ_r', <-Nat2N.inj_succ.
Qed.

(** The countdown loop leaves the digits right-aligned in [tmp]. *)
Lemma digits_loop_spec k n i tmp :
  (n < 10 ^ N.of_nat k)%N -> k <= i -> i <= length tmp ->
  exists j tmp', digits_loop (S k) n i tmp = Ret (j, tmp') /\
    length tmp' = length tmp /\ j <= i /\
    drop j tmp' = dec_digits k n ++ drop i tmp.
Proof.
  revert n i tmp. induction k as [|k IH]; intros n i tmp Hn Hi Hl.
  - simpl in Hn. assert (n = 0)%N as -> by lia. simpl. by exists i, tmp.
  - cbn [digits_loop dec_digits]. destruct (n =? 0)%N eqn:E0.
    { by exists i, tmp. }
    rewrite usub_ret by lia. cbn [mbind outcome_bind].
    rewrite (proj2 (Nat.ltb_lt (i - 1) (length tmp))) by lia.
    destruct (IH (n / 10)%N (i - 1) (<[i - 1:=digit n]> tmp)) as (j & tmp' & Hj & Hlen & Hle & Hd).
    { by apply pow10_div. } { lia. } { rewrite length_insert. lia. }
    exists j, tmp'. rewrite length_insert in Hlen. split_and!; [done|done|lia|].
    rewrite Hd, <-app_assoc. f_equal. simpl.
    rewrite (drop_S _ (digit n) (i - 1)) by (apply list_lookup_insert_eq; lia).
    f_equal. rewrite drop_insert_lt by lia. by replace (S (i - 1)) with i by lia.
Qed.

Lemma write_u16_usize_spec out n :
  (n <= usize_max)%N -> write_u16_usize out n = Ret (out ++ decimal n).
Proof.
  intros Hn. unfold write_u16_usize, decimal. destruct (n =? 0)%N; [done|].
  destruct (digits_loop_spec 20 n 20 (replicate 20 x00)) as (j & tmp' & Hl & Hlen & Hj & Hd).
  { unfold usize_max in Hn. eapply N.le_lt_trans; [exact Hn|]. by vm_compute. }
  { lia. } { by rewrite length_replicate. }
  rewrite length_replicate, Hl. cbn [mbind outcome_bind].
  rewrite slice_from_ret by (rewrite Hlen, length_replicate; lia).
  cbn. by rewrite Hd, drop_ge, app_nil_r by by rewrite length_replicate.
Qed.

Lemma parse_dec_digits max k n s :
  (n < 10 ^ N.of_nat k)%N -> (n <= max)%N ->
  parse_digits max 0 (dec_digits k n ++ s) = parse_digits max n s.
Proof.
  revert n s. induction k as [|k IH]; intros n s Hn Hm.
  - simpl in Hn. assert (n = 0)%N as -> by lia. done.
  - cbn [dec_digits]. destruct (n =? 0)%N eqn:E0.
    { apply N.eqb_eq in E0 as ->. done. }
    rewrite <-app_assoc, IH by first [by apply pow10_div | apply N.Div0.div_le_upper_bound; lia].
    simpl. rewrite digit_of_digit. simpl.
    replace (n / 10 * 10 + n mod 10)%N with n
      by (pose proof (N.div_mod n 10 ltac:(lia)); lia).
    by rewrite (proj2 (N.ltb_ge max n) Hm).
Qed.

Lemma decimal_digits n : Forall (fun b => in_range b 48 57 = true) (decimal n).
Proof.
  unfold decimal. destruct (n =? 0)%N; [by repeat constructor|].
  generalize 20 as k; intros k. revert n. induction k as [|k IH]; intros n; simpl; [done|].
  destruct (n =? 0)%N; [done|]. apply Forall_app. split; [done|]. apply Forall_singleton.
  apply in_range_spec. rewrite digit_u8.
  pose proof (N.mod_lt n 10 ltac:(lia)). generalize dependent (n mod 10)%N. lia.
Qed.

Lemma digits_utf8 s : Forall (fun b => in_range b 48 57 = true) s -> utf8_valid s = true.
Proof.
  intros Hs. induction Hs as [|b s Hb _ IH]; [done|]. cbn [utf8_valid].
  assert (in_range b 0 127 = true) as -> by (by destruct b). done.
Qed.

Lemma decimal_nonempty n : decimal n <> [].
Proof.
  unfold decimal. destruct (n =? 0)%N eqn:E; [done|]. cbn [dec_digits]. rewrite E.
  by intros [_ ?]%app_eq_nil.
Qed.

Lemma parse_digits_decimal max n s :
  (n <= max)%N -> (n <= usize_max)%N ->
  parse_digits max 0 (decimal n ++ s) = parse_digits max n s.
Proof.
  intros Hm Hu. unfold decimal. destruct (n =? 0)%N eqn:E.
  - apply N.eqb_eq in E as ->. by destruct max.
  - apply parse_dec_digits; [|done]. unfold usize_max in Hu.
    eapply N.le_lt_trans; [exact Hu|]. by vm_compute.
Qed.

Lemma parse_uint_decimal max n :
  (n <= max)%N -> (n <= usize_max)%N -> parse_uint max (decimal n) = Some n.
Proof.
  intros Hm Hu. pose proof (parse_digits_decimal max n [] Hm Hu) as H.
  rewrite app_nil_r in H.
  pose proof (decimal_digits n) as Hd. pose proof (decimal_nonempty n) as Hn.
  destruct (decimal n) as [|b s]; [done|]. unfold parse_uint.
  rewrite byte_eqb_spec, bool_decide_false; [done|].
  intros ->. by apply Forall_cons in Hd as [Hd _].
Qed.

(** ** The encoding, laid out *)

(** The fields the encoder emits: the user's that it does not own, in order,
    then its own two. *)
Definition encoded_fields (r : Response) (keep_alive : bool) : list (bytes * bytes) :=
  List.filter (fun kv => negb (owned kv.1)) (Headers_iter r.(headers)) ++
  [(B "Content-Length", decimal (N.of_nat (length (body_bytes r))));
   (B "Connection", if keep_alive then B "keep-alive" else B "close")].

Definition render_field (kv : bytes * bytes) : bytes := kv.1 ++ B ": " ++ kv.2 ++ CRLF.

Definition render_fields (fs : list (bytes * bytes)) : bytes := concat (render_field <$> fs).

Definition status_line (s : StatusCode) : bytes :=
  B "HTTP/1.1 " ++ decimal s.(code) ++ [SP] ++ reason s ++ CRLF.

Definition encoded_head (r : Response) (keep_alive : bool) : bytes :=
  status_line r.(status) ++ render_fields (encoded_fields r keep_alive) ++ CRLF.

(** A response the encoder can write: a [u16] status and a body that fits in
    memory. *)
Definition Response_ok_size (r : Response) : Prop :=
  (r.(status).(code) < 2 ^ 16)%N /\ (N.of_nat (length (body_bytes r)) <= usize_max)%N.

Lemma render_fields_app fs gs :
  render_fields (fs ++ gs) = render_fields fs ++ render_fields gs.
Proof. unfold render_fields. by rewrite fmap_app, concat_app. Qed.

Lemma render_own len conn :
  render_fields [(B "Content-Length", len); (B "Connection", conn)] =
  B "Content-Length: " ++ len ++ CRLF ++ B "Connection: " ++ conn ++ CRLF.
Proof. unfold render_fields, render_field. simpl. by rewrite app_nil_r, <-!app_assoc. Qed.

Lemma encode_headers_spec out hs :
  encode_headers out hs =
  out ++ render_fields (List.filter (fun kv => negb (owned kv.1)) hs).
Proof.
  revert out. induction hs as [|[k v] hs IH]; intros out; simpl.
  - by rewrite app_nil_r.
  - destruct (owned k); simpl; rewrite IH; [done|].
    unfold render_fields, render_field; simpl. by rewrite <-!app_assoc.
Qed.

Lemma encode_spec r keep_alive include_body out :
  Response_ok_size r ->
  encode r keep_alive include_body out =
  Ret (out ++ encoded_head r keep_alive ++ (if include_body then body_bytes r else [])).
Proof.
  intros [Hc Hb]. unfold encode, write_u16.
  rewrite write_u16_usize_spec by (unfold usize_max; lia). cbn [mbind outcome_bind].
  rewrite encode_headers_spec, write_u16_usize_spec by done. cbn [mbind outcome_bind].
  unfold encoded_head, encoded_fields, status_line.
  rewrite render_fields_app, render_own. f_equal.
  destruct include_body; by rewrite ?app_nil_r, <-!app_assoc.
Qed.

(** ** Properties *)

(** Round trip: the decimal writer, whose digit buffer has exactly room for
    a [usize], never indexes outside it, and what it appends parses back to
    the number. *)
Theorem write_usize_roundtrip : forall out n,
  (n <= usize_max)%N ->
  exists ds, write_u16_usize out n = Ret (out ++ ds) /\ length ds <= 20 /\
    parse_usize ds = Some n.
Proof.
  intros out n Hn. exists (decimal n). split_and!.
  - by apply write_u16_usize_spec.
  - unfold decimal. destruct (n =? 0)%N; [simpl; lia|]. apply dec_digits_le.
  - by apply parse_uint_decimal.
Qed.

Lemma write_usize_roundtrip_witness :
  exists ds, write_u16_usize (B "n=") usize_max = Ret (B "n=" ++ ds) /\ length ds <= 20 /\
    parse_usize ds = Some usize_max.
Proof. apply (write_usize_roundtrip (B "n=") usize_max). vm_compute. discriminate. Defined.

Lemma filter_owned_none (f : bytes -> bool) hs :
  (forall k, f k = true -> owned k = true) ->
  List.filter (fun kv : bytes * bytes => f kv.1)
    (List.filter (fun kv => negb (owned kv.1)) hs) = [].
Proof.
  intros Hf. induction hs as [|[k v] hs IH]; [done|]. cbn [List.filter fst].
  destruct (owned k) eqn:E; cbn [negb List.filter fst]; [done|].
  destruct (f k) eqn:Ef; [|done]. rewrite (Hf k Ef) in E. done.
Qed.

(** C6. Functional: the encoder never panics and appends one status line, the
    user's header fields in order except those it owns, exactly one
    Content-Length, which is the body's length even when the body is left
    out, exactly one Connection that says [keep_alive], a blank line, and the
    body when asked to. *)
Theorem encode_frames_once : forall r keep_alive include_body out,
  Response_ok_size r ->
  exists fields,
    encode r keep_alive include_body out =
      Ret (out ++ status_line r.(status) ++ render_fields fields ++ CRLF ++
           (if include_body then body_bytes r else [])) /\
    List.filter (fun kv => negb (owned kv.1)) fields =
      List.filter (fun kv => negb (owned kv.1)) (Headers_iter r.(headers)) /\
    List.filter (fun kv => eq_ignore_ascii_case kv.1 (B "content-length")) fields =
      [(B "Content-Length", decimal (N.of_nat (length (body_bytes r))))] /\
    List.filter (fun kv => eq_ignore_ascii_case kv.1 (B "connection")) fields =
      [(B "Connection", if keep_alive then B "keep-alive" else B "close")].
Proof.
  intros r keep_alive include_body out Hr. exists (encoded_fields r keep_alive). split_and!.
  - rewrite encode_spec by done. unfold encoded_head. by rewrite <-!app_assoc.
  - unfold encoded_fields. rewrite List.filter_app. cbn -[List.filter app].
    rewrite app_nil_r. induction (Headers_iter (headers r)) as [|[k v] hs IH]; [done|].
    cbn [List.filter fst]. destruct (owned k) eqn:E; cbn [negb List.filter fst]; [done|].
    by rewrite E, IH.
  - unfold encoded_fields. rewrite List.filter_app.
    rewrite (filter_owned_none (fun k => eq_ignore_ascii_case k (B "content-length"))); [done|].
    intros k Hk. unfold owned. by rewrite Hk.
  - unfold encoded_fields. rewrite List.filter_app.
    rewrite (filter_owned_none (fun k => eq_ignore_ascii_case k (B "connection"))); [done|].
    intros k Hk. unfold owned. by rewrite Hk, orb_true_r.
Qed.

Lemma encode_frames_once_witness :
  let r := with_header (with_header (Response_new OK) (B "CONTENT-length") (B "999"))
             (B "X-Custom") (B "yes") in
  exists fields,
    encode r true true [] =
      Ret ([] ++ status_line r.(status) ++ render_fields fields ++ CRLF ++ body_bytes r) /\
    List.filter (fun kv => negb (owned kv.1)) fields =
      List.filter (fun kv => negb (owned kv.1)) (Headers_iter r.(headers)) /\
    List.filter (fun kv => eq_ignore_ascii_case kv.1 (B "content-length")) fields =
      [(B "Content-Length", decimal (N.of_nat (length (body_bytes r))))] /\
    List.filter (fun kv => eq_ignore_ascii_case kv.1 (B "connection")) fields =
      [(B "Connection", B "keep-alive")].
Proof. intros r. apply (encode_frames_once r true true []). by split; vm_compute. Defined.
