(* ===== verification/Request.v ===== *)
(** * The incremental request parser

    core/src/http/request.rs: [Request], [ParseError], [ParseStatus] and
    [RequestParser], a state machine over a growing buffer. *)

From S2P Require Import Prelude RustStr Http Response.

(** ** Requests *)

Record Request := mkRequest {
  req_method : Method;
  req_path : bytes;
  req_version : Version;
  req_headers : Headers;
  req_body : bytes;
}.

(** One of the comma-separated values of [Connection] is [token]. *)
Definition connection_has (r : Request) (token : bytes) : bool :=
  match Headers_get r.(req_headers) (B "connection") with
  | None => false
  | Some v => existsb (fun t => eq_ignore_ascii_case (trim t) token) (split_on x2c v)
  end.

Definition wants_keep_alive (r : Request) : bool :=
  match r.(req_version) with
  | Http11 => negb (connection_has r (B "close"))
  | Http10 => connection_has r (B "keep-alive")
  end.

Definition Request_content_length (r : Request) : N :=
  default 0%N (v ← Headers_get r.(req_headers) (B "content-length"); parse_usize (trim v)).

(** ** Errors *)

Inductive ParseError :=
  | MalformedRequestLine
  | UnsupportedVersion
  | MalformedHeader
  | RequestLineTooLong
  | HeadersTooLarge
  | TooManyHeaders
  | BodyTooLarge.

Definition ParseError_status (e : ParseError) : StatusCode :=
  match e with
  | MalformedRequestLine => BAD_REQUEST
  | MalformedHeader => BAD_REQUEST
  | RequestLineTooLong => URI_TOO_LONG
  | HeadersTooLarge => HEADER_FIELDS_TOO_LARGE
  | TooManyHeaders => HEADER_FIELDS_TOO_LARGE
  | BodyTooLarge => PAYLOAD_TOO_LARGE
  | UnsupportedVersion => VERSION_NOT_SUPPORTED
  end.

Inductive ParseStatus :=
  | Incomplete
  | Complete (request : Request) (consumed : nat)
  | Failed (e : ParseError).

(** ** The parser *)

(** The private [enum State]. *)
Inductive PState := PRequestLine | PHeaders | PBody | PDone.

#[global] Instance PState_eq_dec : EqDecision PState.
Proof. solve_decision. Defined.

Record RequestParser := mkParser {
  buf : bytes;
  state : PState;
  line_start : nat;
  scanned : nat;
  header_block_start : nat;
  body_start : nat;
  header_count : nat;
  content_length : N;
  method : Method;
  path : bytes;
  version : Version;
  headers : Headers;
}.

Definition RequestParser_new : RequestParser :=
  mkParser [] PRequestLine 0 0 0 0 0 0 Unsupported [] Http11 Headers_new.

(** Field assignments. *)
Definition set_buf (b : bytes) (p : RequestParser) : RequestParser :=
  mkParser b p.(state) p.(line_start) p.(scanned) p.(header_block_start) p.(body_start)
    p.(header_count) p.(content_length) p.(method) p.(path) p.(version) p.(headers).
Definition set_state (s : PState) (p : RequestParser) : RequestParser :=
  mkParser p.(buf) s p.(line_start) p.(scanned) p.(header_block_start) p.(body_start)
    p.(header_count) p.(content_length) p.(method) p.(path) p.(version) p.(headers).
Definition set_scanned (i : nat) (p : RequestParser) : RequestParser :=
  mkParser p.(buf) p.(state) p.(line_start) i p.(header_block_start) p.(body_start)
    p.(header_count) p.(content_length) p.(method) p.(path) p.(version) p.(headers).
(** [self.line_start = i; self.scanned = self.line_start] *)
Definition set_line (i : nat) (p : RequestParser) : RequestParser :=
  mkParser p.(buf) p.(state) i i p.(header_block_start) p.(body_start)
    p.(header_count) p.(content_length) p.(method) p.(path) p.(version) p.(headers).
Definition set_header_block_start (i : nat) (p : RequestParser) : RequestParser :=
  mkParser p.(buf) p.(state) p.(line_start) p.(scanned) i p.(body_start)
    p.(header_count) p.(content_length) p.(method) p.(path) p.(version) p.(headers).
Definition set_body_start (i : nat) (p : RequestParser) : RequestParser :=
  mkParser p.(buf) p.(state) p.(line_start) p.(scanned) p.(header_block_start) i
    p.(header_count) p.(content_length) p.(method) p.(path) p.(version) p.(headers).
Definition set_header_count (n : nat) (p : RequestParser) : RequestParser :=
  mkParser p.(buf) p.(state) p.(line_start) p.(scanned) p.(header_block_start)
    p.(body_start) n p.(content_length) p.(method) p.(path) p.(version) p.(headers).
Definition set_content_length (n : N) (p : RequestParser) : RequestParser :=
  mkParser p.(buf) p.(state) p.(line_start) p.(scanned) p.(header_block_start)
    p.(body_start) p.(header_count) n p.(method) p.(path) p.(version) p.(headers).
Definition set_request_line (m : Method) (pa : bytes) (v : Version) (p : RequestParser)
    : RequestParser :=
  mkParser p.(buf) p.(state) p.(line_start) p.(scanned) p.(header_block_start)
    p.(body_start) p.(header_count) p.(content_length) m pa v p.(headers).
Definition set_headers (h : Headers) (p : RequestParser) : RequestParser :=
  mkParser p.(buf) p.(state) p.(line_start) p.(scanned) p.(header_block_start)
    p.(body_start) p.(header_count) p.(content_length) p.(method) p.(path) p.(version) h.

(** [reset] keeps [buf] and, unlike every other field, [headers]. *)
Definition reset (p : RequestParser) : RequestParser :=
  mkParser p.(buf) PRequestLine 0 0 0 0 0 0 Unsupported [] Http11 p.(headers).

Definition fail (p : RequestParser) (e : ParseError) : RequestParser * ParseStatus :=
  (set_state PDone p, Failed e).

(** *** Line search *)

(** The [while i + 1 < len] loop of [next_crlf], on the suffix [s] of the
    buffer that starts at [i]: where the CRLF is, or where the loop ends. *)
Fixpoint crlf_loop (s : bytes) (i : nat) : nat + nat :=
  match s with
  | b0 :: (b1 :: _) as t =>
    if Byte.eqb b0 CR && Byte.eqb b1 LF then inl i else crlf_loop t (i + 1)
  | _ => inr i
  end.

Definition next_crlf (p : RequestParser) : RequestParser * option nat :=
  let i := Nat.max p.(scanned) p.(line_start) in
  match crlf_loop (drop i p.(buf)) i with
  | inl eol => (p, Some eol)
  | inr i => (set_scanned i p, None)
  end.

(** *** The request line *)

Definition parse_request_line (p : RequestParser)
    : outcome (RequestParser * result bool ParseError) :=
  match next_crlf p with
  | (p, None) =>
    n ← usub (length p.(buf)) p.(line_start);
    if exceeds n MAX_REQUEST_LINE then Ret (p, Err RequestLineTooLong)
    else Ret (p, Ok false)
  | (p, Some eol) =>
    n ← usub eol p.(line_start);
    if exceeds n MAX_REQUEST_LINE then Ret (p, Err RequestLineTooLong) else
    line ← slice p.(buf) p.(line_start) eol;
    match split_on SP line with
    | [m; pa; v] =>
      if bool_decide (m <> []) && bool_decide (pa <> []) && bool_decide (v <> []) then
        match from_utf8 pa with
        | None => Ret (p, Err MalformedRequestLine)
        | Some pa =>
          match Version_parse v with
          | None => Ret (p, Err UnsupportedVersion)
          | Some v =>
            let p := set_request_line (Method_parse m) pa v p in
            let p := set_line (eol + 2) p in
            let p := set_header_block_start p.(line_start) p in
            Ret (set_state PHeaders p, Ok true)
          end
        end
      else Ret (p, Err MalformedRequestLine)
    | _ => Ret (p, Err MalformedRequestLine)
    end
  end.

(** *** The header block *)

Definition determine_content_length (p : RequestParser)
    : RequestParser * result unit ParseError :=
  match Headers_get p.(headers) (B "content-length") with
  | None => (set_content_length 0 p, Ok tt)
  | Some v =>
    match parse_usize (trim v) with
    | None => (p, Err MalformedHeader)
    | Some n =>
      if (MAX_BODY_BYTES <? n)%N then (p, Err BodyTooLarge)
      else (set_content_length n p, Ok tt)
    end
  end.

(** The line-to-field part of the loop body: split at the first colon, both
    sides UTF-8 and trimmed, the name not empty. *)
Definition parse_header_line (line : bytes) : result (bytes * bytes) ParseError :=
  match position x3a line with
  | None => Err MalformedHeader
  | Some colon =>
    match from_utf8 (take colon line) with
    | None => Err MalformedHeader
    | Some name =>
      match from_utf8 (drop (colon + 1) line) with
      | None => Err MalformedHeader
      | Some value =>
        if bool_decide (trim name = []) then Err MalformedHeader
        else Ok (trim name, trim value)
      end
    end
  end.

(** The [loop] of [parse_headers]; each round consumes a CRLF, so
    [length buf] bounds the rounds. *)
Fixpoint headers_loop (fuel : nat) (p : RequestParser)
    : outcome (RequestParser * result bool ParseError) :=
  match fuel with
  | 0 => Diverge
  | S fuel =>
    match next_crlf p with
    | (p, None) =>
      n ← usub (length p.(buf)) p.(header_block_start);
      if exceeds n MAX_HEADER_BYTES then Ret (p, Err HeadersTooLarge)
      else Ret (p, Ok false)
    | (p, Some eol) =>
      n ← usub (eol + 2) p.(header_block_start);
      if exceeds n MAX_HEADER_BYTES then Ret (p, Err HeadersTooLarge) else
      if eol =? p.(line_start) then
        match determine_content_length (set_body_start (eol + 2) p) with
        | (p, Err e) => Ret (p, Err e)
        | (p, Ok _) => Ret (set_state PBody p, Ok true)
        end
      else
        line ← slice p.(buf) p.(line_start) eol;
        match parse_header_line line with
        | Err e => Ret (p, Err e)
        | Ok (name, value) =>
          let p := set_header_count (p.(header_count) + 1) p in
          if exceeds p.(header_count) MAX_HEADER_COUNT then Ret (p, Err TooManyHeaders) else
          let p := set_headers (Headers_insert p.(headers) name value) p in
          headers_loop fuel (set_line (eol + 2) p)
        end
    end
  end.

Definition parse_headers (p : RequestParser)
    : outcome (RequestParser * result bool ParseError) :=
  headers_loop (S (length p.(buf))) p.

(** *** The body *)

Definition parse_body (p : RequestParser)
    : outcome (RequestParser * result (option ParseStatus) ParseError) :=
  available ← usub (length p.(buf)) p.(body_start);
  if (N.of_nat available <? p.(content_length))%N then Ret (p, Ok None) else
  let body_end := p.(body_start) + N.to_nat p.(content_length) in
  body ← slice p.(buf) p.(body_start) body_end;
  let request := mkRequest p.(method) p.(path) p.(version) p.(headers) body in
  let consumed := body_end in
  rest ← slice_from p.(buf) consumed;
  let p := set_request_line p.(method) [] p.(version) (set_headers Headers_new p) in
  Ret (set_state PDone (set_buf rest p), Ok (Some (Complete request consumed))).

(** *** The driver *)

(** The [loop] of [advance]: the state only moves forward, so three rounds
    end it. *)
Fixpoint advance_loop (fuel : nat) (p : RequestParser)
    : outcome (RequestParser * ParseStatus) :=
  match fuel with
  | 0 => Diverge
  | S fuel =>
    match p.(state) with
    | PRequestLine =>
      '(p, r) ← parse_request_line p;
      match r with
      | Ok true => advance_loop fuel p
      | Ok false => Ret (p, Incomplete)
      | Err e => Ret (fail p e)
      end
    | PHeaders =>
      '(p, r) ← parse_headers p;
      match r with
      | Ok true => advance_loop fuel p
      | Ok false => Ret (p, Incomplete)
      | Err e => Ret (fail p e)
      end
    | PBody =>
      '(p, r) ← parse_body p;
      match r with
      | Ok (Some status) => Ret (p, status)
      | Ok None => Ret (p, Incomplete)
      | Err e => Ret (fail p e)
      end
    | PDone => Ret (p, Incomplete)
    end
  end.

Definition advance (p : RequestParser) : outcome (RequestParser * ParseStatus) :=
  advance_loop 3 p.

(** [push]: append, then advance. *)
Definition push (p : RequestParser) (bs : bytes) : outcome (RequestParser * ParseStatus) :=
  advance (set_buf (p.(buf) ++ bs) p).
