(* ===== verification/RequestSpec.v ===== *)
(** * What the request parser computes

    A parser for a whole byte stream, written without buffers, indices or
    states, and the proof that [RequestParser] computes it from any
    segmentation of the stream into pushes, without panicking. *)

From Equations Require Import Equations.
From S2P Require Import Prelude RustStr Http Response Request.

(** ** Lines *)

(** The stream up to its first CRLF, and what follows it. *)
Fixpoint split_crlf (s : bytes) : option (bytes * bytes) :=
  match s with
  | b0 :: (b1 :: u) as t =>
    if Byte.eqb b0 CR && Byte.eqb b1 LF then Some ([], u)
    else '(l, r) ← split_crlf t; Some (b0 :: l, r)
  | _ => None
  end.

Definition prepend (pre : bytes) (o : option (bytes * bytes)) : option (bytes * bytes) :=
  '(l, r) ← o; Some (pre ++ l, r).

Lemma prepend_prepend pre pre' o : prepend pre (prepend pre' o) = prepend (pre ++ pre') o.
Proof. destruct o as [[l r]|]; simpl; [|done]. by rewrite app_assoc. Qed.

Lemma prepend_nil o : prepend [] o = o.
Proof. by destruct o as [[l r]|]. Qed.

Lemma prepend_None pre o : prepend pre o = None <-> o = None.
Proof. by destruct o as [[l r]|]. Qed.

(** One step of the two searches; they never unfold further on their own. *)
Lemma split_crlf_cons b0 b1 u :
  split_crlf (b0 :: b1 :: u) =
  if Byte.eqb b0 CR && Byte.eqb b1 LF then Some ([], u)
  else prepend [b0] (split_crlf (b1 :: u)).
Proof. done. Qed.

Lemma crlf_loop_cons b0 b1 u i :
  crlf_loop (b0 :: b1 :: u) i =
  if Byte.eqb b0 CR && Byte.eqb b1 LF then inl i else crlf_loop (b1 :: u) (i + 1).
Proof. done. Qed.

#[local] Arguments split_crlf : simpl never.
#[local] Arguments crlf_loop : simpl never.

(** Induction along the search: the empty and one-byte streams, a CRLF at
    the front, and one byte skipped. *)
Lemma split_crlf_ind (P : bytes -> option (bytes * bytes) -> Prop) :
  P [] None -> (forall b, P [b] None) ->
  (forall u, P (CRLF ++ u) (Some ([], u))) ->
  (forall b0 b1 u, Byte.eqb b0 CR && Byte.eqb b1 LF = false ->
     P (b1 :: u) (split_crlf (b1 :: u)) ->
     P (b0 :: b1 :: u) (prepend [b0] (split_crlf (b1 :: u)))) ->
  forall s, P s (split_crlf s).
Proof.
  intros H0 H1 H2 H3 s. induction s as [|b0 s IH]; [done|].
  destruct s as [|b1 u]; [apply H1|]. rewrite split_crlf_cons.
  destruct (Byte.eqb b0 CR && Byte.eqb b1 LF) eqn:E; [|by apply H3].
  apply andb_true_iff in E as [E0 E1]. rewrite !byte_eqb_spec in *.
  apply bool_decide_eq_true in E0 as ->. apply bool_decide_eq_true in E1 as ->. apply H2.
Qed.

Lemma split_crlf_Some s l r : split_crlf s = Some (l, r) -> s = l ++ CRLF ++ r.
Proof.
  revert l. pattern s, (split_crlf s). apply split_crlf_ind; clear s; try done.
  - intros u l H. by simplify_eq.
  - intros b0 b1 u _ IH l H. destruct (split_crlf (b1 :: u)) as [[l' r']|]; simplify_eq/=.
    f_equal. by apply IH.
Qed.

Lemma split_crlf_lt s l r : split_crlf s = Some (l, r) -> length r < length s.
Proof. intros ->%split_crlf_Some. rewrite !length_app. simpl. lia. Qed.

Lemma split_crlf_app s t l r :
  split_crlf s = Some (l, r) -> split_crlf (s ++ t) = Some (l, r ++ t).
Proof.
  revert l. pattern s, (split_crlf s). apply split_crlf_ind; clear s; try done.
  - intros u l H. by simplify_eq.
  - intros b0 b1 u E IH l H. cbn [app]. rewrite split_crlf_cons, E.
    destruct (split_crlf (b1 :: u)) as [[l' r']|]; simplify_eq/=. by rewrite (IH l').
Qed.

(** A stream with no CRLF need not be searched again, its last byte apart. *)
Lemma split_crlf_resume s t :
  split_crlf s = None ->
  split_crlf (s ++ t) =
  prepend (take (length s - 1) s) (split_crlf (drop (length s - 1) s ++ t)).
Proof.
  pattern s, (split_crlf s). apply split_crlf_ind; clear s; try done.
  - intros _. by rewrite prepend_nil.
  - intros b _. by rewrite prepend_nil.
  - intros b0 b1 u E IH H%prepend_None. specialize (IH H).
    cbn [app] in *. rewrite split_crlf_cons, E, IH, prepend_prepend.
    by replace (length (b0 :: b1 :: u) - 1) with (S (length (b1 :: u) - 1)) by (simpl; lia).
Qed.

(** A line without CR ends at the CRLF that follows it. *)
Definition no_cr (s : bytes) : bool := forallb (fun b => negb (Byte.eqb b CR)) s.

Lemma split_crlf_line l r : no_cr l = true -> split_crlf (l ++ CRLF ++ r) = Some (l, r).
Proof.
  induction l as [|b l IH]; intros H; [done|].
  cbn [no_cr forallb] in H. apply andb_true_iff in H as [Hb Hl]. apply negb_true_iff in Hb.
  specialize (IH Hl). cbn [app] in *.
  destruct (l ++ CRLF ++ r) as [|b1 u] eqn:E; [done|].
  by rewrite split_crlf_cons, Hb, IH.
Qed.

Lemma split_crlf_no_cr l : no_cr l = true -> split_crlf (l ++ [CR]) = None.
Proof.
  induction l as [|b l IH]; intros H; [done|].
  cbn [no_cr forallb] in H. apply andb_true_iff in H as [Hb Hl]. apply negb_true_iff in Hb.
  specialize (IH Hl). cbn [app] in *. destruct (l ++ [CR]) as [|b1 u]; [done|].
  by rewrite split_crlf_cons, Hb, IH.
Qed.

Lemma crlf_loop_spec s i :
  crlf_loop s i =
  match split_crlf s with
  | Some (l, _) => inl (i + length l)
  | None => inr (i + (length s - 1))
  end.
Proof.
  revert i. pattern s, (split_crlf s). apply split_crlf_ind; clear s.
  - intros i. by rewrite Nat.add_0_r.
  - intros b i. by rewrite Nat.add_0_r.
  - intros u i. by rewrite Nat.add_0_r.
  - intros b0 b1 u E IH i. rewrite crlf_loop_cons, E, IH.
    destruct (split_crlf (b1 :: u)) as [[l r]|]; simpl; f_equal; lia.
Qed.

(** ** The stream parser *)

Definition spec_request_line (line : bytes) : result (Method * bytes * Version) ParseError :=
  match split_on SP line with
  | [m; pa; v] =>
    if bool_decide (m <> []) && bool_decide (pa <> []) && bool_decide (v <> []) then
      match from_utf8 pa, Version_parse v with
      | None, _ => Err MalformedRequestLine
      | _, None => Err UnsupportedVersion
      | Some pa, Some v => Ok (Method_parse m, pa, v)
      end
    else Err MalformedRequestLine
  | _ => Err MalformedRequestLine
  end.

(** The body length a header block declares: the first Content-Length. *)
Definition declared_length (hs : Headers) : result N ParseError :=
  match Headers_get hs (B "content-length") with
  | None => Ok 0%N
  | Some v =>
    match parse_usize (trim v) with
    | None => Err MalformedHeader
    | Some n => if (MAX_BODY_BYTES <? n)%N then Err BodyTooLarge else Ok n
    end
  end.

(** [n] bytes of body at offset [base]. *)
Definition spec_take (rl : Method * bytes * Version) (hs : Headers) (n : N) (base : nat)
    (s : bytes) : ParseStatus :=
  let '(m, pa, v) := rl in
  if (N.of_nat (length s) <? n)%N then Incomplete
  else Complete (mkRequest m pa v hs (take (N.to_nat n) s)) (base + N.to_nat n).

Definition spec_body (rl : Method * bytes * Version) (hs : Headers) (base : nat) (s : bytes)
    : ParseStatus :=
  match declared_length hs with
  | Err e => Failed e
  | Ok n => spec_take rl hs n base s
  end.

Definition inspect {A} (a : A) : { x | a = x } := exist _ a eq_refl.

(** The header block that starts at offset [base], after [used] bytes and
    [count] fields of it. *)
Equations? spec_headers (rl : Method * bytes * Version) (base used count : nat)
    (hs : Headers) (s : bytes) : ParseStatus by wf (length s) lt :=
  spec_headers rl base used count hs s with inspect (split_crlf s) => {
    | exist _ None _ =>
        if exceeds (used + length s) MAX_HEADER_BYTES then Failed HeadersTooLarge
        else Incomplete
    | exist _ (Some (line, rest)) E =>
        if exceeds (used + length line + 2) MAX_HEADER_BYTES then Failed HeadersTooLarge else
        if bool_decide (line = []) then spec_body rl hs (base + used + 2) rest else
        match parse_header_line line with
        | Err e => Failed e
        | Ok (name, value) =>
          if exceeds (count + 1) MAX_HEADER_COUNT then Failed TooManyHeaders else
          spec_headers rl base (used + length line + 2) (count + 1)
            (Headers_insert hs name value) rest
        end
  }.
Proof. by eapply split_crlf_lt. Qed.

Definition spec_parse (s : bytes) : ParseStatus :=
  match split_crlf s with
  | None => if exceeds (length s) MAX_REQUEST_LINE then Failed RequestLineTooLong else Incomplete
  | Some (line, rest) =>
    if exceeds (length line) MAX_REQUEST_LINE then Failed RequestLineTooLong else
    match spec_request_line line with
    | Err e => Failed e
    | Ok rl => spec_headers rl (length line + 2) 0 0 Headers_new rest
    end
  end.

Lemma spec_headers_eq rl base used count hs s :
  spec_headers rl base used count hs s =
  match split_crlf s with
  | None =>
    if exceeds (used + length s) MAX_HEADER_BYTES then Failed HeadersTooLarge else Incomplete
  | Some (line, rest) =>
    if exceeds (used + length line + 2) MAX_HEADER_BYTES then Failed HeadersTooLarge else
    if bool_decide (line = []) then spec_body rl hs (base + used + 2) rest else
    match parse_header_line line with
    | Err e => Failed e
    | Ok (name, value) =>
      if exceeds (count + 1) MAX_HEADER_COUNT then Failed TooManyHeaders else
      spec_headers rl base (used + length line + 2) (count + 1)
        (Headers_insert hs name value) rest
    end
  end.
Proof.
  rewrite spec_headers_equation_1. unfold spec_headers_unfold_clause_1.
  destruct (inspect (split_crlf s)) as [[[line rest]|] E]; simpl; by rewrite E.
Qed.
