(* ===== verification/RequestRefine.v ===== *)
(** * [RequestParser] refines the stream parser

    The invariant of the parser's fields, its preservation by every step, and
    the simulation: what a state will answer on a longer buffer is what
    [spec_parse] answers on that stream. *)

From S2P Require Import Prelude RustStr Http Response Request RequestSpec.

(** ** The abstraction *)

(** What a parser in state [p] stands for on a stream [s] that extends its
    buffer. *)
Definition cont (p : RequestParser) (s : bytes) : ParseStatus :=
  let rl := (p.(method), p.(path), p.(version)) in
  match p.(state) with
  | PRequestLine => spec_parse s
  | PHeaders =>
    spec_headers rl p.(header_block_start) (p.(line_start) - p.(header_block_start))
      p.(header_count) p.(headers) (drop p.(line_start) s)
  | PBody =>
    spec_take rl p.(headers) p.(content_length) p.(body_start) (drop p.(body_start) s)
  | PDone => Incomplete
  end.

(** ** The invariant *)

(** No CRLF starts between [line_start] and [scanned], now or after more
    input: the search may resume at [scanned]. *)
Definition scan_ok (p : RequestParser) : Prop :=
  p.(line_start) <= p.(scanned) <= length p.(buf) /\
  forall t, split_crlf (drop p.(line_start) (p.(buf) ++ t)) =
    prepend (take (p.(scanned) - p.(line_start)) (drop p.(line_start) p.(buf)))
      (split_crlf (drop p.(scanned) (p.(buf) ++ t))).

Definition wf (p : RequestParser) : Prop :=
  match p.(state) with
  | PRequestLine =>
    p.(line_start) = 0 /\ p.(header_count) = 0 /\ p.(headers) = Headers_new /\ scan_ok p
  | PHeaders =>
    (N.of_nat p.(header_block_start) <= MAX_REQUEST_LINE + 2)%N /\
    p.(header_block_start) <= p.(line_start) /\
    (N.of_nat (p.(line_start) - p.(header_block_start)) <= MAX_HEADER_BYTES)%N /\
    scan_ok p
  | PBody =>
    (N.of_nat p.(body_start) <= MAX_REQUEST_LINE + 2 + MAX_HEADER_BYTES)%N /\
    p.(body_start) <= length p.(buf) /\
    declared_length p.(headers) = Ok p.(content_length)
  | PDone => True
  end.

(** ** The line search *)

Lemma scan_ok_set_line i p : i <= length p.(buf) -> scan_ok (set_line i p).
Proof.
  intros H. split; simpl; [lia|]. intros t. by rewrite Nat.sub_diag, prepend_nil.
Qed.

(** Appending input keeps the invariant of the search. *)
Lemma scan_ok_push b p : scan_ok p -> scan_ok (set_buf (p.(buf) ++ b) p).
Proof.
  intros [Hb Hs]. split; simpl; [rewrite length_app; lia|]. intros t.
  rewrite <-app_assoc, Hs. f_equal.
  rewrite drop_app_le by lia. rewrite take_app_le; [done|]. rewrite length_drop. lia.
Qed.

Lemma next_crlf_Some p line rest :
  scan_ok p -> split_crlf (drop p.(line_start) p.(buf)) = Some (line, rest) ->
  next_crlf p = (p, Some (p.(line_start) + length line)).
Proof.
  intros [Hb Hs] H. specialize (Hs []). rewrite app_nil_r, H in Hs.
  unfold next_crlf. rewrite Nat.max_l, crlf_loop_spec by lia.
  destruct (split_crlf (drop (scanned p) (buf p))) as [[l r]|]; simplify_eq/=.
  rewrite length_app, length_take, length_drop. do 2 f_equal. lia.
Qed.

Lemma next_crlf_None p :
  scan_ok p -> split_crlf (drop p.(line_start) p.(buf)) = None ->
  exists i, next_crlf p = (set_scanned i p, None) /\ scan_ok (set_scanned i p).
Proof.
  intros [Hb Hs] H. pose proof (Hs []) as H0. rewrite app_nil_r, H in H0.
  symmetry in H0. apply prepend_None in H0.
  unfold next_crlf. rewrite Nat.max_l, crlf_loop_spec, H0 by lia.
  eexists. split; [done|]. rewrite length_drop. split; simpl; [lia|]. intros t.
  rewrite Hs, (drop_app_le _ t (scanned p)) by lia. rewrite (split_crlf_resume _ t H0), prepend_prepend.
  rewrite length_drop, drop_drop, <-drop_app_le by lia. f_equal.
  replace (drop (scanned p) (buf p))
    with (drop (scanned p - line_start p) (drop (line_start p) (buf p)))
    by (rewrite drop_drop; f_equal; lia).
  rewrite take_take_drop. f_equal. lia.
Qed.

(** A line the search found: its slice, and where the next line starts. *)
Lemma line_found p line rest :
  p.(line_start) <= length p.(buf) ->
  split_crlf (drop p.(line_start) p.(buf)) = Some (line, rest) ->
  let eol := p.(line_start) + length line in
  slice p.(buf) p.(line_start) eol = Ret line /\
  eol + 2 <= length p.(buf) /\
  forall t, drop p.(line_start) (p.(buf) ++ t) = line ++ CRLF ++ rest ++ t /\
    split_crlf (drop p.(line_start) (p.(buf) ++ t)) = Some (line, rest ++ t) /\
    drop (eol + 2) (p.(buf) ++ t) = rest ++ t.
Proof.
  intros Hb H eol. pose proof (split_crlf_Some _ _ _ H) as E.
  assert (length (drop (line_start p) (buf p)) = length line + 2 + length rest) as Hl
    by (rewrite E, !length_app; simpl; lia).
  rewrite length_drop in Hl. split_and!; subst eol.
  - rewrite slice_ret by lia. by rewrite E, Nat.add_comm, Nat.add_sub, take_app_length.
  - lia.
  - intros t. rewrite drop_app_le by lia. split_and!.
    + by rewrite E, <-!app_assoc.
    + by apply split_crlf_app.
    + rewrite drop_app_le by lia. f_equal.
      rewrite <-Nat.add_assoc, <-drop_drop, E, drop_app_ge by lia.
      by replace (length line + 2 - length line) with 2 by lia.
Qed.

(** ** The phases *)

Lemma determine_content_length_spec p :
  determine_content_length p =
  match declared_length p.(headers) with
  | Ok n => (set_content_length n p, Ok tt)
  | Err e => (p, Err e)
  end.
Proof.
  unfold determine_content_length, declared_length.
  destruct (Headers_get _ _) as [v|]; [|done].
  destruct (parse_usize (trim v)) as [n|]; [|done]. by destruct (MAX_BODY_BYTES <? n)%N.
Qed.

(** The token part of [parse_request_line], against its specification. *)
Lemma request_line_tokens p eol line :
  match split_on SP line with
  | [m; pa; v] =>
    if bool_decide (m <> []) && bool_decide (pa <> []) && bool_decide (v <> []) then
      match from_utf8 pa with
      | None => Ret (p, Err MalformedRequestLine)
      | Some pa =>
        match Version_parse v with
        | None => Ret (p, Err UnsupportedVersion)
        | Some v =>
          let p := set_request_line (Method_parse m) pa v p in
          let p := set_line (eol + 2) p in
          let p := set_header_block_start p.(line_start) p in
          Ret (set_state PHeaders p, Ok true)
        end
      end
    else Ret (p, Err MalformedRequestLine)
  | _ => Ret (p, Err MalformedRequestLine)
  end =
  match spec_request_line line with
  | Err e => Ret (p, Err e)
  | Ok (m, pa, v) =>
    Ret (set_state PHeaders (set_header_block_start (eol + 2)
           (set_line (eol + 2) (set_request_line m pa v p))), Ok true)
  end.
Proof.
  unfold spec_request_line. destruct (split_on SP line) as [|m [|pa [|v [|]]]]; try done.
  destruct (bool_decide _ && _ && _); [|done].
  destruct (from_utf8 pa); [|done]. by destruct (Version_parse v).
Qed.

(** What one phase of the loop leaves behind, for a parser [p] and its answer
    [(p', r)]: an error or a wait is what the stream parser says, and going on
    changes nothing about the stream. *)
Definition phase_post (p p' : RequestParser) (next : PState) (r : result bool ParseError)
    : Prop :=
  p'.(buf) = p.(buf) /\
  match r with
  | Err e => cont p p.(buf) = Failed e
  | Ok more =>
    wf p' /\ (forall t, cont p' (p.(buf) ++ t) = cont p (p.(buf) ++ t)) /\
    if more then p'.(state) = next
    else p'.(state) = p.(state) /\ cont p p.(buf) = Incomplete
  end.

Lemma parse_request_line_spec p :
  wf p -> p.(state) = PRequestLine ->
  exists p' r, parse_request_line p = Ret (p', r) /\ phase_post p p' PHeaders r.
Proof.
  intros Hwf Hst. unfold wf in Hwf. rewrite Hst in Hwf.
  destruct Hwf as (Hls & Hc & Hh & Hscan). pose proof Hscan as [Hb _].
  unfold phase_post, cont. rewrite Hst. unfold parse_request_line.
  destruct (split_crlf (drop (line_start p) (buf p))) as [[line rest]|] eqn:E.
  - rewrite (next_crlf_Some _ _ _ Hscan E).
    destruct (line_found p line rest) as (Hsl & Hle & Ht); [lia|done|].
    rewrite usub_ret by lia. cbn [mbind outcome_bind].
    replace (line_start p + length line - line_start p) with (length line) by lia.
    rewrite Hls in E, Ht. rewrite drop_0 in E.
    destruct (exceeds (length line) MAX_REQUEST_LINE) eqn:Hex.
    { eexists _, _. split; [done|]. unfold spec_parse. by rewrite E, Hex. }
    rewrite Hsl. cbn [mbind outcome_bind]. rewrite request_line_tokens.
    destruct (spec_request_line line) as [[[m pa] v]|e] eqn:Hrl.
    2: { eexists _, _. split; [done|]. unfold spec_parse. by rewrite E, Hex, Hrl. }
    eexists _, _. split; [done|]. rewrite Hls. split; [done|]. split_and!.
    + apply exceeds_false in Hex. split_and!; simpl; [lia|lia|lia|].
      split; simpl; [lia|]. intros t. by rewrite Nat.sub_diag, prepend_nil.
    + intros t. destruct (Ht t) as (_ & Hsp & Hd). rewrite drop_0 in Hsp.
      unfold spec_parse. rewrite Hsp, Hex, Hrl. simpl in *.
      by rewrite Hd, Nat.sub_diag, Hc, Hh.
    + done.
  - destruct (next_crlf_None _ Hscan E) as (i & -> & Hscan').
    change (buf (set_scanned i p)) with (buf p). change (line_start (set_scanned i p)) with (line_start p).
    rewrite usub_ret by lia. cbn [mbind outcome_bind].
    rewrite Hls in *. rewrite drop_0 in E. rewrite Nat.sub_0_r.
    destruct (exceeds (length (buf p)) MAX_REQUEST_LINE) eqn:Hex; eexists _, _; (split; [done|]).
    + split; [done|]. unfold spec_parse. by rewrite E, Hex.
    + split; [done|]. unfold wf, cont. simpl. rewrite Hst. split_and!; try done.
      unfold spec_parse. by rewrite E, Hex.
Qed.

(** The stream parser at a header line of the block. *)
Lemma cont_headers_line p line rest t :
  p.(state) = PHeaders -> p.(line_start) <= length p.(buf) ->
  split_crlf (drop p.(line_start) p.(buf)) = Some (line, rest) ->
  let rl := (p.(method), p.(path), p.(version)) in
  let used := p.(line_start) - p.(header_block_start) in
  cont p (p.(buf) ++ t) =
  if exceeds (used + length line + 2) MAX_HEADER_BYTES then Failed HeadersTooLarge else
  if bool_decide (line = []) then
    spec_body rl p.(headers) (p.(header_block_start) + used + 2) (rest ++ t) else
  match parse_header_line line with
  | Err e => Failed e
  | Ok (name, value) =>
    if exceeds (p.(header_count) + 1) MAX_HEADER_COUNT then Failed TooManyHeaders else
    spec_headers rl p.(header_block_start) (used + length line + 2) (p.(header_count) + 1)
      (Headers_insert p.(headers) name value) (rest ++ t)
  end.
Proof.
  intros Hst Hb E rl used. destruct (line_found p line rest Hb E) as (_ & _ & Ht).
  destruct (Ht t) as (_ & Hsp & _). unfold cont. by rewrite Hst, spec_headers_eq, Hsp.
Qed.

(** The end of the buffer inside the header block. *)
Lemma headers_no_line fuel p :
  wf p -> p.(state) = PHeaders -> split_crlf (drop p.(line_start) p.(buf)) = None ->
  exists p' r, headers_loop (S fuel) p = Ret (p', r) /\ phase_post p p' PBody r.
Proof.
  intros Hwf Hst E. unfold wf in Hwf. rewrite Hst in Hwf.
  destruct Hwf as (Hhbs & Hle & Hsz & Hscan). pose proof Hscan as [Hb _].
  cbn [headers_loop]. destruct (next_crlf_None _ Hscan E) as (i & -> & Hscan').
  change (buf (set_scanned i p)) with (buf p).
  change (header_block_start (set_scanned i p)) with (header_block_start p).
  rewrite usub_ret by lia. cbn [mbind outcome_bind].
  assert (length (buf p) - header_block_start p =
    line_start p - header_block_start p + length (drop (line_start p) (buf p))) as ->
    by (rewrite length_drop; lia).
  unfold phase_post, cont. rewrite Hst.
  destruct (exceeds _ MAX_HEADER_BYTES) eqn:Hex; eexists _, _; (split; [done|]); (split; [done|]).
  - by rewrite spec_headers_eq, E, Hex.
  - unfold wf, cont. simpl. rewrite Hst. split_and!; try done.
    by rewrite spec_headers_eq, E, Hex.
Qed.

(** The blank line that ends it. *)
Lemma headers_blank_line p rest e :
  wf p -> p.(state) = PHeaders ->
  split_crlf (drop p.(line_start) p.(buf)) = Some ([], rest) ->
  exceeds (p.(line_start) - p.(header_block_start) + 2) MAX_HEADER_BYTES = false ->
  e = p.(line_start) + 2 ->
  exists p' r,
    match determine_content_length (set_body_start e p) with
    | (p, Err e) => Ret (p, Err e)
    | (p, Ok _) => Ret (set_state PBody p, Ok true)
    end = Ret (p', r) /\ phase_post p p' PBody r.
Proof.
  intros Hwf Hst E Hex ->. unfold wf in Hwf. rewrite Hst in Hwf.
  destruct Hwf as (Hhbs & Hle & Hsz & [Hb _]).
  destruct (line_found p [] rest) as (_ & Hlen & Ht); [lia|done|]. simpl in Hlen, Ht.
  rewrite Nat.add_0_r in Hlen, Ht.
  rewrite determine_content_length_spec. cbn [headers set_body_start].
  pose proof (fun t => cont_headers_line p [] rest t Hst ltac:(lia) E) as Hc. simpl in Hc.
  rewrite Nat.add_0_r, Hex in Hc. unfold spec_body in Hc.
  pose proof (Hc []) as Hc0. rewrite app_nil_r in Hc0.
  unfold phase_post. rewrite Hc0.
  destruct (declared_length (headers p)) as [n|err] eqn:Hd; eexists _, _; (split; [done|]);
    (split; [done|]); [|done].
  apply exceeds_false in Hex. split_and!.
  - unfold wf; simpl. split_and!; [lia|lia|done].
  - intros t. rewrite Hc. unfold cont; simpl. destruct (Ht t) as (_ & _ & ->).
    by replace (header_block_start p + (line_start p - header_block_start p) + 2)
      with (line_start p + 2) by lia.
  - done.
Qed.

(** The state after a field line: the loop's next round. *)
Lemma headers_field_line p line rest name value :
  wf p -> p.(state) = PHeaders ->
  split_crlf (drop p.(line_start) p.(buf)) = Some (line, rest) -> line <> [] ->
  exceeds (p.(line_start) - p.(header_block_start) + length line + 2) MAX_HEADER_BYTES = false ->
  parse_header_line line = Ok (name, value) ->
  exceeds (p.(header_count) + 1) MAX_HEADER_COUNT = false ->
  let q := set_line (p.(line_start) + length line + 2)
    (set_headers (Headers_insert p.(headers) name value)
      (set_header_count (p.(header_count) + 1) p)) in
  wf q /\ length q.(buf) - q.(line_start) < length p.(buf) - p.(line_start) /\
  forall t, cont q (p.(buf) ++ t) = cont p (p.(buf) ++ t).
Proof.
  intros Hwf Hst E Hne Hex Hp Hcnt q. unfold wf in Hwf. rewrite Hst in Hwf.
  destruct Hwf as (Hhbs & Hle & Hsz & [Hb _]).
  destruct (line_found p line rest) as (_ & Hlen & Ht); [lia|done|].
  apply exceeds_false in Hex as Hex'. split_and!.
  - unfold wf; simpl. rewrite Hst. split_and!; [done|lia|lia|].
    apply (scan_ok_set_line _ (set_headers _ (set_header_count _ p))). simpl. lia.
  - simpl. lia.
  - intros t. rewrite (cont_headers_line p line rest t Hst ltac:(lia) E), Hex.
    rewrite bool_decide_false, Hp, Hcnt by done. unfold cont; simpl. rewrite Hst.
    destruct (Ht t) as (_ & _ & ->). f_equal. lia.
Qed.

Lemma headers_loop_spec fuel p :
  wf p -> p.(state) = PHeaders -> length p.(buf) - p.(line_start) < fuel ->
  exists p' r, headers_loop fuel p = Ret (p', r) /\ phase_post p p' PBody r.
Proof.
  revert p. induction fuel as [|fuel IH]; intros p Hwf Hst Hfuel; [lia|].
  destruct (split_crlf (drop (line_start p) (buf p))) as [[line rest]|] eqn:E;
    [|by apply headers_no_line].
  pose proof Hwf as Hwf'. unfold wf in Hwf'. rewrite Hst in Hwf'.
  destruct Hwf' as (_ & Hle & _ & Hscan). pose proof Hscan as [Hb _].
  cbn [headers_loop]. rewrite (next_crlf_Some _ _ _ Hscan E).
  destruct (line_found p line rest) as (Hsl & Hlen & Ht); [lia|done|].
  pose proof (cont_headers_line p line rest [] Hst ltac:(lia) E) as Hc.
  cbv zeta in Hc. rewrite !app_nil_r in Hc.
  rewrite usub_ret by lia. cbn [mbind outcome_bind].
  replace (line_start p + length line + 2 - header_block_start p)
    with (line_start p - header_block_start p + length line + 2) by lia.
  destruct (exceeds _ MAX_HEADER_BYTES) eqn:Hex; [by eexists _, _|].
  destruct (decide (line = [])) as [->|Hne].
  { rewrite Nat.add_0_r, Nat.eqb_refl. rewrite Nat.add_0_r in Hex.
    by apply (headers_blank_line p rest). }
  rewrite bool_decide_false in Hc by done.
  destruct (Nat.eqb_spec (line_start p + length line) (line_start p)) as [|_].
  { destruct line; [done|]. simpl in *; lia. }
  rewrite Hsl. cbn [mbind outcome_bind].
  destruct (parse_header_line line) as [[name value]|e] eqn:Hp; [|by eexists _, _].
  cbn [header_count set_header_count].
  destruct (exceeds (header_count p + 1) MAX_HEADER_COUNT) eqn:Hcnt; [by eexists _, _|].
  destruct (headers_field_line p line rest name value) as (Hwfq & Hlt & Hcont); try done.
  destruct (IH _ Hwfq) as (p' & r & Hrun & Hbuf & Hpost); [done|lia|].
  exists p', r. split; [exact Hrun|]. split; [done|].
  cbn [buf set_line set_headers set_header_count] in *.
  destruct r as [more|e].
  - destruct Hpost as (Hw & Hct & Hm). split_and!; [done|intros t; by rewrite Hct, Hcont|].
    destruct more; [done|]. destruct Hm as [-> Hm]. split; [done|].
    specialize (Hcont []). rewrite app_nil_r in Hcont. by rewrite <-Hcont.
  - specialize (Hcont []). rewrite app_nil_r in Hcont. by rewrite <-Hcont.
Qed.

(** ** The driver *)

Lemma parse_body_spec p :
  wf p -> p.(state) = PBody ->
  exists p' r, parse_body p = Ret (p', r) /\
  match r with
  | Err _ => False
  | Ok None => p' = p /\ cont p p.(buf) = Incomplete
  | Ok (Some st) =>
    exists req c, st = Complete req c /\ cont p p.(buf) = st /\ p'.(state) = PDone /\
      c <= length p.(buf) /\ reset p' = set_buf (drop c p.(buf)) RequestParser_new
  end.
Proof.
  intros Hwf Hst. unfold wf in Hwf. rewrite Hst in Hwf. destruct Hwf as (_ & Hb & _).
  unfold parse_body, cont, spec_take. rewrite Hst, usub_ret by lia. cbn [mbind outcome_bind].
  rewrite length_drop. destruct (N.ltb_spec (N.of_nat (length (buf p) - body_start p)) (content_length p)).
  { by eexists _, _. }
  rewrite slice_ret by lia. cbn [mbind outcome_bind]. rewrite slice_from_ret by lia.
  cbn [mbind outcome_bind]. eexists _, _. split; [done|]. eexists _, _. split; [done|].
  split_and!; [|done|lia|done]. do 3 f_equal. lia.
Qed.

(** What a call of [advance] on [p] leaves behind. *)
Definition advance_post (p p' : RequestParser) (st : ParseStatus) : Prop :=
  st = cont p p.(buf) /\
  match st with
  | Incomplete =>
    wf p' /\ p'.(state) <> PDone /\ p'.(buf) = p.(buf) /\
    forall t, cont p' (p.(buf) ++ t) = cont p (p.(buf) ++ t)
  | Complete _ c =>
    p'.(state) = PDone /\ c <= length p.(buf) /\
    reset p' = set_buf (drop c p.(buf)) RequestParser_new
  | Failed _ => p'.(state) = PDone
  end.

(** A phase that moved on hands its promise to the rest of the loop. *)
Lemma advance_post_trans p q p' st :
  q.(buf) = p.(buf) -> (forall t, cont q (p.(buf) ++ t) = cont p (p.(buf) ++ t)) ->
  advance_post q p' st -> advance_post p p' st.
Proof.
  intros Hb Hc [Hst Hp]. specialize (Hc []) as Hc0. rewrite app_nil_r in Hc0.
  split; [by rewrite Hst, Hb, Hc0|]. rewrite Hb in Hp. destruct st; [|done|done].
  destruct Hp as (? & ? & ? & Hc'). split_and!; try done. intros t. by rewrite Hc', Hc.
Qed.

Lemma advance_loop_S fuel p :
  advance_loop (S fuel) p =
  match p.(state) with
  | PRequestLine =>
    '(p, r) ← parse_request_line p;
    match r with
    | Ok true => advance_loop fuel p
    | Ok false => Ret (p, Incomplete)
    | Err e => Ret (fail p e)
    end
  | PHeaders =>
    '(p, r) ← parse_headers p;
    match r with
    | Ok true => advance_loop fuel p
    | Ok false => Ret (p, Incomplete)
    | Err e => Ret (fail p e)
    end
  | PBody =>
    '(p, r) ← parse_body p;
    match r with
    | Ok (Some status) => Ret (p, status)
    | Ok None => Ret (p, Incomplete)
    | Err e => Ret (fail p e)
    end
  | PDone => Ret (p, Incomplete)
  end.
Proof. done. Qed.

Lemma advance_PBody fuel p :
  wf p -> p.(state) = PBody ->
  exists p' st, advance_loop (S fuel) p = Ret (p', st) /\ advance_post p p' st.
Proof.
  intros Hwf Hst. destruct (parse_body_spec p Hwf Hst) as (p' & r & Hrun & Hr).
  rewrite advance_loop_S, Hst, Hrun. cbn [mbind outcome_bind].
  destruct r as [[st|]|e]; [| |done].
  - destruct Hr as (req & c & -> & Hc & Hd & Hle & Hreset). by eexists _, _.
  - destruct Hr as [-> Hc]. eexists _, _. split; [done|]. split; [done|].
    by rewrite Hst.
Qed.

(** One phase of the loop, given what the next one does. *)
Lemma advance_phase p p' next r (k : RequestParser -> outcome (RequestParser * ParseStatus)) :
  p.(state) <> PDone -> phase_post p p' next r ->
  (forall q, wf q -> q.(state) = next -> exists q' st, k q = Ret (q', st) /\ advance_post q q' st) ->
  exists p'' st,
    match r with
    | Ok true => k p'
    | Ok false => Ret (p', Incomplete)
    | Err e => Ret (fail p' e)
    end = Ret (p'', st) /\ advance_post p p'' st.
Proof.
  intros Hne [Hb Hr] Hk. destruct r as [[]|e].
  - destruct Hr as (Hwf & Hc & Hn). destruct (Hk p' Hwf Hn) as (q' & st & -> & Hpost).
    eexists _, _. split; [done|]. by eapply advance_post_trans.
  - destruct Hr as (Hwf & Hc & Hs & Hi). eexists _, _. split; [done|]. split; [done|].
    by rewrite Hs.
  - eexists _, _. split; [done|]. by split.
Qed.

Lemma advance_PHeaders fuel p :
  wf p -> p.(state) = PHeaders ->
  exists p' st, advance_loop (S (S fuel)) p = Ret (p', st) /\ advance_post p p' st.
Proof.
  intros Hwf Hst. rewrite advance_loop_S, Hst. unfold parse_headers.
  destruct (headers_loop_spec (S (length (buf p))) p Hwf Hst) as (p' & r & -> & Hpost); [lia|].
  cbn [mbind outcome_bind]. apply (advance_phase p p' PBody r (advance_loop (S fuel))); [by rewrite Hst|done|].
  intros q Hq Hs. by apply advance_PBody.
Qed.

Lemma advance_spec p :
  wf p -> p.(state) <> PDone ->
  exists p' st, advance p = Ret (p', st) /\ advance_post p p' st.
Proof.
  intros Hwf Hne. unfold advance. destruct (state p) eqn:Hst; [|by apply advance_PHeaders|by apply advance_PBody|done].
  rewrite advance_loop_S, Hst.
  destruct (parse_request_line_spec p Hwf Hst) as (p' & r & -> & Hpost).
  cbn [mbind outcome_bind]. apply (advance_phase p p' PHeaders r (advance_loop 2)); [by rewrite Hst|done|].
  intros q Hq Hs. by apply advance_PHeaders.
Qed.

(** ** Pushing *)

(** [p] has been pushed the stream [s], all of it waiting in the buffer. *)
Definition Represents (p : RequestParser) (s : bytes) : Prop :=
  wf p /\ p.(state) <> PDone /\ p.(buf) = s /\
  forall t, cont p (s ++ t) = spec_parse (s ++ t).

Lemma wf_push b p : wf p -> wf (set_buf (p.(buf) ++ b) p).
Proof.
  unfold wf. cbn [state set_buf]. destruct (state p); simpl; [| | |done].
  - intros (? & ? & ? & ?). split_and!; try done. by apply scan_ok_push.
  - intros (? & ? & ? & ?). split_and!; try done. by apply scan_ok_push.
  - intros (? & ? & ?). rewrite length_app. split_and!; [done|lia|done].
Qed.

(** A parser that was given back its leftover [s], as after [reset]. *)
Lemma Represents_leftover s : Represents (set_buf s RequestParser_new) s.
Proof.
  split; [|done]. unfold wf; simpl. split_and!; try done. split; simpl; [lia|].
  intros t. by rewrite prepend_nil.
Qed.

Lemma Represents_new : Represents RequestParser_new [].
Proof. apply (Represents_leftover []). Qed.

Lemma push_Represents p s b :
  Represents p s ->
  exists p', push p b = Ret (p', spec_parse (s ++ b)) /\
  match spec_parse (s ++ b) with
  | Incomplete => Represents p' (s ++ b)
  | Complete _ c =>
    p'.(state) = PDone /\ c <= length (s ++ b) /\
    reset p' = set_buf (drop c (s ++ b)) RequestParser_new
  | Failed _ => p'.(state) = PDone
  end.
Proof.
  intros (Hwf & Hne & Hb & Hc). unfold push. rewrite Hb.
  destruct (advance_spec (set_buf (s ++ b) p)) as (p' & st & Hrun & Hst & Hpost).
  { rewrite <-Hb. by apply wf_push. } { done. }
  change (cont (set_buf (s ++ b) p)) with (cont p) in Hst, Hpost.
  change (buf (set_buf (s ++ b) p)) with (s ++ b) in Hst, Hpost.
  rewrite Hc in Hst. subst st. exists p'. split; [done|].
  destruct (spec_parse (s ++ b)); [|done|done].
  destruct Hpost as (? & ? & ? & Hct). split_and!; try done.
  intros t. by rewrite Hct, <-app_assoc, Hc.
Qed.
