(* ===== verification/RequestProps.v ===== *)
(** * Properties of the request parser

    Independence of segmentation, bounded buffering, what a complete request
    guarantees, pipelining, and parsing a printed request. *)

From S2P Require Import Prelude RustStr Http Response Request RequestSpec RequestRefine.

(** ** Facts about the stream parser *)

(** A CRLF that appears only with more input starts at the end of what there
    was, at the earliest. *)
Lemma split_crlf_late s t l r :
  split_crlf s = None -> split_crlf (s ++ t) = Some (l, r) -> length s <= length l + 1.
Proof.
  intros H Ht. rewrite (split_crlf_resume _ _ H) in Ht.
  destruct (split_crlf (drop _ _ ++ t)) as [[l' r']|]; simplify_eq/=.
  rewrite length_app, length_take. lia.
Qed.

Lemma spec_take_app rl hs n base s t :
  spec_take rl hs n base s <> Incomplete ->
  spec_take rl hs n base (s ++ t) = spec_take rl hs n base s.
Proof.
  destruct rl as [[m pa] v]. unfold spec_take. intros H.
  destruct (N.ltb_spec (N.of_nat (length s)) n); [done|].
  destruct (N.ltb_spec (N.of_nat (length (s ++ t))) n) as [Hlt|_].
  { rewrite length_app in Hlt. lia. }
  by rewrite take_app_le by lia.
Qed.

Lemma spec_headers_app rl base used count hs s t :
  spec_headers rl base used count hs s <> Incomplete ->
  spec_headers rl base used count hs (s ++ t) = spec_headers rl base used count hs s.
Proof.
  revert used count hs. induction s as [s IH] using list_length_ind; intros used count hs H.
  rewrite (spec_headers_eq _ _ _ _ _ (s ++ t)). rewrite spec_headers_eq in H |- *.
  destruct (split_crlf s) as [[line rest]|] eqn:E.
  - rewrite (split_crlf_app _ _ _ _ E).
    destruct (exceeds (used + length line + 2) MAX_HEADER_BYTES); [done|].
    destruct (bool_decide (line = [])).
    { unfold spec_body in *. destruct (declared_length hs); [|done]. by apply spec_take_app. }
    destruct (parse_header_line line) as [[name value]|]; [|done].
    destruct (exceeds (count + 1) MAX_HEADER_COUNT); [done|].
    apply IH; [by eapply split_crlf_lt|done].
  - destruct (exceeds (used + length s) MAX_HEADER_BYTES) eqn:Hex; [|done].
    apply exceeds_spec in Hex.
    destruct (split_crlf (s ++ t)) as [[l r]|] eqn:E'.
    + pose proof (split_crlf_late _ _ _ _ E E').
      rewrite (proj2 (exceeds_spec _ _)); [done|]. lia.
    + rewrite (proj2 (exceeds_spec _ _)); [done|]. rewrite length_app. lia.
Qed.

(** The stream's request line is not exactly as long as the limit. *)
Definition off_limit (s : bytes) : Prop :=
  forall line rest, split_crlf s = Some (line, rest) -> N.of_nat (length line) <> MAX_REQUEST_LINE.

Lemma spec_parse_app s t :
  spec_parse s <> Incomplete -> off_limit (s ++ t) \/ split_crlf s <> None ->
  spec_parse (s ++ t) = spec_parse s.
Proof.
  unfold spec_parse. intros H Hoff. destruct (split_crlf s) as [[line rest]|] eqn:E.
  - rewrite (split_crlf_app _ _ _ _ E).
    destruct (exceeds (length line) MAX_REQUEST_LINE); [done|].
    destruct (spec_request_line line); [|done]. by apply spec_headers_app.
  - destruct (exceeds (length s) MAX_REQUEST_LINE) eqn:Hex; [|done].
    apply exceeds_spec in Hex. destruct Hoff as [Hoff|]; [|done].
    destruct (split_crlf (s ++ t)) as [[l r]|] eqn:E'.
    + pose proof (split_crlf_late _ _ _ _ E E'). specialize (Hoff _ _ E').
      rewrite (proj2 (exceeds_spec _ _)); [done|]. lia.
    + rewrite (proj2 (exceeds_spec _ _)); [done|]. rewrite length_app. lia.
Qed.

Lemma parse_header_line_error line e : parse_header_line line = Err e -> e = MalformedHeader.
Proof. unfold parse_header_line. intros H. by repeat case_match; simplify_eq. Qed.

(** A header field that was accepted has a name. *)
Lemma parse_header_line_name line name value :
  parse_header_line line = Ok (name, value) -> name <> [].
Proof.
  unfold parse_header_line. intros H. repeat case_match; simplify_eq.
  by eapply bool_decide_eq_false.
Qed.

(** Past the request line, no answer blames it. *)
Lemma spec_headers_not_line_error rl base used count hs s :
  spec_headers rl base used count hs s <> Failed RequestLineTooLong.
Proof.
  revert used count hs. induction s as [s IH] using list_length_ind; intros used count hs.
  rewrite spec_headers_eq. destruct (split_crlf s) as [[line rest]|] eqn:E.
  - destruct (exceeds _ _); [done|]. destruct (bool_decide (line = [])).
    { unfold spec_body, declared_length. destruct rl as [[m pa] v].
      destruct (Headers_get _ _) as [w|]; [destruct (parse_usize _); [destruct (_ <? _)%N|]|];
        simpl; try done; by destruct (_ <? _)%N. }
    destruct (parse_header_line line) as [[name value]|e] eqn:Hp;
      [|by apply parse_header_line_error in Hp as ->].
    destruct (exceeds _ _); [done|].
    apply IH. by eapply split_crlf_lt.
  - by destruct (exceeds _ _).
Qed.

(** ** Feeding a parser *)

(** What a connection does with the chunks it reads: push until the answer is
    not [Incomplete].  Returns the chunks not pushed. *)
Fixpoint feed (p : RequestParser) (chunks : list bytes)
    : outcome (RequestParser * ParseStatus * list bytes) :=
  match chunks with
  | [] => Ret (p, Incomplete, [])
  | c :: cs =>
    '(p, st) ← push p c;
    match st with
    | Incomplete => feed p cs
    | _ => Ret (p, st, cs)
    end
  end.

Lemma feed_Represents p s chunks :
  Represents p s -> spec_parse s = Incomplete ->
  exists p' st rest fed, feed p chunks = Ret (p', st, rest) /\ chunks = fed ++ rest /\
    st = spec_parse (s ++ concat fed) /\
    match st with
    | Incomplete => rest = [] /\ Represents p' (s ++ concat fed)
    | Complete _ c =>
      p'.(state) = PDone /\ c <= length (s ++ concat fed) /\
      reset p' = set_buf (drop c (s ++ concat fed)) RequestParser_new
    | Failed _ => p'.(state) = PDone
    end.
Proof.
  revert p s. induction chunks as [|c cs IH]; intros p s Hp Hs.
  { exists p, Incomplete, [], []. simpl. rewrite app_nil_r, Hs. done. }
  destruct (push_Represents _ _ c Hp) as (p' & Hrun & Hpost).
  cbn [feed]. rewrite Hrun. cbn [mbind outcome_bind].
  destruct (spec_parse (s ++ c)) as [|req n|e] eqn:E.
  - destruct (IH p' (s ++ c) Hpost E) as (p'' & st & rest & fed & -> & -> & Hst & Hp').
    exists p'', st, rest, (c :: fed). simpl. rewrite app_assoc. done.
  - exists p', (Complete req n), cs, [c]. simpl. rewrite app_nil_r, E. done.
  - exists p', (Failed e), cs, [c]. simpl. rewrite app_nil_r, E. done.
Qed.

(** C1. Refinement: however the input is cut into chunks, feeding a fresh
    parser never panics nor diverges, and its answer is the stream parser's
    on the bytes pushed so far; after a complete request, [reset] leaves
    exactly the parser state of a fresh parser holding the unconsumed bytes. *)
Theorem feed_refines_stream : forall chunks, exists p' st rest fed,
  feed RequestParser_new chunks = Ret (p', st, rest) /\ chunks = fed ++ rest /\
  st = spec_parse (concat fed) /\
  match st with
  | Incomplete => rest = [] /\ p'.(buf) = concat fed
  | Complete _ c =>
    c <= length (concat fed) /\
    reset p' = set_buf (drop c (concat fed)) RequestParser_new
  | Failed _ => p'.(state) = PDone
  end.
Proof.
  intros chunks. destruct (feed_Represents _ [] chunks Represents_new eq_refl)
    as (p' & st & rest & fed & Hrun & Hch & Hst & Hpost).
  exists p', st, rest, fed. split_and!; try done. destruct st; [|by destruct Hpost as (_ & ? & ?)|done].
  by destruct Hpost as [-> (_ & _ & ? & _)].
Qed.

(** Off the limit, feeding the chunks of a stream answers what the stream
    parser answers on all of it, and leaves the same bytes unread. *)
Lemma feed_off_limit chunks :
  off_limit (concat chunks) ->
  exists p rest, feed RequestParser_new chunks = Ret (p, spec_parse (concat chunks), rest) /\
    forall req c, spec_parse (concat chunks) = Complete req c ->
      reset p = set_buf p.(buf) RequestParser_new /\
      p.(buf) ++ concat rest = drop c (concat chunks).
Proof.
  intros Hoff. destruct (feed_Represents _ [] chunks Represents_new eq_refl)
    as (p & st & rest & fed & Hrun & Hch & Hst & Hpost).
  simpl in *. assert (spec_parse (concat chunks) = st) as Heq.
  { subst chunks. rewrite concat_app in *. destruct (decide (rest = [])) as [->|Hne].
    - by rewrite app_nil_r.
    - rewrite spec_parse_app; [done| |by left].
      rewrite <-Hst. intros ->. by destruct Hpost. }
  rewrite Heq. exists p, rest. split; [done|]. intros req c ->.
  destruct Hpost as (_ & Hle & Hr).
  assert (buf p = drop c (concat fed)) as -> by (change (buf p) with (buf (reset p)); by rewrite Hr).
  split; [done|]. by rewrite Hch, concat_app, drop_app_le.
Qed.

(** C2. Equivalence: unless its request line is exactly [MAX_REQUEST_LINE]
    bytes long, a stream gets the same answer from every way of cutting it
    into chunks as from one push, and the same bytes are left for the next
    request. *)
Theorem segmentation_independent : forall chunks,
  off_limit (concat chunks) ->
  exists p1 p2 st rest,
    feed RequestParser_new chunks = Ret (p1, st, rest) /\
    push RequestParser_new (concat chunks) = Ret (p2, st) /\
    forall req c, st = Complete req c ->
      set_buf (p1.(buf) ++ concat rest) (reset p1) = reset p2.
Proof.
  intros chunks Hoff. destruct (feed_off_limit chunks Hoff) as (p1 & rest & Hrun & Hleft).
  destruct (push_Represents _ [] (concat chunks) Represents_new) as (p2 & Hrun2 & Hpost2).
  exists p1, p2, (spec_parse (concat chunks)), rest. split_and!; try done.
  intros req c Heq. destruct (Hleft req c Heq) as [-> ->]. simpl in Hpost2.
  rewrite Heq in Hpost2. by destruct Hpost2 as (_ & _ & ->).
Qed.

Lemma segmentation_independent_witness :
  let raw := B "GET /a HTTP/1.1" ++ CRLF ++ B "Host: x" ++ CRLF ++ CRLF in
  let chunks := [B "GET /a HT"; B "TP/1.1" ++ [CR]; [LF] ++ B "Host: x" ++ CRLF ++ CRLF; B "GET"] in
  off_limit (concat chunks) /\
  exists p1 p2 st rest,
    feed RequestParser_new chunks = Ret (p1, st, rest) /\
    push RequestParser_new (concat chunks) = Ret (p2, st) /\
    forall req c, st = Complete req c ->
      set_buf (p1.(buf) ++ concat rest) (reset p1) = reset p2.
Proof.
  intros raw chunks.
  assert (off_limit (concat chunks)) as Hoff.
  { intros line rest H. vm_compute in H. injection H as <- <-. vm_compute. discriminate. }
  split; [exact Hoff|]. exact (segmentation_independent chunks Hoff).
Defined.

(** *** The limit on the request line *)

(** Where segmentation matters: a valid request line of exactly
    [MAX_REQUEST_LINE] bytes is accepted when its CRLF arrives in one piece
    and refused with [RequestLineTooLong] when the CR arrives before the LF,
    because the two length tests of [parse_request_line] differ by the CR. *)
Theorem tight_request_line_depends_on_segmentation : forall line rl rest,
  N.of_nat (length line) = MAX_REQUEST_LINE -> no_cr line = true ->
  spec_request_line line = Ok rl ->
  (exists p st, push RequestParser_new (line ++ CRLF ++ rest) = Ret (p, st) /\
     st <> Failed RequestLineTooLong) /\
  (exists p, feed RequestParser_new [line ++ [CR]; [LF] ++ rest] =
     Ret (p, Failed RequestLineTooLong, [[LF] ++ rest])).
Proof.
  intros line rl rest Hlen Hcr Hrl. split.
  - destruct (push_Represents _ [] (line ++ CRLF ++ rest) Represents_new) as (p & Hrun & _).
    exists p, (spec_parse (line ++ CRLF ++ rest)). split; [done|].
    unfold spec_parse. rewrite (split_crlf_line _ _ Hcr).
    rewrite (proj2 (exceeds_false _ _)) by lia. rewrite Hrl. apply spec_headers_not_line_error.
  - destruct (push_Represents _ [] (line ++ [CR]) Represents_new) as (p & Hrun & _).
    exists p. cbn [feed]. rewrite Hrun. cbn [app mbind outcome_bind].
    assert (spec_parse (line ++ [CR]) = Failed RequestLineTooLong) as ->; [|done].
    unfold spec_parse. rewrite (split_crlf_no_cr _ Hcr).
    rewrite (proj2 (exceeds_spec _ _)); [done|]. rewrite length_app. simpl. lia.
Qed.

Lemma tight_request_line_depends_on_segmentation_witness :
  let line := B "GET /" ++ replicate (N.to_nat 8178) x61 ++ B " HTTP/1.1" in
  (exists p st, push RequestParser_new (line ++ CRLF ++ CRLF) = Ret (p, st) /\
     st <> Failed RequestLineTooLong) /\
  (exists p, feed RequestParser_new [line ++ [CR]; [LF] ++ CRLF] =
     Ret (p, Failed RequestLineTooLong, [[LF] ++ CRLF])).
Proof.
  intros line.
  assert (is_Ok (spec_request_line line)) as [rl Hrl] by (vm_compute; by eexists).
  apply (tight_request_line_depends_on_segmentation line rl CRLF); [by vm_compute..|exact Hrl].
Defined.

(** ** Bounded buffering *)

(** All the parser can hold while it waits for more. *)
Definition buffer_bound : N :=
  MAX_REQUEST_LINE + 2 + MAX_HEADER_BYTES + MAX_BODY_BYTES.

Lemma declared_length_bound hs n : declared_length hs = Ok n -> (n <= MAX_BODY_BYTES)%N.
Proof.
  unfold declared_length. intros H. destruct (Headers_get _ _) as [v|]; simplify_eq; [|done].
  destruct (parse_usize (trim v)) as [m|]; simplify_eq.
  destruct (N.ltb_spec MAX_BODY_BYTES m); by simplify_eq.
Qed.

Lemma spec_headers_incomplete_bound rl base used count hs s :
  spec_headers rl base used count hs s = Incomplete ->
  (N.of_nat used <= MAX_HEADER_BYTES)%N ->
  (N.of_nat (used + length s) <= MAX_HEADER_BYTES + MAX_BODY_BYTES)%N.
Proof.
  revert used count hs. induction s as [s IH] using list_length_ind; intros used count hs H Hu.
  rewrite spec_headers_eq in H. destruct (split_crlf s) as [[line rest]|] eqn:E.
  - destruct (exceeds (used + length line + 2) MAX_HEADER_BYTES) eqn:Hex; [done|].
    apply exceeds_false in Hex. pose proof (split_crlf_Some _ _ _ E) as Hs.
    assert (length s = length line + 2 + length rest) as -> by (subst s; rewrite !length_app; simpl; lia).
    destruct (bool_decide_reflect (line = [])) as [->|_].
    { unfold spec_body, spec_take in H. destruct (declared_length hs) eqn:Hd; [|done].
      destruct rl as [[m pa] v]. apply declared_length_bound in Hd.
      destruct (N.ltb_spec (N.of_nat (length rest)) a); [|done]. simpl in *. lia. }
    destruct (parse_header_line line) as [[name value]|]; [|done].
    destruct (exceeds (count + 1) MAX_HEADER_COUNT); [done|].
    apply IH in H; [lia|by eapply split_crlf_lt|lia].
  - destruct (exceeds (used + length s) MAX_HEADER_BYTES) eqn:Hex; [done|].
    apply exceeds_false in Hex. lia.
Qed.

Lemma spec_parse_incomplete_bound s :
  spec_parse s = Incomplete -> (N.of_nat (length s) <= buffer_bound)%N.
Proof.
  unfold spec_parse, buffer_bound. intros H. destruct (split_crlf s) as [[line rest]|] eqn:E.
  - destruct (exceeds (length line) MAX_REQUEST_LINE) eqn:Hex; [done|].
    apply exceeds_false in Hex. apply split_crlf_Some in E. subst s.
    rewrite !length_app; simpl. destruct (spec_request_line line); [|done].
    apply spec_headers_incomplete_bound in H; lia.
  - destruct (exceeds (length s) MAX_REQUEST_LINE) eqn:Hex; [done|].
    apply exceeds_false in Hex. lia.
Qed.

(** C3. Bounds: while the parser asks for more input, its buffer holds at most
    a request line, a header block and a body of the maximal sizes, whatever
    was sent and however it was cut. *)
Theorem parser_memory_bounded : forall chunks p rest,
  feed RequestParser_new chunks = Ret (p, Incomplete, rest) ->
  p.(buf) = concat chunks /\ (N.of_nat (length p.(buf)) <= buffer_bound)%N.
Proof.
  intros chunks p rest H.
  destruct (feed_Represents _ [] chunks Represents_new eq_refl)
    as (p' & st & rest' & fed & Hrun & Hch & Hst & Hpost).
  rewrite H in Hrun. injection Hrun as <- <- <-. simpl in *.
  destruct Hpost as [-> (_ & _ & Hb & _)]. rewrite app_nil_r in Hch. subst chunks.
  rewrite Hb. split; [done|]. by apply spec_parse_incomplete_bound.
Qed.

Lemma parser_memory_bounded_witness : exists p,
  feed RequestParser_new [B "GET / HT"; B "TP/1.1"] = Ret (p, Incomplete, []) /\
  p.(buf) = B "GET / HTTP/1.1" /\ (N.of_nat (length p.(buf)) <= buffer_bound)%N.
Proof.
  eexists. split; [vm_compute; reflexivity|].
  exact (parser_memory_bounded [B "GET / HT"; B "TP/1.1"] _ [] eq_refl).
Defined.

(** ** What a complete request guarantees *)

(** The guarantees of the header block and the body, from inside it. *)
Lemma spec_headers_complete rl base used count hs s r c :
  spec_headers rl base used count hs s = Complete r c ->
  (r.(req_method), r.(req_path), r.(req_version)) = rl /\
  (N.of_nat (length hs.(inner)) <= MAX_HEADER_COUNT -> count = length hs.(inner) ->
     N.of_nat (length r.(req_headers).(inner)) <= MAX_HEADER_COUNT)%N /\
  (Forall (fun kv => kv.1 <> []) hs.(inner) ->
     Forall (fun kv => kv.1 <> []) r.(req_headers).(inner)) /\
  declared_length r.(req_headers) = Ok (N.of_nat (length r.(req_body))) /\
  exists pre post, s = pre ++ r.(req_body) ++ post /\ c = base + used + length pre + length r.(req_body).
Proof.
  revert used count hs. induction s as [s IH] using list_length_ind; intros used count hs H.
  rewrite spec_headers_eq in H. destruct (split_crlf s) as [[line rest]|] eqn:E;
    [|by destruct (exceeds _ _)].
  pose proof (split_crlf_Some _ _ _ E) as Hs.
  destruct (exceeds _ _); [done|]. destruct (bool_decide_reflect (line = [])) as [->|_].
  { unfold spec_body, spec_take in H. destruct (declared_length hs) as [n|] eqn:Hd; [|done].
    destruct rl as [[m pa] v]. destruct (N.ltb_spec (N.of_nat (length rest)) n); [done|].
    simplify_eq/=. rewrite Hd, length_take, Nat.min_l, N2Nat.id by lia.
    split_and!; try done. exists CRLF, (drop (N.to_nat n) rest).
    rewrite take_drop. split; [done|]. simpl. lia. }
  destruct (parse_header_line line) as [[name value]|] eqn:Hp; [|done].
  destruct (exceeds (count + 1) MAX_HEADER_COUNT) eqn:Hex; [done|].
  apply exceeds_false in Hex. apply IH in H as (Hrl & Hcnt & Hnm & Hd & pre & post & Hrest & Hc);
    [|by eapply split_crlf_lt].
  split_and!; [done| | |done|].
  - intros Hle ->. apply Hcnt; simpl; rewrite length_app; simpl; lia.
  - intros Hf. apply Hnm; simpl. apply Forall_app. split; [done|]. apply Forall_singleton.
    by apply parse_header_line_name in Hp.
  - exists (line ++ CRLF ++ pre), post. rewrite Hs, Hrest, !length_app, <-!app_assoc. split; [done|].
    simpl. lia.
Qed.

Lemma spec_request_line_Ok line m pa v :
  spec_request_line line = Ok (m, pa, v) -> pa <> [] /\ utf8_valid pa = true.
Proof.
  unfold spec_request_line, from_utf8. intros H. repeat case_match; simplify_eq/=.
  match goal with H : _ && _ && _ = true |- _ =>
    apply andb_true_iff in H as [[_ H]%andb_true_iff _] end.
  split; [|done]. by eapply bool_decide_eq_true.
Qed.

(** C4. Type: a request the parser completes, from whatever input, has a
    non-empty UTF-8 path, at most [MAX_HEADER_COUNT] named header fields, and
    as body the last bytes of the [consumed] prefix, as many as its
    Content-Length says (0 without one), at most [MAX_BODY_BYTES]. *)
Theorem complete_request_well_formed : forall chunks p r c rest,
  feed RequestParser_new chunks = Ret (p, Complete r c, rest) ->
  r.(req_path) <> [] /\ utf8_valid r.(req_path) = true /\
  (N.of_nat (length r.(req_headers).(inner)) <= MAX_HEADER_COUNT)%N /\
  Forall (fun kv => kv.1 <> []) r.(req_headers).(inner) /\
  N.of_nat (length r.(req_body)) = Request_content_length r /\
  (N.of_nat (length r.(req_body)) <= MAX_BODY_BYTES)%N /\
  exists head post, concat chunks = head ++ r.(req_body) ++ post /\
    c = length (head ++ r.(req_body)).
Proof.
  intros chunks p r c rest H.
  destruct (feed_Represents _ [] chunks Represents_new eq_refl)
    as (p' & st & rest' & fed & Hrun & Hch & Hst & _).
  rewrite H in Hrun. injection Hrun as <- <- <-. simpl in Hst. symmetry in Hst.
  unfold spec_parse in Hst. destruct (split_crlf (concat fed)) as [[line body]|] eqn:E;
    [|by destruct (exceeds _ _)].
  destruct (exceeds _ _); [done|]. destruct (spec_request_line line) as [[[m pa] v]|] eqn:Hrl; [|done].
  apply spec_headers_complete in Hst as (Heq & Hcnt & Hnm & Hd & pre & post & Hb & Hc).
  injection Heq as <- <- <-. apply spec_request_line_Ok in Hrl as [Hne Hu].
  split_and!; [done|done|by apply Hcnt|by apply Hnm| | |].
  - unfold Request_content_length, declared_length in *.
    destruct (Headers_get _ _) as [w|]; [|by simplify_eq/=].
    simpl. destruct (parse_usize (trim w)); [|done]. by destruct (_ <? _)%N; simplify_eq.
  - by apply declared_length_bound in Hd.
  - exists (line ++ CRLF ++ pre), (post ++ concat rest).
    apply split_crlf_Some in E. rewrite Hch, concat_app, E, Hb, <-!app_assoc. split; [done|].
    rewrite !length_app; simpl. lia.
Qed.

Lemma complete_request_well_formed_witness :
  let raw := B "GET /a HTTP/1.1" ++ CRLF ++ B "Content-Length: 5" ++ CRLF ++ CRLF ++ B "helloGET" in
  exists p r c, feed RequestParser_new [raw] = Ret (p, Complete r c, []) /\
    r.(req_body) = B "hello" /\ N.of_nat (length r.(req_body)) = Request_content_length r.
Proof.
  intros raw. eexists _, _, _. split; [vm_compute; reflexivity|]. split; [done|].
  eapply (complete_request_well_formed [raw]). vm_compute. reflexivity.
Defined.

(** ** Pipelining *)

(** Round trip across requests: after a complete request, [reset] and any
    further input [b] behave as a fresh parser given the unconsumed bytes
    followed by [b]; no byte of a pipelined request is lost or read twice. *)
Theorem pipelined_bytes_kept : forall chunks p r c rest b,
  feed RequestParser_new chunks = Ret (p, Complete r c, rest) ->
  exists fed, chunks = fed ++ rest /\ c <= length (concat fed) /\
    push (reset p) b = push RequestParser_new (drop c (concat fed) ++ b).
Proof.
  intros chunks p r c rest b H.
  destruct (feed_Represents _ [] chunks Represents_new eq_refl)
    as (p' & st & rest' & fed & Hrun & Hch & _ & Hpost).
  rewrite H in Hrun. injection Hrun as <- <- <-. destruct Hpost as (_ & Hle & Hr).
  exists fed. split_and!; [done|done|]. by rewrite Hr.
Qed.

Lemma pipelined_bytes_kept_witness :
  let raw := B "GET /a HTTP/1.1" ++ CRLF ++ CRLF ++ B "GET /b HTTP/1.1" ++ CRLF ++ CRLF in
  exists p r c, feed RequestParser_new [raw] = Ret (p, Complete r c, []) /\
    exists fed, [raw] = fed ++ [] /\ c <= length (concat fed) /\
      push (reset p) [] = push RequestParser_new (drop c (concat fed) ++ []).
Proof.
  intros raw. eexists _, _, _. split; [vm_compute; reflexivity|].
  eapply (pipelined_bytes_kept [raw]). vm_compute. reflexivity.
Defined.

(** ** Printing and parsing back *)

Definition Version_render (v : Version) : bytes :=
  match v with Http10 => B "HTTP/1.0" | Http11 => B "HTTP/1.1" end.

Definition request_line (tok : bytes) (r : Request) : bytes :=
  tok ++ [SP] ++ r.(req_path) ++ [SP] ++ Version_render r.(req_version).

(** The request on the wire, with method token [tok]. *)
Definition render_request (tok : bytes) (r : Request) : bytes :=
  request_line tok r ++ CRLF ++ render_fields r.(req_headers).(inner) ++ CRLF ++ r.(req_body).

Definition no_byte (x : byte) (s : bytes) : bool := forallb (fun b => negb (Byte.eqb b x)) s.

(** A field that survives the line split, the colon split and the trims. *)
Definition plain_field (kv : bytes * bytes) : bool :=
  let '(k, v) := kv in
  bool_decide (k <> []) && no_byte x3a k && no_cr k && utf8_valid k && bool_decide (trim k = k) &&
  no_cr v && utf8_valid v && bool_decide (trim v = v).

(** A request that fits in a request's syntax and in the limits. *)
Definition printable (tok : bytes) (r : Request) : bool :=
  bool_decide (Method_parse tok = r.(req_method)) &&
  bool_decide (tok <> []) && no_byte SP tok && no_cr tok &&
  bool_decide (r.(req_path) <> []) && no_byte SP r.(req_path) && no_cr r.(req_path) &&
  utf8_valid r.(req_path) &&
  forallb plain_field r.(req_headers).(inner) &&
  negb (exceeds (length (request_line tok r)) MAX_REQUEST_LINE) &&
  negb (exceeds (length (render_fields r.(req_headers).(inner)) + 2) MAX_HEADER_BYTES) &&
  negb (exceeds (length r.(req_headers).(inner)) MAX_HEADER_COUNT) &&
  match declared_length r.(req_headers) with
  | Ok n => (n =? N.of_nat (length r.(req_body)))%N
  | Err _ => false
  end.

Lemma parse_plain_field k v :
  plain_field (k, v) = true ->
  parse_header_line (k ++ B ": " ++ v) = Ok (k, v) /\ no_cr (k ++ B ": " ++ v) = true.
Proof.
  unfold plain_field. rewrite !andb_true_iff, !bool_decide_eq_true.
  intros [[[[[[[Hne Hcol] Hcr] Hu] Ht] Hcrv] Huv] Htv]. split.
  - unfold parse_header_line. change (k ++ B ": " ++ v) with (k ++ x3a :: (SP :: v)).
    rewrite position_app by done. unfold from_utf8.
    rewrite take_app_length, Hu, drop_app_ge by lia.
    replace (length k + 1 - length k) with 1 by lia. cbn [drop].
    change (utf8_valid (SP :: v)) with (utf8_valid v). rewrite Huv, Ht.
    rewrite bool_decide_false by done. by change (trim (SP :: v)) with (trim v); rewrite Htv.
  - unfold no_cr in *. by rewrite !forallb_app, Hcr, Hcrv.
Qed.

Lemma spec_headers_fields rl base used count hs fs s :
  forallb plain_field fs = true ->
  (N.of_nat (used + length (render_fields fs)) <= MAX_HEADER_BYTES)%N ->
  (N.of_nat (count + length fs) <= MAX_HEADER_COUNT)%N ->
  spec_headers rl base used count hs (render_fields fs ++ s) =
  spec_headers rl base (used + length (render_fields fs)) (count + length fs)
    (mkHeaders (hs.(inner) ++ fs)) s.
Proof.
  revert used count hs. induction fs as [|[k v] fs IH]; intros used count hs Hf Hb Hc.
  { simpl. rewrite app_nil_r, !Nat.add_0_r. by destruct hs. }
  cbn [forallb] in Hf. apply andb_true_iff in Hf as [Hkv Hf].
  destruct (parse_plain_field k v Hkv) as [Hp Hcr].
  assert (render_fields ((k, v) :: fs) = (k ++ B ": " ++ v) ++ CRLF ++ render_fields fs) as Hr.
  { unfold render_fields, render_field. cbn [fmap list_fmap concat fst snd].
    by rewrite <-!app_assoc. }
  rewrite Hr in *. rewrite <-!app_assoc, spec_headers_eq.
  rewrite !length_app in Hb. cbn [length CRLF] in Hb, Hc.
  pose proof (split_crlf_line (k ++ B ": " ++ v) (render_fields fs ++ s) Hcr) as Hsp.
  rewrite <-!app_assoc in Hsp. rewrite Hsp.
  rewrite (proj2 (exceeds_false _ _)) by (rewrite !length_app; lia).
  rewrite bool_decide_false by (by destruct k). rewrite Hp.
  rewrite (proj2 (exceeds_false _ _)) by lia.
  rewrite IH; [|done|rewrite !length_app; lia|lia].
  unfold Headers_insert. simpl. rewrite <-app_assoc. f_equal; [|lia]. rewrite !length_app. simpl.
  rewrite length_app. simpl. lia.
Qed.

Lemma request_line_spec tok r :
  printable tok r = true ->
  spec_request_line (request_line tok r) = Ok (r.(req_method), r.(req_path), r.(req_version)) /\
  no_cr (request_line tok r) = true.
Proof.
  unfold printable. rewrite !andb_true_iff, !bool_decide_eq_true.
  intros [[[[[[[[[[[[Hm Hne] Hsp] Hcr] Hpne] Hpsp] Hpcr] Hpu] _] _] _] _] _]. split.
  - assert (forall s, no_byte SP s = true -> forallb (fun b => negb (Byte.eqb SP b)) s = true) as Hflip.
    { intros s. unfold no_byte. rewrite !forallb_forall. intros H b Hb. rewrite byte_eqb_sym. by apply H. }
    unfold spec_request_line, request_line, split_on. cbn [app].
    rewrite !split_when_app, split_when_none by first [done | by apply Hflip | by destruct (req_version r)].
    rewrite !bool_decide_true by first [done | by destruct (req_version r)]. cbn [andb].
    unfold from_utf8. rewrite Hpu, Hm. by destruct (req_version r).
  - unfold request_line, no_cr in *. rewrite !forallb_app, Hcr, Hpcr. by destruct (req_version r).
Qed.

Lemma spec_parse_render tok r t :
  printable tok r = true ->
  spec_parse (render_request tok r ++ t) = Complete r (length (render_request tok r)).
Proof.
  intros H. destruct (request_line_spec tok r H) as [Hrl Hcr].
  unfold printable in H. rewrite !andb_true_iff, !negb_true_iff, !exceeds_false in H.
  destruct H as [[[[[_ Hf] Hl] Hb] Hc] Hd].
  unfold render_request, spec_parse. rewrite <-!app_assoc.
  rewrite (split_crlf_line _ _ Hcr), (proj2 (exceeds_false _ _) Hl), Hrl.
  rewrite spec_headers_fields by (done || lia).
  rewrite spec_headers_eq. rewrite (split_crlf_line [] (req_body r ++ t) eq_refl : split_crlf (CRLF ++ _) = _).
  rewrite (proj2 (exceeds_false _ _)) by (simpl; lia). rewrite bool_decide_true by done. unfold spec_body, spec_take, Headers_new.
  cbn [inner app]. destruct (req_headers r) as [hs] eqn:Hh. cbn [inner] in *.
  destruct (declared_length (mkHeaders hs)) as [n|]; [|done]. apply N.eqb_eq in Hd as ->.
  rewrite Nat2N.id, take_app_length.
  destruct (N.ltb_spec (N.of_nat (length (req_body r ++ t))) (N.of_nat (length (req_body r))))
    as [Hlt|_]; [rewrite length_app in Hlt; lia|].
  f_equal.
  - destruct r; simpl in *. by subst.
  - rewrite !length_app. simpl. lia.
Qed.

(** C5. Round trip: a printable request whose request line is not exactly
    [MAX_REQUEST_LINE] bytes long, rendered and followed by anything, is parsed
    back to itself from every way of cutting the stream into chunks, consuming
    exactly its rendering.  At exactly that length the outcome depends on the
    chunks: [tight_request_line_depends_on_segmentation]. *)
Theorem render_parse_roundtrip : forall tok r t chunks,
  printable tok r = true ->
  N.of_nat (length (request_line tok r)) <> MAX_REQUEST_LINE ->
  concat chunks = render_request tok r ++ t ->
  exists p rest,
    feed RequestParser_new chunks =
      Ret (p, Complete r (length (render_request tok r)), rest) /\
    p.(buf) ++ concat rest = t.
Proof.
  intros tok r t chunks Hp Hl Hch.
  assert (off_limit (concat chunks)) as Hoff.
  { intros line rest E. rewrite Hch in E. unfold render_request in E. rewrite <-!app_assoc in E.
    rewrite (split_crlf_line _ _ (proj2 (request_line_spec tok r Hp))) in E. by simplify_eq. }
  destruct (feed_off_limit chunks Hoff) as (p & rest & Hrun & Hleft).
  rewrite Hch, spec_parse_render in Hrun by done. exists p, rest. split; [done|].
  destruct (Hleft r (length (render_request tok r))) as [_ ->].
  { by rewrite Hch, spec_parse_render. }
  by rewrite Hch, drop_app_length.
Qed.

Lemma render_parse_roundtrip_witness :
  let r := mkRequest Head (B "/x") Http10 (mkHeaders [(B "Host", B "h"); (B "Content-Length", B "2")])
             (B "ok") in
  exists p rest,
    feed RequestParser_new [render_request (B "HEAD") r; B "GET"] =
      Ret (p, Complete r (length (render_request (B "HEAD") r)), rest) /\
    p.(buf) ++ concat rest = B "GET".
Proof.
  intros r. apply (render_parse_roundtrip (B "HEAD") r (B "GET")); [by vm_compute| |by vm_compute].
  vm_compute. discriminate.
Defined.
