(* ===== verification/Router.v ===== *)
(** * The trie router

    core/src/router.rs.  A [Handler] is a function pointer: its values are an
    abstract type [H] here, and calling one is a parameter of [App]. *)

From Equations Require Import Equations.
From S2P Require Import Prelude RustStr Http.

(** ** Paths *)

Definition slash : byte := x2f.

(** [path.trim_start_matches('/')] *)
Fixpoint trim_slashes (s : bytes) : bytes :=
  match s with
  | b :: s' => if Byte.eqb b slash then trim_slashes s' else s
  | [] => []
  end.

(** [path.splitn(2, '/')]: the first part, and the second or [""]. *)
Definition split_segment (s : bytes) : bytes * bytes :=
  match position slash s with
  | Some i => (take i s, drop (i + 1) s)
  | None => (s, [])
  end.

Lemma trim_slashes_le s : length (trim_slashes s) <= length s.
Proof. induction s as [|b s IH]; simpl; [lia|]. destruct (Byte.eqb b slash); simpl; lia. Qed.

Lemma split_segment_lt s segment rest :
  s <> [] -> split_segment s = (segment, rest) -> length rest < length s.
Proof.
  unfold split_segment. intros Hne H. destruct s as [|b s]; [done|].
  destruct (position slash (b :: s)); simplify_eq; simpl; [|lia].
  rewrite Nat.add_comm. simpl. rewrite length_drop. lia.
Qed.

Definition keep {A} (a : A) : { x | a = x } := exist _ a eq_refl.

Section Router.
Context {H : Type}.

(** ** Nodes *)

Inductive Node := mkNode (key : bytes) (children : list Node) (handler : option H).

Definition node_key (n : Node) : bytes := let 'mkNode k _ _ := n in k.
Definition node_children (n : Node) : list Node := let 'mkNode _ c _ := n in c.
Definition node_handler (n : Node) : option H := let 'mkNode _ _ h := n in h.

Definition Node_new (key : bytes) : Node := mkNode key [] None.

(** [iter().find(|n| n.key == segment)], with the index of the child. *)
Fixpoint find_child (segment : bytes) (ns : list Node) : option (nat * Node) :=
  match ns with
  | [] => None
  | n :: ns =>
    if bool_decide (node_key n = segment) then Some (0, n)
    else '(i, c) ← find_child segment ns; Some (S i, c)
  end.

Equations? Node_insert (n : Node) (path : bytes) (h : H) : Node by wf (length path) lt :=
  Node_insert n path h with keep (trim_slashes path) => {
    | exist _ [] _ => mkNode (node_key n) (node_children n) (Some h)
    | exist _ (b :: p) Etrim with keep (split_segment (b :: p)) => {
      | exist _ (segment, rest) Esplit =>
        match find_child segment (node_children n) with
        | Some (i, child) =>
          mkNode (node_key n) (<[i := Node_insert child rest h]> (node_children n))
            (node_handler n)
        | None =>
          mkNode (node_key n) (node_children n ++ [Node_insert (Node_new segment) rest h])
            (node_handler n)
        end
      }
  }.
Proof.
  all: apply split_segment_lt in Esplit; [|done]; rewrite <-Etrim in Esplit;
    pose proof (trim_slashes_le path); lia.
Qed.

Equations? Node_get (n : Node) (path : bytes) : option H by wf (length path) lt :=
  Node_get n path with keep (trim_slashes path) => {
    | exist _ [] _ => node_handler n
    | exist _ (b :: p) Etrim with keep (split_segment (b :: p)) => {
      | exist _ (segment, rest) Esplit =>
        match find_child segment (node_children n) with
        | Some (_, child) => Node_get child rest
        | None => None
        end
      }
  }.
Proof.
  apply split_segment_lt in Esplit; [|done]. rewrite <-Etrim in Esplit.
  pose proof (trim_slashes_le path). lia.
Qed.

(** ** The router *)

Record Router := mkRouter { routes : gmap Method Node }.

Definition Router_new : Router := mkRouter ∅.

Definition Router_insert (r : Router) (method : Method) (path : bytes) (h : H) : Router :=
  let root := default (Node_new []) (r.(routes) !! method) in
  mkRouter (<[method := Node_insert root path h]> r.(routes)).

Definition Router_lookup (r : Router) (method : Method) (path : bytes) : option H :=
  root ← r.(routes) !! method; Node_get root path.

(** ** Paths as segments *)

(** The abstract path: the non-empty parts between slashes. *)
Definition segments (path : bytes) : list bytes :=
  List.filter (fun s => negb (bool_decide (s = []))) (split_on slash path).

Lemma segments_slash s : segments (slash :: s) = segments s.
Proof. done. Qed.

Lemma segments_trim s : segments (trim_slashes s) = segments s.
Proof.
  induction s as [|b s IH]; [done|]. simpl. rewrite byte_eqb_spec.
  case_bool_decide; [|done]. subst b. by rewrite IH, segments_slash.
Qed.

Lemma split_segment_spec s segment rest :
  split_segment s = (segment, rest) ->
  forallb (fun b => negb (Byte.eqb slash b)) segment = true /\
  ((s = segment ++ slash :: rest) \/ (s = segment /\ rest = [])).
Proof.
  unfold split_segment. revert segment.
  induction s as [|b s IH]; intros segment E; [simplify_eq/=; auto|].
  simpl in E. rewrite byte_eqb_spec in E. destruct (decide (b = slash)) as [->|Hne].
  { rewrite bool_decide_true in E by done. simplify_eq/=. auto. }
  rewrite bool_decide_false in E by done.
  assert (negb (Byte.eqb slash b) = true) as Hb
    by (rewrite byte_eqb_sym, byte_eqb_spec, bool_decide_false; done).
  destruct (position slash s) as [i|] eqn:Hp; simplify_eq/=.
  - destruct (IH (take i s)) as [H1 [H2|[H2 H3]]]; [done| |];
      (split; [by rewrite Hb, H1|]); left; [by rewrite H2 at 1|].
    subst. apply position_lt in Hp. apply (f_equal length) in H2. rewrite length_take in H2. lia.
  - destruct (IH s) as [H1 _]; [done|]. rewrite Hb, H1. auto.
Qed.

Lemma trim_slashes_head s b p : trim_slashes s = b :: p -> b <> slash.
Proof.
  induction s as [|c s IH]; simpl; intros E; [done|].
  rewrite byte_eqb_spec in E. case_bool_decide; [by apply IH|]. by simplify_eq.
Qed.

(** One step of [insert] and [get] consumes one segment. *)
Lemma segments_step path b p segment rest :
  trim_slashes path = b :: p -> split_segment (b :: p) = (segment, rest) ->
  segments path = segment :: segments rest.
Proof.
  intros Et Es. rewrite <-segments_trim, Et. pose proof (trim_slashes_head _ _ _ Et) as Hb.
  assert (segment <> []) as Hne.
  { unfold split_segment in Es. simpl in Es. rewrite byte_eqb_spec, bool_decide_false in Es by done.
    by destruct (position slash p); simplify_eq/=. }
  apply split_segment_spec in Es as [Hs [->|[-> ->]]]; unfold segments, split_on.
  - rewrite split_when_app by (done || apply byte_eqb_spec; by rewrite bool_decide_true).
    simpl. by rewrite bool_decide_false.
  - rewrite split_when_none by done. simpl. by rewrite bool_decide_false.
Qed.

Lemma segments_root path : trim_slashes path = [] -> segments path = [].
Proof. intros E. by rewrite <-segments_trim, E. Qed.

(** Insertion and lookup along a list of segments. *)
Fixpoint insert_segs (n : Node) (segs : list bytes) (h : H) : Node :=
  match segs with
  | [] => mkNode (node_key n) (node_children n) (Some h)
  | s :: segs =>
    match find_child s (node_children n) with
    | Some (i, child) =>
      mkNode (node_key n) (<[i := insert_segs child segs h]> (node_children n)) (node_handler n)
    | None =>
      mkNode (node_key n) (node_children n ++ [insert_segs (Node_new s) segs h])
        (node_handler n)
    end
  end.

Fixpoint get_segs (n : Node) (segs : list bytes) : option H :=
  match segs with
  | [] => node_handler n
  | s :: segs => '(_, child) ← find_child s (node_children n); get_segs child segs
  end.

Lemma Node_insert_segs n path h : Node_insert n path h = insert_segs n (segments path) h.
Proof.
  funelim (Node_insert n path h).
  - by rewrite segments_root.
  - erewrite segments_step by eauto. simpl.
    destruct (find_child _ _) as [[i child]|]; do 2 f_equal; [by apply H0|by f_equal].
Qed.

Lemma Node_get_segs n path : Node_get n path = get_segs n (segments path).
Proof.
  funelim (Node_get n path).
  - by rewrite segments_root.
  - erewrite segments_step by eauto. simpl.
    destruct (find_child _ _) as [[i child]|]; simpl; auto.
Qed.

Lemma insert_segs_key n segs h : node_key (insert_segs n segs h) = node_key n.
Proof. destruct segs as [|s segs]; simpl; [done|]. by destruct (find_child _ _) as [[]|]. Qed.

Lemma find_child_key s ns i c : find_child s ns = Some (i, c) -> node_key c = s.
Proof.
  revert i. induction ns as [|n ns IH]; simpl; intros i E; [done|].
  case_bool_decide; [by simplify_eq|].
  destruct (find_child s ns) as [[j d]|]; simplify_eq/=. eauto.
Qed.

Lemma find_child_replace s t ns i c c' :
  find_child s ns = Some (i, c) -> node_key c' = s ->
  find_child t (<[i := c']> ns) = if decide (t = s) then Some (i, c') else find_child t ns.
Proof.
  revert i. induction ns as [|n ns IH]; simpl; intros i E Hk; [done|].
  destruct (decide (node_key n = s)) as [Hn|Hn].
  - rewrite bool_decide_true in E by done. injection E as <- <-. simpl.
    destruct (decide (t = s)) as [->|Ht].
    + by rewrite bool_decide_true.
    + by rewrite !bool_decide_false by congruence.
  - rewrite bool_decide_false in E by done.
    destruct (find_child s ns) as [[j d]|] eqn:F; simplify_eq/=.
    rewrite (IH j) by done. destruct (decide (t = node_key c')) as [->|]; [|done].
    by rewrite bool_decide_false.
Qed.

Lemma find_child_push s t ns c' :
  find_child s ns = None -> node_key c' = s ->
  find_child t (ns ++ [c']) =
    if decide (t = s) then Some (length ns, c') else find_child t ns.
Proof.
  induction ns as [|n ns IH]; simpl; intros E Hk.
  - destruct (decide (t = s)); [rewrite bool_decide_true by congruence|rewrite bool_decide_false by congruence]; done.
  - case_bool_decide; [done|]. destruct (find_child s ns) as [[]|]; [done|].
    rewrite IH by done. destruct (decide (t = s)) as [->|].
    + by rewrite bool_decide_false.
    + by case_bool_decide.
Qed.

Lemma get_insert_segs n segs segs' h :
  get_segs (insert_segs n segs h) segs' =
    if decide (segs' = segs) then Some h else get_segs n segs'.
Proof.
  revert n segs'. induction segs as [|s segs IH]; intros n segs'.
  { destruct segs' as [|s' segs']; [by rewrite decide_True|by rewrite decide_False]. }
  destruct segs' as [|s' segs']; cbn [get_segs insert_segs].
  { rewrite decide_False by done. by destruct (find_child s _) as [[]|]. }
  destruct (find_child s (node_children n)) as [[i c]|] eqn:F; cbn [node_children].
  - rewrite (find_child_replace s _ _ _ c) by (done || rewrite insert_segs_key; by eapply find_child_key).
    destruct (decide (s' = s)) as [->|Hs]; cbn [mbind option_bind].
    + rewrite IH, F. cbn [mbind option_bind].
      destruct (decide (segs' = segs)) as [->|]; [by rewrite decide_True|].
      by rewrite decide_False by congruence.
    + by rewrite (decide_False (P := _ :: _ = _)) by congruence.
  - rewrite (find_child_push s _ _ _ F) by by rewrite insert_segs_key.
    destruct (decide (s' = s)) as [->|Hs]; cbn [mbind option_bind].
    + rewrite IH, F. cbn [mbind option_bind].
      destruct (decide (segs' = segs)) as [->|]; [by rewrite decide_True|].
      rewrite decide_False by congruence. by destruct segs'.
    + by rewrite (decide_False (P := _ :: _ = _)) by congruence.
Qed.

Lemma Router_lookup_insert r m path h m' path' :
  Router_lookup (Router_insert r m path h) m' path' =
    if decide (m' = m /\ segments path' = segments path) then Some h
    else Router_lookup r m' path'.
Proof.
  unfold Router_lookup, Router_insert. simpl. destruct (decide (m' = m)) as [->|Hm].
  - rewrite lookup_insert_eq. simpl. rewrite Node_insert_segs, Node_get_segs, get_insert_segs.
    repeat case_decide; try tauto. destruct (routes r !! m) as [n|]; simpl.
    + by rewrite Node_get_segs.
    + by destruct (segments path').
  - rewrite lookup_insert_ne by done. by rewrite decide_False by tauto.
Qed.

(** C32. The router refines a finite map from (method, list of non-empty
    path segments) to handlers: after a sequence of insertions, a lookup finds
    the handler inserted last for the same method and segments, whatever
    slashes the two spellings have, and nothing else. *)
Theorem router_refines_map (routes : list (Method * bytes * H)) m path :
  Router_lookup (foldl (fun r '(m, p, h) => Router_insert r m p h) Router_new routes) m path =
  foldl (fun o '(m', p, h) => if decide (m = m' /\ segments path = segments p) then Some h else o)
    None routes.
Proof.
  induction routes as [|[[m' p] h] routes IH] using rev_ind; [done|].
  rewrite !foldl_app. simpl. by rewrite Router_lookup_insert, IH.
Qed.
End Router.
