(* ===== verification/Asset.v ===== *)
(** * The in-memory asset cache

    core/src/asset.rs.  What [read_dir], [is_dir] and [fs::read] answer is a
    tree given as data: a node is a file with the result of reading it, or a
    directory with the result of opening it, whose entries may fail one by
    one.  The errors are a parameter.  A path below the load directory is the
    list of its components; [strip_prefix(root)] of such a path is that list
    again. *)

From S2P Require Import Prelude RustStr.

(** ** Standard library: paths and lossy strings *)

(** U+FFFD *)
Definition replacement : bytes := [xef; xbf; xbd].

(** [String::from_utf8_lossy]: every maximal prefix of a well-formed sequence
    that is not one becomes U+FFFD. *)
Fixpoint from_utf8_lossy (s : bytes) : bytes :=
  match s with
  | [] => []
  | b0 :: s1 =>
    if in_range b0 0 0x7F then b0 :: from_utf8_lossy s1 else
    match s1 with
    | [] => replacement
    | b1 :: s2 =>
      if in_range b0 0xC2 0xDF then
        if cont b1 then b0 :: b1 :: from_utf8_lossy s2 else replacement ++ from_utf8_lossy s1
      else if in_range b0 0xE0 0xEF then
        if second3 b0 b1 then
          match s2 with
          | [] => replacement
          | b2 :: s3 =>
            if cont b2 then b0 :: b1 :: b2 :: from_utf8_lossy s3
            else replacement ++ from_utf8_lossy s2
          end
        else replacement ++ from_utf8_lossy s1
      else if in_range b0 0xF0 0xF4 then
        if second4 b0 b1 then
          match s2 with
          | [] => replacement
          | b2 :: s3 =>
            if cont b2 then
              match s3 with
              | [] => replacement
              | b3 :: s4 =>
                if cont b3 then b0 :: b1 :: b2 :: b3 :: from_utf8_lossy s4
                else replacement ++ from_utf8_lossy s3
              end
            else replacement ++ from_utf8_lossy s2
          end
        else replacement ++ from_utf8_lossy s1
      else replacement ++ from_utf8_lossy s1
    end
  end.

(** The separator-joined path. *)
Fixpoint join_path (p : list bytes) : bytes :=
  match p with
  | [] => []
  | [name] => name
  | name :: p => name ++ x2f :: join_path p
  end.

(** The last position of [x]. *)
Fixpoint rposition (x : byte) (s : bytes) : option nat :=
  match s with
  | [] => None
  | b :: s' =>
    match rposition x s' with
    | Some i => Some (S i)
    | None => if Byte.eqb b x then Some 0 else None
    end
  end.

(** [Path::extension] of a path whose file name is [name]: what follows the
    last dot, unless that dot is the first byte. *)
Definition extension (name : bytes) : option bytes :=
  if bool_decide (name = B "..") then None else
  match rposition x2e name with
  | None | Some 0 => None
  | Some i => Some (drop (S i) name)
  end.

(** ** Content types *)

Definition ct_html := B "text/html; charset=utf-8".
Definition ct_css := B "text/css; charset=utf-8".
Definition ct_octets := B "application/octet-stream".

Definition content_type_for (name : bytes) : bytes :=
  let e := to_ascii_lowercase <$> default [] (extension name ≫= from_utf8) in
  if bool_decide (e = B "html") || bool_decide (e = B "htm") then ct_html
  else if bool_decide (e = B "css") then ct_css
  else if bool_decide (e = B "js") then B "text/javascript; charset=utf-8"
  else if bool_decide (e = B "json") then B "application/json"
  else if bool_decide (e = B "txt") then B "text/plain; charset=utf-8"
  else if bool_decide (e = B "png") then B "image/png"
  else if bool_decide (e = B "jpg") || bool_decide (e = B "jpeg") then B "image/jpeg"
  else if bool_decide (e = B "svg") then B "image/svg+xml"
  else if bool_decide (e = B "ico") then B "image/x-icon"
  else ct_octets.

(** ** The cache *)

(** The field [bytes] of the source is [asset_bytes]. *)
Record Asset := mkAsset { asset_bytes : bytes; content_type : bytes }.

Record AssetCache := mkCache { asset_map : gmap bytes Asset }.

Definition AssetCache_default : AssetCache := mkCache ∅.

Definition AssetCache_get (c : AssetCache) (name : bytes) : option Asset := c.(asset_map) !! name.

Section Load.
Context {E : Type}.

Inductive FsNode :=
  | FsFile (content : result bytes E)
  | FsDir (listing : result (list (result (bytes * FsNode) E)) E).

(** [rel.to_string_lossy().replace('\\', "/")] *)
Definition asset_key (rel : list bytes) : bytes :=
  (fun b => if Byte.eqb b x5c then x2f else b) <$> from_utf8_lossy (join_path rel).

(** [rel] is the path of the node below the root. *)
Fixpoint load_into (rel : list bytes) (node : FsNode) (m : gmap bytes Asset)
    : result (gmap bytes Asset) E :=
  match node with
  | FsFile (Err e) => Err e
  | FsFile (Ok bs) =>
    Ok (<[asset_key rel := mkAsset bs (content_type_for (List.last rel []))]> m)
  | FsDir (Err e) => Err e
  | FsDir (Ok entries) =>
    (fix each (entries : list (result (bytes * FsNode) E)) (m : gmap bytes Asset) :=
       match entries with
       | [] => Ok m
       | Err e :: _ => Err e
       | Ok (name, node) :: entries =>
         match load_into (rel ++ [name]) node m with
         | Err e => Err e
         | Ok m => each entries m
         end
       end) entries m
  end.

(** [load_dir], on what opening the directory answers. *)
Definition load_dir (dir : result (list (result (bytes * FsNode) E)) E) : result AssetCache E :=
  match load_into [] (FsDir dir) ∅ with
  | Err e => Err e
  | Ok m => Ok (mkCache m)
  end.
End Load.
Arguments FsNode : clear implicits.

(** ** Reading a tree by path *)

Section Tree.
Context {E : Type}.

(** What is stored at a path below a node. *)
Fixpoint fs_read (node : FsNode E) (p : list bytes) : option bytes :=
  match node, p with
  | FsFile (Ok bs), [] => Some bs
  | FsDir (Ok entries), name :: p =>
    (fix find (entries : list (result (bytes * FsNode E) E)) :=
       match entries with
       | Ok (name', node) :: entries =>
         if bool_decide (name' = name) then fs_read node p else find entries
       | Err _ :: entries => find entries
       | [] => None
       end) entries
  | _, _ => None
  end.

(** A file name the cache can key: non-empty UTF-8 without separators. *)
Definition plain (name : bytes) : bool :=
  bool_decide (name <> []) && utf8_valid name &&
  forallb (fun b => negb (Byte.eqb x2f b) && negb (Byte.eqb x5c b)) name.

Definition entry_name (e : result (bytes * FsNode E) E) : bytes :=
  match e with Ok (name, _) => name | Err _ => [] end.

(** No read fails; names are plain and distinct in their directory. *)
Fixpoint healthy (node : FsNode E) : bool :=
  match node with
  | FsFile (Ok _) => true
  | FsFile (Err _) | FsDir (Err _) => false
  | FsDir (Ok entries) =>
    (fix each (entries : list (result (bytes * FsNode E) E)) :=
       match entries with
       | [] => true
       | Err _ :: _ => false
       | Ok (name, node) :: entries =>
         plain name && negb (bool_decide (name ∈ entry_name <$> entries)) &&
         healthy node && each entries
       end) entries
  end.

(** The loops of [load_into], [fs_read] and [healthy] over the entries, by name. *)
Lemma load_dir_nil rel m : load_into rel (FsDir (E:=E) (Ok [])) m = Ok m.
Proof. done. Qed.

Lemma load_dir_cons rel name (node : FsNode E) entries m :
  load_into rel (FsDir (Ok (Ok (name, node) :: entries))) m =
  match load_into (rel ++ [name]) node m with
  | Err e => Err e
  | Ok m => load_into rel (FsDir (Ok entries)) m
  end.
Proof. done. Qed.

Lemma fs_read_cons name (node : FsNode E) entries x p :
  fs_read (FsDir (Ok (Ok (name, node) :: entries))) (x :: p) =
  if bool_decide (name = x) then fs_read node p else fs_read (FsDir (Ok entries)) (x :: p).
Proof. done. Qed.

Lemma healthy_cons name (node : FsNode E) entries :
  healthy (FsDir (Ok (Ok (name, node) :: entries))) =
  plain name && negb (bool_decide (name ∈ entry_name <$> entries)) &&
  healthy node && healthy (FsDir (Ok entries)).
Proof. done. Qed.

(** Induction on trees through the entries of a directory. *)
Lemma FsNode_entries_ind (P : FsNode E -> Prop) :
  (forall r, P (FsFile r)) -> (forall e, P (FsDir (Err e))) -> P (FsDir (Ok [])) ->
  (forall e entries, P (FsDir (Ok entries)) -> P (FsDir (Ok (Err e :: entries)))) ->
  (forall name node entries, P node -> P (FsDir (Ok entries)) ->
    P (FsDir (Ok (Ok (name, node) :: entries)))) ->
  forall n, P n.
Proof.
  intros HF HE H0 Herr Hcons. fix IH 1. intros [r|[entries|e]]; [apply HF| |apply HE].
  revert entries. fix IHe 1. intros [|[[name node]|e] entries].
  - apply H0.
  - apply Hcons; [apply IH|apply IHe].
  - apply Herr, IHe.
Qed.

Lemma fs_read_not_in (entries : list (result (bytes * FsNode E) E)) x p c :
  fs_read (FsDir (Ok entries)) (x :: p) = Some c -> x ∈ entry_name <$> entries.
Proof.
  induction entries as [|[[name node]|e] entries IH]; [done| |].
  - rewrite fs_read_cons. case_bool_decide as Hn; intros H; cbn.
    + subst. by left.
    + right. by apply IH.
  - intros H. cbn. right. by apply IH.
Qed.

(** What a load adds to a map. *)
Definition loaded (rel : list bytes) (n : FsNode E) (m m' : gmap bytes Asset) : Prop :=
  forall k,
    (exists p c, fs_read n p = Some c /\ k = asset_key (rel ++ p) /\
       m' !! k = Some (mkAsset c (content_type_for (List.last (rel ++ p) [])))) \/
    ((forall p c, fs_read n p = Some c -> k <> asset_key (rel ++ p)) /\ m' !! k = m !! k).

Lemma load_into_spec rel n m :
  healthy n = true -> exists m', load_into rel n m = Ok m' /\ loaded rel n m m'.
Proof.
  revert rel m. induction n as [[bs|e]|e| |e entries _|name node entries IH1 IH2]
    using FsNode_entries_ind; intros rel m Hh; try done.
  - eexists. split; [done|]. intros k. destruct (decide (k = asset_key rel)) as [->|Hk].
    + left. exists [], bs. rewrite app_nil_r. split_and!; [done..|].
      by rewrite lookup_insert_eq.
    + right. split; [|by rewrite lookup_insert_ne].
      intros [|x p] c Hr; simplify_eq/=. by rewrite app_nil_r.
  - exists m. split; [done|]. intros k. right. split; [|done]. by intros [|x p] c H.
  - rewrite healthy_cons, !andb_true_iff, negb_true_iff, bool_decide_eq_false in Hh.
    destruct Hh as [[[_ Hnew] Hn] He].
    destruct (IH1 (rel ++ [name]) m Hn) as (m1 & E1 & L1).
    destruct (IH2 rel m1 He) as (m2 & E2 & L2).
    exists m2. rewrite load_dir_cons, E1. split; [done|]. intros k.
    destruct (L2 k) as [(p & c & Hr & -> & Hk)|[Hno Hk]].
    { left. exists p, c. split; [|done]. destruct p as [|x p]; [done|].
      rewrite fs_read_cons, bool_decide_false; [done|].
      intros ->. by eapply Hnew, fs_read_not_in. }
    destruct (L1 k) as [(p & c & Hr & -> & Hk1)|[Hno1 Hk1]].
    { left. exists (name :: p), c.
      rewrite fs_read_cons, bool_decide_true, (app_assoc rel [name] p : rel ++ name :: p = _) by done.
      by rewrite Hk, Hk1. }
    right. split; [|by rewrite Hk, Hk1].
    intros [|x p] c; [done|]. rewrite fs_read_cons. case_bool_decide as Hx; intros Hr.
    + subst. rewrite (app_assoc rel [x] p : rel ++ x :: p = _). by eapply Hno1.
    + by eapply Hno.
Qed.
End Tree.

(** ** Keys of plain paths *)

Lemma from_utf8_lossy_valid s : utf8_valid s = true -> from_utf8_lossy s = s.
Proof.
  induction s as [s IH] using list_length_ind.
  destruct s as [|b0 s1]; [done|]. cbn [utf8_valid from_utf8_lossy].
  destruct (in_range b0 0 0x7F). { intros H. f_equal. apply IH; [simpl; lia|done]. }
  destruct s1 as [|b1 s2]; [done|].
  destruct (in_range b0 0xC2 0xDF).
  { rewrite andb_true_iff. intros [-> H]. do 2 f_equal. apply IH; [simpl; lia|done]. }
  destruct s2 as [|b2 s3]; [done|].
  destruct (in_range b0 0xE0 0xEF).
  { rewrite !andb_true_iff. intros [[-> ->] H]. do 3 f_equal. apply IH; [simpl; lia|done]. }
  destruct s3 as [|b3 s4]; [done|]. rewrite !andb_true_iff. intros [[[[-> ->] ->] ->] H].
  do 4 f_equal. apply IH; [simpl; lia|done].
Qed.

Lemma join_path_cons name p : p <> [] -> join_path (name :: p) = name ++ x2f :: join_path p.
Proof. by destruct p. Qed.

Definition no_sep (name : bytes) : bool :=
  forallb (fun b => negb (Byte.eqb x2f b) && negb (Byte.eqb x5c b)) name.

Lemma no_sep_slash name : no_sep name = true -> forallb (fun b => negb (Byte.eqb x2f b)) name = true.
Proof.
  unfold no_sep. rewrite !forallb_forall. intros H b Hb. specialize (H b Hb).
  by apply andb_true_iff in H as [H _].
Qed.

Lemma plain_spec name : plain name = true -> utf8_valid name = true /\ no_sep name = true.
Proof. unfold plain. rewrite !andb_true_iff. intuition. Qed.

Lemma split_join p :
  p <> [] -> Forall (fun name => plain name = true) p -> split_on x2f (join_path p) = p.
Proof.
  intros Hne Hp. induction Hp as [|name p Hn Hp IH]; [done|].
  apply plain_spec in Hn as [_ Hn]. apply no_sep_slash in Hn.
  destruct (decide (p = [])) as [->|Hp0].
  - by apply split_when_none.
  - rewrite join_path_cons by done. unfold split_on. rewrite split_when_app by done.
    by rewrite <-(IH Hp0) at 2.
Qed.

Lemma asset_key_plain p : Forall (fun name => plain name = true) p -> asset_key p = join_path p.
Proof.
  intros Hp.
  assert (utf8_valid (join_path p) = true /\
    Forall (fun b => Byte.eqb b x5c = false) (join_path p)) as [Hu Hs].
  { induction Hp as [|name p Hn Hp [IHu IHs]]; [done|]. apply plain_spec in Hn as [Hu Hn].
    assert (Forall (fun b => Byte.eqb b x5c = false) name) as Hf.
    { apply Forall_forall. intros b Hb. unfold no_sep in Hn. rewrite forallb_forall in Hn.
      specialize (Hn b (proj1 (list_elem_of_In _ _) Hb)). apply andb_true_iff in Hn as [_ Hn].
      rewrite byte_eqb_sym. by apply negb_true_iff. }
    destruct (decide (p = [])) as [->|Hp0]; [done|]. rewrite join_path_cons by done.
    split; [by apply utf8_valid_app|]. apply Forall_app. by split; [|constructor]. }
  unfold asset_key. rewrite from_utf8_lossy_valid by done.
  clear Hu Hp. induction Hs as [|b s Hb Hs IH]; [done|]. cbn. by rewrite Hb, IH.
Qed.

Section Served.
Context {E : Type}.

Lemma healthy_path (n : FsNode E) p c :
  healthy n = true -> fs_read n p = Some c -> Forall (fun name => plain name = true) p.
Proof.
  revert p. induction n as [[bs|e]|e| |e entries _|name node entries IH1 IH2]
    using FsNode_entries_ind; intros [|x p] Hh Hr; try done.
  rewrite healthy_cons, !andb_true_iff in Hh. destruct Hh as [[[Hp _] Hn] He].
  rewrite fs_read_cons in Hr. case_bool_decide as Hx; [|by apply IH2].
  subst. constructor; [done|]. by apply IH1.
Qed.

(** C33. Booting on a directory whose reads succeed and whose file names are
    plain and distinct, the cache answers exactly the files of the tree: the
    file at path [p] under the key that joins [p] with slashes, with its bytes
    and the content type of its extension; and nothing else. *)
Theorem load_dir_serves_tree (entries : list (result (bytes * FsNode E) E))
    (H : healthy (FsDir (Ok entries)) = true) :
  exists cache, load_dir (Ok entries) = Ok cache /\
    (forall p c, fs_read (FsDir (Ok entries)) p = Some c ->
       AssetCache_get cache (join_path p) =
         Some (mkAsset c (content_type_for (List.last p [])))) /\
    (forall key a, AssetCache_get cache key = Some a ->
       exists p, key = join_path p /\ fs_read (FsDir (Ok entries)) p = Some a.(asset_bytes)).
Proof.
  destruct (load_into_spec [] (FsDir (Ok entries)) ∅ H) as (m & Hm & Hl).
  exists (mkCache m). unfold load_dir, AssetCache_get. rewrite Hm. split_and!; [done| |].
  - intros p c Hr. pose proof (healthy_path _ _ _ H Hr) as Hp.
    destruct (Hl (join_path p)) as [(q & d & Hr' & Hk & Hd)|[Hno _]].
    + pose proof (healthy_path _ _ _ H Hr') as Hq. rewrite app_nil_l, asset_key_plain in Hk by done.
      assert (p = q) as ->; [|rewrite Hr in Hr'; injection Hr' as ->; exact Hd].
      rewrite <-(split_join p), <-(split_join q), Hk; try done; intros ->; done.
    + destruct (Hno p c Hr). by rewrite app_nil_l, asset_key_plain.
  - intros key a Hg. destruct (Hl key) as [(q & d & Hr' & -> & Hd)|[_ Hk]].
    + exists q. rewrite app_nil_l in *. pose proof (healthy_path _ _ _ H Hr').
      rewrite asset_key_plain by done. split; [done|]. cbn in Hg, Hd.
      rewrite Hg in Hd. by simplify_eq/=.
    + cbn in Hg. rewrite Hk, lookup_empty in Hg. done.
Qed.
End Served.

(** The repository's own asset directory. *)
Definition sample_tree : list (result (bytes * FsNode unit) unit) :=
  [Ok (B "index.html", FsFile (Ok (B "<h1>hi</h1>")));
   Ok (B "static", FsDir (Ok [Ok (B "style.css", FsFile (Ok (B "body{}")))]))].

Lemma load_dir_serves_tree_witness :
  healthy (FsDir (Ok sample_tree)) = true /\
  exists cache, load_dir (Ok sample_tree) = Ok cache /\
    AssetCache_get cache (B "static/style.css") = Some (mkAsset (B "body{}") ct_css).
Proof.
  split; [by vm_compute|].
  destruct (load_dir_serves_tree sample_tree eq_refl) as (cache & Hl & Hs & _).
  exists cache. split; [exact Hl|].
  exact (Hs [B "static"; B "style.css"] (B "body{}") eq_refl).
Defined.
