(* ===== verification/App.v ===== *)
(** * Counters, the application and the server configuration

    core/src/metrics.rs (a counter is an [AtomicU64]: [fetch_add] wraps),
    core/src/app.rs and the configuration of core/src/server.rs.  A handler is
    a [fn(&Request, &App) -> Response]; its values are a type [H], and what
    calling one does is the interface [Handlers], which the binary's two
    handlers implement in [Site]. *)

From S2P Require Import Prelude RustStr Http Response Request Router Asset.

Record Metrics := mkMetrics {
  connections : N;
  requests : N;
  errors : N;
}.

Definition Metrics_new : Metrics := mkMetrics 0 0 0.

(** [AtomicU64::fetch_add(1)] *)
Definition fetch_add1 (n : N) : N := ((n + 1) mod 2 ^ 64)%N.

Definition inc_connections (m : Metrics) : Metrics :=
  mkMetrics (fetch_add1 m.(connections)) m.(requests) m.(errors).

Definition inc_requests (m : Metrics) : Metrics :=
  mkMetrics m.(connections) (fetch_add1 m.(requests)) m.(errors).

Definition inc_errors (m : Metrics) : Metrics :=
  mkMetrics m.(connections) m.(requests) (fetch_add1 m.(errors)).

(** Increments commute, so their interleaving across threads is immaterial. *)
Lemma inc_connections_errors m : inc_connections (inc_errors m) = inc_errors (inc_connections m).
Proof. done. Qed.

(** ** App *)

Record App (H : Type) := mkApp {
  router : Router (H:=H);
  assets : AssetCache;
  metrics : Metrics;
}.
Arguments mkApp {H} _ _ _.
Arguments router {H} _.
Arguments assets {H} _.
Arguments metrics {H} _.

(** Calling a handler. *)
Class Handlers (H : Type) := call_handler : H -> Request -> App H -> Response.

Section App.
Context {H : Type}.

(** [app.metrics().inc_connections()] and the like, on the shared [App]. *)
Definition app_inc_connections (a : App H) : App H :=
  mkApp a.(router) a.(assets) (inc_connections a.(metrics)).
Definition app_inc_errors (a : App H) : App H :=
  mkApp a.(router) a.(assets) (inc_errors a.(metrics)).

Definition handle `{Handlers H} (app : App H) (req : Request) : Response :=
  let route method :=
    match Router_lookup app.(router) method req.(req_path) with
    | Some handler => call_handler handler req app
    | None => Response_text NOT_FOUND (B "404 Not Found")
    end in
  match req.(req_method) with
  | Get | Head => route Get
  | Unsupported => Response_text METHOD_NOT_ALLOWED (B "405 Method Not Allowed")
  end.

(** ** The builder *)

Record AppBuilder := mkBuilder {
  b_router : Router (H:=H);
  assets_dir : option bytes;
}.

Definition builder : AppBuilder := mkBuilder Router_new None.

Definition route (b : AppBuilder) (method : Method) (path : bytes) (handler : H) : AppBuilder :=
  mkBuilder (Router_insert b.(b_router) method path handler) b.(assets_dir).

Definition with_assets_dir (b : AppBuilder) (dir : bytes) : AppBuilder :=
  mkBuilder b.(b_router) (Some dir).

(** [fs] is what opening a directory of the file system answers. *)
Definition build {E} (fs : bytes -> result (list (result (bytes * FsNode E) E)) E)
    (b : AppBuilder) : result (App H) E :=
  match b.(assets_dir) with
  | Some dir =>
    match load_dir (fs dir) with
    | Ok cache => Ok (mkApp b.(b_router) cache Metrics_new)
    | Err e => Err e
    end
  | None => Ok (mkApp b.(b_router) AssetCache_default Metrics_new)
  end.
End App.
Arguments AppBuilder : clear implicits.

(** ** ServerConfig *)

(** [std::net::SocketAddr]: an IPv4 address is a number of 32 bits, an IPv6
    one its octets. *)
Inductive SocketAddr :=
  | V4 (ip : N) (port : N)
  | V6 (ip : list N) (port flowinfo scope_id : N).

#[global] Instance SocketAddr_eq_dec : EqDecision SocketAddr.
Proof. solve_decision. Defined.

(** [SocketAddr::from] of four octets and a port. *)
Definition SocketAddr_from (ip : N * N * N * N) (port : N) : SocketAddr :=
  let '(a, b, c, d) := ip in V4 (((a * 256 + b) * 256 + c) * 256 + d)%N port.

(** Durations and instants are nanoseconds. *)
Definition secs (n : N) : N := (n * 1000000000)%N.
Definition millis (n : N) : N := (n * 1000000)%N.

Record ServerConfig := mkConfig {
  addr : SocketAddr;
  workers : N;
  read_timeout : N;
  write_timeout : N;
  max_connections : N;
  cfg_assets_dir : bytes;
}.

(** [available_parallelism] is the platform's. *)
Definition ServerConfig_default {E} (available_parallelism : result N E) : ServerConfig :=
  mkConfig (SocketAddr_from (127, 0, 0, 1) 8080)%N
    (match available_parallelism with Ok n => n | Err _ => 1%N end)
    (secs 30) (secs 30) 1024 (B "server/assets").
