(* ===== verification/Site.v ===== *)
(** * The server binary

    server/src/main.rs: command line, model dispatch, the two routes and their
    handlers. *)

From S2P Require Import Prelude RustStr Http Response Request Router Asset App.

(** ** Handlers *)

Definition serve_asset {H} (app : App H) (name : bytes) : Response :=
  match AssetCache_get app.(assets) name with
  | Some asset => Response_ok asset.(content_type) asset.(asset_bytes)
  | None => Response_text INTERNAL_ERROR (B "asset not found in cache")
  end.

Definition serve_index {H} (_req : Request) (app : App H) : Response :=
  serve_asset app (B "index.html").

Definition serve_style {H} (_req : Request) (app : App H) : Response :=
  serve_asset app (B "static/style.css").

(** The function pointers the binary registers. *)
Inductive Handler := ServeIndex | ServeStyle.

#[export] Instance site_handlers : Handlers Handler := fun h =>
  match h with
  | ServeIndex => serve_index
  | ServeStyle => serve_style
  end.

(** ** Command line *)

Record Cli := mkCli {
  model : bytes;
  port : N;
  cli_assets_dir : bytes;
  verbose : bool;
  cli_workers : option N;
  cli_max_connections : option N;
}.

Definition Cli_default : Cli :=
  mkCli (B "iterative") 8080 (B "server/assets") false None None.

Definition set_model (s : bytes) (c : Cli) : Cli :=
  mkCli s c.(port) c.(cli_assets_dir) c.(verbose) c.(cli_workers) c.(cli_max_connections).
Definition set_port (n : N) (c : Cli) : Cli :=
  mkCli c.(model) n c.(cli_assets_dir) c.(verbose) c.(cli_workers) c.(cli_max_connections).
Definition set_assets_dir (s : bytes) (c : Cli) : Cli :=
  mkCli c.(model) c.(port) s c.(verbose) c.(cli_workers) c.(cli_max_connections).
Definition set_verbose (c : Cli) : Cli :=
  mkCli c.(model) c.(port) c.(cli_assets_dir) true c.(cli_workers) c.(cli_max_connections).
Definition set_workers (n : N) (c : Cli) : Cli :=
  mkCli c.(model) c.(port) c.(cli_assets_dir) c.(verbose) (Some n) c.(cli_max_connections).
Definition set_max_connections (n : N) (c : Cli) : Cli :=
  mkCli c.(model) c.(port) c.(cli_assets_dir) c.(verbose) c.(cli_workers) (Some n).

Definition u16_max : N := 65535.

(** [Err code] is [process::exit(code)].  [expect_value]: the next argument,
    and what to do with the rest of them. *)
Definition expect_value {A} (rest : option (bytes * A)) (k : bytes -> A -> result Cli N)
    : result Cli N :=
  match rest with
  | Some (v, continue) => k v continue
  | None => Err 2%N
  end.

(** [raw.parse().unwrap_or_else(exit)] *)
Definition parse_or_exit (max : N) (raw : bytes) (k : N -> result Cli N) : result Cli N :=
  match parse_uint max raw with
  | Some n => k n
  | None => Err 2%N
  end.

(** The [while let] loop over the remaining arguments. *)
Fixpoint parse_loop (args : list bytes) (cli : Cli) : result Cli N :=
  match args with
  | [] => Ok cli
  | arg :: args =>
    let rest := match args with v :: args => Some (v, parse_loop args) | [] => None end in
    if bool_decide (arg = B "--model") then
      expect_value rest (fun v continue => continue (set_model v cli))
    else if bool_decide (arg = B "--assets-dir") then
      expect_value rest (fun v continue => continue (set_assets_dir v cli))
    else if bool_decide (arg = B "--port") then
      expect_value rest (fun raw continue =>
        parse_or_exit u16_max raw (fun n => continue (set_port n cli)))
    else if bool_decide (arg = B "--workers") then
      expect_value rest (fun raw continue =>
        parse_or_exit usize_max raw (fun n => continue (set_workers n cli)))
    else if bool_decide (arg = B "--max-connections") then
      expect_value rest (fun raw continue =>
        parse_or_exit usize_max raw (fun n => continue (set_max_connections n cli)))
    else if bool_decide (arg = B "--verbose") then parse_loop args (set_verbose cli)
    else if bool_decide (arg = B "-h") || bool_decide (arg = B "--help") then Err 0%N
    else Err 2%N
  end.

Definition parse_args (args : list bytes) : result Cli N :=
  parse_loop args Cli_default.

(** ** Dispatch *)

(** The boxed [dyn Server] of each name. *)
Inductive ServerModel :=
  | Iterative | Forking | Preforked | ThreadPerConn | ThreadPool | Poll
  | EpollLt | EpollEt | EventLoop | Multireactor | IoUring.

#[global] Instance ServerModel_eq_dec : EqDecision ServerModel.
Proof. solve_decision. Defined.

Definition dispatch (name : bytes) : option ServerModel :=
  if bool_decide (name = B "iterative") then Some Iterative
  else if bool_decide (name = B "forking") then Some Forking
  else if bool_decide (name = B "preforked") then Some Preforked
  else if bool_decide (name = B "thread-per-conn") then Some ThreadPerConn
  else if bool_decide (name = B "thread-pool") then Some ThreadPool
  else if bool_decide (name = B "poll") then Some Poll
  else if bool_decide (name = B "epoll-lt") then Some EpollLt
  else if bool_decide (name = B "epoll-et") then Some EpollEt
  else if bool_decide (name = B "event-loop") then Some EventLoop
  else if bool_decide (name = B "multireactor") then Some Multireactor
  else if bool_decide (name = B "io-uring") then Some IoUring
  else None.

(** [Server::name] of each model. *)
Definition server_name (m : ServerModel) : bytes :=
  match m with
  | Iterative => B "iterative"
  | Forking => B "forking"
  | Preforked => B "preforked"
  | ThreadPerConn => B "thread-per-conn"
  | ThreadPool => B "thread-pool"
  | Poll => B "poll"
  | EpollLt => B "epoll-lt"
  | EpollEt => B "epoll-et"
  | EventLoop => B "event-loop"
  | Multireactor => B "multireactor"
  | IoUring => B "io-uring"
  end.

Section Main.
Context {E : Type} (fs : bytes -> result (list (result (bytes * FsNode E) E)) E).

Definition build_app (cli : Cli) : result (App Handler) E :=
  build fs (route (route (with_assets_dir builder cli.(cli_assets_dir))
    Get (B "/") ServeIndex) Get (B "/static/style.css") ServeStyle).

(** The configuration [main] derives from the command line. *)
Definition main_config (available_parallelism : result N E) (cli : Cli) : ServerConfig :=
  let d := ServerConfig_default available_parallelism in
  mkConfig (SocketAddr_from (0, 0, 0, 0) cli.(port))%N
    (match cli.(cli_workers) with Some w => N.max w 1 | None => d.(workers) end)
    d.(read_timeout) d.(write_timeout)
    (match cli.(cli_max_connections) with Some m => N.max m 1 | None => d.(max_connections) end)
    cli.(cli_assets_dir).

(** [main], up to the model's [serve], with the exit code. *)
Definition main (available_parallelism : result N E) (args : list bytes)
    (serve : ServerModel -> bool -> ServerConfig -> App Handler -> result unit E) : N :=
  match parse_args args with
  | Err code => code
  | Ok cli =>
    match build_app cli with
    | Err _ => 1%N
    | Ok app =>
      match dispatch cli.(model) with
      | None => 2%N
      | Some server =>
        match serve server cli.(verbose) (main_config available_parallelism cli) app with
        | Ok _ => 0%N
        | Err _ => 1%N
        end
      end
    end
  end.
End Main.

(** A name is dispatched to the model that answers to it. *)
Lemma dispatch_name name m : dispatch name = Some m <-> name = server_name m.
Proof.
  split; [|intros ->; by destruct m]. unfold dispatch.
  repeat match goal with |- (if bool_decide (name = ?s) then _ else _) = _ -> _ =>
    destruct (bool_decide_reflect (name = s)); [by intros [= <-]|] end. done.
Qed.

(** The binary: bad arguments exit with their code, unloadable assets with
    1; each of the eleven names runs the model that bears it, with at least one
    worker and one connection allowed, and the exit code says whether it
    served; any other name exits with 2. *)
Theorem main_serves {E} (fs : bytes -> result (list (result (bytes * FsNode E) E)) E) par args serve
    (Hpar : forall n, par = Ok n -> (1 <= n)%N) :
  match parse_args args with
  | Err code => main fs par args serve = code
  | Ok cli =>
    let cfg := main_config par cli in
    (1 <= cfg.(workers) /\ 1 <= cfg.(max_connections))%N /\
    match build_app fs cli with
    | Err _ => main fs par args serve = 1%N
    | Ok app =>
      (forall m, cli.(model) = server_name m ->
        main fs par args serve = match serve m cli.(verbose) cfg app with Ok _ => 0 | Err _ => 1 end)%N /\
      ((forall m, cli.(model) <> server_name m) -> main fs par args serve = 2%N)
    end
  end.
Proof.
  unfold main. destruct (parse_args args) as [cli|code]; [|done]. split.
  - unfold main_config. cbn [workers max_connections ServerConfig_default].
    destruct (cli_workers cli), (cli_max_connections cli), par as [k|e]; try specialize (Hpar _ eq_refl);
      split; lia.
  - destruct (build_app fs cli) as [app|e]; [|done]. split.
    + intros m Hm. by rewrite (proj2 (dispatch_name _ _) Hm).
    + intros Hne. destruct (dispatch (model cli)) as [m|] eqn:Ed; [|done].
      by apply dispatch_name, Hne in Ed.
Qed.

(** Assets that cannot be opened, and a name that is no model's. *)
Lemma main_serves_witness :
  let fs (d : bytes) : result (list (result (bytes * FsNode unit) unit)) unit :=
    if bool_decide (d = B "server/assets") then Ok [] else Err tt in
  let serve (m : ServerModel) (v : bool) (c : ServerConfig) (a : App Handler) : result unit unit := Ok tt in
  (forall n, Ok (E:=unit) 4%N = Ok n -> 1 <= n)%N /\
  main fs (Ok 4%N) [B "--assets-dir"; B "nowhere"] serve = 1%N /\
  main fs (Ok 4%N) [B "--model"; B "nginx"] serve = 2%N /\
  main fs (Ok 4%N) [B "--model"; B "epoll-et"] serve = 0%N.
Proof.
  intros fs serve. assert (forall n, Ok (E:=unit) 4%N = Ok n -> 1 <= n)%N as Hpar by (intros n [= <-]; lia).
  split; [exact Hpar|].
  split; [exact (proj2 (main_serves fs (Ok 4%N) [B "--assets-dir"; B "nowhere"] serve Hpar))|].
  split; [refine (proj2 (proj2 (main_serves fs (Ok 4%N) [B "--model"; B "nginx"] serve Hpar)) _)
         |exact (proj1 (proj2 (main_serves fs (Ok 4%N) [B "--model"; B "epoll-et"] serve Hpar)) EpollEt eq_refl)].
  intros m. destruct m; by vm_compute.
Defined.

(** ** The site *)

(** What the binary answers to a request, by method and path segments. *)
Definition site_response (cache : AssetCache) (req : Request) : Response :=
  let asset name :=
    match AssetCache_get cache name with
    | Some a => Response_ok a.(content_type) a.(asset_bytes)
    | None => Response_text INTERNAL_ERROR (B "asset not found in cache")
    end in
  if decide (req.(req_method) = Unsupported) then
    Response_text METHOD_NOT_ALLOWED (B "405 Method Not Allowed")
  else if decide (segments req.(req_path) = []) then asset (B "index.html")
  else if decide (segments req.(req_path) = [B "static"; B "style.css"]) then
    asset (B "static/style.css")
  else Response_text NOT_FOUND (B "404 Not Found").

Definition site_router : Router :=
  Router_insert (Router_insert Router_new Get (B "/") ServeIndex)
    Get (B "/static/style.css") ServeStyle.

Lemma site_lookup path :
  Router_lookup site_router Get path =
  if decide (segments path = []) then Some ServeIndex
  else if decide (segments path = [B "static"; B "style.css"]) then Some ServeStyle
  else None.
Proof.
  unfold site_router. rewrite !Router_lookup_insert.
  change (segments (B "/static/style.css")) with [B "static"; B "style.css"].
  change (segments (B "/")) with (@nil bytes).
  destruct (decide (segments path = [])) as [->|H1].
  - rewrite decide_False by (intros [_ [=]]). by rewrite decide_True.
  - destruct (decide (segments path = [B "static"; B "style.css"])) as [->|H2].
    + by rewrite decide_True.
    + by rewrite !decide_False by tauto.
Qed.

(** The application [main] builds answers every request as [site_response]
    says: 405 for another method than GET and HEAD, the index page for the
    root, the stylesheet for its path under any spelling of the slashes, 404
    for anything else; it fails to start only when loading the assets does. *)
Theorem build_app_site {E} (fs : bytes -> result (list (result (bytes * FsNode E) E)) E) cli :
  match build_app fs cli with
  | Err e => load_dir (fs cli.(cli_assets_dir)) = Err e
  | Ok app => exists cache, load_dir (fs cli.(cli_assets_dir)) = Ok cache /\
      forall req, handle app req = site_response cache req
  end.
Proof.
  unfold build_app, build. cbn [assets_dir route with_assets_dir builder b_router].
  destruct (load_dir _) as [cache|e]; [|done]. exists cache. split; [done|]. intros req.
  unfold handle, site_response. cbn [App.router App.assets].
  fold site_router. destruct (req_method req); [rewrite decide_False by done..|by rewrite decide_True];
    rewrite site_lookup; by repeat case_decide.
Qed.

(** ** Printing a command line *)

Definition render_args (c : Cli) : list bytes :=
  [B "--model"; c.(model); B "--port"; decimal c.(port); B "--assets-dir"; c.(cli_assets_dir)] ++
  (if c.(verbose) then [B "--verbose"] else []) ++
  (match c.(cli_workers) with Some n => [B "--workers"; decimal n] | None => [] end) ++
  (match c.(cli_max_connections) with Some n => [B "--max-connections"; decimal n] | None => [] end).

Definition Cli_in_range (c : Cli) : Prop :=
  (c.(port) <= u16_max)%N /\
  (forall n, c.(cli_workers) = Some n -> n <= usize_max)%N /\
  (forall n, c.(cli_max_connections) = Some n -> n <= usize_max)%N.

(** One round of the loop per option. *)
Lemma parse_loop_model v args c :
  parse_loop (B "--model" :: v :: args) c = parse_loop args (set_model v c).
Proof. done. Qed.
Lemma parse_loop_assets v args c :
  parse_loop (B "--assets-dir" :: v :: args) c = parse_loop args (set_assets_dir v c).
Proof. done. Qed.
Lemma parse_loop_verbose args c :
  parse_loop (B "--verbose" :: args) c = parse_loop args (set_verbose c).
Proof. done. Qed.
Lemma parse_loop_port n args c : (n <= u16_max)%N ->
  parse_loop (B "--port" :: decimal n :: args) c = parse_loop args (set_port n c).
Proof.
  intros H. change (parse_or_exit u16_max (decimal n) (fun n => parse_loop args (set_port n c)) =
    parse_loop args (set_port n c)).
  unfold parse_or_exit. rewrite parse_uint_decimal; [done..|]. unfold u16_max, usize_max in *. lia.
Qed.
Lemma parse_loop_workers n args c : (n <= usize_max)%N ->
  parse_loop (B "--workers" :: decimal n :: args) c = parse_loop args (set_workers n c).
Proof.
  intros H. change (parse_or_exit usize_max (decimal n) (fun n => parse_loop args (set_workers n c)) =
    parse_loop args (set_workers n c)).
  unfold parse_or_exit. by rewrite parse_uint_decimal.
Qed.
Lemma parse_loop_max_connections n args c : (n <= usize_max)%N ->
  parse_loop (B "--max-connections" :: decimal n :: args) c =
  parse_loop args (set_max_connections n c).
Proof.
  intros H. change (parse_or_exit usize_max (decimal n)
    (fun n => parse_loop args (set_max_connections n c)) = parse_loop args (set_max_connections n c)).
  unfold parse_or_exit. by rewrite parse_uint_decimal.
Qed.

(** Round trip: a command line printed from its settings is parsed back to
    them, whatever the model name and directory are (even option-like). *)
Theorem parse_render_args c (Hc : Cli_in_range c) : parse_args (render_args c) = Ok c.
Proof.
  destruct Hc as (Hp & Hw & Hm). destruct c as [m p d v w x].
  cbn [port cli_workers cli_max_connections] in *. unfold parse_args, render_args.
  cbn [model port cli_assets_dir verbose cli_workers cli_max_connections app].
  rewrite parse_loop_model, parse_loop_port, parse_loop_assets by done.
  destruct v, w as [w|], x as [x|]; cbn [app];
    rewrite ?parse_loop_verbose, ?parse_loop_workers, ?parse_loop_max_connections by auto; done.
Qed.

Lemma parse_render_args_witness :
  let c := mkCli (B "--port") 65535 (B "assets") true (Some 4%N) None in
  Cli_in_range c /\ parse_args (render_args c) = Ok c.
Proof.
  assert (Cli_in_range (mkCli (B "--port") 65535 (B "assets") true (Some 4%N) None)) as Hc.
  { split_and!; intros; simplify_eq/=; unfold u16_max, usize_max; lia. }
  split; [exact Hc|]. exact (parse_render_args _ Hc).
Defined.
