(* ===== verification/Conn.v ===== *)
(** * The connection state machine

    core/src/conn.rs: sans-IO, driven by every concurrency model.  The clock is
    read by the caller: [Instant::now()] is the argument [now]. *)

From S2P Require Import Prelude RustStr Http Response Request Router Asset App.

(** What the connection wants the model to do next. *)
Inductive ConnAction := WantRead | WantWrite | Close.

#[global] Instance ConnAction_eq_dec : EqDecision ConnAction.
Proof. solve_decision. Defined.

(** The private [enum State]. *)
Inductive CState := Reading | Writing | Closed.

#[global] Instance CState_eq_dec : EqDecision CState.
Proof. solve_decision. Defined.

Record Connection := mkConn {
  parser : RequestParser;
  c_state : CState;
  write_buf : bytes;
  write_pos : nat;
  close_after_write : bool;
  c_read_timeout : N;
  deadline : N;
}.

Definition Connection_new (now read_timeout : N) : Connection :=
  mkConn RequestParser_new Reading [] 0 false read_timeout (now + read_timeout).

(** Field assignments. *)
Definition set_parser (p : RequestParser) (c : Connection) : Connection :=
  mkConn p c.(c_state) c.(write_buf) c.(write_pos) c.(close_after_write) c.(c_read_timeout)
    c.(deadline).
Definition set_c_state (s : CState) (c : Connection) : Connection :=
  mkConn c.(parser) s c.(write_buf) c.(write_pos) c.(close_after_write) c.(c_read_timeout)
    c.(deadline).
Definition set_write (b : bytes) (i : nat) (c : Connection) : Connection :=
  mkConn c.(parser) c.(c_state) b i c.(close_after_write) c.(c_read_timeout) c.(deadline).
Definition set_close_after_write (b : bool) (c : Connection) : Connection :=
  mkConn c.(parser) c.(c_state) c.(write_buf) c.(write_pos) b c.(c_read_timeout) c.(deadline).
Definition set_deadline (t : N) (c : Connection) : Connection :=
  mkConn c.(parser) c.(c_state) c.(write_buf) c.(write_pos) c.(close_after_write)
    c.(c_read_timeout) t.

Definition action_for_state (c : Connection) : ConnAction :=
  match c.(c_state) with
  | Reading => WantRead
  | Writing => WantWrite
  | Closed => Close
  end.

(** [write_buf.clear()] and [write_pos = 0], then the encoder appends. *)
Definition start_writing (c : Connection) (response : Response) (keep_alive include_body : bool)
    : outcome Connection :=
  out ← encode response keep_alive include_body [];
  Ret (set_c_state Writing (set_close_after_write (negb keep_alive) (set_write out 0 c))).

(** [format!("{} {}\n", status.0, status.reason())] *)
Definition error_body (s : StatusCode) : bytes := decimal s.(code) ++ [SP] ++ reason s ++ [LF].

Section Conn.
Context {H : Type} `{Handlers H}.

Definition handle_status (c : Connection) (status : ParseStatus) (app : App H)
    : outcome (Connection * ConnAction) :=
  match status with
  | Incomplete => Ret (set_c_state Reading c, WantRead)
  | Complete request _ =>
    let include_body := negb (bool_decide (request.(req_method) = Head)) in
    let keep_alive := wants_keep_alive request in
    let response := handle app request in
    c ← start_writing c response keep_alive include_body;
    Ret (c, WantWrite)
  | Failed err =>
    let status := ParseError_status err in
    let response := Response_text status (error_body status) in
    c ← start_writing c response false true;
    Ret (c, WantWrite)
  end.

Definition on_bytes (c : Connection) (bs : bytes) (app : App H)
    : outcome (Connection * ConnAction) :=
  if negb (bool_decide (c.(c_state) = Reading)) then Ret (c, action_for_state c) else
  '(p, status) ← push c.(parser) bs;
  handle_status (set_parser p c) status app.

End Conn.

Definition pending_write (c : Connection) : outcome bytes :=
  match c.(c_state) with
  | Writing => slice_from c.(write_buf) c.(write_pos)
  | _ => Ret []
  end.

Definition on_written (now : N) (c : Connection) (n : nat) : Connection * ConnAction :=
  if negb (bool_decide (c.(c_state) = Writing)) then (c, action_for_state c) else
  let c := set_write c.(write_buf) (c.(write_pos) + n) c in
  if c.(write_pos) <? length c.(write_buf) then (c, WantWrite) else
  if c.(close_after_write) then (set_c_state Closed c, Close) else
  let c := set_parser (reset c.(parser)) c in
  let c := set_write [] 0 c in
  let c := set_c_state Reading c in
  (set_deadline (now + c.(c_read_timeout)) c, WantRead).

Definition is_expired (c : Connection) (now : N) : bool := (c.(deadline) <=? now)%N.
