(* ===== verification/ConnSpec.v ===== *)
(** * What a connection does

    A connection as an automaton over bytes received and sent, without buffers
    or offsets, and the proof that [Conn.Connection] refines it without
    panicking. *)

From S2P Require Import Prelude RustStr Http Response Request RequestSpec RequestRefine RequestProps Router Asset App Conn.

(** ** The automaton *)

(** Waiting for a request, of which [received] has come; sending [unsent],
    after which the connection closes or waits again with the bytes received
    past the request; closed. *)
Inductive AConn :=
  | AReading (received : bytes)
  | AWriting (unsent : bytes) (next : option bytes)
  | AClosed.

Definition a_action (a : AConn) : ConnAction :=
  match a with
  | AReading _ => WantRead
  | AWriting _ _ => WantWrite
  | AClosed => Close
  end.

(** The response to a parse error. *)
Definition error_response (e : ParseError) : Response :=
  Response_text (ParseError_status e) (error_body (ParseError_status e)).

Definition a_written (a : AConn) (n : nat) : AConn :=
  match a with
  | AWriting unsent next =>
    if n <? length unsent then AWriting (drop n unsent) next else
    match next with None => AClosed | Some s => AReading s end
  | _ => a
  end.

Section Spec.
Context {H : Type} `{Handlers H} (app : App H).

(** The bytes of an answer. *)
Definition answer (r : Request) : bytes :=
  encoded_head (handle app r) (wants_keep_alive r) ++
  (if bool_decide (r.(req_method) = Head) then [] else body_bytes (handle app r)).

Definition error_answer (e : ParseError) : bytes :=
  encoded_head (error_response e) false ++ body_bytes (error_response e).

Definition a_bytes (a : AConn) (b : bytes) : AConn :=
  match a with
  | AReading s =>
    match spec_parse (s ++ b) with
    | Incomplete => AReading (s ++ b)
    | Complete r n =>
      AWriting (answer r) (if wants_keep_alive r then Some (drop n (s ++ b)) else None)
    | Failed e => AWriting (error_answer e) None
    end
  | _ => a
  end.

(** ** Refinement *)

Definition refines (c : Connection) (a : AConn) : Prop :=
  match a with
  | AReading s => c.(c_state) = Reading /\ Represents c.(parser) s
  | AWriting unsent next =>
    c.(c_state) = Writing /\ c.(write_pos) < length c.(write_buf) /\
    unsent = drop c.(write_pos) c.(write_buf) /\
    match next with
    | None => c.(close_after_write) = true
    | Some s => c.(close_after_write) = false /\
                reset c.(parser) = set_buf s RequestParser_new
    end
  | AClosed => c.(c_state) = Closed
  end.

Lemma refines_new now rt : refines (Connection_new now rt) (AReading []).
Proof. split; [done|]. apply Represents_new. Qed.

Lemma refines_action c a : refines c a -> action_for_state c = a_action a.
Proof. unfold action_for_state. destruct a; simpl; [intros [-> _]|intros [-> _]|intros ->]; done. Qed.

Lemma encoded_head_length r ka : 0 < length (encoded_head r ka).
Proof.
  unfold encoded_head, status_line. rewrite !length_app.
  change (length (B "HTTP/1.1 ")) with 9. lia.
Qed.

Lemma start_writing_spec c r ka ib :
  Response_ok_size r ->
  start_writing c r ka ib =
  Ret (set_c_state Writing (set_close_after_write (negb ka)
    (set_write (encoded_head r ka ++ (if ib then body_bytes r else [])) 0 c))).
Proof. intros Hr. unfold start_writing. by rewrite encode_spec. Qed.

Lemma error_response_ok e : Response_ok_size (error_response e).
Proof. destruct e; split; by vm_compute. Qed.

(** A slice of memory has a [usize] length, a status code is a [u16]. *)
Definition fits : Prop := forall r, Response_ok_size (handle app r).

Lemma on_bytes_refines (Hfit : fits) c a b :
  refines c a ->
  exists c', on_bytes c b app = Ret (c', a_action (a_bytes a b)) /\ refines c' (a_bytes a b) /\
    c'.(deadline) = c.(deadline) /\ c'.(c_read_timeout) = c.(c_read_timeout).
Proof.
  intros Hr. pose proof (refines_action _ _ Hr) as Ha. unfold on_bytes.
  destruct a as [s|u next|]; simpl in Hr.
  - destruct Hr as [Hs Hp]. rewrite bool_decide_true by done. cbn [negb].
    destruct (push_Represents _ _ b Hp) as (p & -> & Hpost). cbn [mbind outcome_bind a_bytes].
    destruct (spec_parse (s ++ b)) as [|r n|e]; unfold handle_status.
    + eexists. split_and!; try done.
    + rewrite start_writing_spec by done. cbn [mbind outcome_bind]. eexists. split; [done|].
      destruct Hpost as (_ & _ & Hres). split; [|done]. simpl. split_and!; try done.
      * rewrite length_app. pose proof (encoded_head_length (handle app r) (wants_keep_alive r)). lia.
      * unfold answer. by case_bool_decide.
      * by destruct (wants_keep_alive r).
    + rewrite start_writing_spec by apply error_response_ok. cbn [mbind outcome_bind].
      eexists. split; [done|]. split; [|done]. simpl. split_and!; try done.
      rewrite length_app. pose proof (encoded_head_length (error_response e) false).
      unfold error_response in *. lia.
  - destruct Hr as (Hs & Hr). rewrite bool_decide_false by by rewrite Hs. cbn [negb].
    rewrite Ha. by exists c.
  - rewrite bool_decide_false by by rewrite Hr. cbn [negb]. rewrite Ha. by exists c.
Qed.

Lemma pending_write_refines c a :
  refines c a ->
  pending_write c = Ret (match a with AWriting unsent _ => unsent | _ => [] end).
Proof.
  unfold pending_write. destruct a as [s|u next|]; simpl.
  - by intros [-> _].
  - intros (-> & Hlt & -> & _). apply slice_from_ret. lia.
  - by intros ->.
Qed.

Lemma refines_unsent c u next : refines c (AWriting u next) -> u <> [].
Proof. intros (_ & Hlt & -> & _) E. apply (f_equal length) in E. rewrite length_drop in E. simpl in E. lia. Qed.

Lemma on_written_refines now c a n :
  refines c a ->
  exists c', on_written now c n = (c', a_action (a_written a n)) /\ refines c' (a_written a n) /\
    c'.(c_read_timeout) = c.(c_read_timeout) /\
    c'.(deadline) = (match a, a_written a n with
                     | AWriting _ _, AReading _ => now + c.(c_read_timeout)
                     | _, _ => c.(deadline)
                     end)%N.
Proof.
  intros Hr. pose proof (refines_action _ _ Hr) as Ha. unfold on_written.
  destruct a as [s|u next|]; simpl in Hr.
  - destruct Hr as [Hs Hp]. rewrite bool_decide_false by by rewrite Hs. cbn [negb].
    rewrite Ha. by exists c.
  - destruct Hr as (Hs & Hlt & -> & Hn). rewrite bool_decide_true by done.
    cbn [negb a_written write_pos write_buf set_write close_after_write]. rewrite length_drop.
    destruct (Nat.ltb_spec (write_pos c + n) (length (write_buf c))) as [Hw|Hw].
    + rewrite (proj2 (Nat.ltb_lt _ _)) by lia. eexists. split; [done|]. split; [|done].
      simpl. split_and!; try done. by rewrite drop_drop.
    + rewrite (proj2 (Nat.ltb_ge _ _)) by lia.
      destruct next as [s|].
      * destruct Hn as [-> Hn]. eexists. split; [done|]. split; [|done].
        simpl. split; [done|]. rewrite Hn. apply Represents_leftover.
      * rewrite Hn. eexists. split; [done|]. done.
  - rewrite bool_decide_false by by rewrite Hr. cbn [negb]. rewrite Ha. by exists c.
Qed.
End Spec.
