(* ===== verification/ConnProps.v ===== *)
(** * Properties of the connection state machine *)

From S2P Require Import Prelude RustStr Http Response Request RequestSpec RequestRefine RequestProps Router Asset App Conn ConnSpec Site.

(** ** Runs *)

(** What a model calls on a connection, at what time. *)
Inductive Call :=
  | OnBytes (b : bytes)
  | OnWritten (now : N) (n : nat).

(** What it can observe after a call: the returned action, the bytes to write,
    and the deadline [is_expired] compares with. *)
Record Seen := mkSeen { seen_action : ConnAction; seen_pending : bytes; seen_deadline : N }.

Section Runs.
Context {H : Type} `{Handlers H} (app : App H).

Definition call (c : Connection) (k : Call) : outcome (Connection * ConnAction) :=
  match k with
  | OnBytes b => on_bytes c b app
  | OnWritten now n => Ret (on_written now c n)
  end.

Fixpoint run (c : Connection) (ks : list Call) : outcome (Connection * list Seen) :=
  match ks with
  | [] => Ret (c, [])
  | k :: ks =>
    '(c, act) ← call c k;
    w ← pending_write c;
    '(c', seen) ← run c ks;
    Ret (c', mkSeen act w c.(deadline) :: seen)
  end.

(** The automaton with its deadline. *)
Definition a_call (rt : N) (ad : AConn * N) (k : Call) : AConn * N :=
  let '(a, d) := ad in
  match k with
  | OnBytes b => (a_bytes app a b, d)
  | OnWritten now n =>
    (a_written a n,
     match a, a_written a n with AWriting _ _, AReading _ => now + rt | _, _ => d end)%N
  end.

Definition a_seen (ad : AConn * N) : Seen :=
  mkSeen (a_action ad.1) (match ad.1 with AWriting u _ => u | _ => [] end) ad.2.

Fixpoint a_run (rt : N) (ad : AConn * N) (ks : list Call) : list Seen :=
  match ks with
  | [] => []
  | k :: ks => a_seen (a_call rt ad k) :: a_run rt (a_call rt ad k) ks
  end.

Lemma call_refines (Hfit : fits app) c a k :
  refines c a ->
  exists c', call c k = Ret (c', a_action (a_call c.(c_read_timeout) (a, c.(deadline)) k).1) /\
    refines c' (a_call c.(c_read_timeout) (a, c.(deadline)) k).1 /\
    c'.(deadline) = (a_call c.(c_read_timeout) (a, c.(deadline)) k).2 /\
    c'.(c_read_timeout) = c.(c_read_timeout).
Proof.
  intros Hr. destruct k as [b|now n]; simpl.
  - destruct (on_bytes_refines app Hfit c a b Hr) as (c' & -> & ? & ? & ?). by exists c'.
  - destruct (on_written_refines now c a n Hr) as (c' & -> & ? & ? & ?). by exists c'.
Qed.

Lemma run_refines (Hfit : fits app) c a ks :
  refines c a ->
  exists c', run c ks = Ret (c', a_run c.(c_read_timeout) (a, c.(deadline)) ks) /\
    refines c' (foldl (a_call c.(c_read_timeout)) (a, c.(deadline)) ks).1 /\
    c'.(deadline) = (foldl (a_call c.(c_read_timeout)) (a, c.(deadline)) ks).2.
Proof.
  revert c a. induction ks as [|k ks IH]; intros c a Hr; [by exists c|].
  destruct (call_refines Hfit c a k Hr) as (c1 & Hc & Hr1 & Hd1 & Ht1).
  cbn [run]. rewrite Hc. cbn [mbind outcome_bind].
  rewrite (pending_write_refines _ _ Hr1). cbn [mbind outcome_bind].
  destruct (IH c1 _ Hr1) as (c2 & -> & Hr2 & Hd2). cbn [mbind outcome_bind].
  rewrite Hd1, Ht1, <-surjective_pairing in Hr2, Hd2 |- *.
  exists c2. by split.
Qed.

(** C7. Refinement: whatever a model calls on a fresh connection, in whatever
    order, with whatever bytes, counts and times, the connection never panics
    and what it returns, offers to write and keeps as deadline is what the
    buffer-free automaton says. *)
Theorem connection_refines_automaton now rt ks (Hfit : fits app) :
  exists c, run (Connection_new now rt) ks =
    Ret (c, a_run rt (AReading [], now + rt)%N ks).
Proof.
  destruct (run_refines Hfit (Connection_new now rt) _ ks (refines_new now rt)) as (c & Hrun & _).
  by exists c.
Qed.

(** C37. Safety (slow-loris): bytes never move the deadline.  A client that
    trickles its request, in any pieces, is expired exactly from [now + rt]
    on; so is one whose response is not fully sent. *)
Theorem trickling_expires now rt ks c seen t (Hfit : fits app)
    (Hks : Forall (fun k => match k with
                            | OnBytes _ => True
                            | OnWritten _ _ => False end) ks)
    (Hrun : run (Connection_new now rt) ks = Ret (c, seen)) :
  is_expired c t = (now + rt <=? t)%N.
Proof.
  destruct (run_refines Hfit (Connection_new now rt) _ ks (refines_new now rt)) as (c' & Hr & _ & Hd).
  rewrite Hrun in Hr. injection Hr as <- _. unfold is_expired. rewrite Hd. cbn [Connection_new
    c_read_timeout deadline]. f_equal. clear Hrun Hd. generalize (AReading []) as a.
  induction Hks as [|k ks Hk Hks IH]; intros a; [done|]. destruct k as [b|]; [|done].
  cbn [foldl a_call]. apply IH.
Qed.

(** C38. Functional: a request that fails to parse is answered with the status
    of its error, [Connection: close] and a body naming the status, and once
    that is written, in whatever pieces, the connection is closed for good. *)
Theorem parse_error_answered_then_closed c s b e (Hfit : fits app)
    (Hc : refines c (AReading s)) (He : spec_parse (s ++ b) = Failed e) :
  exists c1, on_bytes c b app = Ret (c1, WantWrite) /\
    pending_write c1 = Ret (status_line (ParseError_status e) ++
      render_fields [(B "Content-Type", B "text/plain; charset=utf-8");
                     (B "Content-Length", decimal (N.of_nat (length (error_body (ParseError_status e)))));
                     (B "Connection", B "close")] ++ CRLF ++ error_body (ParseError_status e)) /\
    forall now n, length (error_answer e) <= n ->
      exists c2, on_written now c1 n = (c2, Close) /\
        forall ks, exists c3, run c2 ks = Ret (c3, (fun _ => mkSeen Close [] c2.(deadline)) <$> ks).
Proof.
  destruct (on_bytes_refines app Hfit c _ b Hc) as (c1 & Hrun & Hr1 & _).
  cbn [a_bytes] in Hrun, Hr1. rewrite He in Hrun, Hr1.
  exists c1. split_and!; [done| |].
  - rewrite (pending_write_refines _ _ Hr1). unfold error_answer, encoded_head.
    rewrite <-!app_assoc. by destruct e.
  - intros now n Hn. destruct (on_written_refines now c1 _ n Hr1) as (c2 & Hw & Hr2 & _).
    cbn [a_written] in Hw, Hr2. rewrite (proj2 (Nat.ltb_ge _ _) Hn) in Hw, Hr2.
    exists c2. split; [done|]. intros ks.
    destruct (run_refines Hfit c2 _ ks Hr2) as (c3 & -> & _). exists c3. do 2 f_equal.
    clear. induction ks as [|k ks IH]; [done|].
    destruct k; cbn [a_run a_call a_bytes a_written fmap list_fmap]; by f_equal.
Qed.

(** A pipelined request waits: when two printable requests arrive in one
    read, the first is answered, and when that answer has been written the
    connection asks to read although the whole second request is already in
    its parser, which an empty read would show.  Nothing is offered to write
    until more bytes come. *)
Theorem pipelined_request_waits c tok1 r1 tok2 r2 (Hfit : fits app)
    (Hc : refines c (AReading []))
    (H1 : printable tok1 r1 = true) (H2 : printable tok2 r2 = true)
    (Hka : wants_keep_alive r1 = true) now n (Hn : length (answer app r1) <= n) :
  exists c1 c2 c3,
    on_bytes c (render_request tok1 r1 ++ render_request tok2 r2) app = Ret (c1, WantWrite) /\
    pending_write c1 = Ret (answer app r1) /\
    on_written now c1 n = (c2, WantRead) /\ pending_write c2 = Ret [] /\
    c2.(parser).(buf) = render_request tok2 r2 /\
    on_bytes c2 [] app = Ret (c3, WantWrite) /\ pending_write c3 = Ret (answer app r2).
Proof.
  destruct (on_bytes_refines app Hfit c _ (render_request tok1 r1 ++ render_request tok2 r2) Hc)
    as (c1 & Hrun & Hr1 & _).
  cbn [a_bytes Datatypes.app] in Hrun, Hr1. rewrite (spec_parse_render _ _ _ H1), Hka in Hrun, Hr1.
  rewrite drop_app_length in Hr1.
  destruct (on_written_refines now c1 _ n Hr1) as (c2 & Hw & Hr2 & _).
  cbn [a_written] in Hw, Hr2. rewrite (proj2 (Nat.ltb_ge _ _) Hn) in Hw, Hr2.
  destruct (on_bytes_refines app Hfit c2 _ [] Hr2) as (c3 & Hrun3 & Hr3 & _).
  cbn [a_bytes] in Hrun3, Hr3. rewrite (spec_parse_render _ _ _ H2) in Hrun3, Hr3.
  exists c1, c2, c3. split_and!; try done.
  - by rewrite (pending_write_refines _ _ Hr1).
  - by rewrite (pending_write_refines _ _ Hr2).
  - by destruct Hr2 as (_ & _ & _ & Hb & _).
  - by rewrite (pending_write_refines _ _ Hr3).
Qed.
End Runs.

(** ** The site's responses fit *)

Lemma site_response_fits cache req :
  (forall k a, AssetCache_get cache k = Some a -> N.of_nat (length a.(asset_bytes)) <= usize_max)%N ->
  Response_ok_size (site_response cache req).
Proof.
  intros Hc. unfold site_response. repeat case_decide;
    try (destruct (AssetCache_get cache _) as [a|] eqn:E; [split; [done|by eapply Hc]|]);
    split; by vm_compute.
Qed.

(** The application over the sample asset directory. *)
Definition sample_app : App Handler :=
  mkApp site_router
    (match load_dir (Ok sample_tree) with Ok cache => cache | Err _ => AssetCache_default end)
    Metrics_new.

Lemma sample_app_handle req : handle sample_app req = site_response sample_app.(assets) req.
Proof.
  unfold handle, site_response. cbn [App.router sample_app].
  destruct (req_method req); [rewrite decide_False by done..|by rewrite decide_True];
    rewrite site_lookup; by repeat case_decide.
Qed.

Lemma sample_cache_get k a :
  AssetCache_get sample_app.(assets) k = Some a -> length a.(asset_bytes) <= 11.
Proof.
  assert (map_Forall (fun _ a => length a.(asset_bytes) <= 11) (asset_map sample_app.(assets))) as Hall.
  { apply (bool_decide_unpack _). vm_compute. exact I. }
  apply Hall.
Qed.

Lemma sample_app_fits : fits sample_app.
Proof.
  intros req. rewrite sample_app_handle. apply site_response_fits.
  intros k a Ha%sample_cache_get. unfold usize_max. lia.
Qed.

Definition get_root : bytes := B "GET / HTTP/1.1" ++ CRLF ++ CRLF.

Lemma connection_refines_automaton_witness :
  fits sample_app /\ exists c,
    run sample_app (Connection_new 0 30) [OnBytes get_root; OnWritten 7 1000] =
    Ret (c, a_run sample_app 30 (AReading [], 0 + 30)%N [OnBytes get_root; OnWritten 7 1000]).
Proof.
  split; [exact sample_app_fits|].
  exact (connection_refines_automaton sample_app 0 30 _ sample_app_fits).
Defined.

Lemma trickling_expires_witness :
  exists c seen, run sample_app (Connection_new 5 30) [OnBytes (B "GET "); OnBytes (B "/ H")] =
      Ret (c, seen) /\ is_expired c 34 = false /\ is_expired c 35 = true.
Proof.
  eexists _, _. split; [vm_compute; reflexivity|].
  split; (etransitivity; [eapply (trickling_expires sample_app 5 30
    [OnBytes (B "GET "); OnBytes (B "/ H")] _ _ _ sample_app_fits);
    [by repeat constructor|vm_compute; reflexivity]|done]).
Defined.

Lemma parse_error_answered_then_closed_witness :
  exists c1, on_bytes (Connection_new 0 30) (B "GET /" ++ CRLF) sample_app = Ret (c1, WantWrite) /\
    exists c2, on_written 3 c1 1000 = (c2, Close).
Proof.
  destruct (parse_error_answered_then_closed sample_app (Connection_new 0 30) [] (B "GET /" ++ CRLF)
    MalformedRequestLine sample_app_fits (refines_new 0 30) eq_refl) as (c1 & Hrun & _ & Hw).
  exists c1. split; [exact Hrun|].
  destruct (Hw 3%N 1000) as (c2 & H2 & _); [apply (bool_decide_unpack _); vm_compute; exact I|].
  exists c2. exact H2.
Defined.

Definition sample_request : Request := mkRequest Get (B "/") Http11 Headers_new [].

Lemma pipelined_request_waits_witness :
  let rest := render_request (B "GET") sample_request in
  exists c1 c2 c3,
    on_bytes (Connection_new 0 30) (rest ++ rest) sample_app = Ret (c1, WantWrite) /\
    pending_write c1 = Ret (answer sample_app sample_request) /\
    on_written 1 c1 1000 = (c2, WantRead) /\ pending_write c2 = Ret [] /\
    c2.(parser).(buf) = rest /\
    on_bytes c2 [] sample_app = Ret (c3, WantWrite) /\
    pending_write c3 = Ret (answer sample_app sample_request).
Proof.
  apply (pipelined_request_waits sample_app (Connection_new 0 30) (B "GET") sample_request
    (B "GET") sample_request sample_app_fits (refines_new 0 30)); [by vm_compute..|].
  apply (bool_decide_unpack _); vm_compute; exact I.
Defined.
