(* ===== verification/Syscall.v ===== *)
(** * System calls

    server/src/sys/syscall.rs, and the interface to the operating system that
    the rest of [sys] and the models are written against: a state [K] of the
    kernel, each call the source makes as an operation on it, and
    [KernelLaws], the documented behaviour the proofs rely on.  [Sim] is a
    small kernel that has it. *)

From S2P Require Import Prelude RustStr Http.

(** ** io::Error *)

(** The error kinds the source tests or makes. *)
Inductive ErrorKind := WouldBlock | Interrupted | TimedOut | UnexpectedEof | InvalidData
  | Unsupported | Other.

#[global] Instance ErrorKind_eq_dec : EqDecision ErrorKind.
Proof. solve_decision. Defined.

Inductive IoError :=
  | Os (errno : Z)
  | Custom (kind : ErrorKind).

#[global] Instance IoError_eq_dec : EqDecision IoError.
Proof. solve_decision. Defined.

(** Linux error numbers. *)
Definition EINTR : Z := 4.
Definition EAGAIN : Z := 11.
Definition ETIMEDOUT : Z := 110.

(** [io::Error::kind] *)
Definition kind (e : IoError) : ErrorKind :=
  match e with
  | Os n =>
    if (n =? EAGAIN)%Z then WouldBlock
    else if (n =? EINTR)%Z then Interrupted
    else if (n =? ETIMEDOUT)%Z then TimedOut
    else Other
  | Custom k => k
  end.

(** ** The kernel *)

(** The part of a [sockaddr_storage] the source reads, as native integers. *)
Record SockaddrStorage := mkStorage {
  ss_family : N;
  sin_port : N;
  sin_addr : N;
  sin6_flowinfo : N;
  sin6_addr : list N;
  sin6_scope_id : N;
}.

Inductive EpollOp := EPOLL_CTL_ADD | EPOLL_CTL_MOD | EPOLL_CTL_DEL.

(** The calls, in the C convention: [-1] and [errno] on failure.  [now] and
    [shutdown] are what the clock and the shutdown flag, which a signal raises,
    show at that moment; time passes with the calls.  [std]'s [read], [write]
    and closing of a [TcpStream] have [std]'s results. *)
Class Kernel (K : Type) := {
  last_errno : K -> Z;
  now : K -> N;
  shutdown : K -> bool;
  k_fcntl_getfl : Z -> K -> Z * K;
  k_fcntl_setfl : Z -> Z -> K -> Z * K;
  k_accept4 : Z -> K -> Z * SockaddrStorage * K;
  k_close : Z -> K -> K;
  k_epoll_create1 : K -> Z * K;
  (* epoll fd, operation, fd, event mask and user data *)
  k_epoll_ctl : Z -> EpollOp -> Z -> N * N -> K -> Z * K;
  (* epoll fd, capacity, timeout: the count and the (mask, user data) filled in *)
  k_epoll_wait : Z -> nat -> Z -> K -> Z * list (N * N) * K;
  (* fds with their events, timeout: the count and the revents *)
  k_poll : list (Z * N) -> Z -> K -> Z * list N * K;
  k_read : Z -> N -> K -> result bytes IoError * K;
  k_write : Z -> bytes -> K -> result nat IoError * K;
  (* [TcpListener::accept] of a blocking listener *)
  k_accept : Z -> K -> result Z IoError * K;
  (* [set_read_timeout], [set_write_timeout] *)
  k_set_read_timeout : Z -> N -> K -> result unit IoError * K;
  k_set_write_timeout : Z -> N -> K -> result unit IoError * K;
  (* a bound on the reads and accepts that can succeed before they would block *)
  budget : K -> nat;
}.

(** Iteration order of a [HashMap]: any order of its entries. *)
Class HashOrder := {
  hash_iter : forall {A}, gmap Z A -> list (Z * A);
  hash_iter_perm : forall {A} (m : gmap Z A), hash_iter m ≡ₚ map_to_list m;
}.

Section Cvt.
Context {K : Type} `{Kernel K}.

(** [is_minus_one] *)
Definition is_minus_one (t : Z) : bool := (t =? -1)%Z.

Definition cvt (t : Z) (k : K) : result Z IoError :=
  if is_minus_one t then Err (Os (last_errno k)) else Ok t.

(** The macro [syscall!]. *)
Definition syscall (r : Z * K) : result Z IoError * K := (cvt r.1 r.2, r.2).

(** Dropping a collection of owned descriptors, in its order. *)
Definition close_all (fds : list Z) (k : K) : K := foldl (fun k fd => k_close fd k) k fds.
End Cvt.

(** ** Timeouts *)

Definition c_int_max : N := 2 ^ 31 - 1.

(** [Duration::as_millis] *)
Definition as_millis (ns : N) : N := ns / 1000000.

Definition timeout_to_millis (timeout : option N) : Z :=
  match timeout with
  | None => -1
  | Some d =>
    let ms := as_millis d in
    if (c_int_max <? ms)%N then Z.of_N c_int_max else Z.of_N ms
  end.

(** ** Documented behaviour *)

(** [opened k]: the descriptors open in this process; [interests k ep]: the
    descriptors registered with the epoll instance [ep], with their event
    masks and user data.  [budget] is an assumption on the clients, not on the
    kernel: what they have sent and, for the calls that block, will send on the
    connections there are is finite.  A read that gives bytes and a nonblocking
    accept use it up; only a wait and a blocking accept may add to it. *)
Class KernelLaws (K : Type) `{Kernel K} := {
  opened : K -> gset Z;
  interests : K -> Z -> gmap Z (N * N);

  accept4_new l k fd a k' : k_accept4 l k = (fd, a, k') -> fd <> (-1)%Z ->
    (fd ∉ opened k) /\ opened k' = {[fd]} ∪ opened k /\ interests k' = interests k /\
    (a.(ss_family) = 2 \/ a.(ss_family) = 10)%N /\ budget k' < budget k;
  accept4_fail l k a k' : k_accept4 l k = ((-1)%Z, a, k') ->
    opened k' = opened k /\ interests k' = interests k /\ budget k' <= budget k;
  getfl_frame fd k r k' : k_fcntl_getfl fd k = (r, k') ->
    opened k' = opened k /\ interests k' = interests k /\ budget k' <= budget k;
  setfl_frame fd fl k r k' : k_fcntl_setfl fd fl k = (r, k') ->
    opened k' = opened k /\ interests k' = interests k /\ budget k' <= budget k;
  (* closing a descriptor removes it from every epoll instance *)
  close_effect fd k : opened (k_close fd k) = opened k ∖ {[fd]} /\
    (forall ep, ep <> fd -> interests (k_close fd k) ep = delete fd (interests k ep)) /\
    budget (k_close fd k) <= budget k;
  create1_new k ep k' : k_epoll_create1 k = (ep, k') -> ep <> (-1)%Z ->
    (ep ∉ opened k) /\ opened k' = {[ep]} ∪ opened k /\ interests k' ep = ∅ /\
    (forall ep', ep' <> ep -> interests k' ep' = interests k ep');
  create1_fail k k' : k_epoll_create1 k = ((-1)%Z, k') ->
    opened k' = opened k /\ interests k' = interests k;
  (* adding fails for a registered descriptor, modifying for another *)
  ctl_effect ep op fd ev k r k' : k_epoll_ctl ep op fd ev k = (r, k') ->
    opened k' = opened k /\ budget k' <= budget k /\
    (forall ep', ep' <> ep -> interests k' ep' = interests k ep') /\
    interests k' ep =
      match op with
      | EPOLL_CTL_DEL => delete fd (interests k ep)
      | _ => if is_minus_one r then interests k ep else <[fd := ev]> (interests k ep)
      end;
  epoll_wait_frame ep cap t k r evs k' : k_epoll_wait ep cap t k = (r, evs, k') ->
    opened k' = opened k /\ interests k' = interests k;
  poll_frame fds t k r revs k' : k_poll fds t k = (r, revs, k') ->
    opened k' = opened k /\ interests k' = interests k;
  read_frame fd n k r k' : k_read fd n k = (r, k') ->
    opened k' = opened k /\ interests k' = interests k /\ budget k' <= budget k;
  read_budget fd n k b bs k' : k_read fd n k = (Ok (b :: bs), k') -> budget k' < budget k;
  write_frame fd bs k r k' : k_write fd bs k = (r, k') ->
    opened k' = opened k /\ interests k' = interests k /\ budget k' <= budget k;
  write_some fd b bs k n k' : k_write fd (b :: bs) k = (Ok n, k') -> 0 < n;
  accept_effect l k r k' : k_accept l k = (r, k') ->
    match r with
    | Ok fd => (fd ∉ opened k) /\ opened k' = {[fd]} ∪ opened k
    | Err _ => opened k' = opened k
    end;
  read_timeout_frame fd t k r k' : k_set_read_timeout fd t k = (r, k') ->
    opened k' = opened k /\ budget k' <= budget k;
  write_timeout_frame fd t k r k' : k_set_write_timeout fd t k = (r, k') ->
    opened k' = opened k /\ budget k' <= budget k;
}.
