(* ===== verification/Socket.v ===== *)
(** * Sockets

    server/src/sys/socket.rs. *)

From S2P Require Import Prelude RustStr Http Response Request Router Asset App Syscall.

Definition O_NONBLOCK : Z := 2048.
Definition AF_INET : N := 2.
Definition AF_INET6 : N := 10.

(** [from_be] on a little-endian machine. *)
Definition u16_from_be (n : N) : N := N.lor (N.land (N.shiftl n 8) 0xFFFF) (N.shiftr n 8).
Definition u32_from_be (n : N) : N :=
  N.lor (N.shiftl (u16_from_be (N.land n 0xFFFF)) 16) (u16_from_be (N.shiftr n 16)).

Definition sockaddr_to_socketaddr (storage : SockaddrStorage) : result SocketAddr IoError :=
  if (storage.(ss_family) =? AF_INET)%N then
    Ok (V4 (u32_from_be storage.(sin_addr)) (u16_from_be storage.(sin_port)))
  else if (storage.(ss_family) =? AF_INET6)%N then
    Ok (V6 storage.(sin6_addr) (u16_from_be storage.(sin_port)) storage.(sin6_flowinfo)
          storage.(sin6_scope_id))
  else Err (Custom Unsupported).

Section Socket.
Context {K : Type} `{Kernel K}.

Definition set_nonblocking (fd : Z) (k : K) : result unit IoError * K :=
  match syscall (k_fcntl_getfl fd k) with
  | (Err e, k) => (Err e, k)
  | (Ok flags, k) =>
    match syscall (k_fcntl_setfl fd (Z.lor flags O_NONBLOCK) k) with
    | (Err e, k) => (Err e, k)
    | (Ok _, k) => (Ok tt, k)
    end
  end.

Definition accept_nonblocking (listener_fd : Z) (k : K)
    : result (option (Z * SocketAddr)) IoError * K :=
  let '(raw, storage, k) := k_accept4 listener_fd k in
  match cvt raw k with
  | Ok fd =>
    match sockaddr_to_socketaddr storage with
    | Ok addr => (Ok (Some (fd, addr)), k)
    | Err e => (Err e, k)
    end
  | Err e => if decide (kind e = WouldBlock) then (Ok None, k) else (Err e, k)
  end.

Lemma set_nonblocking_frame `{!KernelLaws K} fd k r k' :
  set_nonblocking fd k = (r, k') ->
  opened k' = opened k /\ interests k' = interests k /\ budget k' <= budget k.
Proof.
  unfold set_nonblocking, syscall. intros E.
  destruct (k_fcntl_getfl fd k) as [fl k1] eqn:E1. apply getfl_frame in E1 as (Ho & Hi & Hb).
  simpl in E. destruct (cvt fl k1) as [flags|e]; [|by simplify_eq].
  destruct (k_fcntl_setfl fd _ k1) as [r2 k2] eqn:E2. apply setfl_frame in E2 as (Ho2 & Hi2 & Hb2).
  simpl in E. destruct (cvt r2 k2); simplify_eq; split_and!; congruence || lia.
Qed.

(** What an accept does to the descriptors: with an address of a TCP socket it
    never loses an accepted one. *)
Lemma accept_nonblocking_effect `{!KernelLaws K} l k r k' :
  accept_nonblocking l k = (r, k') ->
  interests k' = interests k /\
  match r with
  | Ok (Some (fd, _)) => (fd ∉ opened k) /\ opened k' = {[fd]} ∪ opened k /\ budget k' < budget k
  | _ => opened k' = opened k /\ budget k' <= budget k
  end.
Proof.
  unfold accept_nonblocking, cvt, is_minus_one. intros E.
  destruct (k_accept4 l k) as [[fd a] k1] eqn:E1.
  destruct (Z.eqb_spec fd (-1)) as [->|Hfd].
  - apply accept4_fail in E1 as (Ho & Hi & Hb). case_decide; by simplify_eq.
  - apply accept4_new in E1 as (Hf & Ho & Hi & Ha & Hb); [|done].
    unfold sockaddr_to_socketaddr in E. destruct Ha as [Ha|Ha]; rewrite Ha in E; by simplify_eq/=.
Qed.
End Socket.
