(* ===== verification/Listener.v ===== *)
(** * Binding a listener

    [bind_listener] of core/src/server.rs and [set_accept_timeout] of
    server/src/sys/socket.rs.  The socket calls of the socket2 crate are the
    class [Sockets]; [SocketLaws] states what they do to the descriptors and to
    the options of a socket, no socket call touching an epoll instance. *)

From S2P Require Import Prelude RustStr Http Response Request Router Asset App Syscall.

(** ** The sockets *)

(** [socket2::Domain] *)
Inductive Domain := IPV4 | IPV6.

(** [Domain::for_address] *)
Definition for_address (a : SocketAddr) : Domain :=
  match a with V4 _ _ => IPV4 | V6 _ _ _ _ => IPV6 end.

(** A TCP socket as its options and calls leave it. *)
Record SockState := mkSock {
  domain : Domain;
  reuse_address : bool;
  reuse_port : bool;
  bound_to : option SocketAddr;
  listening : option Z;
  rcvtimeo : option (Z * Z);
}.

Definition fresh_socket (d : Domain) : SockState := mkSock d false false None None None.
Definition with_reuse_address (b : bool) (s : SockState) : SockState :=
  mkSock s.(domain) b s.(reuse_port) s.(bound_to) s.(listening) s.(rcvtimeo).
Definition with_reuse_port (b : bool) (s : SockState) : SockState :=
  mkSock s.(domain) s.(reuse_address) b s.(bound_to) s.(listening) s.(rcvtimeo).
Definition with_bound (a : SocketAddr) (s : SockState) : SockState :=
  mkSock s.(domain) s.(reuse_address) s.(reuse_port) (Some a) s.(listening) s.(rcvtimeo).
Definition with_listening (n : Z) (s : SockState) : SockState :=
  mkSock s.(domain) s.(reuse_address) s.(reuse_port) s.(bound_to) (Some n) s.(rcvtimeo).
Definition with_rcvtimeo (sec usec : Z) (s : SockState) : SockState :=
  mkSock s.(domain) s.(reuse_address) s.(reuse_port) s.(bound_to) s.(listening) (Some (sec, usec)).

(** socket2's calls on a TCP socket, and [setsockopt] with [SO_RCVTIMEO] in the
    C convention. *)
Class Sockets (K : Type) := {
  socket_new : Domain -> K -> result Z IoError * K;
  set_reuse_address : Z -> bool -> K -> result unit IoError * K;
  set_reuse_port : Z -> bool -> K -> result unit IoError * K;
  bind : Z -> SocketAddr -> K -> result unit IoError * K;
  listen : Z -> Z -> K -> result unit IoError * K;
  k_set_rcvtimeo : Z -> Z -> Z -> K -> Z * K;
}.

(** [sockets k]: the TCP sockets made by [socket_new] that are open.  A call on
    a socket changes that socket alone, and nothing when it fails. *)
Class SocketLaws (K : Type) `{KernelLaws K, !Sockets K} := {
  sockets : K -> gmap Z SockState;

  socket_new_effect d k r k' : socket_new d k = (r, k') ->
    match r with
    | Ok fd => (fd ∉ opened k) /\ sockets k !! fd = None /\ opened k' = {[fd]} ∪ opened k /\
        sockets k' = <[fd := fresh_socket d]> (sockets k)
    | Err _ => opened k' = opened k /\ sockets k' = sockets k
    end /\ interests k' = interests k;
  reuse_address_effect fd b k r k' : set_reuse_address fd b k = (r, k') ->
    opened k' = opened k /\ interests k' = interests k /\ sockets k' =
      match r with Ok _ => alter (with_reuse_address b) fd (sockets k) | Err _ => sockets k end;
  reuse_port_effect fd b k r k' : set_reuse_port fd b k = (r, k') ->
    opened k' = opened k /\ interests k' = interests k /\ sockets k' =
      match r with Ok _ => alter (with_reuse_port b) fd (sockets k) | Err _ => sockets k end;
  bind_effect fd a k r k' : bind fd a k = (r, k') ->
    opened k' = opened k /\ interests k' = interests k /\ sockets k' =
      match r with Ok _ => alter (with_bound a) fd (sockets k) | Err _ => sockets k end;
  listen_effect fd n k r k' : listen fd n k = (r, k') ->
    opened k' = opened k /\ interests k' = interests k /\ sockets k' =
      match r with Ok _ => alter (with_listening n) fd (sockets k) | Err _ => sockets k end;
  rcvtimeo_effect fd sec usec k r k' : k_set_rcvtimeo fd sec usec k = (r, k') ->
    opened k' = opened k /\ sockets k' =
      if is_minus_one r then sockets k else alter (with_rcvtimeo sec usec) fd (sockets k);
  close_socket fd k : sockets (k_close fd k) = delete fd (sockets k);
}.

(** ** [bind_listener] *)

Definition LISTEN_BACKLOG : Z := 1024.

Section Listener.
Context {K : Type} `{Kernel K, !Sockets K}.

(** The [?] of a call on the kernel. *)
Definition and_then {A C} (r : result A IoError * K) (f : A -> K -> result C IoError * K)
    : result C IoError * K :=
  match r with
  | (Ok a, k) => f a k
  | (Err e, k) => (Err e, k)
  end.

(** What is done to the new socket. *)
Definition configure (socket : Z) (addr : SocketAddr) (reuse : bool) (k : K)
    : result unit IoError * K :=
  and_then
    (if reuse then
       and_then (set_reuse_address socket true k) (fun _ k => set_reuse_port socket true k)
     else (Ok tt, k)) (fun _ k =>
  and_then (bind socket addr k) (fun _ k =>
  listen socket LISTEN_BACKLOG k)).

(** The [Socket] is owned: an error closes it. *)
Definition bind_listener (addr : SocketAddr) (reuse : bool) (k : K) : result Z IoError * K :=
  and_then (socket_new (for_address addr) k) (fun socket k =>
  match configure socket addr reuse k with
  | (Ok _, k) => (Ok socket, k)
  | (Err e, k) => (Err e, k_close socket k)
  end).

(** ** [set_accept_timeout] *)

(** [Duration::as_secs], [subsec_micros] *)
Definition as_secs (ns : N) : N := (ns / 1000000000)%N.
Definition subsec_micros (ns : N) : N := (ns mod 1000000000 / 1000)%N.

Definition set_accept_timeout (fd : Z) (timeout : N) (k : K) : result unit IoError * K :=
  match syscall (k_set_rcvtimeo fd (Z.of_N (as_secs timeout)) (Z.of_N (subsec_micros timeout)) k) with
  | (Err e, k) => (Err e, k)
  | (Ok _, k) => (Ok tt, k)
  end.
End Listener.

(** ** Properties *)

Section Props.
Context {K : Type} `{SocketLaws K}.


(** The socket that a listener on [addr] is. *)
Definition listener_socket (addr : SocketAddr) (reuse : bool) : SockState :=
  mkSock (for_address addr) reuse reuse (Some addr) (Some LISTEN_BACKLOG) None.

Lemma configure_spec fd addr reuse k r k' m :
  sockets k = <[fd := fresh_socket (for_address addr)]> m ->
  configure fd addr reuse k = (r, k') ->
  opened k' = opened k /\ interests k' = interests k /\
  match r with
  | Ok _ => sockets k' = <[fd := listener_socket addr reuse]> m
  | Err _ => delete fd (sockets k') = delete fd m
  end.
Proof using Type.
  intros Hs E. unfold configure, and_then in E.
  assert (exists r0 k0, (if reuse then
      match set_reuse_address fd true k with
      | (Ok _, k) => set_reuse_port fd true k
      | (Err e, k) => (Err e, k)
      end else (Ok tt, k)) = (r0, k0) /\ opened k0 = opened k /\
      interests k0 = interests k /\ match r0 with
      | Ok _ => sockets k0 = <[fd := mkSock (for_address addr) reuse reuse None None None]> m
      | Err _ => delete fd (sockets k0) = delete fd m
      end) as (r0 & k0 & E0 & Ho0 & Hi0 & Hs0).
  { destruct reuse; [|by exists (Ok tt), k].
    destruct (set_reuse_address fd true k) as [[u|e] k1] eqn:E1;
      apply reuse_address_effect in E1 as (Ho1 & Hi1 & Hs1).
    2: { exists (Err e), k1. by rewrite Hs1, Hs, delete_insert_eq. }
    destruct (set_reuse_port fd true k1) as [[u'|e] k2] eqn:E2;
      apply reuse_port_effect in E2 as (Ho2 & Hi2 & Hs2).
    - exists (Ok u'), k2. rewrite Hs2, Hs1, Hs, !alter_insert_eq. split_and!; [done|congruence|congruence|done].
    - exists (Err e), k2. rewrite Hs2, Hs1, Hs, alter_insert_eq, delete_insert_eq.
      split_and!; [done|congruence|congruence|done]. }
  rewrite E0 in E. destruct r0 as [u|e]; [|by simplify_eq].
  destruct (bind fd addr k0) as [[u1|e] k1] eqn:E1; apply bind_effect in E1 as (Ho1 & Hi1 & Hs1).
  2: { simplify_eq. rewrite Hs1, Hs0, delete_insert_eq. split_and!; [congruence|congruence|done]. }
  apply listen_effect in E as (Ho2 & Hi2 & Hs2). split_and!; [congruence|congruence|].
  destruct r; rewrite Hs2, Hs1, Hs0, !alter_insert_eq; [done|]. by rewrite delete_insert_eq.
Qed.

Lemma bind_listener_spec addr reuse k r k' :
  bind_listener addr reuse k = (r, k') ->
  match r with
  | Ok fd => (fd ∉ opened k) /\ opened k' = {[fd]} ∪ opened k /\
      sockets k' = <[fd := listener_socket addr reuse]> (sockets k) /\ interests k' = interests k
  | Err _ => opened k' = opened k /\ sockets k' = sockets k /\
      forall ep, ep ∈ opened k -> interests k' ep ⊆ interests k ep /\
        forall fd, fd ∈ opened k -> interests k' ep !! fd = interests k ep !! fd
  end.
Proof using Type.
  unfold bind_listener. intros E.
  destruct (socket_new (for_address addr) k) as [[fd|e] k0] eqn:E0; apply socket_new_effect in E0 as [E0 Hi0];
    cbn [and_then] in E; [|simplify_eq; destruct E0; split_and!; try done; intros; by rewrite Hi0].
  destruct E0 as (Hnew & Hnone & Ho & Hs).
  destruct (configure fd addr reuse k0) as [rc kc] eqn:Ec.
  destruct (configure_spec _ _ _ _ _ _ _ Hs Ec) as (Hoc & Hic & Hsc).
  destruct rc as [u|e]; simplify_eq.
  - split_and!; [done|congruence|done|congruence].
  - destruct (close_effect fd kc) as (Hco & Hci & _).
    rewrite close_socket, Hsc, delete_id, Hco, Hoc, Ho by done. split_and!; [set_solver|done|].
    intros ep Hep. rewrite Hci, Hic, Hi0 by (intros ->; done). split; [apply delete_subseteq|].
    intros fd' Hfd'. apply lookup_delete_ne. by intros ->.
Qed.

Lemma set_accept_timeout_spec fd t k r k' :
  set_accept_timeout fd t k = (r, k') ->
  opened k' = opened k /\
  sockets k' =
    match r with
    | Ok _ => alter (with_rcvtimeo (Z.of_N (as_secs t)) (Z.of_N (subsec_micros t))) fd (sockets k)
    | Err _ => sockets k
    end.
Proof using Type.
  unfold set_accept_timeout, syscall, cvt. intros E.
  destruct (k_set_rcvtimeo _ _ _ _) as [z k1] eqn:E1. apply rcvtimeo_effect in E1 as [Ho Hs].
  cbn [fst snd] in E. destruct (is_minus_one z); by simplify_eq.
Qed.
End Props.

(** Error behaviour: [bind_listener] either gives a new socket that listens on
    the address with a backlog of 1024, with both reuse options set exactly
    when asked, or it fails and leaves neither a descriptor nor a socket
    behind, whichever of its calls failed. *)
Theorem bind_listener_exact {K} `{SocketLaws K} addr reuse k r k' (Hb : bind_listener addr reuse k = (r, k')) :
  match r with
  | Ok fd => (fd ∉ opened k) /\ opened k' = {[fd]} ∪ opened k /\
      sockets k' = <[fd := mkSock (for_address addr) reuse reuse (Some addr) (Some 1024%Z) None]> (sockets k)
  | Err _ => opened k' = opened k /\ sockets k' = sockets k
  end.
Proof. apply bind_listener_spec in Hb. destruct r; naive_solver. Qed.
