(* ===== verification/SysPoll.v ===== *)
(** * epoll and poll

    server/src/sys/epoll.rs and server/src/sys/poll.rs. *)

From S2P Require Import Prelude RustStr Http Syscall.

(** ** Event masks *)

Definition EPOLLIN : N := 0x001.
Definition EPOLLOUT : N := 0x004.
Definition EPOLLERR : N := 0x008.
Definition EPOLLHUP : N := 0x010.
Definition EPOLLET : N := 0x80000000.
Definition POLLIN : N := 0x001.
Definition POLLOUT : N := 0x004.
Definition POLLERR : N := 0x008.
Definition POLLHUP : N := 0x010.
Definition POLLNVAL : N := 0x020.

Inductive Interest := Read | Write | ReadWrite.

#[global] Instance Interest_eq_dec : EqDecision Interest.
Proof. solve_decision. Defined.

Inductive Trigger := Level | Edge.

Definition events_mask (interest : Interest) (trigger : Trigger) : N :=
  let mask := match interest with
              | Read => EPOLLIN
              | Write => EPOLLOUT
              | ReadWrite => N.lor EPOLLIN EPOLLOUT
              end in
  match trigger with
  | Edge => N.lor mask EPOLLET
  | Level => mask
  end.

(** A descriptor in the [u64] user data and back ([as] conversions between
    [i32] and [u64]). *)
Definition fd_as_u64 (fd : Z) : N := Z.to_N (fd mod 2 ^ 64)%Z.
Definition u64_as_fd (u : N) : Z :=
  let w := (Z.of_N u mod 2 ^ 32)%Z in if (w <? 2 ^ 31)%Z then w else (w - 2 ^ 32)%Z.

(** ** epoll *)

Record Event := mkEvent { ev_fd : Z; readable : bool; writable : bool; hup : bool; error : bool }.

(** [flags & bit != 0] *)
Definition has_flag (flags bit : N) : bool := negb (N.land flags bit =? 0)%N.

Definition decode_event (ev : N * N) : Event :=
  let '(flags, u64) := ev in
  mkEvent (u64_as_fd u64) (has_flag flags EPOLLIN) (has_flag flags EPOLLOUT)
    (has_flag flags EPOLLHUP) (has_flag flags EPOLLERR).

Section Epoll.
Context {K : Type} `{Kernel K}.

(** The epoll descriptor is the whole of [struct Epoll]. *)
Definition Epoll_new (k : K) : result Z IoError * K := syscall (k_epoll_create1 k).

Definition ok_unit (r : result Z IoError * K) : result unit IoError * K :=
  match r with
  | (Ok _, k) => (Ok tt, k)
  | (Err e, k) => (Err e, k)
  end.

Definition ctl (epoll : Z) (op : EpollOp) (fd : Z) (interest : Interest) (trigger : Trigger) (k : K)
    : result unit IoError * K :=
  let event := (events_mask interest trigger, fd_as_u64 fd) in
  ok_unit (syscall (k_epoll_ctl epoll op fd event k)).

Definition Epoll_add (epoll fd : Z) (interest : Interest) (trigger : Trigger) (k : K) :=
  ctl epoll EPOLL_CTL_ADD fd interest trigger k.

Definition Epoll_modify (epoll fd : Z) (interest : Interest) (trigger : Trigger) (k : K) :=
  ctl epoll EPOLL_CTL_MOD fd interest trigger k.

Definition Epoll_delete (epoll fd : Z) (k : K) : result unit IoError * K :=
  ok_unit (syscall (k_epoll_ctl epoll EPOLL_CTL_DEL fd (0, 0)%N k)).

(** On success [events] is cleared and refilled; on error it is kept, which no
    caller looks at. *)
Definition Epoll_wait (epoll : Z) (capacity : nat) (timeout : option N) (k : K)
    : result (list Event) IoError * K :=
  let capacity := Nat.max capacity 1 in
  let timeout_ms := timeout_to_millis timeout in
  let '(n, raw, k) := k_epoll_wait epoll capacity timeout_ms k in
  match cvt n k with
  | Ok n => (Ok (decode_event <$> take (Z.to_nat n) raw), k)
  | Err e => (Err e, k)
  end.
End Epoll.

(** ** poll *)

Record PollFd := mkPollFd { pfd : Z; events : N; revents : N }.

Definition PollFd_new (fd : Z) (interest : Interest) : PollFd :=
  let events := match interest with
                | Read => POLLIN
                | Write => POLLOUT
                | ReadWrite => N.lor POLLIN POLLOUT
                end in
  mkPollFd fd events 0.

Definition PollFd_readable (p : PollFd) : bool := has_flag p.(revents) POLLIN.
Definition PollFd_writable (p : PollFd) : bool := has_flag p.(revents) POLLOUT.
Definition PollFd_hup (p : PollFd) : bool := has_flag p.(revents) POLLHUP.
Definition PollFd_error (p : PollFd) : bool := has_flag p.(revents) (N.lor POLLERR POLLNVAL).

(** The kernel writes [revents] in place: entry [i] gets the [i]th. *)
Fixpoint set_revents (fds : list PollFd) (revs : list N) : list PollFd :=
  match fds, revs with
  | p :: fds, r :: revs => mkPollFd p.(pfd) p.(events) r :: set_revents fds revs
  | fds, [] => fds
  | [], _ => []
  end.

Definition poll {K} `{Kernel K} (fds : list PollFd) (timeout : option N) (k : K)
    : result nat IoError * list PollFd * K :=
  let '(n, revs, k) :=
    k_poll ((fun p => (p.(pfd), p.(events))) <$> fds) (timeout_to_millis timeout) k in
  match cvt n k with
  | Ok n => (Ok (Z.to_nat n), set_revents fds revs, k)
  | Err e => (Err e, fds, k)
  end.

(** ** Facts *)

Lemma set_revents_length fds revs : length (set_revents fds revs) = length fds.
Proof. revert revs. induction fds as [|p fds IH]; intros [|r revs]; simpl; auto. Qed.

Section Effects.
Context {K : Type} `{KernelLaws K}.

(** The registrations of an epoll instance after a control call. *)
Lemma ctl_spec ep op fd i t (k : K) r k' :
  op <> EPOLL_CTL_DEL -> ctl ep op fd i t k = (r, k') ->
  opened k' = opened k /\ budget k' <= budget k /\
  (forall ep', ep' <> ep -> interests k' ep' = interests k ep') /\
  interests k' ep = (match r with
                     | Ok _ => <[fd := (events_mask i t, fd_as_u64 fd)]> (interests k ep)
                     | Err _ => interests k ep
                     end).
Proof.
  unfold ctl, ok_unit, syscall, cvt. intros Hop E.
  destruct (k_epoll_ctl ep op fd _ k) as [r1 k1] eqn:E1.
  apply ctl_effect in E1 as (Ho & Hb & Hother & Hi). simpl in E.
  destruct (is_minus_one r1); simplify_eq; destruct op; done.
Qed.

Lemma Epoll_delete_spec ep fd (k : K) r k' :
  Epoll_delete ep fd k = (r, k') ->
  opened k' = opened k /\ budget k' <= budget k /\
  (forall ep', ep' <> ep -> interests k' ep' = interests k ep') /\
  interests k' ep = delete fd (interests k ep).
Proof.
  unfold Epoll_delete, ok_unit, syscall, cvt. intros E.
  destruct (k_epoll_ctl ep EPOLL_CTL_DEL fd _ k) as [r1 k1] eqn:E1.
  apply ctl_effect in E1 as (Ho & Hb & Hother & Hi). simpl in E.
  by destruct (is_minus_one r1); simplify_eq.
Qed.

Lemma Epoll_wait_frame ep cap t (k : K) r k' :
  Epoll_wait ep cap t k = (r, k') -> opened k' = opened k /\ interests k' = interests k.
Proof.
  unfold Epoll_wait, cvt. intros E.
  destruct (k_epoll_wait ep _ _ k) as [[n raw] k1] eqn:E1. apply epoll_wait_frame in E1 as [Ho Hi].
  by destruct (is_minus_one n); simplify_eq.
Qed.
End Effects.

Lemma fd_as_u64_roundtrip fd : (- 2 ^ 31 <= fd < 2 ^ 31)%Z -> u64_as_fd (fd_as_u64 fd) = fd.
Proof.
  intros Hfd. unfold u64_as_fd, fd_as_u64. rewrite Z2N.id by (apply Z.mod_pos_bound; lia).
  assert ((fd mod 2 ^ 64) mod 2 ^ 32 = fd mod 2 ^ 32)%Z as ->.
  { apply Z.mod_mod_divide. by exists (2 ^ 32)%Z. }
  destruct (Z.ltb_spec fd 0).
  - assert (fd mod 2 ^ 32 = fd + 2 ^ 32)%Z as -> by (symmetry; apply (Z.mod_unique _ _ (-1)); lia).
    rewrite (proj2 (Z.ltb_ge _ _)); lia.
  - rewrite Z.mod_small by lia. rewrite (proj2 (Z.ltb_lt _ _)); lia.
Qed.
