(* ===== verification/ConnTable.v ===== *)
(** * The connection table

    server/src/sys/conn_table.rs.  A [TcpStream] is the descriptor it owns:
    dropping it closes the descriptor. *)

From S2P Require Import Prelude RustStr Http Conn Syscall.

Record Slot := mkSlot { stream : Z; conn : Connection }.

Record ConnTable := mkTable { slots : gmap Z Slot }.

Definition ConnTable_new : ConnTable := mkTable ∅.

Section Table.
Context {K : Type} `{Kernel K} `{HashOrder}.

(** Inserting drops the slot that was there. *)
Definition ConnTable_insert (t : ConnTable) (stream : Z) (conn : Connection) (k : K)
    : Z * ConnTable * K :=
  let fd := stream in
  let k := match t.(slots) !! fd with
           | Some old => k_close old.(ConnTable.stream) k
           | None => k
           end in
  (fd, mkTable (<[fd := mkSlot stream conn]> t.(slots)), k).

Definition ConnTable_get (t : ConnTable) (fd : Z) : option Slot := t.(slots) !! fd.

(** Writing through the reference [get_mut] gives. *)
Definition ConnTable_put (t : ConnTable) (fd : Z) (s : Slot) : ConnTable :=
  mkTable (<[fd := s]> t.(slots)).

Definition ConnTable_remove (t : ConnTable) (fd : Z) (k : K) : ConnTable * K :=
  (mkTable (delete fd t.(slots)),
   match t.(slots) !! fd with
   | Some old => k_close old.(stream) k
   | None => k
   end).

Definition ConnTable_len (t : ConnTable) : nat := size t.(slots).

(** The descriptor comes from the stream, not from the key. *)
Definition ConnTable_iter (t : ConnTable) : list (Z * Connection) :=
  (fun '(_, s) => (s.(stream), s.(conn))) <$> hash_iter t.(slots).

(** The descriptors a timeout scan collects. *)
Definition expired_fds (t : ConnTable) (time : N) : list Z :=
  (List.filter (fun '(_, c) => is_expired c time) (ConnTable_iter t)).*1.

Lemma elem_of_expired_fds t time fd :
  map_Forall (fun fd s => s.(stream) = fd) t.(slots) ->
  fd ∈ expired_fds t time <->
  exists s, t.(slots) !! fd = Some s /\ is_expired s.(conn) time = true.
Proof.
  intros Hk. unfold expired_fds, ConnTable_iter. rewrite list_elem_of_fmap. split.
  - intros ([fd' c] & -> & Hin). apply list_elem_of_In, filter_In in Hin as [Hin He].
    apply list_elem_of_In, list_elem_of_fmap in Hin as ([fd2 s] & E & Hin).
    rewrite hash_iter_perm in Hin. apply elem_of_map_to_list in Hin.
    pose proof (Hk _ _ Hin) as Hst. simplify_eq/=. by exists s.
  - intros (s & Hs & He). exists (fd, s.(conn)). split; [done|]. apply list_elem_of_In, filter_In.
    split; [|done]. apply list_elem_of_In, list_elem_of_fmap. exists (fd, s).
    rewrite (Hk _ _ Hs : s.(stream) = fd). split; [done|].
    rewrite hash_iter_perm. by apply elem_of_map_to_list.
Qed.
End Table.
