(* ===== verification/EventIo.v ===== *)
(** * Driving one connection's socket

    server/src/models/event_io.rs: the read/write routine the readiness models
    share. *)

From S2P Require Import Prelude RustStr Http Response Request RequestSpec RequestRefine App Conn ConnSpec Syscall.

(** The kernel and the shared application. *)
Record World (K H : Type) := mkWorld { kern : K; wapp : App H }.
Arguments mkWorld {K H} _ _.
Arguments kern {K H} _.
Arguments wapp {K H} _.

Section DriveIo.
Context {K H : Type} `{Kernel K} `{Handlers H}.

Definition set_kern (k : K) (w : World K H) : World K H := mkWorld k w.(wapp).
Definition w_inc_errors (w : World K H) : World K H := mkWorld w.(kern) (app_inc_errors w.(wapp)).
Definition w_inc_connections (w : World K H) : World K H :=
  mkWorld w.(kern) (app_inc_connections w.(wapp)).

(** The [loop]. *)
Fixpoint drive_loop (fuel : nat) (drain : bool) (fd : Z) (w : World K H) (c : Connection)
    (action : ConnAction) : outcome (World K H * Connection * ConnAction) :=
  match fuel with
  | 0 => Diverge
  | S fuel =>
    match action with
    | WantRead =>
      let '(r, k) := k_read fd READ_CHUNK w.(kern) in
      let w := set_kern k w in
      match r with
      | Ok [] => Ret (w, c, Close)
      | Ok bs =>
        '(c, action) ← on_bytes c bs w.(wapp);
        if negb drain then Ret (w, c, action) else drive_loop fuel drain fd w c action
      | Err e =>
        if decide (kind e = WouldBlock) then Ret (w, c, WantRead)
        else Ret (w_inc_errors w, c, Close)
      end
    | WantWrite =>
      pending ← pending_write c;
      match pending with
      | [] => Ret (w, c, WantRead)
      | _ =>
        let '(r, k) := k_write fd pending w.(kern) in
        let w := set_kern k w in
        match r with
        | Ok 0 => Ret (w, c, Close)
        | Ok n =>
          let '(c, action) := on_written (now k) c n in
          if decide (action = WantWrite) then Ret (w, c, action) else
          if negb drain then Ret (w, c, action) else drive_loop fuel drain fd w c action
        | Err e =>
          if decide (kind e = WouldBlock) then Ret (w, c, WantWrite)
          else Ret (w_inc_errors w, c, Close)
        end
      end
    | Close => Ret (w, c, Close)
    end
  end.

(** Every second round at least reads something: [budget] bounds the rounds. *)
Definition io_fuel (w : World K H) : nat := 2 * budget w.(kern) + 3.

Definition drive_io (drain : bool) (fd : Z) (w : World K H) (c : Connection)
    : outcome (World K H * Connection * ConnAction) :=
  pending ← pending_write c;
  let action := match pending with [] => WantRead | _ => WantWrite end in
  drive_loop (io_fuel w) drain fd w c action.

(** ** What it does *)

Inductive IO := Received (b : bytes) | Sent (b : bytes).

(** The exchanges with the socket between two kernel states. *)
Inductive performs (fd : Z) : K -> list IO -> K -> Prop :=
  | performs_nil k : performs fd k [] k
  | performs_read k b bs k1 l k2 :
    k_read fd READ_CHUNK k = (Ok (b :: bs), k1) -> performs fd k1 l k2 ->
    performs fd k (Received (b :: bs) :: l) k2
  | performs_write k p n k1 l k2 :
    k_write fd p k = (Ok (S n), k1) -> performs fd k1 l k2 ->
    performs fd k (Sent (take (S n) p) :: l) k2
  | performs_no_read k r k1 :
    k_read fd READ_CHUNK k = (r, k1) -> (forall b bs, r <> Ok (b :: bs)) -> performs fd k [] k1
  | performs_no_write k p r k1 :
    k_write fd p k = (r, k1) -> (forall n, r <> Ok (S n)) -> performs fd k [] k1.

(** The automaton over the same exchanges. *)
Inductive moves (app : App H) : AConn -> list IO -> AConn -> Prop :=
  | moves_nil a : moves app a [] a
  | moves_in s b l a' :
    moves app (a_bytes app (AReading s) b) l a' -> moves app (AReading s) (Received b :: l) a'
  | moves_out u next n l a' :
    moves app (a_written (AWriting u next) n) l a' ->
    moves app (AWriting u next) (Sent (take n u) :: l) a'.

(** A connection of a live socket. *)
Definition live (a : AConn) : Prop := a <> AClosed.

(** [app] with any counters. *)
Definition same_site (app app' : App H) : Prop :=
  app'.(router) = app.(router) /\ app'.(assets) = app.(assets).

Definition all_fit (app : App H) : Prop := forall app', same_site app app' -> fits app'.

(** Why [drive_io] stopped, under edge triggering: the socket has nothing more
    to give or to take. *)
Definition drained (fd : Z) (k : K) (act : ConnAction) : Prop :=
  match act with
  | WantRead => exists k1 e, k_read fd READ_CHUNK k1 = (Err e, k) /\ kind e = WouldBlock
  | WantWrite => exists k1 p r, k_write fd p k1 = (r, k) /\
      match r with
      | Ok n => 0 < n < length p
      | Err e => kind e = WouldBlock
      end
  | Close => True
  end.

(** The outcome of driving a connection. *)
Record driven `{!KernelLaws K} (drain : bool) (fd : Z) (w : World K H) (a : AConn)
    (w' : World K H) (c' : Connection) (act : ConnAction) : Prop := {
  dr_exchange : exists ios a', performs fd w.(kern) ios w'.(kern) /\ moves w.(wapp) a ios a' /\
    refines c' a' /\ (act <> Close -> act = a_action a');
  dr_frame : opened w'.(kern) = opened w.(kern) /\ interests w'.(kern) = interests w.(kern) /\
    budget w'.(kern) <= budget w.(kern);
  dr_site : same_site w.(wapp) w'.(wapp);
  dr_drained : drain = true -> drained fd w'.(kern) act;
}.

Lemma same_site_refl (app : App H) : same_site app app.
Proof. done. Qed.

Lemma same_site_trans (app1 app2 app3 : App H) :
  same_site app1 app2 -> same_site app2 app3 -> same_site app1 app3.
Proof. unfold same_site. intros [-> ->] [-> ->]. done. Qed.

Lemma all_fit_same app app' : all_fit app -> same_site app app' -> all_fit app'.
Proof. intros Hf Hs app'' Hs'. apply Hf. by eapply same_site_trans. Qed.

Context `{!KernelLaws K}.

(** Stopping without an exchange. *)
Lemma driven_stop drain fd w c a k app act :
  performs fd w.(kern) [] k -> refines c a -> (act <> Close -> act = a_action a) ->
  opened k = opened w.(kern) /\ interests k = interests w.(kern) /\ budget k <= budget w.(kern) ->
  same_site w.(wapp) app -> (drain = true -> drained fd k act) ->
  driven drain fd w a (mkWorld k app) c act.
Proof. intros. split; try done. exists [], a. split_and!; try done. constructor. Qed.

(** One exchange, then the rest. *)
Lemma driven_step drain fd w a io k1 a1 w' c' act :
  (forall l k2, performs fd k1 l k2 -> performs fd w.(kern) (io :: l) k2) ->
  (forall l a2, moves w.(wapp) a1 l a2 -> moves w.(wapp) a (io :: l) a2) ->
  opened k1 = opened w.(kern) /\ interests k1 = interests w.(kern) /\ budget k1 <= budget w.(kern) ->
  driven drain fd (set_kern k1 w) a1 w' c' act -> driven drain fd w a w' c' act.
Proof.
  intros Hp Hm (Ho & Hi & Hb) [(ios & a' & Hp' & Hm' & Hr & Ha) (Ho' & Hi' & Hb') Hs Hd].
  cbn in *. split; [|split_and!; [congruence..|lia]|done|done].
  exists (io :: ios), a'. split_and!; auto.
Qed.

(** The rounds that are enough. *)
Definition need (a : AConn) (b : nat) : nat :=
  match a with
  | AReading _ => 2 * b + 1
  | AWriting _ _ => 2 * b + 2
  | AClosed => 1
  end.

Lemma need_le a b : need a b <= 2 * b + 2.
Proof. destruct a; simpl; lia. Qed.

(** The loop from any state, with this fuel. *)
Definition drives (drain : bool) (fd : Z) (fuel : nat) : Prop := forall w c a,
  all_fit w.(wapp) -> refines c a -> need a (budget w.(kern)) <= fuel ->
  exists w' c' act, drive_loop fuel drain fd w c (a_action a) = Ret (w', c', act) /\
    driven drain fd w a w' c' act.

Lemma drive_read_spec fuel drain fd w c s :
  drives drain fd fuel -> all_fit w.(wapp) -> refines c (AReading s) ->
  need (AReading s) (budget w.(kern)) <= S fuel ->
  exists w' c' act, drive_loop (S fuel) drain fd w c WantRead = Ret (w', c', act) /\
    driven drain fd w (AReading s) w' c' act.
Proof.
  intros IH Hfit Hr Hn. cbn [drive_loop].
  destruct (k_read fd READ_CHUNK (kern w)) as [r k1] eqn:Er.
  pose proof (read_frame _ _ _ _ _ Er) as Hfr.
  destruct r as [[|b bs]|e].
  - eexists _, _, _. split; [done|]. eapply driven_stop; try done.
    by eapply performs_no_read.
  - pose proof (read_budget _ _ _ _ _ _ Er) as Hbud.
    destruct (on_bytes_refines w.(wapp) (Hfit _ (same_site_refl _)) c _ (b :: bs) Hr)
      as (c1 & Hon & Hr1 & _).
    cbn [set_kern wapp]. rewrite Hon. cbn [mbind outcome_bind].
    assert (forall w' c' act, driven drain fd (set_kern k1 w) (a_bytes w.(wapp) (AReading s) (b :: bs)) w' c' act ->
      driven drain fd w (AReading s) w' c' act) as Hstep.
    { intros w' c' act. apply (driven_step _ _ _ _ (Received (b :: bs))).
      - intros l k2. by apply performs_read.
      - intros l a2. apply moves_in.
      - done. }
    destruct drain; cbn [negb].
    + destruct (IH (set_kern k1 w) c1 _ Hfit Hr1) as (w' & c' & act & -> & Hd); [|eauto 6].
      pose proof (need_le (a_bytes (wapp w) (AReading s) (b :: bs)) (budget k1)).
      simpl in *. lia.
    + eexists _, _, _. split; [done|]. apply Hstep. by eapply driven_stop; try done; constructor.
  - case_decide as Hk; eexists _, _, _; (split; [done|]); eapply driven_stop; try done;
      try (by eapply performs_no_read). intros _. by exists (kern w), e.
Qed.

Lemma drive_write_spec fuel drain fd w c u next :
  drives drain fd fuel -> all_fit w.(wapp) -> refines c (AWriting u next) ->
  need (AWriting u next) (budget w.(kern)) <= S fuel ->
  exists w' c' act, drive_loop (S fuel) drain fd w c WantWrite = Ret (w', c', act) /\
    driven drain fd w (AWriting u next) w' c' act.
Proof.
  intros IH Hfit Hr Hn. cbn [drive_loop].
  rewrite (pending_write_refines _ _ Hr). cbn [mbind outcome_bind].
  destruct u as [|u0 us] eqn:Eu; [by eapply refines_unsent in Hr|]. rewrite <-Eu in *.
  destruct (k_write fd u (kern w)) as [r k1] eqn:Ew.
  pose proof (write_frame _ _ _ _ _ Ew) as Hfr.
  destruct r as [[|n]|e].
  - eexists _, _, _. split; [done|]. eapply driven_stop; try done.
    by eapply performs_no_write.
  - destruct (on_written_refines (now k1) c _ (S n) Hr) as (c1 & -> & Hr1 & _).
    assert (forall w' c' act, driven drain fd (set_kern k1 w) (a_written (AWriting u next) (S n)) w' c' act ->
      driven drain fd w (AWriting u next) w' c' act) as Hstep.
    { intros w' c' act. apply (driven_step _ _ _ _ (Sent (take (S n) u))).
      - intros l k2. by apply performs_write.
      - intros l a2. apply moves_out.
      - done. }
    case_decide as Hw.
    + eexists _, _, _. split; [done|]. apply Hstep. eapply driven_stop; try done; [constructor|].
      intros _. rewrite Hw. exists (kern w), u, (Ok (S n)). split; [done|].
      cbn [a_written] in Hw. destruct (Nat.ltb_spec (S n) (length u)); [lia|by destruct next].
    + destruct drain; cbn [negb].
      * destruct (IH (set_kern k1 w) c1 _ Hfit Hr1) as (w' & c' & act & -> & Hd); [|eauto 6].
         cbn [a_written] in Hw |- *. destruct (S n <? length u); [done|].
         destruct next; simpl in *; lia.
      * eexists _, _, _. split; [done|]. apply Hstep. by eapply driven_stop; try done; constructor.
  - case_decide as Hk; eexists _, _, _; (split; [done|]); eapply driven_stop; try done;
      try (by eapply performs_no_write). intros _. by exists (kern w), u, (Err e).
Qed.

Lemma drive_loop_spec fuel drain fd : drives drain fd fuel.
Proof.
  induction fuel as [|fuel IH]; intros w c a Hfit Hr Hn; [destruct a; simpl in Hn; lia|].
  destruct a as [s|u next|]; [by apply drive_read_spec|by apply drive_write_spec|].
  eexists _, _, _. split; [done|]. destruct w. by eapply driven_stop; try done; constructor.
Qed.

Lemma drive_io_spec drain fd w c a :
  all_fit w.(wapp) -> refines c a -> live a ->
  exists w' c' act, drive_io drain fd w c = Ret (w', c', act) /\ driven drain fd w a w' c' act.
Proof.
  intros Hfit Hr Hl. unfold drive_io. rewrite (pending_write_refines _ _ Hr).
  cbn [mbind outcome_bind].
  assert (match (match a with AWriting u _ => u | _ => [] end) with [] => WantRead | _ => WantWrite end
          = a_action a) as ->.
  { destruct a as [s|u next|]; [done| |done]. apply refines_unsent in Hr. by destruct u. }
  apply drive_loop_spec; [done..|]. unfold io_fuel. pose proof (need_le a (budget (kern w))). lia.
Qed.
End DriveIo.
