(* ===== verification/Epoll.v ===== *)
(** * The epoll event loops

    server/src/models/epoll.rs: [run_epoll], shared by [epoll-lt] (level
    triggered, no drain) and [epoll-et] (edge triggered, drain).  The listener
    is bound by the caller ([bind_listener] is socket2's); diagnostics on
    stderr are left out. *)

From S2P Require Import Prelude RustStr Http Response Request App Conn ConnSpec Syscall Socket SysPoll ConnTable EventIo.

Definition TICK : N := millis 100.
Definition MAX_EVENTS : nat := N.to_nat 1024.

(** The state the loop keeps: the world, the table, the registered interests. *)
Record Loop (K H : Type) := mkLoop {
  world : World K H;
  conns : ConnTable;
  wants : gmap Z Interest;
}.
Arguments mkLoop {K H} _ _ _.
Arguments world {K H} _.
Arguments conns {K H} _.
Arguments wants {K H} _.

Definition matches_interest (a : option Interest) (b : Interest) : bool :=
  match a, b with
  | Some Read, Read => true
  | Some Write, Write => true
  | Some ReadWrite, ReadWrite => true
  | _, _ => false
  end.

Section Epoll.
Context {K H : Type} `{Kernel K} `{HashOrder} `{Handlers H}.

Definition kernel (st : Loop K H) : K := st.(world).(kern).
Definition set_kernel (k : K) (st : Loop K H) : Loop K H :=
  mkLoop (set_kern k st.(world)) st.(conns) st.(wants).

(** [conns.len() >= cfg.max_connections] *)
Definition at_cap (cfg : ServerConfig) (t : ConnTable) : bool :=
  (cfg.(max_connections) <=? N.of_nat (ConnTable_len t))%N.

(** [AcceptCtx] and the other parameters [run_epoll] passes on. *)
Record AcceptCtx := mkCtx {
  epoll : Z;
  listener_fd : Z;
  cfg : ServerConfig;
  trigger : Trigger;
  drain : bool;
}.

Section Handlers_.
Context (ctx : AcceptCtx).

Definition drop_conn (fd : Z) (st : Loop K H) : Loop K H :=
  let k := (Epoll_delete ctx.(epoll) fd (kernel st)).2 in
  let wants := delete fd st.(wants) in
  let '(conns, k) := ConnTable_remove st.(conns) fd k in
  mkLoop (set_kern k st.(world)) conns wants.

(** The [loop] of [accept_ready]; a round that goes on has accepted. *)
Fixpoint accept_loop (fuel : nat) (st : Loop K H) : outcome (Loop K H) :=
  match fuel with
  | 0 => Diverge
  | S fuel =>
    let again st := if negb ctx.(drain) then Ret st else accept_loop fuel st in
    if at_cap ctx.(cfg) st.(conns) then Ret st else
    let '(r, k) := accept_nonblocking ctx.(listener_fd) (kernel st) in
    match r with
    | Ok (Some (fd, _)) =>
      let '(r, k) := set_nonblocking fd k in
      match r with
      | Err _ => again (set_kernel (k_close fd k) st)
      | Ok _ =>
        let conn := Connection_new (now k) ctx.(cfg).(read_timeout) in
        let '(fd, conns, k) := ConnTable_insert st.(conns) fd conn k in
        let '(r, k) := Epoll_add ctx.(epoll) fd Read ctx.(trigger) k in
        match r with
        | Err _ =>
          let '(conns, k) := ConnTable_remove conns fd k in
          again (mkLoop (set_kern k st.(world)) conns st.(wants))
        | Ok _ =>
          let wants := <[fd := Read]> st.(wants) in
          let w := w_inc_connections (set_kern k st.(world)) in
          again (mkLoop w conns wants)
        end
      end
    | Ok None => Ret (set_kernel k st)
    | Err _ => Ret (set_kernel k st)
    end
  end.

Definition accept_ready (st : Loop K H) : outcome (Loop K H) :=
  accept_loop (S (budget (kernel st))) st.

Definition drive (fd : Z) (st : Loop K H) : outcome (Loop K H) :=
  match ConnTable_get st.(conns) fd with
  | None => Ret st
  | Some slot =>
    '(w, c, action) ← drive_io ctx.(drain) slot.(stream) st.(world) slot.(conn);
    let st := mkLoop w (ConnTable_put st.(conns) fd (mkSlot slot.(stream) c)) st.(wants) in
    let apply next :=
      let current := st.(wants) !! fd in
      if negb (matches_interest current next) then
        let '(r, k) := Epoll_modify ctx.(epoll) fd next ctx.(trigger) (kernel st) in
        match r with
        | Err _ => drop_conn fd (set_kernel k st)
        | Ok _ => mkLoop (set_kern k st.(world)) st.(conns) (<[fd := next]> st.(wants))
        end
      else st in
    match action with
    | WantRead => Ret (apply Read)
    | WantWrite => Ret (apply Write)
    | Close => Ret (drop_conn fd st)
    end
  end.

(** The body of the [for] over the ready descriptors. *)
Definition on_event (ev : Event) (st : Loop K H) : outcome (Loop K H) :=
  if decide (ev.(ev_fd) = ctx.(listener_fd)) then
    if ev.(readable) then accept_ready st else Ret st
  else if ev.(error) || ev.(hup) then Ret (drop_conn ev.(ev_fd) st)
  else if ev.(readable) || ev.(writable) then drive ev.(ev_fd) st
  else Ret st.

Fixpoint on_events (evs : list Event) (st : Loop K H) : outcome (Loop K H) :=
  match evs with
  | [] => Ret st
  | ev :: evs => st ← on_event ev st; on_events evs st
  end.

(** Shedding: the listener leaves epoll at the cap and comes back below it. *)
Definition apply_backpressure (st : Loop K H) (listener_registered : bool) : Loop K H * bool :=
  if listener_registered && at_cap ctx.(cfg) st.(conns) then
    (set_kernel (Epoll_delete ctx.(epoll) ctx.(listener_fd) (kernel st)).2 st, false)
  else if negb listener_registered && negb (at_cap ctx.(cfg) st.(conns)) then
    let '(r, k) := Epoll_add ctx.(epoll) ctx.(listener_fd) Read ctx.(trigger) (kernel st) in
    (set_kernel k st, match r with Ok _ => true | Err _ => false end)
  else (st, listener_registered).

Definition sweep_expired (st : Loop K H) : Loop K H :=
  let t := now (kernel st) in
  let expired := (List.filter (fun '(_, c) => is_expired c t) (ConnTable_iter st.(conns))).*1 in
  foldl (fun st fd => drop_conn fd st) st expired.

(** One round of the [while]. *)
Definition iteration (st : Loop K H) (registered : bool) : outcome (Loop K H * bool) :=
  let '(r, k) := Epoll_wait ctx.(epoll) MAX_EVENTS (Some TICK) (kernel st) in
  let st := set_kernel k st in
  match r with
  | Err _ => Ret (st, registered)
  | Ok evs =>
    st ← on_events evs st;
    let '(st, registered) := apply_backpressure st registered in
    Ret (sweep_expired st, registered)
  end.

(** At most [n] rounds of the [while !SHUTDOWN]. *)
Fixpoint iterations (n : nat) (st : Loop K H) (registered : bool) : outcome (Loop K H * bool) :=
  match n with
  | 0 => Ret (st, registered)
  | S n =>
    if shutdown (kernel st) then Ret (st, registered) else
    '(st, registered) ← iteration st registered;
    iterations n st registered
  end.
End Handlers_.

(** From the bound listener to the loop: the context and the first state.  On
    an error the descriptors go with their owners. *)
Definition epoll_setup (cfg : ServerConfig) (trigger : Trigger) (drain : bool) (listener_fd : Z)
    (w : World K H) : result (AcceptCtx * Loop K H) IoError * World K H :=
  match set_nonblocking listener_fd w.(kern) with
  | (Err e, k) => (Err e, set_kern (k_close listener_fd k) w)
  | (Ok _, k) =>
    match Epoll_new k with
    | (Err e, k) => (Err e, set_kern (k_close listener_fd k) w)
    | (Ok epoll, k) =>
      match Epoll_add epoll listener_fd Read trigger k with
      | (Err e, k) => (Err e, set_kern (k_close listener_fd (k_close epoll k)) w)
      | (Ok _, k) =>
        (Ok (mkCtx epoll listener_fd cfg trigger drain,
             mkLoop (set_kern k w) ConnTable_new ∅), set_kern k w)
      end
    end
  end.

(** [run_epoll] for [n] rounds.  [EpollLt] fixes [Level] and no drain, [EpollEt]
    fixes [Edge] and drain. *)
Definition run_epoll (n : nat) (trigger : Trigger) (drain : bool) (cfg : ServerConfig)
    (listener_fd : Z) (w : World K H) : outcome (result (Loop K H * bool) IoError) :=
  match epoll_setup cfg trigger drain listener_fd w with
  | (Err e, _) => Ret (Err e)
  | (Ok (ctx, st), _) => r ← iterations ctx n st true; Ret (Ok r)
  end.

Definition EpollLt_serve n cfg listener_fd w := run_epoll n Level false cfg listener_fd w.
Definition EpollEt_serve n cfg listener_fd w := run_epoll n Edge true cfg listener_fd w.
End Epoll.
