(* ===== verification/EpollInv.v ===== *)
(** * The invariant of the epoll loops

    The three tables a loop keeps (connections, interests, and the kernel's
    registrations) agree, no descriptor leaks, and the cap holds, through
    every operation. *)

From S2P Require Import Prelude RustStr Http Response Request RequestSpec RequestRefine App Conn ConnSpec Syscall Socket SysPoll ConnTable EventIo Epoll.

(** The direction of a connection, as the interest to register. *)
Definition direction (a : AConn) : Interest :=
  match a with
  | AWriting _ _ => Write
  | _ => Read
  end.

Definition entry (t : Trigger) (fd : Z) (i : Interest) : N * N := (events_mask i t, fd_as_u64 fd).

Section Inv.
Context {K H : Type} `{KernelLaws K} `{HashOrder} `{Handlers H}.
Context (ctx : AcceptCtx) (base : gset Z).

(** A slot is keyed by its descriptor, holds a live connection, and the
    registered interest is the connection's direction. *)
Definition slot_ok (wants : gmap Z Interest) (fd : Z) (s : Slot) : Prop :=
  s.(stream) = fd /\ exists a, refines s.(conn) a /\ live a /\ wants !! fd = Some (direction a).

(** [base]: the descriptors that are not connections. *)
Record inv (registered : bool) (st : Loop K H) : Prop := {
  inv_wants : dom st.(wants) = dom st.(conns).(slots);
  inv_slots : map_Forall (slot_ok st.(wants)) st.(conns).(slots);
  inv_opened : opened (kernel st) = base ∪ dom st.(conns).(slots);
  inv_base : base ## dom st.(conns).(slots);
  inv_listener : ctx.(listener_fd) ∈ base;
  inv_instance : ctx.(epoll) ∈ base;
  inv_epoll : forall fd, interests (kernel st) ctx.(epoll) !! fd =
    if decide (fd = ctx.(listener_fd))
    then (if registered then Some (entry ctx.(trigger) fd Read) else None)
    else entry ctx.(trigger) fd <$> st.(wants) !! fd;
  inv_cap : (N.of_nat (ConnTable_len st.(conns)) <= ctx.(cfg).(max_connections))%N;
  inv_fit : all_fit st.(world).(wapp);
}.

(** What a step leaves alone of the other epoll instances of the process: it
    removes what it closes, which is no descriptor of [base], and no more. *)
Definition foreign (k k' : K) : Prop :=
  forall ep, ep ∈ base -> ep <> ctx.(epoll) ->
    interests k' ep ⊆ interests k ep /\
    forall fd, fd ∈ base -> interests k' ep !! fd = interests k ep !! fd.

Lemma foreign_same k k' :
  (forall ep, ep <> ctx.(epoll) -> interests k' ep = interests k ep) -> foreign k k'.
Proof. intros Hs ep _ Hne. by rewrite Hs. Qed.

Lemma foreign_trans k1 k2 k3 : foreign k1 k2 -> foreign k2 k3 -> foreign k1 k3.
Proof.
  intros H12 H23 ep Hep Hne. destruct (H12 ep Hep Hne) as [Hs1 Hf1].
  destruct (H23 ep Hep Hne) as [Hs2 Hf2]. split; [by transitivity (interests k2 ep)|].
  intros fd Hfd. by rewrite Hf2, Hf1.
Qed.

Lemma foreign_close fd k : fd ∉ base -> foreign k (k_close fd k).
Proof.
  intros Hfd ep Hep Hne. destruct (close_effect fd k) as (_ & Hi & _).
  rewrite Hi by (intros ->; done). split; [apply delete_subseteq|].
  intros fd' Hfd'. apply lookup_delete_ne. by intros ->.
Qed.

(** What every step of an iteration keeps besides the invariant. *)
Definition step_ok (registered : bool) (st st' : Loop K H) : Prop :=
  inv registered st' /\ budget (kernel st') <= budget (kernel st) /\
  same_site st.(world).(wapp) st'.(world).(wapp) /\ foreign (kernel st) (kernel st').

Lemma step_ok_refl r st : inv r st -> step_ok r st st.
Proof. intros Hi. split_and!; [done..|by apply foreign_same]. Qed.

Lemma step_ok_trans r st1 st2 st3 : step_ok r st1 st2 -> step_ok r st2 st3 -> step_ok r st1 st3.
Proof.
  intros (_ & Hb & Hs & Hf) (Hi & Hb' & Hs' & Hf').
  split_and!; [done|lia|by eapply same_site_trans|by eapply foreign_trans].
Qed.

Lemma inv_not_listener r st fd s :
  inv r st -> st.(conns).(slots) !! fd = Some s -> fd <> ctx.(listener_fd).
Proof.
  intros Hi Hs ->. pose proof (inv_listener _ _ Hi). pose proof (inv_base _ _ Hi).
  apply elem_of_dom_2 in Hs. set_solver.
Qed.

(** Kernel steps that leave the descriptors and registrations alone. *)
Lemma inv_kernel r st k :
  inv r st -> opened k = opened (kernel st) ->
  interests k ctx.(epoll) = interests (kernel st) ctx.(epoll) -> inv r (set_kernel k st).
Proof.
  intros [] Ho Hi. split; cbn; try done; [by rewrite Ho|by rewrite Hi].
Qed.

(** Only connections and the listener are registered. *)
Lemma inv_unregistered r st fd :
  inv r st -> fd ∉ base -> fd ∉ dom st.(conns).(slots) ->
  interests (kernel st) ctx.(epoll) !! fd = None.
Proof.
  intros Hi Hb Hd. rewrite (inv_epoll _ _ Hi), decide_False
    by (intros ->; by apply Hb, (inv_listener _ _ Hi)).
  rewrite <-(inv_wants _ _ Hi) in Hd. apply not_elem_of_dom in Hd. by rewrite Hd.
Qed.

(** *** Dropping *)

Lemma drop_conn_slots fd (st : Loop K H) :
  (drop_conn ctx fd st).(conns).(slots) = delete fd st.(conns).(slots) /\
  (drop_conn ctx fd st).(wants) = delete fd st.(wants) /\
  (drop_conn ctx fd st).(world).(wapp) = st.(world).(wapp).
Proof. done. Qed.

Lemma size_delete_le {A} (m : gmap Z A) fd : size (delete fd m) <= size m.
Proof. rewrite map_size_delete. destruct (m !! fd); simpl; lia. Qed.

Lemma drop_conn_kernel r st fd :
  inv r st ->
  opened (kernel (drop_conn ctx fd st)) = base ∪ dom (delete fd st.(conns).(slots)) /\
  interests (kernel (drop_conn ctx fd st)) ctx.(epoll) =
    delete fd (interests (kernel st) ctx.(epoll)) /\
  budget (kernel (drop_conn ctx fd st)) <= budget (kernel st) /\
  foreign (kernel st) (kernel (drop_conn ctx fd st)).
Proof.
  intros Hi. unfold drop_conn, ConnTable_remove.
  destruct (Epoll_delete (epoll ctx) fd (kernel st)) as [re k1] eqn:E1.
  apply Epoll_delete_spec in E1 as (Ho & Hb & Hother & Hin). cbn [snd].
  apply foreign_same in Hother as Hfor.
  destruct (slots (conns st) !! fd) as [s|] eqn:Es; cbn.
  - destruct (inv_slots _ _ Hi fd s Es) as (Hs & _). rewrite Hs.
    destruct (close_effect fd k1) as (Hco & Hci & Hcb).
    pose proof (inv_base _ _ Hi). pose proof (inv_instance _ _ Hi). apply elem_of_dom_2 in Es.
    assert (ctx.(epoll) <> fd) as Hep by (intros <-; set_solver).
    rewrite Hco, Hci, Ho, Hin, delete_delete_eq, dom_delete_L, (inv_opened _ _ Hi) by done.
    split_and!; [set_solver|done|lia|]. eapply foreign_trans, foreign_close; [done|set_solver].
  - rewrite Ho, Hin, (inv_opened _ _ Hi), dom_delete_L. apply not_elem_of_dom in Es.
    split_and!; [set_solver|done|lia|done].
Qed.

Lemma drop_conn_inv r st fd :
  inv r st -> fd <> ctx.(listener_fd) -> step_ok r st (drop_conn ctx fd st).
Proof.
  intros Hi Hfd. destruct (drop_conn_kernel r st fd Hi) as (Ho & Hin & Hb & Hfor).
  split_and!; [|done..]. destruct (drop_conn_slots fd st) as (Hs & Hw & Ha).
  split; rewrite ?Hs, ?Hw, ?Ha; try apply Hi; try done.
  - rewrite !dom_delete_L. by rewrite (inv_wants _ _ Hi).
  - intros fd' s [Hne Hs']%lookup_delete_Some.
    destruct (inv_slots _ _ Hi fd' s Hs') as (? & a & ? & ? & Hwa).
    split; [done|]. exists a. split_and!; try done. by rewrite lookup_delete_ne.
  - rewrite dom_delete_L. pose proof (inv_base _ _ Hi). set_solver.
  - intros fd'. rewrite Hin. destruct (decide (fd' = fd)) as [->|Hne].
    + by rewrite !lookup_delete_eq, decide_False.
    + rewrite !lookup_delete_ne by done. apply Hi.
  - unfold ConnTable_len. rewrite Hs. pose proof (size_delete_le (slots (conns st)) fd).
    pose proof (inv_cap _ _ Hi). unfold ConnTable_len in *. lia.
Qed.

(** *** Accepting *)

(** The state after a descriptor was registered and entered in the tables. *)
Lemma register_inv r st fd k c t :
  inv r st -> fd ∉ base -> fd ∉ dom st.(conns).(slots) ->
  opened k = {[fd]} ∪ opened (kernel st) ->
  interests k ctx.(epoll) = <[fd := entry ctx.(trigger) fd Read]> (interests (kernel st) ctx.(epoll)) ->
  refines c (AReading []) -> at_cap ctx.(cfg) st.(conns) = false ->
  t = mkTable (<[fd := mkSlot fd c]> st.(conns).(slots)) ->
  inv r (mkLoop (w_inc_connections (set_kern k st.(world))) t (<[fd := Read]> st.(wants))).
Proof.
  intros Hi Hb Hd Ho Hin Hc Hcap ->. apply not_elem_of_dom in Hd as Hn.
  assert (fd <> ctx.(listener_fd)) as Hl by (intros ->; by apply Hb, (inv_listener _ _ Hi)).
  split; cbn [conns wants slots world wapp].
  - by rewrite !dom_insert_L, (inv_wants _ _ Hi).
  - apply map_Forall_insert_2.
    + split; [done|]. exists (AReading []). by rewrite lookup_insert_eq.
    + intros fd' s Hs. destruct (inv_slots _ _ Hi fd' s Hs) as (? & a & ? & ? & Hwa).
      split; [done|]. exists a. split_and!; try done. rewrite lookup_insert_ne by congruence. done.
  - cbn. rewrite Ho, dom_insert_L, (inv_opened _ _ Hi). set_solver.
  - rewrite dom_insert_L. pose proof (inv_base _ _ Hi). set_solver.
  - apply Hi.
  - apply Hi.
  - intros fd'. cbn. rewrite Hin. destruct (decide (fd' = fd)) as [->|Hne].
    + by rewrite !lookup_insert_eq, decide_False.
    + rewrite !lookup_insert_ne by done. apply Hi.
  - unfold at_cap, ConnTable_len in *. cbn. rewrite map_size_insert_None by done.
    apply N.leb_gt in Hcap. lia.
  - intros app' Hs. by apply (inv_fit _ _ Hi).
Qed.

(** A round of the accept loop goes on in [again] or stops. *)
(** Closing a descriptor just accepted leaves the loop as it was. *)
Lemma refuse_inv r st fd k :
  inv r st -> fd ∉ opened (kernel st) -> opened k = {[fd]} ∪ opened (kernel st) -> ctx.(epoll) <> fd ->
  delete fd (interests k ctx.(epoll)) = interests (kernel st) ctx.(epoll) ->
  inv r (set_kernel (k_close fd k) st).
Proof.
  intros Hi Hnew Ho Hep Hin. destruct (close_effect fd k) as (Hco & Hci & _).
  apply inv_kernel; [done| |by rewrite Hci]. rewrite Hco, Ho. set_solver.
Qed.

Lemma accept_loop_spec fuel r st :
  inv r st -> budget (kernel st) < fuel ->
  exists st', accept_loop ctx fuel st = Ret st' /\ step_ok r st st'.
Proof.
  revert st. induction fuel as [|fuel IH]; intros st Hi Hf; [lia|]. cbn [accept_loop].
  assert (forall st1, inv r st1 -> budget (kernel st1) < budget (kernel st) ->
    same_site st.(world).(wapp) st1.(world).(wapp) -> foreign (kernel st) (kernel st1) ->
    exists st', (if negb ctx.(drain) then Ret st1 else accept_loop ctx fuel st1) = Ret st' /\
      step_ok r st st') as Hagain.
  { intros st1 Hi1 Hb1 Hs1 Hf1. destruct (negb _).
    - exists st1. split; [done|]. split_and!; [done|lia|done..].
    - destruct (IH st1 Hi1) as (st' & -> & Hok); [lia|]. exists st'. split; [done|].
      apply (step_ok_trans _ _ st1); [|done]. split_and!; [done|lia|done..]. }
  destruct (at_cap _ _) eqn:Hcap. { exists st. split; [done|]. by apply step_ok_refl. }
  destruct (accept_nonblocking (listener_fd ctx) (kernel st)) as [ra k1] eqn:Ea.
  apply accept_nonblocking_effect in Ea as [Hin1 Ha].
  destruct ra as [[[fd addr]|]|e].
  2,3: destruct Ha as [Ho Hb]; eexists; (split; [done|]);
    split_and!; [apply inv_kernel; try done; by rewrite Hin1|done|done|];
    apply foreign_same; cbn; by rewrite Hin1.
  destruct Ha as (Hnew & Ho1 & Hb1).
  destruct (set_nonblocking fd k1) as [rs k2] eqn:Es.
  apply set_nonblocking_frame in Es as (Ho2 & Hin2 & Hb2).
  assert (fd ∉ base /\ fd ∉ dom st.(conns).(slots)) as [Hfb Hfd]
    by (rewrite (inv_opened _ _ Hi) in Hnew; set_solver).
  pose proof (inv_unregistered _ _ _ Hi Hfb Hfd) as Hnone.
  assert (ctx.(epoll) <> fd) as Hep by (intros <-; by apply Hfb, (inv_instance _ _ Hi)).
  assert (foreign (kernel st) k2) as Hf2 by (apply foreign_same; by rewrite Hin2, Hin1).
  destruct rs as [u|e].
  - unfold ConnTable_insert. apply not_elem_of_dom in Hfd as Hn. rewrite Hn.
    destruct (Epoll_add (epoll ctx) fd Read (trigger ctx) k2) as [re k3] eqn:Ee.
    apply ctl_spec in Ee as (Ho3 & Hb3 & Hother & Hin3); [|done].
    assert (foreign (kernel st) k3) as Hf3 by by eapply foreign_trans, foreign_same.
    destruct re as [v|e].
    + apply Hagain; [|cbn; lia|done|done]. eapply register_inv; try done; try apply refines_new.
      * by rewrite Ho3, Ho2, Ho1.
      * by rewrite Hin3, Hin2, Hin1.
    + unfold ConnTable_remove. cbn [slots]. rewrite lookup_insert_eq. cbn [stream].
      rewrite delete_insert_id by done. apply Hagain; [|cbn|done|by eapply foreign_trans, foreign_close].
      * destruct st as [w [t] wa]. apply (refuse_inv r (mkLoop w (mkTable t) wa)); [done|done|congruence|done|].
        rewrite Hin3, Hin2, Hin1. by apply delete_id.
      * destruct (close_effect fd k3) as (_ & _ & ?). lia.
  - destruct (close_effect fd k2) as (_ & _ & Hcb).
    apply Hagain; [|cbn; lia|done|by eapply foreign_trans, foreign_close].
    apply refuse_inv; [done|done|congruence|done|]. rewrite Hin2, Hin1. by apply delete_id.
Qed.

(** *** Driving *)

Lemma matches_interest_spec a b : matches_interest a b = bool_decide (a = Some b).
Proof. destruct a as [[]|], b; by vm_compute. Qed.

Lemma inv_world r st w :
  inv r st -> opened w.(kern) = opened (kernel st) ->
  interests w.(kern) ctx.(epoll) = interests (kernel st) ctx.(epoll) ->
  same_site st.(world).(wapp) w.(wapp) -> inv r (mkLoop w st.(conns) st.(wants)).
Proof.
  intros [] Ho Hi Hs. split; try done; [by rewrite <-Ho in *|by rewrite <-Hi in *|].
  by eapply all_fit_same.
Qed.

(** Writing a slot back before dropping it changes nothing. *)
Lemma drop_conn_put fd w t wants s c :
  t.(slots) !! fd = Some s ->
  drop_conn ctx fd (mkLoop (K:=K) (H:=H) w (ConnTable_put t fd (mkSlot s.(stream) c)) wants) =
  drop_conn ctx fd (mkLoop w t wants).
Proof.
  intros Hs. unfold drop_conn, ConnTable_remove, ConnTable_put. cbn.
  by rewrite lookup_insert_eq, Hs, delete_insert_eq.
Qed.

(** The state after a slot and its interest were updated. *)
Lemma update_inv r st fd s c a k :
  inv r st -> st.(conns).(slots) !! fd = Some s -> refines c a -> live a ->
  opened k = opened (kernel st) ->
  interests k ctx.(epoll) =
    <[fd := entry ctx.(trigger) fd (direction a)]> (interests (kernel st) ctx.(epoll)) ->
  inv r (mkLoop (set_kern k st.(world)) (ConnTable_put st.(conns) fd (mkSlot s.(stream) c))
    (<[fd := direction a]> st.(wants))).
Proof.
  intros Hi Hs Hr Hl Ho Hin. pose proof (inv_not_listener _ _ _ _ Hi Hs) as Hfd.
  destruct (inv_slots _ _ Hi fd s Hs) as (Hst & _). apply elem_of_dom_2 in Hs as Hd.
  assert ({[fd]} ∪ dom st.(conns).(slots) = dom st.(conns).(slots)) as Hdom by set_solver.
  split; cbn [conns wants slots world wapp ConnTable_put].
  - by rewrite !dom_insert_L, (inv_wants _ _ Hi).
  - intros fd' s' [[<- <-]|[Hne Hs']]%lookup_insert_Some.
    + split; [done|]. exists a. by rewrite lookup_insert_eq.
    + destruct (inv_slots _ _ Hi fd' s' Hs') as (? & a' & ? & ? & Hwa).
      split; [done|]. exists a'. split_and!; try done. by rewrite lookup_insert_ne.
  - cbn. by rewrite Ho, dom_insert_L, Hdom, (inv_opened _ _ Hi).
  - rewrite dom_insert_L, Hdom. apply Hi.
  - apply Hi.
  - apply Hi.
  - intros fd'. cbn. rewrite Hin. destruct (decide (fd' = fd)) as [->|Hne].
    + by rewrite !lookup_insert_eq, decide_False.
    + rewrite !lookup_insert_ne by done. apply Hi.
  - unfold ConnTable_len. cbn. rewrite map_size_insert_Some by done. apply Hi.
  - apply Hi.
Qed.

(** The connection is put back, and its registration changed if its direction
    has. *)
Lemma reregister_spec r st fd s c a :
  inv r st -> st.(conns).(slots) !! fd = Some s -> refines c a -> live a ->
  let st1 := mkLoop st.(world) (ConnTable_put st.(conns) fd (mkSlot s.(stream) c)) st.(wants) in
  step_ok r st (if negb (matches_interest (wants st1 !! fd) (direction a)) then
      let '(r, k) := Epoll_modify ctx.(epoll) fd (direction a) ctx.(trigger) (kernel st1) in
      match r with
      | Err _ => drop_conn ctx fd (set_kernel k st1)
      | Ok _ => mkLoop (set_kern k st1.(world)) st1.(conns) (<[fd := direction a]> st1.(wants))
      end
    else st1).
Proof.
  intros Hi Hs Hr Hl st1. pose proof (inv_not_listener _ _ _ _ Hi Hs) as Hfd.
  rewrite matches_interest_spec. cbn [wants st1].
  destruct (bool_decide_reflect (wants st !! fd = Some (direction a))) as [Hm|Hm]; cbn [negb].
  - split_and!; [|done|done|by apply foreign_same].
    pose proof (update_inv r _ fd s c a (kernel st) Hi Hs Hr Hl eq_refl) as Hu.
    pose proof (inv_epoll _ _ Hi fd) as He. rewrite decide_False in He by done.
    cbn [wants] in He, Hu. rewrite Hm in He. rewrite (insert_id (wants st)) in Hu by done.
    unfold st1. destruct st as [[k app] cs wa]. apply Hu. symmetry. by apply insert_id.
  - destruct (Epoll_modify (epoll ctx) fd (direction a) (trigger ctx) (kernel st1)) as [re k] eqn:Ee.
    apply ctl_spec in Ee as (Ho1 & Hb1 & Hother & Hin1); [|done].
    assert (foreign (kernel st) k) as Hfor by (apply foreign_same; intros ep' Hne; by rewrite Hother).
    destruct re as [u|e].
    + split_and!; [|unfold st1, kernel in *; cbn in *; lia|done|done].
      by apply (update_inv r _ fd s c a k Hi).
    + change (set_kernel k st1) with
        (mkLoop (set_kern k st.(world)) (ConnTable_put st.(conns) fd (mkSlot s.(stream) c)) st.(wants)).
      rewrite drop_conn_put by by destruct (inv_slots _ _ Hi fd s Hs).
      assert (inv r (set_kernel k st)) as Hik by by apply inv_kernel.
      apply (step_ok_trans _ _ (set_kernel k st)).
      * split_and!; [done|unfold st1, kernel in *; cbn in *; lia|done|done].
      * exact (drop_conn_inv _ _ fd Hik Hfd).
Qed.

Lemma drive_spec r st fd :
  inv r st -> exists st', drive ctx fd st = Ret st' /\ step_ok r st st'.
Proof.
  intros Hi. unfold drive, ConnTable_get.
  destruct (slots (conns st) !! fd) as [s|] eqn:Hs; [|exists st; by split; [|apply step_ok_refl]].
  pose proof (inv_not_listener _ _ _ _ Hi Hs) as Hfd.
  destruct (inv_slots _ _ Hi fd s Hs) as (Hst & a & Hr & Hl & Hwa).
  destruct (drive_io_spec ctx.(drain) s.(stream) st.(world) s.(conn) a (inv_fit _ _ Hi) Hr Hl)
    as (w & c & act & -> & [(ios & a' & _ & _ & Hr' & Hact) (Ho & Hin & Hb) Hsite _]).
  cbn [mbind outcome_bind]. set (st0 := mkLoop w st.(conns) st.(wants)).
  assert (step_ok r st st0) as Hst0.
  { split_and!; [apply inv_world; [done|done|by rewrite Hin|done]|done|done|].
    apply foreign_same. intros ep' _. unfold kernel. cbn. by rewrite Hin. }
  destruct (decide (act = Close)) as [->|Hc].
  - eexists. split; [done|]. rewrite drop_conn_put by done.
    apply (step_ok_trans _ _ st0); [done|]. apply drop_conn_inv; [apply Hst0|done].
  - specialize (Hact Hc). assert (live a') as Hl' by (intros ->; by apply Hc).
    pose proof (reregister_spec r st0 fd s c a' (proj1 Hst0) Hs Hr' Hl') as Hre.
    destruct act; [| |done]; eexists; (split; [done|]); (apply (step_ok_trans _ _ st0); [done|]);
      (destruct a'; [exact Hre|exact Hre|by destruct Hl']) || (by destruct a').
Qed.

(** *** Events, backpressure, sweep *)

Lemma on_event_spec r ev st :
  inv r st -> exists st', on_event ctx ev st = Ret st' /\ step_ok r st st'.
Proof.
  intros Hi. assert (exists st', Ret st = Ret st' /\ step_ok r st st') as Hsame
    by (exists st; by split; [|apply step_ok_refl]).
  unfold on_event. case_decide as Hl.
  - destruct (readable ev); [|done]. apply accept_loop_spec; [done|lia].
  - destruct (_ || _); [eexists; split; [done|by apply drop_conn_inv]|].
    destruct (_ || _); [by apply drive_spec|done].
Qed.

Lemma on_events_spec r evs st :
  inv r st -> exists st', on_events ctx evs st = Ret st' /\ step_ok r st st'.
Proof.
  revert st. induction evs as [|ev evs IH]; intros st Hi; [exists st; by split; [|apply step_ok_refl]|].
  cbn [on_events]. destruct (on_event_spec r ev st Hi) as (st1 & -> & Hok1).
  cbn [mbind outcome_bind]. destruct (IH st1 (proj1 Hok1)) as (st' & -> & Hok).
  exists st'. split; [done|]. by eapply step_ok_trans.
Qed.

Lemma apply_backpressure_inv r st st' r' :
  inv r st -> apply_backpressure ctx st r = (st', r') ->
  inv r' st' /\ st'.(conns) = st.(conns) /\ st'.(wants) = st.(wants) /\
  st'.(world).(wapp) = st.(world).(wapp) /\ foreign (kernel st) (kernel st') /\
  (r' = true -> r = false -> at_cap ctx.(cfg) st.(conns) = false) /\
  (r' = true -> r = true -> at_cap ctx.(cfg) st.(conns) = false).
Proof.
  intros Hi. unfold apply_backpressure. destruct r; cbn [andb negb].
  - destruct (at_cap _ _) eqn:Hc; intros E; simplify_eq.
    + destruct (Epoll_delete (epoll ctx) (listener_fd ctx) (kernel st)) as [re k] eqn:Ee.
      apply Epoll_delete_spec in Ee as (Ho & _ & Hother & Hin).
      apply foreign_same in Hother as Hfor. split; [|by split_and!].
      destruct Hi. split; try done; [cbn; by rewrite Ho|]. intros fd. cbn. rewrite Hin.
      destruct (decide (fd = listener_fd ctx)) as [->|Hne]; [by rewrite lookup_delete_eq|].
      rewrite lookup_delete_ne by done. by rewrite inv_epoll0, decide_False.
    + by split_and!.
  - destruct (at_cap _ _) eqn:Hc; cbn [negb]; intros E; simplify_eq; [by split_and!|].
    destruct (Epoll_add (epoll ctx) (listener_fd ctx) Read (trigger ctx) (kernel st)) as [re k] eqn:Ee.
    apply ctl_spec in Ee as (Ho & _ & Hother & Hin); [|done]. apply foreign_same in Hother as Hfor. simplify_eq.
    split; [|by split_and!].
    destruct Hi. split; try done; [cbn; by rewrite Ho|]. intros fd. cbn. rewrite Hin.
    destruct re as [u|e]; [|apply inv_epoll0].
    destruct (decide (fd = listener_fd ctx)) as [->|Hne]; [by rewrite lookup_insert_eq|].
    rewrite lookup_insert_ne by done. by rewrite inv_epoll0, decide_False.
Qed.

(** Dropping a list of descriptors. *)
Lemma drop_all_inv r fds st :
  inv r st -> Forall (fun fd => fd <> ctx.(listener_fd)) fds ->
  step_ok r st (foldl (fun st fd => drop_conn ctx fd st) st fds) /\
  (foldl (fun st fd => drop_conn ctx fd st) st fds).(conns).(slots) =
    filter (fun '(fd, _) => fd ∉ fds) st.(conns).(slots).
Proof.
  intros Hi Hf. revert st Hi. induction Hf as [|fd fds Hfd Hf IH]; intros st Hi.
  { split; [by apply step_ok_refl|]. cbn. rewrite map_filter_id; [done|]. intros fd s Hs. set_solver. }
  cbn [foldl]. pose proof (drop_conn_inv r st fd Hi Hfd) as Hok.
  destruct (IH _ (proj1 Hok)) as [Hok' Hs]. split; [by eapply step_ok_trans|].
  rewrite Hs. destruct (drop_conn_slots fd st) as (-> & _). apply map_eq. intros fd'.
  apply option_eq. intros s. rewrite !map_lookup_filter_Some, lookup_delete_Some. set_solver.
Qed.

(** The sweep removes exactly the expired connections. *)
Lemma sweep_spec r st :
  inv r st -> step_ok r st (sweep_expired ctx st) /\
  (sweep_expired ctx st).(conns).(slots) =
    filter (fun '(_, s) => is_expired s.(conn) (now (kernel st)) = false) st.(conns).(slots).
Proof.
  intros Hi. unfold sweep_expired. fold (expired_fds (conns st) (now (kernel st))).
  pose proof (fun fd => elem_of_expired_fds st.(conns) (now (kernel st)) fd
    (fun fd s Hs => proj1 (inv_slots _ _ Hi fd s Hs))) as Hfds.
  destruct (drop_all_inv r (expired_fds (conns st) (now (kernel st))) st Hi) as [Hok Hs].
  { apply Forall_forall. intros fd (s & Hs & _)%Hfds. by eapply inv_not_listener. }
  split; [done|]. rewrite Hs. apply map_filter_ext. intros fd s Hin.
  rewrite Hfds. split; [|intros He (s' & Hs' & He'); simplify_eq; congruence].
  intros Hn. apply not_true_is_false. intros He. apply Hn. by exists s.
Qed.
End Inv.
