(* ===== verification/Sim.v ===== *)
(** * A kernel to run the models on

    An instance of [Syscall.Kernel] with the laws of [Syscall.KernelLaws]:
    connections wait in one backlog, what peers send is a queue of chunks, where
    the empty one ends what its peer sends, writes always succeed, and what the waits report is a script; a blocking
    accept with nothing to accept times out and takes one entry of it.  The
    script over, the shutdown flag is up.  An address is bound once, or by
    sockets that all reuse the port. *)

From S2P Require Import Prelude RustStr Http Response Request Router Asset App Syscall SysPoll Listener.

Record Sim := mkSim {
  s_errno : Z;
  s_time : N;
  s_open : gset Z;
  s_backlog : nat;
  s_in : list (Z * bytes);
  s_out : list (Z * bytes);
  s_reg : gmap Z (gmap Z (N * N));
  s_script : list (list (N * N));
  s_socks : gmap Z SockState;
}.

Definition sim_fail (e : Z) (k : Sim) : Sim :=
  mkSim e k.(s_time) k.(s_open) k.(s_backlog) k.(s_in) k.(s_out) k.(s_reg) k.(s_script) k.(s_socks).

(** A descriptor above all the open ones. *)
Definition next_fd (s : gset Z) : Z := (foldr Z.max 2 (elements s) + 1)%Z.

Definition sim_open (fd : Z) (k : Sim) : Sim :=
  mkSim k.(s_errno) k.(s_time) ({[fd]} ∪ k.(s_open)) k.(s_backlog) k.(s_in) k.(s_out) k.(s_reg)
    k.(s_script) k.(s_socks).

Definition sim_accept (k : Sim) : Z * SockaddrStorage * Sim :=
  let a := mkStorage 2 0 0 0 [] 0 in
  match k.(s_backlog) with
  | 0 => ((-1)%Z, a, sim_fail EAGAIN k)
  | S n =>
    let fd := next_fd k.(s_open) in
    (fd, a, sim_open fd (mkSim k.(s_errno) k.(s_time) k.(s_open) n k.(s_in) k.(s_out) k.(s_reg)
                               k.(s_script) k.(s_socks)))
  end.

Definition set_reg (r : gmap Z (gmap Z (N * N))) (k : Sim) : Sim :=
  mkSim k.(s_errno) k.(s_time) k.(s_open) k.(s_backlog) k.(s_in) k.(s_out) r k.(s_script) k.(s_socks).

Definition sim_close (fd : Z) (k : Sim) : Sim :=
  set_reg (delete fd <$> k.(s_reg))
    (mkSim k.(s_errno) k.(s_time) (k.(s_open) ∖ {[fd]}) k.(s_backlog) k.(s_in) k.(s_out) k.(s_reg)
       k.(s_script) (delete fd k.(s_socks))).

Definition sim_interests (k : Sim) (ep : Z) : gmap Z (N * N) := default ∅ (k.(s_reg) !! ep).

Definition sim_ctl (ep : Z) (op : EpollOp) (fd : Z) (ev : N * N) (k : Sim) : Z * Sim :=
  let m := sim_interests k ep in
  match op, m !! fd with
  | EPOLL_CTL_ADD, None | EPOLL_CTL_MOD, Some _ => (0%Z, set_reg (<[ep := <[fd := ev]> m]> k.(s_reg)) k)
  | EPOLL_CTL_DEL, Some _ => (0%Z, set_reg (<[ep := delete fd m]> k.(s_reg)) k)
  | EPOLL_CTL_ADD, Some _ => ((-1)%Z, sim_fail 17 k)
  | _, None => ((-1)%Z, sim_fail 2 k)
  end.

(** The first chunk for [fd], and the queue without it; an empty one stays, for
    a read at the end finds the end again. *)
Fixpoint dequeue (fd : Z) (q : list (Z * bytes)) : option (bytes * list (Z * bytes)) :=
  match q with
  | [] => None
  | (fd', b) :: q =>
    if decide (fd' = fd) then Some (b, match b with [] => (fd', b) :: q | _ => q end)
    else '(b', q') ← dequeue fd q; Some (b', (fd', b) :: q')
  end.

Definition sim_read (fd : Z) (n : N) (k : Sim) : result bytes IoError * Sim :=
  match dequeue fd k.(s_in) with
  | None => (Err (Os EAGAIN), k)
  | Some (b, q) =>
    (Ok (take (N.to_nat n) b),
     mkSim k.(s_errno) k.(s_time) k.(s_open) k.(s_backlog) q k.(s_out) k.(s_reg) k.(s_script) k.(s_socks))
  end.

Definition sim_write (fd : Z) (b : bytes) (k : Sim) : result nat IoError * Sim :=
  (Ok (length b),
   mkSim k.(s_errno) k.(s_time) k.(s_open) k.(s_backlog) k.(s_in) (k.(s_out) ++ [(fd, b)]) k.(s_reg)
     k.(s_script) k.(s_socks)).

(** A wait takes 1 ms, or its timeout when the script is over. *)
Definition sim_tick (d : N) (rest : list (list (N * N))) (k : Sim) : Sim :=
  mkSim k.(s_errno) (k.(s_time) + d) k.(s_open) k.(s_backlog) k.(s_in) k.(s_out) k.(s_reg) rest k.(s_socks).

Definition sim_wait (timeout : Z) (k : Sim) : Z * list (N * N) * Sim :=
  match k.(s_script) with
  | [] => (0%Z, [], sim_tick (1000000 * Z.to_N timeout) [] k)
  | evs :: rest => (Z.of_nat (length evs), evs, sim_tick 1000000 rest k)
  end.

#[export] Instance sim_kernel : Kernel Sim := {
  last_errno := s_errno;
  now := s_time;
  shutdown k := match k.(s_script) with [] => true | _ => false end;
  k_fcntl_getfl _ k := (2%Z, k);
  k_fcntl_setfl _ _ k := (0%Z, k);
  k_accept4 _ k := sim_accept k;
  k_close := sim_close;
  k_epoll_create1 k := let ep := next_fd k.(s_open) in (ep, set_reg (<[ep := ∅]> k.(s_reg)) (sim_open ep k));
  k_epoll_ctl := sim_ctl;
  k_epoll_wait _ _ t k := sim_wait t k;
  (* the script gives the revents of the set, by position *)
  k_poll _ t k := let '(n, evs, k) := sim_wait t k in (n, evs.*1, k);
  k_read := sim_read;
  k_write := sim_write;
  k_accept _ k :=
    match sim_accept k with
    | (fd, _, k) =>
      if (fd =? -1)%Z then (Err (Os EAGAIN), sim_tick 100000000 (tail k.(s_script)) k) else (Ok fd, k)
    end;
  k_set_read_timeout _ _ k := (Ok tt, k);
  k_set_write_timeout _ _ k := (Ok tt, k);
  budget k := k.(s_backlog) + length k.(s_in);
}.

(** ** Its laws *)

Lemma next_fd_above s fd : fd ∈ s -> (fd < next_fd s)%Z.
Proof.
  unfold next_fd. rewrite <-elem_of_elements. induction (elements s) as [|x l IH]; [by intros ?%not_elem_of_nil|].
  intros [->|Hin]%elem_of_cons; simpl; [lia|]. specialize (IH Hin). lia.
Qed.

Lemma next_fd_new s : next_fd s ∉ s.
Proof. intros Hin%next_fd_above. lia. Qed.

Lemma next_fd_pos s : (2 < next_fd s)%Z.
Proof. unfold next_fd. induction (elements s) as [|x l IH]; simpl; lia. Qed.

Lemma dequeue_length fd q b q' :
  dequeue fd q = Some (b, q') -> length q' <= length q /\ (b <> [] -> length q' < length q).
Proof.
  revert q'. induction q as [|[fd' c] q IH]; simpl; intros q' E; [done|].
  case_decide; simplify_eq; [destruct b; cbn; (split; [lia|]); [by intros []|lia]|].
  destruct (dequeue fd q) as [[b' q2]|]; simplify_eq/=.
  destruct (IH q2 eq_refl) as [Hle Hlt]. split; [lia|]. intros Hb%Hlt. lia.
Qed.

(** The chunks [fd] has still to be given, up to the end. *)
Fixpoint waiting (fd : Z) (q : list (Z * bytes)) : nat :=
  match q with
  | [] => 0
  | (fd', b) :: q =>
    if decide (fd' = fd) then match b with [] => 0 | _ => S (waiting fd q) end else waiting fd q
  end.

Lemma dequeue_waiting fd q b q' fd' :
  dequeue fd q = Some (b, q') ->
  waiting fd' q' <= waiting fd' q /\ (b <> [] -> waiting fd q' < waiting fd q) /\ (b = [] -> waiting fd q' = 0).
Proof.
  revert q'. induction q as [|[fd1 c] q IH]; intros q' E; [done|]. cbn [dequeue] in E. case_decide as Hd.
  - injection E as -> <-. subst fd1. destruct b as [|b0 b]; cbn [waiting].
    + split_and!; [done|by intros []|]. by rewrite decide_True.
    + rewrite (decide_True (P := fd = fd)) by done. split_and!; [|lia|done]. case_decide; lia.
  - destruct (dequeue fd q) as [[b' q2]|]; [|done]. injection E as -> <-.
    destruct (IH q2 eq_refl) as (Hle & Hlt & Hend). cbn [waiting]. rewrite !(decide_False (P := fd1 = fd)) by done.
    split_and!; [|done|done]. case_decide; [|done]. destruct c; [done|lia].
Qed.

Lemma dequeue_none fd q : dequeue fd q = None -> waiting fd q = 0.
Proof.
  induction q as [|[fd' b] q IH]; [done|]. cbn. case_decide; [done|].
  destruct (dequeue fd q) as [[b' q']|]; [done|auto].
Qed.

#[export] Program Instance sim_laws : KernelLaws Sim := {
  opened := s_open;
  interests := sim_interests;
}.
Next Obligation.
  intros l k fd a k' E Hfd. unfold k_accept4 in E. simpl in E. unfold sim_accept in E.
  destruct (s_backlog k) as [|n] eqn:Hb; simplify_eq/=. rewrite Hb.
  split_and!; [apply next_fd_new|done|done|by left|lia].
Qed.
Next Obligation.
  intros l k a k' E. simpl in E. unfold sim_accept in E.
  destruct (s_backlog k) as [|n] eqn:Hb; injection E as E1 E2.
  - by subst.
  - pose proof (next_fd_pos (s_open k)). lia.
Qed.
Next Obligation. intros fd k r k' E. by simplify_eq/=. Qed.
Next Obligation. intros fd fl k r k' E. by simplify_eq/=. Qed.
Next Obligation.
  intros fd k. simpl. split_and!; [done| |done]. intros ep _. unfold sim_interests. simpl.
  rewrite lookup_fmap. destruct (s_reg k !! ep); simpl; [done|]. by rewrite delete_empty.
Qed.
Next Obligation.
  intros k ep k' E _. simplify_eq/=. split_and!; [apply next_fd_new|done| |].
  - unfold sim_interests. simpl. by rewrite lookup_insert_eq.
  - intros ep' Hne. unfold sim_interests. simpl. by rewrite lookup_insert_ne.
Qed.
Next Obligation.
  intros k k' E. simpl in E. injection E as E _. pose proof (next_fd_pos (s_open k)). lia.
Qed.
Next Obligation.
  intros ep op fd ev k r k' E. simpl in E. unfold sim_ctl in E.
  destruct op, (sim_interests k ep !! fd) eqn:Hm; simplify_eq/=; split_and!; try done;
    try (by intros ep' Hne; unfold sim_interests; simpl; rewrite lookup_insert_ne by done);
    try (by unfold sim_interests; simpl; rewrite lookup_insert_eq).
  change (sim_interests (sim_fail 2 k) ep) with (sim_interests k ep). by rewrite delete_id.
Qed.
Next Obligation.
  intros ep cap t k r evs k' E. simpl in E. unfold sim_wait in E.
  by destruct (s_script k); simplify_eq/=.
Qed.
Next Obligation.
  intros fds t k r revs k' E. simpl in E. unfold sim_wait in E.
  by destruct (s_script k); simplify_eq/=.
Qed.
Next Obligation.
  intros fd n k r k' E. simpl in E. unfold sim_read in E.
  destruct (dequeue fd (s_in k)) as [[b q]|] eqn:Hd; simplify_eq/=; [|done].
  apply dequeue_length in Hd. split_and!; [done|done|lia].
Qed.
Next Obligation.
  intros fd n k b bs k' E. simpl in E. unfold sim_read in E.
  destruct (dequeue fd (s_in k)) as [[c q]|] eqn:Hd; [|done]. injection E as E <-.
  apply dequeue_length in Hd as [_ Hd]. cbn. destruct c; [by rewrite take_nil in E|]. specialize (Hd ltac:(done)). lia.
Qed.
Next Obligation.
  intros fd bs k r k' E. simpl in E. unfold sim_write in E. by simplify_eq/=.
Qed.
Next Obligation.
  intros fd b bs k n k' E. simpl in E. unfold sim_write in E. simplify_eq/=. lia.
Qed.
Next Obligation.
  intros l k r k' E. simpl in E. unfold sim_accept in E.
  pose proof (next_fd_pos (s_open k)) as Hpos.
  destruct (s_backlog k) as [|n]; simpl in E; [by simplify_eq|].
  destruct (Z.eqb_spec (next_fd (s_open k)) (-1)); [lia|]. simplify_eq/=.
  split; [apply next_fd_new|done].
Qed.
Next Obligation. intros fd t k r k' E. by simplify_eq/=. Qed.
Next Obligation. intros fd t k r k' E. by simplify_eq/=. Qed.

(** ** Its sockets *)

Definition EADDRINUSE : Z := 98.

Definition set_socks (m : gmap Z SockState) (k : Sim) : Sim :=
  mkSim k.(s_errno) k.(s_time) k.(s_open) k.(s_backlog) k.(s_in) k.(s_out) k.(s_reg) k.(s_script) m.

Definition sim_socket (d : Domain) (k : Sim) : result Z IoError * Sim :=
  let fd := next_fd (k.(s_open) ∪ dom k.(s_socks)) in
  (Ok fd, set_socks (<[fd := fresh_socket d]> k.(s_socks)) (sim_open fd k)).

Definition sim_setopt (f : SockState -> SockState) (fd : Z) (k : Sim) : result unit IoError * Sim :=
  (Ok tt, set_socks (alter f fd k.(s_socks)) k).

(** Two sockets can be bound to one address when both reuse the port. *)
Definition conflicts (fd : Z) (addr : SocketAddr) (k : Sim) : bool :=
  let mine := match k.(s_socks) !! fd with Some s => s.(reuse_port) | None => false end in
  existsb (fun '(fd', s) => bool_decide (fd' <> fd /\ s.(bound_to) = Some addr) &&
                            negb (mine && s.(reuse_port))) (map_to_list k.(s_socks)).

Definition sim_bind (fd : Z) (addr : SocketAddr) (k : Sim) : result unit IoError * Sim :=
  if conflicts fd addr k then (Err (Os EADDRINUSE), sim_fail EADDRINUSE k)
  else sim_setopt (with_bound addr) fd k.

#[export] Instance sim_sockets : Sockets Sim := {
  socket_new := sim_socket;
  set_reuse_address fd b := sim_setopt (with_reuse_address b) fd;
  set_reuse_port fd b := sim_setopt (with_reuse_port b) fd;
  bind := sim_bind;
  listen fd n := sim_setopt (with_listening n) fd;
  k_set_rcvtimeo fd sec usec k := (0%Z, (sim_setopt (with_rcvtimeo sec usec) fd k).2);
}.

#[export] Program Instance sim_socket_laws : SocketLaws Sim := { sockets := s_socks }.
Next Obligation.
  intros d k r k' E. simpl in E. unfold sim_socket in E. simplify_eq/=.
  pose proof (next_fd_new (s_open k ∪ dom (s_socks k))) as Hn.
  apply not_elem_of_union in Hn as [Ho Hs]. apply not_elem_of_dom in Hs. split; [|done]. split; [exact Ho|]. by split.
Qed.
Next Obligation. intros fd b k r k' E. simpl in E. unfold sim_setopt in E. by simplify_eq/=. Qed.
Next Obligation. intros fd b k r k' E. simpl in E. unfold sim_setopt in E. by simplify_eq/=. Qed.
Next Obligation.
  intros fd a k r k' E. simpl in E. unfold sim_bind, sim_setopt in E. by destruct (conflicts fd a k); simplify_eq/=.
Qed.
Next Obligation. intros fd n k r k' E. simpl in E. unfold sim_setopt in E. by simplify_eq/=. Qed.
Next Obligation. intros fd sec usec k r k' E. simpl in E. unfold sim_setopt in E. by simplify_eq/=. Qed.
Next Obligation. done. Qed.

(** Iteration in key order. *)
#[export] Program Instance sim_order : HashOrder := { hash_iter A m := map_to_list m }.
Next Obligation. done. Qed.

(** *** Binding on it *)

(** Two listeners on one address with the reuse options, and a third without
    them that is refused. *)
Lemma bind_listener_exact_witness :
  let a := SocketAddr_from (127, 0, 0, 1)%N 8080 in
  let k0 := mkSim 0 0 ∅ 0 [] [] ∅ [] ∅ in
  let k2 := (bind_listener a true (bind_listener a true k0).2).2 in
  exists k3, bind_listener a false k2 = (Err (Os EADDRINUSE), k3) /\ size (sockets k2) = 2 /\
    opened k3 = opened k2 /\ sockets k3 = sockets k2.
Proof.
  intros a k0 k2. destruct (bind_listener a false k2) as [r k3] eqn:E.
  pose proof (bind_listener_exact a false k2 r k3 E) as Hb.
  assert ((bind_listener a false k2).1 = Err (Os EADDRINUSE)) as Hr by (vm_compute; reflexivity).
  rewrite E in Hr. cbn [fst] in Hr. subst r. exists k3. split; [reflexivity|].
  split; [vm_compute; reflexivity|]. exact Hb.
Defined.
