(* ===== verification/EventIoProps.v ===== *)
(** * Properties of the shared read/write routine *)

From S2P Require Import Prelude RustStr Http Response Request RequestSpec RequestRefine Router Asset App Conn ConnSpec ConnProps Site Syscall SysPoll EventIo Sim.

Section Props.
Context {K H : Type} `{KernelLaws K} `{Handlers H}.

(** Refinement: driving a live connection returns, without panicking,
    after exchanging with the socket exactly what the automaton says: each
    chunk read moves it by [a_bytes], each write sends the next unsent bytes
    and moves it by [a_written]; and the action returned is the direction the
    connection is left in. *)
Theorem drive_io_faithful drain fd (w : World K H) c a
    (Hfit : all_fit w.(wapp)) (Hc : refines c a) (Hl : live a) :
  exists w' c' act ios a',
    drive_io drain fd w c = Ret (w', c', act) /\
    performs fd w.(kern) ios w'.(kern) /\ moves w.(wapp) a ios a' /\
    refines c' a' /\ (act <> Close -> act = a_action a').
Proof.
  destruct (drive_io_spec drain fd w c a Hfit Hc Hl)
    as (w' & c' & act & Hrun & [(ios & a' & Hp & Hm & Hr & Ha) _ _ _]).
  exists w', c', act, ios, a'. by split_and!.
Qed.

(** Edge-trigger discipline: with [drain], the routine asks to wait for
    readability only after a read that would block, and for writability only
    after a write that would block or took part of what was offered, so no
    readiness edge is left behind. *)
Theorem edge_triggered_drains fd (w : World K H) c a w' c' act
    (Hfit : all_fit w.(wapp)) (Hc : refines c a) (Hl : live a)
    (Hrun : drive_io true fd w c = Ret (w', c', act)) :
  match act with
  | WantRead => exists k e, k_read fd READ_CHUNK k = (Err e, w'.(kern)) /\ kind e = WouldBlock
  | WantWrite => exists k p r, k_write fd p k = (r, w'.(kern)) /\
      match r with
      | Ok n => 0 < n < length p
      | Err e => kind e = WouldBlock
      end
  | Close => True
  end.
Proof.
  destruct (drive_io_spec true fd w c a Hfit Hc Hl) as (w2 & c2 & act2 & Hrun' & Hd).
  rewrite Hrun in Hrun'. injection Hrun' as <- <- <-. exact (dr_drained _ _ _ _ _ _ _ Hd eq_refl).
Qed.
End Props.

(** ** The sample site *)

Lemma sample_all_fit : all_fit sample_app.
Proof.
  intros app [Hr Ha] req.
  assert (handle app req = site_response sample_app.(assets) req) as ->.
  { rewrite <-sample_app_handle. unfold handle. rewrite Hr.
    destruct (req_method req); try done; destruct (Router_lookup _ _ _) as [[]|]; try done;
      cbn; unfold serve_index, serve_style, serve_asset; by rewrite Ha. }
  rewrite <-sample_app_handle. apply sample_app_fits.
Qed.

(** A kernel where a client has sent the root request in two pieces on
    descriptor 5. *)
Definition sim_request : Sim :=
  mkSim 0 0 (list_to_set [3; 4; 5]%Z) 0 [(5%Z, B "GET / HT"); (5%Z, B "TP/1.1" ++ CRLF ++ CRLF)] [] ∅ [] ∅.

Lemma drive_io_faithful_witness :
  exists w' c' act ios a',
    drive_io true 5 (mkWorld sim_request sample_app) (Connection_new 0 30) = Ret (w', c', act) /\
    performs 5 sim_request ios w'.(kern) /\ moves sample_app (AReading []) ios a' /\
    refines c' a' /\ (act <> Close -> act = a_action a').
Proof.
  exact (drive_io_faithful true 5 (mkWorld sim_request sample_app) (Connection_new 0 30) (AReading [])
    sample_all_fit (refines_new 0 30) ltac:(discriminate)).
Defined.

Definition drained_root (o : outcome (World Sim Handler * Connection * ConnAction)) : bool :=
  match o with
  | Ret (w, _, WantRead) => bool_decide (w.(kern).(s_out) = [(5%Z, answer sample_app sample_request)])
  | _ => false
  end.

Lemma edge_triggered_drains_witness :
  exists w' c', drive_io true 5 (mkWorld sim_request sample_app) (Connection_new 0 30) =
      Ret (w', c', WantRead) /\
    drained_root (Ret (w', c', WantRead)) = true /\
    exists k e, k_read 5 READ_CHUNK k = (Err e, w'.(kern)) /\ kind e = WouldBlock.
Proof.
  assert (drained_root (drive_io true 5 (mkWorld sim_request sample_app) (Connection_new 0 30)) = true)
    as Hok by by vm_compute.
  destruct (drive_io true 5 (mkWorld sim_request sample_app) (Connection_new 0 30))
    as [[[w' c'] act]| |] eqn:E; [|discriminate Hok..].
  destruct act; [|discriminate Hok..]. exists w', c'. split_and!; [done|exact Hok|].
  exact (edge_triggered_drains 5 (mkWorld sim_request sample_app) (Connection_new 0 30) (AReading [])
    w' c' WantRead sample_all_fit (refines_new 0 30) ltac:(discriminate) E).
Defined.
