(* ===== verification/Session.v ===== *)
(** * Sessions

    The bytes a connection writes as a function of the chunks it reads: what a
    client sees, whichever model serves it. *)

From S2P Require Import Prelude RustStr Http Response Request RequestSpec RequestRefine RequestProps Router Asset App Conn ConnSpec EventIo.

(** ** What was exchanged, and a session *)

Definition received (ios : list IO) : list bytes :=
  omap (fun io => match io with Received b => Some b | Sent _ => None end) ios.

Definition sent (ios : list IO) : bytes :=
  concat (omap (fun io => match io with Sent b => Some b | Received _ => None end) ios).

Section Session.
Context {H : Type} `{Handlers H} (app : App H).

(** All a connection writes when it reads [chunks], having [s] already. *)
Fixpoint session (s : bytes) (chunks : list bytes) : bytes :=
  match chunks with
  | [] => []
  | b :: chunks =>
    match spec_parse (s ++ b) with
    | Incomplete => session (s ++ b) chunks
    | Complete r n =>
      answer app r ++ (if wants_keep_alive r then session (drop n (s ++ b)) chunks else [])
    | Failed e => error_answer e
    end
  end.

Definition output (a : AConn) (chunks : list bytes) : bytes :=
  match a with
  | AReading s => session s chunks
  | AWriting u next => u ++ match next with None => [] | Some s => session s chunks end
  | AClosed => []
  end.

Lemma output_in s b chunks :
  output (AReading s) (b :: chunks) = output (a_bytes app (AReading s) b) chunks.
Proof.
  cbn [output session a_bytes]. destruct (spec_parse (s ++ b)) as [|r n|e]; cbn [output].
  - done.
  - by destruct (wants_keep_alive r).
  - by rewrite app_nil_r.
Qed.

Lemma output_out u next n chunks :
  output (AWriting u next) chunks = take n u ++ output (a_written (AWriting u next) n) chunks.
Proof.
  cbn [a_written]. destruct (Nat.ltb_spec n (length u)).
  - cbn. by rewrite app_assoc, take_drop.
  - rewrite take_ge by done. by destruct next.
Qed.

Lemma moves_output a ios a' rest :
  moves app a ios a' -> output a (received ios ++ rest) = sent ios ++ output a' rest.
Proof.
  intros Hm. induction Hm as [a|s b l a' Hm IH|u next n l a' Hm IH]; [done| |].
  - change (received (Received b :: l)) with (b :: received l). cbn [Datatypes.app].
    by rewrite output_in, IH.
  - change (received (Sent (take n u) :: l)) with (received l).
    change (sent (Sent (take n u) :: l)) with (take n u ++ sent l).
    by rewrite (output_out u next n), IH, app_assoc.
Qed.

(** ** Requests sent one after the other *)

(** A request and the reads it arrives in, none empty. *)
Record Sending := mkSending { tok : bytes; sent_request : Request; chunks : list bytes }.

Definition sending_ok (x : Sending) : Prop :=
  printable x.(tok) x.(sent_request) = true /\
  N.of_nat (length (request_line x.(tok) x.(sent_request))) <> MAX_REQUEST_LINE /\
  concat x.(chunks) = render_request x.(tok) x.(sent_request) /\
  Forall (fun b => b <> []) x.(chunks) /\
  wants_keep_alive x.(sent_request) = true.

(** Part of a request is no request and no error. *)
Lemma spec_parse_partial t r pre post :
  printable t r = true -> N.of_nat (length (request_line t r)) <> MAX_REQUEST_LINE ->
  render_request t r = pre ++ post -> post <> [] -> spec_parse pre = Incomplete.
Proof.
  intros Hp Hl Hr Hne. pose proof (spec_parse_render t r [] Hp) as Hs. rewrite app_nil_r in Hs.
  destruct (spec_parse pre) as [|r' n|e] eqn:E; [done|exfalso..].
  all: assert (spec_parse (pre ++ post) = spec_parse pre) as Happ.
  1, 3: apply spec_parse_app; [by rewrite E|left; intros line rest Hc; rewrite <-Hr in Hc;
    unfold render_request in Hc;
    rewrite (split_crlf_line _ _ (proj2 (request_line_spec t r Hp))) in Hc; by simplify_eq].
  all: rewrite <-Hr, Hs, E in Happ.
  2: done.
  injection Happ as <- <-.
  destruct (push_Represents _ [] pre Represents_new) as (p & _ & Hpost).
  cbn [Datatypes.app] in Hpost. rewrite E in Hpost. destruct Hpost as (_ & Hle & _).
  rewrite Hr, length_app in Hle. destruct post; [done|simpl in Hle; lia].
Qed.

Lemma session_one x rest :
  sending_ok x ->
  session [] (x.(chunks) ++ rest) = answer app x.(sent_request) ++ session [] rest.
Proof.
  intros (Hp & Hl & Hc & Hne & Hka).
  assert (forall pre todo, render_request x.(tok) x.(sent_request) = pre ++ concat todo ->
    Forall (fun b => b <> []) todo -> todo <> [] ->
    session pre (todo ++ rest) = answer app x.(sent_request) ++ session [] rest) as Hall.
  { intros pre todo. revert pre. induction todo as [|b todo IH]; intros pre Hr Hf Hn; [done|].
    apply Forall_cons in Hf as [Hb Hf]. cbn [Datatypes.app session].
    change (concat (b :: todo)) with (b ++ concat todo) in Hr. rewrite app_assoc in Hr.
    destruct todo as [|b' todo].
    - change (concat []) with (@nil byte) in Hr. rewrite app_nil_r in Hr. rewrite <-Hr.
      pose proof (spec_parse_render _ _ [] Hp) as Hs. rewrite app_nil_r in Hs.
      by rewrite Hs, Hka, drop_all.
    - rewrite (spec_parse_partial _ _ _ _ Hp Hl Hr).
      + by apply IH.
      + apply Forall_cons in Hf as [Hb' _]. change (concat (b' :: todo)) with (b' ++ concat todo).
        by intros [? _]%app_eq_nil. }
  apply Hall; [by rewrite Hc|done|]. intros E. rewrite E in Hc. symmetry in Hc.
  unfold render_request in Hc. apply app_eq_nil in Hc as [_ Hc].
  by apply app_eq_nil in Hc as [Hc _].
Qed.

Lemma session_all xs :
  Forall sending_ok xs ->
  session [] (concat (chunks <$> xs)) = concat ((fun x => answer app x.(sent_request)) <$> xs).
Proof.
  intros Hf. induction Hf as [|x xs Hx Hf IH]; [done|].
  cbn [fmap list_fmap concat]. rewrite session_one by done. by f_equal.
Qed.
End Session.

(** ** The application while it counts *)

(** Handlers that look at the routes and the assets only, not at the counters,
    which change while they run. *)
Class SiteHandlers (H : Type) `{Handlers H} :=
  call_same : forall h r app app', same_site app app' -> call_handler h r app' = call_handler h r app.

Section Same.
Context {H : Type} `{SiteHandlers H}.

Lemma handle_same app app' r : same_site app app' -> handle app' r = handle app r.
Proof.
  intros Hs. pose proof Hs as [Hr _]. unfold handle. rewrite Hr.
  destruct (req_method r); try done; destruct (Router_lookup _ _ _); try done; by apply call_same.
Qed.

Lemma a_bytes_same app app' a b : same_site app app' -> a_bytes app' a b = a_bytes app a b.
Proof.
  intros Hs. destruct a as [s| |]; try done. cbn. destruct (spec_parse (s ++ b)); try done.
  unfold answer. by rewrite (handle_same app app').
Qed.

Lemma moves_same app app' a ios a' : same_site app app' -> moves app' a ios a' -> moves app a ios a'.
Proof.
  intros Hs Hm. induction Hm as [a|s b l a' Hm IH|u next n l a' Hm IH]; [constructor| |by constructor].
  constructor. by rewrite <-(a_bytes_same app app').
Qed.

Lemma fits_all app : fits app -> all_fit app.
Proof. intros Hf app' Hs r. rewrite (handle_same app app' r Hs). apply Hf. Qed.
End Same.

Lemma moves_trans {H} `{Handlers H} (app : App H) a l b l' c :
  moves app a l b -> moves app b l' c -> moves app a (l ++ l') c.
Proof. intros H1 H2. induction H1; cbn; [done|constructor; auto..]. Qed.

(** What was sent is a part of the session of what was received, and what is
    missing is what the connection has yet to send. *)
Lemma moves_session {H} `{Handlers H} (app : App H) ios a :
  moves app (AReading []) ios a -> session app [] (received ios) = sent ios ++ output app a [].
Proof. intros Hm. pose proof (moves_output app _ _ _ [] Hm) as Ho. by rewrite app_nil_r in Ho. Qed.
