(* ===== verification/Trace.v ===== *)
(** * What was exchanged with every client

    A kernel that also records, for each connection accepted, what was read
    from it and written to it.  It is a [Kernel] with the laws of the one it
    wraps, so what is proved of a server on any kernel holds on it, and its
    records say what that server exchanged.  [faithful] ties them to the
    automaton of ConnSpec. *)

From S2P Require Import Prelude RustStr Http Response Request RequestSpec RequestRefine Router Asset App Conn ConnSpec Syscall Socket Listener SysPoll ConnTable EventIo Session.

(** ** The recording kernel *)

(** [current]: the record of the last connection accepted under a descriptor;
    [past]: those of the earlier ones. *)
Record Traced (K : Type) := mkTraced { tk : K; current : gmap Z (list IO); past : list (list IO) }.
Arguments mkTraced {K} _ _ _.
Arguments tk {K} _.
Arguments current {K} _.
Arguments past {K} _.

Section Traced.
Context {K : Type}.

Definition traced (k : K) : Traced K := mkTraced k ∅ [].

Definition set_tk (k : K) (t : Traced K) : Traced K := mkTraced k t.(current) t.(past).

(** A new connection under [fd]. *)
Definition begin_record (fd : Z) (t : Traced K) : Traced K :=
  mkTraced t.(tk) (<[fd := []]> t.(current))
    (match t.(current) !! fd with Some h => h :: t.(past) | None => t.(past) end).

Definition record (fd : Z) (io : IO) (t : Traced K) : Traced K :=
  mkTraced t.(tk) (alter (.++ [io]) fd t.(current)) t.(past).

(** A call that is not recorded. *)
Definition lift {R} (f : K -> R * K) (t : Traced K) : R * Traced K :=
  let '(r, k) := f t.(tk) in (r, set_tk k t).

Definition traced_accept4 `{Kernel K} (l : Z) (t : Traced K) : Z * SockaddrStorage * Traced K :=
  let '(r, t) := lift (k_accept4 l) t in
  (r, if is_minus_one r.1 then t else begin_record r.1 t).

Definition traced_accept `{Kernel K} (l : Z) (t : Traced K) : result Z IoError * Traced K :=
  let '(r, t) := lift (k_accept l) t in
  (r, match r with Ok fd => begin_record fd t | Err _ => t end).

Definition traced_read `{Kernel K} (fd : Z) (n : N) (t : Traced K) : result bytes IoError * Traced K :=
  let '(r, t) := lift (k_read fd n) t in
  (r, match r with Ok (b :: bs) => record fd (Received (b :: bs)) t | _ => t end).

Definition traced_write `{Kernel K} (fd : Z) (p : bytes) (t : Traced K) : result nat IoError * Traced K :=
  let '(r, t) := lift (k_write fd p) t in
  (r, match r with Ok (S n) => record fd (Sent (take (S n) p)) t | _ => t end).

#[export] Instance traced_kernel `{Kernel K} : Kernel (Traced K) := {
  last_errno t := last_errno t.(tk);
  now t := now t.(tk);
  shutdown t := shutdown t.(tk);
  k_fcntl_getfl fd := lift (k_fcntl_getfl fd);
  k_fcntl_setfl fd fl := lift (k_fcntl_setfl fd fl);
  k_accept4 := traced_accept4;
  k_close fd t := set_tk (k_close fd t.(tk)) t;
  k_epoll_create1 := lift k_epoll_create1;
  k_epoll_ctl ep op fd ev := lift (k_epoll_ctl ep op fd ev);
  k_epoll_wait ep n ms := lift (k_epoll_wait ep n ms);
  k_poll fds ms := lift (k_poll fds ms);
  k_read := traced_read;
  k_write := traced_write;
  k_accept := traced_accept;
  k_set_read_timeout fd ns := lift (k_set_read_timeout fd ns);
  k_set_write_timeout fd ns := lift (k_set_write_timeout fd ns);
  budget t := budget t.(tk);
}.

Lemma lift_inv {R} (f : K -> R * K) t r t' :
  lift f t = (r, t') -> exists k, f t.(tk) = (r, k) /\ t' = set_tk k t.
Proof. unfold lift. destruct (f (tk t)) as [r0 k]. intros E. simplify_eq. by exists k. Qed.
End Traced.

(** Takes a recorded call apart. *)
Ltac untrace E :=
  cbn in E; unfold traced_accept4, traced_accept, traced_read, traced_write, lift in E;
  repeat match goal with
    | H : context [let '(_, _) := ?f in _] |- _ => destruct f eqn:?; simplify_eq/=
    end; try match goal with F : _ = (_, _) |- _ => rename F into E end.

#[export] Program Instance traced_laws {K} `{KernelLaws K} : KernelLaws (Traced K) := {
  opened t := opened t.(tk);
  interests t := interests t.(tk);
}.
Next Obligation.
  intros K H0 H1 l t fd a t' E Hfd. untrace E. eapply accept4_new in E; [|done].
  unfold is_minus_one. rewrite (proj2 (Z.eqb_neq _ _) Hfd). exact E.
Qed.
Next Obligation. intros K H0 H1 l t a t' E. untrace E. by eapply accept4_fail. Qed.
Next Obligation. intros K H0 H1 fd t r t' E. untrace E. by eapply getfl_frame. Qed.
Next Obligation. intros K H0 H1 fd fl t r t' E. untrace E. by eapply setfl_frame. Qed.
Next Obligation. intros K H0 H1 fd t. exact (close_effect fd t.(tk)). Qed.
Next Obligation. intros K H0 H1 t ep t' E Hep. untrace E. by eapply create1_new. Qed.
Next Obligation. intros K H0 H1 t t' E. untrace E. by eapply create1_fail. Qed.
Next Obligation. intros K H0 H1 ep op fd ev t r t' E. untrace E. by eapply ctl_effect. Qed.
Next Obligation. intros K H0 H1 ep cap ms t r evs t' E. untrace E. by eapply epoll_wait_frame. Qed.
Next Obligation. intros K H0 H1 fds ms t r revs t' E. untrace E. by eapply poll_frame. Qed.
Next Obligation.
  intros K H0 H1 fd n t r t' E. untrace E. apply read_frame in E. by destruct r as [[|]|].
Qed.
Next Obligation. intros K H0 H1 fd n t b bs t' E. untrace E. by eapply read_budget. Qed.
Next Obligation.
  intros K H0 H1 fd bs t r t' E. untrace E. apply write_frame in E. by destruct r as [[|]|].
Qed.
Next Obligation. intros K H0 H1 fd b bs t n t' E. untrace E. by eapply write_some. Qed.
Next Obligation.
  intros K H0 H1 l t r t' E. untrace E. apply accept_effect in E. by destruct r.
Qed.
Next Obligation. intros K H0 H1 fd ns t r t' E. untrace E. by eapply read_timeout_frame. Qed.
Next Obligation. intros K H0 H1 fd ns t r t' E. untrace E. by eapply write_timeout_frame. Qed.

#[export] Instance traced_sockets {K} `{Sockets K} : Sockets (Traced K) := {
  socket_new d := lift (socket_new d);
  set_reuse_address fd b := lift (set_reuse_address fd b);
  set_reuse_port fd b := lift (set_reuse_port fd b);
  bind fd a := lift (bind fd a);
  listen fd n := lift (listen fd n);
  k_set_rcvtimeo fd sec usec := lift (k_set_rcvtimeo fd sec usec);
}.

#[export] Program Instance traced_socket_laws {K} `{HL : SocketLaws K} : SocketLaws (Traced K) := {
  sockets t := sockets t.(tk);
}.
Next Obligation. intros K ? ? ? HL d t r t' E. untrace E. by eapply socket_new_effect. Qed.
Next Obligation. intros K ? ? ? HL fd b t r t' E. untrace E. by eapply reuse_address_effect. Qed.
Next Obligation. intros K ? ? ? HL fd b t r t' E. untrace E. by eapply reuse_port_effect. Qed.
Next Obligation. intros K ? ? ? HL fd a t r t' E. untrace E. by eapply bind_effect. Qed.
Next Obligation. intros K ? ? ? HL fd n t r t' E. untrace E. by eapply listen_effect. Qed.
Next Obligation. intros K ? ? ? HL fd sec usec t r t' E. untrace E. by eapply rcvtimeo_effect. Qed.
Next Obligation. intros K ? ? ? HL fd t. exact (close_socket fd t.(tk)). Qed.

(** ** What leaves the records alone *)

Section Log.
Context {K : Type} `{Kernel K}.

Definition same_log (t t' : Traced K) : Prop := t'.(current) = t.(current) /\ t'.(past) = t.(past).

#[export] Instance same_log_preorder : PreOrder same_log.
Proof. unfold same_log. split; [done|]. intros t1 t2 t3 [H1 H2] [H3 H4]. split; congruence. Qed.

Lemma lift_log {R} (f : K -> R * K) t r t' : lift f t = (r, t') -> same_log t t'.
Proof. intros (k & _ & ->)%lift_inv. done. Qed.

Lemma close_log fd (t : Traced K) : same_log t (k_close fd t).
Proof. done. Qed.

Lemma set_nonblocking_log fd (t : Traced K) r t' : set_nonblocking fd t = (r, t') -> same_log t t'.
Proof.
  unfold set_nonblocking, syscall. intros E.
  destruct (k_fcntl_getfl fd t) as [fl t1] eqn:E1. apply lift_log in E1. cbn [fst snd] in E.
  destruct (cvt fl t1); [|by simplify_eq].
  destruct (k_fcntl_setfl fd _ t1) as [r2 t2] eqn:E2. apply lift_log in E2. cbn [fst snd] in E.
  destruct (cvt r2 t2); simplify_eq; by etrans.
Qed.

Lemma Epoll_ctl_log ep op fd ev (t : Traced K) r t' :
  ok_unit (syscall (k_epoll_ctl ep op fd ev t)) = (r, t') -> same_log t t'.
Proof.
  unfold ok_unit, syscall. intros E. destruct (k_epoll_ctl ep op fd ev t) as [r1 t1] eqn:E1.
  apply lift_log in E1. cbn [fst snd] in E. by destruct (cvt r1 t1); simplify_eq.
Qed.

Lemma Epoll_wait_log ep n ms (t : Traced K) r t' : Epoll_wait ep n ms t = (r, t') -> same_log t t'.
Proof.
  unfold Epoll_wait. intros E. destruct (k_epoll_wait _ _ _ t) as [[n1 raw] t1] eqn:E1.
  apply lift_log in E1. by destruct (cvt n1 t1); simplify_eq.
Qed.

Lemma poll_log fds ms (t : Traced K) r fds' t' : poll fds ms t = (r, fds', t') -> same_log t t'.
Proof.
  unfold poll. intros E. destruct (k_poll _ _ t) as [[n1 revs] t1] eqn:E1.
  apply lift_log in E1. by destruct (cvt n1 t1); simplify_eq.
Qed.

Lemma and_then_log {A C} (t : Traced K) (r : result A IoError * Traced K) (f : A -> Traced K -> result C IoError * Traced K) :
  same_log t r.2 -> (forall a, same_log r.2 (f a r.2).2) -> same_log t (and_then r f).2.
Proof. destruct r as [[a|e] t1]; cbn; [|done]. intros H1' H2'. etrans; [exact H1'|apply H2']. Qed.

Lemma lifted_log {R} (f : K -> R * K) (t : Traced K) : same_log t (lift f t).2.
Proof. unfold lift. by destruct (f (tk t)). Qed.

Lemma bind_listener_log `{!Sockets K} addr reuse (t : Traced K) : same_log t (bind_listener addr reuse t).2.
Proof.
  unfold bind_listener. apply and_then_log; [apply lifted_log|]. intros s.
  set (t1 := (socket_new (for_address addr) t).2).
  assert (same_log t1 (configure s addr reuse t1).2) as Hc.
  { unfold configure. apply and_then_log.
    - destruct reuse; [|done]. apply and_then_log; [apply lifted_log|]. intros a. apply lifted_log.
    - intros a. apply and_then_log; [apply lifted_log|]. intros a'. apply lifted_log. }
  destruct (configure s addr reuse t1) as [[u|e] t2]; exact Hc.
Qed.

(** An accepted connection has a new, empty record, if only for a moment. *)
Definition begun (fd : Z) (t t' : Traced K) : Prop :=
  t'.(current) = <[fd := []]> t.(current) /\
  t'.(past) = match t.(current) !! fd with Some h => h :: t.(past) | None => t.(past) end.

Lemma accept_nonblocking_log `{!KernelLaws K} l (t : Traced K) r t' :
  accept_nonblocking l t = (r, t') ->
  match r with
  | Ok (Some (fd, _)) => begun fd t t'
  | _ => same_log t t'
  end.
Proof.
  unfold accept_nonblocking, cvt. intros E. destruct (k_accept4 l t) as [[fd a] t1] eqn:E1.
  pose proof E1 as E2. cbn in E1. unfold traced_accept4 in E1. destruct (lift (k_accept4 l) t) as [p t0] eqn:E0.
  apply lift_inv in E0 as (k & _ & ->). simplify_eq. cbn [fst snd] in *.
  destruct (is_minus_one fd) eqn:Hfd; [case_decide; by simplify_eq|].
  apply accept4_new in E2 as (_ & _ & _ & Ha & _); [|by apply Z.eqb_neq].
  unfold sockaddr_to_socketaddr in E. destruct Ha as [Ha|Ha]; rewrite Ha in E; by simplify_eq/=.
Qed.

Lemma performs_log fd t ios t' :
  performs fd t ios t' ->
  t'.(current) = alter (.++ ios) fd t.(current) /\ t'.(past) = t.(past).
Proof.
  assert (forall (m : gmap Z (list IO)), alter (.++ []) fd m = m) as Hnil.
  { intros m. apply map_eq. intros i. destruct (decide (i = fd)) as [->|];
      [rewrite lookup_alter_eq; by destruct (m !! fd); cbn; rewrite ?app_nil_r|by rewrite lookup_alter_ne]. }
  assert (forall io ios (m : gmap Z (list IO)),
    alter (.++ ios) fd (alter (.++ [io]) fd m) = alter (.++ (io :: ios)) fd m) as Hcons.
  { intros io l m. apply map_eq. intros i. destruct (decide (i = fd)) as [->|];
      [rewrite !lookup_alter_eq; destruct (m !! fd); cbn; by rewrite <-?app_assoc|by rewrite !lookup_alter_ne]. }
  intros Hp. induction Hp as [t|t b bs t1 l t2 E _ IH|t p n t1 l t2 E _ IH|t r t1 E Hr|t p r t1 E Hr].
  - by rewrite Hnil.
  - cbn in E. unfold traced_read in E. destruct (lift _ t) as [r0 t0] eqn:E0. apply lift_log in E0 as [Hc Hpa].
    simplify_eq. destruct IH as [-> ->]. cbn. by rewrite Hc, Hpa, Hcons.
  - cbn in E. unfold traced_write in E. destruct (lift _ t) as [r0 t0] eqn:E0. apply lift_log in E0 as [Hc Hpa].
    simplify_eq. destruct IH as [-> ->]. cbn [record current past]. by rewrite Hc, Hpa, Hcons.
  - cbn in E. unfold traced_read in E. destruct (lift _ t) as [r0 t0] eqn:E0. apply lift_log in E0 as [Hc Hpa].
    rewrite Hnil, <-Hc, <-Hpa. destruct r0 as [[|b bs]|e]; simplify_eq; try done. by destruct (Hr b bs).
  - cbn in E. unfold traced_write in E. destruct (lift _ t) as [r0 t0] eqn:E0. apply lift_log in E0 as [Hc Hpa].
    rewrite Hnil, <-Hc, <-Hpa. destruct r0 as [[|n]|e]; simplify_eq; try done. by destruct (Hr n).
Qed.
End Log.

(** ** Records and connections *)

(** Tables of connections: of the readiness loops, and of the ring. *)
Class HasConn (A : Type) := the_conn : A -> Connection.
#[export] Instance slot_conn : HasConn Slot := conn.
#[export] Instance conn_conn : HasConn Connection := fun c => c.

Section Faithful.
Context {K H A : Type} `{Handlers H} `{HasConn A} (app : App H).

(** A run of the automaton from a new connection. *)
Definition run_of (h : list IO) : Prop := exists a, moves app (AReading []) h a.

(** Every record is a run of the automaton, and that of an open connection is
    a run to where its state machine is. *)
Record faithful (tbl : gmap Z A) (t : Traced K) : Prop := {
  fa_past : Forall run_of t.(past);
  fa_current : map_Forall (fun _ h => run_of h) t.(current);
  fa_slots : map_Forall (fun fd s => exists h a,
    t.(current) !! fd = Some h /\ moves app (AReading []) h a /\ refines (the_conn s) a) tbl;
}.

Lemma faithful_log tbl tbl' t t' :
  faithful tbl t -> same_log t t' -> tbl' ⊆ tbl -> faithful tbl' t'.
Proof.
  intros [Hp Hc Hs] [Ec Ep] Hsub. split; rewrite ?Ec, ?Ep; [done..|].
  intros fd s Hin. apply (Hs fd s). by eapply lookup_weaken.
Qed.

Lemma faithful_same tbl t t' : faithful tbl t -> same_log t t' -> faithful tbl t'.
Proof. intros Hf Hl. by eapply faithful_log. Qed.

(** A connection is accepted under a descriptor no open connection has; it is
    entered in the table or dropped. *)
Lemma faithful_begun tbl t t' fd :
  faithful tbl t -> begun fd t t' -> tbl !! fd = None -> faithful tbl t'.
Proof.
  intros [Hp Hc Hs] [Ec Ep] Hnone. split.
  - rewrite Ep. destruct (current t !! fd) as [h|] eqn:Eh; [|done]. constructor; [by eapply Hc|done].
  - rewrite Ec. apply map_Forall_insert_2; [|done]. exists (AReading []). constructor.
  - intros fd' s Hin. rewrite Ec, lookup_insert_ne by congruence. by apply Hs.
Qed.

Lemma faithful_insert tbl t t' fd s :
  faithful tbl t -> begun fd t t' -> tbl !! fd = None -> refines (the_conn s) (AReading []) ->
  faithful (<[fd := s]> tbl) t'.
Proof.
  intros Hf Hb Hnone Hr. destruct (faithful_begun _ _ _ _ Hf Hb Hnone) as [Hp Hc Hs]. destruct Hb as [Ec _].
  split; [done..|]. apply map_Forall_insert_2; [|done]. exists [], (AReading []).
  rewrite Ec, lookup_insert_eq. split_and!; [done|constructor|done].
Qed.

(** A connection exchanges something with its client, and is kept or closed. *)
Lemma faithful_exchanged tbl tbl' t t' fd h ios :
  faithful tbl t -> t.(current) !! fd = Some h ->
  t'.(current) = alter (.++ ios) fd t.(current) -> t'.(past) = t.(past) ->
  (exists a, moves app (AReading []) (h ++ ios) a /\ forall s, tbl' !! fd = Some s -> refines (the_conn s) a) ->
  (forall fd' s, fd' <> fd -> tbl' !! fd' = Some s -> tbl !! fd' = Some s) -> faithful tbl' t'.
Proof.
  intros [Hp Hc Hs] Hh Ec Ep (a & Hm & Hr) Hne.
  assert (t'.(current) !! fd = Some (h ++ ios)) as Hh' by by rewrite Ec, lookup_alter_eq, Hh.
  assert (forall fd', fd' <> fd -> t'.(current) !! fd' = t.(current) !! fd') as Hrest
    by (intros fd' ?; rewrite Ec; by apply lookup_alter_ne).
  split.
  - by rewrite Ep.
  - intros fd' h'. destruct (decide (fd' = fd)) as [->|Hn]; [|rewrite Hrest by done; apply Hc].
    rewrite Hh'. intros E. injection E as <-. by exists a.
  - intros fd' s. destruct (decide (fd' = fd)) as [->|Hn]; intros Hin.
    + exists (h ++ ios), a. split_and!; [done|done|by apply Hr].
    + rewrite Hrest by done. by apply Hs, Hne.
Qed.

Lemma faithful_performs `{Kernel K} tbl t t' fd s h a ios a' :
  faithful tbl t -> t.(current) !! fd = Some h -> moves app (AReading []) h a ->
  performs fd t ios t' -> moves app a ios a' -> refines (the_conn s) a' -> faithful (<[fd := s]> tbl) t'.
Proof.
  intros Hf Hh Hm Hper Hm' Hr. destruct (performs_log _ _ _ _ Hper) as [Ec Ep].
  eapply faithful_exchanged; [done..| |].
  - exists a'. split; [by eapply moves_trans|]. rewrite lookup_insert_eq. intros s' E. by injection E as <-.
  - intros fd' s' Hn. by rewrite lookup_insert_ne.
Qed.

(** The connection may be in no table, or in another one. *)
Lemma faithful_performs_other `{Kernel K} tbl t t' fd h a ios a' :
  faithful tbl t -> tbl !! fd = None -> t.(current) !! fd = Some h -> moves app (AReading []) h a ->
  performs fd t ios t' -> moves app a ios a' -> faithful tbl t'.
Proof.
  intros Hf Hnone Hh Hm Hper Hm'. destruct (performs_log _ _ _ _ Hper) as [Ec Ep].
  eapply faithful_exchanged; [done..| |done].
  exists a'. split; [by eapply moves_trans|]. by rewrite Hnone.
Qed.

(** What a client of this kernel saw. *)
Definition histories (t : Traced K) : list (list IO) := t.(past) ++ (map_to_list t.(current)).*2.

(** Every client, now and before, was written a part of the session of what was
    read from it; what is missing of an open connection's is what its state
    machine has yet to send. *)
Definition serves_sessions (tbl : gmap Z A) (t : Traced K) : Prop :=
  (forall h, h ∈ histories t -> sent h `prefix_of` session app [] (received h)) /\
  (forall fd s, tbl !! fd = Some s -> exists h a, t.(current) !! fd = Some h /\ refines (the_conn s) a /\
    session app [] (received h) = sent h ++ output app a []).

Lemma faithful_sessions tbl t : faithful tbl t -> serves_sessions tbl t.
Proof.
  intros [Hp Hc Hs]. split.
  - intros h Hin. assert (run_of h) as [a Hm].
    { apply elem_of_app in Hin as [Hin|Hin]; [by eapply Forall_forall in Hp|].
      apply list_elem_of_fmap in Hin as ([fd h'] & -> & Hin). apply elem_of_map_to_list in Hin. by eapply Hc. }
    rewrite (moves_session app h a Hm). by eexists.
  - intros fd s Hin. destruct (Hs fd s Hin) as (h & a & Hh & Hm & Hr). exists h, a. split_and!; try done.
    by apply moves_session.
Qed.

Lemma faithful_start k : faithful ∅ (traced k).
Proof. split; [constructor|apply map_Forall_empty|apply map_Forall_empty]. Qed.
End Faithful.

(** Not closed, by any automaton state it refines. *)
Lemma refines_live c a a' : refines c a -> refines c a' -> live a -> live a'.
Proof.
  intros H1 H2 Hl ->. apply Hl. pose proof (refines_action _ _ H1) as E1. rewrite (refines_action _ _ H2) in E1.
  by destruct a.
Qed.
