(* ===== verification/Process.v ===== *)
(** * Processes

    What the models that fork use of the operating system: processes with a
    descriptor table each, over one kernel.  [Machine] is a kernel that also
    records, for every connection accepted, what all the processes that hold it
    exchange with it. *)

From S2P Require Import Prelude RustStr Http Response Request RequestSpec RequestRefine Router Asset App Conn ConnSpec Syscall EventIo Session.

(** ** The interface *)

(** The calls of [Kernel] are made by the process that runs, [current]. *)
Class Processes (K : Type) `{Kernel K} := {
  current : K -> Z;
  (* the scheduler lets a process run *)
  run_as : Z -> K -> K;
  (* [libc::fork]: the child's pid, or -1 *)
  k_fork : K -> Z * K;
  (* [libc::_exit] *)
  k_exit : K -> K;
  (* [libc::waitpid] of a child that has exited *)
  k_reap : Z -> K -> K;
}.

(** Between two states the processes but the current one are as they were. *)
Definition apart {K} (procs : K -> gset Z) (current : K -> Z) (table : Z -> K -> gset Z) (k k' : K) : Prop :=
  procs k' = procs k /\ current k' = current k /\ forall q, q <> current k -> table q k' = table q k.

(** [table p k]: the descriptors open in process [p]; [procs]: the processes
    there are, those not yet waited for included. *)
Class ProcessLaws (K : Type) `{KernelLaws K, !Processes K} := {
  table : Z -> K -> gset Z;
  procs : K -> gset Z;
  opened_table k : opened k = table (current k) k;
  run_as_effect p k : current (run_as p k) = p /\ (forall q, table q (run_as p k) = table q k) /\
    procs (run_as p k) = procs k;
  fork_effect k pid k' : k_fork k = (pid, k') -> pid <> (-1)%Z ->
    (pid ∉ procs k) /\ procs k' = {[pid]} ∪ procs k /\ current k' = current k /\
    table pid k' = table (current k) k /\ (forall q, q <> pid -> table q k' = table q k);
  fork_fail k k' : k_fork k = ((-1)%Z, k') ->
    procs k' = procs k /\ current k' = current k /\ (forall q, table q k' = table q k);
  exit_effect k : procs (k_exit k) = procs k /\ (forall q, q <> current k -> table q (k_exit k) = table q k);
  reap_effect pid k : procs (k_reap pid k) = procs k ∖ {[pid]} /\
    (forall q, q <> pid -> table q (k_reap pid k) = table q k);
  (* what a process calls leaves the others *)
  read_alone fd n k r k' : k_read fd n k = (r, k') ->
    apart procs current table k k';
  write_alone fd bs k r k' : k_write fd bs k = (r, k') ->
    apart procs current table k k';
  accept_alone l k r k' : k_accept l k = (r, k') ->
    apart procs current table k k';
  close_alone fd k : apart procs current table k (k_close fd k);
  read_timeout_alone fd t k r k' : k_set_read_timeout fd t k = (r, k') ->
    apart procs current table k k';
  write_timeout_alone fd t k r k' : k_set_write_timeout fd t k = (r, k') ->
    apart procs current table k k';
}.

Section Alone.
Context {K : Type} `{ProcessLaws K}.

Definition alone (k k' : K) : Prop := apart procs current table k k'.

#[export] Instance alone_preorder : PreOrder alone.
Proof.
  split; [by intros k|]. intros k1 k2 k3 (Hp1 & Hc1 & Ht1) (Hp2 & Hc2 & Ht2).
  split_and!; [congruence|congruence|]. intros q Hq. rewrite Ht2 by congruence. by apply Ht1.
Qed.

Lemma performs_alone fd k ios k' : performs fd k ios k' -> alone k k'.
Proof.
  intros Hp. induction Hp as [k|k b bs k1 l k2 E _ IH|k p n k1 l k2 E _ IH|k r k1 E _|k p r k1 E _]; [done|..].
  - etrans; [by eapply read_alone|exact IH].
  - etrans; [by eapply write_alone|exact IH].
  - by eapply read_alone.
  - by eapply write_alone.
Qed.
End Alone.

(** ** Recording what the processes exchange *)

(** The connections accepted are numbered; [files]: the descriptors of each
    process that are connections; [logs]: what was exchanged with each. *)
Record Conns := mkConns { files : gmap Z (gmap Z nat); logs : list (list IO) }.

Definition file (pid fd : Z) (c : Conns) : option nat := t ← c.(files) !! pid; t !! fd.
Definition table_of (pid : Z) (c : Conns) : gmap Z nat := default ∅ (c.(files) !! pid).

Definition conns_accept (pid : Z) (r : result Z IoError) (c : Conns) : Conns :=
  match r with
  | Ok fd => mkConns (<[pid := <[fd := length c.(logs)]> (table_of pid c)]> c.(files)) (c.(logs) ++ [[]])
  | Err _ => c
  end.

Definition conns_io (fd : Z) (ios : list IO) (pid : Z) (c : Conns) : Conns :=
  match file pid fd c with Some id => mkConns c.(files) (alter (.++ ios) id c.(logs)) | None => c end.

Definition conns_read (fd pid : Z) (r : result bytes IoError) (c : Conns) : Conns :=
  match r with Ok (b :: bs) => conns_io fd [Received (b :: bs)] pid c | _ => c end.

Definition conns_write (fd : Z) (p : bytes) (pid : Z) (r : result nat IoError) (c : Conns) : Conns :=
  match r with Ok (S n) => conns_io fd [Sent (take (S n) p)] pid c | _ => c end.

Definition conns_close (fd pid : Z) (c : Conns) : Conns :=
  mkConns (<[pid := delete fd (table_of pid c)]> c.(files)) c.(logs).

(** A child has its parent's descriptors. *)
Definition conns_fork (pid child : Z) (c : Conns) : Conns :=
  if is_minus_one child then c else mkConns (<[child := table_of pid c]> c.(files)) c.(logs).

Definition conns_exit (pid : Z) (c : Conns) : Conns := mkConns (delete pid c.(files)) c.(logs).

Record Machine (K : Type) := mkMachine { mk : K; conns : Conns }.
Arguments mkMachine {K} _ _.
Arguments mk {K} _.
Arguments conns {K} _.

Section Machine.
Context {K : Type} `{Processes K}.

Definition machine (k : K) : Machine K := mkMachine k (mkConns ∅ []).

Definition mlift {R} (f : K -> R * K) (g : Z -> R -> Conns -> Conns) (m : Machine K) : R * Machine K :=
  let '(r, k) := f m.(mk) in (r, mkMachine k (g (current m.(mk)) r m.(conns))).

Definition plain {R} (f : K -> R * K) : Machine K -> R * Machine K := mlift f (fun _ _ c => c).

#[export] Instance machine_kernel : Kernel (Machine K) := {
  last_errno m := last_errno m.(mk);
  now m := now m.(mk);
  shutdown m := shutdown m.(mk);
  k_fcntl_getfl fd := plain (k_fcntl_getfl fd);
  k_fcntl_setfl fd fl := plain (k_fcntl_setfl fd fl);
  k_accept4 l := mlift (k_accept4 l) (fun pid r c => if is_minus_one r.1 then c else conns_accept pid (Ok r.1) c);
  k_close fd m := mkMachine (k_close fd m.(mk)) (conns_close fd (current m.(mk)) m.(conns));
  k_epoll_create1 := plain k_epoll_create1;
  k_epoll_ctl ep op fd ev := plain (k_epoll_ctl ep op fd ev);
  k_epoll_wait ep n ms := plain (k_epoll_wait ep n ms);
  k_poll fds ms := plain (k_poll fds ms);
  k_read fd n := mlift (k_read fd n) (conns_read fd);
  k_write fd p := mlift (k_write fd p) (conns_write fd p);
  k_accept l := mlift (k_accept l) conns_accept;
  k_set_read_timeout fd ns := plain (k_set_read_timeout fd ns);
  k_set_write_timeout fd ns := plain (k_set_write_timeout fd ns);
  budget m := budget m.(mk);
}.

#[export] Instance machine_processes : Processes (Machine K) := {
  current m := current m.(mk);
  run_as p m := mkMachine (run_as p m.(mk)) m.(conns);
  k_fork := mlift k_fork conns_fork;
  k_exit m := mkMachine (k_exit m.(mk)) (conns_exit (current m.(mk)) m.(conns));
  k_reap pid m := mkMachine (k_reap pid m.(mk)) m.(conns);
}.

Lemma mlift_inv {R} (f : K -> R * K) g m r m' :
  mlift f g m = (r, m') -> f m.(mk) = (r, m'.(mk)) /\ m'.(conns) = g (current m.(mk)) r m.(conns).
Proof. unfold mlift. destruct (f (mk m)) as [r0 k]. intros E. by simplify_eq. Qed.
End Machine.

#[export] Program Instance machine_laws {K} `{KernelLaws K, !Processes K} : KernelLaws (Machine K) := {
  opened m := opened m.(mk);
  interests m := interests m.(mk);
}.
Next Obligation. intros K ? ? ? l m fd a m' [E _]%mlift_inv Hfd. exact (accept4_new _ _ _ _ _ E Hfd). Qed.
Next Obligation. intros K ? ? ? l m a m' [E _]%mlift_inv. exact (accept4_fail _ _ _ _ E). Qed.
Next Obligation. intros K ? ? ? fd m r m' [E _]%mlift_inv. exact (getfl_frame _ _ _ _ E). Qed.
Next Obligation. intros K ? ? ? fd fl m r m' [E _]%mlift_inv. exact (setfl_frame _ _ _ _ _ E). Qed.
Next Obligation. intros K ? ? ? fd m. exact (close_effect fd m.(mk)). Qed.
Next Obligation. intros K ? ? ? m ep m' [E _]%mlift_inv Hep. exact (create1_new _ _ _ E Hep). Qed.
Next Obligation. intros K ? ? ? m m' [E _]%mlift_inv. exact (create1_fail _ _ E). Qed.
Next Obligation. intros K ? ? ? ep op fd ev m r m' [E _]%mlift_inv. exact (ctl_effect _ _ _ _ _ _ _ E). Qed.
Next Obligation. intros K ? ? ? ep cap ms m r evs m' [E _]%mlift_inv. exact (epoll_wait_frame _ _ _ _ _ _ _ E). Qed.
Next Obligation. intros K ? ? ? fds ms m r revs m' [E _]%mlift_inv. exact (poll_frame _ _ _ _ _ _ E). Qed.
Next Obligation. intros K ? ? ? fd n m r m' [E _]%mlift_inv. exact (read_frame _ _ _ _ _ E). Qed.
Next Obligation. intros K ? ? ? fd n m b bs m' [E _]%mlift_inv. exact (read_budget _ _ _ _ _ _ E). Qed.
Next Obligation. intros K ? ? ? fd bs m r m' [E _]%mlift_inv. exact (write_frame _ _ _ _ _ E). Qed.
Next Obligation. intros K ? ? ? fd b bs m n m' [E _]%mlift_inv. exact (write_some _ _ _ _ _ _ E). Qed.
Next Obligation. intros K ? ? ? l m r m' [E _]%mlift_inv. exact (accept_effect _ _ _ _ E). Qed.
Next Obligation. intros K ? ? ? fd ns m r m' [E _]%mlift_inv. exact (read_timeout_frame _ _ _ _ _ E). Qed.
Next Obligation. intros K ? ? ? fd ns m r m' [E _]%mlift_inv. exact (write_timeout_frame _ _ _ _ _ E). Qed.

#[export] Program Instance machine_process_laws {K} `{HL : ProcessLaws K} : ProcessLaws (Machine K) := {
  table p m := table p m.(mk);
  procs m := procs m.(mk);
}.
Next Obligation. intros K ? ? ? ? m. exact (opened_table m.(mk)). Qed.
Next Obligation. intros K ? ? ? ? p m. exact (run_as_effect p m.(mk)). Qed.
Next Obligation. intros K ? ? ? ? m pid m' [E _]%mlift_inv Hp. exact (fork_effect _ _ _ E Hp). Qed.
Next Obligation. intros K ? ? ? ? m m' [E _]%mlift_inv. exact (fork_fail _ _ E). Qed.
Next Obligation. intros K ? ? ? ? m. exact (exit_effect m.(mk)). Qed.
Next Obligation. intros K ? ? ? ? pid m. exact (reap_effect pid m.(mk)). Qed.
Next Obligation. intros K ? ? ? ? fd n m r m' [E _]%mlift_inv. exact (read_alone _ _ _ _ _ E). Qed.
Next Obligation. intros K ? ? ? ? fd bs m r m' [E _]%mlift_inv. exact (write_alone _ _ _ _ _ E). Qed.
Next Obligation. intros K ? ? ? ? l m r m' [E _]%mlift_inv. exact (accept_alone _ _ _ _ E). Qed.
Next Obligation. intros K ? ? ? ? fd m. exact (close_alone fd m.(mk)). Qed.
Next Obligation. intros K ? ? ? ? fd ns m r m' [E _]%mlift_inv. exact (read_timeout_alone _ _ _ _ _ E). Qed.
Next Obligation. intros K ? ? ? ? fd ns m r m' [E _]%mlift_inv. exact (write_timeout_alone _ _ _ _ _ E). Qed.

(** ** What the calls record *)

Section Records.
Context {K : Type} `{ProcessLaws K}.

Lemma conns_io_nil fd pid c : conns_io fd [] pid c = c.
Proof.
  unfold conns_io. destruct (file pid fd c) as [id|]; [|done]. destruct c as [f l]. cbn. f_equal.
  apply list_eq. intros i. destruct (decide (i = id)) as [->|]; [rewrite list_lookup_alter_eq|by rewrite list_lookup_alter_ne].
  destruct (l !! id); cbn; by rewrite ?app_nil_r.
Qed.

Lemma conns_io_app fd l1 l2 pid c : conns_io fd (l1 ++ l2) pid c = conns_io fd l2 pid (conns_io fd l1 pid c).
Proof.
  unfold conns_io at 1 3. destruct (file pid fd c) as [id|] eqn:E; unfold conns_io, file in *; cbn [files]; rewrite E; [|done].
  cbn [logs]. f_equal. apply list_eq. intros i.
  destruct (decide (i = id)) as [->|]; [rewrite !list_lookup_alter_eq|by rewrite !list_lookup_alter_ne].
  destruct (logs c !! id); cbn; by rewrite ?app_assoc.
Qed.

Lemma performs_conns fd (m m' : Machine K) ios :
  performs fd m ios m' -> m'.(conns) = conns_io fd ios (current m) m.(conns).
Proof.
  intros Hp. induction Hp as [m|m b bs m1 l m2 E _ IH|m p n m1 l m2 E _ IH|m r m1 E Hr|m p r m1 E Hr].
  - by rewrite conns_io_nil.
  - pose proof (read_alone _ _ _ _ _ E) as (_ & Hc & _). apply mlift_inv in E as [_ E].
    change (conns m1 = conns_io fd [Received (b :: bs)] (current m) (conns m)) in E.
    by rewrite IH, E, Hc, <-conns_io_app.
  - pose proof (write_alone _ _ _ _ _ E) as (_ & Hc & _). apply mlift_inv in E as [_ E].
    change (conns m1 = conns_io fd [Sent (take (S n) p)] (current m) (conns m)) in E.
    by rewrite IH, E, Hc, <-conns_io_app.
  - apply mlift_inv in E as [_ ->]. rewrite conns_io_nil. destruct r as [[|b bs]|e]; try done. by destruct (Hr b bs).
  - apply mlift_inv in E as [_ ->]. rewrite conns_io_nil. destruct r as [[|n]|e]; try done. by destruct (Hr n).
Qed.

(** What is recorded of a connection. *)
Definition log_of (pid fd : Z) (c : Conns) : option (list IO) := id ← file pid fd c; c.(logs) !! id.

Lemma conns_io_files fd ios pid c : (conns_io fd ios pid c).(files) = c.(files).
Proof. unfold conns_io. by destruct (file pid fd c). Qed.

Lemma conns_io_log fd ios pid c id h :
  file pid fd c = Some id -> c.(logs) !! id = Some h ->
  (conns_io fd ios pid c).(logs) !! id = Some (h ++ ios) /\
  (forall id', id' <> id -> (conns_io fd ios pid c).(logs) !! id' = c.(logs) !! id').
Proof.
  intros Hf Hl. unfold conns_io. rewrite Hf. cbn [logs]. rewrite list_lookup_alter_eq, Hl.
  split; [done|]. intros id' Hne. by rewrite list_lookup_alter_ne.
Qed.

(** Closing a descriptor leaves the others, and what was recorded. *)
Lemma conns_close_view fd pid c q fd' :
  q <> pid \/ fd' <> fd ->
  file q fd' (conns_close fd pid c) = file q fd' c /\ log_of q fd' (conns_close fd pid c) = log_of q fd' c.
Proof.
  intros Hne. assert (file q fd' (conns_close fd pid c) = file q fd' c) as Hf; [|by unfold log_of; rewrite Hf].
  unfold file, conns_close, table_of. cbn [files]. destruct (decide (q = pid)) as [->|Hq].
  - rewrite lookup_insert_eq. cbn [mbind option_bind]. rewrite lookup_delete_ne by naive_solver.
    destruct (files c !! pid); [done|apply lookup_empty].
  - by rewrite lookup_insert_ne.
Qed.

Lemma conns_exit_view pid c q fd :
  q <> pid -> file q fd (conns_exit pid c) = file q fd c /\ log_of q fd (conns_exit pid c) = log_of q fd c.
Proof. intros Hne. unfold log_of, file, conns_exit. cbn [files logs]. by rewrite lookup_delete_ne. Qed.

Lemma conns_accept_view pid fd c q fd' :
  (q <> pid \/ fd' <> fd) -> (forall id, file q fd' c = Some id -> id < length c.(logs)) ->
  file q fd' (conns_accept pid (Ok fd) c) = file q fd' c /\ log_of q fd' (conns_accept pid (Ok fd) c) = log_of q fd' c.
Proof.
  intros Hne Hlt. assert (file q fd' (conns_accept pid (Ok fd) c) = file q fd' c) as Hf.
  { unfold file, conns_accept, table_of. cbn [files]. destruct (decide (q = pid)) as [->|Hq].
    - rewrite lookup_insert_eq. cbn [mbind option_bind]. rewrite lookup_insert_ne by naive_solver.
      destruct (files c !! pid); [done|apply lookup_empty].
    - by rewrite lookup_insert_ne. }
  split; [done|]. unfold log_of. rewrite Hf. destruct (file q fd' c) as [id|]; [|done].
  cbn. apply lookup_app_l. by apply Hlt.
Qed.

Lemma conns_accept_new pid fd c :
  file pid fd (conns_accept pid (Ok fd) c) = Some (length c.(logs)) /\
  log_of pid fd (conns_accept pid (Ok fd) c) = Some [].
Proof.
  assert (file pid fd (conns_accept pid (Ok fd) c) = Some (length c.(logs))) as Hf.
  { unfold file, conns_accept. cbn [files]. rewrite lookup_insert_eq. cbn. by rewrite lookup_insert_eq. }
  split; [done|]. unfold log_of. rewrite Hf. cbn. by rewrite lookup_app_r, Nat.sub_diag.
Qed.

Lemma conns_fork_view pid child c q fd :
  q <> child -> file q fd (conns_fork pid child c) = file q fd c /\ log_of q fd (conns_fork pid child c) = log_of q fd c.
Proof.
  intros Hne. unfold conns_fork. destruct (is_minus_one child); [done|]. unfold log_of, file. cbn [files logs].
  by rewrite lookup_insert_ne.
Qed.

Lemma conns_fork_child pid child c fd :
  child <> (-1)%Z -> file child fd (conns_fork pid child c) = file pid fd c /\
  log_of child fd (conns_fork pid child c) = log_of pid fd c.
Proof.
  intros Hne. unfold conns_fork, is_minus_one. rewrite (proj2 (Z.eqb_neq _ _)) by done.
  unfold log_of, file, table_of. cbn [files logs]. rewrite lookup_insert_eq. cbn [mbind option_bind].
  destruct (files c !! pid) as [t|]; [done|]. change (default ∅ None) with (∅ : gmap Z nat). by rewrite lookup_empty.
Qed.
End Records.
