(* ===== verification/EpollProps.v ===== *)
(** * Properties of the epoll loops *)

From S2P Require Import Prelude RustStr Http Response Request RequestSpec RequestRefine Router Asset App Conn ConnSpec ConnProps Site Syscall Socket SysPoll ConnTable EventIo EventIoProps Epoll EpollInv Sim.

Section Props.
Context {K H : Type} `{KernelLaws K} `{HashOrder} `{Handlers H}.

(** ** Rounds *)

Lemma iteration_spec ctx base r (st : Loop K H) :
  inv ctx base r st -> exists st' r', iteration ctx st r = Ret (st', r') /\
    inv ctx base r' st' /\ same_site st.(world).(wapp) st'.(world).(wapp) /\
    foreign ctx base (kernel st) (kernel st').
Proof.
  intros Hi. unfold iteration.
  destruct (Epoll_wait (epoll ctx) MAX_EVENTS (Some TICK) (kernel st)) as [re k] eqn:Ew.
  apply Epoll_wait_frame in Ew as [Ho Hin].
  assert (inv ctx base r (set_kernel k st)) as Hi1 by (apply inv_kernel; try done; by rewrite Hin).
  assert (foreign ctx base (kernel st) k) as Hf1 by (apply foreign_same; by rewrite Hin).
  destruct re as [evs|e]; [|by eexists _, _].
  destruct (on_events_spec ctx base r evs _ Hi1) as (st2 & -> & (Hi2 & _ & Hs2 & Hf2)).
  cbn [mbind outcome_bind]. destruct (apply_backpressure ctx st2 r) as [st3 r3] eqn:Eb.
  destruct (apply_backpressure_inv ctx base r st2 st3 r3 Hi2 Eb) as (Hi3 & _ & _ & Ha & Hf3 & _).
  destruct (sweep_spec ctx base r3 st3 Hi3) as [(Hi4 & _ & Hs4 & Hf4) _].
  exists (sweep_expired ctx st3), r3. split_and!; [done|done| |].
  - rewrite Ha in Hs4. by eapply same_site_trans.
  - eapply foreign_trans; [exact Hf1|]. eapply foreign_trans; [exact Hf2|]. by eapply foreign_trans.
Qed.

Lemma iterations_spec ctx base n r (st : Loop K H) :
  inv ctx base r st -> exists st' r', iterations ctx n st r = Ret (st', r') /\ inv ctx base r' st'.
Proof.
  revert st r. induction n as [|n IH]; intros st r Hi; [by exists st, r|]. cbn [iterations].
  destruct (shutdown _); [by exists st, r|].
  destruct (iteration_spec ctx base r st Hi) as (st1 & r1 & -> & Hi1 & _).
  cbn [mbind outcome_bind]. by apply IH.
Qed.

Lemma epoll_setup_spec cfg trigger drain l (w : World K H) r w' :
  l ∈ opened w.(kern) -> all_fit w.(wapp) -> epoll_setup cfg trigger drain l w = (r, w') ->
  match r with
  | Err _ => opened w'.(kern) = opened w.(kern) ∖ {[l]}
  | Ok (ctx, st) => ctx.(epoll) ∉ opened w.(kern) /\ ctx.(Epoll.cfg) = cfg /\
      inv ctx (opened w.(kern) ∪ {[ctx.(epoll)]}) true st
  end.
Proof.
  intros Hl Hfit. unfold epoll_setup.
  destruct (set_nonblocking l (kern w)) as [[u|e] k1] eqn:E1;
    apply set_nonblocking_frame in E1 as (Ho1 & Hi1 & _).
  2: { intros E. simplify_eq/=. destruct (close_effect l k1) as [-> _]. by rewrite Ho1. }
  unfold Epoll_new, syscall, cvt, is_minus_one.
  destruct (k_epoll_create1 k1) as [ep k2] eqn:E2. cbn [fst snd].
  destruct (Z.eqb_spec ep (-1)) as [->|Hep].
  { apply create1_fail in E2 as [Ho2 _]. intros E. simplify_eq/=.
    destruct (close_effect l k2) as [-> _]. by rewrite Ho2, Ho1. }
  apply create1_new in E2 as (Hnew & Ho2 & Hi2 & _); [|done].
  destruct (Epoll_add ep l Read trigger k2) as [[u'|e] k3] eqn:E3;
    (apply ctl_spec in E3 as (Ho3 & _ & _ & Hi3); [|done]); intros E; simplify_eq/=.
  - split; [by rewrite Ho1 in Hnew|]. split; [done|].
    split; cbn [wants conns slots ConnTable_new world wapp listener_fd epoll Epoll.cfg Epoll.trigger].
    + by rewrite !dom_empty_L.
    + apply map_Forall_empty.
    + cbn. rewrite Ho3, Ho2, Ho1, dom_empty_L. set_solver.
    + rewrite dom_empty_L. set_solver.
    + set_solver.
    + set_solver.
    + intros fd. cbn. rewrite Hi3, Hi2. destruct (decide (fd = l)) as [->|Hne].
      * by rewrite lookup_insert_eq.
      * by rewrite lookup_insert_ne, !lookup_empty.
    + unfold ConnTable_len. cbn. rewrite map_size_empty. lia.
    + done.
  - destruct (close_effect l (k_close ep k3)) as [-> _]. destruct (close_effect ep k3) as [-> _].
    rewrite Ho3, Ho2, Ho1 in *. set_solver.
Qed.

(** C21. Invariant (both triggers): however long the loop runs and whatever the
    kernel answers, [run_epoll] never panics nor sticks in a round, and then
    the connection table, the interest map and the kernel's registrations
    agree, every interest is the direction of its connection, the descriptors
    open are exactly those there were, the epoll instance and the
    connections, and the cap is respected.  When it fails to start, the
    listener is closed and nothing else is left open. *)
Theorem run_epoll_invariant n trigger drain cfg l (w : World K H)
    (Hl : l ∈ opened w.(kern)) (Hfit : all_fit w.(wapp)) :
  match run_epoll n trigger drain cfg l w with
  | Ret (Err _) => exists ctx_err w', epoll_setup cfg trigger drain l w = (Err ctx_err, w') /\
      opened w'.(kern) = opened w.(kern) ∖ {[l]}
  | Ret (Ok (st, r)) => exists ctx, ctx.(epoll) ∉ opened w.(kern) /\
      inv ctx (opened w.(kern) ∪ {[ctx.(epoll)]}) r st /\
      (N.of_nat (ConnTable_len st.(conns)) <= cfg.(max_connections))%N
  | Panic | Diverge => False
  end.
Proof.
  unfold run_epoll. destruct (epoll_setup cfg trigger drain l w) as [r0 w'] eqn:Es.
  pose proof (epoll_setup_spec _ _ _ _ _ _ _ Hl Hfit Es) as Hs. destruct r0 as [[ctx st]|e].
  - destruct Hs as (Hnew & Hcfg & Hi).
    destruct (iterations_spec ctx _ n true st Hi) as (st' & r' & -> & Hi'). cbn.
    exists ctx. split_and!; [done|done|]. rewrite <-Hcfg. apply Hi'.
  - by exists e, w'.
Qed.

(** Timeouts: the sweep at the end of a round drops exactly the
    connections whose deadline has passed: they leave the table, the
    interests and the kernel's registrations and their descriptors are
    closed; all others are untouched. *)
Theorem sweep_exact ctx base r (st : Loop K H) (Hi : inv ctx base r st) :
  let alive := filter (fun '(_, s) => is_expired s.(conn) (now (kernel st)) = false) st.(conns).(slots) in
  (sweep_expired ctx st).(conns).(slots) = alive /\
  dom (sweep_expired ctx st).(wants) = dom alive /\
  opened (kernel (sweep_expired ctx st)) = base ∪ dom alive /\
  forall fd, fd <> ctx.(listener_fd) -> fd ∉ dom alive ->
    interests (kernel (sweep_expired ctx st)) ctx.(epoll) !! fd = None.
Proof.
  intros alive. destruct (sweep_spec ctx base r st Hi) as [(Hi' & _) Hs]. fold alive in Hs.
  pose proof (inv_wants _ _ _ _ Hi') as Hw. rewrite Hs in Hw.
  split_and!; [done|done| |].
  - by rewrite (inv_opened _ _ _ _ Hi'), Hs.
  - intros fd Hl Hd. rewrite (inv_epoll _ _ _ _ Hi'), decide_False by done.
    rewrite <-Hw in Hd. apply not_elem_of_dom in Hd. by rewrite Hd.
Qed.

(** Backpressure: after the shedding step the listener is registered only
    below the connection cap, and at the cap it is not registered. *)
Theorem listener_shed_at_cap ctx base r (st : Loop K H) (Hi : inv ctx base r st) :
  let '(st', r') := apply_backpressure ctx st r in
  st'.(conns) = st.(conns) /\
  (interests (kernel st') ctx.(epoll) !! ctx.(listener_fd) = None <-> r' = false) /\
  (ctx.(Epoll.cfg).(max_connections) <= N.of_nat (ConnTable_len st.(conns)) -> r' = false)%N.
Proof.
  destruct (apply_backpressure ctx st r) as [st' r'] eqn:E.
  destruct (apply_backpressure_inv ctx base r st st' r' Hi E) as (Hi' & Hc & _ & _ & _ & Hf & Ht).
  split_and!; [done| |].
  - rewrite (inv_epoll _ _ _ _ Hi'), decide_True by done. by destruct r'.
  - intros Hcap. apply not_true_is_false. intros ->.
    assert (at_cap (Epoll.cfg ctx) (conns st) = false) as Hn by (destruct r; auto).
    unfold at_cap in Hn. apply N.leb_gt in Hn. lia.
Qed.
(** Liveness gap: when an accept stops at the cap and a connection of the
    same batch of events then ends, the round finishes below the cap with the
    listener still registered and makes no call on the listener again: the
    shedding step neither removes nor re-adds it.  Under edge triggering the
    connections left in the backlog are not reported until another arrives. *)
Theorem accept_stopped_at_cap_not_rearmed ctx base (st st1 : Loop K H) fd s
    (Hi : inv ctx base true st) (Hacc : accept_ready ctx st = Ret st1)
    (Hcap : at_cap ctx.(Epoll.cfg) st1.(conns) = true)
    (Hs : st1.(conns).(slots) !! fd = Some s) :
  let st2 := drop_conn ctx fd st1 in
  on_events ctx [mkEvent ctx.(listener_fd) true false false false;
                 mkEvent fd false false true false] st = Ret st2 /\
  at_cap ctx.(Epoll.cfg) st2.(conns) = false /\
  apply_backpressure ctx st2 true = (st2, true).
Proof.
  intros st2. destruct (accept_loop_spec ctx base _ _ _ Hi (Nat.lt_succ_diag_r _))
    as (st1' & Hacc' & Hi1 & _). unfold accept_ready in Hacc. rewrite Hacc in Hacc'.
  injection Hacc' as <-. pose proof (inv_not_listener _ _ _ _ _ _ Hi1 Hs) as Hl.
  assert (at_cap ctx.(Epoll.cfg) st2.(conns) = false) as Hbelow.
  { unfold at_cap, ConnTable_len in *. subst st2. destruct (drop_conn_slots ctx fd st1) as (-> & _).
    apply N.leb_gt. pose proof (inv_cap _ _ _ _ Hi1) as Hle. unfold ConnTable_len in Hle.
    rewrite (map_size_delete_Some _ _ (mk_is_Some _ _ Hs)).
    assert (size st1.(conns).(slots) <> 0); [|lia].
    intros Hz%map_size_empty_inv. by rewrite Hz, lookup_empty in Hs. }
  split_and!; [|done|].
  - cbn [on_events]. unfold on_event, accept_ready. cbn [ev_fd readable error hup orb].
    rewrite decide_True, Hacc by done. cbn [mbind outcome_bind]. by rewrite decide_False.
  - unfold apply_backpressure. by rewrite Hbelow.
Qed.
End Props.

(** ** A run *)

Definition sample_config : ServerConfig :=
  mkConfig (SocketAddr_from (127, 0, 0, 1) 8080)%N 1 (secs 30) (secs 30) 2 (B "assets").

(** Three clients connect to the listener 3; then the first, descriptor 5, sends
    a request. *)
Definition sim_server : Sim :=
  mkSim 0 0 {[3%Z]} 3 [(5%Z, get_root)] [] ∅
    [[(EPOLLIN, fd_as_u64 3)]; [(EPOLLIN, fd_as_u64 5)]] ∅.

Definition sim_world : World Sim Handler := mkWorld sim_server sample_app.

Definition sample_ctx : AcceptCtx := mkCtx 4 3 sample_config Edge true.

Definition sample_loop : Loop Sim Handler :=
  match epoll_setup sample_config Edge true 3 sim_world with
  | (Ok (_, st), _) => st
  | (Err _, _) => mkLoop sim_world ConnTable_new ∅
  end.

Lemma sim_listener : 3%Z ∈ opened sim_world.(kern).
Proof. change (3%Z ∈ ({[3%Z]} : gset Z)). by apply elem_of_singleton. Qed.

Lemma sample_inv : inv sample_ctx (opened sim_server ∪ {[4%Z]}) true sample_loop.
Proof.
  pose proof (epoll_setup_spec sample_config Edge true 3 sim_world
    (epoll_setup sample_config Edge true 3 sim_world).1
    (epoll_setup sample_config Edge true 3 sim_world).2) as Hs.
  destruct Hs as (_ & _ & Hi); [exact sim_listener|exact sample_all_fit|reflexivity|exact Hi].
Qed.

(** Two clients are connected, at the cap, and the request is answered. *)
Definition served (o : outcome (result (Loop Sim Handler * bool) IoError)) : bool :=
  match o with
  | Ret (Ok (st, r)) => (ConnTable_len st.(conns) =? 2) && negb r &&
      bool_decide ((kernel st).(s_out) = [(5%Z, answer sample_app sample_request)])
  | _ => false
  end.

Lemma run_epoll_invariant_witness :
  exists st r ctx, run_epoll 5 Edge true sample_config 3 sim_world = Ret (Ok (st, r)) /\
    served (Ret (Ok (st, r))) = true /\ inv ctx (opened sim_server ∪ {[ctx.(epoll)]}) r st.
Proof.
  assert (served (run_epoll 5 Edge true sample_config 3 sim_world) = true) as Hok by by vm_compute.
  pose proof (run_epoll_invariant 5 Edge true sample_config 3 sim_world sim_listener sample_all_fit)
    as Hrun.
  destruct (run_epoll 5 Edge true sample_config 3 sim_world) as [[[st r]|e]| |];
    [|discriminate Hok|contradiction|contradiction].
  destruct Hrun as (ctx & _ & Hi & _). exists st, r, ctx. split_and!; [done|exact Hok|exact Hi].
Defined.

(** After two clients were accepted, 40 s later. *)
Definition late_loop : Loop Sim Handler :=
  match iterations sample_ctx 1 sample_loop true with
  | Ret (st, _) => set_kernel (sim_tick (secs 40) [] (kernel st)) st
  | _ => sample_loop
  end.

Lemma late_inv : inv sample_ctx (opened sim_server ∪ {[4%Z]}) false late_loop.
Proof.
  destruct (iterations_spec sample_ctx _ 1 true _ sample_inv) as (st & r & E & Hi).
  unfold late_loop. rewrite E. assert (r = false) as ->.
  { assert (match iterations sample_ctx 1 sample_loop true with Ret (_, r) => r | _ => true end = false)
      as Hr by by vm_compute. by rewrite E in Hr. }
  by apply inv_kernel.
Qed.

Lemma sweep_exact_witness :
  ConnTable_len late_loop.(conns) = 2 /\
  (sweep_expired sample_ctx late_loop).(conns).(slots) =
    filter (fun '(_, s) => is_expired s.(conn) (now (kernel late_loop)) = false)
      late_loop.(conns).(slots) /\
  ConnTable_len (sweep_expired sample_ctx late_loop).(conns) = 0.
Proof.
  split; [by vm_compute|].
  split; [exact (proj1 (sweep_exact sample_ctx _ false late_loop late_inv))|by vm_compute].
Defined.

Lemma listener_shed_at_cap_witness :
  let '(st', r') := apply_backpressure sample_ctx sample_loop true in
  interests (kernel st') 4%Z !! 3%Z = None <-> r' = false.
Proof.
  pose proof (listener_shed_at_cap sample_ctx _ true sample_loop sample_inv) as Hs.
  destruct (apply_backpressure sample_ctx sample_loop true) as [st' r'].
  exact (proj1 (proj2 Hs)).
Defined.

Lemma accept_stopped_at_cap_not_rearmed_witness :
  exists st1 st2, accept_ready sample_ctx sample_loop = Ret st1 /\
    on_events sample_ctx [mkEvent 3 true false false false; mkEvent 5 false false true false]
      sample_loop = Ret st2 /\
    at_cap sample_config st2.(conns) = false /\ apply_backpressure sample_ctx st2 true = (st2, true).
Proof.
  destruct (accept_ready sample_ctx sample_loop) as [st1| |] eqn:E.
  2, 3: exfalso; assert (match accept_ready sample_ctx sample_loop with Ret _ => true | _ => false end
    = true) as Hr by (by vm_compute); by rewrite E in Hr.
  assert (match accept_ready sample_ctx sample_loop with
          | Ret st => at_cap sample_config st.(conns) && bool_decide (is_Some (st.(conns).(slots) !! 5%Z))
          | _ => false end = true) as Hr by (by vm_compute).
  rewrite E in Hr. apply andb_true_iff in Hr as [Hcap Hs]. apply bool_decide_eq_true in Hs as [s Hs].
  exists st1, (drop_conn sample_ctx 5 st1). split; [done|].
  exact (accept_stopped_at_cap_not_rearmed sample_ctx _ sample_loop st1 5 s sample_inv E Hcap Hs).
Defined.
