(* ===== verification/Reactor.v ===== *)
(** * The reactor

    server/src/reactor.rs: the epoll loop packaged with its state, which
    [event-loop] runs once and [multireactor] once per thread; and
    server/src/models/event_loop.rs. *)

From S2P Require Import Prelude RustStr Http Response Request App Conn ConnSpec Syscall Socket SysPoll ConnTable EventIo.

Definition TICK : N := millis 100.
Definition MAX_EVENTS : nat := N.to_nat 1024.

(** The fields with a state; [read_buf], [events], [label] and [verbose] have
    none that outlives a call. *)
Record Reactor := mkReactor {
  epoll : Z;
  conns : ConnTable;
  listener : Z;
  cfg : ServerConfig;
  wants : gmap Z Interest;
  listener_registered : bool;
}.

Definition set_conns (t : ConnTable) (r : Reactor) : Reactor :=
  mkReactor r.(epoll) t r.(listener) r.(cfg) r.(wants) r.(listener_registered).
Definition set_wants (m : gmap Z Interest) (r : Reactor) : Reactor :=
  mkReactor r.(epoll) r.(conns) r.(listener) r.(cfg) m r.(listener_registered).
Definition set_registered (b : bool) (r : Reactor) : Reactor :=
  mkReactor r.(epoll) r.(conns) r.(listener) r.(cfg) r.(wants) b.

Definition matches_interest (a : option Interest) (b : Interest) : bool :=
  match a, b with
  | Some Read, Read | Some Write, Write | Some ReadWrite, ReadWrite => true
  | _, _ => false
  end.

Section Reactor.
Context {K H : Type} `{Kernel K} `{HashOrder} `{Handlers H}.

(** [&mut self] and the world. *)
Abbreviation RW := (Reactor * World K H)%type.

(** [Reactor::new]: the listener and the epoll descriptor are owned, an error
    closes them. *)
Definition Reactor_new (listener : Z) (cfg : ServerConfig) (w : World K H)
    : result Reactor IoError * World K H :=
  match set_nonblocking listener w.(kern) with
  | (Err e, k) => (Err e, set_kern (k_close listener k) w)
  | (Ok _, k) =>
    match Epoll_new k with
    | (Err e, k) => (Err e, set_kern (k_close listener k) w)
    | (Ok epoll, k) =>
      match Epoll_add epoll listener Read Edge k with
      | (Err e, k) => (Err e, set_kern (k_close listener (k_close epoll k)) w)
      | (Ok _, k) => (Ok (mkReactor epoll ConnTable_new listener cfg ∅ true), set_kern k w)
      end
    end
  end.

Definition drop_conn (fd : Z) (rw : RW) : RW :=
  let '(r, w) := rw in
  let k := (Epoll_delete r.(epoll) fd w.(kern)).2 in
  let r := set_wants (delete fd r.(wants)) r in
  let '(t, k) := ConnTable_remove r.(conns) fd k in
  (set_conns t r, set_kern k w).

Fixpoint accept_loop (fuel : nat) (rw : RW) : outcome RW :=
  match fuel with
  | 0 => Diverge
  | S fuel =>
    let '(r, w) := rw in
    if (r.(cfg).(max_connections) <=? N.of_nat (ConnTable_len r.(conns)))%N then Ret (r, w) else
    match accept_nonblocking r.(listener) w.(kern) with
    | (Ok (Some (fd, _)), k) =>
      match set_nonblocking fd k with
      | (Err _, k) => accept_loop fuel (r, set_kern (k_close fd k) w)
      | (Ok _, k) =>
        let conn := Connection_new (now k) r.(cfg).(read_timeout) in
        let '(fd, t, k) := ConnTable_insert r.(conns) fd conn k in
        match Epoll_add r.(epoll) fd Read Edge k with
        | (Err _, k) =>
          let '(t, k) := ConnTable_remove t fd k in
          accept_loop fuel (set_conns t r, set_kern k w)
        | (Ok _, k) =>
          let r := set_wants (<[fd := Read]> r.(wants)) (set_conns t r) in
          accept_loop fuel (r, w_inc_connections (set_kern k w))
        end
      end
    | (Ok None, k) => Ret (r, set_kern k w)
    | (Err _, k) => Ret (r, set_kern k w)
    end
  end.

Definition accept_ready (rw : RW) : outcome RW := accept_loop (S (budget rw.2.(kern))) rw.

Definition drive (fd : Z) (rw : RW) : outcome RW :=
  let '(r, w) := rw in
  match ConnTable_get r.(conns) fd with
  | None => Ret (r, w)
  | Some slot =>
    '(w, c, action) ← drive_io true slot.(stream) w slot.(conn);
    let r := set_conns (ConnTable_put r.(conns) fd (mkSlot slot.(stream) c)) r in
    let update next :=
      if negb (matches_interest (r.(wants) !! fd) next) then
        match Epoll_modify r.(epoll) fd next Edge w.(kern) with
        | (Err _, k) => drop_conn fd (r, set_kern k w)
        | (Ok _, k) => (set_wants (<[fd := next]> r.(wants)) r, set_kern k w)
        end
      else (r, w) in
    match action with
    | WantRead => Ret (update Read)
    | WantWrite => Ret (update Write)
    | Close => Ret (drop_conn fd (r, w))
    end
  end.

Definition apply_backpressure (rw : RW) : RW :=
  let '(r, w) := rw in
  let len := N.of_nat (ConnTable_len r.(conns)) in
  if r.(listener_registered) && (r.(cfg).(max_connections) <=? len)%N then
    (set_registered false r, set_kern (Epoll_delete r.(epoll) r.(listener) w.(kern)).2 w)
  else if negb r.(listener_registered) && (len <? r.(cfg).(max_connections))%N then
    match Epoll_add r.(epoll) r.(listener) Read Edge w.(kern) with
    | (Ok _, k) => (set_registered true r, set_kern k w)
    | (Err _, k) => (r, set_kern k w)
    end
  else (r, w).

Definition sweep_expired (rw : RW) : RW :=
  let '(r, w) := rw in
  let t := now w.(kern) in
  let expired := (List.filter (fun '(_, c) => is_expired c t) (ConnTable_iter r.(conns))).*1 in
  foldl (fun rw fd => drop_conn fd rw) (r, w) expired.

(** The body of the [for] in [run]. *)
Definition on_ready (ev : Event) (rw : RW) : outcome RW :=
  if decide (ev.(ev_fd) = rw.1.(listener)) then
    if ev.(readable) then accept_ready rw else Ret rw
  else if ev.(error) || ev.(hup) then Ret (drop_conn ev.(ev_fd) rw)
  else if ev.(readable) || ev.(writable) then drive ev.(ev_fd) rw
  else Ret rw.

Fixpoint on_all (evs : list Event) (rw : RW) : outcome RW :=
  match evs with
  | [] => Ret rw
  | ev :: evs => rw ← on_ready ev rw; on_all evs rw
  end.

(** At most [n] rounds of [run]. *)
Fixpoint run (n : nat) (rw : RW) : outcome RW :=
  match n with
  | 0 => Ret rw
  | S n =>
    let '(r, w) := rw in
    if shutdown w.(kern) then Ret (r, w) else
    match Epoll_wait r.(epoll) MAX_EVENTS (Some TICK) w.(kern) with
    | (Err _, k) => run n (r, set_kern k w)
    | (Ok evs, k) =>
      rw ← on_all evs (r, set_kern k w);
      run n (sweep_expired (apply_backpressure rw))
    end
  end.

(** [EventLoop::serve], from the bound listener on, for [n] rounds. *)
Definition EventLoop_serve (n : nat) (cfg : ServerConfig) (listener : Z) (w : World K H)
    : outcome (result RW IoError) :=
  match Reactor_new listener cfg w with
  | (Err e, _) => Ret (Err e)
  | (Ok r, w) => rw ← run n (r, w); Ret (Ok rw)
  end.
End Reactor.
