(* ===== verification/ReactorProps.v ===== *)
(** * The reactor is the edge-triggered epoll loop *)

From S2P Require Import Prelude RustStr Http Response Request RequestSpec RequestRefine Router Asset App Conn ConnSpec ConnProps Site Syscall Socket SysPoll ConnTable EventIo EventIoProps Reactor Epoll EpollInv EpollProps Sim.

Section Equivalence.
Context {K H : Type} `{Kernel K} `{HashOrder} `{Handlers H}.

(** A reactor, from the locals of [run_epoll]. *)
Definition reactor_of (ctx : AcceptCtx) (st : Loop K H) (registered : bool)
    : Reactor.Reactor * World K H :=
  (Reactor.mkReactor ctx.(epoll) st.(conns) ctx.(listener_fd) ctx.(Epoll.cfg) st.(wants) registered,
   st.(world)).

Definition edge (ctx : AcceptCtx) : Prop := ctx.(trigger) = Edge /\ ctx.(drain) = true.

Section Ctx.
Context (ctx : AcceptCtx) (Hedge : edge ctx).

Lemma drop_conn_equiv fd st r :
  Reactor.drop_conn fd (reactor_of ctx st r) = reactor_of ctx (drop_conn ctx fd st) r.
Proof. done. Qed.

Lemma accept_loop_equiv fuel st r :
  Reactor.accept_loop fuel (reactor_of ctx st r) =
  (fun st => reactor_of ctx st r) <$> accept_loop ctx fuel st.
Proof.
  destruct Hedge as [Ht Hd]. revert st. induction fuel as [|fuel IH]; intros st; [done|].
  cbn [Reactor.accept_loop accept_loop reactor_of]. rewrite Ht, Hd. cbn [negb].
  change (Reactor.conns _) with st.(conns). change (Reactor.cfg _) with ctx.(Epoll.cfg).
  change (Reactor.listener _) with ctx.(listener_fd). change (Reactor.epoll _) with ctx.(epoll).
  fold (at_cap ctx.(Epoll.cfg) st.(conns)). destruct (at_cap _ _); [done|].
  change (kern (world st)) with (kernel st).
  destruct (accept_nonblocking _ _) as [[[[fd a]|]|e] k]; [|done..].
  destruct (set_nonblocking fd k) as [[u|e] k2]; [|by rewrite <-IH].
  destruct (ConnTable_insert _ fd _ k2) as [[fd' t] k3].
  destruct (Epoll_add _ fd' Read Edge k3) as [[u'|e] k4]; [by rewrite <-IH|].
  destruct (ConnTable_remove t fd' k4). by rewrite <-IH.
Qed.

Lemma drive_equiv fd st r :
  Reactor.drive fd (reactor_of ctx st r) = (fun st => reactor_of ctx st r) <$> drive ctx fd st.
Proof.
  destruct Hedge as [Ht Hd]. unfold Reactor.drive, drive. cbn [reactor_of].
  change (Reactor.conns _) with st.(conns). destruct (ConnTable_get _ fd) as [s|]; [|done].
  rewrite Ht, Hd. destruct (drive_io true _ _ _) as [[[w c] act]| |]; [|done..].
  cbn [mbind outcome_bind]. destruct act; cbn [fmap outcome_fmap]; [| |done]; f_equal;
    change (Reactor.matches_interest) with matches_interest;
    change (Reactor.wants _) with st.(wants); cbn [wants];
    destruct (matches_interest _ _); try done; cbn [negb];
    change (Reactor.epoll _) with ctx.(epoll); change (kernel (mkLoop w _ _)) with w.(kern);
    match goal with |- context [Epoll_modify _ fd ?i Edge _] =>
      by destruct (Epoll_modify ctx.(epoll) fd i Edge w.(kern)) as [[u|e] k] end.
Qed.

Lemma on_all_equiv evs st r :
  Reactor.on_all evs (reactor_of ctx st r) = (fun st => reactor_of ctx st r) <$> on_events ctx evs st.
Proof.
  revert st. induction evs as [|ev evs IH]; intros st; [done|].
  cbn [Reactor.on_all on_events].
  assert (Reactor.on_ready ev (reactor_of ctx st r) =
    (fun st => reactor_of ctx st r) <$> on_event ctx ev st) as ->.
  { unfold Reactor.on_ready, on_event. cbn [fst reactor_of Reactor.listener]. case_decide.
    - destruct (readable ev); [|done]. apply accept_loop_equiv.
    - destruct (_ || _); [done|]. destruct (_ || _); [apply drive_equiv|done]. }
  destruct (on_event ctx ev st); [|done..]. apply IH.
Qed.

Lemma backpressure_equiv st r :
  Reactor.apply_backpressure (reactor_of ctx st r) =
  reactor_of ctx (apply_backpressure ctx st r).1 (apply_backpressure ctx st r).2.
Proof.
  destruct Hedge as [Ht _]. unfold Reactor.apply_backpressure, apply_backpressure.
  cbn [reactor_of Reactor.listener_registered Reactor.conns Reactor.cfg Reactor.epoll Reactor.listener].
  fold (at_cap ctx.(Epoll.cfg) st.(conns)). rewrite Ht, N.ltb_antisym.
  fold (at_cap ctx.(Epoll.cfg) st.(conns)). unfold kernel.
  destruct r; cbn [andb negb]; destruct (at_cap _ _); try done. cbn [negb].
  by destruct (Epoll_add _ _ _ _ _) as [[u|e] k].
Qed.

Lemma sweep_equiv st r :
  Reactor.sweep_expired (reactor_of ctx st r) = reactor_of ctx (sweep_expired ctx st) r.
Proof.
  unfold Reactor.sweep_expired, sweep_expired. cbn [reactor_of Reactor.conns].
  change (kern (world st)) with (kernel st). generalize ((List.filter (fun '(_, c) =>
    is_expired c (now (kernel st))) (ConnTable_iter (conns st))).*1) as fds.
  intros fds. revert st. induction fds as [|fd fds IH]; intros st; [done|].
  cbn [foldl]. by rewrite <-(IH (drop_conn ctx fd st)).
Qed.

Lemma run_equiv n st r :
  Reactor.run n (reactor_of ctx st r) =
  (fun '(st, r) => reactor_of ctx st r) <$> iterations ctx n st r.
Proof.
  revert st r. induction n as [|n IH]; intros st r; [done|].
  cbn [Reactor.run iterations]. unfold iteration.
  cbn [reactor_of Reactor.epoll]. change (kern (world st)) with (kernel st).
  destruct (shutdown _); [done|]. change Reactor.MAX_EVENTS with MAX_EVENTS.
  change Reactor.TICK with TICK.
  destruct (Epoll_wait _ _ _ _) as [[evs|e] k]; [|apply (IH (set_kernel k st) r)].
  change (Reactor.on_all evs _) with (Reactor.on_all evs (reactor_of ctx (set_kernel k st) r)).
  rewrite on_all_equiv. destruct (on_events ctx evs (set_kernel k st)) as [st2| |]; [|done..].
  cbn [fmap outcome_fmap mbind outcome_bind]. rewrite backpressure_equiv.
  destruct (apply_backpressure ctx st2 r) as [st3 r3]. cbn [fst snd]. rewrite sweep_equiv. apply IH.
Qed.
End Ctx.

Lemma EventLoop_equiv n cfg l (w : World K H) :
  match Reactor.EventLoop_serve n cfg l w, EpollEt_serve n cfg l w with
  | Ret (Ok (r, w')), Ret (Ok (st, registered)) =>
    w' = st.(world) /\ r.(Reactor.conns) = st.(conns) /\ r.(Reactor.wants) = st.(wants) /\
    r.(Reactor.listener_registered) = registered /\
    r.(Reactor.listener) = l /\ r.(Reactor.cfg) = cfg
  | Ret (Err e), Ret (Err e') => e = e'
  | Panic, Panic | Diverge, Diverge => True
  | _, _ => False
  end.
Proof.
  unfold Reactor.EventLoop_serve, EpollEt_serve, run_epoll, Reactor.Reactor_new, epoll_setup.
  destruct (set_nonblocking l (kern w)) as [[u|e] k1]; [|done].
  destruct (Epoll_new k1) as [[ep|e] k2]; [|done].
  destruct (Epoll_add ep l Read Edge k2) as [[u'|e] k3]; [|done].
  set (ctx := mkCtx ep l cfg Edge true). set (st := mkLoop (set_kern k3 w) ConnTable_new ∅).
  change (Reactor.run n _) with (Reactor.run n (reactor_of ctx st true)).
  rewrite (run_equiv ctx (conj eq_refl eq_refl)).
  by destruct (iterations ctx n st true) as [[st' r']| |].
Qed.

(** C31. Equivalence: as its header says, the reactor behaves as [epoll-et]:
    from the same listener, configuration and world, after any number of
    rounds it has made the same system calls with the same results (the
    kernel states are equal) and holds the same tables. *)
Theorem event_loop_is_epoll_et n cfg l (w : World K H) :
  match Reactor.EventLoop_serve n cfg l w, EpollEt_serve n cfg l w with
  | Ret (Ok (r, w')), Ret (Ok (st, registered)) =>
    w' = st.(world) /\ r.(Reactor.conns) = st.(conns) /\ r.(Reactor.wants) = st.(wants) /\
    r.(Reactor.listener_registered) = registered /\
    r.(Reactor.listener) = l /\ r.(Reactor.cfg) = cfg
  | Ret (Err e), Ret (Err e') => e = e'
  | Panic, Panic | Diverge, Diverge => True
  | _, _ => False
  end.
Proof. apply EventLoop_equiv. Qed.
End Equivalence.
