(* ===== verification/EpollTrace.v ===== *)
(** * The epoll loops serve sessions

    [run_epoll] on the recording kernel: every operation keeps the records
    faithful to the automaton, so every client is written a part of the session
    of what it sent, however the loop interleaves them. *)

From S2P Require Import Prelude RustStr Http Response Request RequestSpec RequestRefine Router Asset App Conn ConnSpec ConnProps Site Syscall Socket SysPoll ConnTable EventIo EventIoProps Session Trace Reactor ReactorProps Epoll EpollInv EpollProps Sim.

Section Epoll.
Context {K H : Type} `{KernelLaws K} `{HashOrder} `{SiteHandlers H}.
Context (ctx : AcceptCtx) (base : gset Z) (app : App H).
(** The connections of other loops of the process. *)
Context (rest : gmap Z Slot) (Hrest : dom rest ⊆ base).

Definition recorded (st : Loop (Traced K) H) : Prop :=
  faithful app st.(conns).(slots) (kernel st) /\ faithful app rest (kernel st) /\
  same_site app st.(world).(wapp).

(** Nothing is exchanged. *)
Lemma recorded_log st st' :
  recorded st -> same_log (kernel st) (kernel st') -> st'.(conns).(slots) ⊆ st.(conns).(slots) ->
  same_site st.(world).(wapp) st'.(world).(wapp) -> recorded st'.
Proof.
  intros (Hf & Hf' & Hs) Hl Hsub Hs'.
  split_and!; [exact (faithful_log _ _ _ _ _ Hf Hl Hsub)|exact (faithful_same _ _ _ _ Hf' Hl)|by eapply same_site_trans].
Qed.

Lemma drop_conn_log fd (st : Loop (Traced K) H) : same_log (kernel st) (kernel (drop_conn ctx fd st)).
Proof.
  unfold drop_conn, ConnTable_remove. destruct (Epoll_delete (epoll ctx) fd (kernel st)) as [r t1] eqn:E1.
  apply Epoll_ctl_log in E1. cbn [snd]. by destruct (slots (conns st) !! fd).
Qed.

Lemma drop_conn_recorded fd st : recorded st -> recorded (drop_conn ctx fd st).
Proof.
  intros Hr. apply (recorded_log st); [done|apply drop_conn_log| |done].
  destruct (drop_conn_slots ctx fd st) as (-> & _). apply delete_subseteq.
Qed.

(** The descriptors of the tables are open, so none of them is accepted. *)
Lemma accept_loop_recorded fuel st st' :
  recorded st -> dom rest ∪ dom st.(conns).(slots) ⊆ opened (kernel st) ->
  accept_loop ctx fuel st = Ret st' -> recorded st'.
Proof.
  revert st. induction fuel as [|fuel IH]; intros st Hr Hd; [done|]. cbn [accept_loop].
  assert (forall st1, recorded st1 -> dom rest ∪ dom st1.(conns).(slots) ⊆ opened (kernel st1) ->
    (if negb ctx.(drain) then Ret st1 else accept_loop ctx fuel st1) = Ret st' -> recorded st') as Hagain.
  { intros st1 Hr1 Hd1. destruct (negb _); [intros E; by injection E as <-|by apply IH]. }
  destruct (at_cap _ _); [intros E; by injection E as <-|].
  destruct Hr as (Hf & Hfr & Hs).
  destruct (accept_nonblocking (listener_fd ctx) (kernel st)) as [ra t1] eqn:Ea.
  pose proof (accept_nonblocking_log _ _ _ _ Ea) as Hlog. apply accept_nonblocking_effect in Ea as [_ Ha].
  destruct ra as [[[fd addr]|]|e]; [|intros E; injection E as <-; by apply (recorded_log st)..].
  destruct Ha as (Hnew & Ho1 & _). assert (slots (conns st) !! fd = None) as Hnone by (apply not_elem_of_dom; set_solver).
  assert (rest !! fd = None) as Hnone' by (apply not_elem_of_dom; set_solver).
  destruct (set_nonblocking fd t1) as [rs t2] eqn:Es. pose proof (set_nonblocking_log _ _ _ _ Es) as Hl2.
  apply set_nonblocking_frame in Es as (Ho2 & _). pose proof (faithful_begun _ _ _ _ _ Hf Hlog Hnone) as Hf1.
  pose proof (faithful_begun _ _ _ _ _ Hfr Hlog Hnone') as Hfr1.
  destruct rs as [u|e].
  - unfold ConnTable_insert. rewrite Hnone.
    destruct (Epoll_add (epoll ctx) fd Read (trigger ctx) t2) as [re t3] eqn:Ee. pose proof Ee as Ee'.
    apply Epoll_ctl_log in Ee. apply ctl_spec in Ee' as (Ho3 & _); [|done].
    assert (faithful app (<[fd := mkSlot fd (Connection_new (now t2) (read_timeout (cfg ctx)))]> (slots (conns st))) t3) as Hf3.
    { eapply faithful_log; [eapply (faithful_insert app _ _ _ fd _ Hf Hlog Hnone)|by etrans|done]. apply refines_new. }
    assert (faithful app rest t3) as Hfr3 by (eapply faithful_same; [exact Hfr1|by etrans]).
    destruct re as [v|e].
    + apply Hagain; [by split_and!|]. cbn in Ho1, Ho2, Ho3, Hd |- *. rewrite dom_insert_L, Ho3, Ho2, Ho1. set_solver.
    + unfold ConnTable_remove. cbn [slots]. rewrite lookup_insert_eq. cbn [stream]. rewrite delete_insert_id by done.
      apply Hagain.
      * split_and!; [|by eapply faithful_same|done]. eapply faithful_log; [exact Hf1|by do 2 etrans|done].
      * cbn in Ho1, Ho2, Ho3, Hd |- *. rewrite (proj1 (close_effect fd t3.(tk))), Ho3, Ho2, Ho1. set_solver.
  - apply Hagain.
    + split_and!; [| |done]; (eapply faithful_same; [|by etrans]); done.
    + cbn in Ho1, Ho2, Hd |- *. rewrite (proj1 (close_effect fd t2.(tk))), Ho2, Ho1. set_solver.
Qed.

Lemma drive_recorded r fd st st' :
  inv ctx base r st -> recorded st -> drive ctx fd st = Ret st' -> recorded st'.
Proof.
  intros Hi (Hf & Hfr & Hs). unfold drive, ConnTable_get.
  destruct (slots (conns st) !! fd) as [s|] eqn:Hsl; [|intros E; by injection E as <-].
  destruct (inv_slots _ _ _ _ Hi fd s Hsl) as (Hst & a0 & Hr0 & Hl0 & _). rewrite Hst.
  destruct (fa_slots _ _ _ Hf fd s Hsl) as (h & a & Hh & Hm & Hr).
  pose proof (refines_live _ _ _ Hr0 Hr Hl0) as Hl.
  destruct (drive_io_spec ctx.(drain) fd st.(world) s.(conn) a (inv_fit _ _ _ _ Hi) Hr Hl)
    as (w & c & act & -> & [(ios & a' & Hp & Hm' & Hr' & _) _ Hsite _]).
  cbn [mbind outcome_bind]. apply (moves_same app) in Hm'; [|done].
  set (st1 := mkLoop w (ConnTable_put st.(conns) fd (mkSlot fd c)) st.(wants)).
  assert (recorded st1) as Hst1.
  { split_and!; [by eapply (faithful_performs app _ _ _ fd (mkSlot fd c))| |by eapply same_site_trans].
    eapply (faithful_performs_other app rest); [done| |done..]. apply not_elem_of_dom. intros Hin%Hrest.
    pose proof (inv_base _ _ _ _ Hi) as Hb. apply elem_of_dom_2 in Hsl. set_solver. }
  assert (forall next, recorded (if negb (matches_interest (wants st1 !! fd) next) then
      let '(r, k) := Epoll_modify ctx.(epoll) fd next ctx.(trigger) (kernel st1) in
      match r with
      | Err _ => drop_conn ctx fd (set_kernel k st1)
      | Ok _ => mkLoop (set_kern k st1.(world)) st1.(conns) (<[fd := next]> st1.(wants))
      end
    else st1)) as Happly.
  { intros next. destruct (negb _); [|done].
    destruct (Epoll_modify (epoll ctx) fd next (trigger ctx) (kernel st1)) as [re t] eqn:Ee.
    apply Epoll_ctl_log in Ee. destruct re as [u|e]; [by apply (recorded_log st1)|].
    apply drop_conn_recorded. by apply (recorded_log st1). }
  destruct act; intros E; injection E as <-; [apply Happly|apply Happly|by apply drop_conn_recorded].
Qed.

Lemma on_events_recorded r evs st st' :
  inv ctx base r st -> recorded st -> on_events ctx evs st = Ret st' -> recorded st'.
Proof.
  revert st. induction evs as [|ev evs IH]; intros st Hi Hr; cbn [on_events]; [intros E; by injection E as <-|].
  destruct (on_event_spec ctx base r ev st Hi) as (st1 & Hev & (Hi1 & _)). rewrite Hev. cbn [mbind outcome_bind].
  apply IH; [done|]. revert Hev. unfold on_event. case_decide.
  - destruct (readable ev); [|intros E; by injection E as <-]. apply accept_loop_recorded; [done|].
    rewrite (inv_opened _ _ _ _ Hi). clear -Hrest. set_solver.
  - destruct (_ || _); [intros E; injection E as <-; by apply drop_conn_recorded|].
    destruct (_ || _); [by apply (drive_recorded r)|intros E; by injection E as <-].
Qed.

Lemma drop_all_recorded fds st : recorded st -> recorded (foldl (fun st fd => drop_conn ctx fd st) st fds).
Proof.
  revert st. induction fds as [|fd fds IH]; intros st Hr; [done|]. apply IH. by apply drop_conn_recorded.
Qed.

Lemma iteration_recorded r st st' r' :
  inv ctx base r st -> recorded st -> iteration ctx st r = Ret (st', r') -> recorded st'.
Proof.
  intros Hi Hr. unfold iteration.
  destruct (Epoll_wait (epoll ctx) MAX_EVENTS (Some TICK) (kernel st)) as [re t] eqn:Ew.
  pose proof (Epoll_wait_log _ _ _ _ _ _ Ew) as Hl. apply Epoll_wait_frame in Ew as [Ho Hin].
  assert (recorded (set_kernel t st)) as Hr1 by by apply (recorded_log st).
  destruct re as [evs|e]; [|intros E; by injection E as <- <-].
  assert (inv ctx base r (set_kernel t st)) as Hi1 by (apply inv_kernel; try done; by rewrite Hin).
  destruct (on_events_spec ctx base r evs _ Hi1) as (st2 & Hev & _). rewrite Hev. cbn [mbind outcome_bind].
  pose proof (on_events_recorded r evs _ _ Hi1 Hr1 Hev) as Hr2.
  destruct (apply_backpressure ctx st2 r) as [st3 r3] eqn:Eb. intros E. injection E as <- <-.
  assert (recorded st3) as Hr3.
  { unfold apply_backpressure in Eb. destruct (_ && _).
    - destruct (Epoll_delete (epoll ctx) (listener_fd ctx) (kernel st2)) as [re k] eqn:Ee.
      apply Epoll_ctl_log in Ee. simplify_eq. by apply (recorded_log st2).
    - destruct (_ && _); [|by simplify_eq].
      destruct (Epoll_add (epoll ctx) (listener_fd ctx) Read (trigger ctx) (kernel st2)) as [re k] eqn:Ee.
      apply Epoll_ctl_log in Ee. simplify_eq. by apply (recorded_log st2). }
  by apply drop_all_recorded.
Qed.

Lemma iterations_recorded n r st st' r' :
  inv ctx base r st -> recorded st -> iterations ctx n st r = Ret (st', r') -> recorded st'.
Proof.
  revert st r. induction n as [|n IH]; intros st r Hi Hr; cbn [iterations]; [intros E; by injection E as <- <-|].
  destruct (shutdown _); [intros E; by injection E as <- <-|].
  destruct (iteration_spec ctx base r st Hi) as (st1 & r1 & Hit & Hi1 & _). rewrite Hit. cbn [mbind outcome_bind].
  apply IH; [done|]. exact (iteration_recorded _ _ _ _ Hi Hr Hit).
Qed.
End Epoll.

Section Serves.
Context {K H : Type} `{KernelLaws K} `{HashOrder} `{SiteHandlers H}.

(** Setting up exchanges nothing. *)
Lemma epoll_setup_log cfg trigger drain l (w : World (Traced K) H) r w' :
  epoll_setup cfg trigger drain l w = (r, w') ->
  match r with
  | Ok (_, st) => same_log w.(kern) (kernel st) /\ st.(conns).(slots) = ∅ /\ st.(world).(wapp) = w.(wapp)
  | Err _ => True
  end.
Proof.
  unfold epoll_setup, Epoll_new, syscall. intros E.
  destruct (set_nonblocking l (kern w)) as [[u|e] t1] eqn:E1; [|by simplify_eq]. apply set_nonblocking_log in E1.
  destruct (k_epoll_create1 t1) as [ep t2] eqn:E2. apply lift_log in E2. cbn [fst snd] in E.
  destruct (cvt ep t2) as [ep'|e]; [|by simplify_eq].
  destruct (Epoll_add ep' l Read trigger t2) as [[u'|e] t3] eqn:E3; [|by simplify_eq]. apply Epoll_ctl_log in E3.
  simplify_eq. split; [by do 2 etrans|done].
Qed.

Lemma run_epoll_serves n trigger drain cfg l (k : K) (app : App H) :
  l ∈ opened k -> fits app ->
  match run_epoll n trigger drain cfg l (mkWorld (traced k) app) with
  | Ret (Ok (st, _)) => serves_sessions app st.(conns).(slots) (kernel st)
  | Ret (Err _) => True
  | Panic | Diverge => False
  end.
Proof.
  intros Hl Hfit. unfold run_epoll. destruct (epoll_setup cfg trigger drain l _) as [r0 w'] eqn:Es.
  pose proof (epoll_setup_log _ _ _ _ _ _ _ Es) as Hlog.
  pose proof (epoll_setup_spec _ _ _ _ (mkWorld (traced k) app) _ _ Hl (fits_all app Hfit) Es) as Hs. destruct r0 as [[ctx st]|e]; [|done].
  destruct Hs as (_ & _ & Hi). destruct Hlog as (Hlog & Hemp & Happ).
  destruct (iterations_spec ctx _ n true st Hi) as (st' & r' & Hit & _). rewrite Hit. cbn.
  apply faithful_sessions.
  assert (recorded app ∅ st') as [Hf _]; [|exact Hf].
  refine (iterations_recorded ctx _ app ∅ _ n true st st' r' Hi _ Hit); [by rewrite dom_empty_L; apply empty_subseteq|].
  split_and!; [rewrite Hemp; exact (faithful_same app _ _ _ (faithful_start app k) Hlog)|
    exact (faithful_same app _ _ _ (faithful_start app k) Hlog)|by rewrite Happ].
Qed.
End Serves.

Section Claim.
Context {K H : Type} `{KernelLaws K} `{HashOrder} `{SiteHandlers H}.

(** C9. End to end, for the epoll loops under both triggers and for the event loop:
    from any bound listener, for any number of rounds, whatever readiness the
    kernel reports, however it cuts reads and writes and however connections
    come, go and reuse descriptors, the server neither panics nor sticks, every
    client has been written a part of exactly the session of what was read from
    it, and an open connection's state machine holds what is missing of it. *)
Theorem epoll_serves_sessions n trigger drain cfg l (k : K) (app : App H)
    (Hl : l ∈ opened k) (Hfit : fits app) :
  match run_epoll n trigger drain cfg l (mkWorld (traced k) app) with
  | Ret (Ok (st, _)) => serves_sessions app st.(conns).(slots) (kernel st)
  | Ret (Err _) => True
  | Panic | Diverge => False
  end /\
  match Reactor.EventLoop_serve n cfg l (mkWorld (traced k) app) with
  | Ret (Ok (r, w)) => serves_sessions app r.(Reactor.conns).(slots) w.(kern)
  | Ret (Err _) => True
  | Panic | Diverge => False
  end.
Proof.
  split; [by apply run_epoll_serves|]. pose proof (EventLoop_equiv n cfg l (mkWorld (traced k) app)) as He.
  pose proof (run_epoll_serves n Edge true cfg l k app Hl Hfit) as Hs. unfold EpollEt_serve in He.
  destruct (Reactor.EventLoop_serve _ _ _ _) as [[[r w]|e]| |], (run_epoll _ _ _ _ _ _) as [[[st reg]|e']| |]; try done.
  destruct He as (-> & -> & _). exact Hs.
Qed.
End Claim.

(** The handlers of the site look at the assets only. *)
#[export] Instance site_handlers_same : SiteHandlers Handler.
Proof. intros h r app app' [_ Ha]. destruct h; cbn; unfold serve_index, serve_style, serve_asset; by rewrite Ha. Qed.

(** The first of three clients is answered while the cap keeps the third out;
    descriptor 5 is its. *)
Definition answered_5 (st : Loop (Traced Sim) Handler) : bool :=
  bool_decide (received <$> (kernel st).(current) !! 5%Z = Some [get_root]) &&
  bool_decide (sent <$> (kernel st).(current) !! 5%Z = Some (answer sample_app sample_request)).

Lemma epoll_serves_sessions_witness :
  exists st r, run_epoll 5 Edge true sample_config 3 (mkWorld (traced sim_server) sample_app) = Ret (Ok (st, r)) /\
    answered_5 st = true /\ serves_sessions sample_app st.(conns).(slots) (kernel st).
Proof.
  pose proof (epoll_serves_sessions 5 Edge true sample_config 3 sim_server sample_app sim_listener sample_app_fits) as [Hrun _].
  assert (match run_epoll 5 Edge true sample_config 3 (mkWorld (traced sim_server) sample_app) with
    | Ret (Ok (st, _)) => answered_5 st | _ => false end = true) as Hok by (vm_compute; reflexivity).
  destruct (run_epoll 5 Edge true sample_config 3 (mkWorld (traced sim_server) sample_app)) as [[[st r]|e]| |];
    [|discriminate Hok|contradiction|contradiction].
  exists st, r. split; [reflexivity|]. split; [exact Hok|exact Hrun].
Defined.
