(* ===== verification/Poll.v ===== *)
(** * The poll event loop

    server/src/models/poll.rs: level triggered, the whole set rebuilt on every
    round. *)

From S2P Require Import Prelude RustStr Http Response Request App Conn ConnSpec Syscall Socket SysPoll ConnTable EventIo.

Definition TICK : N := millis 100.

(** The locals of [serve]. *)
Record PollLoop (K H : Type) := mkPoll {
  world : World K H;
  conns : ConnTable;
  wants : gmap Z Interest;
}.
Arguments mkPoll {K H} _ _ _.
Arguments world {K H} _.
Arguments conns {K H} _.
Arguments wants {K H} _.

Section Poll.
Context {K H : Type} `{Kernel K} `{HashOrder} `{Handlers H}.
Context (listener_fd : Z) (cfg : ServerConfig).

Definition kernel (st : PollLoop K H) : K := st.(world).(kern).
Definition set_kernel (k : K) (st : PollLoop K H) : PollLoop K H :=
  mkPoll (set_kern k st.(world)) st.(conns) st.(wants).

Definition drop_conn (fd : Z) (st : PollLoop K H) : PollLoop K H :=
  let wants := delete fd st.(wants) in
  let '(conns, k) := ConnTable_remove st.(conns) fd (kernel st) in
  mkPoll (set_kern k st.(world)) conns wants.

Definition accept_one (st : PollLoop K H) : PollLoop K H :=
  match accept_nonblocking listener_fd (kernel st) with
  | (Ok (Some (fd, _)), k) =>
    match set_nonblocking fd k with
    | (Err _, k) => set_kernel (k_close fd k) st
    | (Ok _, k) =>
      let conn := Connection_new (now k) cfg.(read_timeout) in
      let '(fd, conns, k) := ConnTable_insert st.(conns) fd conn k in
      mkPoll (w_inc_connections (set_kern k st.(world))) conns (<[fd := Read]> st.(wants))
    end
  | (Ok None, k) => set_kernel k st
  | (Err _, k) => set_kernel k st
  end.

Definition drive (fd : Z) (st : PollLoop K H) : outcome (PollLoop K H) :=
  match ConnTable_get st.(conns) fd with
  | None => Ret st
  | Some slot =>
    '(w, c, action) ← drive_io false slot.(stream) st.(world) slot.(conn);
    let conns := ConnTable_put st.(conns) fd (mkSlot slot.(stream) c) in
    match action with
    | WantRead => Ret (mkPoll w conns (<[fd := Read]> st.(wants)))
    | WantWrite => Ret (mkPoll w conns (<[fd := Write]> st.(wants)))
    | Close => Ret (drop_conn fd (mkPoll w conns st.(wants)))
    end
  end.

(** Step 1: the listener first, below the cap, then every connection. *)
Definition below_cap (t : ConnTable) : bool := (N.of_nat (ConnTable_len t) <? cfg.(max_connections))%N.

Definition poll_set (st : PollLoop K H) : list PollFd * list Z :=
  let order := hash_iter st.(wants) in
  ((if below_cap st.(conns) then [PollFd_new listener_fd Read] else []) ++
     ((fun '(fd, interest) => PollFd_new fd interest) <$> order),
   order.*1).

(** Step 4: entry [offset + i] of [fds] is for the [i]th of [fd_order]; the
    index panics out of range. *)
Fixpoint drive_all (fds : list PollFd) (i : nat) (fd_order : list Z) (st : PollLoop K H)
    : outcome (PollLoop K H) :=
  match fd_order with
  | [] => Ret st
  | fd :: fd_order =>
    match fds !! i with
    | None => Panic
    | Some pollfd =>
      st ← (if PollFd_error pollfd || PollFd_hup pollfd then Ret (drop_conn fd st)
            else if PollFd_readable pollfd || PollFd_writable pollfd then drive fd st
            else Ret st);
      drive_all fds (S i) fd_order st
    end
  end.

Definition sweep_expired (st : PollLoop K H) : PollLoop K H :=
  let t := now (kernel st) in
  let expired := (List.filter (fun '(_, c) => is_expired c t) (ConnTable_iter st.(conns))).*1 in
  foldl (fun st fd => drop_conn fd st) st expired.

Definition iteration (st : PollLoop K H) : outcome (PollLoop K H) :=
  let '(fds, fd_order) := poll_set st in
  let listener_in_set := below_cap st.(conns) in
  match poll fds (Some TICK) (kernel st) with
  | (Err _, _, k) => Ret (set_kernel k st)
  | (Ok _, fds, k) =>
    let st := set_kernel k st in
    st ← (if listener_in_set then
            match fds !! 0 with
            | None => Panic
            | Some p => Ret (if PollFd_readable p then accept_one st else st)
            end
          else Ret st);
    let conn_offset := if listener_in_set then 1 else 0 in
    st ← drive_all fds conn_offset fd_order st;
    Ret (sweep_expired st)
  end.

(** At most [n] rounds of the [while !SHUTDOWN]. *)
Fixpoint iterations (n : nat) (st : PollLoop K H) : outcome (PollLoop K H) :=
  match n with
  | 0 => Ret st
  | S n =>
    if shutdown (kernel st) then Ret st else
    st ← iteration st;
    iterations n st
  end.

(** [Poll::serve] from the bound listener on. *)
Definition Poll_serve (n : nat) (w : World K H) : outcome (result (PollLoop K H) IoError) :=
  match set_nonblocking listener_fd w.(kern) with
  | (Err e, _) => Ret (Err e)
  | (Ok _, k) => st ← iterations n (mkPoll (set_kern k w) ConnTable_new ∅); Ret (Ok st)
  end.
End Poll.
