(* ===== verification/PollProps.v ===== *)
(** * Properties of the poll loop *)

From S2P Require Import Prelude RustStr Http Response Request RequestSpec RequestRefine Router Asset App Conn ConnSpec ConnProps Site Syscall Socket SysPoll ConnTable EventIo EventIoProps EpollInv EpollProps Poll Sim.

Section Props.
Context {K H : Type} `{KernelLaws K} `{HashOrder} `{Handlers H}.
Context (listener_fd : Z) (cfg : ServerConfig) (base : gset Z).

(** As [EpollInv.inv], without registrations. *)
Record poll_inv (st : PollLoop K H) : Prop := {
  pi_wants : dom st.(wants) = dom st.(conns).(slots);
  pi_slots : map_Forall (slot_ok st.(wants)) st.(conns).(slots);
  pi_opened : opened (kernel st) = base ∪ dom st.(conns).(slots);
  pi_base : base ## dom st.(conns).(slots);
  pi_cap : (N.of_nat (ConnTable_len st.(conns)) <= cfg.(max_connections))%N;
  pi_fit : all_fit st.(world).(wapp);
}.

Lemma poll_inv_kernel st k :
  poll_inv st -> opened k = opened (kernel st) -> poll_inv (set_kernel k st).
Proof. intros [] Ho. split; cbn; try done. by rewrite Ho. Qed.

Lemma poll_inv_world st w :
  poll_inv st -> opened w.(kern) = opened (kernel st) -> same_site st.(world).(wapp) w.(wapp) ->
  poll_inv (mkPoll w st.(conns) st.(wants)).
Proof.
  intros [] Ho Hs. split; try done; [by rewrite <-Ho in *|]. by eapply all_fit_same.
Qed.

Lemma poll_drop_inv st fd :
  poll_inv st -> poll_inv (drop_conn fd st) /\
  (drop_conn fd st).(conns).(slots) = delete fd st.(conns).(slots).
Proof.
  intros Hi. split; [|done]. unfold drop_conn, ConnTable_remove.
  split; cbn [conns wants slots world wapp set_kern].
  - by rewrite !dom_delete_L, (pi_wants _ Hi).
  - intros fd' s [Hne Hs']%lookup_delete_Some.
    destruct (pi_slots _ Hi fd' s Hs') as (? & a & ? & ? & Hwa).
    split; [done|]. exists a. split_and!; try done. by rewrite lookup_delete_ne.
  - pose proof (pi_base _ Hi). pose proof (pi_opened _ Hi) as Ho.
    destruct (slots (conns st) !! fd) as [s|] eqn:Es; cbn.
    + destruct (pi_slots _ Hi fd s Es) as (-> & _). apply elem_of_dom_2 in Es.
      destruct (close_effect fd (kernel st)) as (-> & _). rewrite Ho, dom_delete_L. set_solver.
    + apply not_elem_of_dom in Es. change (kern (world st)) with (kernel st).
      rewrite Ho, dom_delete_L. set_solver.
  - rewrite dom_delete_L. pose proof (pi_base _ Hi). set_solver.
  - unfold ConnTable_len. cbn. pose proof (size_delete_le (slots (conns st)) fd).
    pose proof (pi_cap _ Hi). unfold ConnTable_len in *. lia.
  - apply Hi.
Qed.

Lemma accept_one_inv st :
  poll_inv st -> below_cap cfg st.(conns) = true -> poll_inv (accept_one listener_fd cfg st).
Proof.
  intros Hi Hcap. unfold accept_one.
  destruct (accept_nonblocking listener_fd (kernel st)) as [ra k1] eqn:Ea.
  apply accept_nonblocking_effect in Ea as [_ Ha].
  destruct ra as [[[fd addr]|]|e]; [|destruct Ha as [Ho _]; by apply poll_inv_kernel..].
  destruct Ha as (Hnew & Ho1 & _).
  destruct (set_nonblocking fd k1) as [[u|e] k2] eqn:Es; apply set_nonblocking_frame in Es as (Ho2 & _).
  2: { apply poll_inv_kernel; [done|]. destruct (close_effect fd k2) as (-> & _).
       rewrite Ho2, Ho1. set_solver. }
  assert (fd ∉ base /\ fd ∉ dom st.(conns).(slots)) as [Hfb Hfd]
    by (rewrite (pi_opened _ Hi) in Hnew; set_solver).
  unfold ConnTable_insert. apply not_elem_of_dom in Hfd as Hn. rewrite Hn.
  split; cbn [conns wants slots world wapp w_inc_connections].
  - by rewrite !dom_insert_L, (pi_wants _ Hi).
  - apply map_Forall_insert_2.
    + split; [done|]. exists (AReading []). rewrite lookup_insert_eq.
      split_and!; [apply refines_new|done|done].
    + intros fd' s Hs. destruct (pi_slots _ Hi fd' s Hs) as (? & a & ? & ? & Hwa).
      split; [done|]. exists a. split_and!; try done. rewrite lookup_insert_ne by congruence. done.
  - cbn. rewrite Ho2, Ho1, dom_insert_L, (pi_opened _ Hi). set_solver.
  - rewrite dom_insert_L. pose proof (pi_base _ Hi). set_solver.
  - unfold below_cap, ConnTable_len in *. cbn. rewrite map_size_insert_None by done.
    apply N.ltb_lt in Hcap. lia.
  - intros app' Hs. by apply (pi_fit _ Hi).
Qed.

Lemma poll_drive_inv st fd :
  poll_inv st -> exists st', drive fd st = Ret st' /\ poll_inv st'.
Proof.
  intros Hi. unfold drive, ConnTable_get.
  destruct (slots (conns st) !! fd) as [s|] eqn:Hs; [|by exists st].
  destruct (pi_slots _ Hi fd s Hs) as (Hst & a & Hr & Hl & _).
  destruct (drive_io_spec false s.(stream) st.(world) s.(conn) a (pi_fit _ Hi) Hr Hl)
    as (w & c & act & -> & [(ios & a' & _ & _ & Hr' & Hact) (Ho & _) Hsite _]).
  cbn [mbind outcome_bind]. pose proof (poll_inv_world _ _ Hi Ho Hsite) as Hi0.
  assert (act <> Close -> poll_inv (mkPoll w (ConnTable_put st.(conns) fd (mkSlot s.(stream) c))
    (<[fd := direction a']> st.(wants)))) as Hput.
  { intros Hc. specialize (Hact Hc). apply elem_of_dom_2 in Hs as Hd.
    assert ({[fd]} ∪ dom st.(conns).(slots) = dom st.(conns).(slots)) as Hdom by set_solver.
    split; cbn [conns wants slots world wapp ConnTable_put]; try apply Hi0.
    - by rewrite !dom_insert_L, (pi_wants _ Hi).
    - intros fd' s' [[<- <-]|[Hne Hs']]%lookup_insert_Some.
      + split; [done|]. exists a'. rewrite lookup_insert_eq. split_and!; [done| |done].
        intros ->. by apply Hc.
      + destruct (pi_slots _ Hi fd' s' Hs') as (? & a2 & ? & ? & Hwa).
        split; [done|]. exists a2. split_and!; try done. by rewrite lookup_insert_ne.
    - rewrite dom_insert_L, Hdom. apply (pi_opened _ Hi0).
    - rewrite dom_insert_L, Hdom. apply Hi.
    - unfold ConnTable_len. cbn. rewrite map_size_insert_Some by done. apply Hi. }
  destruct act.
  - eexists. split; [done|]. specialize (Hact ltac:(done)). by destruct a'; [apply Hput| |].
  - eexists. split; [done|]. specialize (Hact ltac:(done)). by destruct a'; [|apply Hput|].
  - eexists. split; [done|].
    assert (drop_conn fd (mkPoll w (ConnTable_put st.(conns) fd (mkSlot s.(stream) c)) st.(wants)) =
      drop_conn fd (mkPoll w st.(conns) st.(wants))) as ->.
    { unfold drop_conn, ConnTable_remove, ConnTable_put. cbn.
      by rewrite lookup_insert_eq, Hs, delete_insert_eq. }
    by apply poll_drop_inv.
Qed.

Lemma drive_all_inv fds i order st :
  poll_inv st -> i + length order <= length fds ->
  exists st', drive_all fds i order st = Ret st' /\ poll_inv st'.
Proof.
  revert i st. induction order as [|fd order IH]; intros i st Hi Hlen; [by exists st|].
  cbn [drive_all length] in *. destruct (lookup_lt_is_Some_2 fds i) as [p ->]; [lia|].
  assert (exists st1, (if PollFd_error p || PollFd_hup p then Ret (drop_conn fd st)
    else if PollFd_readable p || PollFd_writable p then drive fd st else Ret st) = Ret st1 /\
    poll_inv st1) as (st1 & -> & Hi1).
  { destruct (_ || _); [eexists; split; [done|by apply poll_drop_inv]|].
    destruct (_ || _); [by apply poll_drive_inv|by exists st]. }
  cbn [mbind outcome_bind]. apply IH; [done|lia].
Qed.

Lemma poll_sweep_inv st :
  poll_inv st -> poll_inv (sweep_expired st) /\
  (sweep_expired st).(conns).(slots) =
    filter (fun '(_, s) => is_expired s.(conn) (now (kernel st)) = false) st.(conns).(slots).
Proof.
  intros Hi. unfold sweep_expired. fold (expired_fds (conns st) (now (kernel st))).
  pose proof (fun fd => elem_of_expired_fds st.(conns) (now (kernel st)) fd
    (fun fd s Hs => proj1 (pi_slots _ Hi fd s Hs))) as Hfds.
  assert (forall fds st, poll_inv st ->
    poll_inv (foldl (fun st fd => drop_conn fd st) st fds) /\
    (foldl (fun st fd => drop_conn fd st) st fds).(conns).(slots) =
      filter (fun '(fd, _) => fd ∉ fds) st.(conns).(slots)) as Hall.
  { clear. induction fds as [|fd fds IH]; intros st Hi.
    { split; [done|]. cbn. rewrite map_filter_id; [done|]. intros fd s Hs. set_solver. }
    cbn [foldl]. destruct (poll_drop_inv st fd Hi) as [Hi1 Hs1].
    destruct (IH _ Hi1) as [Hi2 ->]. split; [done|]. rewrite Hs1. apply map_eq. intros fd'.
    apply option_eq. intros s. rewrite !map_lookup_filter_Some, lookup_delete_Some. set_solver. }
  destruct (Hall (expired_fds (conns st) (now (kernel st))) st Hi) as [Hi' Hs].
  split; [done|]. rewrite Hs. apply map_filter_ext. intros fd s Hin.
  rewrite Hfds. split; [|intros He (s' & Hs' & He'); simplify_eq; congruence].
  intros Hn. apply not_true_is_false. intros He. apply Hn. by exists s.
Qed.

Lemma poll_set_length (st : PollLoop K H) :
  length (poll_set listener_fd cfg st).1 =
  (if below_cap cfg st.(conns) then 1 else 0) + length (poll_set listener_fd cfg st).2.
Proof. unfold poll_set. cbn. rewrite length_app, !length_fmap. by destruct (below_cap _ _). Qed.

Lemma poll_iteration_inv st :
  poll_inv st -> exists st', iteration listener_fd cfg st = Ret st' /\ poll_inv st'.
Proof.
  intros Hi. unfold iteration. pose proof (poll_set_length st) as Hlen.
  destruct (poll_set listener_fd cfg st) as [fds order] eqn:Eset. cbn in Hlen.
  destruct (poll fds (Some TICK) (kernel st)) as [[r fds'] k] eqn:Ep.
  assert (length fds' = length fds /\ opened k = opened (kernel st)) as [Hl Ho].
  { unfold poll in Ep. destruct (k_poll _ _ _) as [[n revs] k1] eqn:Ek.
    apply poll_frame in Ek as [Ho _]. destruct (cvt n k1); simplify_eq; [|done].
    by rewrite set_revents_length. }
  pose proof (poll_inv_kernel st k Hi Ho) as Hi1.
  destruct r as [n|e]; [|by eexists].
  assert (exists st1, (if below_cap cfg st.(conns) then
      match fds' !! 0 with
      | None => Panic
      | Some p => Ret (if PollFd_readable p then accept_one listener_fd cfg (set_kernel k st)
                       else set_kernel k st)
      end else Ret (set_kernel k st)) = Ret st1 /\ poll_inv st1) as (st1 & -> & Hi2).
  { destruct (below_cap cfg (conns st)) eqn:Hc; [|by eexists].
    destruct (lookup_lt_is_Some_2 fds' 0) as [p ->]; [rewrite Hl, Hlen; lia|].
    eexists. split; [done|]. destruct (PollFd_readable p); [by apply accept_one_inv|done]. }
  cbn [mbind outcome_bind].
  destruct (drive_all_inv fds' (if below_cap cfg (conns st) then 1 else 0) order st1 Hi2)
    as (st2 & -> & Hi3); [rewrite Hl, Hlen; lia|].
  cbn [mbind outcome_bind]. eexists. split; [done|]. by apply poll_sweep_inv.
Qed.
End Props.

Section Serve.
Context {K H : Type} `{KernelLaws K} `{HashOrder} `{Handlers H}.

(** The loop starts without connections. *)
Lemma poll_start_inv cfg (w : World K H) :
  all_fit w.(wapp) -> poll_inv cfg (opened w.(kern)) (mkPoll w ConnTable_new ∅).
Proof.
  intros Hfit. split; cbn [conns wants slots world wapp ConnTable_new].
  - by rewrite !dom_empty_L.
  - apply map_Forall_empty.
  - rewrite dom_empty_L. by rewrite union_empty_r_L.
  - rewrite dom_empty_L. set_solver.
  - unfold ConnTable_len. cbn. rewrite map_size_empty. lia.
  - done.
Qed.

(** Invariant of the poll model: however long it runs and whatever the
    kernel answers, it never panics (the poll set's entries are where the scan
    looks for them), the table and the interests agree, every interest is the
    direction of its connection, the open descriptors are those there were
    and the connections, and the cap is respected. *)
Theorem poll_serve_invariant n l cfg (w : World K H) (Hfit : all_fit w.(wapp)) :
  match Poll_serve l cfg n w with
  | Ret (Err e) => exists k, set_nonblocking l w.(kern) = (Err e, k)
  | Ret (Ok st) => poll_inv cfg (opened w.(kern)) st
  | Panic | Diverge => False
  end.
Proof.
  unfold Poll_serve. destruct (set_nonblocking l (kern w)) as [[u|e] k] eqn:Es; [|by eexists].
  apply set_nonblocking_frame in Es as (Ho & _).
  pose proof (poll_start_inv cfg (set_kern k w) Hfit) as Hi. cbn [set_kern kern] in Hi. rewrite Ho in Hi.
  revert Hi. generalize (mkPoll (set_kern k w) ConnTable_new ∅) as st.
  induction n as [|n IH]; intros st Hi; [done|]. cbn [iterations].
  destruct (shutdown _); [done|]. destruct (poll_iteration_inv l cfg _ st Hi) as (st1 & -> & Hi1).
  by apply IH.
Qed.

(** The set handed to [poll(2)]: the listener for reading exactly when the
    count is below the cap, and every live connection once, with the direction
    its state machine is in. *)
Theorem poll_set_exact l cfg base (st : PollLoop K H) fd ev (Hi : poll_inv cfg base st)
    (Hl : l ∈ base) :
  (exists p, p ∈ (poll_set l cfg st).1 /\ p.(pfd) = fd /\ p.(events) = ev) <->
  (fd = l /\ ev = POLLIN /\ (N.of_nat (ConnTable_len st.(conns)) < cfg.(max_connections))%N) \/
  (exists s a, st.(conns).(slots) !! fd = Some s /\ refines s.(conn) a /\
     ev = match a with AWriting _ _ => POLLOUT | _ => POLLIN end).
Proof.
  unfold poll_set. cbn [fst]. split.
  - intros (p & [Hp|Hp]%elem_of_app & <- & <-).
    + left. unfold below_cap in Hp. destruct (N.ltb_spec (N.of_nat (ConnTable_len (conns st)))
        (max_connections cfg)); [|by apply not_elem_of_nil in Hp].
      apply list_elem_of_singleton in Hp as ->. done.
    + right. apply list_elem_of_fmap in Hp as ([fd' i] & -> & Hin).
      rewrite hash_iter_perm in Hin. apply elem_of_map_to_list in Hin.
      assert (fd' ∈ dom st.(conns).(slots)) as [s Hs]%elem_of_dom
        by (rewrite <-(pi_wants _ _ _ Hi); by eapply elem_of_dom_2).
      destruct (pi_slots _ _ _ Hi fd' s Hs) as (_ & a & Hr & _ & Hw). exists s, a.
      rewrite Hin in Hw. simplify_eq. split_and!; [done|done|]. by destruct a.
  - intros [(-> & -> & Hc)|(s & a & Hs & Hr & ->)].
    + exists (PollFd_new l Read). split; [|done]. apply elem_of_app. left. unfold below_cap.
      rewrite (proj2 (N.ltb_lt _ _) Hc). by apply list_elem_of_singleton.
    + destruct (pi_slots _ _ _ Hi fd s Hs) as (_ & a' & Hr' & Hl' & Hw).
      assert (a_action a' = a_action a) as Ha
        by by rewrite <-(refines_action _ _ Hr), (refines_action _ _ Hr').
      exists (PollFd_new fd (direction a')). split; [|by destruct a, a'].
      apply elem_of_app. right. apply list_elem_of_fmap. exists (fd, direction a').
      split; [done|]. rewrite hash_iter_perm. by apply elem_of_map_to_list.
Qed.
End Serve.

(** ** A run *)

Definition sim_poll : Sim :=
  mkSim 0 0 {[3%Z]} 2 [(4%Z, get_root)] [] ∅
    [[(POLLIN, 0%N)]; [(POLLIN, 0%N); (POLLIN, 0%N)]] ∅.

Definition poll_served (o : outcome (result (PollLoop Sim Handler) IoError)) : bool :=
  match o with
  | Ret (Ok st) => (ConnTable_len st.(conns) =? 2) &&
      bool_decide ((kernel st).(s_out) = []) &&
      bool_decide (st.(wants) !! 4%Z = Some Write)
  | _ => false
  end.

Lemma poll_serve_invariant_witness :
  exists st, Poll_serve 3 sample_config 5 (mkWorld sim_poll sample_app) = Ret (Ok st) /\
    poll_served (Ret (Ok st)) = true /\ poll_inv sample_config (opened sim_poll) st.
Proof.
  assert (poll_served (Poll_serve 3 sample_config 5 (mkWorld sim_poll sample_app)) = true) as Hok
    by by vm_compute.
  pose proof (poll_serve_invariant 5 3 sample_config (mkWorld sim_poll sample_app) sample_all_fit) as Hi.
  destruct (Poll_serve 3 sample_config 5 (mkWorld sim_poll sample_app)) as [[st|e]| |];
    [|discriminate Hok|contradiction|contradiction].
  exists st. split_and!; [done|exact Hok|exact Hi].
Defined.

Lemma sample_poll_inv :
  poll_inv sample_config (opened sim_poll) (mkPoll (mkWorld sim_poll sample_app) ConnTable_new ∅).
Proof. exact (poll_start_inv sample_config (mkWorld sim_poll sample_app) sample_all_fit). Qed.

Lemma poll_set_exact_witness :
  let st := mkPoll (mkWorld sim_poll sample_app) ConnTable_new ∅ in
  exists p, p ∈ (poll_set 3 sample_config st).1 /\ p.(pfd) = 3%Z /\ p.(events) = POLLIN.
Proof.
  intros st. apply (proj2 (poll_set_exact 3 sample_config (opened sim_poll) st 3 POLLIN
    sample_poll_inv sim_listener)). left. split_and!; [done|done|by vm_compute].
Defined.
