(* ===== verification/PollTrace.v ===== *)
(** * The poll loop serves sessions

    As EpollTrace, for models/poll.rs. *)

From S2P Require Import Prelude RustStr Http Response Request RequestSpec RequestRefine Router Asset App Conn ConnSpec ConnProps Site Syscall Socket SysPoll ConnTable EventIo EventIoProps Session Trace EpollInv EpollProps EpollTrace Poll PollProps Sim.

Section Poll.
Context {K H : Type} `{KernelLaws K} `{HashOrder} `{SiteHandlers H}.
Context (l : Z) (cfg : ServerConfig) (base : gset Z) (app : App H).

Definition recorded (st : PollLoop (Traced K) H) : Prop :=
  faithful app st.(conns).(slots) (kernel st) /\ same_site app st.(world).(wapp).

Lemma poll_recorded_log st st' :
  recorded st -> same_log (kernel st) (kernel st') -> st'.(conns).(slots) ⊆ st.(conns).(slots) ->
  same_site st.(world).(wapp) st'.(world).(wapp) -> recorded st'.
Proof. intros [Hf Hs] Hl Hsub Hs'. split; [by eapply faithful_log|by eapply same_site_trans]. Qed.

Lemma poll_drop_conn_recorded fd st : recorded st -> recorded (drop_conn fd st).
Proof.
  intros Hr. apply (poll_recorded_log st); [done| |apply delete_subseteq|done].
  unfold drop_conn, ConnTable_remove. by destruct (slots (conns st) !! fd).
Qed.

Lemma poll_drop_all_recorded fds st : recorded st -> recorded (foldl (fun st fd => drop_conn fd st) st fds).
Proof.
  revert st. induction fds as [|fd fds IH]; intros st Hr; [done|]. apply IH. by apply poll_drop_conn_recorded.
Qed.

Lemma poll_accept_one_recorded st : poll_inv cfg base st -> recorded st -> recorded (accept_one l cfg st).
Proof.
  intros Hi [Hf Hs]. unfold accept_one. destruct (accept_nonblocking l (kernel st)) as [ra t1] eqn:Ea.
  pose proof (accept_nonblocking_log _ _ _ _ Ea) as Hlog. apply accept_nonblocking_effect in Ea as [_ Ha].
  destruct ra as [[[fd addr]|]|e]; [|by apply (poll_recorded_log st)..]. destruct Ha as (Hnew & _).
  assert (slots (conns st) !! fd = None) as Hnone.
  { apply not_elem_of_dom. rewrite (pi_opened _ _ _ Hi) in Hnew. set_solver. }
  destruct (set_nonblocking fd t1) as [[u|e] t2] eqn:Es; apply set_nonblocking_log in Es.
  - unfold ConnTable_insert. rewrite Hnone. split; [|done].
    exact (faithful_log app _ _ t1 t2 (faithful_insert app _ _ _ fd (mkSlot fd (Connection_new (now t2) cfg.(read_timeout)))
      Hf Hlog Hnone (refines_new _ _)) Es (reflexivity _)).
  - split; [|done]. eapply faithful_log; [by eapply faithful_begun|exact Es|done].
Qed.

Lemma poll_drive_recorded fd st st' :
  poll_inv cfg base st -> recorded st -> drive fd st = Ret st' -> recorded st'.
Proof.
  intros Hi [Hf Hs]. unfold drive, ConnTable_get.
  destruct (slots (conns st) !! fd) as [s|] eqn:Hsl; [|intros E; by injection E as <-].
  destruct (pi_slots _ _ _ Hi fd s Hsl) as (Hst & a0 & Hr0 & Hl0 & _). rewrite Hst.
  destruct (fa_slots _ _ _ Hf fd s Hsl) as (h & a & Hh & Hm & Hr).
  pose proof (refines_live _ _ _ Hr0 Hr Hl0) as Hl.
  destruct (drive_io_spec false fd st.(world) s.(conn) a (pi_fit _ _ _ Hi) Hr Hl)
    as (w & c & act & -> & [(ios & a' & Hp & Hm' & Hr' & _) _ Hsite _]).
  cbn [mbind outcome_bind]. apply (moves_same app) in Hm'; [|done].
  assert (forall wants, recorded (mkPoll w (ConnTable_put st.(conns) fd (mkSlot fd c)) wants)) as Hput.
  { intros wants. split; [|by eapply same_site_trans]. by eapply (faithful_performs app _ _ _ fd (mkSlot fd c)). }
  destruct act; intros E; injection E as <-; [apply Hput..|apply poll_drop_conn_recorded, Hput].
Qed.

Lemma poll_drive_all_recorded fds i order st st' :
  poll_inv cfg base st -> recorded st -> drive_all fds i order st = Ret st' -> recorded st'.
Proof.
  revert i st. induction order as [|fd order IH]; intros i st Hi Hr; cbn [drive_all]; [intros E; by injection E as <-|].
  destruct (fds !! i) as [p|]; [|done].
  assert (exists st1, (if PollFd_error p || PollFd_hup p then Ret (drop_conn fd st)
    else if PollFd_readable p || PollFd_writable p then drive fd st else Ret st) = Ret st1 /\
    poll_inv cfg base st1 /\ recorded st1) as (st1 & -> & Hi1 & Hr1).
  { destruct (_ || _); [eexists; split; [done|]; split; [by apply poll_drop_inv|by apply poll_drop_conn_recorded]|].
    destruct (_ || _); [|by exists st]. destruct (poll_drive_inv cfg base st fd Hi) as (st1 & Hd & Hi1).
    exists st1. split_and!; [done..|]. exact (poll_drive_recorded fd st st1 Hi Hr Hd). }
  by apply IH.
Qed.

Lemma poll_iteration_recorded st st' :
  poll_inv cfg base st -> recorded st -> iteration l cfg st = Ret st' -> recorded st'.
Proof.
  intros Hi Hr. unfold iteration. destruct (poll_set l cfg st) as [fds order].
  destruct (poll fds (Some TICK) (kernel st)) as [[r fds'] t] eqn:Ep. pose proof (poll_log _ _ _ _ _ _ Ep) as Hl.
  assert (recorded (set_kernel t st)) as Hr1 by by apply (poll_recorded_log st).
  assert (opened t = opened (kernel st)) as Ho.
  { unfold poll in Ep. destruct (k_poll _ _ _) as [[n revs] k1] eqn:Ek.
    apply poll_frame in Ek as [Ho _]. by destruct (cvt n k1); simplify_eq. }
  pose proof (poll_inv_kernel _ _ st t Hi Ho) as Hi1.
  destruct r as [n|e]; [|intros E; by injection E as <-].
  set (o := if below_cap cfg (conns st) then _ else Ret (set_kernel t st)).
  assert (match o with Ret st1 => poll_inv cfg base st1 /\ recorded st1 | _ => True end) as Ho1.
  { subst o. destruct (below_cap cfg (conns st)) eqn:Hc; [|done]. destruct (fds' !! 0) as [p|]; [|done].
    destruct (PollFd_readable p); [|done]. split; [by apply accept_one_inv|by apply poll_accept_one_recorded]. }
  destruct o as [st1| |]; [|done..]. destruct Ho1 as [Hi2 Hr2]. cbn [mbind outcome_bind].
  destruct (drive_all fds' _ order st1) as [st2| |] eqn:Ed; [|done..]. cbn [mbind outcome_bind].
  intros E. injection E as <-. apply poll_drop_all_recorded. exact (poll_drive_all_recorded _ _ _ _ _ Hi2 Hr2 Ed).
Qed.

Lemma poll_iterations_recorded n st st' :
  poll_inv cfg base st -> recorded st -> iterations l cfg n st = Ret st' -> recorded st'.
Proof.
  revert st. induction n as [|n IH]; intros st Hi Hr; cbn [iterations]; [intros E; by injection E as <-|].
  destruct (shutdown _); [intros E; by injection E as <-|].
  destruct (poll_iteration_inv l cfg base st Hi) as (st1 & Hit & Hi1). rewrite Hit. cbn [mbind outcome_bind].
  apply IH; [done|]. by apply (poll_iteration_recorded st).
Qed.

Lemma poll_iterations_inv n st :
  poll_inv cfg base st -> exists st', iterations l cfg n st = Ret st' /\ poll_inv cfg base st'.
Proof.
  revert st. induction n as [|n IH]; intros st Hi; [by exists st|]. cbn [iterations].
  destruct (shutdown _); [by exists st|]. destruct (poll_iteration_inv l cfg base st Hi) as (st1 & -> & Hi1).
  by apply IH.
Qed.
End Poll.

Section Claim.
Context {K H : Type} `{KernelLaws K} `{HashOrder} `{SiteHandlers H}.

(** C15. End to end, for the poll model: for any number of rounds, whatever the
    kernel reports and however it cuts reads and writes, the server neither
    panics nor sticks, every client has been written a part of exactly the
    session of what was read from it, and an open connection's state machine
    holds what is missing of it. *)
Theorem poll_serves_sessions n l cfg (k : K) (app : App H) (Hfit : fits app) :
  match Poll_serve l cfg n (mkWorld (traced k) app) with
  | Ret (Ok st) => serves_sessions app st.(conns).(slots) (kernel st)
  | Ret (Err _) => True
  | Panic | Diverge => False
  end.
Proof.
  unfold Poll_serve. destruct (set_nonblocking l (kern (mkWorld (traced k) app))) as [[u|e] t] eqn:Es; [|done].
  apply set_nonblocking_log in Es. set (st := mkPoll _ ConnTable_new ∅).
  pose proof (poll_start_inv cfg (set_kern t (mkWorld (traced k) app)) (fits_all app Hfit)) as Hi.
  destruct (poll_iterations_inv l cfg _ n st Hi) as (st' & Hit & _). rewrite Hit. cbn.
  apply faithful_sessions. apply (poll_iterations_recorded l cfg _ app n st st' Hi); [|done].
  split; [|done]. by eapply faithful_log; [apply faithful_start|exact Es|done].
Qed.
End Claim.

(** Two clients at a table for two; the first, descriptor 4, sent a request and
    its answer is next. *)
Lemma poll_serves_sessions_witness :
  exists st, Poll_serve 3 sample_config 5 (mkWorld (traced sim_poll) sample_app) = Ret (Ok st) /\
    received <$> (kernel st).(current) !! 4%Z = Some [get_root] /\
    serves_sessions sample_app st.(conns).(slots) (kernel st).
Proof.
  pose proof (poll_serves_sessions 5 3 sample_config sim_poll sample_app sample_app_fits) as Hrun.
  assert (match Poll_serve 3 sample_config 5 (mkWorld (traced sim_poll) sample_app) with
    | Ret (Ok st) => bool_decide (received <$> (kernel st).(current) !! 4%Z = Some [get_root])
    | _ => false end = true) as Hok by (vm_compute; reflexivity).
  destruct (Poll_serve 3 sample_config 5 (mkWorld (traced sim_poll) sample_app)) as [[st|e]| |];
    [|discriminate Hok|contradiction|contradiction].
  exists st. split; [reflexivity|]. split; [by apply bool_decide_eq_true in Hok|exact Hrun].
Defined.
