(* ===== verification/Blocking.v ===== *)
(** * The blocking serve loop and the iterative model

    server/src/models/blocking.rs and server/src/models/iterative.rs, whose
    [handle_conn] has the same body as [serve_connection]. *)

From S2P Require Import Prelude RustStr Http Response Request App Conn ConnSpec Syscall Listener EventIo.

Section Blocking.
Context {K H : Type} `{Kernel K} `{Handlers H}.

(** The [loop]; the result is what the function returns. *)
Fixpoint serve_loop (fuel : nat) (fd : Z) (w : World K H) (c : Connection) (action : ConnAction)
    : outcome (World K H * result unit IoError) :=
  match fuel with
  | 0 => Diverge
  | S fuel =>
    match action with
    | WantRead =>
      let '(r, k) := k_read fd READ_CHUNK w.(kern) in
      let w := set_kern k w in
      match r with
      | Err e => Ret (w, Err e)
      | Ok [] => Ret (w, Ok tt)
      | Ok bs => '(c, action) ← on_bytes c bs w.(wapp); serve_loop fuel fd w c action
      end
    | WantWrite =>
      pending ← pending_write c;
      let '(r, k) := k_write fd pending w.(kern) in
      let w := set_kern k w in
      match r with
      | Err e => Ret (w, Err e)
      | Ok n => let '(c, action) := on_written (now k) c n in serve_loop fuel fd w c action
      end
    | Close => Ret (w, Ok tt)
    end
  end.

(** The stream is owned: it is closed on every way out. *)
Definition close_stream (fd : Z) (r : World K H * result unit IoError)
    : World K H * result unit IoError :=
  (set_kern (k_close fd r.1.(kern)) r.1, r.2).

Definition serve_connection (fuel : nat) (fd : Z) (cfg : ServerConfig) (w : World K H)
    : outcome (World K H * result unit IoError) :=
  match k_set_read_timeout fd cfg.(read_timeout) w.(kern) with
  | (Err e, k) => Ret (close_stream fd (set_kern k w, Err e))
  | (Ok _, k) =>
    match k_set_write_timeout fd cfg.(write_timeout) k with
    | (Err e, k) => Ret (close_stream fd (set_kern k w, Err e))
    | (Ok _, k) =>
      let conn := Connection_new (now k) cfg.(read_timeout) in
      r ← serve_loop fuel fd (set_kern k w) conn WantRead;
      Ret (close_stream fd r)
    end
  end.

(** ** The iterative model *)

Definition handle_conn (fuel : nat) (fd : Z) (cfg : ServerConfig) (w : World K H)
    : outcome (World K H * result unit IoError) := serve_connection fuel fd cfg w.

(** One round of the accept loop of [serve]. *)
Definition iterative_round (fuel : nat) (listener : Z) (cfg : ServerConfig) (w : World K H)
    : outcome (World K H) :=
  match k_accept listener w.(kern) with
  | (Ok stream, k) =>
    let w := w_inc_connections (set_kern k w) in
    '(w, r) ← handle_conn fuel stream cfg w;
    Ret (match r with Ok _ => w | Err _ => w_inc_errors w end)
  | (Err _, k) => Ret (set_kern k w)
  end.

(** At most [n] rounds of the [loop]. *)
Fixpoint iterative_rounds (n fuel : nat) (listener : Z) (cfg : ServerConfig) (w : World K H)
    : outcome (World K H) :=
  match n with
  | 0 => Ret w
  | S n => w ← iterative_round fuel listener cfg w; iterative_rounds n fuel listener cfg w
  end.

Definition Iterative_serve `{!Sockets K} (n fuel : nat) (cfg : ServerConfig) (w : World K H)
    : outcome (result (World K H) IoError) :=
  match bind_listener cfg.(addr) false w.(kern) with
  | (Err e, _) => Ret (Err e)
  | (Ok listener, k) => w ← iterative_rounds n fuel listener cfg (set_kern k w); Ret (Ok w)
  end.
End Blocking.
