(* ===== verification/BlockingProps.v ===== *)
(** * What a client is served

    The blocking loop and the iterative model against the session. *)

From S2P Require Import Prelude RustStr Http Response Request RequestSpec RequestRefine RequestProps Router Asset App Conn ConnSpec ConnProps Site Syscall SysPoll EventIo EventIoProps Session Trace Sim Blocking.

(** ** The blocking loop *)

Section Loop.
Context {K H : Type} `{KernelLaws K} `{Handlers H}.

(** Where the loop may stop well: closed, or at the end of the input. *)
Definition rests (a : AConn) : Prop := match a with AWriting _ _ => False | _ => True end.

(** What a run of the loop from [a] does. *)
Definition runs_from (fd : Z) (w : World K H) (c : Connection) (a : AConn) : Prop :=
  exists fuel0 k' r ios a', (forall fuel, fuel0 <= fuel ->
      serve_loop fuel fd w c (a_action a) = Ret (set_kern k' w, r)) /\
    performs fd w.(kern) ios k' /\ moves w.(wapp) a ios a' /\ opened k' = opened w.(kern) /\
    (r = Ok tt -> rests a').

Lemma runs_stop fd w c a k' r :
  serve_loop 1 fd w c (a_action a) = Ret (set_kern k' w, r) ->
  (forall fuel, 1 <= fuel -> serve_loop fuel fd w c (a_action a) = serve_loop 1 fd w c (a_action a)) ->
  performs fd w.(kern) [] k' -> opened k' = opened w.(kern) -> (r = Ok tt -> rests a) ->
  runs_from fd w c a.
Proof.
  intros Hrun Hf Hp Ho Hr. exists 1, k', r, [], a. split_and!; try done; [|constructor].
  intros fuel Hfuel. by rewrite Hf.
Qed.

Lemma runs_step fd w c a io k1 c1 a1 :
  (forall fuel, serve_loop (S fuel) fd w c (a_action a) =
     serve_loop fuel fd (set_kern k1 w) c1 (a_action a1)) ->
  (forall l k2, performs fd k1 l k2 -> performs fd w.(kern) (io :: l) k2) ->
  (forall l a2, moves w.(wapp) a1 l a2 -> moves w.(wapp) a (io :: l) a2) ->
  opened k1 = opened w.(kern) ->
  runs_from fd (set_kern k1 w) c1 a1 -> runs_from fd w c a.
Proof.
  intros Hs Hp Hm Ho (fuel0 & k' & r & ios & a' & Hf & Hp' & Hm' & Ho' & Hr).
  exists (S fuel0), k', r, (io :: ios), a'. cbn [set_kern kern wapp] in *.
  split_and!; auto; [|congruence].
  intros [|fuel] Hfuel; [lia|]. rewrite Hs. apply Hf. lia.
Qed.

(** From a reading connection, given the runs with a smaller budget. *)
Lemma serve_read_spec b fd w c s :
  (forall w c a, budget w.(kern) < b -> all_fit w.(wapp) -> refines c a -> runs_from fd w c a) ->
  budget w.(kern) <= b -> all_fit w.(wapp) -> refines c (AReading s) -> runs_from fd w c (AReading s).
Proof.
  intros Hless Hle Hfit Hr.
  destruct (k_read fd READ_CHUNK (kern w)) as [r k1] eqn:Er.
  pose proof (read_frame _ _ _ _ _ Er) as (Ho & _ & _). destruct r as [[|x bs]|e].
  - apply (runs_stop _ _ _ _ k1 (Ok tt)); [cbn; by rewrite Er| | |done|done].
    + intros [|fuel] Hf; [lia|]. cbn. by rewrite Er.
    + by eapply performs_no_read.
  - destruct (on_bytes_refines w.(wapp) (Hfit _ (same_site_refl _)) c _ (x :: bs) Hr)
      as (c1 & Hon & Hr1 & _).
    apply (runs_step _ _ _ _ (Received (x :: bs)) k1 c1 (a_bytes w.(wapp) (AReading s) (x :: bs))).
    + intros fuel. cbn [serve_loop a_action]. rewrite Er. cbn [set_kern wapp]. rewrite Hon. done.
    + intros l k2. by apply performs_read.
    + intros l a2. apply moves_in.
    + done.
    + apply Hless; [|done|done]. cbn. pose proof (read_budget _ _ _ _ _ _ Er). lia.
  - apply (runs_stop _ _ _ _ k1 (Err e)); [cbn; by rewrite Er| | |done|done].
    + intros [|fuel] Hf; [lia|]. cbn. by rewrite Er.
    + by eapply performs_no_read.
Qed.

Lemma serve_loop_spec fd w c a :
  all_fit w.(wapp) -> refines c a -> runs_from fd w c a.
Proof.
  remember (budget w.(kern)) as b eqn:Hb. assert (budget w.(kern) <= b) as Hle by lia. clear Hb.
  revert w c a Hle. induction b as [b IH] using lt_wf_ind. intros w c a Hle Hfit Hr.
  assert (forall w c a, budget w.(kern) < b -> all_fit w.(wapp) -> refines c a -> runs_from fd w c a)
    as Hless. { intros w0 c0 a0 Hlt. by apply (IH (budget (kern w0))). }
  pose proof (fun w c s => serve_read_spec b fd w c s Hless) as Hread.
  destruct a as [s|u next|]; [by apply Hread| |].
  - remember (length u) as n eqn:Hn. revert w c u Hn Hle Hfit Hr.
    induction n as [n IHn] using lt_wf_ind. intros w c u -> Hle Hfit Hr.
    destruct (k_write fd u (kern w)) as [r k1] eqn:Ew.
    pose proof (write_frame _ _ _ _ _ Ew) as (Ho & _ & Hbud).
    pose proof (refines_unsent _ _ _ Hr) as Hu. destruct r as [n|e].
    + destruct u as [|u0 us] eqn:Eu; [done|]. pose proof (write_some _ _ _ _ _ _ Ew) as Hpos.
      rewrite <-Eu in *. destruct n as [|n]; [lia|].
      destruct (on_written_refines (now k1) c _ (S n) Hr) as (c1 & Hon & Hr1 & _).
      apply (runs_step _ _ _ _ (Sent (take (S n) u)) k1 c1 (a_written (AWriting u next) (S n))).
      * intros fuel. cbn [serve_loop a_action]. rewrite (pending_write_refines _ _ Hr).
        cbn [mbind outcome_bind]. by rewrite Ew, Hon.
      * intros l k2. by apply performs_write.
      * intros l a2. apply moves_out.
      * done.
      * cbn [a_written] in Hr1 |- *. destruct (Nat.ltb_spec (S n) (length u)).
        -- apply (IHn (length (drop (S n) u))); [rewrite length_drop; lia|done|cbn; lia|done|done].
        -- destruct next as [s|]; [apply Hread; [cbn; lia|done|done]|].
           apply (runs_stop _ _ _ _ k1 (Ok tt)); try done; [|constructor].
           intros [|fuel] Hf; [lia|done].
    + apply (runs_stop _ _ _ _ k1 (Err e)); try done.
      * cbn. rewrite (pending_write_refines _ _ Hr). cbn. by rewrite Ew.
      * intros [|fuel] Hf; [lia|]. cbn. rewrite (pending_write_refines _ _ Hr). cbn. by rewrite Ew.
      * by eapply performs_no_write.
  - apply (runs_stop _ _ _ _ (kern w) (Ok tt)); try done; [by destruct w| |constructor].
    intros [|fuel] Hf; [lia|done].
Qed.

(** The kernel once the timeouts are set, or setting one has failed. *)
Definition timeouts_set (fd : Z) (cfg : ServerConfig) (k : K) : K :=
  match k_set_read_timeout fd cfg.(read_timeout) k with
  | (Err _, k) => k
  | (Ok _, k) => (k_set_write_timeout fd cfg.(write_timeout) k).2
  end.

(** The exchange of a whole connection with its socket, from the time its
    timeouts are set to the close. *)
Lemma serve_connection_spec fd cfg (w : World K H) :
  all_fit w.(wapp) ->
  exists fuel0 k1 r ios, (forall fuel, fuel0 <= fuel ->
      serve_connection fuel fd cfg w = Ret (set_kern (k_close fd k1) w, r)) /\
    performs fd (timeouts_set fd cfg w.(kern)) ios k1 /\ opened k1 = opened w.(kern) /\
    exists a', moves w.(wapp) (AReading []) ios a' /\ (r = Ok tt -> rests a').
Proof.
  intros Hfit. unfold serve_connection, timeouts_set.
  destruct (k_set_read_timeout fd (read_timeout cfg) (kern w)) as [[u|e] k] eqn:E1;
    apply read_timeout_frame in E1 as (Ho1 & _).
  2: { exists 0, k, (Err e), []. split_and!; try done; [constructor|].
       exists (AReading []). split; [constructor|done]. }
  destruct (k_set_write_timeout fd (write_timeout cfg) k) as [[u'|e] k2] eqn:E2;
    apply write_timeout_frame in E2 as (Ho2 & _).
  2: { exists 0, k2, (Err e), []. split_and!; try done; [constructor|congruence|].
       exists (AReading []). split; [constructor|done]. }
  destruct (serve_loop_spec fd (set_kern k2 w) _ (AReading []) Hfit
    (refines_new (now k2) (read_timeout cfg))) as (fuel0 & k' & r & ios & a' & Hf & Hp & Hm & Ho & Hr).
  exists fuel0, k', r, ios. split_and!; try done.
  - intros fuel Hfuel. cbn [a_action] in Hf. rewrite Hf by done. done.
  - cbn in Ho. congruence.
  - by exists a'.
Qed.

(** Functional, with termination: with enough fuel the blocking loop
    returns; what it has written is a prefix of, and when it ends without an
    I/O error all of, the [session] of the chunks it has read; it never
    panics, and the connection's descriptor is closed on every way out. *)
Theorem serve_connection_session fd cfg (w : World K H) (Hfit : all_fit w.(wapp)) :
  exists fuel0 k1 r ios, (forall fuel, fuel0 <= fuel ->
      serve_connection fuel fd cfg w = Ret (set_kern (k_close fd k1) w, r)) /\
    performs fd (timeouts_set fd cfg w.(kern)) ios k1 /\ opened (k_close fd k1) = opened w.(kern) ∖ {[fd]} /\
    sent ios `prefix_of` session w.(wapp) [] (received ios) /\
    (r = Ok tt -> sent ios = session w.(wapp) [] (received ios)).
Proof.
  destruct (serve_connection_spec fd cfg w Hfit) as (fuel0 & k1 & r & ios & Hf & Hp & Ho & a' & Hm & Hr).
  exists fuel0, k1, r, ios. pose proof (moves_output _ _ _ _ [] Hm) as Hout.
  rewrite app_nil_r in Hout. cbn [output] in Hout. split_and!; [done|done| | |].
  - by rewrite (proj1 (close_effect fd k1)), Ho.
  - rewrite Hout. by apply prefix_app_r.
  - intros Hok. specialize (Hr Hok). rewrite Hout.
    destruct a'; [|done|]; cbn; by rewrite app_nil_r.
Qed.

(** C8. End to end: a client that sends printable keep-alive requests one
    after the other, each cut into reads in any way, and whose connection gets
    no I/O error ([serve_connection] returns [Ok]), is written exactly the answers to its requests, in order. *)
Theorem requests_answered_in_order fd cfg (w : World K H) xs (Hfit : all_fit w.(wapp))
    (Hxs : Forall sending_ok xs) :
  exists fuel0 k1 r ios, (forall fuel, fuel0 <= fuel ->
      serve_connection fuel fd cfg w = Ret (set_kern (k_close fd k1) w, r)) /\
    performs fd (timeouts_set fd cfg w.(kern)) ios k1 /\
    (received ios = concat (chunks <$> xs) -> r = Ok tt ->
     sent ios = concat ((fun x => answer w.(wapp) x.(sent_request)) <$> xs)).
Proof.
  destruct (serve_connection_spec fd cfg w Hfit) as (fuel0 & k1 & r & ios & Hf & Hp & Ho & a' & Hm & Hr).
  exists fuel0, k1, r, ios. split_and!; [done|done|]. intros Hrec Hok. specialize (Hr Hok).
  pose proof (moves_output _ _ _ _ [] Hm) as Hout. rewrite app_nil_r, Hrec in Hout. cbn [output] in Hout.
  rewrite session_all in Hout by done. rewrite Hout.
  destruct a'; [|done|]; cbn; by rewrite app_nil_r.
Qed.

(** A round of the accept loop, with the exchange of the connection it
    accepted. *)
Lemma iterative_round_spec l cfg (w : World K H) :
  all_fit w.(wapp) ->
  match k_accept l w.(kern) with
  | (Err _, k) => opened k = opened w.(kern) /\
      forall fuel, iterative_round fuel l cfg w = Ret (set_kern k w)
  | (Ok fd, k) => exists fuel0 k1 (r : result unit IoError) ios,
      (forall fuel, fuel0 <= fuel -> iterative_round fuel l cfg w =
         Ret (match r with Ok _ => w_inc_connections (set_kern (k_close fd k1) w)
              | Err _ => w_inc_errors (w_inc_connections (set_kern (k_close fd k1) w)) end)) /\
      performs fd (timeouts_set fd cfg k) ios k1 /\ opened (k_close fd k1) = opened w.(kern) /\
      exists a', moves (app_inc_connections w.(wapp)) (AReading []) ios a' /\ (r = Ok tt -> rests a')
  end.
Proof.
  intros Hfit. unfold iterative_round, handle_conn.
  destruct (k_accept l (kern w)) as [[fd|e] k] eqn:Ea; apply accept_effect in Ea; [|done].
  destruct Ea as [Hnew Ho].
  destruct (serve_connection_spec fd cfg (w_inc_connections (set_kern k w)))
    as (fuel0 & k1 & r & ios & Hf & Hp & Ho1 & Hm).
  { eapply all_fit_same; [exact Hfit|done]. }
  exists fuel0, k1, r, ios. split_and!; [|done| |exact Hm].
  - intros fuel Hfuel. rewrite Hf by done. by destruct r.
  - cbn in Ho1. rewrite (proj1 (close_effect fd k1)), Ho1, Ho. set_solver.
Qed.

(** With enough fuel a round from [w] ends in [w1]. *)
Definition round_to (l : Z) (cfg : ServerConfig) (w w1 : World K H) : Prop :=
  exists fuel0, forall fuel, fuel0 <= fuel -> iterative_round fuel l cfg w = Ret w1.

(** A result does not depend on the fuel. *)
Lemma serve_loop_more fuel fuel' fd (w : World K H) c act x :
  fuel <= fuel' -> serve_loop fuel fd w c act = Ret x -> serve_loop fuel' fd w c act = Ret x.
Proof.
  revert fuel' w c act. induction fuel as [|fuel IH]; intros [|fuel'] w c act Hle E; [done|done|lia|].
  cbn [serve_loop] in E |- *. apply le_S_n in Hle. destruct act; [| |done].
  - destruct (k_read fd READ_CHUNK (kern w)) as [[[|b bs]|e] k]; [done| |done].
    destruct (on_bytes c (b :: bs) (wapp (set_kern k w))) as [[c1 act1]| |]; [|done..].
    exact (IH fuel' _ _ _ Hle E).
  - destruct (pending_write c) as [p| |]; [|done..]. cbn [mbind outcome_bind] in E |- *.
    destruct (k_write fd p (kern w)) as [[n|e] k]; [|done].
    destruct (on_written (now k) c n) as [c1 act1]. exact (IH fuel' _ _ _ Hle E).
Qed.

Lemma serve_connection_more fuel fuel' fd cfg (w : World K H) x :
  fuel <= fuel' -> serve_connection fuel fd cfg w = Ret x -> serve_connection fuel' fd cfg w = Ret x.
Proof.
  intros Hle. unfold serve_connection.
  destruct (k_set_read_timeout fd (read_timeout cfg) (kern w)) as [[u|e] k]; [|done].
  destruct (k_set_write_timeout fd (write_timeout cfg) k) as [[u'|e] k2]; [|done].
  destruct (serve_loop fuel fd (set_kern k2 w) _ WantRead) as [y| |] eqn:E; [|done..].
  by rewrite (serve_loop_more _ _ _ _ _ _ _ Hle E).
Qed.

(** One bad client never takes the server down: a round of the iterative
    accept loop returns, leaves no descriptor open, keeps the routes and
    assets, counts the connection if it accepted one, and the error if serving
    it failed. *)
Theorem iterative_round_survives l cfg (w : World K H) (Hfit : all_fit w.(wapp)) :
  exists fuel0 w', (forall fuel, fuel0 <= fuel -> iterative_round fuel l cfg w = Ret w') /\
    opened w'.(kern) = opened w.(kern) /\
    match (k_accept l w.(kern)).1 with
    | Err _ => w'.(wapp) = w.(wapp)
    | Ok _ => w'.(wapp) = app_inc_connections w.(wapp) \/
              w'.(wapp) = app_inc_errors (app_inc_connections w.(wapp))
    end.
Proof.
  pose proof (iterative_round_spec l cfg w Hfit) as Hs.
  destruct (k_accept l (kern w)) as [[fd|e] k]; cbn [fst].
  - destruct Hs as (fuel0 & k1 & r & ios & Hf & _ & Ho & _). eexists fuel0, _. split; [exact Hf|].
    destruct r; auto.
  - destruct Hs as [Ho Hf]. exists 0, (set_kern k w). by split; [intros fuel _|].
Qed.
End Loop.

(** ** Runs *)

(** The root request in two reads. *)
Definition sample_sending : Sending :=
  mkSending (B "GET") sample_request [B "GET / HT"; B "TP/1.1" ++ CRLF ++ CRLF].

Lemma sample_sending_ok : sending_ok sample_sending.
Proof.
  split_and!; [by vm_compute|by vm_compute|by vm_compute| |by vm_compute].
  apply Forall_cons_2; [done|]. apply Forall_cons_2; [done|]. apply Forall_nil_2.
Qed.

Lemma serve_connection_session_witness :
  exists fuel0 k1 r ios, (forall fuel, fuel0 <= fuel ->
      serve_connection fuel 5 (ServerConfig_default (E:=IoError) (Ok 4%N)) (mkWorld sim_request sample_app) =
        Ret (set_kern (k_close 5 k1) (mkWorld sim_request sample_app), r)) /\
    performs 5 (timeouts_set 5 (ServerConfig_default (E:=IoError) (Ok 4%N)) sim_request) ios k1 /\ opened (k_close 5 k1) = opened sim_request ∖ {[5%Z]} /\
    sent ios `prefix_of` session sample_app [] (received ios) /\
    (r = Ok tt -> sent ios = session sample_app [] (received ios)).
Proof. exact (serve_connection_session 5 _ (mkWorld sim_request sample_app) sample_all_fit). Defined.

(** A client just accepted that sends the root request twice, in four pieces,
    and closes. *)
Definition two_requests : Traced Sim :=
  mkTraced (mkSim 0 0 (list_to_set [3; 4; 5]%Z) 0
    ((fun b => (5%Z, b)) <$> concat (chunks <$> [sample_sending; sample_sending]) ++ [[]]) [] ∅ [] ∅)
    {[5%Z := []]} [].

(** The service returned well, having read both requests. *)
Definition both_read (o : outcome (World (Traced Sim) Handler * result unit IoError)) : bool :=
  match o with
  | Ret (w, Ok _) => bool_decide (received <$> w.(kern).(current) !! 5%Z =
      Some (concat (chunks <$> [sample_sending; sample_sending])))
  | _ => false
  end.

Lemma requests_answered_in_order_witness :
  Forall sending_ok [sample_sending; sample_sending] /\
  exists fuel0 k1 ios, (forall fuel, fuel0 <= fuel ->
      serve_connection fuel 5 (ServerConfig_default (E:=IoError) (Ok 4%N)) (mkWorld two_requests sample_app) =
        Ret (set_kern (k_close 5 k1) (mkWorld two_requests sample_app), Ok tt)) /\
    performs 5 (timeouts_set 5 (ServerConfig_default (E:=IoError) (Ok 4%N)) two_requests) ios k1 /\
    received ios = concat (chunks <$> [sample_sending; sample_sending]) /\
    sent ios = answer sample_app sample_request ++ answer sample_app sample_request.
Proof.
  assert (Forall sending_ok [sample_sending; sample_sending]) as Hxs
    by (apply Forall_cons_2; [|apply Forall_cons_2; [|apply Forall_nil_2]]; exact sample_sending_ok).
  split; [exact Hxs|].
  destruct (requests_answered_in_order 5 (ServerConfig_default (E:=IoError) (Ok 4%N)) (mkWorld two_requests sample_app)
    _ sample_all_fit Hxs) as (fuel0 & k1 & r & ios & Hf & Hp & Hans).
  assert (both_read (serve_connection 40 5 (ServerConfig_default (E:=IoError) (Ok 4%N)) (mkWorld two_requests sample_app)) = true)
    as Hok by by vm_compute.
  destruct (serve_connection 40 5 _ _) as [x| |] eqn:E in Hok; [|discriminate Hok..].
  apply (serve_connection_more _ (max fuel0 40)) in E; [|lia]. rewrite Hf in E by lia. injection E as <-.
  cbn [both_read] in Hok. destruct r as [[]|e]; [|discriminate Hok].
  apply bool_decide_eq_true in Hok. cbn [set_kern kern] in Hok.
  destruct (performs_log _ _ _ _ Hp) as [Ec _].
  change (received <$> k1.(current) !! 5%Z = Some (concat (chunks <$> [sample_sending; sample_sending]))) in Hok.
  rewrite Ec, lookup_alter_eq in Hok. change (Some (received ios) = Some (concat (chunks <$> [sample_sending; sample_sending]))) in Hok.
  injection Hok as Hrec. exists fuel0, k1, ios. split; [exact Hf|]. split; [exact Hp|]. split; [exact Hrec|].
  rewrite (Hans Hrec eq_refl). cbn [fmap list_fmap concat sent_request sample_sending wapp]. by rewrite app_nil_r.
Defined.

Lemma iterative_round_survives_witness :
  let w := mkWorld (mkSim 0 0 {[3%Z]} 1 [(4%Z, B "junk" ++ CRLF)] [] ∅ [] ∅) sample_app in
  exists fuel0 w', (forall fuel, fuel0 <= fuel ->
      iterative_round fuel 3 (ServerConfig_default (E:=IoError) (Ok 4%N)) w = Ret w') /\
    opened w'.(kern) = opened w.(kern) /\
    (w'.(wapp) = app_inc_connections sample_app \/
     w'.(wapp) = app_inc_errors (app_inc_connections sample_app)).
Proof. intros w. exact (iterative_round_survives 3 _ w sample_all_fit). Defined.
