(* ===== verification/Serving.v ===== *)
(** * Serving threads

    [serve_connection] of server/src/models/blocking.rs one system call at a
    time, for the models that run it on many threads of one process: what a
    thread has still to do with its stream is a [Task], and the process owns
    a [Crew] of them, by descriptor. *)

From S2P Require Import Prelude RustStr Http Response Request App Conn ConnSpec Syscall EventIo Blocking.

(** Before [set_read_timeout], the stream being also that of no thread yet;
    before [set_write_timeout]; at the top of the [loop]; and returning. *)
Inductive Task :=
  | SettingRead
  | SettingWrite
  | Looping (c : Connection) (action : ConnAction)
  | Finished (r : result unit IoError).

Definition finished (t : Task) : bool := match t with Finished _ => true | _ => false end.

Section Serving.
Context {K H : Type} `{Kernel K} `{Handlers H} (cfg : ServerConfig).

(** ** A thread *)

(** One round of the [loop]. *)
Definition loop_step (fd : Z) (app : App H) (c : Connection) (action : ConnAction) (k : K)
    : outcome (Task * K) :=
  match action with
  | WantRead =>
    let '(r, k) := k_read fd READ_CHUNK k in
    match r with
    | Err e => Ret (Finished (Err e), k)
    | Ok [] => Ret (Finished (Ok tt), k)
    | Ok bs => '(c, action) ← on_bytes c bs app; Ret (Looping c action, k)
    end
  | WantWrite =>
    pending ← pending_write c;
    let '(r, k) := k_write fd pending k in
    match r with
    | Err e => Ret (Finished (Err e), k)
    | Ok n => let '(c, action) := on_written (now k) c n in Ret (Looping c action, k)
    end
  | Close => Ret (Finished (Ok tt), k)
  end.

Definition task_step (fd : Z) (app : App H) (t : Task) (k : K) : outcome (Task * K) :=
  match t with
  | SettingRead =>
    let '(r, k) := k_set_read_timeout fd cfg.(read_timeout) k in
    Ret (match r with Ok _ => SettingWrite | Err e => Finished (Err e) end, k)
  | SettingWrite =>
    let '(r, k) := k_set_write_timeout fd cfg.(write_timeout) k in
    Ret (match r with
         | Ok _ => Looping (Connection_new (now k) cfg.(read_timeout)) WantRead
         | Err e => Finished (Err e)
         end, k)
  | Looping c action => loop_step fd app c action k
  | Finished _ => Ret (t, k)
  end.

Fixpoint task_steps (n : nat) (fd : Z) (app : App H) (t : Task) (k : K) : outcome (Task * K) :=
  match n with
  | 0 => Ret (t, k)
  | S n => '(t, k) ← task_step fd app t k; task_steps n fd app t k
  end.

Lemma task_steps_finished n fd app r k : task_steps n fd app (Finished r) k = Ret (Finished r, k).
Proof. by induction n. Qed.

(** What the function returns, once its stream is dropped. *)
Definition returned (fd : Z) (w : World K H) (t : Task) (k : K) : outcome (World K H * result unit IoError) :=
  match t with
  | Finished r => Ret (set_kern (k_close fd k) w, r)
  | _ => Diverge
  end.

Lemma loop_tasks fuel fd (w : World K H) c action :
  serve_loop fuel fd w c action =
    ('(t, k) ← task_steps fuel fd w.(wapp) (Looping c action) w.(kern);
     match t with Finished r => Ret (set_kern k w, r) | _ => Diverge end).
Proof.
  revert w c action. induction fuel as [|fuel IH]; intros w c action; [done|].
  cbn [serve_loop task_steps task_step]. unfold loop_step. destruct action.
  - destruct (k_read fd READ_CHUNK (kern w)) as [[[|b bs]|e] k]; cbn [mbind outcome_bind];
      rewrite ?task_steps_finished; try done. cbn [set_kern wapp].
    destruct (on_bytes c (b :: bs) (wapp w)) as [[c1 act]| |]; try done. cbn [mbind outcome_bind]. by rewrite IH.
  - destruct (pending_write c) as [p| |]; try done. cbn [mbind outcome_bind].
    destruct (k_write fd p (kern w)) as [[n|e] k]; cbn [mbind outcome_bind]; [|by rewrite task_steps_finished].
    cbn [set_kern kern]. destruct (on_written (now k) c n) as [c1 act]. by rewrite IH.
  - cbn [mbind outcome_bind]. rewrite task_steps_finished. by destruct w.
Qed.

(** ** The streams of a process *)

Record Crew := mkCrew { ck : K; tasks : gmap Z Task }.

(** [accept]: the stream is owned, and served by no thread yet. *)
Definition crew_accept (l : Z) (s : Crew) : result Z IoError * Crew :=
  let '(r, k) := k_accept l s.(ck) in
  (r, mkCrew k (match r with Ok fd => <[fd := SettingRead]> s.(tasks) | Err _ => s.(tasks) end)).

(** The thread of [fd] goes on. *)
Definition crew_step (app : App H) (fd : Z) (s : Crew) : option (outcome Crew) :=
  t ← s.(tasks) !! fd;
  if finished t then None else
  Some ('(t, k) ← task_step fd app t s.(ck); Ret (mkCrew k (<[fd := t]> s.(tasks)))).

(** The stream is dropped. *)
Definition crew_close (fd : Z) (s : Crew) : Crew :=
  mkCrew (k_close fd s.(ck)) (delete fd s.(tasks)).
End Serving.
Arguments Crew K : clear implicits.
Arguments mkCrew {K} _ _.
