(* ===== verification/ServingProps.v ===== *)
(** * Properties of the serving threads *)

From S2P Require Import Prelude RustStr Http Response Request RequestSpec RequestRefine Router Asset App Conn ConnSpec Site Syscall Socket ConnTable EventIo EventIoProps Session Trace Blocking BlockingProps Serving Sim.

(** ** A thread alone *)

Section Alone.
Context {K H : Type} `{KernelLaws K} `{Handlers H} (cfg : ServerConfig).

(** Equivalence: taken one system call at a time, a thread does exactly what
    [serve_connection] does, its result, its effects and its panics included. *)
Theorem tasks_are_serve_connection fuel fd (w : World K H) :
  serve_connection fuel fd cfg w =
    ('(t, k) ← task_steps cfg (S (S fuel)) fd w.(wapp) SettingRead w.(kern); returned fd w t k).
Proof.
  unfold serve_connection. cbn [task_steps task_step].
  destruct (k_set_read_timeout fd (read_timeout cfg) (kern w)) as [[u|e] k];
    cbn [mbind outcome_bind task_step]; [|by rewrite task_steps_finished].
  destruct (k_set_write_timeout fd (write_timeout cfg) k) as [[u'|e] k2]; cbn [mbind outcome_bind];
    [|by rewrite task_steps_finished].
  rewrite (loop_tasks cfg). cbn [set_kern wapp kern].
  destruct (task_steps cfg fuel fd (wapp w) _ k2) as [[[| |c act|r] k3]| |]; done.
Qed.

(** ** What a thread has exchanged *)

(** With the history of its stream. *)
Definition task_at (app : App H) (h : list IO) (t : Task) : Prop :=
  match t with
  | SettingRead | SettingWrite => h = []
  | Looping c action => exists a, moves app (AReading []) h a /\ refines c a /\ action = a_action a
  | Finished r => exists a, moves app (AReading []) h a /\ (r = Ok tt -> rests a)
  end.

Lemma task_at_run app h t : task_at app h t -> run_of app h.
Proof. destruct t; cbn; [intros ->; exists (AReading []); constructor..|intros (a & Hm & _); by exists a|intros (a & Hm & _); by exists a]. Qed.

(** What that says of the bytes exchanged. *)
Definition task_serves (app : App H) (h : list IO) (t : Task) : Prop :=
  match t with
  | SettingRead | SettingWrite => h = []
  | Looping c action => exists a, refines c a /\ action = a_action a /\
      session app [] (received h) = sent h ++ output app a []
  | Finished (Ok _) => sent h = session app [] (received h)
  | Finished (Err _) => True
  end.

Lemma task_at_serves app h t : task_at app h t -> task_serves app h t.
Proof.
  destruct t as [| |c action|[[]|e]]; [done..| | |done].
  - intros (a & Hm & Hr & ->). exists a. split_and!; try done. by apply moves_session.
  - intros (a & Hm & Hr). cbn. rewrite (moves_session app h a Hm).
    destruct a; [|by destruct (Hr eq_refl)|]; cbn; by rewrite app_nil_r.
Qed.

(** One step: nothing, or one exchange, with the socket of the thread. *)
Lemma task_step_spec app h fd t (k : K) :
  fits app -> task_at app h t -> exists t' k' ios, task_step cfg fd app t k = Ret (t', k') /\
    task_at app (h ++ ios) t' /\ opened k' = opened k /\
    match t with
    | SettingRead => ios = [] /\ exists r, k_set_read_timeout fd cfg.(read_timeout) k = (r, k')
    | SettingWrite => ios = [] /\ exists r, k_set_write_timeout fd cfg.(write_timeout) k = (r, k')
    | _ => performs fd k ios k'
    end.
Proof.
  intros Hfit Ht. destruct t as [| |c action|r]; cbn [task_step task_at] in *.
  - destruct (k_set_read_timeout _ _ k) as [r k'] eqn:E. pose proof (read_timeout_frame _ _ _ _ _ E) as [Ho _].
    eexists _, k', []. split; [done|]. rewrite Ht. split_and!; [|done..|by exists r]. destruct r; [done|].
    exists (AReading []). split; [constructor|done].
  - destruct (k_set_write_timeout _ _ k) as [r k'] eqn:E. pose proof (write_timeout_frame _ _ _ _ _ E) as [Ho _].
    eexists _, k', []. split; [done|]. rewrite Ht. split_and!; [|done..|by exists r].
    destruct r; exists (AReading []); (split; [constructor|]); [|done]. split; [apply refines_new|done].
  - destruct Ht as (a & Hm & Hr & ->). destruct a as [s|u next|]; cbn [a_action loop_step].
    + destruct (k_read fd READ_CHUNK k) as [[[|b bs]|e] k'] eqn:E;
        pose proof (read_frame _ _ _ _ _ E) as (Ho & _).
      * eexists _, k', []. rewrite app_nil_r. split_and!; [done|by exists (AReading s)|done|by eapply performs_no_read].
      * destruct (on_bytes_refines app Hfit c _ (b :: bs) Hr) as (c1 & -> & Hr1 & _).
        eexists _, k', [Received (b :: bs)]. split_and!; [done| |done|eapply performs_read; [done|constructor]].
        exists (a_bytes app (AReading s) (b :: bs)). split_and!; [|done..].
        eapply moves_trans; [exact Hm|]. constructor. constructor.
      * eexists _, k', []. rewrite app_nil_r. split_and!; [done|by exists (AReading s)|done|by eapply performs_no_read].
    + rewrite (pending_write_refines _ _ Hr). cbn [mbind outcome_bind].
      destruct (k_write fd u k) as [[n|e] k'] eqn:E; pose proof (write_frame _ _ _ _ _ E) as (Ho & _).
      * pose proof (refines_unsent _ _ _ Hr) as Hu. destruct u as [|u0 us] eqn:Eu; [done|].
        pose proof (write_some _ _ _ _ _ _ E) as Hpos. rewrite <-Eu in *. destruct n as [|n]; [lia|].
        destruct (on_written_refines (now k') c _ (S n) Hr) as (c1 & -> & Hr1 & _).
        eexists _, k', [Sent (take (S n) u)]. split_and!; [done| |done|eapply performs_write; [done|constructor]].
        exists (a_written (AWriting u next) (S n)). split_and!; [|done..].
        eapply moves_trans; [exact Hm|]. constructor. constructor.
      * eexists _, k', []. rewrite app_nil_r. split_and!; [done| |done|by eapply performs_no_write].
        by exists (AWriting u next).
    + eexists _, k, []. rewrite app_nil_r. split_and!; [done|by exists AClosed|done|constructor].
  - eexists _, k, []. rewrite app_nil_r. split_and!; [done|done|done|constructor].
Qed.

(** Whatever it has done, a thread that is left to run returns. *)
Lemma task_finishes app h fd t (k : K) :
  all_fit app -> task_at app h t -> exists n r k', task_steps cfg n fd app t k = Ret (Finished r, k').
Proof.
  intros Hfit Ht.
  assert (forall c a k, refines c a -> exists n r k',
    task_steps cfg n fd app (Looping c (a_action a)) k = Ret (Finished r, k')) as Hloop.
  { intros c a k0 Hr. destruct (serve_loop_spec fd (mkWorld k0 app) c a Hfit Hr)
      as (n & k' & r & _ & _ & Hf & _). specialize (Hf n (Nat.le_refl n)).
    rewrite (loop_tasks cfg) in Hf. cbn [wapp kern] in Hf.
    destruct (task_steps cfg n fd app _ k0) as [[[| |c1 act|r1] k1]| |] eqn:E; try done. by exists n, r1, k1. }
  assert (forall t k, t = SettingWrite \/ t = SettingRead -> exists n r k',
    task_steps cfg n fd app t k = Ret (Finished r, k')) as Hset.
  { assert (forall k, exists n r k', task_steps cfg n fd app SettingWrite k = Ret (Finished r, k')) as Hw.
    { intros k0. destruct (k_set_write_timeout fd (write_timeout cfg) k0) as [[u|e] k1] eqn:E.
      - destruct (Hloop (Connection_new (now k1) cfg.(read_timeout)) (AReading []) k1) as (n & r & k' & Hn);
          [apply refines_new|]. exists (S n), r, k'. cbn [task_steps task_step]. by rewrite E.
      - exists 1, (Err e), k1. cbn [task_steps task_step]. by rewrite E. }
    intros t0 k0 [->| ->]; [done|].
    destruct (k_set_read_timeout fd (read_timeout cfg) k0) as [[u|e] k1] eqn:E.
    - destruct (Hw k1) as (n & r & k' & Hn). exists (S n), r, k'. cbn [task_steps task_step]. by rewrite E.
    - exists 1, (Err e), k1. cbn [task_steps task_step]. by rewrite E. }
  destruct t as [| |c action|r]; [by apply Hset; right|by apply Hset; left| |by exists 0, r, k].
  destruct Ht as (a & _ & Hr & ->). by apply Hloop.
Qed.
End Alone.

(** ** A process *)

Section Crew.
Context {K H : Type} `{KernelLaws K} `{SiteHandlers H} (cfg : ServerConfig) (app : App H) (base : gset Z).

(** Beside the descriptors [base] the process has its streams open, and every
    thread is where the record of its stream has taken the automaton. *)
Record crew_inv (s : Crew (Traced K)) : Prop := {
  cv_opened : opened s.(ck) = base ∪ dom s.(tasks);
  cv_base : base ## dom s.(tasks);
  cv_records : faithful app (∅ : gmap Z Slot) s.(ck);
  cv_tasks : map_Forall (fun fd t => exists h, s.(ck).(current) !! fd = Some h /\ task_at app h t) s.(tasks);
}.

Lemma task_at_same app' h t : same_site app app' -> task_at app' h t <-> task_at app h t.
Proof.
  intros Hs. assert (same_site app' app) as Hs' by by destruct Hs.
  destruct t; cbn; [done..| |]; split; intros (a & Hm & Hr); exists a; (split; [|done]); by eapply moves_same.
Qed.

(** What is exchanged with one stream leaves the records of the others. *)
Lemma exchanged_records (t t' : Traced K) fd h ios :
  faithful app (∅ : gmap Z Slot) t -> t.(current) !! fd = Some h -> run_of app (h ++ ios) ->
  t'.(current) = alter (.++ ios) fd t.(current) -> t'.(past) = t.(past) ->
  faithful app (∅ : gmap Z Slot) t' /\ t'.(current) !! fd = Some (h ++ ios) /\
  forall fd', fd' <> fd -> t'.(current) !! fd' = t.(current) !! fd'.
Proof.
  intros Hf Hh [a Hm] Ec Ep. rewrite Ec, lookup_alter_eq, Hh. split_and!; [|done|by intros fd' ?; apply lookup_alter_ne].
  eapply faithful_exchanged; [done..|by exists a|done].
Qed.

Lemma crew_start_inv k : opened k = base -> crew_inv (mkCrew (traced k) ∅).
Proof.
  intros Ho. split; cbn [ck tasks]; [rewrite dom_empty_L; set_solver|rewrite dom_empty_L; set_solver|
    apply faithful_start|apply map_Forall_empty].
Qed.

Lemma accept_log l (t : Traced K) r t' :
  k_accept l t = (r, t') -> match r with Ok fd => begun fd t t' | Err _ => same_log t t' end.
Proof.
  intros E. cbn in E. unfold traced_accept in E. destruct (lift (k_accept l) t) as [r0 t0] eqn:E0.
  apply lift_inv in E0 as (k & _ & ->). simplify_eq. by destruct r.
Qed.

Lemma crew_accept_inv l s r s' :
  crew_inv s -> crew_accept l s = (r, s') -> crew_inv s' /\
  match r with
  | Ok fd => s.(tasks) !! fd = None /\ s'.(tasks) = <[fd := SettingRead]> s.(tasks)
  | Err _ => s'.(tasks) = s.(tasks)
  end.
Proof.
  intros [Ho Hb Hf Ht]. unfold crew_accept. destruct (k_accept l (ck s)) as [r0 k] eqn:E.
  intros E'. simplify_eq. pose proof (accept_log _ _ _ _ E) as Hlog. apply accept_effect in E.
  destruct r as [fd|e]; cbn [ck tasks] in *.
  - destruct E as [Hnew Ho']. rewrite Ho in Hnew.
    assert (tasks s !! fd = None) as Hnone by (apply not_elem_of_dom; set_solver).
    split; [|done]. split; cbn [ck tasks].
    + rewrite Ho', Ho, dom_insert_L. set_solver.
    + rewrite dom_insert_L. set_solver.
    + exact (faithful_begun app (∅ : gmap Z Slot) _ _ fd Hf Hlog (lookup_empty fd)).
    + destruct Hlog as [Hc _]. apply map_Forall_insert_2.
      * exists []. by rewrite Hc, lookup_insert_eq.
      * intros fd' t Hin. rewrite Hc, lookup_insert_ne by congruence. by apply Ht.
  - split; [|done]. split; cbn [ck tasks]; [by rewrite E|done|by eapply faithful_log|].
    destruct Hlog as [Hc _]. intros fd t Hin. rewrite Hc. by apply Ht.
Qed.

Lemma crew_close_inv fd s : crew_inv s -> is_Some (s.(tasks) !! fd) -> crew_inv (crew_close fd s).
Proof.
  intros [Ho Hb Hf Ht] Hin%elem_of_dom. split; cbn [crew_close ck tasks].
  - rewrite (proj1 (close_effect fd (ck s))), Ho, dom_delete_L. set_solver.
  - rewrite dom_delete_L. set_solver.
  - by eapply faithful_log.
  - by apply map_Forall_delete.
Qed.

(** A thread that has not finished can go on, whatever the others do, and does
    not panic. *)
Lemma crew_step_inv app' fd t s :
  all_fit app -> same_site app app' -> crew_inv s -> s.(tasks) !! fd = Some t -> finished t = false ->
  exists t' k', task_step cfg fd app' t s.(ck) = Ret (t', k') /\
    crew_step cfg app' fd s = Some (Ret (mkCrew k' (<[fd := t']> s.(tasks)))) /\
    crew_inv (mkCrew k' (<[fd := t']> s.(tasks))) /\ dom (<[fd := t']> s.(tasks)) = dom s.(tasks).
Proof.
  intros Hfit Hsite [Ho Hb Hf Ht] Hin Hnf. destruct (Ht fd t Hin) as (h & Hh & Hat).
  apply (task_at_same app' h t Hsite) in Hat.
  destruct (task_step_spec cfg app' h fd t (ck s) (Hfit app' Hsite) Hat) as (t' & k' & ios & Hst & Hat' & Ho' & Hio).
  assert (current k' = alter (.++ ios) fd (current (ck s)) /\ past k' = past (ck s)) as [Ec Ep].
  { assert (forall r (f : K -> result unit IoError * K), lift f (ck s) = (r, k') ->
      current k' = alter (.++ []) fd (current (ck s)) /\ past k' = past (ck s)) as Hlift.
    { intros r f [-> ->]%lift_log. split; [|done]. symmetry. apply map_eq. intros i.
      destruct (decide (i = fd)) as [->|]; [rewrite lookup_alter_eq, Hh; cbn; by rewrite app_nil_r|by rewrite lookup_alter_ne]. }
    destruct t; [destruct Hio as (-> & r & E); by apply Hlift in E|destruct Hio as (-> & r & E); by apply Hlift in E|
      by apply performs_log..]. }
  apply (task_at_same app' _ _ Hsite) in Hat'.
  destruct (exchanged_records _ k' fd h ios Hf Hh (task_at_run _ _ _ Hat') Ec Ep) as (Hf' & Hh' & Hne).
  assert (dom (<[fd := t']> (tasks s)) = dom (tasks s)) as Hdom.
  { rewrite dom_insert_L. apply elem_of_dom_2 in Hin. set_solver. }
  exists t', k'. split_and!; [done| | |done].
  - unfold crew_step. rewrite Hin. cbn [mbind option_bind]. by rewrite Hnf, Hst.
  - split; cbn [ck tasks]; rewrite ?Hdom; [by rewrite Ho'|done..|].
    intros fd' t'' [[<- <-]|[Hneq Hin']]%lookup_insert_Some; [by exists (h ++ ios)|].
    rewrite Hne by done. by apply Ht.
Qed.

(** A thread that is left to run finishes: an induction over what it does. *)
Lemma crew_finish_ind (P : Crew (Traced K) -> Prop) app' fd :
  all_fit app -> same_site app app' ->
  (forall s r, crew_inv s -> s.(tasks) !! fd = Some (Finished r) -> P s) ->
  (forall s s', crew_inv s -> crew_step cfg app' fd s = Some (Ret s') -> crew_inv s' ->
     dom s'.(tasks) = dom s.(tasks) -> P s' -> P s) ->
  forall s, crew_inv s -> is_Some (s.(tasks) !! fd) -> P s.
Proof.
  intros Hfit Hsite Hfin Hstep s Hi [t Hin]. destruct (cv_tasks _ Hi fd t Hin) as (h & _ & Hat).
  apply (task_at_same app' h t Hsite) in Hat.
  destruct (task_finishes cfg app' h fd t (ck s) (all_fit_same _ _ Hfit Hsite) Hat) as (n & r & k' & Hn).
  clear h Hat. revert s t Hi Hin Hn. induction n as [|n IH]; intros s t Hi Hin Hn.
  { injection Hn as -> _. by apply (Hfin s r). }
  destruct (finished t) eqn:Hnf; [destruct t; try done; by eapply Hfin|].
  destruct (crew_step_inv app' fd t s Hfit Hsite Hi Hin Hnf) as (t' & k1 & Hst & Hcr & Hi' & Hdom).
  cbn [task_steps] in Hn. rewrite Hst in Hn. cbn [mbind outcome_bind] in Hn.
  eapply Hstep; [done|exact Hcr|done|done|]. apply (IH _ t'); cbn [ck tasks]; [done| |done].
  apply lookup_insert_eq.
Qed.

(** ** What the clients saw *)

(** Every client was written a part of the session of what was read from it;
    where the loop runs, the state machine holds what is missing; a thread
    that returned without an error has written all of it. *)
Definition crew_serves (s : Crew (Traced K)) : Prop :=
  (forall h, h ∈ histories s.(ck) -> sent h `prefix_of` session app [] (received h)) /\
  forall fd t, s.(tasks) !! fd = Some t -> exists h, s.(ck).(current) !! fd = Some h /\ task_serves app h t.

Lemma crew_inv_serves s : crew_inv s -> crew_serves s.
Proof.
  intros [_ _ Hf Ht]. split; [by apply faithful_sessions in Hf as [Hf _]|].
  intros fd t Hin. destruct (Ht fd t Hin) as (h & Hh & Hat). exists h. split; [done|]. by apply task_at_serves.
Qed.
End Crew.
