(* ===== verification/Signals.v ===== *)
(** * Signal handlers

    server/src/sys/signal.rs: the two installers, the handlers they install,
    and what a delivered signal does to the process.  An [&'static] target is
    an address; [None] is the null pointer. *)

From S2P Require Import Prelude RustStr Http Syscall.

(** Linux signal numbers and [sigaction] flags. *)
Definition SIGINT : Z := 2.
Definition SIGTERM : Z := 15.
Definition SIGCHLD : Z := 17.
Definition SA_RESTART : Z := 268435456.
Definition SA_NOCLDSTOP : Z := 1.

Inductive SigHandler := Sigchld | Shutdown.

(** The statics of the module, the kernel's dispositions, the atomics that are
    pointed to, and the children that have exited. *)
Record Process := mkProcess {
  LIVE_CHILDREN : option Z;
  SHUTDOWN_FLAG : option Z;
  actions : gmap Z (SigHandler * Z);
  flags : gmap Z bool;
  counters : gmap Z N;
  exited : list Z;
}.

Definition set_flags (m : gmap Z bool) (p : Process) : Process :=
  mkProcess p.(LIVE_CHILDREN) p.(SHUTDOWN_FLAG) p.(actions) m p.(counters) p.(exited).
Definition set_exited (l : list Z) (p : Process) : Process :=
  mkProcess p.(LIVE_CHILDREN) p.(SHUTDOWN_FLAG) p.(actions) p.(flags) p.(counters) l.
Definition set_counters (m : gmap Z N) (p : Process) : Process :=
  mkProcess p.(LIVE_CHILDREN) p.(SHUTDOWN_FLAG) p.(actions) p.(flags) m p.(exited).

(** [sigaction] with an empty mask. *)
Definition install (signum : Z) (handler : SigHandler) (sa_flags : Z) (p : Process) : Process :=
  mkProcess p.(LIVE_CHILDREN) p.(SHUTDOWN_FLAG) (<[signum := (handler, sa_flags)]> p.(actions)) p.(flags)
    p.(counters) p.(exited).

Definition install_sigchld_reaper (live_children : Z) (p : Process) : Process :=
  install SIGCHLD Sigchld (Z.lor SA_RESTART SA_NOCLDSTOP)
    (mkProcess (Some live_children) p.(SHUTDOWN_FLAG) p.(actions) p.(flags) p.(counters) p.(exited)).

Definition install_shutdown_flag (flag : Z) (p : Process) : Process :=
  install SIGTERM Shutdown 0 (install SIGINT Shutdown 0
    (mkProcess p.(LIVE_CHILDREN) (Some flag) p.(actions) p.(flags) p.(counters) p.(exited))).

(** [waitpid(-1, &status, WNOHANG)]: 0 when no child has exited. *)
Definition waitpid_any (p : Process) : Z * Process :=
  match p.(exited) with
  | [] => (0%Z, p)
  | pid :: rest => (pid, set_exited rest p)
  end.

(** [fetch_sub(1)] of an [AtomicUsize]. *)
Definition counter_sub1 (counter : Z) (p : Process) : Process :=
  set_counters (alter (fun n => (n + 2 ^ 64 - 1) mod 2 ^ 64)%N counter p.(counters)) p.

(** The [loop] takes a child in every round but the last. *)
Fixpoint reap_loop (fuel : nat) (counter : Z) (p : Process) : outcome Process :=
  match fuel with
  | 0 => Diverge
  | S fuel =>
    let '(pid, p) := waitpid_any p in
    if (pid <=? 0)%Z then Ret p else reap_loop fuel counter (counter_sub1 counter p)
  end.

Definition sigchld_handler (p : Process) : outcome Process :=
  match p.(LIVE_CHILDREN) with
  | None => Ret p
  | Some counter => reap_loop (S (length p.(exited))) counter p
  end.

Definition shutdown_handler (p : Process) : Process :=
  match p.(SHUTDOWN_FLAG) with
  | None => p
  | Some flag => set_flags (<[flag := true]> p.(flags)) p
  end.

(** A signal that has a handler. *)
Definition deliver (signum : Z) (p : Process) : outcome Process :=
  match p.(actions) !! signum with
  | Some (Sigchld, _) => sigchld_handler p
  | Some (Shutdown, _) => Ret (shutdown_handler p)
  | None => Ret p
  end.

(** A blocking call is restarted after the handler, or fails with [EINTR]. *)
Definition restarts (signum : Z) (p : Process) : bool :=
  match p.(actions) !! signum with
  | Some (_, sa_flags) => Z.testbit sa_flags 28
  | None => true
  end.

(** ** Properties *)

Lemma reap_loop_all fuel counter p :
  length p.(exited) < fuel -> Forall (fun pid => 0 < pid)%Z p.(exited) ->
  exists p', reap_loop fuel counter p = Ret p' /\ p'.(exited) = [] /\ p'.(flags) = p.(flags) /\
    p'.(counters) = Nat.iter (length p.(exited))
      (alter (fun n => (n + 2 ^ 64 - 1) mod 2 ^ 64)%N counter) p.(counters).
Proof.
  revert p. induction fuel as [|fuel IH]; intros p Hf Hpos; [lia|]. cbn [reap_loop]. unfold waitpid_any.
  destruct (exited p) as [|pid rest] eqn:He; [by exists p|].
  apply Forall_cons in Hpos as [Hpid Hpos]. rewrite (proj2 (Z.leb_gt pid 0)) by done.
  destruct (IH (counter_sub1 counter (set_exited rest p))) as (p' & Hr & He' & Hfl & Hc); [cbn in *; lia|done|].
  exists p'. split_and!; [done..|]. rewrite Hc. cbn [length]. by rewrite Nat.iter_succ_r.
Qed.

Lemma iter_sub1 n (m : N) (counter : Z) (c : gmap Z N) :
  c !! counter = Some m -> (N.of_nat n <= m < 2 ^ 64)%N ->
  Nat.iter n (alter (fun n => (n + 2 ^ 64 - 1) mod 2 ^ 64)%N counter) c !! counter = Some (m - N.of_nat n)%N.
Proof.
  intros Hc. induction n as [|n IH]; intros Hn; [refine (eq_trans Hc _); f_equal; lia|].
  rewrite Nat.iter_succ, lookup_alter_eq, IH by lia. cbn [fmap option_fmap option_map]. f_equal.
  symmetry. apply (N.mod_unique _ _ 1); lia.
Qed.

(** Functional: with both installers run, SIGINT and SIGTERM raise the
    shutdown flag given last and nothing else, and interrupt blocking calls;
    SIGCHLD reaps every child that has exited, decrements the counter once for
    each without underflow, and restarts them. *)
Theorem signals_reach_their_target p flag counter n
    (Hn : p.(counters) !! counter = Some n)
    (Hle : (N.of_nat (length p.(exited)) <= n < 2 ^ 64)%N)
    (Hpos : Forall (fun pid => 0 < pid)%Z p.(exited)) :
  let q := install_shutdown_flag flag (install_sigchld_reaper counter p) in
  (forall signum, signum = SIGINT \/ signum = SIGTERM ->
    exists q', deliver signum q = Ret q' /\ q'.(flags) = <[flag := true]> p.(flags) /\
      q'.(counters) = p.(counters) /\ q'.(exited) = p.(exited) /\ restarts signum q = false) /\
  (exists q', deliver SIGCHLD q = Ret q' /\ q'.(exited) = [] /\ q'.(flags) = p.(flags) /\
    q'.(counters) !! counter = Some (n - N.of_nat (length p.(exited)))%N /\ restarts SIGCHLD q = true).
Proof.
  intros q. split.
  - intros signum Hs. assert (q.(actions) !! signum = Some (Shutdown, 0%Z)) as Ha.
    { unfold q, install_shutdown_flag, install. cbn [actions]. destruct Hs as [-> | ->].
      - by rewrite lookup_insert_ne, lookup_insert_eq.
      - by rewrite lookup_insert_eq. }
    exists (shutdown_handler q). unfold deliver, restarts. by rewrite Ha.
  - assert (q.(actions) !! SIGCHLD = Some (Sigchld, Z.lor SA_RESTART SA_NOCLDSTOP)) as Ha.
    { unfold q, install_shutdown_flag, install_sigchld_reaper, install. cbn [actions].
      do 2 (rewrite lookup_insert_ne by done). by rewrite lookup_insert_eq. }
    unfold deliver, restarts, sigchld_handler. rewrite Ha. cbn [LIVE_CHILDREN q install_shutdown_flag install install_sigchld_reaper].
    destruct (reap_loop_all (S (length (exited q))) counter q) as (q' & Hr & He & Hfl & Hc); [lia|done|].
    exists q'. split_and!; [done..| |done]. rewrite Hc. by apply iter_sub1.
Qed.

Lemma signals_reach_their_target_witness :
  let p := mkProcess None None ∅ {[1%Z := false]} {[2%Z := 3%N]} [100; 101]%Z in
  let q := install_shutdown_flag 1 (install_sigchld_reaper 2 p) in
  exists q1 q2, deliver SIGTERM q = Ret q1 /\ q1.(flags) = {[1%Z := true]} /\
    deliver SIGCHLD q = Ret q2 /\ q2.(exited) = [] /\ q2.(counters) !! 2%Z = Some 1%N.
Proof.
  intros p q.
  destruct (signals_reach_their_target p 1 2 3 eq_refl) as [H1 H2].
  - split; [apply N.leb_le|apply N.ltb_lt]; reflexivity.
  - repeat constructor.
  - destruct (H1 SIGTERM (or_intror eq_refl)) as (q1 & Hq1 & Hf1 & _).
    destruct H2 as (q2 & Hq2 & He2 & _ & Hc2 & _). exists q1, q2.
    split; [exact Hq1|]. split; [by rewrite Hf1|]. split; [exact Hq2|]. split; [exact He2|exact Hc2].
Defined.
