(* ===== verification/Preforked.v ===== *)
(** * The preforked model

    server/src/models/preforked.rs: a worker process, which is the blocking
    loop behind its own listener, and the life of the processes: the parent
    that forks, waits for the signal, forwards it and reaps, and the children,
    in steps that interleave in any order.  [step] is executable. *)

From S2P Require Import Prelude RustStr Http Response Request App Conn ConnSpec Syscall Listener EventIo Blocking.

Definition SHUTDOWN_POLL : N := millis 100.

(** ** A worker *)

Section Worker.
Context {K H : Type} `{Kernel K, !Sockets K} `{Handlers H}.

(** The body of the [while]: the two arms for errors differ in what they log. *)
Definition worker_round (fuel : nat) (listener : Z) (cfg : ServerConfig) (w : World K H)
    : outcome (World K H) :=
  match k_accept listener w.(kern) with
  | (Ok stream, k) =>
    let w := w_inc_connections (set_kern k w) in
    '(w, r) ← serve_connection fuel stream cfg w;
    Ret (match r with Ok _ => w | Err _ => w_inc_errors w end)
  | (Err _, k) => Ret (set_kern k w)
  end.

(** The [while], of at most [n] tests of the flag. *)
Fixpoint worker_loop (n fuel : nat) (listener : Z) (cfg : ServerConfig) (w : World K H)
    : outcome (World K H) :=
  match n with
  | 0 => Diverge
  | S n =>
    if shutdown w.(kern) then Ret w
    else w ← worker_round fuel listener cfg w; worker_loop n fuel listener cfg w
  end.

(** [child_main]; [Some code] when it has called [_exit], which drops
    nothing. *)
Definition child_main (n fuel : nat) (cfg : ServerConfig) (w : World K H)
    : outcome (World K H * option N) :=
  match bind_listener cfg.(addr) true w.(kern) with
  | (Err _, k) => Ret (set_kern k w, Some 1%N)
  | (Ok listener, k) =>
    match set_accept_timeout listener SHUTDOWN_POLL k with
    | (Err _, k) => Ret (set_kern k w, Some 1%N)
    | (Ok _, k) =>
      w ← worker_loop n fuel listener cfg (set_kern k w);
      Ret (set_kern (k_close listener w.(kern)) w, None)
    end
  end.

(** The child's arm of the [match] on [fork]: its exit status. *)
Definition worker_process (n fuel : nat) (cfg : ServerConfig) (w : World K H)
    : outcome (World K H * N) :=
  '(w, code) ← child_main n fuel cfg w;
  Ret (w, default 0%N code).
End Worker.

(** ** The processes *)

(** A child before its loop, at the test of the flag, in the body of the loop,
    and exited but not waited for. *)
Inductive CPc := Starting | Testing | InBody | Zombie (status : N).

(** A child with its own copy of [SHUTDOWN]. *)
Record Child := mkChild { c_shutdown : bool; c_pc : CPc }.

(** The parent: with [n] more children to fork, in the sleeping loop, in
    [forward_signal] and in [reap] with the children still to go, and
    returned. *)
Inductive Phase :=
  | Forking (n : nat)
  | Idle
  | Signalling (todo : list Z) (ret : result unit IoError)
  | Reaping (todo : list Z) (ret : result unit IoError)
  | Returned (ret : result unit IoError).

Record Procs := mkProcs {
  p_shutdown : bool;
  phase : Phase;
  (* the [Vec] of [serve] *)
  children : list Z;
  (* the processes of the kernel that are children, dead ones included *)
  procs : gmap Z Child;
  (* the calls made: [kill], and [waitpid] that a signal interrupted *)
  killed : list Z;
  interrupted : list Z;
}.

Inductive Label :=
  (* the parent's *)
  | ForkOk (pid : Z)
  | ForkErr (errno : Z)
  | Poll
  | Kill
  | Wait
  | WaitInterrupted
  (* SIGINT or SIGTERM for the parent, for a child *)
  | Signal
  | ChildSignal (pid : Z)
  (* a child's: out of the set-up, the test, the end of a body, another end *)
  | ChildStart (pid : Z) (ok : bool)
  | ChildTest (pid : Z)
  | ChildBody (pid : Z)
  | ChildDies (pid : Z) (status : N).

Definition set_phase (p : Phase) (s : Procs) : Procs :=
  mkProcs s.(p_shutdown) p s.(children) s.(procs) s.(killed) s.(interrupted).
Definition set_procs (m : gmap Z Child) (s : Procs) : Procs :=
  mkProcs s.(p_shutdown) s.(phase) s.(children) m s.(killed) s.(interrupted).

(** [shutdown_handler], in the process that has the flag. *)
Definition raise_parent (s : Procs) : Procs :=
  mkProcs true s.(phase) s.(children) s.(procs) s.(killed) s.(interrupted).
Definition raise_child (c : Child) : Child :=
  match c.(c_pc) with Zombie _ => c | _ => mkChild true c.(c_pc) end.

Definition Procs_new (cfg : ServerConfig) : Procs :=
  mkProcs false (Forking (N.to_nat (N.max cfg.(App.workers) 1))) [] ∅ [] [].

(** The [for] of [serve], [forward_signal] and [reap], when none is left. *)
Definition after_fork (n : nat) : Phase := match n with 0 => Idle | _ => Forking n end.
Definition after_wait (todo : list Z) (ret : result unit IoError) : Phase :=
  match todo with [] => Returned ret | _ => Reaping todo ret end.
Definition after_kill (todo all : list Z) (ret : result unit IoError) : Phase :=
  match todo with [] => after_wait all ret | _ => Signalling todo ret end.

Definition parent_step (l : Label) (s : Procs) : option Procs :=
  match l, s.(phase) with
  | ForkOk pid, Forking (S n) =>
    match s.(procs) !! pid with
    | Some _ => None
    | None => Some (mkProcs s.(p_shutdown) (after_fork n) (s.(children) ++ [pid])
        (<[pid := mkChild s.(p_shutdown) Starting]> s.(procs)) s.(killed) s.(interrupted))
    end
  | ForkErr errno, Forking (S _) =>
    Some (set_phase (after_kill s.(children) s.(children) (Err (Os errno))) s)
  | Poll, Idle =>
    Some (if s.(p_shutdown) then set_phase (after_kill s.(children) s.(children) (Ok tt)) s else s)
  | Kill, Signalling (pid :: todo) ret =>
    Some (mkProcs s.(p_shutdown) (after_kill todo s.(children) ret) s.(children)
      (alter raise_child pid s.(procs)) (s.(killed) ++ [pid]) s.(interrupted))
  (* [waitpid] blocks until the child has exited *)
  | Wait, Reaping (pid :: todo) ret =>
    match s.(procs) !! pid with
    | Some (mkChild _ (Zombie _)) =>
      Some (set_phase (after_wait todo ret) (set_procs (delete pid s.(procs)) s))
    | _ => None
    end
  (* or a handler without [SA_RESTART] has run: its result is not looked at *)
  | WaitInterrupted, Reaping (pid :: todo) ret =>
    Some (mkProcs true (after_wait todo ret) s.(children) s.(procs) s.(killed)
      (s.(interrupted) ++ [pid]))
  | _, _ => None
  end.

Definition set_child_pc (pid : Z) (c : Child) (p : CPc) (s : Procs) : Procs :=
  set_procs (<[pid := mkChild c.(c_shutdown) p]> s.(procs)) s.

Definition child_step (l : Label) (pid : Z) (c : Child) (s : Procs) : option Procs :=
  match l, c.(c_pc) with
  | ChildStart _ ok, Starting => Some (set_child_pc pid c (if ok then Testing else Zombie 1) s)
  | ChildTest _, Testing => Some (set_child_pc pid c (if c.(c_shutdown) then Zombie 0 else InBody) s)
  | ChildBody _, InBody => Some (set_child_pc pid c Testing s)
  | ChildDies _ _, Zombie _ => None
  | ChildDies _ status, _ => Some (set_child_pc pid c (Zombie status) s)
  | ChildSignal _, _ => Some (set_procs (<[pid := raise_child c]> s.(procs)) s)
  | _, _ => None
  end.

Definition step (l : Label) (s : Procs) : option Procs :=
  match l with
  | Signal => Some (raise_parent s)
  | ChildSignal pid | ChildStart pid _ | ChildTest pid | ChildBody pid | ChildDies pid _ =>
    c ← s.(procs) !! pid; child_step l pid c s
  | _ => parent_step l s
  end.

Fixpoint steps (ls : list Label) (s : Procs) : option Procs :=
  match ls with
  | [] => Some s
  | l :: ls => s ← step l s; steps ls s
  end.

(** ** The invariant *)

(** A child that leaves its loop at the next test. *)
Definition told (c : Child) : Prop :=
  c.(c_shutdown) = true \/ exists status, c.(c_pc) = Zombie status.

(** What has happened when the parent returns [ret]. *)
Definition returning (workers : nat) (ret : result unit IoError) (s : Procs) : Prop :=
  match ret with
  | Ok _ => s.(p_shutdown) = true /\ length s.(children) = workers
  | Err _ => length s.(children) < workers
  end.

(** What each phase has done. *)
Definition phase_inv (workers : nat) (s : Procs) : Prop :=
  match s.(phase) with
  | Forking n => 0 < n /\ length s.(children) + n = workers /\ s.(killed) = [] /\ s.(interrupted) = []
  | Idle => length s.(children) = workers /\ s.(killed) = [] /\ s.(interrupted) = []
  | Signalling todo ret => todo <> [] /\ s.(children) = s.(killed) ++ todo /\ s.(interrupted) = [] /\
      returning workers ret s
  | Reaping todo ret => todo <> [] /\ s.(killed) = s.(children) /\ todo ⊆ s.(children) /\
      returning workers ret s
  | Returned ret => s.(killed) = s.(children) /\ returning workers ret s
  end.

(** The children of whose exit the parent has not been told. *)
Definition unreaped (s : Procs) : list Z :=
  match s.(phase) with
  | Reaping todo _ => s.(interrupted) ++ todo
  | Returned _ => s.(interrupted)
  | _ => s.(children)
  end.

Record procs_inv (workers : nat) (s : Procs) : Prop := {
  pr_phase : phase_inv workers s;
  pr_nodup : NoDup s.(children);
  pr_unreaped : NoDup (unreaped s);
  pr_procs : forall pid, is_Some (s.(procs) !! pid) <-> pid ∈ unreaped s;
  pr_sub : unreaped s ⊆ s.(children);
  pr_told : forall pid c, pid ∈ s.(killed) -> s.(procs) !! pid = Some c -> told c;
}.
