(* ===== verification/PreforkedProps.v ===== *)
(** * Properties of the preforked model *)

From S2P Require Import Prelude RustStr Http Response Request RequestSpec RequestRefine Router Asset App Conn ConnSpec ConnProps Site Syscall Listener EventIo EventIoProps Session Sim Blocking BlockingProps Preforked.

(** ** The processes *)

Section Processes.
Context (workers : nat).

(** The invariant from where a list of children is waited for, kept as facts:
    [after_wait] leaves [Reaping] when the list is empty. *)
Lemma reaping_inv todo ret s :
  s.(killed) = s.(children) -> todo ⊆ s.(children) -> returning workers ret s -> NoDup s.(children) ->
  NoDup (s.(interrupted) ++ todo) ->
  (forall pid, is_Some (s.(procs) !! pid) <-> pid ∈ s.(interrupted) ++ todo) ->
  s.(interrupted) ++ todo ⊆ s.(children) ->
  (forall pid c, pid ∈ s.(killed) -> s.(procs) !! pid = Some c -> told c) ->
  procs_inv workers (set_phase (after_wait todo ret) s).
Proof using Type.
  intros Hk Hsub Hr Hnd Hnu Hp Hs Ht. destruct todo as [|pid todo]; cbn [after_wait].
  - rewrite app_nil_r in *. by split.
  - by split.
Qed.

(** The same for the list of children still to signal. *)
Lemma signalling_inv todo ret s :
  s.(children) = s.(killed) ++ todo -> s.(interrupted) = [] -> returning workers ret s ->
  NoDup s.(children) -> (forall pid, is_Some (s.(procs) !! pid) <-> pid ∈ s.(children)) ->
  (forall pid c, pid ∈ s.(killed) -> s.(procs) !! pid = Some c -> told c) ->
  procs_inv workers (set_phase (after_kill todo s.(children) ret) s).
Proof using Type.
  intros Hc Hi Hr Hnd Hp Ht. destruct todo as [|pid todo]; cbn [after_kill].
  - rewrite app_nil_r in Hc. apply reaping_inv; rewrite ?Hi; by auto.
  - by split.
Qed.

Lemma procs_new_inv cfg : workers = N.to_nat (N.max cfg.(App.workers) 1) -> procs_inv workers (Procs_new cfg).
Proof using Type.
  intros ->. split; cbn; [split_and!; try done; lia|by apply NoDup_nil..| |done|].
  - intros pid. rewrite lookup_empty. split; [by intros []|by intros ?%elem_of_nil].
  - by intros pid c ?%elem_of_nil.
Qed.

(** A step that changes one child, keeping it told. *)
Lemma change_child_inv s pid c c' :
  procs_inv workers s -> s.(procs) !! pid = Some c -> (told c -> told c') ->
  procs_inv workers (set_procs (<[pid := c']> s.(procs)) s).
Proof using Type.
  intros [Hph Hnd Hnu Hp Hs Ht] Hpid Htold. split; try done; cbn [set_procs procs killed].
  - intros q. change (unreaped (set_procs _ s)) with (unreaped s). rewrite <-Hp.
    destruct (decide (q = pid)) as [->|Hne]; [|by rewrite lookup_insert_ne].
    rewrite lookup_insert_eq, Hpid. split; by intros _.
  - intros q d Hq Hd. destruct (decide (q = pid)) as [->|Hne].
    + rewrite lookup_insert_eq in Hd. injection Hd as <-. eauto.
    + rewrite lookup_insert_ne in Hd by done. eauto.
Qed.

Lemma raise_child_told c : told (raise_child c).
Proof using Type. unfold told. destruct c as [b [| | |st]]; cbn; eauto. Qed.

Lemma child_step_change l pid c s s' :
  child_step l pid c s = Some s' ->
  exists c', s' = set_procs (<[pid := c']> s.(procs)) s /\ (told c -> told c').
Proof using Type.
  destruct l, c as [b []]; cbn; intros [= <-];
    try (eexists; split; [reflexivity|]; try (intros _; apply raise_child_told);
         intros [E|[st E]]; cbn in E; first [discriminate E|by left|by right; eexists|idtac]; fail).
  all: eexists; split; [reflexivity|]; intros [E|[st' E]]; cbn in E; subst; try discriminate E;
    try destruct ok; try destruct b; first [by left|by right; eexists].
Qed.

(** A child forked: it is running, and has the parent's flag. *)
Lemma fork_inv n pid s :
  procs_inv workers s -> s.(phase) = Forking (S n) -> s.(procs) !! pid = None ->
  procs_inv workers (mkProcs s.(p_shutdown) (after_fork n) (s.(children) ++ [pid])
    (<[pid := mkChild s.(p_shutdown) Starting]> s.(procs)) s.(killed) s.(interrupted)).
Proof using Type.
  intros [Hph Hnd Hnu Hp Hs Ht] Hpc Hpid. unfold phase_inv, unreaped in *. rewrite Hpc in *.
  destruct Hph as (_ & Hw & Hk & Hint).
  assert (pid ∉ children s) as Hnew by (rewrite <-Hp, Hpid; by intros []).
  assert (NoDup (children s ++ [pid])) as Hnd'.
  { apply NoDup_app. split_and!; [done| |apply NoDup_singleton].
    intros q Hq ->%list_elem_of_singleton. done. }
  assert (forall p, unreaped (mkProcs s.(p_shutdown) (after_fork n) (s.(children) ++ [pid]) p
    s.(killed) s.(interrupted)) = children s ++ [pid]) as Hu by by destruct n.
  split; rewrite ?Hu; cbn [children procs killed]; try done.
  - unfold phase_inv. destruct n; cbn; rewrite length_app; cbn; split_and!; try done; lia.
  - intros q. rewrite elem_of_app, list_elem_of_singleton, <-Hp.
    destruct (decide (q = pid)) as [->|Hne]; [rewrite lookup_insert_eq|rewrite lookup_insert_ne by done].
    + split; [by right|by eexists].
    + by split; [left|intros [|]].
  - rewrite Hk. by intros q c ?%elem_of_nil.
Qed.

(** A child reaped. *)
Lemma wait_inv pid todo ret s s' :
  procs_inv workers s -> s.(phase) = Reaping (pid :: todo) ret ->
  parent_step Wait s = Some s' -> procs_inv workers s'.
Proof using Type.
  intros [Hph Hnd Hnu Hp Hs Ht] Hpc E. unfold phase_inv, unreaped in *.
  cbn [parent_step] in E. rewrite Hpc in *.
  destruct Hph as (_ & Hk & Hsub & Hret).
  destruct (procs s !! pid) as [[b [| | |st]]|]; try discriminate E. injection E as <-.
  apply NoDup_app in Hnu as (Hni & Hdis & [Hnt Hnu]%NoDup_cons).
  apply (reaping_inv todo ret (set_procs (delete pid (procs s)) s)); cbn; try done.
  - set_solver.
  - apply NoDup_app. split_and!; [done| |done]. intros q Hq Hin. apply (Hdis q Hq). by right.
  - intros q. rewrite elem_of_app. destruct (decide (q = pid)) as [->|Hne].
    + rewrite lookup_delete_eq. split; [by intros []|].
      intros [Hin|Hin]; [|done]. destruct (Hdis _ Hin). by left.
    + rewrite lookup_delete_ne, Hp by done. set_solver.
  - set_solver.
  - intros q c Hq [_ Hl]%lookup_delete_Some. eauto.
Qed.

Lemma parent_step_inv l s s' :
  procs_inv workers s -> parent_step l s = Some s' -> procs_inv workers s'.
Proof using Type.
  intros Hi E. pose proof Hi as [Hph Hnd Hnu Hp Hs Ht]. unfold phase_inv, unreaped in *.
  destruct l, (phase s) as [[|n]| |[|pid' todo] ret|[|pid' todo] ret|ret] eqn:Hpc; cbn [parent_step] in E;
    rewrite ?Hpc in E; try discriminate E; cbn [unreaped] in *.
  - destruct (procs s !! pid) as [c|] eqn:Hpid; [discriminate E|]. injection E as <-.
    by apply fork_inv.
  - injection E as <-. destruct Hph as (_ & Hw & Hk & Hint).
    apply signalling_inv; try done; [by rewrite Hk|cbn; lia].
  - destruct Hph as (Hw & Hk & Hint). destruct (p_shutdown s) eqn:Hsd; injection E as <-; [|done].
    apply signalling_inv; try done. by rewrite Hk.
  - injection E as <-. destruct Hph as (_ & Hc & Hint & Hret).
    refine (signalling_inv todo ret (mkProcs (p_shutdown s) (phase s) (children s)
      (alter raise_child pid' (procs s)) (killed s ++ [pid']) (interrupted s)) _ _ _ _ _ _); cbn; try done.
    + by rewrite Hc, <-app_assoc.
    + intros pid. rewrite <-Hp. destruct (decide (pid = pid')) as [->|Hne];
        [by rewrite lookup_alter_eq, fmap_is_Some|by rewrite lookup_alter_ne].
    + intros pid c Hin Hl. destruct (decide (pid = pid')) as [->|Hne].
      * rewrite lookup_alter_eq in Hl. apply fmap_Some in Hl as (c0 & _ & ->). apply raise_child_told.
      * rewrite lookup_alter_ne in Hl by done. apply (Ht pid); [|done].
        apply elem_of_app in Hin as [|Hin%list_elem_of_singleton]; done.
  - refine (wait_inv pid' todo ret s s' Hi Hpc _). cbn [parent_step]. by rewrite Hpc.
  - injection E as <-. destruct Hph as (_ & Hk & Hsub & Hret).
    refine (reaping_inv todo ret (mkProcs true (phase s) (children s) (procs s) (killed s)
      (interrupted s ++ [pid'])) _ _ _ _ _ _ _ _); cbn; rewrite <-?app_assoc; try done.
    + set_solver.
    + destruct ret; [by destruct Hret|done].
Qed.

Lemma step_inv l s s' : procs_inv workers s -> step l s = Some s' -> procs_inv workers s'.
Proof using Type.
  intros Hi E. destruct l; try exact (parent_step_inv _ _ _ Hi E); cbn [step] in E.
  1: { injection E as <-. destruct Hi as [Hph Hnd Hnu Hp Hs Ht]. split; try done.
    unfold phase_inv, returning in *. cbn. destruct (phase s) as [| |? []|? []|[]]; naive_solver. }
  all: destruct (procs s !! pid) as [c|] eqn:Hpid; [|discriminate E]; cbn [mbind option_bind] in E;
    apply child_step_change in E as (c' & -> & Hc'); by eapply change_child_inv.
Qed.

Lemma steps_inv ls s s' : procs_inv workers s -> steps ls s = Some s' -> procs_inv workers s'.
Proof using Type.
  revert s. induction ls as [|l ls IH]; intros s Hi E; cbn [steps] in E; [by injection E as <-|].
  destruct (step l s) as [s1|] eqn:E1; [|done]. cbn [mbind option_bind] in E.
  apply (IH s1); [|done]. by eapply step_inv.
Qed.

(** ** How much is left to do *)

(** The steps the parent has left, with so many children. *)
Definition phase_rank (kids : nat) (p : Phase) : nat :=
  match p with
  | Forking n => 2 + 3 * n + 2 * kids
  | Idle => 1 + 2 * kids
  | Signalling todo _ => length todo + kids
  | Reaping todo _ => length todo
  | Returned _ => 0
  end.

Definition rank (s : Procs) : nat := phase_rank (length s.(children)) s.(phase).

Lemma rank_after_wait kids todo ret : phase_rank kids (after_wait todo ret) = length todo.
Proof using Type. by destruct todo. Qed.

Lemma rank_after_kill todo all ret :
  phase_rank (length all) (after_kill todo all ret) = length todo + length all.
Proof using Type. destruct todo; cbn [after_kill]; [apply rank_after_wait|done]. Qed.

(** The steps a child has left that leaves its loop at the next test. *)
Definition child_left (c : Child) : nat :=
  match c.(c_pc) with Starting => 2 | Testing => 1 | InBody => 2 | Zombie _ => 0 end.

Definition total (m : gmap Z Child) : nat := sum_list_with (fun x => child_left x.2) (map_to_list m).

Definition left (s : Procs) : nat := rank s + total s.(procs).

Lemma total_delete m pid c : m !! pid = Some c -> total m = child_left c + total (delete pid m).
Proof using Type.
  intros Hm. unfold total. by rewrite <-(map_to_list_delete m pid c Hm).
Qed.

Lemma total_change m pid c c' :
  m !! pid = Some c -> total (<[pid := c']> m) + child_left c = total m + child_left c'.
Proof using Type.
  intros Hm. rewrite (total_delete m pid c Hm),
    (total_delete (<[pid := c']> m) pid c') by apply lookup_insert_eq.
  rewrite delete_insert_eq. lia.
Qed.

Definition is_parent (l : Label) : bool :=
  match l with ForkOk _ | ForkErr _ | Poll | Kill | Wait | WaitInterrupted => true | _ => false end.

Definition is_signal (l : Label) : bool :=
  match l with Signal | ChildSignal _ => true | _ => false end.

(** The parent is on its way out: the flag is up, or a fork has failed. *)
Definition stopping (s : Procs) : Prop :=
  match s.(phase) with Forking _ | Idle => s.(p_shutdown) = true | _ => True end.

Definition reaping (s : Procs) : Prop :=
  match s.(phase) with Reaping _ _ | Returned _ => True | _ => False end.

Lemma parent_step_rank l s s' :
  stopping s -> parent_step l s = Some s' -> rank s' < rank s /\ stopping s'.
Proof using Type.
  intros Hst E. unfold stopping, rank in *.
  destruct l, (phase s) as [[|n]| |[|pid' todo] ret|[|pid' todo] ret|ret] eqn:Hpc; cbn [parent_step] in E;
    rewrite ?Hpc in E; try discriminate E.
  - destruct (procs s !! pid); [discriminate E|]. injection E as <-. cbn [children phase p_shutdown].
    rewrite length_app. destruct n; cbn; split; done || lia.
  - injection E as <-. cbn [set_phase phase children]. rewrite rank_after_kill. cbn [phase_rank].
    split; [lia|]. by destruct (children s).
  - rewrite Hst in E. injection E as <-. cbn [set_phase phase children]. rewrite rank_after_kill.
    cbn [phase_rank]. split; [lia|]. by destruct (children s).
  - injection E as <-. cbn [phase children]. rewrite rank_after_kill. cbn. split; [lia|].
    by destruct todo, (children s).
  - destruct (procs s !! pid') as [[b []]|]; try discriminate E. injection E as <-.
    cbn [set_phase set_procs phase children]. rewrite rank_after_wait. cbn. split; [lia|]. by destruct todo.
  - injection E as <-. cbn [phase children]. rewrite rank_after_wait. cbn. split; [lia|]. by destruct todo.
Qed.

(** No other step takes the parent anywhere. *)
Lemma other_step_rank l s s' :
  is_parent l = false -> step l s = Some s' ->
  rank s' = rank s /\ s'.(phase) = s.(phase) /\ (stopping s -> stopping s').
Proof using Type.
  intros Hl E. destruct l; try discriminate Hl; cbn [step] in E.
  1: { injection E as <-. split_and!; try done. unfold stopping. cbn. by destruct (phase s). }
  all: destruct (procs s !! pid) as [c|]; [|discriminate E]; cbn [mbind option_bind] in E;
    by apply child_step_change in E as (c' & -> & _).
Qed.

Lemma told_child s pid c :
  procs_inv workers s -> reaping s -> s.(procs) !! pid = Some c -> told c.
Proof using Type.
  intros [Hph _ _ Hp Hs Ht] Hr Hpid. apply (Ht pid); [|done].
  assert (killed s = children s) as ->.
  { unfold reaping, phase_inv in *. destruct (phase s); try done; naive_solver. }
  apply Hs, Hp. by eexists.
Qed.

(** A step of a child that was told. *)
Lemma child_step_left l pid c s s' :
  told c -> child_step l pid c s = Some s' ->
  exists c', s' = set_procs (<[pid := c']> s.(procs)) s /\
    child_left c' + (if is_signal l then 0 else 1) <= child_left c.
Proof using Type.
  intros Ht. destruct l, c as [b []]; cbn; intros [= <-];
    try (eexists; split; [reflexivity|]; try destruct ok; cbn; lia).
  - eexists. split; [reflexivity|]. destruct Ht as [E|[st E]]; cbn in E; [subst b; cbn; lia|done].
Qed.

(** Every step brings the end nearer, signals apart. *)
Lemma reaping_step_left l s s' :
  procs_inv workers s -> reaping s -> step l s = Some s' ->
  reaping s' /\ left s' + (if is_signal l then 0 else 1) <= left s.
Proof using Type.
  intros Hi Hr E. unfold left. destruct (is_parent l) eqn:Hl.
  - assert (stopping s) as Hst by (unfold stopping, reaping in *; by destruct (phase s)).
    assert (parent_step l s = Some s') as Ep by by destruct l.
    destruct (parent_step_rank _ _ _ Hst Ep) as [Hlt _].
    assert (total (procs s') <= total (procs s) /\ reaping s') as [Ht Hr'].
    { unfold reaping in *. destruct (phase s) as [|? |?|todo ret|] eqn:Hpc; try done;
        destruct l; cbn [parent_step] in Ep; rewrite ?Hpc in Ep; try discriminate Ep;
        destruct todo as [|pid todo]; try discriminate Ep.
      - destruct (procs s !! pid) as [[b []]|] eqn:Hpid; try discriminate Ep. injection Ep as <-.
        cbn [set_phase set_procs procs phase]. rewrite (total_delete _ _ _ Hpid).
        split; [lia|by destruct todo].
      - injection Ep as <-. split; [done|]. cbn [phase]. by destruct todo. }
    split; [done|]. replace (is_signal l) with false by (by destruct l). lia.
  - destruct (other_step_rank _ _ _ Hl E) as (Hrank & Hpc & _).
    split; [unfold reaping in *; by rewrite Hpc|]. rewrite Hrank.
    destruct l; try discriminate Hl; cbn [step] in E; [injection E as <-; cbn; lia|..].
    all: destruct (procs s !! pid) as [c|] eqn:Hpid; [|discriminate E]; cbn [mbind option_bind] in E;
      apply child_step_left in E as (c' & -> & Hle); [|by eapply told_child];
      pose proof (total_change _ _ _ c' Hpid); cbn [set_procs procs is_signal] in *; lia.
Qed.
Lemma reaping_steps_left ls s s' :
  procs_inv workers s -> reaping s -> steps ls s = Some s' ->
  length (List.filter (fun l => negb (is_signal l)) ls) + left s' <= left s.
Proof using Type.
  revert s. induction ls as [|l ls IH]; intros s Hi Hr E; cbn [steps] in E; [by injection E as <-|].
  destruct (step l s) as [s1|] eqn:E1; [|done]. cbn [mbind option_bind] in E.
  destruct (reaping_step_left _ _ _ Hi Hr E1) as [Hr1 Hle].
  specialize (IH s1 (step_inv _ _ _ Hi E1) Hr1 E). cbn [List.filter].
  destruct (is_signal l); cbn [negb length]; lia.
Qed.

Lemma stopping_steps_rank ls s s' :
  stopping s -> steps ls s = Some s' -> length (List.filter is_parent ls) + rank s' <= rank s.
Proof using Type.
  revert s. induction ls as [|l ls IH]; intros s Hst E; cbn [steps] in E; [by injection E as <-|].
  destruct (step l s) as [s1|] eqn:E1; [|done]. cbn [mbind option_bind List.filter] in E |- *.
  destruct (is_parent l) eqn:Hl.
  - assert (parent_step l s = Some s1) as Ep by by destruct l.
    destruct (parent_step_rank _ _ _ Hst Ep) as [Hlt Hst1]. specialize (IH s1 Hst1 E). cbn [length]. lia.
  - destruct (other_step_rank _ _ _ Hl E1) as (Hrank & _ & Hst1). specialize (IH s1 (Hst1 Hst) E). lia.
Qed.

(** Before it waits for children the parent is never blocked; then a child it
    waits for has exited or has a step. *)
Lemma can_step s :
  procs_inv workers s ->
  match s.(phase) with
  | Returned _ => True
  | Reaping _ _ => exists l, is_signal l = false /\ is_Some (step l s)
  | _ => exists l, is_parent l = true /\ is_Some (step l s)
  end.
Proof using Type.
  intros [Hph _ _ Hp _ _]. unfold phase_inv, unreaped in *. destruct (phase s) as [n| |todo ret|todo ret|ret] eqn:Hpc.
  - destruct n as [|n]; [lia|]. exists (ForkErr 11). cbn. rewrite Hpc. by split.
  - exists Poll. cbn. rewrite Hpc. by split.
  - destruct todo as [|pid todo]; [by destruct Hph|]. exists Kill. cbn. rewrite Hpc. by split.
  - destruct todo as [|pid todo]; [by destruct Hph|].
    destruct (proj2 (Hp pid)) as [[b p] Hpid]; [apply elem_of_app; right; by left|].
    destruct p; [exists (ChildStart pid true)|exists (ChildTest pid)|exists (ChildBody pid)|exists Wait];
      cbn; rewrite ?Hpc, Hpid; by split.
  - done.
Qed.

Lemma interrupted_steps ls s s' :
  steps ls s = Some s' -> WaitInterrupted ∉ ls -> s'.(interrupted) = s.(interrupted).
Proof using Type.
  revert s. induction ls as [|l ls IH]; intros s E Hn; cbn [steps] in E; [by injection E as <-|].
  apply not_elem_of_cons in Hn as [Hne Hn].
  destruct (step l s) as [s1|] eqn:E1; [|done]. cbn [mbind option_bind] in E.
  rewrite (IH s1 E Hn). clear -Hne E1. destruct (is_parent l) eqn:Hl.
  - destruct l; try done; cbn [step parent_step] in E1;
      repeat (case_match; try discriminate E1); by injection E1 as <-.
  - destruct l; try discriminate Hl; cbn [step] in E1; [by injection E1 as <-|..].
    all: destruct (procs s !! pid) as [c|]; [|discriminate E1]; cbn [mbind option_bind] in E1;
      by apply child_step_change in E1 as (c' & -> & _).
Qed.
End Processes.

Section Theorems.
Context (cfg : ServerConfig).

Definition workers_of : nat := N.to_nat (N.max cfg.(App.workers) 1).

Lemma reachable_inv ls s : steps ls (Procs_new cfg) = Some s -> procs_inv workers_of s.
Proof using Type. apply steps_inv. by apply procs_new_inv. Qed.

(** C26. Safety, under every interleaving of the parent, its workers and the
    signals: each [kill] goes to a process that is the parent's own child, so
    never to a recycled pid; when [serve] returns every worker that was forked
    has been signalled exactly once, and reaped unless a signal interrupted
    the [waitpid] for it; it returns [Ok] only after a shutdown signal, with
    all workers forked, and [Err] only when a fork failed. *)
Theorem workers_signalled_and_reaped ls s (Hs : steps ls (Procs_new cfg) = Some s) :
  (forall s', step Kill s = Some s' ->
    exists pid, s'.(killed) = s.(killed) ++ [pid] /\ is_Some (s.(procs) !! pid)) /\
  match s.(phase) with
  | Returned ret =>
    s.(killed) = s.(children) /\ NoDup s.(children) /\
    (forall pid, is_Some (s.(procs) !! pid) <-> pid ∈ s.(interrupted)) /\
    (WaitInterrupted ∉ ls -> s.(procs) = ∅) /\
    match ret with
    | Ok _ => s.(p_shutdown) = true /\ length s.(children) = workers_of
    | Err _ => length s.(children) < workers_of
    end
  | _ => True
  end.
Proof using Type.
  pose proof (reachable_inv ls s Hs) as [Hph Hnd _ Hp _ _]. unfold phase_inv, unreaped in *. split.
  - intros s' E. cbn [step parent_step] in E.
    destruct (phase s) as [| |[|pid todo] ret| |]; try discriminate E. injection E as <-.
    exists pid. split; [done|]. apply Hp. destruct Hph as (_ & -> & _). apply elem_of_app. right. by left.
  - destruct (phase s) as [| | | |ret]; try done. destruct Hph as [Hk Hret].
    split_and!; try done. intros Hn.
    rewrite (interrupted_steps _ _ _ Hs Hn) in Hp. cbn in Hp. apply map_eq. intros pid.
    rewrite lookup_empty. destruct (procs s !! pid) eqn:E; [|done].
    exfalso. eapply not_elem_of_nil, Hp. by eexists.
Qed.

(** C27. Termination of the shutdown, under any schedule: once the flag is up or
    a fork has failed the parent takes at most [rank] more steps; once it
    reaps, the parent and all workers together take at most [left] more,
    signals apart; and nothing is stuck: until [serve] returns the parent has
    a step, or, when it waits, the child it waits for has exited or has one. *)
Theorem preforked_shutdown_terminates ls s (Hs : steps ls (Procs_new cfg) = Some s) (Hst : stopping s) :
  (forall ls' s', steps ls' s = Some s' -> length (List.filter is_parent ls') <= rank s) /\
  (reaping s -> forall ls' s', steps ls' s = Some s' ->
    length (List.filter (fun l => negb (is_signal l)) ls') <= left s) /\
  match s.(phase) with
  | Returned _ => True
  | Reaping _ _ => exists l, is_signal l = false /\ is_Some (step l s)
  | _ => exists l, is_parent l = true /\ is_Some (step l s)
  end.
Proof using Type.
  pose proof (reachable_inv ls s Hs) as Hi. split_and!.
  - intros ls' s' E. pose proof (stopping_steps_rank _ _ _ Hst E). lia.
  - intros Hr ls' s' E. pose proof (reaping_steps_left _ _ _ _ Hi Hr E). lia.
  - by eapply can_step.
Qed.
End Theorems.

(** ** A worker *)

(** The signal comes: [due] bounds the accepts that can still return before the
    flag is up. *)
Class SignalDue (K : Type) `{Kernel K} := {
  due : K -> nat;
  due_accept l k r k' : shutdown k = false -> k_accept l k = (r, k') -> due k' < due k;
  due_read fd n k r k' : k_read fd n k = (r, k') -> due k' <= due k;
  due_write fd bs k r k' : k_write fd bs k = (r, k') -> due k' <= due k;
  due_close fd k : due (k_close fd k) <= due k;
  due_read_timeout fd t k r k' : k_set_read_timeout fd t k = (r, k') -> due k' <= due k;
  due_write_timeout fd t k r k' : k_set_write_timeout fd t k = (r, k') -> due k' <= due k;
}.

Section Worker.
Context {K H : Type} `{SocketLaws K, !SignalDue K} `{Handlers H}.

Lemma performs_due fd k ios k' : performs fd k ios k' -> due k' <= due k.
Proof using Type.
  intros Hp. induction Hp as [k|k b bs k1 l k2 E _ IH|k p n k1 l k2 E _ IH|k r k1 E _|k p r k1 E _]; [done|..].
  all: first [apply due_read in E|apply due_write in E]; lia.
Qed.

Lemma timeouts_due fd cfg k : due (timeouts_set fd cfg k) <= due k.
Proof using Type.
  unfold timeouts_set. destruct (k_set_read_timeout fd _ k) as [[u|e] k1] eqn:E1;
    apply due_read_timeout in E1; [|done].
  destruct (k_set_write_timeout fd _ k1) as [r k2] eqn:E2. apply due_write_timeout in E2. cbn [snd]. lia.
Qed.

(** The counters after [c] connections of which [e] ended in an error. *)
Definition counted (c e : nat) (app : App H) : App H :=
  Nat.iter e app_inc_errors (Nat.iter c app_inc_connections app).

Lemma counted_add c1 e1 c2 e2 app : counted c2 e2 (counted c1 e1 app) = counted (c2 + c1) (e2 + e1) app.
Proof using Type.
  unfold counted. rewrite !Nat.iter_add. f_equal.
  assert (forall a, Nat.iter c2 (@app_inc_connections H) (app_inc_errors a) =
    app_inc_errors (Nat.iter c2 app_inc_connections a)) as Hc.
  { intros a. induction c2 as [|c IH]; [done|]. by rewrite !Nat.iter_succ, IH. }
  induction e1 as [|e IH]; [done|]. by rewrite !Nat.iter_succ, Hc, IH.
Qed.

Lemma counted_site c e app : same_site app (counted c e app).
Proof using Type.
  unfold counted. induction e as [|e IH]; [|rewrite Nat.iter_succ; exact IH].
  induction c as [|c IH]; [done|rewrite Nat.iter_succ; exact IH].
Qed.

(** A round takes the signal nearer and leaves no descriptor. *)
Lemma worker_round_spec l cfg (w : World K H) :
  shutdown w.(kern) = false -> all_fit w.(wapp) ->
  exists fuel0 w' c e, (forall fuel, fuel0 <= fuel -> worker_round fuel l cfg w = Ret w') /\
    due w'.(kern) < due w.(kern) /\ opened w'.(kern) = opened w.(kern) /\ e <= c <= 1 /\
    w'.(wapp) = counted c e w.(wapp).
Proof using Type.
  intros Hsd Hfit. change worker_round with (@iterative_round K H _ _).
  pose proof (iterative_round_spec l cfg w Hfit) as Hs.
  destruct (k_accept l (kern w)) as [[fd|e] k] eqn:Ea; pose proof (due_accept _ _ _ _ Hsd Ea) as Hlt.
  - destruct Hs as (fuel0 & k1 & r & ios & Hround & Hp & Ho & _).
    apply performs_due in Hp. pose proof (timeouts_due fd cfg k). pose proof (due_close fd k1).
    eexists fuel0, _, 1, (match r with Ok _ => 0 | Err _ => 1 end).
    split; [exact Hround|]. destruct r; cbn; split_and!; done || lia.
  - destruct Hs as [Ho Hround]. exists 0, (set_kern k w), 0, 0. split_and!; done || lia.
Qed.

Lemma worker_loop_stops l cfg d (w : World K H) :
  due w.(kern) <= d -> all_fit w.(wapp) ->
  exists fuel0 w' c e, (forall n fuel, d < n -> fuel0 <= fuel -> worker_loop n fuel l cfg w = Ret w') /\
    rtc (round_to l cfg) w w' /\ shutdown w'.(kern) = true /\ opened w'.(kern) = opened w.(kern) /\
    e <= c <= d /\ w'.(wapp) = counted c e w.(wapp).
Proof using Type.
  revert w. induction d as [|d IH]; intros w Hd Hfit; destruct (shutdown (kern w)) eqn:Hsd.
  1, 3: exists 0, w, 0, 0; split_and!; try done; [|lia..]; intros [|n] fuel Hn _; [lia|];
    cbn [worker_loop]; by rewrite Hsd.
  - destruct (k_accept l (kern w)) as [r k] eqn:Ea. pose proof (due_accept _ _ _ _ Hsd Ea). lia.
  - destruct (worker_round_spec l cfg w Hsd Hfit) as (fuel0 & w1 & c1 & e1 & Hround & Hd1 & Ho1 & Hce & Hw1).
    destruct (IH w1) as (fuel1 & w' & c & e & Hloop & Hrtc & Hsd' & Ho' & Hce' & Hw'); [lia| |].
    { eapply all_fit_same; [exact Hfit|]. rewrite Hw1. apply counted_site. }
    exists (max fuel0 fuel1), w', (c + c1), (e + e1).
    split_and!; [| |done|congruence|lia|lia|by rewrite Hw', Hw1, counted_add].
    + intros [|n] fuel Hn Hf; [lia|]. cbn [worker_loop]. rewrite Hsd, Hround by lia.
      cbn [mbind outcome_bind]. apply Hloop; lia.
    + eapply rtc_l; [|exact Hrtc]. by exists fuel0.
Qed.
(** The socket a worker accepts from. *)
Definition worker_socket (cfg : ServerConfig) : SockState :=
  with_rcvtimeo 0 100000 (listener_socket cfg.(addr) true).

(** Termination: a worker process exits, for every kernel on which the
    signal comes after finitely many accepts: with 1 if it cannot set up its
    listener; else with 0, having accepted from its own [SO_REUSEPORT] socket
    with a receive timeout of 100 ms, counted every connection and every error,
    and leaked no descriptor. *)
Theorem worker_process_terminates cfg (w : World K H) (Hfit : all_fit w.(wapp)) :
  exists n0 fuel0 w' code,
    (forall n fuel, n0 <= n -> fuel0 <= fuel -> worker_process n fuel cfg w = Ret (w', code)) /\
    match bind_listener cfg.(addr) true w.(kern) with
    | (Err _, _) => code = 1%N /\ w'.(wapp) = w.(wapp)
    | (Ok listener, k) =>
      match set_accept_timeout listener SHUTDOWN_POLL k with
      | (Err _, _) => code = 1%N /\ w'.(wapp) = w.(wapp)
      | (Ok _, k) =>
        sockets k !! listener = Some (worker_socket cfg) /\
        code = 0%N /\ opened w'.(kern) = opened w.(kern) /\
        exists c e, e <= c <= due k /\ w'.(wapp) = counted c e w.(wapp)
      end
    end.
Proof using Type.
  unfold worker_process, child_main.
  destruct (bind_listener (addr cfg) true (kern w)) as [[l|e] k] eqn:Eb; apply bind_listener_spec in Eb.
  2: { by exists 0, 0, (set_kern k w), 1%N; split. }
  destruct Eb as (Hnew & Ho & Hs & _).
  destruct (set_accept_timeout l SHUTDOWN_POLL k) as [[u|e] k1] eqn:Et; apply set_accept_timeout_spec in Et as [Ho1 Hs1].
  2: { by exists 0, 0, (set_kern k1 w), 1%N; split. }
  destruct (worker_loop_stops l cfg (due k1) (set_kern k1 w)) as (fuel0 & w1 & c & e & Hloop & _ & Hsd & Ho2 & Hce & Hw);
    [done|done|].
  exists (S (due k1)), fuel0, (set_kern (k_close l (kern w1)) w1), 0%N. split_and!; [| |done| |].
  - intros n fuel Hn Hf. rewrite Hloop by (done || lia). done.
  - by rewrite Hs1, Hs, alter_insert_eq, lookup_insert_eq.
  - cbn. rewrite (proj1 (close_effect _ _)), Ho2. cbn. rewrite Ho1, Ho. set_solver.
  - by exists c, e.
Qed.
End Worker.

(** ** Runs *)

(** Two workers. *)
Definition preforked_config : ServerConfig :=
  let c := ServerConfig_default (E:=IoError) (Ok 2%N) in
  mkConfig c.(addr) 2 c.(read_timeout) c.(write_timeout) c.(max_connections) c.(cfg_assets_dir).

(** The first serves when the signal comes, the second has crashed. *)
Definition preforked_run : list Label :=
  [ForkOk 100; ChildStart 100 true; ForkOk 101; ChildTest 100; ChildDies 101 134; Poll; Signal; Poll; Kill; Kill].

Definition preforked_end : list Label := [ChildBody 100; ChildTest 100; Wait; Wait].

Lemma workers_signalled_and_reaped_witness :
  exists s, steps (preforked_run ++ preforked_end) (Procs_new preforked_config) = Some s /\
    s.(phase) = Returned (Ok tt) /\ s.(killed) = [100; 101]%Z /\ s.(procs) = ∅ /\ length s.(children) = 2.
Proof.
  pose proof (workers_signalled_and_reaped preforked_config (preforked_run ++ preforked_end)) as Hall.
  destruct (steps (preforked_run ++ preforked_end) (Procs_new preforked_config)) as [s|] eqn:E;
    [|vm_compute in E; discriminate E].
  exists s. split; [reflexivity|]. destruct (Hall s eq_refl) as [_ Hret].
  assert (phase s = Returned (Ok tt) /\ children s = [100; 101]%Z) as [Hp Hc]
    by (vm_compute in E; injection E as <-; split; reflexivity).
  rewrite Hp in Hret. destruct Hret as (Hk & _ & _ & Hr & _).
  split; [exact Hp|]. split; [by rewrite Hk|]. split; [|by rewrite Hc].
  apply Hr. change (WaitInterrupted ∉ preforked_run ++ preforked_end). cbn [preforked_run preforked_end Datatypes.app].
  repeat (apply not_elem_of_cons; split; [discriminate|]). apply not_elem_of_nil.
Defined.

Lemma preforked_shutdown_terminates_witness :
  exists s, steps preforked_run (Procs_new preforked_config) = Some s /\ rank s = 2 /\ left s = 4 /\
    (forall ls s', steps ls s = Some s' -> length (List.filter (fun l => negb (is_signal l)) ls) <= 4) /\
    (exists l, is_signal l = false /\ is_Some (step l s)).
Proof.
  pose proof (preforked_shutdown_terminates preforked_config preforked_run) as Hall.
  destruct (steps preforked_run (Procs_new preforked_config)) as [s|] eqn:E;
    [|vm_compute in E; discriminate E].
  assert (phase s = Reaping [100; 101]%Z (Ok tt) /\ rank s = 2 /\ left s = 4) as (Hp & Hr & Hl)
    by (vm_compute in E; injection E as <-; repeat split; reflexivity).
  exists s. split; [reflexivity|]. split; [exact Hr|]. split; [exact Hl|].
  destruct (Hall s eq_refl) as (_ & Hleft & Hcan); [unfold stopping; by rewrite Hp|].
  rewrite Hp in Hcan. split; [|exact Hcan]. rewrite <-Hl. apply Hleft. unfold reaping. by rewrite Hp.
Defined.

(** A second signal during [waitpid]: the parent returns, and leaves a child
    that is still running. *)
Lemma interrupted_wait_leaves_child :
  exists s, steps (preforked_run ++ [WaitInterrupted; Wait]) (Procs_new preforked_config) = Some s /\
    s.(phase) = Returned (Ok tt) /\ s.(procs) !! 100%Z = Some (mkChild true InBody).
Proof.
  destruct (steps (preforked_run ++ [WaitInterrupted; Wait]) (Procs_new preforked_config)) as [s|] eqn:E;
    [|vm_compute in E; discriminate E].
  exists s. vm_compute in E. injection E as <-. by repeat split.
Qed.

#[export] Program Instance sim_due : SignalDue Sim := { due k := k.(s_backlog) + length k.(s_script) }.
Next Obligation.
  intros l k r k' Hs E. simpl in Hs, E. unfold sim_accept in E. destruct (s_script k) eqn:Hk; [done|].
  destruct (s_backlog k) as [|n] eqn:Hb; simpl in E.
  - injection E as <- <-. cbn. rewrite ?Hk, ?Hb. cbn. lia.
  - pose proof (next_fd_pos (s_open k)). destruct (Z.eqb_spec (next_fd (s_open k)) (-1)); [lia|].
    injection E as <- <-. cbn. rewrite ?Hk, ?Hb. cbn. lia.
Qed.
Next Obligation.
  intros fd n k r k' E. simpl in E. unfold sim_read in E. by destruct (dequeue fd (s_in k)) as [[]|]; simplify_eq/=.
Qed.
Next Obligation. intros fd bs k r k' E. simpl in E. unfold sim_write in E. by simplify_eq/=. Qed.
Next Obligation. done. Qed.
Next Obligation. intros fd t k r k' E. by simplify_eq/=. Qed.
Next Obligation. intros fd t k r k' E. by simplify_eq/=. Qed.

(** One client, then two waits without any, then the signal. *)
Definition sim_worker : World Sim Handler :=
  mkWorld (mkSim 0 0 ∅ 1 [(4%Z, get_root)] [] ∅ [[]; []] ∅) sample_app.

Lemma worker_process_terminates_witness :
  exists n0 fuel0 w' code,
    (forall n fuel, n0 <= n -> fuel0 <= fuel ->
      worker_process n fuel preforked_config sim_worker = Ret (w', code)) /\
    code = 0%N /\ opened w'.(kern) = ∅ /\ exists c e, e <= c <= 3 /\ w'.(wapp) = counted c e sample_app.
Proof.
  destruct (worker_process_terminates preforked_config sim_worker sample_all_fit)
    as (n0 & fuel0 & w' & code & Hrun & Hres).
  exists n0, fuel0, w', code. split; [exact Hrun|].
  destruct (bind_listener (addr preforked_config) true (kern sim_worker)) as [[l|e] k] eqn:Eb;
    [|vm_compute in Eb; discriminate Eb].
  destruct (set_accept_timeout l SHUTDOWN_POLL k) as [[u|e] k1] eqn:Et;
    [|vm_compute in Eb; injection Eb as <- <-; vm_compute in Et; discriminate Et].
  destruct Hres as (_ & -> & Ho & c & e & Hce & Hw). split; [done|]. split; [exact Ho|]. exists c, e.
  vm_compute in Eb; injection Eb as <- <-; vm_compute in Et; injection Et as <- <-. split; [exact Hce|exact Hw].
Defined.
