(* ===== verification/Multireactor.v ===== *)
(** * The multireactor model

    server/src/models/multireactor.rs, [shared_config] of
    server/src/models/mod.rs and server/src/sys/affinity.rs: the threads that
    [serve] spawns, each pinning itself, binding its own listener and running
    its own [Reactor], and the joins.  The threads share the kernel and the
    [App]; a step of a thread is one stage of its set-up or one round of its
    reactor, and [step] is executable. *)

From S2P Require Import Prelude RustStr Http Response Request App Conn ConnSpec Syscall Listener Socket SysPoll ConnTable EventIo Reactor.

(** ** CPU affinity *)

(** [sysconf(_SC_NPROCESSORS_ONLN)] and [sched_setaffinity] of the calling
    thread. *)
Class Affinity (K : Type) := {
  k_nprocessors : K -> Z;
  k_sched_setaffinity : N -> K -> Z * K;
}.

Class AffinityLaws (K : Type) `{KernelLaws K, !Affinity K} := {
  setaffinity_frame set k r k' : k_sched_setaffinity set k = (r, k') ->
    opened k' = opened k /\ interests k' = interests k;
}.

Section Pinning.
Context {K : Type} `{Kernel K, !Affinity K}.

Definition num_cores (k : K) : N :=
  if (k_nprocessors k <? 1)%Z then 1%N else Z.to_N (k_nprocessors k).

(** The set of the one core: bit [core_id] of an empty [cpu_set_t]. *)
Definition pin_to_core (core_id : N) (k : K) : result unit IoError * K :=
  if (num_cores k <=? core_id)%N then (Ok tt, k) else
  match syscall (k_sched_setaffinity (N.setbit 0 core_id) k) with
  | (Err e, k) => (Err e, k)
  | (Ok _, k) => (Ok tt, k)
  end.
End Pinning.

(** ** [shared_config] *)

Definition shared_config (cfg : ServerConfig) : ServerConfig :=
  mkConfig cfg.(addr) cfg.(workers) cfg.(read_timeout) cfg.(write_timeout) cfg.(max_connections)
    cfg.(cfg_assets_dir).

(** ** The state *)

(** A thread before each stage of its closure, and ended: with what the
    closure returned, or by a panic. *)
Inductive Thread :=
  | Pinning
  | Binding
  | Building (listener : Z)
  | Running (r : Reactor)
  | Ended (e : option (result unit IoError)).

(** [serve] in its two loops, and returned. *)
Inductive MPc :=
  | Spawning
  | Joining (i : nat) (first_err : option IoError)
  | Returned (ret : result unit IoError).

Inductive Label :=
  | Spawn
  | SpawnErr (e : IoError)
  | Join
  | Advance (i : nat)
  | Panics (i : nat).

Section Model.
Context {K H : Type} `{Kernel K, !Sockets K, !Affinity K} `{HashOrder} `{Handlers H}.

Record Multi := mkMulti { m_world : World K H; threads : list Thread; mpc : MPc }.

(** Past the reset of [SHUTDOWN]. *)
Definition Multi_new (w : World K H) : Multi := mkMulti w [] Spawning.

(** The fields of a [Reactor] that own descriptors, dropped in their order. *)
Definition Reactor_drop (r : Reactor) (k : K) : K :=
  let k := k_close r.(epoll) k in
  let k := foldl (fun k '(_, s) => k_close s.(stream) k) k (hash_iter r.(conns).(slots)) in
  k_close r.(listener) k.

(** A stage of the closure of the [i]th thread. *)
Definition thread_step (cfg : ServerConfig) (i : nat) (t : Thread) (w : World K H)
    : outcome (Thread * World K H) :=
  match t with
  | Pinning =>
    let '(_, k) := pin_to_core (N.of_nat i) w.(kern) in
    Ret (Binding, set_kern k w)
  | Binding =>
    match bind_listener cfg.(addr) true w.(kern) with
    | (Err e, k) => Ret (Ended (Some (Err e)), set_kern k w)
    | (Ok listener, k) => Ret (Building listener, set_kern k w)
    end
  | Building listener =>
    match Reactor_new listener (shared_config cfg) w with
    | (Err e, w) => Ret (Ended (Some (Err e)), w)
    | (Ok r, w) => Ret (Running r, w)
    end
  | Running r =>
    if shutdown w.(kern) then Ret (Ended (Some (Ok tt)), set_kern (Reactor_drop r w.(kern)) w)
    else '(r, w) ← run 1 (r, w); Ret (Running r, w)
  | Ended _ => Ret (t, w)
  end.

(** A panic unwinds the thread: it drops what the thread owns. *)
Definition thread_unwind (t : Thread) (w : World K H) : World K H :=
  match t with
  | Building listener => set_kern (k_close listener w.(kern)) w
  | Running r => set_kern (Reactor_drop r w.(kern)) w
  | _ => w
  end.

(** [serve], with what its closures return. *)
Definition main_step (cfg : ServerConfig) (l : Label) (s : Multi) : option Multi :=
  let workers := N.to_nat (N.max cfg.(App.workers) 1) in
  match l, s.(mpc) with
  | Spawn, Spawning =>
    let threads := s.(threads) ++ [Pinning] in
    Some (mkMulti s.(m_world) threads
      (if length threads =? workers then Joining 0 None else Spawning))
  | SpawnErr e, Spawning => Some (mkMulti s.(m_world) s.(threads) (Returned (Err e)))
  | Join, Joining i first_err =>
    match s.(threads) !! i with
    | Some (Ended e) =>
      let first_err :=
        match e, first_err with
        | Some (Err e), None => Some e
        | _, _ => first_err
        end in
      Some (mkMulti s.(m_world) s.(threads)
        (if S i =? length s.(threads)
         then Returned (match first_err with Some e => Err e | None => Ok tt end)
         else Joining (S i) first_err))
    | _ => None
    end
  | _, _ => None
  end.

(** The threads run [owned_cfg], the copy [serve] made. *)
Definition step (cfg : ServerConfig) (l : Label) (s : Multi) : outcome (option Multi) :=
  match l with
  | Advance i =>
    match s.(threads) !! i with
    | None | Some (Ended _) => Ret None
    | Some t =>
      '(t, w) ← thread_step (shared_config cfg) i t s.(m_world);
      Ret (Some (mkMulti w (<[i := t]> s.(threads)) s.(mpc)))
    end
  | Panics i =>
    match s.(threads) !! i with
    | None | Some (Ended _) => Ret None
    | Some t => Ret (Some (mkMulti (thread_unwind t s.(m_world)) (<[i := Ended None]> s.(threads)) s.(mpc)))
    end
  | _ => Ret (main_step cfg l s)
  end.

(** [Ret None]: a label of the list was not enabled. *)
Fixpoint steps (cfg : ServerConfig) (ls : list Label) (s : Multi) : outcome (option Multi) :=
  match ls with
  | [] => Ret (Some s)
  | l :: ls =>
    s ← step cfg l s;
    match s with None => Ret None | Some s => steps cfg ls s end
  end.
End Model.
Arguments Multi : clear implicits.
