(* ===== verification/MultireactorProps.v ===== *)
(** * Properties of the multireactor model *)

From S2P Require Import Prelude RustStr Http Response Request RequestSpec RequestRefine Router Asset App Conn ConnSpec ConnProps Site Syscall Socket Listener SysPoll ConnTable EventIo EventIoProps Epoll EpollInv EpollProps Reactor ReactorProps Sim Multireactor.

(** ** What a thread leaves alone *)

Section Leaves.
Context {K : Type} `{KernelLaws K}.

(** The registrations among the descriptors [others] of their epoll instances:
    none is changed and none appears. *)
Definition leaves (others : gset Z) (k k' : K) : Prop :=
  forall ep, ep ∈ others ->
    interests k' ep ⊆ interests k ep /\
    forall fd, fd ∈ others -> interests k' ep !! fd = interests k ep !! fd.

Lemma leaves_same others k k' :
  (forall ep, ep ∈ others -> interests k' ep = interests k ep) -> leaves others k k'.
Proof. intros Hs ep Hep. by rewrite Hs. Qed.

Lemma leaves_trans others k1 k2 k3 : leaves others k1 k2 -> leaves others k2 k3 -> leaves others k1 k3.
Proof.
  intros H12 H23 ep Hep. destruct (H12 ep Hep) as [Hs1 Hf1], (H23 ep Hep) as [Hs2 Hf2].
  split; [by transitivity (interests k2 ep)|]. intros fd Hfd. by rewrite Hf2, Hf1.
Qed.

Lemma leaves_close others fd k : fd ∉ others -> leaves others k (k_close fd k).
Proof.
  intros Hfd ep Hep. destruct (close_effect fd k) as (_ & Hi & _). rewrite Hi by (intros ->; done).
  split; [apply delete_subseteq|]. intros fd' Hfd'. apply lookup_delete_ne. by intros ->.
Qed.

Lemma close_all_slots (l : list (Z * Slot)) k :
  foldl (fun k '(_, s) => k_close s.(stream) k) k l = close_all ((fun '(_, s) => s.(stream)) <$> l) k.
Proof.
  revert k. induction l as [|[fd s] l IH]; intros k; [done|]. cbn [foldl]. by rewrite IH.
Qed.

Lemma close_all_spec others fds k :
  (forall fd, fd ∈ fds -> fd ∉ others) ->
  opened (close_all fds k) = opened k ∖ list_to_set fds /\ leaves others k (close_all fds k).
Proof.
  revert k. induction fds as [|fd fds IH]; intros k Hf; cbn [close_all foldl].
  - split; [cbn; set_solver|by apply leaves_same].
  - destruct (IH (k_close fd k)) as [Ho Hl]; [intros fd' Hin; apply Hf; by right|].
    fold (close_all fds (k_close fd k)). rewrite Ho, (proj1 (close_effect fd k)). split; [cbn; set_solver|].
    eapply leaves_trans; [|exact Hl]. apply leaves_close, Hf. by left.
Qed.
End Leaves.

Section Threads.
Context {K H : Type} `{HL : SocketLaws K, !Affinity K, !AffinityLaws K} `{HashOrder} `{Handlers H}.

(** The descriptors a thread owns. *)
Definition owned (t : Thread) : gset Z :=
  match t with
  | Building l => {[l]}
  | Running r => {[r.(Reactor.epoll); r.(Reactor.listener)]} ∪ dom r.(Reactor.conns).(slots)
  | _ => ∅
  end.

Definition ctx_of (r : Reactor) : AcceptCtx :=
  mkCtx r.(Reactor.epoll) r.(Reactor.listener) r.(Reactor.cfg) Edge true.

Definition loop_of (r : Reactor) (w : World K H) : Loop K H :=
  mkLoop w r.(Reactor.conns) r.(Reactor.wants).

(** A reactor's tables agree with its epoll instance, whatever else is open. *)
Definition reactor_ok (r : Reactor) (w : World K H) : Prop :=
  inv (ctx_of r) (opened w.(kern) ∖ dom r.(Reactor.conns).(slots)) r.(Reactor.listener_registered) (loop_of r w).

Definition thread_ok (cfg : ServerConfig) (t : Thread) (w : World K H) : Prop :=
  match t with Running r => r.(Reactor.cfg) = cfg /\ reactor_ok r w | _ => True end.

(** What a step of a thread does to the shared kernel. *)
Record thread_moves (t t' : Thread) (w w' : World K H) : Prop := {
  tm_new : forall fd, fd ∈ owned t' -> fd ∈ owned t \/ fd ∉ opened w.(kern);
  tm_opened : opened w'.(kern) = (opened w.(kern) ∖ owned t) ∪ owned t';
  tm_leaves : leaves (opened w.(kern) ∖ owned t) w.(kern) w'.(kern);
  tm_site : same_site w.(wapp) w'.(wapp);
}.

Lemma Reactor_drop_spec r e (w : World K H) :
  reactor_ok r w ->
  thread_moves (Running r) (Ended e) w (set_kern (Reactor_drop r w.(kern)) w).
Proof.
  intros Hr. set (fds := (fun '(_, s) => s.(stream)) <$> hash_iter r.(Reactor.conns).(slots)).
  assert (forall fd, fd ∈ fds <-> fd ∈ dom r.(Reactor.conns).(slots)) as Hfds.
  { intros fd. unfold fds. rewrite list_elem_of_fmap, elem_of_dom. split.
    - intros ([fd' s] & -> & Hin). rewrite hash_iter_perm in Hin. apply elem_of_map_to_list in Hin.
      destruct (inv_slots _ _ _ _ Hr fd' s Hin) as (-> & _). by eexists.
    - intros [s Hs]. exists (fd, s). rewrite hash_iter_perm, elem_of_map_to_list.
      split; [|done]. by destruct (inv_slots _ _ _ _ Hr fd s Hs) as (-> & _). }
  assert (Reactor_drop r w.(kern) = k_close r.(Reactor.listener)
    (close_all fds (k_close r.(Reactor.epoll) w.(kern)))) as Hd.
  { unfold Reactor_drop. by rewrite close_all_slots. }
  set (others := opened w.(kern) ∖ owned (Running r)).
  assert (forall fd, fd ∈ owned (Running r) -> fd ∉ others) as Hown by (clear; set_solver).
  destruct (close_all_spec others fds (k_close r.(Reactor.epoll) w.(kern))) as [Ho Hl].
  { intros fd Hin%Hfds. apply Hown. cbn. set_solver. }
  assert (list_to_set fds = dom r.(Reactor.conns).(slots)) as Hset
    by (apply set_eq; intros fd; by rewrite elem_of_list_to_set).
  split; cbn [owned set_kern kern wapp]; try done.
  - rewrite Hd, (proj1 (close_effect _ _)), Ho, (proj1 (close_effect _ _)), Hset. clear. set_solver.
  - fold others. rewrite Hd. eapply leaves_trans; [|apply leaves_close, Hown; cbn; set_solver].
    eapply leaves_trans; [|exact Hl]. apply leaves_close, Hown. cbn. set_solver.
Qed.
(** A step that opens and closes nothing. *)
Lemma thread_moves_same t t' (w : World K H) k :
  owned t' = owned t -> owned t ⊆ opened w.(kern) -> opened k = opened w.(kern) ->
  interests k = interests w.(kern) -> thread_moves t t' w (set_kern k w).
Proof.
  intros Ht Hsub Ho Hi. split; cbn [set_kern kern wapp].
  - rewrite Ht. by left.
  - rewrite Ho, Ht. clear -Hsub. apply set_eq. intros fd. destruct (decide (fd ∈ owned t)); set_solver.
  - apply leaves_same. by rewrite Hi.
  - done.
Qed.

Lemma pin_to_core_frame core (k : K) r k' :
  pin_to_core core k = (r, k') -> opened k' = opened k /\ interests k' = interests k.
Proof.
  unfold pin_to_core, syscall, cvt. intros E. destruct (_ <=? _)%N; [by simplify_eq|].
  destruct (k_sched_setaffinity _ k) as [z k1] eqn:E1. apply setaffinity_frame in E1.
  cbn [fst snd] in E. destruct (is_minus_one z); by simplify_eq.
Qed.

(** [Reactor::new] does what the set-up of [epoll-et] does. *)
Lemma Reactor_new_setup l cfg (w : World K H) :
  epoll_setup cfg Edge true l w =
  match Reactor_new l cfg w with
  | (Ok r, w') => (Ok (ctx_of r, loop_of r w'), w')
  | (Err e, w') => (Err e, w')
  end.
Proof.
  unfold epoll_setup, Reactor_new. destruct (set_nonblocking l (kern w)) as [[u|e] k1]; [|done].
  destruct (Epoll_new k1) as [[ep|e] k2]; [|done].
  by destruct (Epoll_add ep l Read Edge k2) as [[u'|e] k3].
Qed.

Lemma Reactor_new_leaves l cfg (w : World K H) r w' :
  l ∈ opened w.(kern) -> Reactor_new l cfg w = (r, w') ->
  leaves (opened w.(kern) ∖ {[l]}) w.(kern) w'.(kern) /\ w'.(wapp) = w.(wapp) /\
  match r with Ok r => r.(Reactor.listener) = l /\ r.(Reactor.cfg) = cfg /\ r.(Reactor.conns) = ConnTable_new /\
      r.(Reactor.listener_registered) = true
  | Err _ => True end.
Proof.
  intros Hl E. unfold Reactor_new in E. set (others := opened w.(kern) ∖ {[l]}).
  assert (l ∉ others) as Hlo by (clear; set_solver).
  destruct (set_nonblocking l (kern w)) as [[u|e] k1] eqn:E1; apply set_nonblocking_frame in E1 as (Ho1 & Hi1 & _);
    assert (leaves others (kern w) k1) as Hl1 by (apply leaves_same; by rewrite Hi1).
  2: { simplify_eq/=. split_and!; [|done..]. by eapply leaves_trans, leaves_close. }
  unfold Epoll_new, syscall, cvt, is_minus_one in E.
  destruct (k_epoll_create1 k1) as [ep k2] eqn:E2. cbn [fst snd] in E.
  destruct (Z.eqb_spec ep (-1)) as [->|Hep].
  { apply create1_fail in E2 as [_ Hi2]. simplify_eq/=. split_and!; [|done..].
    eapply leaves_trans, leaves_close; [|done]. eapply leaves_trans, leaves_same; [done|by rewrite Hi2]. }
  apply create1_new in E2 as (Hnew & Ho2 & _ & Hi2); [|done].
  assert (ep ∉ others) as Heo by (rewrite Ho1 in Hnew; clear -Hnew; set_solver).
  assert (leaves others (kern w) k2) as Hl2.
  { eapply leaves_trans, leaves_same; [exact Hl1|]. intros ep' Hin. apply Hi2. by intros ->. }
  destruct (Epoll_add ep l Read Edge k2) as [[u'|e] k3] eqn:E3;
    (apply ctl_spec in E3 as (_ & _ & Hi3 & _); [|done]);
    assert (leaves others (kern w) k3) as Hl3 by
      (eapply leaves_trans, leaves_same; [exact Hl2|intros ep' Hin; apply Hi3; by intros ->]);
    simplify_eq/=; [done|].
  split_and!; [|done..]. eapply leaves_trans, leaves_close; [|done]. by eapply leaves_trans, leaves_close.
Qed.

Lemma Reactor_new_spec l cfg (w : World K H) r w' :
  l ∈ opened w.(kern) -> all_fit w.(wapp) -> Reactor_new l cfg w = (r, w') ->
  match r with
  | Ok r => thread_moves (Building l) (Running r) w w' /\ thread_ok cfg (Running r) w'
  | Err e => thread_moves (Building l) (Ended (Some (Err e))) w w'
  end.
Proof.
  intros Hl Hfit E. destruct (Reactor_new_leaves _ _ _ _ _ Hl E) as (Hlv & Ha & Hr).
  pose proof (epoll_setup_spec cfg Edge true l w) as Hs. rewrite Reactor_new_setup, E in Hs.
  destruct r as [r|e]; specialize (Hs _ _ Hl Hfit eq_refl); cbn in Hs.
  - destruct Hr as (<- & <- & Hc & Hreg), Hs as (Hnew & _ & Hi).
    assert (dom (Reactor.conns r).(slots) = ∅) as Hdom by (rewrite Hc; apply dom_empty_L).
    assert (opened (kern w') = (opened (kern w) ∪ {[Reactor.epoll r]}) ∪ dom (Reactor.conns r).(slots)) as Ho
      by exact (inv_opened _ _ _ _ Hi).
    rewrite Hdom in Ho.
    split; [split|].
    + cbn. rewrite Hdom. intros fd [[->%elem_of_singleton|Hin]%elem_of_union|[]%elem_of_empty]%elem_of_union;
        [by right|by left].
    + cbn. rewrite Hdom, Ho.
      clear -Hl. apply set_eq. intros fd. destruct (decide (fd = Reactor.listener r)); set_solver.
    + done.
    + unfold same_site. by rewrite Ha.
    + split; [done|]. unfold reactor_ok. rewrite Hdom, difference_empty_L, Ho, union_empty_r_L, Hreg. exact Hi.
  - split; [by intros fd ?%elem_of_empty| |done|unfold same_site; by rewrite Ha].
    cbn. rewrite Hs. clear. set_solver.
Qed.
Lemma swap_sets (O D D' E : gset Z) : E ⊆ O ∖ D -> (O ∖ D) ∪ D' = (O ∖ (E ∪ D)) ∪ (E ∪ D').
Proof.
  intros Hs. apply set_eq. intros x. specialize (Hs x). rewrite elem_of_difference in Hs.
  rewrite !elem_of_union, !elem_of_difference, elem_of_union. destruct (decide (x ∈ E)); tauto.
Qed.

(** A round of one of the reactors. *)
Lemma run_round_spec r (w : World K H) :
  reactor_ok r w -> owned (Running r) ⊆ opened w.(kern) ->
  exists r' w', run 1 (r, w) = Ret (r', w') /\ thread_moves (Running r) (Running r') w w' /\
    r'.(Reactor.cfg) = r.(Reactor.cfg) /\ reactor_ok r' w'.
Proof.
  intros Hr Hsub. set (base := opened w.(kern) ∖ dom r.(Reactor.conns).(slots)).
  assert (run 1 (r, w) = (fun '(st, b) => reactor_of (ctx_of r) st b) <$>
    iterations (ctx_of r) 1 (loop_of r w) r.(Reactor.listener_registered)) as Hrun.
  { rewrite <-(run_equiv (ctx_of r) (conj eq_refl eq_refl)). f_equal. by destruct r. }
  rewrite Hrun. cbn [iterations]. destruct (shutdown _) eqn:Hsd.
  { exists r, w. cbn. split; [by destruct r|]. split; [|done].
    destruct w as [k a]. apply (thread_moves_same _ _ (mkWorld k a) k); done. }
  destruct (iteration_spec _ _ _ _ Hr) as (st & b & -> & Hi & Hs & Hf).
  cbn [mbind outcome_bind fmap outcome_fmap reactor_of].
  eexists _, _. split; [reflexivity|]. fold base in Hi, Hf.
  assert (opened (kern (world st)) = base ∪ dom (Epoll.conns st).(slots)) as Ho by apply (inv_opened _ _ _ _ Hi).
  assert (base ## dom (Epoll.conns st).(slots)) as Hd by apply (inv_base _ _ _ _ Hi).
  split_and!; [|done|].
  - split; cbn [owned Reactor.epoll Reactor.listener Reactor.conns].
    + intros fd Hfd. destruct (decide (fd ∈ opened (kern w))) as [Hin|]; [left|by right].
      revert Hfd. rewrite !elem_of_union. intros [|Hin']; [by left|]. right. apply dec_stable. intros Hn.
      apply (Hd fd); [|done]. by apply elem_of_difference.
    + cbn. rewrite Ho. apply swap_sets. pose proof (inv_instance _ _ _ _ Hi). pose proof (inv_listener _ _ _ _ Hi).
      by apply union_least; apply singleton_subseteq_l.
    + intros ep Hep. cbn in Hep. destruct (Hf ep) as [H1' H2']; [subst base; clear -Hep; set_solver|..].
      { intros ->. cbn in Hep. clear -Hep. set_solver. }
      split; [exact H1'|]. intros fd Hfd. apply H2'. subst base. cbn in Hfd. clear -Hfd. set_solver.
    + exact Hs.
  - unfold reactor_ok, loop_of. cbn [Reactor.conns Reactor.wants Reactor.listener_registered].
    replace (opened (kern (world st)) ∖ dom (slots (Epoll.conns st))) with base
      by (rewrite Ho; clear -Hd; set_solver).
    by destruct st.
Qed.

Lemma thread_step_spec cfg i t (w : World K H) :
  thread_ok cfg t w -> owned t ⊆ opened w.(kern) -> all_fit w.(wapp) ->
  exists t' w', thread_step cfg i t w = Ret (t', w') /\ thread_moves t t' w w' /\ thread_ok cfg t' w'.
Proof.
  intros Hok Hsub Hfit. destruct t as [| |l|r|e]; cbn [thread_step].
  - destruct (pin_to_core (N.of_nat i) (kern w)) as [r k] eqn:E. apply pin_to_core_frame in E as [Ho Hi].
    exists Binding, (set_kern k w). split_and!; [done| |done]. by apply thread_moves_same.
  - destruct (bind_listener (addr cfg) true (kern w)) as [[l|e] k] eqn:E; apply bind_listener_spec in E;
      (eexists _, _; split_and!; [reflexivity| |done]).
    + destruct E as (Hnew & Ho & _ & Hi). split; cbn [owned set_kern kern wapp]; try done.
      * intros fd ->%elem_of_singleton. by right.
      * rewrite Ho. clear. set_solver.
      * apply leaves_same. by rewrite Hi.
    + destruct E as (Ho & _ & Hi). split; cbn [owned set_kern kern wapp]; try done.
      * rewrite Ho. clear. set_solver.
      * rewrite difference_empty_L. exact Hi.
  - assert (l ∈ opened (kern w)) as Hl by (apply Hsub; cbn; set_solver).
    replace (shared_config cfg) with cfg by (by destruct cfg).
    destruct (Reactor_new l cfg w) as [[r|e] w'] eqn:E; apply Reactor_new_spec in E; try done.
    + destruct E as [Hm Hr]. by exists (Running r), w'.
    + by eexists _, w'.
  - destruct Hok as [Hcfg Hr]. destruct (shutdown (kern w)) eqn:Hsd.
    + eexists _, _. split_and!; [reflexivity| |done]. by apply Reactor_drop_spec.
    + destruct (run_round_spec r w Hr Hsub) as (r' & w' & -> & Hm & Hcfg' & Hr').
      exists (Running r'), w'. split_and!; [done|done|]. split; [congruence|done].
  - exists (Ended e), w. split_and!; [done| |done]. destruct w as [k a].
    by apply (thread_moves_same _ _ (mkWorld k a) k).
Qed.
(** ** The invariant *)

Context (cfg : ServerConfig) (rest : gset Z).

(** [rest]: what was open before [serve]. *)
Record multi_inv (s : Multi K H) : Prop := {
  mi_opened : forall fd, fd ∈ opened s.(m_world).(kern) <->
    fd ∈ rest \/ exists i t, s.(threads) !! i = Some t /\ fd ∈ owned t;
  mi_apart : forall i j t u fd, s.(threads) !! i = Some t -> s.(threads) !! j = Some u ->
    fd ∈ owned t -> fd ∈ owned u -> i = j;
  mi_rest : forall i t fd, s.(threads) !! i = Some t -> fd ∈ owned t -> fd ∉ rest;
  mi_ok : forall i t, s.(threads) !! i = Some t -> thread_ok cfg t s.(m_world);
  mi_fit : all_fit s.(m_world).(wapp);
}.

Lemma owned_opened s i t : multi_inv s -> s.(threads) !! i = Some t -> owned t ⊆ opened s.(m_world).(kern).
Proof. intros Hi Ht fd Hfd. apply (mi_opened _ Hi). right. by exists i, t. Qed.

(** The tables of a reactor still agree after a step of another thread. *)
Lemma reactor_ok_kept r t t' (w w' : World K H) :
  reactor_ok r w -> thread_moves t t' w w' -> all_fit w.(wapp) ->
  owned (Running r) ⊆ opened w.(kern) ∖ owned t -> reactor_ok r w'.
Proof.
  intros Hr Hm Hfit Hsub. set (slots := dom r.(Reactor.conns).(slots)) in *.
  pose proof (tm_opened _ _ _ _ Hm) as Ho.
  assert (owned (Running r) ⊆ opened w'.(kern)) as Hin by (rewrite Ho; by apply union_subseteq_l').
  assert (slots ⊆ owned (Running r)) as Hslots by by apply union_subseteq_r.
  assert (Reactor.epoll r ∈ owned (Running r)) as Hep by (cbn; clear; set_solver).
  assert (Reactor.listener r ∈ owned (Running r)) as Hl by (cbn; clear; set_solver).
  assert (Reactor.epoll r ∉ slots) as Hep' by (pose proof (inv_instance _ _ _ _ Hr) as Hb; clear -Hb; set_solver).
  assert (Reactor.listener r ∉ slots) as Hl' by (pose proof (inv_listener _ _ _ _ Hr) as Hb; clear -Hb; set_solver).
  destruct (tm_leaves _ _ _ _ Hm (Reactor.epoll r) (Hsub _ Hep)) as [Hle Hsame].
  split; cbn [loop_of wants conns world]; try apply Hr.
  - change (kernel (loop_of r w')) with (kern w'). fold slots.
    apply set_eq. intros x. rewrite elem_of_union, elem_of_difference.
    destruct (decide (x ∈ slots)); [|tauto]. specialize (Hslots x). specialize (Hin x). tauto.
  - fold slots. clear. set_solver.
  - apply elem_of_difference. split; [by apply Hin|done].
  - apply elem_of_difference. split; [by apply Hin|done].
  - intros fd. pose proof (inv_epoll _ _ _ _ Hr fd) as He. refine (eq_trans _ He).
    change (kernel (loop_of r w')) with (kern w'). change (kernel (loop_of r w)) with (kern w).
    change (Epoll.epoll (ctx_of r)) with (Reactor.epoll r) in *.
    destruct (decide (fd ∈ owned (Running r))) as [Hfd|Hfd]; [by apply Hsame, Hsub|].
    assert (interests (kern w) (Reactor.epoll r) !! fd = None) as Hnone.
    { change (kernel (loop_of r w)) with (kern w) in He. rewrite He, decide_False by (intros ->; done).
      apply fmap_None, not_elem_of_dom. intros Hw. apply Hfd, Hslots. unfold slots.
      pose proof (inv_wants _ _ _ _ Hr) as Hdom. cbn [loop_of Epoll.conns Epoll.wants] in Hdom, Hw.
      by rewrite <-Hdom. }
    rewrite Hnone. by eapply lookup_weaken_None.
  - eapply all_fit_same; [exact Hfit|]. apply (tm_site _ _ _ _ Hm).
Qed.

(** A step of one thread, the others standing still. *)
Lemma move_thread_inv s i t t' w' :
  multi_inv s -> s.(threads) !! i = Some t -> thread_moves t t' s.(m_world) w' -> thread_ok cfg t' w' ->
  multi_inv (mkMulti w' (<[i := t']> s.(threads)) s.(mpc)).
Proof.
  intros Hi Ht Hm Hok. pose proof (tm_opened _ _ _ _ Hm) as Ho. pose proof (tm_new _ _ _ _ Hm) as Hn.
  assert (i < length s.(threads)) as Hlt by by eapply lookup_lt_Some.
  assert (forall j u fd, j <> i -> s.(threads) !! j = Some u -> fd ∈ owned u -> fd ∉ owned t) as Hap.
  { intros j u fd Hne Hu Hfd Hfd'. apply Hne. by eapply (mi_apart _ Hi). }
  assert (forall j u fd, j <> i -> s.(threads) !! j = Some u -> fd ∈ owned u -> fd ∉ owned t') as Hap'.
  { intros j u fd Hne Hu Hfd Hfd'. destruct (Hn fd Hfd') as [Hold|Hnew]; [by eapply Hap|].
    apply Hnew. by eapply owned_opened. }
  split; cbn [m_world threads mpc].
  - intros fd. rewrite Ho, elem_of_union, elem_of_difference, (mi_opened _ Hi). split.
    + intros [[[Hr|(j & u & Hu & Hfd)] Hnt]|Hfd]; [by left| |].
      * right. exists j, u. split; [|done]. rewrite list_lookup_insert_ne; [done|]. intros ->. by simplify_eq.
      * right. exists i, t'. by rewrite list_lookup_insert_eq.
    + intros [Hr|(j & u & Hu & Hfd)].
      * left. split; [by left|]. intros Hfd. by eapply (mi_rest _ Hi).
      * apply list_lookup_insert_Some in Hu as [(<- & <- & _)|(Hne & Hu)]; [by right|].
        left. split; [right; by exists j, u|]. by eapply Hap.
  - intros j1 j2 t1 t2 fd H1' H2' Hf1 Hf2.
    apply list_lookup_insert_Some in H1' as [(<- & <- & _)|(Hne1 & H1')];
      apply list_lookup_insert_Some in H2' as [(<- & <- & _)|(Hne2 & H2')]; [done|..|by eapply (mi_apart _ Hi)].
    + by destruct (Hap' j2 t2 fd).
    + by destruct (Hap' j1 t1 fd).
  - intros j u fd Hu Hfd Hr. apply list_lookup_insert_Some in Hu as [(<- & <- & _)|(Hne & Hu)];
      [|by eapply (mi_rest _ Hi)].
    destruct (Hn fd Hfd) as [Hold|Hnew]; [by eapply (mi_rest _ Hi)|]. apply Hnew, (mi_opened _ Hi). by left.
  - intros j u Hu. apply list_lookup_insert_Some in Hu as [(<- & <- & _)|(Hne & Hu)]; [done|].
    pose proof (mi_ok _ Hi j u Hu) as Hoku. destruct u as [| | |r|]; try done. destruct Hoku as [Hc Hr].
    split; [done|]. eapply reactor_ok_kept; [done..|apply (mi_fit _ Hi)|].
    intros fd Hfd. apply elem_of_difference. split; [by eapply owned_opened|by eapply Hap].
  - eapply all_fit_same; [apply (mi_fit _ Hi)|]. apply (tm_site _ _ _ _ Hm).
Qed.
Lemma thread_unwind_spec t (w : World K H) :
  (forall e, t <> Ended e) -> thread_ok cfg t w -> owned t ⊆ opened w.(kern) ->
  thread_moves t (Ended None) w (thread_unwind t w).
Proof.
  intros Hne Hok Hsub.
  assert (owned t = ∅ -> thread_moves t (Ended None) w w) as Hsame.
  { intros He. destruct w as [k a]. by apply (thread_moves_same _ _ (mkWorld k a) k). }
  destruct t as [| |l|r|e]; cbn [thread_unwind]; try (by apply Hsame).
  - split; cbn [owned set_kern kern wapp]; try done.
    + rewrite (proj1 (close_effect l (kern w))). clear. set_solver.
    + apply leaves_close. clear. set_solver.
  - apply Reactor_drop_spec. by destruct Hok.
Qed.

Lemma shared_config_id : shared_config cfg = cfg.
Proof. by destruct cfg. Qed.

Lemma multi_step_inv l s :
  multi_inv s -> exists o, step cfg l s = Ret o /\ forall s', o = Some s' -> multi_inv s'.
Proof.
  intros Hi. destruct l as [|e| |i|i]; cbn [step]; rewrite ?shared_config_id.
  1-3: eexists; split; [reflexivity|]; intros s' E; cbn [main_step] in E; destruct (mpc s); try discriminate E.
  - injection E as <-. destruct Hi as [Ho Ha Hr Hok Hfit]. split; cbn [m_world threads]; try done.
    + intros fd. rewrite Ho. split; intros [?|(i & t & Ht & Hfd)]; try (by left); right; exists i, t.
      * split; [by apply lookup_app_l_Some|done].
      * apply lookup_app_Some in Ht as [?|[_ Ht]]; [done|].
        apply list_lookup_singleton_Some in Ht as [_ <-]. by apply elem_of_empty in Hfd.
    + intros i j t u fd [Ht|[_ [_ <-]%list_lookup_singleton_Some]]%lookup_app_Some
        [Hu|[_ [_ <-]%list_lookup_singleton_Some]]%lookup_app_Some Hf1 Hf2;
        [by eapply Ha|by apply elem_of_empty in Hf1 || by apply elem_of_empty in Hf2..].
    + intros i t fd [Ht|[_ [_ <-]%list_lookup_singleton_Some]]%lookup_app_Some Hf;
        [by eapply Hr|by apply elem_of_empty in Hf].
    + intros i t [Ht|[_ [_ <-]%list_lookup_singleton_Some]]%lookup_app_Some; [by eapply Hok|done].
  - injection E as <-. by destruct Hi.
  - destruct (threads s !! i) as [[]|]; try discriminate E. injection E as <-. by destruct Hi.
  - destruct (threads s !! i) as [t|] eqn:Ht; [|by exists None].
    destruct (thread_step_spec cfg i t (m_world s)) as (t' & w' & Hst & Hm & Hok);
      [by eapply mi_ok|by eapply owned_opened|by apply mi_fit|].
    destruct t; try (by exists None); rewrite Hst; cbn [mbind outcome_bind];
      (eexists; split; [reflexivity|]; intros s' E; injection E as <-; by eapply move_thread_inv).
  - destruct (threads s !! i) as [t|] eqn:Ht; [|by exists None].
    assert ((forall e, t <> Ended e) -> multi_inv (mkMulti (thread_unwind t (m_world s))
      (<[i := Ended None]> (threads s)) (mpc s))) as Hpanic.
    { intros Hne. eapply move_thread_inv; [done..| |done].
      apply thread_unwind_spec; [done|by eapply mi_ok|by eapply owned_opened]. }
    destruct t; try (by exists None);
      (eexists; split; [reflexivity|]; intros s' E; injection E as <-; by apply Hpanic).
Qed.

Lemma multi_steps_inv ls s :
  multi_inv s -> exists o, steps cfg ls s = Ret o /\ forall s', o = Some s' -> multi_inv s'.
Proof.
  revert s. induction ls as [|l ls IH]; intros s Hi; cbn [steps]; [exists (Some s); split; [done|by intros s' [= <-]]|].
  destruct (multi_step_inv l s Hi) as ([s1|] & -> & Hs1); cbn [mbind outcome_bind]; [|by exists None].
  by apply IH, Hs1.
Qed.
End Threads.

(** ** The joins *)

Definition is_ended (t : Thread) : bool := match t with Ended _ => true | _ => false end.

(** The errors that closures returned, in the order the threads were spawned. *)
Definition thread_errors (ts : list Thread) : list IoError :=
  omap (fun t => match t with Ended (Some (Err e)) => Some e | _ => None end) ts.

Definition verdict (ts : list Thread) : result unit IoError :=
  match head (thread_errors ts) with Some e => Err e | None => Ok tt end.

Section Joins.
Context {K H : Type} `{Kernel K, !Sockets K, !Affinity K} `{HashOrder} `{Handlers H}.
Context (cfg : ServerConfig).

Definition worker_count : nat := N.to_nat (N.max cfg.(App.workers) 1).

Definition main_inv (s : Multi K H) : Prop :=
  match s.(mpc) with
  | Spawning => length s.(threads) < worker_count
  | Joining i fe => length s.(threads) = worker_count /\ i < worker_count /\
      Forall (fun t => is_ended t = true) (take i s.(threads)) /\ fe = head (thread_errors (take i s.(threads)))
  | Returned ret =>
      (length s.(threads) = worker_count /\ Forall (fun t => is_ended t = true) s.(threads) /\
        ret = verdict s.(threads)) \/
      (length s.(threads) < worker_count /\ exists e, ret = Err e)
  end.

(** A thread that has ended is not touched again. *)
Lemma set_thread_inv (s : Multi K H) i t t' w :
  main_inv s -> s.(threads) !! i = Some t -> is_ended t = false ->
  main_inv (mkMulti w (<[i := t']> s.(threads)) s.(mpc)).
Proof.
  intros Hm Ht Hne. unfold main_inv in *. cbn [mpc threads]. rewrite length_insert.
  destruct (mpc s) as [|j fe|ret]; [done| |].
  - destruct Hm as (Hl & Hj & Hf & Hfe). assert (j <= i) as Hle.
    { apply Nat.nlt_ge. intros Hlt. rewrite Forall_forall in Hf.
      rewrite (Hf t) in Hne; [done|]. apply list_elem_of_lookup. exists i. by rewrite lookup_take_lt. }
    by rewrite take_insert_ge.
  - destruct Hm as [(Hl & Hf & Hr)|Hm]; [|by right]. exfalso. rewrite Forall_forall in Hf.
    rewrite (Hf t) in Hne; [done|]. apply list_elem_of_lookup. by exists i.
Qed.

Lemma head_snoc {A} (l : list A) x : head (l ++ [x]) = match head l with Some y => Some y | None => Some x end.
Proof. by destruct l. Qed.

Lemma thread_errors_snoc ts t :
  head (thread_errors (ts ++ [t])) =
  match t, head (thread_errors ts) with
  | Ended (Some (Err e)), None => Some e
  | _, fe => fe
  end.
Proof.
  unfold thread_errors. rewrite omap_app. cbn [omap list_omap].
  destruct t as [| | | |[[|]|]]; rewrite ?app_nil_r; try done. rewrite head_snoc. by destruct (head _).
Qed.

Lemma main_step_inv l (s s' : Multi K H) : main_inv s -> main_step cfg l s = Some s' -> main_inv s'.
Proof.
  intros Hm E. unfold main_inv in Hm. destruct l as [|e| | |]; cbn [main_step] in E; try discriminate E;
    fold worker_count in E.
  - destruct (mpc s) eqn:Hpc; try discriminate E. injection E as <-. unfold main_inv. cbn [mpc threads].
    rewrite length_app. cbn [length].
    destruct (Nat.eqb_spec (length (threads s) + 1) worker_count); [|lia].
    split_and!; [lia|lia|constructor|done].
  - destruct (mpc s) eqn:Hpc; try discriminate E. injection E as <-. right. split; [done|by exists e].
  - destruct (mpc s) as [|i fe|] eqn:Hpc; try discriminate E. destruct Hm as (Hl & Hi & Hf & Hfe).
    destruct (threads s !! i) as [[| | | |e]|] eqn:Ht; try discriminate E. injection E as <-.
    assert (take (S i) (threads s) = take i (threads s) ++ [Ended e]) as Hsnoc by by apply take_S_r.
    assert (Forall (fun t => is_ended t = true) (take (S i) (threads s))) as Hf'
      by (rewrite Hsnoc; apply Forall_app; by split; [|apply Forall_singleton]).
    assert (match e, fe with Some (Err e), None => Some e | _, _ => fe end =
      head (thread_errors (take (S i) (threads s)))) as Hfe'.
    { rewrite Hsnoc, thread_errors_snoc, <-Hfe. by destruct e as [[|]|], fe. }
    unfold main_inv. cbn [mpc threads]. rewrite Hfe'.
    match goal with |- context [if ?b then _ else _] => destruct b eqn:Heq end;
      [apply (proj1 (Nat.eqb_eq (S i) (length (threads s)))) in Heq
      |apply (proj1 (Nat.eqb_neq (S i) (length (threads s)))) in Heq].
    + left. rewrite Heq, firstn_all in *. by unfold verdict.
    + split_and!; try done. lia.
Qed.

Lemma join_steps_inv ls (s s' : Multi K H) : main_inv s -> steps cfg ls s = Ret (Some s') -> main_inv s'.
Proof.
  revert s. induction ls as [|l ls IH]; intros s Hm E; cbn [steps] in E; [by injection E as <-|].
  destruct (step cfg l s) as [[s1|]| |] eqn:E1; try done. cbn [mbind outcome_bind] in E.
  apply (IH s1); [|done]. destruct l as [|e| |i|i]; cbn [step] in E1;
    try (apply (f_equal (fun o => match o with Ret x => x | _ => None end)) in E1;
         exact (main_step_inv _ s s1 Hm E1)).
  - destruct (threads s !! i) as [t|] eqn:Ht; [|done]. destruct (is_ended t) eqn:Hend; [by destruct t|].
    destruct t; try done;
      (destruct (thread_step (shared_config cfg) i _ (m_world s)) as [[t' w']| |]; try done;
       injection E1 as <-; by eapply set_thread_inv).
  - destruct (threads s !! i) as [t|] eqn:Ht; [|done]. destruct (is_ended t) eqn:Hend; [by destruct t|].
    destruct t; try done; injection E1 as <-; by eapply set_thread_inv.
Qed.
End Joins.

(** ** The end *)

(** Nothing lowers the flag: it stays up through every call that a thread makes
    on its way out. *)
Class ShutdownStays (K : Type) `{Kernel K, !Sockets K, !Affinity K} := {
  stays_affinity set k r k' : k_sched_setaffinity set k = (r, k') -> shutdown k = true -> shutdown k' = true;
  stays_socket d k r k' : socket_new d k = (r, k') -> shutdown k = true -> shutdown k' = true;
  stays_reuse_address fd b k r k' : set_reuse_address fd b k = (r, k') -> shutdown k = true -> shutdown k' = true;
  stays_reuse_port fd b k r k' : set_reuse_port fd b k = (r, k') -> shutdown k = true -> shutdown k' = true;
  stays_bind fd a k r k' : bind fd a k = (r, k') -> shutdown k = true -> shutdown k' = true;
  stays_listen fd n k r k' : listen fd n k = (r, k') -> shutdown k = true -> shutdown k' = true;
  stays_getfl fd k r k' : k_fcntl_getfl fd k = (r, k') -> shutdown k = true -> shutdown k' = true;
  stays_setfl fd fl k r k' : k_fcntl_setfl fd fl k = (r, k') -> shutdown k = true -> shutdown k' = true;
  stays_create1 k r k' : k_epoll_create1 k = (r, k') -> shutdown k = true -> shutdown k' = true;
  stays_ctl ep op fd ev k r k' : k_epoll_ctl ep op fd ev k = (r, k') -> shutdown k = true -> shutdown k' = true;
  stays_close fd k : shutdown k = true -> shutdown (k_close fd k) = true;
}.

Section Termination.
Context {K H : Type} `{Kernel K, !Sockets K, !Affinity K, !ShutdownStays K} `{HashOrder} `{Handlers H}.
Context (cfg : ServerConfig).

#[local] Hint Resolve stays_affinity stays_socket stays_reuse_address stays_reuse_port stays_bind stays_listen
  stays_getfl stays_setfl stays_create1 stays_ctl stays_close : core.

Lemma pin_stays core (k : K) r k' : pin_to_core core k = (r, k') -> shutdown k = true -> shutdown k' = true.
Proof.
  unfold pin_to_core, syscall. intros E Hs. destruct (_ <=? _)%N; [by simplify_eq|].
  destruct (k_sched_setaffinity _ k) as [z k1] eqn:E1. cbn [fst snd] in E.
  destruct (cvt z k1); simplify_eq; eauto.
Qed.

Lemma bind_listener_stays a b (k : K) r k' :
  bind_listener a b k = (r, k') -> shutdown k = true -> shutdown k' = true.
Proof.
  unfold bind_listener, configure, and_then. intros E Hs.
  destruct (socket_new _ k) as [[fd|e] k1] eqn:E1; [|simplify_eq; eauto].
  assert (forall r2 k2, (if b then
      match set_reuse_address fd true k1 with
      | (Ok _, k) => set_reuse_port fd true k
      | (Err e, k) => (Err e, k)
      end else (Ok tt, k1)) = (r2, k2) -> shutdown k2 = true) as Hopt.
  { intros r2 k2 E2. destruct b; [|simplify_eq; eauto].
    destruct (set_reuse_address fd true k1) as [[u|e] k3] eqn:E3; [|simplify_eq]; eauto. }
  destruct (if b then _ else _) as [[u|e] k2] eqn:E2; specialize (Hopt _ _ eq_refl); [|simplify_eq; eauto].
  destruct (bind fd a k2) as [[u1|e] k3] eqn:E3; [|simplify_eq; eauto].
  destruct (listen fd LISTEN_BACKLOG k3) as [[u2|e] k4] eqn:E4; simplify_eq; eauto.
Qed.

Lemma Reactor_new_stays l c (w w' : World K H) r :
  Reactor_new l c w = (r, w') -> shutdown w.(kern) = true -> shutdown w'.(kern) = true.
Proof.
  unfold Reactor_new, set_nonblocking, Epoll_new, Epoll_add, ctl, ok_unit, syscall. intros E Hs.
  destruct (k_fcntl_getfl l (kern w)) as [z1 k1] eqn:E1. apply stays_getfl in E1; [|done]. cbn [fst snd] in E.
  destruct (cvt z1 k1); [|simplify_eq/=; eauto].
  destruct (k_fcntl_setfl l _ k1) as [z2 k2] eqn:E2. apply stays_setfl in E2; [|done]. cbn [fst snd] in E.
  destruct (cvt z2 k2); [|simplify_eq/=; eauto].
  destruct (k_epoll_create1 k2) as [z3 k3] eqn:E3. apply stays_create1 in E3; [|done]. cbn [fst snd] in E.
  destruct (cvt z3 k3); [|simplify_eq/=; eauto].
  destruct (k_epoll_ctl _ _ l _ k3) as [z4 k4] eqn:E4. apply stays_ctl in E4; [|done]. cbn [fst snd] in E.
  destruct (cvt z4 k4); simplify_eq/=; eauto.
Qed.

Lemma Reactor_drop_stays r (k : K) : shutdown k = true -> shutdown (Reactor_drop r k) = true.
Proof.
  intros Hs. unfold Reactor_drop. apply stays_close. assert (shutdown (k_close (Reactor.epoll r) k) = true) as Hs1
    by eauto. revert Hs1. generalize (k_close (Reactor.epoll r) k) as k1.
  induction (hash_iter _) as [|[fd s] l IH]; intros k1 Hs1; cbn [foldl]; eauto.
Qed.

(** The steps a thread has left once the flag is up. *)
Definition thread_left (t : Thread) : nat :=
  match t with Pinning => 4 | Binding => 3 | Building _ => 2 | Running _ => 1 | Ended _ => 0 end.

Lemma thread_step_ends c i t (w : World K H) :
  shutdown w.(kern) = true -> is_ended t = false ->
  exists t' w', thread_step c i t w = Ret (t', w') /\ shutdown w'.(kern) = true /\ thread_left t' < thread_left t.
Proof.
  intros Hs Ht. destruct t as [| |l|r|]; [..|done]; cbn [thread_step].
  - destruct (pin_to_core _ (kern w)) as [r k] eqn:E. eexists _, _. split; [done|].
    split; [by eapply pin_stays|cbn; lia].
  - destruct (bind_listener _ _ (kern w)) as [[l|e] k] eqn:E; (eexists _, _; split; [done|]);
      (split; [by eapply bind_listener_stays|cbn; lia]).
  - destruct (Reactor_new l _ w) as [[r|e] w'] eqn:E; (eexists _, _; split; [done|]);
      (split; [by eapply Reactor_new_stays|cbn; lia]).
  - rewrite Hs. eexists _, _. split; [done|]. split; [by apply Reactor_drop_stays|cbn; lia].
Qed.

Lemma thread_unwind_ends t (w : World K H) :
  shutdown w.(kern) = true -> shutdown (thread_unwind t w).(kern) = true.
Proof. intros Hs. destruct t; cbn; try done; [by apply stays_close|by apply Reactor_drop_stays]. Qed.

(** The steps [serve] has left, and those of the threads. *)
Definition main_left (s : Multi K H) : nat :=
  match s.(mpc) with
  | Spawning => 6 * (worker_count cfg - length s.(threads)) + length s.(threads) + 1
  | Joining i _ => length s.(threads) - i
  | Returned _ => 0
  end.

Definition multi_left (s : Multi K H) : nat := main_left s + sum_list_with thread_left s.(threads).

Lemma stage_insert ts i t t' :
  ts !! i = Some t -> sum_list_with thread_left (<[i := t']> ts) + thread_left t = sum_list_with thread_left ts + thread_left t'.
Proof.
  intros Hi. rewrite <-(take_drop_middle ts i t Hi) at 2. rewrite insert_take_drop by by eapply lookup_lt_Some.
  rewrite !sum_list_with_app. cbn [sum_list_with]. lia.
Qed.

Lemma main_step_left l (s s' : Multi K H) :
  main_inv cfg s -> main_step cfg l s = Some s' ->
  multi_left s' < multi_left s /\ s'.(m_world) = s.(m_world).
Proof.
  intros Hm E. unfold main_inv in Hm. unfold multi_left, main_left.
  destruct l as [|e| | |]; cbn [main_step] in E; try discriminate E; fold (worker_count cfg) in E;
    destruct (mpc s) as [|i fe|ret]; try discriminate E.
  - injection E as <-. cbn [mpc threads m_world]. rewrite sum_list_with_app, length_app. cbn [sum_list_with thread_left length].
    split; [|done]. match goal with |- context [if ?b then _ else _] => destruct b end; lia.
  - injection E as <-. cbn [mpc threads m_world]. split; [lia|done].
  - destruct (threads s !! i) as [[| | | |e]|] eqn:Ht; try discriminate E. injection E as <-.
    apply lookup_lt_Some in Ht. cbn [mpc threads m_world]. split; [|done].
    match goal with |- context [if ?b then _ else _] => destruct b end; lia.
Qed.

Lemma step_left l (s s' : Multi K H) :
  main_inv cfg s -> shutdown s.(m_world).(kern) = true -> step cfg l s = Ret (Some s') ->
  multi_left s' < multi_left s /\ shutdown s'.(m_world).(kern) = true.
Proof.
  intros Hm Hs E. assert (forall i t t' w, threads s !! i = Some t -> thread_left t' < thread_left t ->
    multi_left (mkMulti w (<[i := t']> (threads s)) (mpc s)) < multi_left s) as Hset.
  { intros i t t' w Ht Hlt. unfold multi_left, main_left. cbn [mpc threads]. rewrite length_insert.
    pose proof (stage_insert _ _ _ t' Ht). lia. }
  destruct l as [|e| |i|i]; cbn [step] in E;
    try (apply (f_equal (fun o => match o with Ret x => x | _ => None end)) in E;
         destruct (main_step_left _ s s' Hm E) as [Hlt ->]; done).
  - destruct (threads s !! i) as [t|] eqn:Ht; [|done]. destruct (is_ended t) eqn:Hend; [by destruct t|].
    destruct (thread_step_ends (shared_config cfg) i t (m_world s) Hs Hend) as (t' & w' & Hst & Hs' & Hlt).
    destruct t; try done; rewrite Hst in E; injection E as <-; (split; [by eapply Hset|done]).
  - destruct (threads s !! i) as [t|] eqn:Ht; [|done]. destruct (is_ended t) eqn:Hend; [by destruct t|].
    pose proof (thread_unwind_ends t (m_world s) Hs) as Hu.
    destruct t; try done; injection E as <-; (split; [eapply Hset; [done|cbn; lia]|exact Hu]).
Qed.

Lemma steps_left ls (s s' : Multi K H) :
  main_inv cfg s -> shutdown s.(m_world).(kern) = true -> steps cfg ls s = Ret (Some s') ->
  length ls + multi_left s' <= multi_left s.
Proof.
  revert s. induction ls as [|l ls IH]; intros s Hm Hs E; cbn [steps] in E; [by injection E as <-|].
  destruct (step cfg l s) as [[s1|]| |] eqn:E1; try done. cbn [mbind outcome_bind] in E.
  destruct (step_left _ _ _ Hm Hs E1) as [Hlt Hs1].
  assert (main_inv cfg s1) as Hm1 by (apply (join_steps_inv cfg [l] s s1 Hm); cbn [steps]; by rewrite E1).
  specialize (IH s1 Hm1 Hs1 E). cbn [length]. lia.
Qed.

Lemma some_step (s : Multi K H) :
  main_inv cfg s -> shutdown s.(m_world).(kern) = true ->
  (exists ret, s.(mpc) = Returned ret) \/ exists l s', step cfg l s = Ret (Some s').
Proof.
  intros Hm Hs. unfold main_inv in Hm. destruct (mpc s) as [|i fe|ret] eqn:Hpc; [| |left; by eexists]; right.
  - exists Spawn. cbn [step main_step]. rewrite Hpc. by eexists.
  - destruct Hm as (Hl & Hi & _ & _). destruct (lookup_lt_is_Some_2 (threads s) i) as [t Ht]; [lia|].
    destruct (is_ended t) eqn:Hend.
    + destruct t as [| | | |e]; try done. exists Join. cbn [step main_step]. rewrite Hpc, Ht. by eexists.
    + destruct (thread_step_ends (shared_config cfg) i t (m_world s) Hs Hend) as (t' & w' & Hst & _).
      exists (Advance i). cbn [step]. rewrite Ht. destruct t; try done; rewrite Hst; by eexists.
Qed.
End Termination.
