(* ===== verification/MultireactorRun.v ===== *)
(** * The reactors together: sharing nothing, joined, ended *)

From S2P Require Import Prelude RustStr Http Response Request RequestSpec RequestRefine Router Asset App Conn ConnSpec ConnProps Site Syscall Socket Listener SysPoll ConnTable EventIo EventIoProps Epoll EpollInv EpollProps Reactor ReactorProps Sim Multireactor MultireactorProps.

Section Theorems.
Context {K H : Type} `{HL : SocketLaws K, !Affinity K, !AffinityLaws K} `{HashOrder} `{Handlers H}.
Context (cfg : ServerConfig).

Lemma multi_new_inv (w : World K H) :
  all_fit w.(wapp) -> multi_inv cfg (opened w.(kern)) (Multi_new w) /\ main_inv cfg (Multi_new w).
Proof.
  intros Hfit. split; [split; cbn [Multi_new threads m_world]; try done|unfold main_inv, worker_count; cbn; lia].
  intros fd. split; [by left|]. intros [|(i & t & Ht & _)]; [done|by rewrite lookup_nil in Ht].
Qed.

(** C23. Invariant: however the threads interleave and whichever of them panics,
    no step of [serve] or a reactor panics by itself, every descriptor opened
    since the start is owned by exactly one thread, and each running reactor's
    tables agree with its own epoll instance and respect the cap: no thread
    ever closes or re-registers what another one uses. *)
Theorem reactors_share_nothing ls (w : World K H) (Hfit : all_fit w.(wapp)) :
  match steps cfg ls (Multi_new w) with
  | Panic | Diverge => False
  | Ret None => True
  | Ret (Some s) =>
    (forall fd, fd ∈ opened s.(m_world).(kern) <->
      fd ∈ opened w.(kern) \/ exists i t, s.(threads) !! i = Some t /\ fd ∈ owned t) /\
    (forall i j t u fd, s.(threads) !! i = Some t -> s.(threads) !! j = Some u ->
      fd ∈ owned t -> fd ∈ owned u -> i = j) /\
    (forall i t fd, s.(threads) !! i = Some t -> fd ∈ owned t -> fd ∉ opened w.(kern)) /\
    (forall i r, s.(threads) !! i = Some (Running r) ->
      reactor_ok r s.(m_world) /\
      (N.of_nat (ConnTable_len r.(Reactor.conns)) <= cfg.(max_connections))%N)
  end.
Proof.
  destruct (multi_steps_inv cfg (opened w.(kern)) ls (Multi_new w)) as (o & -> & Hs);
    [by apply multi_new_inv|]. destruct o as [s|]; [|done]. specialize (Hs s eq_refl).
  split_and!; try apply Hs. intros i r Hr. destruct (mi_ok _ _ _ Hs i _ Hr) as [Hc Hok]. split; [done|].
  pose proof (inv_cap _ _ _ _ Hok) as Hcap. rewrite <-Hc. exact Hcap.
Qed.

(** What [serve] returns: after joining all [max(workers, 1)] threads, the
    error of the first thread in spawning order whose closure returned one, and
    [Ok] if none did, panics not counting; or the error of a spawn that failed,
    with fewer threads started. *)
Theorem first_error_reported ls (w : World K H) s ret
    (Hs : steps cfg ls (Multi_new w) = Ret (Some s)) (Hret : s.(mpc) = Returned ret) :
  (length s.(threads) = N.to_nat (N.max cfg.(App.workers) 1) /\
   Forall (fun t => is_ended t = true) s.(threads) /\ ret = verdict s.(threads)) \/
  (length s.(threads) < N.to_nat (N.max cfg.(App.workers) 1) /\ exists e, ret = Err e).
Proof.
  assert (main_inv cfg (Multi_new w)) as Hm by (unfold main_inv, worker_count; cbn; lia).
  pose proof (join_steps_inv cfg ls _ s Hm Hs) as Hi. unfold main_inv in Hi. by rewrite Hret in Hi.
Qed.

(** Termination: once the shutdown flag is up, every run of the threads and
    the joins has at most [multi_left] steps, and until [serve] has returned
    some step is possible: it returns under every schedule. *)
Theorem multireactor_terminates `{!ShutdownStays K} ls (w : World K H) s
    (Hs : steps cfg ls (Multi_new w) = Ret (Some s)) (Hsd : shutdown s.(m_world).(kern) = true) :
  (forall ls' s', steps cfg ls' s = Ret (Some s') -> length ls' + multi_left cfg s' <= multi_left cfg s) /\
  ((exists ret, s.(mpc) = Returned ret) \/ exists l s', step cfg l s = Ret (Some s')).
Proof.
  assert (main_inv cfg (Multi_new w)) as Hm by (unfold main_inv, worker_count; cbn; lia).
  pose proof (join_steps_inv cfg ls _ s Hm Hs) as Hi. split; [|by apply some_step].
  intros ls' s'. by apply steps_left.
Qed.
End Theorems.

(** ** Runs *)

#[export] Instance sim_affinity : Affinity Sim := {
  k_nprocessors _ := 2%Z;
  k_sched_setaffinity _ k := (0%Z, k);
}.

#[export] Program Instance sim_affinity_laws : AffinityLaws Sim.
Next Obligation. intros set k r k' E. by simplify_eq/=. Qed.

#[export] Program Instance sim_stays : ShutdownStays Sim.
Next Obligation. intros set k r k' E Hs. by simplify_eq/=. Qed.
Next Obligation. intros d k r k' E Hs. simpl in E. unfold sim_socket in E. by simplify_eq/=. Qed.
Next Obligation. intros fd b k r k' E Hs. simpl in E. unfold sim_setopt in E. by simplify_eq/=. Qed.
Next Obligation. intros fd b k r k' E Hs. simpl in E. unfold sim_setopt in E. by simplify_eq/=. Qed.
Next Obligation.
  intros fd a k r k' E Hs. simpl in E. unfold sim_bind, sim_setopt in E. by destruct (conflicts fd a k); simplify_eq/=.
Qed.
Next Obligation. intros fd n k r k' E Hs. simpl in E. unfold sim_setopt in E. by simplify_eq/=. Qed.
Next Obligation. intros fd k r k' E Hs. by simplify_eq/=. Qed.
Next Obligation. intros fd fl k r k' E Hs. by simplify_eq/=. Qed.
Next Obligation. intros k r k' E Hs. by simplify_eq/=. Qed.
Next Obligation.
  intros ep op fd ev k r k' E Hs. simpl in E. unfold sim_ctl in E.
  by destruct op, (sim_interests k ep !! fd); simplify_eq/=.
Qed.
Next Obligation. done. Qed.

Definition multi_config : ServerConfig :=
  mkConfig (SocketAddr_from (127, 0, 0, 1) 8080)%N 2 (secs 30) (secs 30) 2 (B "assets").

(** One client, which the first reactor accepts; nothing for the second. *)
Definition multi_world : World Sim Handler :=
  mkWorld (mkSim 0 0 {[0%Z]} 1 [] [] ∅ [[(EPOLLIN, fd_as_u64 3)]; []] ∅) sample_app.

Definition multi_setup : list Label :=
  [Spawn; Advance 0; Advance 0; Spawn; Advance 1; Advance 0; Advance 1; Advance 1; Advance 0; Advance 1].

Lemma reactors_share_nothing_witness :
  exists s r0 r1, steps multi_config multi_setup (Multi_new multi_world) = Ret (Some s) /\
    s.(threads) = [Running r0; Running r1] /\ ConnTable_len r0.(Reactor.conns) = 1 /\
    reactor_ok r0 s.(m_world) /\ reactor_ok r1 s.(m_world).
Proof.
  pose proof (reactors_share_nothing multi_config multi_setup multi_world sample_all_fit) as Hall.
  assert (match steps multi_config multi_setup (Multi_new multi_world) with
    | Ret (Some (mkMulti _ [Running r0; Running r1] _)) => ConnTable_len r0.(Reactor.conns) =? 1
    | _ => false end = true) as Hrun by by vm_compute.
  destruct (steps multi_config multi_setup (Multi_new multi_world)) as [[[w [|[] [|[] []]] m]|]| |];
    try discriminate Hrun.
  exists (mkMulti w [Running r; Running r0] m), r, r0. split; [reflexivity|]. split; [reflexivity|].
  destruct Hall as (_ & _ & _ & Hok). split; [by apply Nat.eqb_eq|].
  split; [apply (Hok 0 r eq_refl)|apply (Hok 1 r0 eq_refl)].
Defined.

(** The first reactor ends well, the second has panicked. *)
Lemma first_error_reported_witness :
  exists s, steps multi_config (multi_setup ++ [Panics 1; Advance 0; Join; Join]) (Multi_new multi_world) =
      Ret (Some s) /\
    s.(mpc) = Returned (Ok tt) /\ length s.(threads) = 2 /\ Ok tt = verdict s.(threads).
Proof.
  pose proof (first_error_reported multi_config (multi_setup ++ [Panics 1; Advance 0; Join; Join]) multi_world) as Hall.
  assert (match steps multi_config (multi_setup ++ [Panics 1; Advance 0; Join; Join]) (Multi_new multi_world) with
    | Ret (Some (mkMulti _ _ (Returned (Ok _)))) => true | _ => false end = true) as Hrun by by vm_compute.
  destruct (steps multi_config (multi_setup ++ [Panics 1; Advance 0; Join; Join]) (Multi_new multi_world))
    as [[[w ts m]|]| |]; try discriminate Hrun.
  destruct m as [| |[[]|e]]; try discriminate Hrun.
  exists (mkMulti w ts (Returned (Ok tt))). split; [reflexivity|]. split; [reflexivity|].
  destruct (Hall _ (Ok tt) eq_refl eq_refl) as [(Hl & _ & Hv)|(_ & e & He)]; [|discriminate He].
  split; [exact Hl|exact Hv].
Defined.

Lemma multireactor_terminates_witness :
  exists s, steps multi_config multi_setup (Multi_new multi_world) = Ret (Some s) /\
    multi_left multi_config s = 4 /\
    (forall ls' s', steps multi_config ls' s = Ret (Some s') -> length ls' <= 4) /\
    ((exists ret, s.(mpc) = Returned ret) \/ exists l s', step multi_config l s = Ret (Some s')).
Proof.
  pose proof (multireactor_terminates multi_config multi_setup multi_world) as Hall.
  assert (match steps multi_config multi_setup (Multi_new multi_world) with
    | Ret (Some s) => shutdown s.(m_world).(kern) && (multi_left multi_config s =? 4)
    | _ => false end = true) as Hrun by by vm_compute.
  destruct (steps multi_config multi_setup (Multi_new multi_world)) as [[s|]| |]; try discriminate Hrun.
  apply andb_true_iff in Hrun as [Hsd Hl]. apply Nat.eqb_eq in Hl.
  destruct (Hall s eq_refl Hsd) as [Hb Hp].
  exists s. split; [reflexivity|]. split; [exact Hl|]. split; [|exact Hp].
  intros ls' s' E. specialize (Hb ls' s' E). lia.
Defined.

(** A thread that cannot be spawned: [serve] returns, and a reactor runs on
    that no one joins. *)
Lemma spawn_failure_leaves_reactor :
  exists s r, steps multi_config [Spawn; Advance 0; Advance 0; Advance 0; SpawnErr (Os EAGAIN)]
      (Multi_new multi_world) = Ret (Some s) /\
    s.(mpc) = Returned (Err (Os EAGAIN)) /\ s.(threads) = [Running r].
Proof.
  assert (match steps multi_config [Spawn; Advance 0; Advance 0; Advance 0; SpawnErr (Os EAGAIN)]
      (Multi_new multi_world) with
    | Ret (Some (mkMulti _ [Running r] (Returned (Err e)))) => bool_decide (e = Os EAGAIN)
    | _ => false end = true) as Hrun by by vm_compute.
  destruct (steps _ _ _) as [[[w [|[] []] [| |[|e]]]|]| |]; try discriminate Hrun.
  apply bool_decide_eq_true in Hrun as ->. by eexists _, _.
Qed.
