(* ===== verification/MultireactorTrace.v ===== *)
(** * The reactors together serve sessions

    The threads of multireactor share one recording kernel: what a step of one
    of them exchanges is a run of the automata of its own connections, and
    leaves the records of the others' alone. *)

From S2P Require Import Prelude RustStr Http Response Request RequestSpec RequestRefine Router Asset App Conn ConnSpec ConnProps Site Syscall Socket Listener SysPoll ConnTable EventIo EventIoProps Session Trace Epoll EpollInv EpollProps Reactor ReactorProps EpollTrace Sim Multireactor MultireactorProps MultireactorRun.

(** ** The recording kernel, with affinity *)

#[export] Instance traced_affinity {K} `{Affinity K} : Affinity (Traced K) := {
  k_nprocessors t := k_nprocessors t.(tk);
  k_sched_setaffinity set := lift (k_sched_setaffinity set);
}.

#[export] Program Instance traced_affinity_laws {K} `{HA : AffinityLaws K} : AffinityLaws (Traced K).
Next Obligation. intros K ? ? ? HA set t r t' E. untrace E. by eapply setaffinity_frame. Qed.

(** ** What leaves the records alone *)

Section Log.
Context {K H : Type} `{KernelLaws K, !Sockets K, !Affinity K} `{HashOrder} `{Handlers H}.

Lemma pin_log core (t : Traced K) : same_log t (pin_to_core core t).2.
Proof.
  unfold pin_to_core, syscall. destruct (_ <=? _)%N; [done|].
  pose proof (lifted_log (k_sched_setaffinity (N.setbit 0 core)) t) as Hl.
  change (k_sched_setaffinity (N.setbit 0 core) t) with (lift (k_sched_setaffinity (N.setbit 0 core)) t).
  destruct (lift _ t) as [z t1]. cbn [fst snd] in *. by destruct (cvt z t1).
Qed.

Lemma Reactor_new_log l cfg (w : World (Traced K) H) : same_log w.(kern) (Reactor_new l cfg w).2.(kern).
Proof.
  unfold Reactor_new. destruct (set_nonblocking l (kern w)) as [[u|e] t1] eqn:E1; apply set_nonblocking_log in E1;
    [|exact E1].
  unfold Epoll_new, syscall.
  destruct (k_epoll_create1 t1) as [ep t2] eqn:E2. apply lift_log in E2. cbn [fst snd].
  destruct (cvt ep t2) as [ep'|e]; [|etrans; [exact E1|exact E2]].
  destruct (Epoll_add ep' l Read Edge t2) as [[u'|e] t3] eqn:E3; apply Epoll_ctl_log in E3;
    (etrans; [exact E1|]); (etrans; [exact E2|exact E3]).
Qed.

Lemma Reactor_drop_log r (t : Traced K) : same_log t (Reactor_drop r t).
Proof.
  unfold Reactor_drop. etrans; [|apply close_log]. etrans; [apply (close_log r.(Reactor.epoll))|].
  generalize (k_close r.(Reactor.epoll) t) as t1. induction (hash_iter _) as [|[fd s] l IH]; intros t1; [done|].
  cbn [foldl]. etrans; [apply (close_log s.(stream))|apply IH].
Qed.

Lemma thread_unwind_log t (w : World (Traced K) H) : same_log w.(kern) (thread_unwind t w).(kern).
Proof. destruct t; try done. apply Reactor_drop_log. Qed.
End Log.

(** ** One thread *)

Section Thread.
Context {K H : Type} `{HL : SocketLaws K, !Affinity K, !AffinityLaws K} `{HashOrder} `{SiteHandlers H}.
Context (app : App H).

(** The records of a thread's connections. *)
Definition thread_tracked (t : Thread) (k : Traced K) : Prop :=
  match t with Running r => faithful app r.(Reactor.conns).(slots) k | _ => True end.

Lemma run_recorded (rest : gmap Z Slot) r (w : World (Traced K) H) r' w' :
  reactor_ok r w -> dom rest ⊆ opened w.(kern) ∖ dom r.(Reactor.conns).(slots) ->
  recorded app rest (loop_of r w) -> run 1 (r, w) = Ret (r', w') -> recorded app rest (loop_of r' w').
Proof.
  intros Hok Hsub Hr E.
  assert ((r, w) = reactor_of (ctx_of r) (loop_of r w) r.(Reactor.listener_registered)) as Heq by by destruct r.
  rewrite Heq, (run_equiv (ctx_of r) (conj eq_refl eq_refl)) in E.
  destruct (iterations (ctx_of r) 1 (loop_of r w) (Reactor.listener_registered r)) as [[st reg]| |] eqn:Ei; try done.
  cbn [fmap outcome_fmap] in E. unfold reactor_of in E. injection E as <- <-.
  pose proof (iterations_recorded (ctx_of r) _ app rest Hsub 1 _ _ _ _ Hok Hr Ei) as Hr'.
  destruct st as [w1 c1 wa1]. exact Hr'.
Qed.

(** A step of a thread keeps its records, and those of connections of [rest]. *)
Lemma thread_step_tracked (rest : gmap Z Slot) cfg i t (w : World (Traced K) H) t' w' :
  thread_ok cfg t w -> thread_step cfg i t w = Ret (t', w') ->
  dom rest ⊆ opened w.(kern) ∖ owned t -> same_site app w.(wapp) ->
  faithful app (∅ : gmap Z Slot) w.(kern) -> thread_tracked t w.(kern) -> faithful app rest w.(kern) ->
  faithful app rest w'.(kern) /\ thread_tracked t' w'.(kern).
Proof.
  intros Hok E Hsub Hsite Hnone Ht Hrest. destruct t as [| |l|r|e]; cbn [thread_step] in E.
  - pose proof (pin_log (N.of_nat i) w.(kern)) as Hl. destruct (pin_to_core _ _) as [x k]. injection E as <- <-.
    by split; [exact (faithful_same _ _ _ _ Hrest Hl)|].
  - pose proof (bind_listener_log cfg.(addr) true w.(kern)) as Hl.
    destruct (bind_listener _ _ _) as [[l|e] k]; injection E as <- <-; by split; [exact (faithful_same _ _ _ _ Hrest Hl)|].
  - pose proof (Reactor_new_log l (shared_config cfg) w) as Hl.
    destruct (Reactor_new l (shared_config cfg) w) as [[r|e] w1] eqn:En; injection E as <- <-;
      (split; [exact (faithful_same _ _ _ _ Hrest Hl)|]); [|done].
    cbn [thread_tracked]. assert (slots (Reactor.conns r) = ∅) as ->; [|exact (faithful_same _ _ _ _ Hnone Hl)].
    unfold Reactor_new in En. destruct (set_nonblocking l (kern w)) as [[u|e] k1]; [|done].
    destruct (Epoll_new k1) as [[ep|e] k2]; [|done]. destruct (Epoll_add ep l Read Edge k2) as [[u'|e] k3]; [|done].
    by injection En as <- _.
  - destruct (shutdown (kern w)).
    + injection E as <- <-. split; [|done]. eapply faithful_same; [exact Hrest|apply Reactor_drop_log].
    + destruct (run 1 (r, w)) as [[r1 w1]| |] eqn:Er; [|done..]. cbn [mbind outcome_bind] in E. injection E as <- <-.
      destruct (run_recorded rest r w r1 w1) as (Hf & Hfr & _); [by destruct Hok| |by split_and!|done|done].
      cbn [owned] in Hsub. clear -Hsub. set_solver.
  - injection E as <- <-. done.
Qed.

(** ** All of them *)

Definition multi_tracked (s : Multi (Traced K) H) : Prop :=
  same_site app s.(m_world).(wapp) /\ faithful app (∅ : gmap Z Slot) s.(m_world).(kern) /\
  forall i t, s.(threads) !! i = Some t -> thread_tracked t s.(m_world).(kern).

Lemma tracked_log s w' ts pc :
  multi_tracked s -> same_log s.(m_world).(kern) w'.(kern) -> same_site s.(m_world).(wapp) w'.(wapp) ->
  (forall i t r, ts !! i = Some t -> t = Running r -> exists j, s.(threads) !! j = Some t) ->
  multi_tracked (mkMulti w' ts pc).
Proof.
  intros (Hs & Hf & Ht) Hl Hs' Hts. split_and!; cbn [m_world threads];
    [by eapply same_site_trans|exact (faithful_same _ _ _ _ Hf Hl)|].
  intros i t Hi. destruct t as [| | |r|]; try done. destruct (Hts i _ r Hi eq_refl) as [j Hj].
  exact (faithful_same _ _ _ _ (Ht j _ Hj) Hl).
Qed.

Lemma multi_step_tracked cfg base l (s s' : Multi (Traced K) H) :
  multi_inv cfg base s -> multi_tracked s -> step cfg l s = Ret (Some s') -> multi_tracked s'.
Proof.
  intros Hi Htr E. destruct l as [|e| |i|i]; cbn [step] in E; rewrite ?shared_config_id in E.
  - injection E as E. cbn [main_step] in E. destruct (mpc s); try done. injection E as <-.
    eapply tracked_log; [exact Htr|done|done|]. intros i t r Hin ->.
    apply lookup_app_Some in Hin as [Hin|[_ Hin]]; [by exists i|]. by apply list_lookup_singleton_Some in Hin as [_ Hin].
  - injection E as E. cbn [main_step] in E. destruct (mpc s); try done. injection E as <-.
    eapply tracked_log; [exact Htr|done|done|]. intros i t r Hin _. by exists i.
  - injection E as E. cbn [main_step] in E. destruct (mpc s); try done.
    destruct (threads s !! i) as [[]|]; try done. injection E as <-.
    eapply tracked_log; [exact Htr|done|done|]. intros j t r Hin _. by exists j.
  - destruct (threads s !! i) as [t|] eqn:Ht; [|done].
    assert (exists t' w', thread_step cfg i t (m_world s) = Ret (t', w') /\
      s' = mkMulti w' (<[i := t']> (threads s)) (mpc s)) as (t' & w' & Hst & ->).
    { destruct t; try done; destruct (thread_step cfg i _ (m_world s)) as [[t' w']| |]; try done;
        cbn [mbind outcome_bind] in E; injection E as <-; by exists t', w'. }
    clear E. destruct Htr as (Hs & Hf & Hall). pose proof (mi_ok _ _ _ Hi i t Ht) as Hok.
    pose proof (owned_opened _ _ _ _ _ Hi Ht) as Hsub.
    destruct (thread_step_spec cfg i t (m_world s) Hok Hsub (mi_fit _ _ _ Hi)) as (t2 & w2 & Hst2 & Hm & _).
    rewrite Hst in Hst2. injection Hst2 as <- <-.
    assert (forall rest : gmap Z Slot, dom rest ⊆ opened (kern (m_world s)) ∖ owned t ->
      faithful app rest (kern (m_world s)) -> faithful app rest (kern w') /\ thread_tracked t' (kern w')) as Hgo
      by (intros rest Hd Hr; by eapply thread_step_tracked; [..|exact (Hall i t Ht)|]).
    destruct (Hgo ∅) as [Hf' Ht']; [rewrite dom_empty_L; apply empty_subseteq|done|].
    split_and!; cbn [m_world threads]; [by eapply same_site_trans; [|apply (tm_site _ _ _ _ Hm)]|done|].
    intros j u [(<- & <- & _)|(Hne & Hu)]%list_lookup_insert_Some; [done|].
    destruct u as [| | |r|]; try done. apply (Hgo r.(Reactor.conns).(slots)); [|exact (Hall j _ Hu)].
    pose proof (owned_opened _ _ _ _ _ Hi Hu) as Hsubu. intros fd Hfd. apply elem_of_difference.
    assert (fd ∈ owned (Running r)) as Hown by (cbn; clear -Hfd; set_solver). split; [by apply Hsubu|].
    intros Hfd'. apply Hne. exact (mi_apart _ _ _ Hi i j t (Running r) fd Ht Hu Hfd' Hown).
  - destruct (threads s !! i) as [t|] eqn:Ht; [|done].
    assert (s' = mkMulti (thread_unwind t (m_world s)) (<[i := Ended None]> (threads s)) (mpc s)) as ->
      by (destruct t; try done; by injection E as <-).
    eapply tracked_log; [exact Htr|apply thread_unwind_log|by destruct t|].
    intros j u r [(<- & <- & _)|(_ & Hu)]%list_lookup_insert_Some Hr; [done|by exists j].
Qed.

Lemma multi_steps_tracked cfg base ls (s s' : Multi (Traced K) H) :
  multi_inv cfg base s -> multi_tracked s -> steps cfg ls s = Ret (Some s') -> multi_tracked s'.
Proof.
  revert s. induction ls as [|l ls IH]; intros s Hi Htr E; cbn [steps] in E; [by injection E as <-|].
  destruct (multi_step_inv cfg base l s Hi) as (o & Eo & Hs1). rewrite Eo in E. cbn [mbind outcome_bind] in E.
  destruct o as [s1|]; [|done]. apply (IH s1 (Hs1 s1 eq_refl)); [|done]. by eapply multi_step_tracked.
Qed.
End Thread.

Section Claim.
Context {K H : Type} `{HL : SocketLaws K, !Affinity K, !AffinityLaws K} `{HashOrder} `{SiteHandlers H}.

(** C10. End to end, for multireactor: however the reactors' rounds interleave on
    the kernel they share, whichever thread panics or fails, and whatever
    descriptors they reuse of one another, every client of every reactor has
    been written a part of exactly the session of what was read from it, and
    an open connection's state machine holds what is missing of it. *)
Theorem multireactor_serves_sessions cfg ls (k : K) (app : App H) (Hfit : fits app) :
  match steps cfg ls (Multi_new (mkWorld (traced k) app)) with
  | Panic | Diverge => False
  | Ret None => True
  | Ret (Some s) =>
    serves_sessions app (∅ : gmap Z Slot) s.(m_world).(kern) /\
    forall i r, s.(threads) !! i = Some (Running r) ->
      serves_sessions app r.(Reactor.conns).(slots) s.(m_world).(kern)
  end.
Proof.
  pose proof (fits_all app Hfit) as Hall. set (w := mkWorld (traced k) app).
  destruct (multi_new_inv cfg w Hall) as [Hi _].
  destruct (multi_steps_inv cfg (opened w.(kern)) ls (Multi_new w) Hi) as (o & E & _). rewrite E.
  destruct o as [s|]; [|done].
  assert (multi_tracked app (Multi_new w)) as Ht.
  { split_and!; [done|apply faithful_start|]. intros i t Hin. cbn [Multi_new threads] in Hin. by rewrite lookup_nil in Hin. }
  destruct (multi_steps_tracked app cfg _ ls _ s Hi Ht E) as (_ & Hf & Hts).
  split; [by apply faithful_sessions|]. intros i r Hr. apply faithful_sessions. exact (Hts i _ Hr).
Qed.
End Claim.

(** Descriptor 7 is the client of the first reactor, 3; it asks for the root. *)
Definition multi_client : Sim :=
  mkSim 0 0 {[0%Z]} 1 [(7%Z, get_root)] [] ∅
    [[(EPOLLIN, fd_as_u64 3)]; []; [(EPOLLIN, fd_as_u64 7)]; []] ∅.

Definition answered_7 (s : Multi (Traced Sim) Handler) : bool :=
  bool_decide (received <$> s.(m_world).(kern).(current) !! 7%Z = Some [get_root]) &&
  bool_decide (sent <$> s.(m_world).(kern).(current) !! 7%Z = Some (answer sample_app sample_request)).

Lemma multireactor_serves_sessions_witness :
  exists s r0, steps multi_config (multi_setup ++ [Advance 0]) (Multi_new (mkWorld (traced multi_client) sample_app)) =
      Ret (Some s) /\
    answered_7 s = true /\ s.(threads) !! 0 = Some (Running r0) /\
    serves_sessions sample_app r0.(Reactor.conns).(slots) s.(m_world).(kern).
Proof.
  pose proof (multireactor_serves_sessions multi_config (multi_setup ++ [Advance 0]) multi_client sample_app
    sample_app_fits) as Hall.
  assert (match steps multi_config (multi_setup ++ [Advance 0]) (Multi_new (mkWorld (traced multi_client) sample_app)) with
    | Ret (Some s) => answered_7 s && match s.(threads) with [Running _; Running _] => true | _ => false end
    | _ => false end = true) as Hrun by by vm_compute.
  destruct (steps multi_config _ _) as [[s|]| |]; try discriminate Hrun.
  apply andb_true_iff in Hrun as [Hok Hts]. destruct Hall as [_ Hall].
  destruct (threads s) as [|[] [|[] []]] eqn:Ht; try discriminate Hts.
  exists s, r. split; [reflexivity|]. split; [exact Hok|]. split; [by rewrite Ht|].
  apply (Hall 0). reflexivity.
Defined.
