(* ===== verification/IoUring.v ===== *)
(** * The io_uring model

    server/src/models/io_uring.rs: the user-data codec, the kernel gate, the
    provided-buffer ring, and the completion-driven runtime.  The submission
    and completion queues are the [io_uring] crate's: a parameter [Ring]. *)

From S2P Require Import Prelude RustStr Http Response Request App Conn ConnSpec Syscall EventIo.

(** [libc::ETIME] *)
Definition ETIME : Z := 62.

Definition RING_ENTRIES : N := 1024.
Definition NUM_BUFS : N := 256.
Definition BUF_SIZE : N := 16 * 1024.
Definition BG_ID : N := 1.
Definition TICK_NS : N := 100000000.
Definition MIN_KERNEL : N * N := (5, 19)%N.

(** ** user_data *)

Definition OP_ACCEPT : N := 1.
Definition OP_RECV : N := 2.
Definition OP_SEND : N := 3.
Definition OP_CLOSE : N := 4.

(** [(op & 0xff) | (((fd as i64) as u64) << 8)]: the shift drops what leaves
    64 bits. *)
Definition pack (op : N) (fd : Z) : N :=
  N.lor (N.land op 0xff) (N.shiftl (Z.to_N (fd mod 2 ^ 64)%Z) 8 mod 2 ^ 64).

(** [as i64] and [as i32] *)
Definition as_signed (bits : Z) (n : Z) : Z :=
  let w := (n mod 2 ^ bits)%Z in if (w <? 2 ^ (bits - 1))%Z then w else (w - 2 ^ bits)%Z.

Definition unpack (ud : N) : N * Z :=
  let op := N.land ud 0xff in
  let fd := as_signed 32 (Z.shiftr (as_signed 64 (Z.of_N ud)) 8) in
  (op, fd).

(** ** The kernel gate *)

Definition u32_max : N := 2 ^ 32 - 1.

(** Splitting a [str] at the characters that are not ASCII digits: the
    continuation bytes belong to the character before them. *)
Definition split_non_digits (s : bytes) : list bytes :=
  split_when (fun b => negb (in_range b 48 57)) (List.filter (fun b => negb (RustStr.cont b)) s).

Definition parse_release (s : bytes) : N * N :=
  let parts := split_non_digits s in
  let number (p : option bytes) := default 0%N (p ≫= parse_uint u32_max) in
  (number (parts !! 0), number (parts !! 1)).

(** [(major, minor) < MIN_KERNEL], on what [uname] reports. *)
Definition older (v : N * N) : bool :=
  (v.1 <? MIN_KERNEL.1)%N || ((v.1 =? MIN_KERNEL.1)%N && (v.2 <? MIN_KERNEL.2)%N).

Definition check_kernel (release : result bytes IoError) : result unit IoError :=
  match release with
  | Err e => Err e
  | Ok raw =>
    let s := default [] (from_utf8 raw) in
    if older (parse_release s) then Err (Custom Unsupported) else Ok tt
  end.

(** ** The provided-buffer ring *)

(** The fields of an entry the source writes; the address as the offset into
    the pool. *)
Record BufRingEntry := mkEntry { e_addr : N; e_len : N; e_bid : N }.

Record BufRing := mkBufRing {
  ring : list BufRingEntry;
  (* the bytes of the pool the entries point into *)
  pool_len : N;
  mask : N;
  local_tail : N;
  (* the tail the kernel reads *)
  tail : N;
}.

Definition stage (bid : N) (b : BufRing) : BufRing :=
  let idx := N.to_nat (N.land b.(local_tail) b.(mask)) in
  mkBufRing (<[idx := mkEntry (bid * BUF_SIZE) BUF_SIZE bid]> b.(ring)) b.(pool_len) b.(mask)
    ((b.(local_tail) + 1) mod 2 ^ 16) b.(tail).

Definition commit (b : BufRing) : BufRing :=
  mkBufRing b.(ring) b.(pool_len) b.(mask) b.(local_tail) b.(local_tail).

Definition recycle (bid : N) (b : BufRing) : BufRing := commit (stage bid b).

(** [for bid in 0..num_bufs] from [bid] on. *)
Fixpoint stage_all (n : nat) (bid : N) (b : BufRing) : BufRing :=
  match n with
  | 0 => b
  | S n => stage_all n (bid + 1) (stage bid b)
  end.

(** [is_power_of_two] *)
Definition is_power_of_two (n : N) : bool := negb (n =? 0)%N && (N.land n (n - 1) =? 0)%N.

(** [BufRing::new]: [mapped] is what [mmap] answered.  Zeroed entries, a pool of
    buffers of [buf_size], then all the buffers staged, and the tail published
    once. *)
Definition BufRing_new (num_bufs buf_size : N) (mapped : result unit IoError) : outcome (result BufRing IoError) :=
  if negb (is_power_of_two num_bufs) then Panic else
  match mapped with
  | Err e => Ret (Err e)
  | Ok _ =>
    let br := mkBufRing (replicate (N.to_nat num_bufs) (mkEntry 0 0 0)) (num_bufs * buf_size) (num_bufs - 1) 0 0 in
    Ret (Ok (commit (stage_all (N.to_nat num_bufs) 0 br)))
  end.

Definition entries (b : BufRing) : N := b.(mask) + 1.

(** ** The runtime *)

(** The submission entries, with the bytes a send points at. *)
Inductive Opcode :=
  | AcceptMulti (fd : Z)
  | Recv (fd : Z)
  | Send (fd : Z) (data : bytes)
  | CloseFd (fd : Z).

#[global] Instance Opcode_eq_dec : EqDecision Opcode.
Proof. solve_decision. Defined.

Record Sqe := mkSqe { opcode : Opcode; user_data : N }.

#[global] Instance Sqe_eq_dec : EqDecision Sqe.
Proof. solve_decision. Defined.

Record Cqe := mkCqe { cqe_user_data : N; cqe_result : Z; cqe_flags : N }.

(** The crate and the kernel behind it: pushing fails when the queue is full;
    [ring_submit] hands the queue to the kernel, [ring_submit_and_wait] also
    waits for a completion until the tick; [completions] drains the completion
    queue; [buffer] is what the kernel wrote into a provided buffer; [more] and
    [buffer_select] read the flags of a completion; [mmap_ring] and [uname]
    are the calls of the set-up. *)
Class Ring (R : Type) := {
  uname : result bytes IoError;
  ring_build : N -> result R IoError;
  mmap_ring : result unit IoError;
  ring_register : N -> N -> R -> result unit IoError * R;
  ring_push : Sqe -> R -> option R;
  ring_submit : R -> R;
  ring_submit_and_wait : N -> R -> result unit IoError * R;
  completions : R -> list Cqe * R;
  buffer : R -> N -> nat -> bytes;
  more : N -> bool;
  buffer_select : N -> option N;
  ring_now : R -> N;
  ring_shutdown : R -> bool;
}.

Record Runtime (R H : Type) := mkRuntime {
  rt_ring : R;
  br : BufRing;
  conns : gmap Z Connection;
  listener : Z;
  rt_cfg : ServerConfig;
  accept_armed : bool;
  rt_app : App H;
}.
Arguments mkRuntime {R H} _ _ _ _ _ _ _.
Arguments rt_ring {R H} _.
Arguments br {R H} _.
Arguments conns {R H} _.
Arguments listener {R H} _.
Arguments rt_cfg {R H} _.
Arguments accept_armed {R H} _.
Arguments rt_app {R H} _.

Section Runtime.
Context {R H : Type} `{Ring R} `{Handlers H}.

Abbreviation RT := (Runtime R H).

Definition set_ring (r : R) (rt : RT) : RT :=
  mkRuntime r rt.(br) rt.(conns) rt.(listener) rt.(rt_cfg) rt.(accept_armed) rt.(rt_app).
Definition set_br (b : BufRing) (rt : RT) : RT :=
  mkRuntime rt.(rt_ring) b rt.(conns) rt.(listener) rt.(rt_cfg) rt.(accept_armed) rt.(rt_app).
Definition set_conns (c : gmap Z Connection) (rt : RT) : RT :=
  mkRuntime rt.(rt_ring) rt.(br) c rt.(listener) rt.(rt_cfg) rt.(accept_armed) rt.(rt_app).
Definition set_armed (a : bool) (rt : RT) : RT :=
  mkRuntime rt.(rt_ring) rt.(br) rt.(conns) rt.(listener) rt.(rt_cfg) a rt.(rt_app).
Definition set_app (a : App H) (rt : RT) : RT :=
  mkRuntime rt.(rt_ring) rt.(br) rt.(conns) rt.(listener) rt.(rt_cfg) rt.(accept_armed) a.

(** Push, and once more after a flush; whether it was taken. *)
Definition push (entry : Sqe) (rt : RT) : RT * bool :=
  match ring_push entry rt.(rt_ring) with
  | Some r => (set_ring r rt, true)
  | None =>
    let r := ring_submit rt.(rt_ring) in
    match ring_push entry r with
    | Some r => (set_ring r rt, true)
    | None => (set_ring r rt, false)
    end
  end.

Definition arm_accept (rt : RT) : RT :=
  let fd := rt.(listener) in
  let '(rt, ok) := push (mkSqe (AcceptMulti fd) (pack OP_ACCEPT fd)) rt in
  if ok then set_armed true rt else rt.

Definition submit_recv (fd : Z) (rt : RT) : RT := (push (mkSqe (Recv fd) (pack OP_RECV fd)) rt).1.

Definition submit_close (fd : Z) (rt : RT) : RT := (push (mkSqe (CloseFd fd) (pack OP_CLOSE fd)) rt).1.

Definition drop_conn (fd : Z) (rt : RT) : RT :=
  match rt.(conns) !! fd with
  | Some _ => submit_close fd (set_conns (delete fd rt.(conns)) rt)
  | None => rt
  end.

(** When nothing is pending it drives the connection on, through [apply]. *)
Definition submit_send (apply : ConnAction -> RT -> outcome RT) (fd : Z) (rt : RT) : outcome RT :=
  match rt.(conns) !! fd with
  | None => Ret rt
  | Some c =>
    p ← pending_write c;
    (* [p.len() as u32] *)
    let len := (N.of_nat (length p) mod 2 ^ 32)%N in
    if (len =? 0)%N then
      let '(c, action) := on_written (ring_now rt.(rt_ring)) c 0 in
      apply action (set_conns (<[fd := c]> rt.(conns)) rt)
    else Ret (push (mkSqe (Send fd (take (N.to_nat len) p)) (pack OP_SEND fd)) rt).1
  end.

(** The fuel bounds the recursion through [submit_send]. *)
Fixpoint apply (fuel : nat) (fd : Z) (action : ConnAction) (rt : RT) : outcome RT :=
  match fuel with
  | 0 => Diverge
  | S fuel =>
    match action with
    | WantRead => Ret (submit_recv fd rt)
    | WantWrite => submit_send (apply fuel fd) fd rt
    | Close => Ret (drop_conn fd rt)
    end
  end.

Definition apply_fuel : nat := 3.

Definition on_accept (res : Z) (flags : N) (rt : RT) : RT :=
  let rt := if negb (more flags) then set_armed false rt else rt in
  if (res <? 0)%Z then rt else
  let fd := res in
  if (rt.(rt_cfg).(max_connections) <=? N.of_nat (size rt.(conns)))%N then submit_close fd rt else
  let c := Connection_new (ring_now rt.(rt_ring)) rt.(rt_cfg).(read_timeout) in
  let rt := set_conns (<[fd := c]> rt.(conns)) rt in
  let rt := set_app (app_inc_connections rt.(rt_app)) rt in
  submit_recv fd rt.

Definition on_recv (fd : Z) (res : Z) (flags : N) (rt : RT) : outcome RT :=
  if (res <=? 0)%Z then Ret (drop_conn fd rt) else
  match buffer_select flags with
  | None => Ret (drop_conn fd rt)
  | Some bid =>
    let n := Z.to_nat res in
    let bytes := buffer rt.(rt_ring) bid n in
    match rt.(conns) !! fd with
    | None => Ret (set_br (recycle bid rt.(br)) rt)
    | Some c =>
      '(c, action) ← on_bytes c bytes rt.(rt_app);
      let rt := set_conns (<[fd := c]> rt.(conns)) rt in
      let rt := set_br (recycle bid rt.(br)) rt in
      apply apply_fuel fd action rt
    end
  end.

Definition on_send (fd : Z) (res : Z) (rt : RT) : outcome RT :=
  if (res <? 0)%Z then Ret (drop_conn fd rt) else
  match rt.(conns) !! fd with
  | None => Ret rt
  | Some c =>
    let '(c, action) := on_written (ring_now rt.(rt_ring)) c (Z.to_nat res) in
    apply apply_fuel fd action (set_conns (<[fd := c]> rt.(conns)) rt)
  end.

(** The dispatch on a completion. *)
Definition on_cqe (cqe : Cqe) (rt : RT) : outcome RT :=
  let '(op, fd) := unpack cqe.(cqe_user_data) in
  let res := cqe.(cqe_result) in
  let flags := cqe.(cqe_flags) in
  if (op =? OP_ACCEPT)%N then Ret (on_accept res flags rt)
  else if (op =? OP_RECV)%N then on_recv fd res flags rt
  else if (op =? OP_SEND)%N then on_send fd res rt
  else Ret rt.

Fixpoint on_cqes (cqes : list Cqe) (rt : RT) : outcome RT :=
  match cqes with
  | [] => Ret rt
  | cqe :: cqes => rt ← on_cqe cqe rt; on_cqes cqes rt
  end.

Definition drain_cqes (rt : RT) : outcome RT :=
  let '(cqes, r) := completions rt.(rt_ring) in
  on_cqes cqes (set_ring r rt).

(** One round of [run]: an error of the wait other than its timeout skips the
    completions. *)
Definition iteration (rt : RT) : outcome RT :=
  let rt := if rt.(accept_armed) then rt else arm_accept rt in
  let '(r, ring) := ring_submit_and_wait TICK_NS rt.(rt_ring) in
  let rt := set_ring ring rt in
  match r with
  | Ok _ => drain_cqes rt
  | Err e => if decide (e = Os ETIME) then drain_cqes rt else Ret rt
  end.

(** At most [n] rounds of the [while !SHUTDOWN]. *)
Fixpoint iterations (n : nat) (rt : RT) : outcome RT :=
  match n with
  | 0 => Ret rt
  | S n =>
    if ring_shutdown rt.(rt_ring) then Ret rt else
    rt ← iteration rt;
    iterations n rt
  end.

Definition run (n : nat) (rt : RT) : outcome RT := iterations n (arm_accept rt).

Definition Runtime_new (listener : Z) (cfg : ServerConfig) (app : App H) : outcome (result RT IoError) :=
  match ring_build RING_ENTRIES with
  | Err e => Ret (Err e)
  | Ok ring =>
    br ← BufRing_new NUM_BUFS BUF_SIZE mmap_ring;
    match br with
    | Err e => Ret (Err e)
    | Ok br =>
      match ring_register (entries br) BG_ID ring with
      | (Err e, _) => Ret (Err e)
      | (Ok _, ring) => Ret (Ok (mkRuntime ring br ∅ listener cfg false app))
      end
    end
  end.

(** [serve], from the bound listener. *)
Definition IoUring_serve (n : nat) (cfg : ServerConfig) (listener : Z) (app : App H)
    : outcome (result RT IoError) :=
  match check_kernel uname with
  | Err e => Ret (Err e)
  | Ok _ =>
    rt ← Runtime_new listener cfg app;
    match rt with
    | Err e => Ret (Err e)
    | Ok rt => rt ← run n rt; Ret (Ok rt)
    end
  end.
End Runtime.
