(* ===== verification/IoUringProps.v ===== *)
(** * Properties of the io_uring model: the codec, the gate and the buffers *)

From S2P Require Import Prelude RustStr Http Response Request App Conn ConnSpec Syscall EventIo IoUring.

(** ** user_data *)

Lemma as_signed_spec bits n m :
  (0 < bits)%Z -> (-2 ^ (bits - 1) <= m < 2 ^ (bits - 1))%Z -> (n mod 2 ^ bits = m mod 2 ^ bits)%Z ->
  as_signed bits n = m.
Proof.
  intros Hb Hm Hn. unfold as_signed. rewrite Hn.
  assert (2 ^ bits = 2 * 2 ^ (bits - 1))%Z as Hp.
  { rewrite <-Z.pow_succ_r by lia. f_equal. lia. }
  assert (m mod 2 ^ bits = if (m <? 0)%Z then m + 2 ^ bits else m)%Z as ->.
  { destruct (Z.ltb_spec m 0).
    - symmetry. apply (Z.mod_unique_pos _ _ (-1)); lia.
    - apply Z.mod_small. lia. }
  destruct (Z.ltb_spec m 0); [rewrite (proj2 (Z.ltb_ge _ _)) by lia; lia|].
  by rewrite (proj2 (Z.ltb_lt _ _)) by lia.
Qed.

Lemma lor_low8 op w : (op < 256 -> N.lor op (w * 256) = op + w * 256)%N.
Proof.
  intros Ho. assert (N.land op (w * 256) = 0)%N as Hl.
  { apply N.bits_inj_0. intros i. rewrite N.land_spec. change 256%N with (2 ^ 8)%N.
    destruct (N.lt_ge_cases i 8) as [Hi|Hi].
    - rewrite N.mul_pow2_bits_low by done. apply andb_false_r.
    - rewrite (N.bits_above_log2 op i); [done|]. destruct op as [|p]; [simpl; lia|].
      apply N.log2_lt_pow2; [done|]. apply (N.lt_le_trans _ (2 ^ 8)); [done|].
      by apply N.pow_le_mono_r. }
  rewrite N.add_nocarry_lxor by done. symmetry. by apply N.lxor_lor.
Qed.

Lemma pack_value op fd :
  (op < 256)%N -> pack op fd = (op + (Z.to_N (fd mod 2 ^ 56)) * 256)%N.
Proof.
  intros Ho. unfold pack. change 255%N with (N.ones 8). rewrite N.land_ones, N.shiftl_mul_pow2.
  rewrite N.mod_small by done. change (2 ^ 8)%N with 256%N.
  assert (Z.to_N (fd mod 2 ^ 64) * 256 mod 2 ^ 64 = Z.to_N (fd mod 2 ^ 56) * 256)%N as ->;
    [|by apply lor_low8].
  change (2 ^ 64)%N with (2 ^ 56 * 256)%N. rewrite N.Div0.mul_mod_distr_r. f_equal.
  apply N2Z.inj. rewrite N2Z.inj_mod, !Z2N.id by (apply Z.mod_pos_bound; lia).
  change (Z.of_N (2 ^ 56)) with (2 ^ 56)%Z. symmetry. apply (Znumtheory.Zmod_div_mod (2 ^ 56) (2 ^ 64)); try lia.
  by exists (2 ^ 8)%Z.
Qed.

Lemma unpack_pack op fd :
  (op < 256)%N -> (-2 ^ 31 <= fd < 2 ^ 31)%Z -> unpack (pack op fd) = (op, fd).
Proof.
  intros Ho Hf. rewrite pack_value by done. unfold unpack. f_equal.
  - change 255%N with (N.ones 8). rewrite N.land_ones, N.Div0.mod_add. by apply N.mod_small.
  - rewrite (as_signed_spec 64 _ (fd * 256 + Z.of_N op)).
    + rewrite Z.shiftr_div_pow2 by lia. change (2 ^ 8)%Z with 256%Z.
      rewrite Z.div_add_l, Z.div_small by lia. rewrite Z.add_0_r.
      apply as_signed_spec; [lia|change (32 - 1)%Z with 31%Z; lia|done].
    + lia.
    + change (64 - 1)%Z with 63%Z. lia.
    + rewrite N2Z.inj_add, N2Z.inj_mul, Z2N.id by (apply Z.mod_pos_bound; lia).
      change (Z.of_N 256) with 256%Z. rewrite (Z.add_comm (fd * 256)).
      rewrite (Z.add_mod _ (_ * 256)), (Z.add_mod _ (fd * 256)) by lia. do 2 f_equal.
      change (2 ^ 64)%Z with (2 ^ 56 * 256)%Z. rewrite !Z.mul_mod_distr_r by lia.
      by rewrite Z.mod_mod by lia.
Qed.

(** Round trip: the operation and the descriptor packed in [user_data]
    are the ones a completion is dispatched on, for every operation code that
    fits its byte and every [RawFd], negative ones included. *)
Theorem user_data_roundtrip op fd
    (Hop : (op < 256)%N) (Hfd : (-2 ^ 31 <= fd < 2 ^ 31)%Z) :
  (pack op fd < 2 ^ 64)%N /\ unpack (pack op fd) = (op, fd).
Proof.
  split; [|by apply unpack_pack]. rewrite pack_value by done.
  assert (fd mod 2 ^ 56 < 2 ^ 56)%Z by (apply Z.mod_pos_bound; lia).
  assert (0 <= fd mod 2 ^ 56)%Z by (apply Z.mod_pos_bound; lia). lia.
Qed.

Lemma user_data_roundtrip_witness :
  ((OP_CLOSE < 256)%N /\ (-2 ^ 31 <= -1 < 2 ^ 31)%Z) /\
  pack OP_CLOSE (-1) = 18446744073709551364%N /\ unpack (pack OP_CLOSE (-1)) = (OP_CLOSE, (-1)%Z).
Proof.
  split; [split; [reflexivity|split; vm_compute; congruence]|]. split; [reflexivity|].
  exact (proj2 (user_data_roundtrip OP_CLOSE (-1) eq_refl ltac:(split; vm_compute; congruence))).
Defined.

(** ** The kernel gate *)

Lemma digit_not_cont b : in_range b 48 57 = true -> cont b = false.
Proof. by destruct b. Qed.

Lemma filter_digits s :
  Forall (fun b => in_range b 48 57 = true) s ->
  List.filter (fun b => negb (RustStr.cont b)) s = s.
Proof.
  intros Hs. induction Hs as [|b s Hb _ IH]; [done|].
  cbn [List.filter]. rewrite digit_not_cont by done. cbn [negb]. by rewrite IH.
Qed.

(** A release string as Linux prints it: the rest starts with a separator. *)
Definition release_suffix (rest : bytes) : bool :=
  utf8_valid rest && match rest with [] => true | b :: _ => in_range b 0 127 && negb (in_range b 48 57) end.

Definition release_string (major minor : N) (rest : bytes) : bytes :=
  decimal major ++ B "." ++ decimal minor ++ rest.

Lemma split_release major minor rest :
  release_suffix rest = true ->
  exists parts, split_non_digits (release_string major minor rest) =
    decimal major :: decimal minor :: parts.
Proof.
  unfold release_suffix. intros [_ Hr]%andb_true_iff. unfold split_non_digits, release_string.
  pose proof (decimal_digits major) as Hma. pose proof (decimal_digits minor) as Hmi.
  assert (forall s, Forall (fun b => in_range b 48 57 = true) s ->
    forallb (fun b => negb (negb (in_range b 48 57))) s = true) as Hd.
  { intros s Hs. induction Hs as [|b s Hb _ IH]; [done|]. cbn [forallb]. by rewrite Hb. }
  rewrite !List.filter_app, (filter_digits (decimal major)), (filter_digits (decimal minor)) by done.
  change (List.filter _ (B ".")) with [x2e]. cbn [Datatypes.app].
  rewrite split_when_app by (by try apply Hd). destruct rest as [|b rest].
  - cbn [List.filter]. rewrite app_nil_r, split_when_none by by apply Hd. by eexists.
  - apply andb_true_iff in Hr as [Hb Hnd]. cbn [List.filter].
    assert (cont b = false) as -> by (by destruct b). cbn [negb].
    rewrite split_when_app by (by try apply Hd). by eexists.
Qed.

(** Functional: on a kernel that reports the release [major.minor] with
    any suffix, the gate reads the two numbers back, and lets the model start
    exactly from 5.19 on, compared as a version and not as text. *)
Theorem kernel_gate major minor rest
    (Hma : (major <= u32_max)%N) (Hmi : (minor <= u32_max)%N) (Hr : release_suffix rest = true) :
  parse_release (release_string major minor rest) = (major, minor) /\
  (check_kernel (Ok (release_string major minor rest)) = Ok tt <->
   (5 < major \/ major = 5 /\ 19 <= minor)%N).
Proof.
  assert (parse_release (release_string major minor rest) = (major, minor)) as Hp.
  { unfold parse_release. destruct (split_release major minor rest Hr) as [parts ->].
    cbn [lookup list_lookup mbind option_bind].
    rewrite !parse_uint_decimal by (unfold u32_max, usize_max in *; lia). done. }
  split; [done|]. unfold check_kernel, from_utf8.
  assert (utf8_valid (release_string major minor rest) = true) as ->.
  { apply andb_true_iff in Hr as [Hu _]. unfold release_string.
    repeat apply utf8_valid_app; try done; apply digits_utf8, decimal_digits. }
  cbn [default from_option id]. rewrite Hp. unfold older. cbn [fst snd]. change MIN_KERNEL.1 with 5%N.
  change MIN_KERNEL.2 with 19%N.
  destruct (N.ltb_spec major 5), (N.eqb_spec major 5), (N.ltb_spec minor 19); cbn;
    (split; [intros; simplify_eq; lia|intros; first [done|lia]]).
Qed.

Lemma kernel_gate_witness :
  release_suffix (B "-arch1-1") = true /\
  parse_release (B "5.19-arch1-1") = (5, 19)%N /\ check_kernel (Ok (B "5.19-arch1-1")) = Ok tt /\
  check_kernel (Ok (B "5.4.0-150-generic")) = Err (Custom Unsupported).
Proof.
  split; [reflexivity|].
  assert ((5 <= u32_max)%N /\ (19 <= u32_max)%N) as [Ha Hb] by (split; by vm_compute).
  destruct (kernel_gate 5 19 (B "-arch1-1") Ha Hb eq_refl) as [Hp Hg].
  split; [exact Hp|]. split; [apply Hg; right; split; [reflexivity|by vm_compute]|reflexivity].
Defined.

(** ** The provided-buffer ring *)

(** The ring shared with the kernel: where the kernel takes its next buffer,
    and the buffers whose bytes the program is reading. *)
Record Shared := mkShared { sh_ring : BufRing; k_head : N; held : list N }.

Definition entry_at (b : BufRing) (t : N) : option BufRingEntry :=
  b.(ring) !! N.to_nat (N.land t b.(mask)).

Inductive buf_step : Shared -> Shared -> Prop :=
  | kernel_takes b h hs e :
    h <> b.(tail) -> entry_at b h = Some e ->
    buf_step (mkShared b h hs) (mkShared b ((h + 1) mod 2 ^ 16) (e.(e_bid) :: hs))
  | user_recycles b h hs1 bid hs2 :
    buf_step (mkShared b h (hs1 ++ bid :: hs2)) (mkShared (recycle bid b) h (hs1 ++ hs2)).

(** The buffers offered to the kernel, in the order it takes them. *)
Definition offered (s : Shared) : list BufRingEntry :=
  omap (fun i => entry_at s.(sh_ring) ((s.(k_head) + N.of_nat i) mod 2 ^ 16))
    (seq 0 (N.to_nat ((s.(sh_ring).(tail) + 2 ^ 16 - s.(k_head)) mod 2 ^ 16))).

(** The descriptor of a buffer: its own [BUF_SIZE] bytes of the pool. *)
Definition descriptor (bid : N) : BufRingEntry := mkEntry (bid * BUF_SIZE) BUF_SIZE bid.

Definition all_bids (n : N) : list N := N.of_nat <$> seq 0 (N.to_nat n).

(** A ring of [2 ^ p] slots whose staged buffers are [l], from [h] on. *)
Record slots_inv (p : N) (b : BufRing) (h : N) (l : list N) : Prop := {
  si_mask : b.(mask) = N.ones p;
  si_len : N.of_nat (length b.(ring)) = (2 ^ p)%N;
  si_head : (h < 2 ^ 16)%N;
  si_tail : b.(local_tail) = ((h + N.of_nat (length l)) mod 2 ^ 16)%N;
  si_slots : forall i bid, l !! i = Some bid ->
    entry_at b ((h + N.of_nat i) mod 2 ^ 16) = Some (descriptor bid);
}.

Record buf_inv (p : N) (s : Shared) (l : list N) : Prop := {
  bi_slots : slots_inv p s.(sh_ring) s.(k_head) l;
  bi_tail : s.(sh_ring).(tail) = s.(sh_ring).(local_tail);
  bi_all : l ++ s.(held) ≡ₚ all_bids (2 ^ p);
}.

Lemma slot_mod p t : (p <= 16)%N -> N.land (t mod 2 ^ 16) (N.ones p) = (t mod 2 ^ p)%N.
Proof.
  intros Hp. rewrite N.land_ones. apply N2Z.inj. rewrite !N2Z.inj_mod, !N2Z.inj_pow.
  symmetry. apply Znumtheory.Zmod_div_mod; [lia|lia|].
  exists (2 ^ (16 - Z.of_N p))%Z. rewrite <-Z.pow_add_r by lia. f_equal. lia.
Qed.

Lemma slots_distinct (h i j n : N) :
  (i < j -> j < i + n -> (h + i) mod n <> (h + j) mod n)%N.
Proof.
  intros Hi Hj E. assert (n <> 0)%N as Hn by lia. pose proof (N.div_mod (h + i) n Hn) as H1.
  pose proof (N.div_mod (h + j) n Hn) as H2. rewrite E in H1.
  assert (j = i + n * ((h + j) / n) - n * ((h + i) / n))%N as Hd by lia.
  destruct (N.lt_trichotomy ((h + j) / n) ((h + i) / n)) as [Hc|[Hc|Hc]]; nia.
Qed.

Lemma pow_le_16 p : (p <= 15)%N -> (2 ^ p <= 2 ^ 15)%N.
Proof. intros. by apply N.pow_le_mono_r. Qed.

Lemma stage_inv p b h l bid :
  (p <= 15)%N -> slots_inv p b h l -> (N.of_nat (length l) < 2 ^ p)%N ->
  slots_inv p (stage bid b) h (l ++ [bid]).
Proof.
  intros Hp [Hm Hl Hh Ht Hs] Hlt. pose proof (N.pow_nonzero 2 p ltac:(lia)) as Hn.
  assert (forall i : N, N.land ((h + i) mod 2 ^ 16) (N.ones p) = (h + i) mod 2 ^ p)%N as Hslot.
  { intros i. apply slot_mod. lia. }
  split; cbn [stage mask ring local_tail].
  - done.
  - by rewrite length_insert.
  - done.
  - rewrite Ht, N.Div0.add_mod_idemp_l, length_app. f_equal. simpl. lia.
  - intros i bid' Hi. unfold entry_at. cbn [stage mask ring]. rewrite Ht, Hm, !Hslot.
    apply lookup_app_Some in Hi as [Hi|[Hle Hi]].
    + rewrite list_lookup_insert_ne.
      * specialize (Hs _ _ Hi). unfold entry_at in Hs. by rewrite Hm, Hslot in Hs.
      * intros E%N2Nat.inj. apply lookup_lt_Some in Hi. symmetry in E.
        apply (slots_distinct h (N.of_nat i) (N.of_nat (length l)) (2 ^ p)); [lia..|done].
    + apply list_lookup_singleton_Some in Hi as [Hz ->]. replace i with (length l) by lia.
      rewrite list_lookup_insert_eq; [done|].
      pose proof (N.mod_lt (h + N.of_nat (length l)) (2 ^ p) Hn). lia.
Qed.

Lemma stage_all_inv p b h l bid n :
  (p <= 15)%N -> slots_inv p b h l -> (N.of_nat (length l + n) <= 2 ^ p)%N ->
  slots_inv p (stage_all n bid b) h (l ++ ((fun i => bid + N.of_nat i)%N <$> seq 0 n)).
Proof.
  intros Hp. revert b l bid. induction n as [|n IH]; intros b l bid Hi Hn.
  - by rewrite app_nil_r.
  - cbn [stage_all]. assert ((fun i => bid + N.of_nat i)%N <$> seq 0 (S n) =
      bid :: ((fun i => bid + 1 + N.of_nat i)%N <$> seq 0 n)) as ->.
    { cbn [seq fmap list_fmap]. f_equal; [lia|]. rewrite <-fmap_S_seq, <-list_fmap_compose.
      apply list_fmap_ext. intros i x _. cbn. lia. }
    rewrite cons_middle, app_assoc. apply IH.
    + apply stage_inv; [done|done|lia].
    + rewrite length_app. simpl. lia.
Qed.

Lemma is_power_of_two_spec n : is_power_of_two n = true -> n = (2 ^ N.log2 n)%N.
Proof.
  unfold is_power_of_two. intros [Hn%negb_true_iff%N.eqb_neq Hl%N.eqb_eq]%andb_true_iff.
  pose proof (N.log2_spec n ltac:(lia)) as [Hlo Hhi]. apply N.le_antisymm; [|done].
  apply N.le_ngt. intros Hlt.
  assert (N.log2 (n - 1) = N.log2 n) as Hk by (apply N.log2_unique; lia).
  assert (N.testbit (N.land n (n - 1)) (N.log2 n) = true) as Hb.
  { rewrite N.land_spec, N.bit_log2 by done. rewrite <-Hk. apply N.bit_log2.
    pose proof (N.pow_nonzero 2 (N.log2 n) ltac:(lia)). lia. }
  by rewrite Hl in Hb.
Qed.

Lemma bufring_new_inv n size b :
  (n < 2 ^ 16)%N -> BufRing_new n size (Ok tt) = Ret (Ok b) ->
  exists p, n = (2 ^ p)%N /\ (p <= 15)%N /\ buf_inv p (mkShared b 0 []) (all_bids n).
Proof.
  unfold BufRing_new. destruct (is_power_of_two n) eqn:Hp; [|done]. cbn [negb].
  intros Hn [= <-]. apply is_power_of_two_spec in Hp. exists (N.log2 n).
  assert (N.log2 n <= 15)%N as Hle.
  { apply N.lt_succ_r, (N.pow_lt_mono_r_iff 2); [lia|]. by rewrite <-Hp. }
  split_and!; [done|done|]. split; cbn [sh_ring k_head held].
  - change (all_bids n) with ([] ++ ((fun i => 0 + N.of_nat i)%N <$> seq 0 (N.to_nat n))).
    assert (forall p b h l, slots_inv p b h l -> slots_inv p (commit b) h l) as Hc.
    { intros p b h l [? ? ? ? ?]. by split. }
    apply Hc, stage_all_inv; [done| |rewrite <-Hp; simpl; lia]. split; cbn [mask ring local_tail].
    + rewrite Hp at 1. rewrite <-N.pred_sub. by rewrite N.ones_equiv.
    + rewrite length_replicate, <-Hp. lia.
    + lia.
    + done.
    + done.
  - done.
  - rewrite <-Hp. by rewrite app_nil_r.
Qed.


Lemma held_length p s l : buf_inv p s l -> (N.of_nat (length l + length s.(held)) = 2 ^ p)%N.
Proof.
  intros [_ _ Hall]. apply Permutation_length in Hall. unfold all_bids in Hall.
  rewrite length_app, length_fmap, length_seq in Hall. lia.
Qed.

Lemma buf_step_inv p s s' l :
  (p <= 15)%N -> buf_inv p s l -> buf_step s s' -> exists l', buf_inv p s' l'.
Proof.
  intros Hp Hi Hstep. pose proof (held_length _ _ _ Hi) as Hlen. pose proof (pow_le_16 p Hp).
  destruct Hi as [Hs Ht Hall]. destruct Hstep as [b h hs e Hne He|b h hs1 bid hs2];
    cbn [sh_ring k_head held] in *.
  - destruct l as [|bid l].
    { exfalso. apply Hne. rewrite Ht, (si_tail _ _ _ _ Hs), N.add_0_r.
      symmetry. apply N.mod_small, (si_head _ _ _ _ Hs). }
    assert (e = descriptor bid) as ->.
    { pose proof (si_slots _ _ _ _ Hs 0 bid eq_refl) as Hd. rewrite N.add_0_r in Hd.
      rewrite N.mod_small in Hd by apply (si_head _ _ _ _ Hs). congruence. }
    exists l. destruct Hs as [Hm Hl Hh Htl Hsl]. split; cbn [sh_ring k_head held].
    + split; try done.
      * apply N.mod_lt. done.
      * rewrite Htl, N.Div0.add_mod_idemp_l. f_equal. simpl. lia.
      * intros i bid' Hi. rewrite N.Div0.add_mod_idemp_l. rewrite <-(Hsl (S i) bid' Hi). do 2 f_equal. lia.
    + done.
    + rewrite <-Hall. cbn [descriptor e_bid]. by rewrite <-Permutation_middle.
  - rewrite length_app in Hlen. simpl in Hlen.
    exists (l ++ [bid]). split; cbn [sh_ring k_head held].
    + assert (slots_inv p (stage bid b) h (l ++ [bid])) as [? ? ? ? ?] by (apply stage_inv; [done|done|lia]).
      by split.
    + done.
    + rewrite <-Hall, <-app_assoc. by rewrite <-Permutation_middle.
Qed.

Lemma buf_steps_inv p s s' l :
  (p <= 15)%N -> buf_inv p s l -> rtc buf_step s s' -> exists l', buf_inv p s' l'.
Proof.
  intros Hp Hi Hr. revert l Hi. induction Hr as [s|s s1 s' Hs Hr IH]; intros l Hi; [by exists l|].
  destruct (buf_step_inv _ _ _ _ Hp Hi Hs) as [l1 Hi1]. by apply (IH l1).
Qed.

Lemma offered_spec p s l : (p <= 15)%N -> buf_inv p s l -> offered s = descriptor <$> l.
Proof.
  intros Hp Hi. pose proof (held_length _ _ _ Hi) as Hlen. pose proof (pow_le_16 p Hp).
  destruct Hi as [[_ _ Hh Htl Hsl] Ht _]. unfold offered. rewrite Ht, Htl.
  assert (((k_head s + N.of_nat (length l)) mod 2 ^ 16 + 2 ^ 16 - k_head s) mod 2 ^ 16 =
    N.of_nat (length l))%N as ->.
  { destruct (N.lt_ge_cases (k_head s + N.of_nat (length l)) (2 ^ 16)) as [Hc|Hc].
    - rewrite (N.mod_small (k_head s + _)) by done.
      replace (k_head s + N.of_nat (length l) + 2 ^ 16 - k_head s)%N
        with (N.of_nat (length l) + 1 * 2 ^ 16)%N by lia.
      rewrite N.Div0.mod_add. apply N.mod_small. lia.
    - assert ((k_head s + N.of_nat (length l)) mod 2 ^ 16 = k_head s + N.of_nat (length l) - 2 ^ 16)%N as ->.
      { symmetry. apply (N.mod_unique _ _ 1); lia. }
      replace (k_head s + N.of_nat (length l) - 2 ^ 16 + 2 ^ 16 - k_head s)%N with (N.of_nat (length l)) by lia.
      apply N.mod_small. lia. }
  rewrite Nat2N.id. clear Hlen. revert Hsl. generalize (k_head s) as h. clear.
  intros h Hsl.
  assert (forall k rest, (forall i bid, rest !! i = Some bid ->
      entry_at s.(sh_ring) ((h + N.of_nat (k + i)) mod 2 ^ 16) = Some (descriptor bid)) ->
    omap (fun i => entry_at s.(sh_ring) ((h + N.of_nat i) mod 2 ^ 16)) (seq k (length rest)) =
      descriptor <$> rest) as Hgen; [|by apply (Hgen 0)].
  intros k rest. revert k. induction rest as [|bid rest IH]; intros k Hr; [done|].
  cbn [length seq]. cbn [omap list_omap fmap list_fmap].
  pose proof (Hr 0 bid eq_refl) as H0. rewrite Nat.add_0_r in H0. rewrite H0. f_equal.
  apply (IH (S k)). intros i b' Hi. rewrite <-(Hr (S i) b' Hi). do 3 f_equal. lia.
Qed.

(** C36. Conservation: whatever the kernel takes and the program recycles, in
    any order, over any number of wraps of the 16-bit tail, every buffer is at
    every time either offered to the kernel, once, with its own [BUF_SIZE]
    bytes as descriptor, within the first [n * BUF_SIZE] of the pool (the whole
    pool, where the buffers are made of that size), or held by the program,
    once; so a slot still offered is never overwritten, and the kernel finds no
    buffer only when the program holds them all. *)
Theorem buffers_conserved n size b s
    (Hn : (n < 2 ^ 16)%N) (Hnew : BufRing_new n size (Ok tt) = Ret (Ok b))
    (Hs : rtc buf_step (mkShared b 0 []) s) :
  (e_bid <$> offered s) ++ s.(held) ≡ₚ all_bids n /\
  Forall (fun e => e = descriptor e.(e_bid) /\ (e.(e_addr) + e.(e_len) <= n * BUF_SIZE)%N) (offered s) /\
  (s.(k_head) = s.(sh_ring).(tail) -> length s.(held) = N.to_nat n).
Proof.
  destruct (bufring_new_inv n size b Hn Hnew) as (p & -> & Hp & Hi).
  destruct (buf_steps_inv p _ _ _ Hp Hi Hs) as [l Hl]. pose proof (held_length _ _ _ Hl) as Hlen.
  rewrite (offered_spec p s l Hp Hl), <-list_fmap_compose.
  assert (e_bid ∘ descriptor <$> l = l) as -> by (rewrite <-(list_fmap_id l) at 2; done).
  split_and!.
  - exact (bi_all _ _ _ Hl).
  - apply Forall_fmap, Forall_forall. intros bid Hbid. split; [done|].
    assert (bid ∈ all_bids (2 ^ p)) as Hin by (rewrite <-(bi_all _ _ _ Hl); apply elem_of_app; by left).
    unfold all_bids in Hin. apply list_elem_of_fmap in Hin as (i & -> & Hi'%elem_of_seq).
    cbn. assert (N.of_nat i + 1 <= 2 ^ p)%N as Hle by lia.
    apply (N.mul_le_mono_r _ _ BUF_SIZE) in Hle. lia.
  - destruct Hl as [[_ _ Hh Ht _] Htl _]. rewrite Htl, Ht. intros E.
    pose proof (pow_le_16 p Hp). destruct (N.lt_ge_cases (k_head s + N.of_nat (length l)) (2 ^ 16)).
    + rewrite N.mod_small in E by done. lia.
    + assert ((k_head s + N.of_nat (length l)) mod 2 ^ 16 = k_head s + N.of_nat (length l) - 2 ^ 16)%N as E'.
      { symmetry. apply (N.mod_unique _ _ 1); lia. }
      lia.
Qed.

(** With buffers of the size of the runtime, what is offered is in the pool; with
    smaller ones, as a unit test makes them, it is not. *)
Lemma pool_holds_buffers n b :
  BufRing_new n BUF_SIZE (Ok tt) = Ret (Ok b) -> b.(pool_len) = (n * BUF_SIZE)%N.
Proof.
  unfold BufRing_new. destruct (negb _); [done|]. intros E. injection E as <-. cbn [commit pool_len].
  assert (forall m bid b, pool_len (stage_all m bid b) = pool_len b) as Hall; [|by rewrite Hall].
  intros m. induction m as [|m IH]; intros bid b; [done|]. cbn [stage_all]. by rewrite IH.
Qed.

Lemma small_buffers_leave_pool :
  match BufRing_new 4 64 (Ok tt) with
  | Ret (Ok b) => forallb (fun e => (e.(e_addr) + e.(e_len) <=? b.(pool_len))%N) b.(ring)
  | _ => true
  end = false.
Proof. reflexivity. Qed.

(** The ring of the runtime, the first buffer taken and recycled. *)
Definition sample_ring : BufRing :=
  match BufRing_new NUM_BUFS BUF_SIZE (Ok tt) with Ret (Ok b) => b | _ => mkBufRing [] 0 0 0 0 end.

Lemma buffers_conserved_witness :
  let s := mkShared (recycle 0 sample_ring) 1 [] in
  (sample_ring.(tail) = 256)%N /\ s.(sh_ring).(tail) = 257%N /\
  (e_bid <$> offered s) ++ [] ≡ₚ all_bids NUM_BUFS.
Proof.
  intros s. split; [by vm_compute|]. split; [by vm_compute|].
  assert (rtc buf_step (mkShared sample_ring 0 []) s) as Hs.
  { eapply rtc_l; [eapply kernel_takes; [by vm_compute|by vm_compute]|].
    eapply rtc_l; [apply (user_recycles _ _ [] 0 [])|]. apply rtc_refl. }
  exact (proj1 (buffers_conserved NUM_BUFS BUF_SIZE sample_ring s eq_refl ltac:(by vm_compute) Hs)).
Defined.
