(* ===== verification/IoUringInv.v ===== *)
(** * The io_uring runtime: what is in flight

    The documented behaviour of the queues, and the invariant the completion
    handlers keep: one operation in flight per connection, the one its state
    machine asks for. *)

From S2P Require Import Prelude RustStr Http Response Request RequestSpec RequestRefine App Conn ConnSpec Syscall EventIo IoUring IoUringProps.

Definition sqe_fd (s : Sqe) : Z :=
  match s.(opcode) with AcceptMulti fd | Recv fd | Send fd _ | CloseFd fd => fd end.

Definition sqe_op (s : Sqe) : N :=
  match s.(opcode) with
  | AcceptMulti _ => OP_ACCEPT
  | Recv _ => OP_RECV
  | Send _ _ => OP_SEND
  | CloseFd _ => OP_CLOSE
  end.

Definition is_accept (s : Sqe) : bool := match s.(opcode) with AcceptMulti _ => true | _ => false end.

(** A receive or a send. *)
Definition is_io (s : Sqe) : bool :=
  match s.(opcode) with Recv _ | Send _ _ => true | _ => false end.

Definition ops_on (fd : Z) (l : list Sqe) : list Sqe :=
  List.filter (fun s => is_io s && (sqe_fd s =? fd)%Z) l.

Definition accept_sqe (fd : Z) : Sqe := mkSqe (AcceptMulti fd) (pack OP_ACCEPT fd).
Definition recv_sqe (fd : Z) : Sqe := mkSqe (Recv fd) (pack OP_RECV fd).
Definition send_sqe (fd : Z) (u : bytes) : Sqe := mkSqe (Send fd u) (pack OP_SEND fd).
Definition close_sqe (fd : Z) : Sqe := mkSqe (CloseFd fd) (pack OP_CLOSE fd).

Definition raw_fd (fd : Z) : Prop := (-2 ^ 31 <= fd < 2 ^ 31)%Z.

(** ** The queues *)

Section Laws.
Context {R : Type} `{Ring R}.

(** A batch of completions takes operations [l] to [l'], and the descriptors
    held [h] to [h'].  A receive, send or close completes once; an accept stays
    while its completions say so, and gives descriptors that are not held. *)
Inductive completes : list Z -> list Sqe -> list Cqe -> list Z -> list Sqe -> Prop :=
  | completes_nil h l : completes h l [] h l
  | completes_op h l1 s l2 q cqes h' l' :
    is_accept s = false -> q.(cqe_user_data) = s.(user_data) ->
    completes h (l1 ++ l2) cqes h' l' -> completes h (l1 ++ s :: l2) (q :: cqes) h' l'
  | completes_error h l1 s l2 q cqes h' l' :
    is_accept s = true -> q.(cqe_user_data) = s.(user_data) -> (q.(cqe_result) < 0)%Z ->
    completes h (if more q.(cqe_flags) then l1 ++ s :: l2 else l1 ++ l2) cqes h' l' ->
    completes h (l1 ++ s :: l2) (q :: cqes) h' l'
  | completes_accept h l1 s l2 q cqes h' l' :
    is_accept s = true -> q.(cqe_user_data) = s.(user_data) ->
    (0 <= q.(cqe_result) < 2 ^ 31)%Z -> q.(cqe_result) ∉ h ->
    completes (q.(cqe_result) :: h)
      (if more q.(cqe_flags) then l1 ++ s :: l2 else l1 ++ l2) cqes h' l' ->
    completes h (l1 ++ s :: l2) (q :: cqes) h' l'.

Lemma completes_held h l cqes h' l' fd : completes h l cqes h' l' -> fd ∈ h -> fd ∈ h'.
Proof. intros Hc. induction Hc; [done|auto..|]. intros Hin. apply IHHc. by right. Qed.
End Laws.

(** The queue may refuse [s] even after it was submitted. *)
Definition may_refuse (R : Type) `{Ring R} (s : Sqe) : Prop := exists r : R, ring_push s (ring_submit r) = None.

(** [inflight]: the operations taken, of which the program has not been handed
    the last completion; [held]: the descriptors accepted of which the queue
    has not taken the close. *)
Class RingLaws (R : Type) `{Ring R} := {
  inflight : R -> list Sqe;
  held : R -> list Z;
  build_empty n r : ring_build n = Ok r -> inflight r = [];
  register_keeps e g r x r' : ring_register e g r = (x, r') -> inflight r' = inflight r;
  push_taken s r r' : ring_push s r = Some r' -> inflight r' = inflight r ++ [s];
  push_held s r r' fd : ring_push s r = Some r' -> fd ∈ held r' <-> fd ∈ held r /\ s.(opcode) <> CloseFd fd;
  submit_keeps r : inflight (ring_submit r) = inflight r /\ held (ring_submit r) = held r;
  wait_keeps t r x r' : ring_submit_and_wait t r = (x, r') -> inflight r' = inflight r /\ held r' = held r;
  completions_law r cqes r' :
    completions r = (cqes, r') -> completes (held r) (inflight r) cqes (held r') (inflight r');
}.

(** ** The invariant *)

(** The operation a connection waits for. *)
Definition expected (fd : Z) (a : AConn) : list Sqe :=
  match a with
  | AReading _ => [recv_sqe fd]
  | AWriting u _ => [send_sqe fd u]
  | AClosed => []
  end.

Definition short (u : bytes) : Prop := (N.of_nat (length u) < 2 ^ 32)%N.

Definition short_conn (a : AConn) : Prop := match a with AWriting u _ => short u | _ => True end.

(** An operation with the user data its completion is dispatched on. *)
Definition sqe_ok (s : Sqe) : Prop := raw_fd (sqe_fd s) /\ s.(user_data) = pack (sqe_op s) (sqe_fd s).

Section Inv.
Context {R H : Type} `{RingLaws R} `{Handlers H}.

(** Responses are shorter than 4 GiB: a send takes a [u32]. *)
Definition short_answers (app : App H) : Prop :=
  forall app', same_site app app' -> forall r, short (answer app' r).

(** [fd] has the operation its connection waits for in flight, or none where
    the queue refused it. *)
Definition waits (fd : Z) (a : AConn) (ops : list Sqe) : Prop :=
  ops_on fd ops = expected fd a \/ (ops_on fd ops = [] /\ Exists (may_refuse R) (expected fd a)).

Lemma waits_refused fd a ops :
  waits fd a ops -> ops_on fd ops = expected fd a \/
    (ops_on fd ops = [] /\ exists s, expected fd a = [s] /\ may_refuse R s).
Proof.
  intros [?|[? He]]; [by left|right]. split; [done|].
  destruct a; cbn [expected] in *; [..|by apply Exists_nil in He]; apply Exists_cons in He as [Hr|He]; [by eexists|by apply Exists_nil in He|by eexists|by apply Exists_nil in He].
Qed.

(** With the operations [ops]; [hole] is the connection being handled, with
    none. *)
Record uinv (hole : option Z) (ops : list Sqe) (rt : Runtime R H) : Prop := {
  u_conn : forall fd c, rt.(conns) !! fd = Some c -> raw_fd fd /\
    (hole <> Some fd -> exists a, refines c a /\ live a /\ short_conn a /\ waits fd a ops);
  u_idle : forall fd, rt.(conns) !! fd = None \/ hole = Some fd -> ops_on fd ops = [];
  u_accept : List.filter is_accept ops = if rt.(accept_armed) then [accept_sqe rt.(listener)] else [];
  u_ops : Forall sqe_ok ops;
  u_cap : (N.of_nat (size rt.(conns)) <= rt.(rt_cfg).(max_connections))%N;
  u_listener : raw_fd rt.(listener);
  u_fit : all_fit rt.(rt_app);
  u_short : short_answers rt.(rt_app);
}.

(** What no handler changes. *)
Definition same_frame (rt rt' : Runtime R H) : Prop :=
  rt'.(listener) = rt.(listener) /\ rt'.(rt_cfg) = rt.(rt_cfg) /\
  same_site rt.(rt_app) rt'.(rt_app).

Lemma short_answers_same app app' : short_answers app -> same_site app app' -> short_answers app'.
Proof. intros Hs Ha app'' Ha'. apply Hs. eapply same_site_trans; eauto. Qed.

Lemma ops_on_app fd l1 l2 : ops_on fd (l1 ++ l2) = ops_on fd l1 ++ ops_on fd l2.
Proof. apply List.filter_app. Qed.

Lemma ops_on_io s l fd : is_io s = true -> sqe_fd s = fd -> ops_on fd (s :: l) = s :: ops_on fd l.
Proof. intros Hs <-. unfold ops_on. cbn [List.filter]. by rewrite Hs, Z.eqb_refl. Qed.

Lemma ops_on_ne s l fd : sqe_fd s <> fd -> ops_on fd (s :: l) = ops_on fd l.
Proof. intros Hs. unfold ops_on. cbn [List.filter]. by rewrite (proj2 (Z.eqb_neq _ _) Hs), andb_false_r. Qed.

Lemma ops_on_not_io s l fd : is_io s = false -> ops_on fd (s :: l) = ops_on fd l.
Proof. intros Hs. unfold ops_on. cbn [List.filter]. by rewrite Hs. Qed.

(** Pushing [s] put [es] in flight: it, or nothing if it was refused. *)
Definition pushes (s : Sqe) (es : list Sqe) : Prop := es = [s] \/ (es = [] /\ may_refuse R s).

Lemma push_spec s (rt : Runtime R H) :
  exists r (ok : bool), push s rt = (set_ring r rt, ok) /\
    inflight r = inflight rt.(rt_ring) ++ (if ok then [s] else []) /\
    (ok = false -> may_refuse R s) /\
    (forall fd, fd ∈ held rt.(rt_ring) -> s.(opcode) <> CloseFd fd -> fd ∈ held r).
Proof.
  unfold push. destruct (ring_push s (rt_ring rt)) as [r|] eqn:E.
  - exists r, true. split_and!; [done|by apply push_taken|done|]. intros fd ??. by apply (push_held _ _ _ fd E).
  - destruct (submit_keeps (rt_ring rt)) as [Ei Eh].
    destruct (ring_push s (ring_submit (rt_ring rt))) as [r|] eqn:E'.
    + exists r, true. split_and!; [done|rewrite (push_taken _ _ _ E'); by rewrite Ei|done|].
      intros fd ??. apply (push_held _ _ _ fd E'). by rewrite Eh.
    + exists (ring_submit (rt_ring rt)), false. rewrite app_nil_r, Ei, Eh. split_and!; [done|done| |done].
      intros _. by exists (rt_ring rt).
Qed.

(** Pushing [s] after the change [f] of the rest of the runtime. *)
Definition pushed (s : Sqe) (rt rt' : Runtime R H) : Prop :=
  exists r es, rt' = set_ring r rt /\ pushes s es /\ inflight r = inflight rt.(rt_ring) ++ es /\
    (forall fd, fd ∈ held rt.(rt_ring) -> s.(opcode) <> CloseFd fd -> fd ∈ held r).

Lemma pushed_push s rt : pushed s rt (push s rt).1.
Proof.
  destruct (push_spec s rt) as (r & ok & -> & Hr & Hok & Hh). exists r, (if ok then [s] else []).
  split_and!; [done| |done|done]. destruct ok; [by left|right; auto].
Qed.

(** A descriptor held stays so, unless its close was pushed. *)
Definition keeps_held (fd : Z) (rt rt' : Runtime R H) : Prop :=
  forall fd', fd' ∈ held rt.(rt_ring) -> fd' ∈ held rt'.(rt_ring) \/ (fd' = fd /\ rt'.(conns) !! fd = None).

Lemma uinv_ring hole ops rt r : uinv hole ops rt -> uinv hole ops (set_ring r rt).
Proof. intros [? ? ? ? ? ? ? ?]. by split. Qed.

Lemma uinv_br hole ops rt b : uinv hole ops rt -> uinv hole ops (set_br b rt).
Proof. intros [? ? ? ? ? ? ? ?]. by split. Qed.

(** Filling the hole. *)
Lemma uinv_fill fd c a s es ops rt :
  uinv (Some fd) ops rt -> rt.(conns) !! fd = Some c -> refines c a -> live a -> short_conn a ->
  expected fd a = [s] -> pushes s es -> uinv None (ops ++ es) rt.
Proof.
  intros [Hc Hi Ha Ho Hcap Hl Hf Hs] Hfd Hr Hlive Hsh He Hes.
  assert (is_io s = true /\ sqe_fd s = fd /\ is_accept s = false /\
          s.(user_data) = pack (sqe_op s) (sqe_fd s)) as (Hio & Hsf & Hna & Hu).
  { destruct a; simplify_eq/=; done. }
  assert (forall fd', fd' <> fd -> ops_on fd' (ops ++ es) = ops_on fd' ops) as Hother.
  { intros fd' Hne. rewrite ops_on_app. destruct Hes as [-> | [-> _]]; [|by rewrite app_nil_r].
    rewrite ops_on_ne by congruence. by rewrite app_nil_r. }
  split; try done.
  - intros fd' c' Hc'. destruct (Hc fd' c' Hc') as [Hraw He']. split; [done|]. intros _.
    destruct (decide (fd' = fd)) as [->|Hne].
    + assert (c' = c) as -> by congruence. exists a. split_and!; [done..|].
      unfold waits. rewrite ops_on_app, (Hi fd), He by by right. destruct Hes as [-> | [-> Hm]].
      * left. by rewrite ops_on_io.
      * right. split; [done|]. by apply Exists_cons_hd.
    + unfold waits. rewrite Hother by done. apply He'. congruence.
  - intros fd' [Hn|]; [|done]. rewrite Hother by congruence. apply Hi. by left.
  - rewrite List.filter_app, Ha. destruct Hes as [-> | [-> _]]; [|by rewrite app_nil_r].
    cbn [List.filter]. by rewrite Hna, app_nil_r.
  - apply Forall_app_2; [done|]. destruct Hes as [-> | [-> _]]; [|done].
    apply Forall_singleton. split; [|done]. rewrite Hsf. by eapply Hc.
Qed.

(** Dropping the connection of the hole. *)
Lemma uinv_drop fd ops rt :
  uinv (Some fd) ops rt -> uinv None ops (set_conns (delete fd rt.(conns)) rt).
Proof.
  intros [Hc Hi Ha Ho Hcap Hl Hf Hs]. split; try done; cbn [set_conns conns].
  - intros fd' c' [Hne Hc']%lookup_delete_Some. destruct (Hc fd' c' Hc') as [Hraw He]. split; [done|].
    intros _. apply He. congruence.
  - intros fd' [Hn|]; [|done]. destruct (decide (fd' = fd)) as [->|Hne]; [apply Hi; by right|].
    apply Hi. left. by rewrite lookup_delete_ne in Hn by congruence.
  - etrans; [|exact Hcap]. pose proof (map_size_delete fd (rt.(conns))) as Hd.
    cbn [rt_cfg]. destruct (rt.(conns) !! fd); cbn [id] in Hd; lia.
Qed.

(** An operation on no connection. *)
Lemma uinv_close fd es ops hole rt :
  raw_fd fd -> pushes (close_sqe fd) es -> uinv hole ops rt -> uinv hole (ops ++ es) rt.
Proof.
  intros Hraw [-> | [-> _]] [Hc Hi Ha Ho Hcap Hl Hf Hs]; [|by rewrite app_nil_r].
  assert (forall fd', ops_on fd' (ops ++ [close_sqe fd]) = ops_on fd' ops) as Heq.
  { intros fd'. by rewrite ops_on_app, app_nil_r. }
  split; try done.
  - intros fd' c' Hc'. destruct (Hc fd' c' Hc') as [? He]. split; [done|]. unfold waits. by rewrite Heq.
  - intros fd' Hn. rewrite Heq. by apply Hi.
  - by rewrite List.filter_app, Ha, app_nil_r.
  - apply Forall_app_2; [done|]. by apply Forall_singleton.
Qed.

Lemma drop_conn_pushes fd ops rt :
  uinv (Some fd) ops rt -> is_Some (rt.(conns) !! fd) ->
  exists es, inflight (drop_conn fd rt).(rt_ring) = inflight rt.(rt_ring) ++ es /\
    uinv None (ops ++ es) (drop_conn fd rt) /\ keeps_held fd rt (drop_conn fd rt) /\
    same_frame rt (drop_conn fd rt) /\
    (drop_conn fd rt).(br) = rt.(br) /\ (drop_conn fd rt).(rt_app) = rt.(rt_app) /\
    (drop_conn fd rt).(conns) = delete fd rt.(conns).
Proof.
  intros Hi [c Hc]. unfold drop_conn. rewrite Hc. unfold submit_close. fold (close_sqe fd).
  destruct (pushed_push (close_sqe fd) (set_conns (delete fd (conns rt)) rt)) as (r & es & Hp & Hes & Hin & Hh).
  rewrite Hp. exists es. split_and!; try done.
  - apply uinv_ring, (uinv_close fd); [by eapply (u_conn _ _ _ Hi)|done|]. by apply uinv_drop.
  - intros fd' Hf'. destruct (decide (fd' = fd)) as [->|Hne].
    + right. split; [done|]. by apply lookup_delete_eq.
    + left. apply Hh; [done|]. cbn. congruence.
Qed.

(** Handling an action: the hole is filled with the operation the connection
    waits for, or the connection dropped and a close pushed. *)
Lemma apply_spec fuel fd c a ops rt :
  2 <= fuel -> uinv (Some fd) ops rt -> rt.(conns) !! fd = Some c -> refines c a -> short_conn a ->
  exists rt' es, apply fuel fd (a_action a) rt = Ret rt' /\
    inflight rt'.(rt_ring) = inflight rt.(rt_ring) ++ es /\ uinv None (ops ++ es) rt' /\
    keeps_held fd rt rt' /\
    same_frame rt rt' /\ rt'.(br) = rt.(br) /\ rt'.(rt_app) = rt.(rt_app) /\
    rt'.(conns) = match a with AClosed => delete fd rt.(conns) | _ => rt.(conns) end.
Proof.
  intros Hfuel Hi Hc Hr Hsh. destruct fuel as [|fuel]; [lia|].
  pose proof (proj1 (u_conn _ _ _ Hi _ _ Hc)) as Hraw.
  destruct a as [s|u next|]; cbn [apply a_action].
  - destruct (pushed_push (recv_sqe fd) rt) as (r & es & Hp & Hes & Hin & Hh).
    exists (set_ring r rt), es. unfold submit_recv. fold (recv_sqe fd). rewrite Hp.
    split_and!; try done; [|intros fd' Hf'; left; by apply Hh].
    apply uinv_ring. by eapply (uinv_fill fd c (AReading s)).
  - unfold submit_send. rewrite Hc, (pending_write_refines _ _ Hr). cbn [mbind outcome_bind].
    pose proof (refines_unsent _ _ _ Hr) as Hu. cbn [short_conn] in Hsh. unfold short in Hsh.
    rewrite N.mod_small by done.
    rewrite (proj2 (N.eqb_neq _ _)) by (destruct u; [done|simpl; lia]).
    rewrite Nat2N.id, take_ge by done. fold (send_sqe fd u).
    destruct (pushed_push (send_sqe fd u) rt) as (r & es & Hp & Hes & Hin & Hh). rewrite Hp.
    exists (set_ring r rt), es. split_and!; try done; [|intros fd' Hf'; left; by apply Hh].
    apply uinv_ring. by eapply (uinv_fill fd c (AWriting u next)).
  - destruct (drop_conn_pushes fd ops rt Hi ltac:(by eexists)) as (es & ? & ? & ? & ? & ? & ? & ?).
    by exists (drop_conn fd rt), es.
Qed.

(** ** Completions of receives and sends *)

(** The state of a connection after the completion of its operation. *)
Definition a_completed (rt : Runtime R H) (a : AConn) (q : Cqe) : AConn :=
  match a with
  | AReading _ =>
    if (q.(cqe_result) <=? 0)%Z then AClosed else
    match buffer_select q.(cqe_flags) with
    | None => AClosed
    | Some bid => a_bytes rt.(rt_app) a (buffer rt.(rt_ring) bid (Z.to_nat q.(cqe_result)))
    end
  | AWriting _ _ => if (q.(cqe_result) <? 0)%Z then AClosed else a_written a (Z.to_nat q.(cqe_result))
  | AClosed => AClosed
  end.

(** The buffer a receive came in. *)
Definition taken_buffer (q : Cqe) : option N :=
  if ((unpack q.(cqe_user_data)).1 =? OP_RECV)%N then
    if (q.(cqe_result) <=? 0)%Z then None else buffer_select q.(cqe_flags)
  else None.

Definition recycled (q : Cqe) (b : BufRing) : BufRing :=
  match taken_buffer q with Some bid => recycle bid b | None => b end.

Lemma error_answer_short e : short (error_answer e).
Proof. destruct e; by vm_compute. Qed.

Lemma a_bytes_short (app : App H) a b : short_answers app -> short_conn a -> short_conn (a_bytes app a b).
Proof.
  intros Hs Ha. destruct a as [s|u next|]; try done. cbn [a_bytes].
  destruct (spec_parse (s ++ b)) as [|r n|e]; cbn [short_conn]; [done|by apply Hs, same_site_refl|].
  apply error_answer_short.
Qed.

Lemma a_written_short a n : short_conn a -> short_conn (a_written a n).
Proof.
  intros Ha. destruct a as [s|u next|]; try done. cbn [a_written].
  destruct (n <? length u); [|by destruct next]. cbn in *. unfold short in *. rewrite length_drop. lia.
Qed.

(** A connection whose operation has completed is a hole. *)
Lemma uinv_completed fd c a l1 s l2 rt :
  uinv None (l1 ++ s :: l2) rt -> rt.(conns) !! fd = Some c -> expected fd a = [s] ->
  ops_on fd (l1 ++ s :: l2) = [s] -> uinv (Some fd) (l1 ++ l2) rt.
Proof.
  intros [Hc Hi Ha Ho Hcap Hl Hf Hs] Hfd He Hops.
  assert (is_io s = true /\ sqe_fd s = fd /\ is_accept s = false) as (Hio & Hsf & Hna).
  { destruct a; simplify_eq/=; done. }
  assert (forall fd', fd' <> fd -> ops_on fd' (l1 ++ s :: l2) = ops_on fd' (l1 ++ l2)) as Hne.
  { intros fd' ?. rewrite !ops_on_app. by rewrite ops_on_ne by congruence. }
  split; try done.
  - intros fd' c' Hc'. destruct (Hc fd' c' Hc') as [Hraw He']. split; [done|]. intros Hh.
    unfold waits. rewrite <-Hne by congruence. by apply He'.
  - intros fd' Hor. destruct (decide (fd' = fd)) as [->|Hd].
    + rewrite ops_on_app, ops_on_io in Hops by done. rewrite ops_on_app.
      apply (f_equal length) in Hops. rewrite length_app in Hops. simpl in Hops.
      destruct (ops_on fd l1); [|simpl in *; lia]. destruct (ops_on fd l2); [done|simpl in *; lia].
    + rewrite <-Hne by done. apply Hi. destruct Hor as [?|?]; [by left|congruence].
  - rewrite <-Ha, !List.filter_app. cbn [List.filter]. by rewrite Hna.
  - apply Forall_app in Ho as [? Ho]. apply Forall_cons in Ho as [_ Ho]. by apply Forall_app_2.
Qed.

(** Storing the next state of the connection in the hole. *)
Lemma uinv_store fd c' ops rt :
  uinv (Some fd) ops rt -> is_Some (rt.(conns) !! fd) ->
  uinv (Some fd) ops (set_conns (<[fd := c']> rt.(conns)) rt).
Proof.
  intros [Hc Hi Ha Ho Hcap Hl Hf Hs] [c Hfd]. split; try done; cbn [set_conns conns].
  - intros fd' c'' Hc''. destruct (decide (fd' = fd)) as [->|Hne].
    + split; [by eapply Hc|done].
    + rewrite lookup_insert_ne in Hc'' by congruence. by apply (Hc fd' c'').
  - intros fd' [Hn|Hh]; [|apply Hi; by right]. apply Hi. left.
    destruct (decide (fd' = fd)) as [->|Hne].
    + by rewrite lookup_insert_eq in Hn.
    + by rewrite lookup_insert_ne in Hn by congruence.
  - by rewrite (map_size_insert_Some fd) by by eexists.
Qed.

(** What the completion of a connection's operation does. *)
Record completed (fd : Z) (a' : AConn) (q : Cqe) (ops : list Sqe) (rt rt' : Runtime R H) : Prop := {
  cd_pushed : exists es, inflight rt'.(rt_ring) = inflight rt.(rt_ring) ++ es /\
    uinv None (ops ++ es) rt';
  cd_held : keeps_held fd rt rt';
  cd_frame : same_frame rt rt';
  cd_br : rt'.(br) = recycled q rt.(br);
  cd_app : rt'.(rt_app) = rt.(rt_app);
  cd_conns : match a' with
    | AClosed => rt'.(conns) = delete fd rt.(conns)
    | _ => exists c', rt'.(conns) = <[fd := c']> rt.(conns) /\ refines c' a'
    end;
}.

Lemma completed_drop fd q ops rt :
  uinv (Some fd) ops rt -> is_Some (rt.(conns) !! fd) -> recycled q rt.(br) = rt.(br) ->
  completed fd AClosed q ops rt (drop_conn fd rt).
Proof.
  intros Hi Hc Hq. destruct (drop_conn_pushes _ _ _ Hi Hc) as (es & ? & ? & ? & ? & ? & ? & ?).
  split; try done; [by exists es|congruence].
Qed.

(** The connection moved to [c'], and its action handled, in [rt1]. *)
Lemma completed_apply fd q ops rt rt1 c' a' :
  uinv (Some fd) ops rt -> is_Some (rt.(conns) !! fd) -> refines c' a' -> short_conn a' ->
  rt1 = set_br (recycled q rt.(br)) (set_conns (<[fd := c']> rt.(conns)) rt) ->
  exists rt', apply apply_fuel fd (a_action a') rt1 = Ret rt' /\ completed fd a' q ops rt rt'.
Proof.
  intros Hi Hc Hr Hs ->.
  destruct (apply_spec apply_fuel fd c' a' ops
      (set_br (recycled q (br rt)) (set_conns (<[fd:=c']> (conns rt)) rt)))
    as (rt' & es & Ha & Hin & Hu & Hh & Hf & Hb & Happ & Hcs).
  - unfold apply_fuel. lia.
  - by apply uinv_br, uinv_store.
  - apply lookup_insert_eq.
  - done.
  - done.
  - exists rt'. split; [done|]. split; try done; [by exists es|].
    destruct a'; [by exists c'|by exists c'|]. rewrite Hcs. apply delete_insert_eq.
Qed.

Lemma io_conn l1 s l2 rt :
  uinv None (l1 ++ s :: l2) rt -> is_io s = true ->
  exists c a, rt.(conns) !! sqe_fd s = Some c /\ refines c a /\ live a /\ short_conn a /\
    expected (sqe_fd s) a = [s] /\ uinv (Some (sqe_fd s)) (l1 ++ l2) rt.
Proof.
  intros Hi Hio. set (fd := sqe_fd s).
  assert (s ∈ ops_on fd (l1 ++ s :: l2)) as Hin.
  { rewrite ops_on_app, ops_on_io by done. apply elem_of_app. right. by left. }
  destruct (rt.(conns) !! fd) as [c|] eqn:Hc.
  - destruct (u_conn _ _ _ Hi _ _ Hc) as (_ & a & Hr & Hl & Hs & He); [done|].
    destruct He as [He | [He _]]; [|rewrite He in Hin; by apply elem_of_nil in Hin].
    assert (expected fd a = [s]) as Hex.
    { rewrite He in Hin. destruct a; cbn in Hin |- *;
        [apply list_elem_of_singleton in Hin; by rewrite <-Hin..|by apply elem_of_nil in Hin]. }
    exists c, a. split_and!; try done. eapply uinv_completed; [done..|congruence].
  - rewrite (u_idle _ _ _ Hi) in Hin by by left. by apply elem_of_nil in Hin.
Qed.

Lemma io_handled fd c a s q ops rt :
  uinv (Some fd) ops rt -> rt.(conns) !! fd = Some c -> refines c a -> short_conn a ->
  expected fd a = [s] -> unpack q.(cqe_user_data) = (sqe_op s, fd) ->
  exists rt', on_cqe q rt = Ret rt' /\ completed fd (a_completed rt a q) q ops rt rt'.
Proof.
  intros Hh Hc Hr Hsh He Hun. unfold on_cqe. rewrite Hun.
  destruct a as [r|u next|]; [| |done]; injection He as <-; cbn -[a_bytes a_written].
  - unfold on_recv. destruct (cqe_result q <=? 0)%Z eqn:Hle.
    { exists (drop_conn fd rt). split; [done|]. apply completed_drop; [done..|].
      unfold recycled, taken_buffer. by rewrite Hun, Hle. }
    destruct (buffer_select (cqe_flags q)) as [bid|] eqn:Hb.
    2: { exists (drop_conn fd rt). split; [done|]. apply completed_drop; [done..|].
         unfold recycled, taken_buffer. by rewrite Hun, Hle, Hb. }
    rewrite Hc.
    destruct (on_bytes_refines (rt_app rt) (u_fit _ _ _ Hh _ (same_site_refl _)) c (AReading r)
      (buffer (rt_ring rt) bid (Z.to_nat (cqe_result q))) Hr) as (c' & -> & Hr' & _).
    cbn [mbind outcome_bind].
    eapply completed_apply; [done|done|done| |].
    { apply a_bytes_short; [by apply (u_short _ _ _ Hh)|done]. }
    unfold recycled, taken_buffer. by rewrite Hun, Hle, Hb.
  - assert (recycled q (br rt) = br rt) as Hrec by by (unfold recycled, taken_buffer; rewrite Hun).
    unfold on_send. destruct (cqe_result q <? 0)%Z eqn:Hlt.
    { exists (drop_conn fd rt). split; [done|]. by apply completed_drop. }
    rewrite Hc.
    destruct (on_written_refines (ring_now (rt_ring rt)) c _ (Z.to_nat (cqe_result q)) Hr)
      as (c' & -> & Hr' & _).
    eapply completed_apply; [done|done|done| |].
    { by apply a_written_short. }
    rewrite Hrec. by destruct rt.
Qed.

Lemma io_step l1 s l2 q rt :
  uinv None (l1 ++ s :: l2) rt -> is_io s = true -> q.(cqe_user_data) = s.(user_data) ->
  exists c a rt', rt.(conns) !! sqe_fd s = Some c /\ refines c a /\ expected (sqe_fd s) a = [s] /\
    on_cqe q rt = Ret rt' /\ completed (sqe_fd s) (a_completed rt a q) q (l1 ++ l2) rt rt'.
Proof.
  intros Hi Hio Hq. destruct (io_conn l1 s l2 rt Hi Hio) as (c & a & Hc & Hr & Hl & Hsh & He & Hh).
  assert (sqe_ok s) as [Hraw Hud].
  { pose proof (u_ops _ _ _ Hi) as Ho. apply Forall_app in Ho as [_ Ho]. by apply Forall_cons in Ho as [? _]. }
  destruct (io_handled _ c a s q _ rt Hh Hc Hr Hsh He) as (rt' & Ha & Hcd).
  { rewrite Hq, Hud. apply unpack_pack; [|done]. unfold sqe_op. by destruct (opcode s). }
  by exists c, a, rt'.
Qed.

(** ** Completions of accepts and closes *)

Lemma close_step l1 s l2 rt :
  uinv None (l1 ++ s :: l2) rt -> is_io s = false -> is_accept s = false -> uinv None (l1 ++ l2) rt.
Proof.
  intros [Hc Hi Ha Ho Hcap Hl Hf Hs] Hio Hna.
  assert (forall fd, ops_on fd (l1 ++ s :: l2) = ops_on fd (l1 ++ l2)) as Heq.
  { intros fd. by rewrite !ops_on_app, ops_on_not_io. }
  split; try done.
  - intros fd c Hfd. unfold waits. rewrite <-Heq. by apply Hc.
  - intros fd Hfd. rewrite <-Heq. by apply Hi.
  - rewrite <-Ha, !List.filter_app. cbn [List.filter]. by rewrite Hna.
  - apply Forall_app in Ho as [? Ho]. apply Forall_cons in Ho as [_ Ho]. by apply Forall_app_2.
Qed.

(** The accept after a completion that says [m]: more follow. *)
Lemma accept_armed_step (m : bool) l1 s l2 rt :
  uinv None (l1 ++ s :: l2) rt -> is_accept s = true ->
  s = accept_sqe rt.(listener) /\
  uinv None (if m then l1 ++ s :: l2 else l1 ++ l2) (if m then rt else set_armed false rt).
Proof.
  intros Hi Hs. pose proof (u_accept _ _ _ Hi) as Ha. rewrite List.filter_app in Ha.
  cbn [List.filter] in Ha. rewrite Hs in Ha.
  assert (List.filter is_accept l1 = [] /\ List.filter is_accept l2 = [] /\
          s = accept_sqe (listener rt)) as (H1' & H2' & Heq).
  { destruct (accept_armed rt); [|by destruct (List.filter is_accept l1)].
    destruct (List.filter is_accept l1) as [|x xs]; [by injection Ha as -> ->|].
    exfalso. apply (f_equal length) in Ha. rewrite length_app in Ha. simpl in Ha. lia. }
  split; [done|]. destruct m; [done|].
  assert (is_io s = false) as Hio by by rewrite Heq.
  destruct Hi as [Hc Hi _ Ho Hcap Hl Hf Hsh].
  assert (forall fd, ops_on fd (l1 ++ s :: l2) = ops_on fd (l1 ++ l2)) as Hops.
  { intros fd. by rewrite !ops_on_app, ops_on_not_io. }
  split; try done.
  - intros fd c Hfd. unfold waits. rewrite <-Hops. by apply Hc.
  - intros fd Hfd. rewrite <-Hops. by apply Hi.
  - by rewrite List.filter_app, H1', H2'.
  - apply Forall_app in Ho as [? Ho]. apply Forall_cons in Ho as [_ Ho]. by apply Forall_app_2.
Qed.

(** A descriptor that is not in the table gets a connection to be armed. *)
Lemma uinv_accepted fd now rtm es ops rt :
  uinv None ops rt -> raw_fd fd -> rt.(conns) !! fd = None ->
  (N.of_nat (size rt.(conns)) < rt.(rt_cfg).(max_connections))%N -> pushes (recv_sqe fd) es ->
  uinv None (ops ++ es)
    (set_app (app_inc_connections rt.(rt_app))
      (set_conns (<[fd := Connection_new now rtm]> rt.(conns)) rt)).
Proof.
  intros Hi Hraw Hn Hlt Hes. eapply (uinv_fill fd _ (AReading [])).
  - destruct Hi as [Hc Hi Ha Ho Hcap Hl Hf Hs]. split; try done; cbn [set_app set_conns conns].
    + intros fd' c Hfd. destruct (decide (fd' = fd)) as [->|Hne]; [done|].
      rewrite lookup_insert_ne in Hfd by congruence. destruct (Hc fd' c Hfd) as [? He].
      split; [done|]. intros _. by apply He.
    + intros fd' Hor. apply Hi. left. destruct Hor as [Hl'|[= <-]]; [|done].
      destruct (decide (fd' = fd)) as [->|Hne]; [done|]. by rewrite lookup_insert_ne in Hl' by congruence.
    + cbn [set_app set_conns conns rt_cfg]. rewrite map_size_insert_None by done. lia.
  - apply lookup_insert_eq.
  - apply refines_new.
  - discriminate.
  - done.
  - done.
  - done.
Qed.

(** The state after a completion of the accept. *)
Record accepted (fd : Z) (ops : list Sqe) (rt rt' : Runtime R H) : Prop := {
  ac_pushed : exists es, inflight rt'.(rt_ring) = inflight rt.(rt_ring) ++ es /\
    uinv None (ops ++ es) rt';
  ac_held : forall fd', fd' ∈ held rt.(rt_ring) ->
    fd' ∈ held rt'.(rt_ring) \/ ((0 <= fd)%Z /\ fd' = fd /\ rt'.(conns) !! fd = None);
  ac_frame : same_frame rt rt';
  ac_br : rt'.(br) = rt.(br);
  ac_conns : rt'.(conns) = rt.(conns) \/
    exists c, (0 <= fd)%Z /\ rt'.(conns) = <[fd := c]> rt.(conns) /\ refines c (AReading []);
}.

Lemma accepted_conns fd ops rt rt' fd' :
  accepted fd ops rt rt' -> is_Some (rt'.(conns) !! fd') ->
  (0 <= fd)%Z /\ fd' = fd \/ is_Some (rt.(conns) !! fd').
Proof.
  intros [_ _ _ _ [-> | (c & Hge & -> & _)]] Hin; [by right|].
  destruct (decide (fd' = fd)) as [->|Hne]; [by left|right]. by rewrite lookup_insert_ne in Hin.
Qed.

Lemma on_accept_spec res flags l1 s l2 rt :
  uinv None (l1 ++ s :: l2) rt -> is_accept s = true ->
  ((0 <= res)%Z -> (res < 2 ^ 31)%Z /\ rt.(conns) !! res = None) ->
  accepted res (if more flags then l1 ++ s :: l2 else l1 ++ l2) rt (on_accept res flags rt).
Proof.
  intros Hi Hs Hres. destruct (accept_armed_step (more flags) l1 s l2 rt Hi Hs) as [_ Hi1].
  unfold on_accept. set (rt1 := if negb (more flags) then set_armed false rt else rt).
  set (ops := if more flags then _ else _) in *.
  assert (uinv None ops rt1) as Hi2 by (unfold rt1; by destruct (more flags)).
  assert (rt1.(conns) = rt.(conns) /\ rt1.(br) = rt.(br) /\ rt1.(rt_ring) = rt.(rt_ring) /\
          rt1.(rt_cfg) = rt.(rt_cfg) /\ same_frame rt rt1) as (Ec & Eb & Er & Ecfg & Ef).
  { unfold rt1, same_frame. by destruct (more flags). }
  clearbody rt1 ops. destruct (Z.ltb_spec res 0) as [Hlt|Hge].
  { split; [exists []; rewrite app_nil_r, Er; by rewrite app_nil_r|intros fd' ?; left; by rewrite Er|done|done|by left]. }
  destruct Hres as [Hhi Hnone]; [done|]. assert (raw_fd res) as Hraw by (unfold raw_fd; lia).
  destruct (N.leb_spec (max_connections (rt_cfg rt1)) (N.of_nat (size (conns rt1)))) as [Hcap|Hcap].
  - destruct (pushed_push (close_sqe res) rt1) as (r & es & Hp & Hes & Hin & Hh).
    unfold submit_close. fold (close_sqe res). rewrite Hp.
    split; [| |done|done|by left].
    + exists es. split; [by rewrite <-Er|]. by apply uinv_ring, (uinv_close res).
    + intros fd' Hf'. destruct (decide (fd' = res)) as [->|Hne].
      * right. split_and!; [done|done|]. cbn [set_ring conns]. by rewrite Ec.
      * left. apply Hh; [by rewrite Er|]. cbn. congruence.
  - set (rt2 := set_app _ _). destruct (pushed_push (recv_sqe res) rt2) as (r & es & Hp & Hes & Hin & Hh).
    unfold submit_recv. fold (recv_sqe res). rewrite Hp.
    split; [| | |done|].
    + exists es. split; [by rewrite <-Er|]. apply uinv_ring.
      rewrite <-Ec in Hnone. exact (uinv_accepted res _ _ es ops rt1 Hi2 Hraw Hnone Hcap Hes).
    + intros fd' Hf'. left. apply Hh; [|done]. cbn [rt2 set_app set_conns rt_ring]. by rewrite Er.
    + unfold same_frame in *. done.
    + right. eexists. split_and!; [done|cbn; by rewrite Ec|apply refines_new].
Qed.

(** ** Batches *)

Lemma same_frame_refl rt : same_frame rt rt.
Proof. done. Qed.

Lemma same_frame_trans rt1 rt2 rt3 : same_frame rt1 rt2 -> same_frame rt2 rt3 -> same_frame rt1 rt3.
Proof.
  intros (? & ? & ?) (? & ? & ?). split_and!; [congruence..|]. by eapply same_site_trans.
Qed.

Lemma completed_conns fd a' q ops rt rt' fd' :
  completed fd a' q ops rt rt' -> is_Some (rt.(conns) !! fd) ->
  is_Some (rt'.(conns) !! fd') -> is_Some (rt.(conns) !! fd').
Proof.
  intros Hcd Hfd Hs. destruct (decide (fd' = fd)) as [->|Hne]; [done|].
  pose proof (cd_conns _ _ _ _ _ _ Hcd) as Hc.
  destruct a'; [destruct Hc as (c' & Hc & _)|destruct Hc as (c' & Hc & _)|];
    rewrite Hc in Hs;
    [by rewrite lookup_insert_ne in Hs by congruence|by rewrite lookup_insert_ne in Hs by congruence|
     by rewrite lookup_delete_ne in Hs by congruence].
Qed.
End Inv.
