(* ===== verification/IoUringRun.v ===== *)
(** * The io_uring runtime: batches, rounds, and what they keep *)

From S2P Require Import Prelude RustStr Http Response Request RequestSpec RequestRefine Router Asset App Conn ConnSpec ConnProps Site Syscall SysPoll EventIo EventIoProps Sim IoUring IoUringProps IoUringInv.

Section Run.
Context {R H : Type} `{RingLaws R} `{Handlers H}.

(** The completion [q] of one of the operations [l], handled. *)
Inductive did (l : list Sqe) (q : Cqe) (rt rt' : Runtime R H) : Prop :=
  | did_io s c a ops :
    s ∈ l -> is_io s = true -> q.(cqe_user_data) = s.(user_data) ->
    uinv (Some (sqe_fd s)) ops rt -> rt.(conns) !! sqe_fd s = Some c -> refines c a -> short_conn a ->
    expected (sqe_fd s) a = [s] -> on_cqe q rt = Ret rt' -> did l q rt rt'
  | did_close s :
    s ∈ l -> is_io s = false -> is_accept s = false -> q.(cqe_user_data) = s.(user_data) -> rt' = rt ->
    did l q rt rt'
  | did_accept s ops :
    s ∈ l -> is_accept s = true -> q.(cqe_user_data) = s.(user_data) ->
    ((0 <= q.(cqe_result))%Z -> rt.(conns) !! q.(cqe_result) = None) ->
    rt' = on_accept q.(cqe_result) q.(cqe_flags) rt -> accepted q.(cqe_result) ops rt rt' -> did l q rt rt'.

Inductive stepped (l : list Sqe) : list Cqe -> Runtime R H -> Runtime R H -> Prop :=
  | stepped_nil rt : stepped l [] rt rt
  | stepped_cons q cqes rt rt1 rt' : did l q rt rt1 -> stepped l cqes rt1 rt' -> stepped l (q :: cqes) rt rt'.

Lemma stepped_mono l1 l2 cqes rt rt' : l1 ⊆ l2 -> stepped l1 cqes rt rt' -> stepped l2 cqes rt rt'.
Proof.
  intros Hsub Hs. induction Hs as [rt|q cqes rt rt1 rt' Hd _ IH]; [constructor|].
  eapply stepped_cons; [|exact IH]. destruct Hd; [eapply did_io|eapply did_close|eapply did_accept];
    try done; by apply Hsub.
Qed.

(** A batch of completions handled: the buffers are recycled in its order. *)
Record handled (l : list Sqe) (cqes : list Cqe) (l' : list Sqe) (rt rt' : Runtime R H) : Prop := {
  hd_steps : stepped l cqes rt rt';
  hd_ops : exists new, inflight rt'.(rt_ring) = l' ++ new /\ uinv None (l' ++ new) rt';
  hd_held : forall fd, is_Some (rt'.(conns) !! fd) -> fd ∈ held rt'.(rt_ring);
  hd_frame : same_frame rt rt';
  hd_br : rt'.(br) = foldl (fun b q => recycled q b) rt.(br) cqes;
}.

Lemma handled_cons l1 l q cqes l' rt rt1 rt' :
  l1 ⊆ l -> did l q rt rt1 ->
  same_frame rt rt1 -> rt1.(br) = recycled q rt.(br) -> handled l1 cqes l' rt1 rt' ->
  handled l (q :: cqes) l' rt rt'.
Proof.
  intros Hsub Hd Hf Hb [Hst Ho Hh Hf' Hb']. split; [|done|done|by eapply same_frame_trans|].
  - eapply stepped_cons; [done|]. by eapply stepped_mono.
  - by rewrite Hb', Hb.
Qed.

Lemma middle_in (l1 : list Sqe) s l2 : s ∈ l1 ++ s :: l2.
Proof. set_solver. Qed.

Lemma middle_out (l1 : list Sqe) s l2 : l1 ++ l2 ⊆ l1 ++ s :: l2.
Proof. set_solver. Qed.

Lemma sqe_dispatch l1 s l2 q rt :
  uinv (R:=R) (H:=H) None (l1 ++ s :: l2) rt -> q.(cqe_user_data) = s.(user_data) ->
  unpack q.(cqe_user_data) = (sqe_op s, sqe_fd s).
Proof.
  intros Hi Hq. pose proof (u_ops _ _ _ Hi) as Ho. apply Forall_app in Ho as [_ Ho].
  apply Forall_cons in Ho as [[Hraw Hu] _]. rewrite Hq, Hu. apply unpack_pack; [|done].
  unfold sqe_op. by destruct (opcode s).
Qed.

Lemma ops_assoc (l1 : list Sqe) s l2 new : (l1 ++ s :: l2) ++ new = l1 ++ s :: (l2 ++ new).
Proof. by rewrite <-app_assoc. Qed.

(** In the middle of a batch that takes the descriptors held from [h] to [h']:
    the ring still holds those of the table and those to be accepted. *)
Definition tied (h h' : list Z) (rt : Runtime R H) : Prop :=
  (forall fd, is_Some (rt.(conns) !! fd) -> fd ∈ h) /\
  (forall fd, fd ∈ h' -> is_Some (rt.(conns) !! fd) \/ fd ∉ h -> fd ∈ held rt.(rt_ring)).

Lemma tied_io h h' fd a q ops rt rt' :
  completed fd a q ops rt rt' -> is_Some (rt.(conns) !! fd) -> tied h h' rt -> tied h h' rt'.
Proof.
  intros Hcd Hfd [Hin Hheld]. split.
  - intros fd' Hfd'. apply Hin. by eapply completed_conns.
  - intros fd' Hfd' Hor. destruct (cd_held _ _ _ _ _ _ Hcd fd') as [?|[-> Hn]]; [|done|].
    + apply Hheld; [done|]. destruct Hor as [Hs|?]; [left; by eapply completed_conns|by right].
    + exfalso. destruct Hor as [Hs|Hout]; [rewrite Hn in Hs; by destruct Hs|by apply Hout, Hin].
Qed.

Lemma tied_accept h h1 h' fd ops rt rt' :
  accepted fd ops rt rt' -> h1 ⊆ h' ->
  ((0 <= fd)%Z -> fd ∉ h /\ h1 = fd :: h) -> ((fd < 0)%Z -> h1 = h) ->
  tied h h' rt -> tied h1 h' rt'.
Proof.
  intros Hac Hsub Hpos Hneg [Hin Hheld].
  assert (h ⊆ h1) as Hh.
  { destruct (Z.lt_ge_cases fd 0) as [Hlt|Hge]; [by rewrite Hneg|].
    destruct (Hpos Hge) as [_ ->]. by apply list_subseteq_cons. }
  split.
  - intros fd' Hs. destruct (accepted_conns _ _ _ _ _ Hac Hs) as [[Hge ->]|Hold]; [|by apply Hh, Hin].
    destruct (Hpos Hge) as [_ ->]. by left.
  - intros fd' Hfd' Hor.
    assert (fd' ∈ held (rt_ring rt)) as Hhd.
    { apply Hheld; [done|]. destruct Hor as [Hs|Hout]; [|right; set_solver].
      destruct (accepted_conns _ _ _ _ _ Hac Hs) as [[Hge ->]|Hold]; [right; by apply Hpos|by left]. }
    destruct (ac_held _ _ _ _ Hac fd' Hhd) as [?|(Hge & -> & Hn)]; [done|]. exfalso.
    destruct Hor as [Hs|Hout]; [rewrite Hn in Hs; by destruct Hs|].
    destruct (Hpos Hge) as [_ Heq]. apply Hout. rewrite Heq. by left.
Qed.

(** What is left of the batch, after [rt]. *)
Definition batch (h : list Z) (l : list Sqe) (cqes : list Cqe) (h' : list Z) (l' : list Sqe) : Prop :=
  forall new (rt : Runtime R H),
    uinv None (l ++ new) rt -> inflight rt.(rt_ring) = l' ++ new -> tied h h' rt ->
    exists rt', on_cqes cqes rt = Ret rt' /\ handled l cqes l' rt rt'.

Lemma batch_io h l1 s l2 q cqes h' l' :
  is_io s = true -> q.(cqe_user_data) = s.(user_data) ->
  batch h (l1 ++ l2) cqes h' l' -> batch h (l1 ++ s :: l2) (q :: cqes) h' l'.
Proof.
  intros Hio Hq IH new rt Hi Hin Hbusy. rewrite ops_assoc in Hi.
  destruct (io_step _ _ _ _ _ Hi Hio Hq) as (c & a & rt1 & Hfd & Hr & He & Hon & Hcd).
  destruct (cd_pushed _ _ _ _ _ _ Hcd) as (es & Hin1 & Hi1).
  rewrite Hin, <-app_assoc in Hin1. rewrite <-!app_assoc, app_assoc in Hi1.
  destruct (IH _ _ Hi1 Hin1) as (rt' & Hrun & Hh).
  { eapply tied_io; [exact Hcd|by eexists|done]. }
  exists rt'. cbn [on_cqes]. rewrite Hon. cbn [mbind outcome_bind]. split; [done|].
  eapply handled_cons; [apply middle_out| |exact (cd_frame _ _ _ _ _ _ Hcd)|exact (cd_br _ _ _ _ _ _ Hcd)|exact Hh].
  destruct (io_conn _ _ _ _ Hi Hio) as (c2 & a2 & Hc2 & Hr2 & _ & Hsh2 & He2 & Hh2).
  eapply did_io; [apply middle_in|done..].
Qed.

Lemma batch_close h l1 s l2 q cqes h' l' :
  is_io s = false -> is_accept s = false -> q.(cqe_user_data) = s.(user_data) ->
  batch h (l1 ++ l2) cqes h' l' -> batch h (l1 ++ s :: l2) (q :: cqes) h' l'.
Proof.
  intros Hio Hna Hq IH new rt Hi Hin Hbusy. rewrite ops_assoc in Hi.
  pose proof (sqe_dispatch _ _ _ _ _ Hi Hq) as Hun.
  apply close_step in Hi; [|done|done]. rewrite app_assoc in Hi.
  destruct (IH _ _ Hi Hin Hbusy) as (rt' & Hrun & Hh). exists rt'.
  assert (sqe_op s = OP_CLOSE) as Hop
    by (unfold sqe_op, is_io, is_accept in *; by destruct (opcode s)).
  cbn [on_cqes]. unfold on_cqe. rewrite Hun, Hop. split; [exact Hrun|].
  eapply handled_cons; [apply middle_out| |apply same_frame_refl| |exact Hh].
  - eapply did_close; [apply middle_in|done..].
  - unfold recycled, taken_buffer. by rewrite Hun, Hop.
Qed.

Lemma batch_accept h h1 l1 s l2 q cqes h' l' :
  is_accept s = true -> q.(cqe_user_data) = s.(user_data) -> h1 ⊆ h' ->
  ((0 <= q.(cqe_result))%Z ->
    (q.(cqe_result) < 2 ^ 31)%Z /\ q.(cqe_result) ∉ h /\ h1 = q.(cqe_result) :: h) ->
  ((q.(cqe_result) < 0)%Z -> h1 = h) ->
  batch h1 (if more q.(cqe_flags) then l1 ++ s :: l2 else l1 ++ l2) cqes h' l' ->
  batch h (l1 ++ s :: l2) (q :: cqes) h' l'.
Proof.
  intros Hs Hq Hsub Hpos Hneg IH new rt Hi Hin Hbusy. rewrite ops_assoc in Hi.
  pose proof (sqe_dispatch _ _ _ _ _ Hi Hq) as Hun.
  assert (sqe_op s = OP_ACCEPT) as Hop by (unfold sqe_op, is_accept in *; by destruct (opcode s)).
  assert ((0 <= q.(cqe_result))%Z -> rt.(conns) !! q.(cqe_result) = None) as Hnone.
  { intros Hge. destruct (Hpos Hge) as (_ & Hnew & _). apply eq_None_not_Some. intros Hc. by apply Hnew, Hbusy. }
  assert (accepted q.(cqe_result) (if more q.(cqe_flags) then l1 ++ s :: l2 ++ new else l1 ++ l2 ++ new)
    rt (on_accept q.(cqe_result) q.(cqe_flags) rt)) as Hac.
  { apply on_accept_spec; [done..|]. intros Hge. by destruct (Hpos Hge) as (? & _ & _); auto. }
  assert (forall A (m : bool) (x y z : list A), (if m then x ++ z else y ++ z) = (if m then x else y) ++ z)
    as Hif by by intros ? [].
  rewrite app_assoc, <-ops_assoc, Hif in Hac.
  destruct (ac_pushed _ _ _ _ Hac) as (es & Hin' & Hi').
  rewrite <-app_assoc in Hi'. rewrite Hin, <-app_assoc in Hin'.
  destruct (IH _ _ Hi' Hin') as (rt' & Hrun & Hh).
  { eapply tied_accept; [exact Hac|done|naive_solver|done|exact Hbusy]. }
  exists rt'. cbn [on_cqes]. unfold on_cqe at 1. rewrite Hun, Hop. cbn -[on_accept on_cqes].
  split; [exact Hrun|]. eapply handled_cons; [| |exact (ac_frame _ _ _ _ Hac)| |exact Hh].
  - destruct (more _); [done|apply middle_out].
  - eapply did_accept; [apply middle_in|done..|exact Hac].
  - rewrite (ac_br _ _ _ _ Hac). unfold recycled, taken_buffer. by rewrite Hun, Hop.
Qed.

Lemma on_cqes_spec h l cqes h' l' : completes h l cqes h' l' -> batch h l cqes h' l'.
Proof.
  intros Hc. induction Hc as [h l|h l1 s l2 q cqes h' l' Hna Hq Hc IH|
    h l1 s l2 q cqes h' l' Hs Hq Hneg Hc IH|h l1 s l2 q cqes h' l' Hs Hq Hpos Hnew Hc IH].
  - intros new rt Hi Hin [Hb Hh]. exists rt. split; [done|].
    split; [constructor|by exists new|intros fd Hfd; apply Hh; [by apply Hb|by left]|done|done].
  - destruct (is_io s) eqn:Hio; [by apply batch_io|by apply batch_close].
  - eapply batch_accept; [done|done|intros fd; by eapply completes_held| |done|exact IH]. lia.
  - eapply batch_accept; [done|done|intros fd; by eapply completes_held| | |exact IH]; [|lia].
    intros _. by destruct Hpos.
Qed.

(** ** Rounds *)

(** The state between rounds. *)
Definition steady (rt : Runtime R H) : Prop :=
  uinv None (inflight rt.(rt_ring)) rt /\
  (forall fd, is_Some (rt.(conns) !! fd) -> fd ∈ held rt.(rt_ring)).

Lemma steady_ring r (rt : Runtime R H) :
  inflight r = inflight rt.(rt_ring) /\ held r = held rt.(rt_ring) -> steady rt -> steady (set_ring r rt).
Proof.
  intros [Ei Eh] [Hi Hh]. split; cbn [set_ring rt_ring conns]; [|by rewrite Eh].
  rewrite Ei. by apply uinv_ring.
Qed.

Lemma drain_cqes_spec rt cqes r :
  steady rt -> completions rt.(rt_ring) = (cqes, r) ->
  exists rt', drain_cqes rt = Ret rt' /\ steady rt' /\ same_frame rt rt' /\
    rt'.(br) = foldl (fun b q => recycled q b) rt.(br) cqes /\
    stepped (inflight rt.(rt_ring)) cqes (set_ring r rt) rt'.
Proof.
  intros [Hi Hheld] Hc. unfold drain_cqes. rewrite Hc. pose proof (completions_law _ _ _ Hc) as Hcomp.
  destruct (on_cqes_spec _ _ _ _ _ Hcomp [] (set_ring r rt)) as (rt' & Hrun & [Hst (new & Hin & Hu) Hh Hf Hb]).
  - rewrite app_nil_r. by apply uinv_ring.
  - by rewrite app_nil_r.
  - split; [exact Hheld|]. intros fd Hfd _. exact Hfd.
  - exists rt'. split_and!; try done. split; [by rewrite Hin|done].
Qed.

Lemma arm_accept_spec rt :
  steady rt -> rt.(accept_armed) = false -> steady (arm_accept rt) /\ same_frame rt (arm_accept rt) /\
    (arm_accept rt).(br) = rt.(br).
Proof.
  intros [Hi Hheld] Ha. unfold arm_accept. fold (accept_sqe (listener rt)).
  destruct (push_spec (accept_sqe (listener rt)) rt) as (r & ok & -> & Hin & _ & Hh).
  assert (forall fd, is_Some (conns rt !! fd) -> fd ∈ held r) as Hheld' by by (intros fd ?; apply Hh; [apply Hheld|]).
  destruct ok.
  2: { split_and!; [|done|done]. split; [|exact Hheld']. cbn [set_ring rt_ring]. rewrite Hin, app_nil_r. by apply uinv_ring. }
  split_and!; [|done|done]. split; [|exact Hheld']. cbn [set_armed set_ring rt_ring]. rewrite Hin.
  destruct Hi as [Hc Hi Hac Ho Hcap Hl Hf Hs].
  assert (forall fd, ops_on fd (inflight (rt_ring rt) ++ [accept_sqe (listener rt)]) =
    ops_on fd (inflight (rt_ring rt))) as Hops by (intros fd; by rewrite ops_on_app, app_nil_r).
  split; try done.
  - intros fd c Hfd. unfold waits. rewrite Hops. by apply Hc.
  - intros fd Hfd. rewrite Hops. by apply Hi.
  - by rewrite List.filter_app, Hac, Ha.
  - apply Forall_app_2; [done|]. by apply Forall_singleton.
Qed.

Lemma uring_iteration_spec rt :
  steady rt -> exists rt', iteration rt = Ret rt' /\ steady rt' /\ same_frame rt rt'.
Proof.
  intros Hi. unfold iteration.
  set (rt1 := if accept_armed rt then rt else arm_accept rt).
  assert (steady rt1 /\ same_frame rt rt1) as [Hi1 Hf1].
  { unfold rt1. destruct (accept_armed rt) eqn:Ha; [done|].
    destruct (arm_accept_spec rt Hi Ha) as (? & ? & _). done. }
  clearbody rt1. destruct (ring_submit_and_wait TICK_NS (rt_ring rt1)) as [x r] eqn:Ew.
  apply wait_keeps in Ew.
  assert (steady (set_ring r rt1)) as Hi2 by by apply steady_ring.
  assert (exists rt', drain_cqes (set_ring r rt1) = Ret rt' /\ steady rt' /\ same_frame rt rt') as Hd.
  { destruct (completions r) as [cqes r'] eqn:Ec.
    destruct (drain_cqes_spec (set_ring r rt1) cqes r' Hi2 Ec) as (rt' & -> & Hs & Hf & _ & _).
    exists rt'. split_and!; try done. by eapply same_frame_trans. }
  destruct x as [u|e]; [done|]. destruct (decide (e = Os ETIME)); [done|].
  by exists (set_ring r rt1).
Qed.

Lemma uring_iterations_spec n rt :
  steady rt -> exists rt', iterations n rt = Ret rt' /\ steady rt' /\ same_frame rt rt'.
Proof.
  revert rt. induction n as [|n IH]; intros rt Hi; cbn [iterations]; [by exists rt|].
  destruct (ring_shutdown (rt_ring rt)); [by exists rt|].
  destruct (uring_iteration_spec rt Hi) as (rt1 & -> & Hi1 & Hf1). cbn [mbind outcome_bind].
  destruct (IH rt1 Hi1) as (rt2 & -> & Hi2 & Hf2). exists rt2.
  split_and!; [done|done|by eapply same_frame_trans].
Qed.

Lemma IoUring_serve_spec n cfg l (app : App H) :
  all_fit app -> short_answers app -> raw_fd l ->
  match IoUring_serve n cfg l app with
  | Ret (Err _) => True
  | Ret (Ok rt) => steady rt /\ rt.(listener) = l /\ rt.(rt_cfg) = cfg
  | _ => False
  end.
Proof.
  intros Hfit Hs Hl. unfold IoUring_serve. destruct (check_kernel uname) as [u|e]; [|done].
  unfold Runtime_new. destruct (ring_build RING_ENTRIES) as [r|e] eqn:Er; [|done].
  destruct (BufRing_new NUM_BUFS BUF_SIZE mmap_ring) as [[b|e]| |] eqn:Eb; cbn [mbind outcome_bind].
  2: done.
  2, 3: unfold BufRing_new in Eb; by destruct mmap_ring.
  destruct (ring_register (entries b) BG_ID r) as [[v|e] r'] eqn:Eg; cbn [mbind outcome_bind]; [|done].
  set (rt := mkRuntime r' b ∅ l cfg false app).
  assert (steady rt) as Hi.
  { split; [|by intros fd [? ?]]. cbn [rt rt_ring]. rewrite (register_keeps _ _ _ _ _ Eg), (build_empty _ _ Er).
    split; try done. apply N.le_0_l. }
  destruct (arm_accept_spec rt Hi eq_refl) as (Hi1 & Hf1 & _). unfold run.
  destruct (uring_iterations_spec n _ Hi1) as (rt' & -> & Hi' & Hf'). cbn [mbind outcome_bind].
  destruct (same_frame_trans _ _ _ Hf1 Hf') as (? & ? & _). done.
Qed.

(** C22. Invariant, where responses are shorter than 4 GiB (a send takes a
    [u32]): after any number of rounds, whatever completions arrive and in
    whatever batches, the runtime has not panicked, and every connection in the
    table is live and has exactly one operation in flight, the one its state
    machine asks for (a receive, or a send of exactly its unsent bytes), or
    none, and that only where the submission queue may refuse that very
    operation after a flush; so if a flush always makes room, each has exactly
    its one; no receive or send is in flight on any other descriptor; the
    multishot accept is in flight exactly when it is marked armed; and the
    table is within the cap. *)
Theorem one_operation_in_flight n cfg l (app : App H)
    (Hfit : all_fit app) (Hs : short_answers app) (Hl : raw_fd l) :
  match IoUring_serve n cfg l app with
  | Ret (Ok rt) =>
    (forall fd c, rt.(conns) !! fd = Some c -> exists a, refines c a /\ live a /\
       (ops_on fd (inflight rt.(rt_ring)) = expected fd a \/
        (ops_on fd (inflight rt.(rt_ring)) = [] /\
         exists s, expected fd a = [s] /\ may_refuse R s))) /\
    ((forall s (r : R), ring_push s (ring_submit r) <> None) ->
     forall fd c, rt.(conns) !! fd = Some c -> exists a, refines c a /\ live a /\
       ops_on fd (inflight rt.(rt_ring)) = expected fd a) /\
    (forall fd, rt.(conns) !! fd = None -> ops_on fd (inflight rt.(rt_ring)) = []) /\
    List.filter is_accept (inflight rt.(rt_ring)) = (if rt.(accept_armed) then [accept_sqe l] else []) /\
    (N.of_nat (size rt.(conns)) <= cfg.(max_connections))%N
  | Ret (Err _) => True
  | _ => False
  end.
Proof.
  pose proof (IoUring_serve_spec n cfg l app Hfit Hs Hl) as Hspec.
  destruct (IoUring_serve n cfg l app) as [[rt|e]| |]; try done. destruct Hspec as ([Hi _] & <- & <-).
  assert (forall fd c, rt.(conns) !! fd = Some c -> exists a, refines c a /\ live a /\
       (ops_on fd (inflight rt.(rt_ring)) = expected fd a \/
        (ops_on fd (inflight rt.(rt_ring)) = [] /\
         exists s, expected fd a = [s] /\ may_refuse R s))) as Hops.
  { intros fd c Hfd. destruct (u_conn _ _ _ Hi fd c Hfd) as (_ & a & ? & ? & _ & Hw); [done|].
    exists a. split_and!; [done|done|]. by apply waits_refused. }
  split_and!; [done| | | |].
  - intros Hroom fd c Hfd. destruct (Hops fd c Hfd) as (a & ? & ? & [?|(_ & s & _ & r & Hr)]); [by exists a|].
    by apply Hroom in Hr.
  - intros fd Hfd. apply (u_idle _ _ _ Hi). by left.
  - exact (u_accept _ _ _ Hi).
  - exact (u_cap _ _ _ Hi).
Qed.

(** Functional: the completion of a receive feeds the connection exactly
    the bytes the kernel put in the buffer it names, and recycles that buffer;
    the completion of a send moves it by the bytes sent; an error, the end of
    the stream or a missing buffer drops it; and exactly one operation is
    pushed, which the queue takes or refuses, and the invariant restored. *)
Theorem completion_moves_automaton l1 s l2 q rt
    (Hi : uinv (H:=H) None (l1 ++ s :: l2) rt) (Hio : is_io s = true)
    (Hq : q.(cqe_user_data) = s.(user_data)) :
  exists c a rt' es, rt.(conns) !! sqe_fd s = Some c /\ refines c a /\ expected (sqe_fd s) a = [s] /\
    on_cqe q rt = Ret rt' /\
    match a_completed rt a q with
    | AClosed => rt'.(conns) = delete (sqe_fd s) rt.(conns)
    | _ => exists c', rt'.(conns) = <[sqe_fd s := c']> rt.(conns) /\ refines c' (a_completed rt a q)
    end /\
    rt'.(br) = recycled q rt.(br) /\
    inflight rt'.(rt_ring) = inflight rt.(rt_ring) ++ es /\ uinv None ((l1 ++ l2) ++ es) rt'.
Proof.
  destruct (io_step l1 s l2 q rt Hi Hio Hq) as (c & a & rt' & Hc & Hr & He & Hon & Hcd).
  destruct (cd_pushed _ _ _ _ _ _ Hcd) as (es & Hin & Hu). exists c, a, rt', es.
  do 4 (split; [done|]). split; [exact (cd_conns _ _ _ _ _ _ Hcd)|].
  by split; [exact (cd_br _ _ _ _ _ _ Hcd)|].
Qed.
End Run.

(** ** A ring to run the model on

    Operations in flight are a list; the script gives the completions of each
    wait, of which the illegal ones are left out; a push fails when [room] is
    used up. *)

Record USim := mkUSim {
  us_ops : list Sqe;
  us_held : list Z;
  us_room : nat;
  us_bufs : list bytes;
  us_script : list (list Cqe);
}.

Fixpoint pick (ud : N) (l : list Sqe) : option (list Sqe * Sqe * list Sqe) :=
  match l with
  | [] => None
  | s :: l =>
    if (ud =? s.(user_data))%N then Some ([], s, l)
    else '(l1, s', l2) ← pick ud l; Some (s :: l1, s', l2)
  end.

(** The flags of a completion. *)
Definition flag_more (f : N) : bool := N.testbit f 1.
Definition flag_buffer (f : N) : option N := if N.testbit f 0 then Some (N.shiftr f 16) else None.

Fixpoint replay (h : list Z) (l : list Sqe) (evs : list Cqe) : list Cqe * list Z * list Sqe :=
  match evs with
  | [] => ([], h, l)
  | q :: evs =>
    match pick q.(cqe_user_data) l with
    | None => replay h l evs
    | Some (l1, s, l2) =>
      let next h l := let '(qs, h', l') := replay h l evs in (q :: qs, h', l') in
      if negb (is_accept s) then next h (l1 ++ l2) else
      let rest := if flag_more q.(cqe_flags) then l1 ++ s :: l2 else l1 ++ l2 in
      if (q.(cqe_result) <? 0)%Z then next h rest else
      if ((q.(cqe_result) <? 2 ^ 31)%Z && negb (bool_decide (q.(cqe_result) ∈ h)))%bool
      then next (q.(cqe_result) :: h) rest
      else replay h l evs
    end
  end.

Definition closes (s : Sqe) (fd : Z) : bool := bool_decide (s.(opcode) = CloseFd fd).

#[export] Instance usim_ring : Ring USim := {
  uname := Ok (B "6.1.0");
  ring_build n := Ok (mkUSim [] [] 1 [get_root]
    [[mkCqe (pack OP_ACCEPT 3) 5 2]; [mkCqe (pack OP_RECV 5) 18 1]; [mkCqe (pack OP_SEND 5) 1000 0]]);
  mmap_ring := Ok tt;
  ring_register _ _ r := (Ok tt, r);
  ring_push s r :=
    match r.(us_room) with
    | 0 => None
    | S n => Some (mkUSim (r.(us_ops) ++ [s]) (List.filter (fun fd => negb (closes s fd)) r.(us_held)) n r.(us_bufs) r.(us_script))
    end;
  ring_submit r := mkUSim r.(us_ops) r.(us_held) 1 r.(us_bufs) r.(us_script);
  ring_submit_and_wait _ r := (Ok tt, r);
  completions r :=
    match r.(us_script) with
    | [] => ([], r)
    | evs :: rest =>
      let '(qs, h', l') := replay r.(us_held) r.(us_ops) evs in
      (qs, mkUSim l' h' r.(us_room) r.(us_bufs) rest)
    end;
  buffer r bid n := take n (nth (N.to_nat bid) r.(us_bufs) []);
  more := flag_more;
  buffer_select := flag_buffer;
  ring_now _ := 0%N;
  ring_shutdown r := match r.(us_script) with [] => true | _ => false end;
}.

Lemma pick_spec ud l l1 s l2 : pick ud l = Some (l1, s, l2) -> l = l1 ++ s :: l2 /\ ud = s.(user_data).
Proof.
  revert l1. induction l as [|x l IH]; intros l1 Hp; [done|]. cbn [pick] in Hp.
  destruct (N.eqb_spec ud (user_data x)) as [He|He]; [by injection Hp as <- <- <-|].
  destruct (pick ud l) as [[[l1' s'] l2']|]; [|done]. injection Hp as <- -> ->.
  by destruct (IH l1' eq_refl) as [-> ?].
Qed.

Lemma replay_spec h l evs qs h' l' : replay h l evs = (qs, h', l') -> completes h l qs h' l'.
Proof.
  revert h l qs h' l'. induction evs as [|q evs IH]; intros h l qs h' l' Hr; cbn [replay] in Hr.
  { injection Hr as <- <- <-. constructor. }
  destruct (pick (cqe_user_data q) l) as [[[l1 s] l2]|] eqn:Hp; [|by apply IH].
  apply pick_spec in Hp as [-> Hq]. destruct (is_accept s) eqn:Hs; cbn [negb] in Hr.
  - destruct (Z.ltb_spec (cqe_result q) 0) as [Hneg|Hpos].
    + destruct (replay _ _ evs) as [[qs' h0] l0] eqn:E in Hr. injection Hr as <- <- <-.
      eapply completes_error; [done|done|done|]. by apply IH.
    + destruct (andb _ _) eqn:Hc in Hr; [|by apply IH].
      apply andb_true_iff in Hc as [Hhi%Z.ltb_lt Hnew%negb_true_iff%bool_decide_eq_false].
      destruct (replay _ _ evs) as [[qs' h0] l0] eqn:E in Hr. injection Hr as <- <- <-.
      eapply completes_accept; [done|done|done|done|]. by apply IH.
  - destruct (replay _ _ evs) as [[qs' h0] l0] eqn:E in Hr. injection Hr as <- <- <-.
    eapply completes_op; [done|done|]. by apply IH.
Qed.

#[export] Program Instance usim_laws : RingLaws USim := {
  inflight := us_ops;
  held := us_held;
}.
Next Obligation. intros n r Hr. by injection Hr as <-. Qed.
Next Obligation. intros e g r x r' Hr. by injection Hr as <- <-. Qed.
Next Obligation. intros s r r' Hr. cbn in Hr. destruct (us_room r); [done|]. by injection Hr as <-. Qed.
Next Obligation.
  intros s r r' fd Hr. cbn in Hr. destruct (us_room r); [done|]. injection Hr as <-. cbn [us_held].
  rewrite !list_elem_of_In, filter_In, negb_true_iff. unfold closes. by rewrite bool_decide_eq_false.
Qed.
Next Obligation. done. Qed.
Next Obligation. intros t r x r' Hr. by injection Hr as <- <-. Qed.
Next Obligation.
  intros r cqes r' Hr. cbn in Hr. destruct (us_script r) as [|evs rest].
  - injection Hr as <- <-. constructor.
  - destruct (replay _ _ evs) as [[qs h'] l'] eqn:E in Hr. injection Hr as <- <-. by eapply replay_spec.
Qed.

(** ** Runs *)

Lemma sample_short : short_answers sample_app.
Proof.
  intros app [Hr Ha] r. unfold short, answer.
  assert (handle app r = site_response sample_app.(assets) r) as ->.
  { rewrite <-sample_app_handle. unfold handle. rewrite Hr.
    destruct (req_method r); try done; destruct (Router_lookup _ _ _) as [[]|]; try done;
      cbn; unfold serve_index, serve_style, serve_asset; by rewrite Ha. }
  unfold site_response. destruct (wants_keep_alive r); repeat case_decide; case_bool_decide; by vm_compute.
Qed.

Definition ring_config : ServerConfig := ServerConfig_default (E:=IoError) (Ok 4%N).

(** The table after [n] rounds of a ring on which one client asks for the
    root, and whether descriptor 5 is receiving. *)
Definition served_on_ring (o : outcome (result (Runtime USim Handler) IoError)) : bool :=
  match o with
  | Ret (Ok rt) => bool_decide (size rt.(conns) = 1) &&
      bool_decide (ops_on 5 rt.(rt_ring).(us_ops) = [recv_sqe 5])
  | _ => false
  end.

Lemma one_operation_in_flight_witness :
  exists rt, IoUring_serve 3 ring_config 3 sample_app = Ret (Ok rt) /\
    served_on_ring (Ret (Ok rt)) = true /\
    (exists c a, rt.(conns) !! 5%Z = Some c /\ refines c a /\ ops_on 5 (inflight rt.(rt_ring)) = expected 5 a) /\
    List.filter is_accept (inflight rt.(rt_ring)) = (if rt.(accept_armed) then [accept_sqe 3] else []).
Proof.
  assert (match IoUring_serve 3 ring_config 3 sample_app with
          | Ret (Ok rt) => served_on_ring (Ret (Ok rt)) && bool_decide (is_Some (rt.(conns) !! 5%Z))
          | _ => false end = true) as Hok by by vm_compute.
  pose proof (one_operation_in_flight (R:=USim) 3 ring_config 3 sample_app sample_all_fit sample_short
    ltac:(split; vm_compute; congruence)) as Hrun.
  destruct (IoUring_serve 3 ring_config 3 sample_app) as [[rt|e]| |];
    [|discriminate Hok|contradiction|contradiction].
  apply andb_true_iff in Hok as [Hok [c Hc]%bool_decide_eq_true].
  exists rt. split; [done|]. split; [exact Hok|]. split; [|exact (proj1 (proj2 (proj2 (proj2 Hrun))))].
  destruct (proj1 (proj2 Hrun) (fun s r => ltac:(discriminate)) 5%Z c Hc) as (a & Hr & _ & Hops).
  by exists c, a.
Defined.

(** After one round: a client accepted, its receive in flight; then 18 bytes
    come in buffer 0. *)
Definition recv_cqe : Cqe := mkCqe (pack OP_RECV 5) 18 1.

Lemma completion_moves_automaton_witness :
  exists rt c a rt', IoUring_serve 1 ring_config 3 sample_app = Ret (Ok rt) /\
    is_io (recv_sqe 5) = true /\ recv_cqe.(cqe_user_data) = (recv_sqe 5).(user_data) /\
    rt.(conns) !! 5%Z = Some c /\ refines c a /\ expected 5 a = [recv_sqe 5] /\
    on_cqe recv_cqe rt = Ret rt' /\ rt'.(br) = recycle 0 rt.(br).
Proof.
  assert (match IoUring_serve 1 ring_config 3 sample_app with
          | Ret (Ok rt) => bool_decide (rt.(rt_ring).(us_ops) = [accept_sqe 3; recv_sqe 5])
          | _ => false end = true) as Hok by by vm_compute.
  pose proof (IoUring_serve_spec (R:=USim) 1 ring_config 3 sample_app sample_all_fit sample_short
    ltac:(split; vm_compute; congruence)) as Hspec.
  destruct (IoUring_serve 1 ring_config 3 sample_app) as [[rt|e]| |];
    [|discriminate Hok|contradiction|contradiction].
  destruct Hspec as ([Hi _] & _ & _). apply bool_decide_eq_true in Hok.
  cbn [inflight usim_laws] in Hi. rewrite Hok in Hi.
  destruct (completion_moves_automaton [accept_sqe 3] (recv_sqe 5) [] recv_cqe rt Hi eq_refl eq_refl)
    as (c & a & rt' & es & Hc & Hr & He & Hon & _ & Hb & _).
  exists rt, c, a, rt'. repeat (split; [first [done|exact Hc|exact Hr|exact He|exact Hon]|]). exact Hb.
Defined.
