(* ===== verification/UringTrace.v ===== *)
(** * The ring serves sessions

    The io_uring model on a ring that also records what each connection
    accepted has sent and received, at the completions: the bytes of a receive
    as the kernel left them in the buffer, those of a send as its entry has
    them.  A buffer the program was handed keeps its bytes until the program
    has handled the batch; that the kernel is offered it no sooner is what
    IoUringProps shows of the buffer ring. *)

From S2P Require Import Prelude RustStr Http Response Request RequestSpec RequestRefine Router Asset App Conn ConnSpec ConnProps Site Syscall Socket SysPoll ConnTable EventIo EventIoProps Session Trace EpollTrace Sim IoUring IoUringProps IoUringInv IoUringRun.

(** ** The recording ring *)

(** With the ring as the last completions left it. *)
Record Snap (R : Type) := mkSnap { live_ring : R; filled : R }.
Arguments mkSnap {R} _ _.
Arguments live_ring {R} _.
Arguments filled {R} _.

Section Ring.
Context {R : Type} `{RingLaws R}.

Abbreviation TR := (Traced (Snap R)).

Definition set_live (r : R) (t : TR) : TR := set_tk (mkSnap r t.(tk).(filled)) t.

(** The entry a completion is of. *)
Definition op_of (q : Cqe) (l : list Sqe) : option Sqe :=
  find (fun s => (s.(user_data) =? q.(cqe_user_data))%N) l.

Definition record_cqe (r : R) (l : list Sqe) (t : TR) (q : Cqe) : TR :=
  let res := q.(cqe_result) in
  match opcode <$> op_of q l with
  | Some (AcceptMulti _) => if (res <? 0)%Z then t else begin_record res t
  | Some (Recv fd) =>
    if (res <=? 0)%Z then t else
    match buffer_select (R:=R) q.(cqe_flags) with
    | Some bid => record fd (Received (buffer r bid (Z.to_nat res))) t
    | None => t
    end
  | Some (Send fd data) => if (res <? 0)%Z then t else record fd (Sent (take (Z.to_nat res) data)) t
  | _ => t
  end.

Definition traced_completions (t : TR) : list Cqe * TR :=
  let '(cqes, r) := completions t.(tk).(live_ring) in
  (cqes, foldl (record_cqe r (inflight t.(tk).(live_ring))) (set_tk (mkSnap r r) t) cqes).

#[export] Instance traced_ring : Ring TR := {
  uname := uname (R:=R);
  ring_build n :=
    match ring_build n with Ok r => Ok (traced (mkSnap r r)) | Err e => Err e end;
  mmap_ring := mmap_ring (R:=R);
  ring_register n g t := let '(x, r) := ring_register n g t.(tk).(live_ring) in (x, set_live r t);
  ring_push s t := r ← ring_push s t.(tk).(live_ring); Some (set_live r t);
  ring_submit t := set_live (ring_submit t.(tk).(live_ring)) t;
  ring_submit_and_wait ns t :=
    let '(x, r) := ring_submit_and_wait ns t.(tk).(live_ring) in (x, set_live r t);
  completions := traced_completions;
  buffer t := buffer t.(tk).(filled);
  more := more (R:=R);
  buffer_select := buffer_select (R:=R);
  ring_now t := ring_now t.(tk).(live_ring);
  ring_shutdown t := ring_shutdown t.(tk).(live_ring);
}.

Lemma record_cqe_ring r l t q : (record_cqe r l t q).(tk) = t.(tk).
Proof.
  unfold record_cqe. destruct (opcode <$> op_of q l) as [[]|]; try done; try (by case_match).
  case_match; [done|]. by case_match.
Qed.

Lemma record_cqes_ring r l t cqes : (foldl (record_cqe r l) t cqes).(tk) = t.(tk).
Proof. revert t. induction cqes as [|q cqes IH]; intros t; [done|]. cbn [foldl]. rewrite IH. apply record_cqe_ring. Qed.

Lemma completes_traced h l cqes h' l' : completes (R:=R) h l cqes h' l' -> completes (R:=TR) h l cqes h' l'.
Proof.
  intros Hc. induction Hc; [constructor|by apply completes_op|by apply completes_error|by apply completes_accept].
Qed.

#[export] Program Instance traced_ring_laws : RingLaws TR := {
  inflight t := inflight t.(tk).(live_ring);
  held t := held t.(tk).(live_ring);
}.
Next Obligation.
  intros n t E. cbn in E. destruct (ring_build n) as [r|e] eqn:Er; [|done]. simplify_eq. cbn. by eapply build_empty.
Qed.
Next Obligation.
  intros e g t x t' E. cbn in E. destruct (ring_register e g _) as [x0 r] eqn:Er. simplify_eq. cbn. by eapply register_keeps.
Qed.
Next Obligation.
  intros s t t' E. cbn in E. destruct (ring_push s _) as [r|] eqn:Er; [|done]. simplify_eq/=. by apply push_taken.
Qed.
Next Obligation.
  intros s t t' fd E. cbn in E. destruct (ring_push s _) as [r|] eqn:Er; [|done]. injection E as <-.
  exact (push_held _ _ _ fd Er).
Qed.
Next Obligation. intros t. cbn. apply submit_keeps. Qed.
Next Obligation.
  intros ns t x t' E. cbn in E. destruct (ring_submit_and_wait ns _) as [x0 r] eqn:Er. simplify_eq. cbn. by eapply wait_keeps.
Qed.
Next Obligation.
  intros t cqes t' E. cbn in E. unfold traced_completions in E.
  destruct (completions (live_ring (tk t))) as [qs r] eqn:Er. simplify_eq. rewrite record_cqes_ring. cbn.
  by apply completes_traced, completions_law.
Qed.
End Ring.

(** ** What the handlers do to a ring is pushing *)

Section Pushing.
Context {R H : Type} `{Ring R} `{Handlers H} (P : R -> Prop).
Context (Hpush : forall s r r', P r -> ring_push s r = Some r' -> P r') (Hsubmit : forall r, P r -> P (ring_submit r)).

Abbreviation RT := (Runtime R H).

Lemma push_ring s (rt : RT) : P rt.(rt_ring) -> P (push s rt).1.(rt_ring).
Proof using Hpush Hsubmit.
  intros Hp. unfold push. destruct (ring_push s (rt_ring rt)) as [r|] eqn:E; [by eapply Hpush|].
  destruct (ring_push s (ring_submit (rt_ring rt))) as [r|] eqn:E'; cbn; [eapply Hpush; [|done]|]; by apply Hsubmit.
Qed.

Lemma drop_conn_ring fd (rt : RT) : P rt.(rt_ring) -> P (drop_conn fd rt).(rt_ring).
Proof using Hpush Hsubmit. intros Hp. unfold drop_conn. case_match; [by apply push_ring|done]. Qed.

Lemma apply_ring fuel fd act (rt rt' : RT) : apply fuel fd act rt = Ret rt' -> P rt.(rt_ring) -> P rt'.(rt_ring).
Proof using Hpush Hsubmit.
  revert act rt. induction fuel as [|fuel IH]; intros act rt; [done|]. cbn [apply].
  destruct act; [intros E Hp; injection E as <-; by apply push_ring| |intros E Hp; injection E as <-; by apply drop_conn_ring].
  unfold submit_send. destruct (conns rt !! fd) as [c|]; [|intros E; by injection E as <-].
  destruct (pending_write c) as [p| |]; [|done..]. cbn [mbind outcome_bind]. case_match.
  - destruct (on_written _ c 0) as [c1 act1]. intros E Hp. by apply (IH _ _ E).
  - intros E Hp. injection E as <-. by apply push_ring.
Qed.

Lemma on_accept_ring res flags (rt : RT) : P rt.(rt_ring) -> P (on_accept res flags rt).(rt_ring).
Proof using Hpush Hsubmit.
  intros Hp. unfold on_accept. set (rt1 := if negb _ then _ else rt).
  assert (P rt1.(rt_ring)) as Hp1 by by (unfold rt1; case_match). clearbody rt1.
  case_match; [done|]. case_match; by apply push_ring.
Qed.

Lemma on_cqe_ring q (rt rt' : RT) : on_cqe q rt = Ret rt' -> P rt.(rt_ring) -> P rt'.(rt_ring).
Proof using Hpush Hsubmit.
  unfold on_cqe. destruct (unpack _) as [op fd]. intros E Hp.
  case_match; [injection E as <-; by apply on_accept_ring|]. case_match; [|case_match].
  - unfold on_recv in E. case_match; [injection E as <-; by apply drop_conn_ring|].
    case_match; [|injection E as <-; by apply drop_conn_ring].
    case_match; [|by injection E as <-]. destruct (on_bytes _ _ _) as [[c1 act]| |]; [|done..].
    by apply (apply_ring _ _ _ _ _ E).
  - unfold on_send in E. case_match; [injection E as <-; by apply drop_conn_ring|].
    case_match; [|by injection E as <-]. destruct (on_written _ _ _) as [c1 act]. by apply (apply_ring _ _ _ _ _ E).
  - by injection E as <-.
Qed.

Lemma on_cqes_ring cqes (rt rt' : RT) : on_cqes cqes rt = Ret rt' -> P rt.(rt_ring) -> P rt'.(rt_ring).
Proof using Hpush Hsubmit.
  revert rt. induction cqes as [|q cqes IH]; intros rt E Hp; cbn [on_cqes] in E; [by injection E as <-|].
  destruct (on_cqe q rt) as [rt1| |] eqn:Eq; [|done..]. apply (IH rt1 E). by apply (on_cqe_ring q rt).
Qed.
End Pushing.

(** ** Records and connections *)

Lemma expected_same fd c a a' : refines c a -> refines c a' -> expected fd a = expected fd a' /\ (short_conn a <-> short_conn a').
Proof.
  intros H1 H2. pose proof (refines_action _ _ H1) as E1. rewrite (refines_action _ _ H2) in E1.
  destruct a, a'; try done. destruct H1 as (_ & _ & -> & _), H2 as (_ & _ & -> & _). done.
Qed.

Section Tracks.
Context {R H : Type} `{RingLaws R} `{SiteHandlers H} (app : App H).

Abbreviation TR := (Traced (Snap R)).
Abbreviation RT := (Runtime TR H).

(** Entries with the same user data are the same operation. *)
Definition known (l : list Sqe) : Prop :=
  forall s s', s ∈ l -> s' ∈ l -> s.(user_data) = s'.(user_data) -> s.(opcode) = s'.(opcode).

Lemma steady_known (rt : RT) : steady rt -> known (inflight rt.(rt_ring)).
Proof.
  intros [Hi _] s s' Hs Hs' Hud. pose proof (u_ops _ _ _ Hi) as Ho. rewrite Forall_forall in Ho.
  destruct (Ho s Hs) as [Hraw Hu], (Ho s' Hs') as [Hraw' Hu'].
  assert (unpack (user_data s) = (sqe_op s, sqe_fd s)) as E1
    by (rewrite Hu; apply unpack_pack; [unfold sqe_op; by destruct (opcode s)|done]).
  assert (unpack (user_data s') = (sqe_op s', sqe_fd s')) as E2
    by (rewrite Hu'; apply unpack_pack; [unfold sqe_op; by destruct (opcode s')|done]).
  rewrite Hud, E2 in E1. injection E1 as Eop Efd.
  destruct (is_io s) eqn:Hio.
  2: { unfold sqe_op, sqe_fd, is_io in *. destruct (opcode s), (opcode s'); by simplify_eq. }
  assert (is_io s' = true) as Hio' by (unfold sqe_op, is_io in *; destruct (opcode s), (opcode s'); done).
  assert (forall x, x ∈ inflight (rt_ring rt) -> is_io x = true -> x ∈ ops_on (sqe_fd x) (inflight (rt_ring rt))) as Hin.
  { intros x Hx Hx'. apply list_elem_of_In, filter_In. rewrite Hx', Z.eqb_refl. split; [by apply list_elem_of_In|done]. }
  pose proof (Hin s Hs Hio) as H1s. pose proof (Hin s' Hs' Hio') as H2s. rewrite Efd in H2s.
  assert (forall a, s ∈ expected (sqe_fd s) a -> s' ∈ expected (sqe_fd s) a -> opcode s = opcode s') as Hexp.
  { intros [r|u next|] Ha Hb; cbn in Ha, Hb; [..|by apply not_elem_of_nil in Ha];
      apply list_elem_of_singleton in Ha, Hb; congruence. }
  destruct (rt.(conns) !! sqe_fd s) as [c|] eqn:Hc.
  - destruct (u_conn _ _ _ Hi _ _ Hc) as (_ & a & _ & _ & _ & [He|[He _]]); [done|..]; rewrite He in H1s, H2s;
      [by apply (Hexp a)|by apply not_elem_of_nil in H1s].
  - rewrite (u_idle _ _ _ Hi) in H1s by by left. by apply not_elem_of_nil in H1s.
Qed.

Lemma op_of_known l s q :
  known l -> s ∈ l -> q.(cqe_user_data) = s.(user_data) -> opcode <$> op_of q l = Some s.(opcode).
Proof.
  intros Hk Hs Hq. unfold op_of. destruct (find _ l) as [s'|] eqn:E.
  - apply find_some in E as [Hin Hud%N.eqb_eq]. cbn. f_equal. apply Hk; [by apply list_elem_of_In|done|congruence].
  - apply find_none with (x := s) in E; [|by apply list_elem_of_In]. by apply N.eqb_neq in E.
Qed.

(** Between two completions of a batch: [t] has the records of those handled. *)
Definition tracks (r : R) (t : TR) (rt : RT) : Prop :=
  faithful app rt.(conns) t /\ same_site app rt.(rt_app) /\ rt.(rt_ring).(tk).(filled) = r.

Lemma did_io_tracks r l q s c a ops (t : TR) (rt rt' : RT) :
  known l -> s ∈ l -> is_io s = true -> q.(cqe_user_data) = s.(user_data) ->
  uinv (Some (sqe_fd s)) ops rt -> rt.(conns) !! sqe_fd s = Some c -> refines c a -> short_conn a ->
  expected (sqe_fd s) a = [s] -> on_cqe q rt = Ret rt' ->
  tracks r t rt -> tracks r (record_cqe r l t q) rt'.
Proof.
  intros Hk Hs Hio Hq Hi Hc Hr0 Hsh0 He0 Hon (Hf & Hsite & Hfill). set (fd := sqe_fd s) in *.
  destruct (fa_slots _ _ _ Hf fd c Hc) as (h & a1 & Hh & Hm & Hr).
  destruct (expected_same fd c a a1 Hr0 Hr) as [Heq Hsh]. rewrite Heq in He0. apply Hsh in Hsh0. clear a Hr0 Heq Hsh.
  assert (sqe_ok s) as [Hraw Hud].
  { split; [by eapply (u_conn _ _ _ Hi)|]. destruct a1 as [x|u next|]; [..|done]; injection He0 as Hes; by rewrite <-Hes. }
  assert (unpack q.(cqe_user_data) = (sqe_op s, fd)) as Hun.
  { rewrite Hq, Hud. apply unpack_pack; [unfold sqe_op; by destruct (opcode s)|done]. }
  destruct (io_handled fd c a1 s q ops rt Hi Hc Hr Hsh0 He0 Hun) as (rt1 & Hon1 & Hcd).
  rewrite Hon in Hon1. injection Hon1 as <-.
  assert (rt'.(rt_ring).(tk).(filled) = r) as Hfill'.
  { apply (on_cqe_ring (fun x : TR => x.(tk).(filled) = r)) in Hon; [done|..|done].
    - intros s0 x x' Hx E. cbn in E. destruct (ring_push s0 _) as [y|]; [|done]. by simplify_eq/=.
    - intros x Hx. exact Hx. }
  split_and!; [|by rewrite (cd_app _ _ _ _ _ _ Hcd)|done]. clear Hon Hfill'.
  pose proof (cd_conns _ _ _ _ _ _ Hcd) as Hcs.
  assert (forall ios (t' : TR), moves app a1 ios (a_completed rt a1 q) ->
    t'.(current) = alter (.++ ios) fd t.(current) -> t'.(past) = t.(past) -> faithful app rt'.(conns) t') as Hmoved.
  { intros ios t' Hmv Ec Ep. eapply (faithful_exchanged app rt.(conns)); [done..| |].
    - exists (a_completed rt a1 q). split; [by eapply moves_trans|].
      destruct (a_completed rt a1 q); [destruct Hcs as (c' & -> & Hr')|destruct Hcs as (c' & -> & Hr')|rewrite Hcs];
        intros c2; [rewrite lookup_insert_eq; by intros [= <-]..|by rewrite lookup_delete_eq].
    - intros fd' c2 Hne. destruct (a_completed rt a1 q); [destruct Hcs as (c' & -> & _)|destruct Hcs as (c' & -> & _)|rewrite Hcs];
        [by rewrite lookup_insert_ne..|by rewrite lookup_delete_ne]. }
  assert (a_completed rt a1 q = AClosed -> faithful app rt'.(conns) t) as Hdropped.
  { intros E. rewrite E in Hcs. eapply faithful_log; [exact Hf|done|]. rewrite Hcs. apply delete_subseteq. }
  unfold record_cqe. rewrite (op_of_known l s q Hk Hs Hq).
  destruct a1 as [x|u next|]; [..|done]; injection He0 as Hes; rewrite <-Hes; cbn [opcode recv_sqe send_sqe a_completed] in *.
  - destruct (cqe_result q <=? 0)%Z; [by apply Hdropped|]. cbn [buffer_select traced_ring] in *.
    destruct (buffer_select (cqe_flags q)) as [bid|]; [|by apply Hdropped].
    eapply Hmoved; [|done..]. cbn [buffer traced_ring]. rewrite Hfill.
    rewrite (a_bytes_same app _ _ _ Hsite). constructor. constructor.
  - destruct (cqe_result q <? 0)%Z; [by apply Hdropped|]. eapply Hmoved; [|done..]. constructor. constructor.
Qed.

Lemma did_tracks r l q (t : TR) (rt rt' : RT) :
  known l -> did l q rt rt' -> tracks r t rt -> tracks r (record_cqe r l t q) rt'.
Proof.
  intros Hk Hd Ht. destruct Hd as [s c a ops Hs Hio Hq Hi Hc Hr Hsh He Hon|s Hs Hio Hna Hq ->|s ops Hs Ha Hq Hnone Hon Hac].
  - by eapply did_io_tracks.
  - unfold record_cqe. rewrite (op_of_known l s q Hk Hs Hq). unfold is_io, is_accept in *. by destruct (opcode s).
  - destruct Ht as (Hf & Hsite & Hfill).
    assert (rt'.(rt_ring).(tk).(filled) = r) as Hfill'.
    { rewrite Hon. apply (on_accept_ring (fun x : TR => x.(tk).(filled) = r)); [..|done].
      - intros s0 x x' Hx E. cbn in E. destruct (ring_push s0 _) as [y|]; [|done]. by simplify_eq/=.
      - intros x Hx. exact Hx. }
    split_and!; [|by eapply same_site_trans; [|apply (ac_frame _ _ _ _ Hac)]|done].
    unfold record_cqe. rewrite (op_of_known l s q Hk Hs Hq). unfold is_accept in Ha. destruct (opcode s); try done.
    destruct (Z.ltb_spec (cqe_result q) 0) as [Hlt|Hge].
    + destruct (ac_conns _ _ _ _ Hac) as [->|(c & ? & _)]; [done|lia].
    + specialize (Hnone Hge). assert (begun (cqe_result q) t (begin_record (cqe_result q) t)) as Hb by done.
      destruct (ac_conns _ _ _ _ Hac) as [->|(c & _ & -> & Hr)]; [by eapply faithful_begun|by eapply faithful_insert].
Qed.

Lemma stepped_tracks r l cqes (t : TR) (rt rt' : RT) :
  known l -> stepped l cqes rt rt' -> tracks r t rt -> tracks r (foldl (record_cqe r l) t cqes) rt'.
Proof.
  intros Hk Hs. revert t. induction Hs as [rt|q cqes rt rt1 rt' Hd _ IH]; intros t Ht; [done|].
  cbn [foldl]. apply IH. by eapply did_tracks.
Qed.

(** ** Rounds *)

Definition recorded (rt : RT) : Prop := faithful app rt.(conns) rt.(rt_ring) /\ same_site app rt.(rt_app).

Lemma push_log (t : TR) s t1 t2 : same_log t t1 -> ring_push s t1 = Some t2 -> same_log t t2.
Proof. intros Hl E. cbn in E. destruct (ring_push s _) as [r|]; [|done]. injection E as <-. exact Hl. Qed.

Lemma ring_recorded t (rt : RT) : recorded rt -> same_log rt.(rt_ring) t -> recorded (set_ring t rt).
Proof. intros [Hf Hs] Hl. split; [|done]. by eapply faithful_log. Qed.

Lemma drain_recorded rt rt' : steady rt -> recorded rt -> drain_cqes rt = Ret rt' -> recorded rt'.
Proof.
  intros Hi [Hf Hs] E. destruct (completions (rt_ring rt)) as [cqes t1] eqn:Ec.
  destruct (drain_cqes_spec rt cqes t1 Hi Ec) as (rt2 & Hd & _ & _ & _ & Hst).
  rewrite E in Hd. injection Hd as <-. unfold drain_cqes in E. rewrite Ec in E.
  cbn in Ec. unfold traced_completions in Ec. destruct (completions (live_ring (tk (rt_ring rt)))) as [qs r] eqn:Er.
  injection Ec as <- Et1. set (l := inflight (live_ring (tk (rt_ring rt)))) in *.
  destruct (stepped_tracks r l qs (set_tk (mkSnap r r) (rt_ring rt)) (set_ring t1 rt) rt') as (Hf' & Hs' & _).
  - exact (steady_known rt Hi).
  - exact Hst.
  - split_and!; [by eapply faithful_log|done|]. cbn [set_ring rt_ring]. by rewrite <-Et1, record_cqes_ring.
  - split; [|done]. rewrite Et1 in Hf'. eapply faithful_log; [exact Hf'| |done].
    apply (on_cqes_ring (same_log t1)) in E; [exact E|intros s0 x x'; apply push_log|by intros x Hx|done].
Qed.

Lemma arm_accept_recorded rt : recorded rt -> recorded (arm_accept rt).
Proof.
  intros Hr. assert (recorded (push (accept_sqe rt.(listener)) rt).1) as Hp.
  { assert (push (accept_sqe (listener rt)) rt = (set_ring (push (accept_sqe (listener rt)) rt).1.(rt_ring) rt, (push (accept_sqe (listener rt)) rt).2)) as ->
      by (unfold push; by repeat case_match).
    apply ring_recorded; [done|]. apply (push_ring (same_log (rt_ring rt))); [intros s0 x x'; apply push_log|by intros x Hx|done]. }
  unfold arm_accept. fold (accept_sqe (listener rt)). destruct (push _ rt) as [rt1 []]; exact Hp.
Qed.

Lemma uring_iteration_recorded rt rt' : steady rt -> recorded rt -> iteration rt = Ret rt' -> recorded rt'.
Proof.
  intros Hi Hr. unfold iteration. set (rt1 := if accept_armed rt then rt else arm_accept rt).
  assert (steady rt1 /\ recorded rt1) as [Hi1 Hr1].
  { unfold rt1. destruct (accept_armed rt) eqn:Ha; [done|].
    split; [by apply arm_accept_spec|by apply arm_accept_recorded]. }
  clearbody rt1. destruct (ring_submit_and_wait TICK_NS (rt_ring rt1)) as [x t] eqn:Ew.
  assert (steady (set_ring t rt1) /\ recorded (set_ring t rt1)) as [Hi2 Hr2].
  { split.
    - apply wait_keeps in Ew. by apply steady_ring.
    - apply ring_recorded; [done|]. cbn in Ew. destruct (ring_submit_and_wait _ _). by simplify_eq. }
  destruct x as [u|e]; [by apply drain_recorded|].
  destruct (decide _); [by apply drain_recorded|]. intros E. by injection E as <-.
Qed.

Lemma uring_iterations_recorded n rt rt' : steady rt -> recorded rt -> iterations n rt = Ret rt' -> recorded rt'.
Proof.
  revert rt. induction n as [|n IH]; intros rt Hi Hr; cbn [iterations]; [intros E; by injection E as <-|].
  destruct (ring_shutdown (rt_ring rt)); [intros E; by injection E as <-|].
  destruct (uring_iteration_spec rt Hi) as (rt1 & E1 & Hi1 & _). rewrite E1. cbn [mbind outcome_bind].
  apply IH; [done|]. by apply (uring_iteration_recorded rt).
Qed.
End Tracks.

Section Claim.
Context {R H : Type} `{RingLaws R} `{SiteHandlers H}.

(** C11. End to end, for io_uring, where responses are shorter than 4 GiB (a
    send takes a [u32]): for any number of rounds, whatever completions arrive
    and in whatever batches, whichever operations the submission queue refuses,
    and however descriptors are reused, the runtime never panics, every client has been written a part of exactly the
    session of what was received from it, and an open connection's state
    machine holds what is missing of it. *)
Theorem uring_serves_sessions n cfg l (app : App H)
    (Hfit : fits app) (Hs : short_answers app) (Hl : raw_fd l) :
  match IoUring_serve (R:=Traced (Snap R)) n cfg l app with
  | Ret (Ok rt) => serves_sessions app rt.(conns) rt.(rt_ring)
  | Ret (Err _) => True
  | Panic | Diverge => False
  end.
Proof.
  pose proof (IoUring_serve_spec (R:=Traced (Snap R)) n cfg l app (fits_all app Hfit) Hs Hl) as Hspec.
  destruct (IoUring_serve (R:=Traced (Snap R)) n cfg l app) as [[rt|e]| |] eqn:E; try done. clear Hspec.
  apply faithful_sessions. revert E. unfold IoUring_serve. destruct (check_kernel _) as [u|e]; [|done].
  unfold Runtime_new. destruct (ring_build RING_ENTRIES) as [t|e] eqn:Er; [|done].
  destruct (BufRing_new NUM_BUFS BUF_SIZE mmap_ring) as [[b|e]| |] eqn:Eb; cbn [mbind outcome_bind]; try done.
  destruct (ring_register (entries b) BG_ID t) as [[v|e] t'] eqn:Eg; cbn [mbind outcome_bind]; [|done].
  set (rt0 := mkRuntime t' b ∅ l cfg false app).
  assert (steady rt0) as Hi.
  { split; [|by intros fd [? ?]]. cbn [rt0 rt_ring]. rewrite (register_keeps _ _ _ _ _ Eg), (build_empty _ _ Er).
    split; try done; [apply N.le_0_l|by apply fits_all]. }
  assert (recorded app rt0) as Hr0.
  { split; [|done]. cbn in Er, Eg. destruct (ring_build RING_ENTRIES) as [r|e]; [|done]. simplify_eq.
    destruct (ring_register _ _ _) as [x r']. simplify_eq. eapply faithful_log; [apply (faithful_start app)|done|done]. }
  unfold run. intros E. destruct (iterations n (arm_accept rt0)) as [rt1| |] eqn:Ei; [|done..]. injection E as ->.
  destruct (arm_accept_spec rt0 Hi eq_refl) as (Hi1 & _ & _).
  by destruct (uring_iterations_recorded app n _ _ Hi1 (arm_accept_recorded app rt0 Hr0) Ei).
Qed.
End Claim.

(** After the accept, the request and its answer. *)
Definition answered_on_ring (o : outcome (result (Runtime (Traced (Snap USim)) Handler) IoError)) : bool :=
  match o with
  | Ret (Ok rt) =>
    bool_decide (received <$> rt.(rt_ring).(current) !! 5%Z = Some [get_root]) &&
    bool_decide (sent <$> rt.(rt_ring).(current) !! 5%Z = Some (answer sample_app sample_request))
  | _ => false
  end.

Lemma uring_serves_sessions_witness :
  exists rt, IoUring_serve (R:=Traced (Snap USim)) 3 ring_config 3 sample_app = Ret (Ok rt) /\
    answered_on_ring (Ret (Ok rt)) = true /\ serves_sessions sample_app rt.(conns) rt.(rt_ring).
Proof.
  assert (answered_on_ring (IoUring_serve (R:=Traced (Snap USim)) 3 ring_config 3 sample_app) = true) as Hok by by vm_compute.
  pose proof (uring_serves_sessions (R:=USim) 3 ring_config 3 sample_app sample_app_fits sample_short
    ltac:(split; vm_compute; congruence)) as Hrun.
  destruct (IoUring_serve (R:=Traced (Snap USim)) 3 ring_config 3 sample_app) as [[rt|e]| |];
    [|discriminate Hok|contradiction|contradiction].
  exists rt. split; [done|]. split; [exact Hok|exact Hrun].
Defined.
