(* ===== verification/Forking.v ===== *)
(** * The forking model

    server/src/models/forking.rs and the SIGCHLD reaper of
    server/src/sys/signal.rs: the parent's accept loop, interrupted by the
    reaper at any point, and the children that exit at any time.  A step is one
    access to what they share; [step] is executable. *)

From S2P Require Import Prelude RustStr Http Response Request App Conn ConnSpec Syscall EventIo Blocking.

(** ** The state *)

(** Where the parent is in the body of its loop, with the stream it owns. *)
Inductive Pc :=
  | Accepting
  | Checking (stream : Z)
  | Reserving (stream : Z)
  | ForkCall (stream : Z)
  | ForkFailed (stream : Z)
  | InParent (stream : Z).

Record Forks := mkForks {
  (* the counter [LIVE_CHILDREN] *)
  live_children : N;
  pc : Pc;
  f_metrics : Metrics;
  (* the kernel: this process's connections, its children, its signals *)
  streams : list Z;
  running : list Z;
  zombies : list Z;
  sigchld_pending : bool;
  in_handler : bool;
}.

Inductive Label :=
  | AcceptOk (stream : Z)
  | AcceptErr
  | CheckCap
  | Reserve
  | ForkOk (pid : Z)
  | ForkErr
  | Release
  | ParentDrop
  (* a child exits; the reaper starts, reaps one, finds none *)
  | ChildExit (pid : Z)
  | Interrupt
  | Reap
  | ReapDone.

#[export] Instance fork_label_eq_dec : EqDecision Label.
Proof. solve_decision. Defined.

(** [AtomicUsize::fetch_add], [fetch_sub] of 1. *)
Definition usize_add1 (n : N) : N := ((n + 1) mod 2 ^ 64)%N.
Definition usize_sub1 (n : N) : N := ((n + 2 ^ 64 - 1) mod 2 ^ 64)%N.

Definition Forks_new : Forks := mkForks 0 Accepting Metrics_new [] [] [] false false.

Definition set_pc (p : Pc) (s : Forks) : Forks :=
  mkForks s.(live_children) p s.(f_metrics) s.(streams) s.(running) s.(zombies) s.(sigchld_pending)
    s.(in_handler).
Definition set_live (n : N) (s : Forks) : Forks :=
  mkForks n s.(pc) s.(f_metrics) s.(streams) s.(running) s.(zombies) s.(sigchld_pending) s.(in_handler).
Definition set_metrics (m : Metrics) (s : Forks) : Forks :=
  mkForks s.(live_children) s.(pc) m s.(streams) s.(running) s.(zombies) s.(sigchld_pending)
    s.(in_handler).
Definition set_streams (l : list Z) (s : Forks) : Forks :=
  mkForks s.(live_children) s.(pc) s.(f_metrics) l s.(running) s.(zombies) s.(sigchld_pending)
    s.(in_handler).
Definition set_children (r z : list Z) (s : Forks) : Forks :=
  mkForks s.(live_children) s.(pc) s.(f_metrics) s.(streams) r z s.(sigchld_pending) s.(in_handler).
Definition set_signals (p h : bool) (s : Forks) : Forks :=
  mkForks s.(live_children) s.(pc) s.(f_metrics) s.(streams) s.(running) s.(zombies) p h.

(** [drop(stream)] *)
Definition drop_stream (stream : Z) (s : Forks) : Forks :=
  set_streams (List.filter (fun fd => negb (fd =? stream)%Z) s.(streams)) s.

(** ** The parent *)

Definition parent_step (cfg : ServerConfig) (l : Label) (s : Forks) : option Forks :=
  match l, s.(pc) with
  | AcceptOk stream, Accepting =>
    if decide (stream ∈ s.(streams)) then None else
    let s := set_streams (stream :: s.(streams)) s in
    Some (set_pc (Checking stream) (set_metrics (inc_connections s.(f_metrics)) s))
  | AcceptErr, Accepting => Some s
  | CheckCap, Checking stream =>
    if (cfg.(max_connections) <=? s.(live_children))%N then
      let s := set_metrics (inc_errors s.(f_metrics)) s in
      Some (set_pc Accepting (drop_stream stream s))
    else Some (set_pc (Reserving stream) s)
  | Reserve, Reserving stream =>
    Some (set_pc (ForkCall stream) (set_live (usize_add1 s.(live_children)) s))
  | ForkErr, ForkCall stream => Some (set_pc (ForkFailed stream) s)
  | ForkOk pid, ForkCall stream =>
    if decide (pid ∈ s.(running) ++ s.(zombies)) then None else
    Some (set_pc (InParent stream) (set_children (pid :: s.(running)) s.(zombies) s))
  | Release, ForkFailed stream =>
    let s := set_live (usize_sub1 s.(live_children)) s in
    let s := set_metrics (inc_errors s.(f_metrics)) s in
    Some (set_pc Accepting (drop_stream stream s))
  | ParentDrop, InParent stream => Some (set_pc Accepting (drop_stream stream s))
  | _, _ => None
  end.

(** ** The reaper *)

(** [sigchld_handler]: SIGCHLD is blocked while it runs.  [waitpid] with
    [WNOHANG] gives a zombie if there is one, and 0 or -1 otherwise. *)
Definition handler_step (l : Label) (s : Forks) : option Forks :=
  match l, s.(zombies) with
  | Reap, pid :: zs =>
    Some (set_live (usize_sub1 s.(live_children)) (set_children s.(running) zs s))
  | ReapDone, [] => Some (set_signals s.(sigchld_pending) false s)
  | _, _ => None
  end.

(** A step: a child can exit at any time and raises SIGCHLD; the handler
    starts between any two steps of the parent, which waits for it. *)
Definition step (cfg : ServerConfig) (l : Label) (s : Forks) : option Forks :=
  match l with
  | ChildExit pid =>
    if decide (pid ∈ s.(running)) then
      Some (set_signals true s.(in_handler)
        (set_children (List.filter (fun p => negb (p =? pid)%Z) s.(running)) (s.(zombies) ++ [pid]) s))
    else None
  | Interrupt =>
    if s.(sigchld_pending) && negb s.(in_handler) then Some (set_signals false true s) else None
  | Reap | ReapDone => if s.(in_handler) then handler_step l s else None
  | _ => if s.(in_handler) then None else parent_step cfg l s
  end.

Fixpoint steps (cfg : ServerConfig) (ls : list Label) (s : Forks) : option Forks :=
  match ls with
  | [] => Some s
  | l :: ls => s ← step cfg l s; steps cfg ls s
  end.

(** ** The child *)

(** The child drops its listener, serves, and exits, whatever the result. *)
Definition child {K H} `{Kernel K} `{Handlers H} (fuel : nat) (stream listener_fd : Z) (cfg : ServerConfig)
    (w : World K H) : outcome (World K H) :=
  '(w, _) ← serve_connection fuel stream cfg (set_kern (k_close listener_fd w.(kern)) w);
  Ret w.

(** ** The invariant *)

Definition reserved (p : Pc) : nat :=
  match p with ForkCall _ | ForkFailed _ => 1 | _ => 0 end.

Definition owned (p : Pc) : list Z :=
  match p with
  | Accepting => []
  | Checking s | Reserving s | ForkCall s | ForkFailed s | InParent s => [s]
  end.

Record forks_inv (cfg : ServerConfig) (s : Forks) : Prop := {
  fi_live : s.(live_children) = N.of_nat (length s.(running) + length s.(zombies) + reserved s.(pc));
  fi_cap : (s.(live_children) <= cfg.(max_connections))%N;
  fi_room : match s.(pc) with Reserving _ => s.(live_children) < cfg.(max_connections) | _ => True end%N;
  fi_nodup : NoDup s.(running);
  fi_streams : s.(streams) = owned s.(pc);
  fi_signal : s.(zombies) <> [] -> s.(sigchld_pending) = true \/ s.(in_handler) = true;
}.

Lemma usize_add1_small n : (n < 2 ^ 64 - 1)%N -> usize_add1 n = (n + 1)%N.
Proof. intros Hn. apply N.mod_small. lia. Qed.

Lemma usize_sub1_pos n : (0 < n < 2 ^ 64)%N -> usize_sub1 n = (n - 1)%N.
Proof. intros Hn. symmetry. apply (N.mod_unique _ _ 1); lia. Qed.

Lemma drop_owned stream (l : list Z) : l = [stream] -> List.filter (fun fd => negb (fd =? stream)%Z) l = [].
Proof. intros ->. cbn. by rewrite Z.eqb_refl. Qed.

Lemma filter_out_length pid (l : list Z) :
  NoDup l -> pid ∈ l -> S (length (List.filter (fun p => negb (p =? pid)%Z) l)) = length l.
Proof.
  intros Hnd. induction Hnd as [|x l Hx Hnd IH]; [by intros ?%elem_of_nil|].
  intros [->|Hin]%elem_of_cons; cbn [List.filter].
  - rewrite Z.eqb_refl. cbn [negb length]. f_equal.
    clear IH. induction l as [|y l IH]; [done|]. cbn [List.filter].
    apply not_elem_of_cons in Hx as [Hne Hx]. apply NoDup_cons in Hnd as [_ Hnd].
    rewrite (proj2 (Z.eqb_neq _ _)) by congruence. cbn [negb length]. f_equal. by apply IH.
  - rewrite (proj2 (Z.eqb_neq _ _)) by (intros ->; done). cbn [negb length]. f_equal. by apply IH.
Qed.

Lemma filter_nodup (f : Z -> bool) l : NoDup l -> NoDup (List.filter f l).
Proof.
  intros Hnd%NoDup_ListNoDup. apply NoDup_ListNoDup. by apply List.NoDup_filter.
Qed.
