(* ===== verification/ForkingProps.v ===== *)
(** * Properties of the forking model *)

From S2P Require Import Prelude RustStr Http Response Request App Conn ConnSpec Syscall EventIo Blocking Forking.

Section Props.
Context (cfg : ServerConfig) (Hcap : (cfg.(max_connections) <= usize_max)%N).

Lemma forks_new_inv : forks_inv cfg Forks_new.
Proof using Type. split; try done; [apply N.le_0_l|constructor]. Qed.

Lemma forks_parent_inv l s s' : forks_inv cfg s -> parent_step cfg l s = Some s' -> forks_inv cfg s'.
Proof using Hcap.
  intros [Hlive Hc Hroom Hnd Hst Hsig] Hs. unfold usize_max in Hcap.
  destruct l, (pc s) eqn:Hpc; try done; cbn [parent_step] in Hs; rewrite Hpc in Hs; try done;
    cbn [reserved owned] in *.
  - case_decide; [done|]. injection Hs as <-. split; try done; cbn. by rewrite Hst.
  - injection Hs as <-. split; rewrite ?Hpc; try done.
  - destruct (N.leb_spec (max_connections cfg) (live_children s)) as [Hle|Hlt]; injection Hs as <-.
    + split; try done; cbn -[List.filter]. by apply drop_owned.
    + by split.
  - injection Hs as <-. split; try done; cbn; rewrite usize_add1_small by lia; lia.
  - case_decide; [done|]. injection Hs as <-. split; try done; cbn; try lia.
    apply NoDup_cons. split; [|done]. intros Hin. by apply H, elem_of_app; left.
  - injection Hs as <-. by split.
  - injection Hs as <-. split; try done; cbn -[List.filter]; try rewrite usize_sub1_pos by lia; try lia.
    by apply drop_owned.
  - injection Hs as <-. split; try done; cbn -[List.filter]; try lia. by apply drop_owned.
Qed.

Lemma forks_handler_inv l s s' :
  in_handler s = true -> forks_inv cfg s -> handler_step l s = Some s' -> forks_inv cfg s'.
Proof using Hcap.
  intros Hh [Hlive Hc Hroom Hnd Hst Hsig] Hs. unfold usize_max in Hcap.
  destruct l; try done; cbn [handler_step] in Hs; destruct (zombies s) as [|pid zs] eqn:Hz; try done;
    injection Hs as <-.
  - simpl in Hlive. split; cbn; try done; try (rewrite usize_sub1_pos by lia); try lia; [|auto].
    destruct (pc s); try done. lia.
  - split; cbn; rewrite ?Hz; try done.
Qed.

Lemma forks_step_inv l s s' : forks_inv cfg s -> step cfg l s = Some s' -> forks_inv cfg s'.
Proof using Hcap.
  intros Hi Hs. destruct l; cbn [step] in Hs;
    try (destruct (in_handler s) eqn:Hh; [done|]; by eapply forks_parent_inv);
    try (destruct (in_handler s) eqn:Hh; [|done]; by eapply forks_handler_inv).
  - case_decide as Hin; [|done]. injection Hs as <-. destruct Hi as [Hlive Hc Hroom Hnd Hst Hsig].
    pose proof (filter_out_length _ _ Hnd Hin) as Hlen.
    split; cbn -[List.filter]; try done; [|by apply filter_nodup|by left].
    rewrite Hlive, length_app. simpl. f_equal. lia.
  - destruct (sigchld_pending s && negb (in_handler s)); [|done]. injection Hs as <-.
    destruct Hi as [Hlive Hc Hroom Hnd Hst Hsig]. split; try done. by right.
Qed.

Lemma forks_steps_inv ls s s' : forks_inv cfg s -> steps cfg ls s = Some s' -> forks_inv cfg s'.
Proof using Hcap.
  revert s. induction ls as [|l ls IH]; intros s Hi Hs; cbn [steps] in Hs; [by injection Hs as <-|].
  destruct (step cfg l s) as [s1|] eqn:E; [|done]. cbn [mbind option_bind] in Hs.
  apply (IH s1); [by eapply forks_step_inv|done].
Qed.

(** C35. Invariant: under every interleaving of the parent, the exits of its
    children and the reaper, the counter is exactly the children not yet
    reaped plus the slot reserved for a fork under way: it never underflows,
    and there are never more than [max_connections] children, zombies
    included.  The parent holds no stream but the one it is handling, and a
    zombie always has a SIGCHLD pending or a reaper at work. *)
Theorem children_capped_and_counted ls s (Hs : steps cfg ls Forks_new = Some s) :
  s.(live_children) = N.of_nat (length s.(running) + length s.(zombies) + reserved s.(pc)) /\
  (N.of_nat (length s.(running) + length s.(zombies)) <= cfg.(max_connections))%N /\
  s.(streams) = owned s.(pc) /\
  (s.(zombies) <> [] -> s.(sigchld_pending) = true \/ s.(in_handler) = true).
Proof using Hcap.
  destruct (forks_steps_inv ls _ s forks_new_inv Hs) as [Hlive Hc _ _ Hst Hsig].
  split_and!; [done|lia|done|done].
Qed.

Lemma reap_all zs s :
  in_handler s = true -> zombies s = zs -> forks_inv cfg s ->
  exists s', steps cfg (replicate (length zs) Reap ++ [ReapDone]) s = Some s' /\
    zombies s' = [] /\ running s' = running s /\ pc s' = pc s /\ in_handler s' = false.
Proof using Hcap.
  revert s. induction zs as [|pid zs IH]; intros s Hh Hz Hi.
  - cbn [length replicate Datatypes.app steps step handler_step]. rewrite Hh, Hz.
    by eexists.
  - cbn [length replicate Datatypes.app steps step handler_step]. rewrite Hh, Hz.
    cbn [mbind option_bind].
    refine (IH (set_live (usize_sub1 s.(live_children)) (set_children s.(running) zs s)) Hh eq_refl _).
    refine (forks_handler_inv Reap s _ Hh Hi _). cbn [handler_step]. by rewrite Hz.
Qed.

(** Liveness: a child that has exited is always reaped: from any
    reachable state with a zombie the reaper, on its own, starts if it is not
    running and ends with no zombie left, whatever number of exits one SIGCHLD
    stood for, and the slots of all of them given back. *)
Theorem zombies_are_reaped ls s (Hs : steps cfg ls Forks_new = Some s) (Hz : s.(zombies) <> []) :
  exists s', steps cfg ((if s.(in_handler) then [] else [Interrupt]) ++
      replicate (length s.(zombies)) Reap ++ [ReapDone]) s = Some s' /\
    s'.(zombies) = [] /\ s'.(in_handler) = false /\ s'.(pc) = s.(pc) /\
    s'.(live_children) = N.of_nat (length s.(running) + reserved s.(pc)).
Proof using Hcap.
  pose proof (forks_steps_inv ls _ s forks_new_inv Hs) as Hi.
  assert (forall s1, in_handler s1 = true -> zombies s1 = zombies s -> running s1 = running s ->
    pc s1 = pc s -> forks_inv cfg s1 ->
    exists s', steps cfg (replicate (length s.(zombies)) Reap ++ [ReapDone]) s1 = Some s' /\
      s'.(zombies) = [] /\ s'.(in_handler) = false /\ s'.(pc) = s.(pc) /\
      s'.(live_children) = N.of_nat (length s.(running) + reserved s.(pc))) as Hreap.
  { intros s1 Hh Hz1 Hr1 Hp1 Hi1. destruct (reap_all _ s1 Hh Hz1 Hi1) as (s' & Hrun & Hz' & Hr' & Hp' & Hh').
    exists s'. split_and!; [done|done|done|congruence|].
    rewrite (fi_live _ _ (forks_steps_inv _ _ _ Hi1 Hrun)), Hz', Hr', Hp', Hr1, Hp1. simpl. f_equal. lia. }
  destruct (in_handler s) eqn:Hh; cbn [Datatypes.app]; [by apply Hreap|].
  destruct (fi_signal _ _ Hi Hz) as [Hp|Hp]; [|congruence].
  cbn [steps step]. rewrite Hp, Hh. cbn [andb negb mbind option_bind].
  apply Hreap; try done. refine (forks_step_inv Interrupt s _ Hi _). cbn [step]. by rewrite Hp, Hh.
Qed.
End Props.

(** ** A run *)

(** Two clients, and the first child's exit before the second is forked. *)
Definition fork_run : list Label :=
  [AcceptOk 7; CheckCap; Reserve; ForkOk 100; ChildExit 100; ParentDrop; AcceptOk 8; CheckCap; Reserve;
   Interrupt; Reap; ReapDone; ForkOk 101; ParentDrop; ChildExit 101].

Definition fork_config : ServerConfig := ServerConfig_default (E:=IoError) (Ok 4%N).

Lemma children_capped_and_counted_witness :
  exists s, steps fork_config fork_run Forks_new = Some s /\ s.(zombies) = [101%Z] /\
    (N.of_nat (length s.(running) + length s.(zombies)) <= 1024)%N.
Proof.
  assert ((fork_config.(max_connections) <= usize_max)%N) as Hcap by (vm_compute; congruence).
  assert (match steps fork_config fork_run Forks_new with
          | Some s => bool_decide (s.(zombies) = [101%Z]) | None => false end = true) as Hok by by vm_compute.
  pose proof (children_capped_and_counted fork_config Hcap fork_run) as Hall.
  destruct (steps fork_config fork_run Forks_new) as [s|]; [|discriminate Hok].
  exists s. split; [reflexivity|]. split; [by apply bool_decide_eq_true in Hok|].
  exact (proj1 (proj2 (Hall s eq_refl))).
Defined.

Lemma zombies_are_reaped_witness :
  exists s s', steps fork_config fork_run Forks_new = Some s /\ s.(zombies) <> [] /\
    steps fork_config ((if s.(in_handler) then [] else [Interrupt]) ++
      replicate (length s.(zombies)) Reap ++ [ReapDone]) s = Some s' /\ s'.(zombies) = [].
Proof.
  assert ((fork_config.(max_connections) <= usize_max)%N) as Hcap by (vm_compute; congruence).
  assert (match steps fork_config fork_run Forks_new with
          | Some s => bool_decide (s.(zombies) = [101%Z]) | None => false end = true) as Hok by by vm_compute.
  pose proof (zombies_are_reaped fork_config Hcap fork_run) as Hall.
  destruct (steps fork_config fork_run Forks_new) as [s|]; [|discriminate Hok].
  apply bool_decide_eq_true in Hok. assert (s.(zombies) <> []) as Hz by (by rewrite Hok).
  destruct (Hall s eq_refl Hz) as (s' & Hrun & Hz' & _). exists s, s'.
  split; [reflexivity|]. split; [exact Hz|]. split; [exact Hrun|exact Hz'].
Defined.
