(* ===== verification/SimProc.v ===== *)
(** * A kernel of processes to run the models on

    An instance of [Process.Processes] with its laws: every process has a table
    of descriptors, which are numbers of open files, and [fork] copies it.
    Connections wait in one backlog, what the peer of the n-th file sends is in
    a queue of chunks, an empty one the end, and writes always succeed.  There is no epoll and no
    poll. *)

From S2P Require Import Prelude RustStr Http Response Request Router Asset App Syscall Sim Process.

Record Host := mkHost {
  host_current : Z;
  host_procs : gmap Z (gmap Z Z);
  host_files : Z;
  host_backlog : nat;
  host_in : list (Z * bytes);
}.

Definition host_table (p : Z) (k : Host) : gmap Z Z := default ∅ (k.(host_procs) !! p).

Definition set_procs (m : gmap Z (gmap Z Z)) (k : Host) : Host :=
  mkHost k.(host_current) m k.(host_files) k.(host_backlog) k.(host_in).

Definition host_accept (k : Host) : result Z IoError * Host :=
  match k.(host_procs) !! k.(host_current), k.(host_backlog) with
  | Some t, S n =>
    let fd := next_fd (dom t) in
    (Ok fd, mkHost k.(host_current) (<[k.(host_current) := <[fd := k.(host_files)]> t]> k.(host_procs)) (k.(host_files) + 1) n k.(host_in))
  | _, _ => (Err (Os EAGAIN), k)
  end.

Definition host_read (fd : Z) (n : N) (k : Host) : result bytes IoError * Host :=
  match host_table k.(host_current) k !! fd with
  | Some file =>
    match dequeue file k.(host_in) with
    | Some (b, q) => (Ok (take (N.to_nat n) b), mkHost k.(host_current) k.(host_procs) k.(host_files) k.(host_backlog) q)
    | None => (Err (Os EAGAIN), k)
    end
  | None => (Err (Os 9), k)
  end.

Definition host_close (fd : Z) (k : Host) : Host := set_procs (alter (delete fd) k.(host_current) k.(host_procs)) k.

#[export] Instance host_kernel : Kernel Host := {
  last_errno _ := EAGAIN;
  now _ := 0%N;
  shutdown _ := false;
  k_fcntl_getfl _ k := (2%Z, k);
  k_fcntl_setfl _ _ k := (0%Z, k);
  k_accept4 _ k := ((-1)%Z, mkStorage 2 0 0 0 [] 0, k);
  k_close := host_close;
  k_epoll_create1 k := ((-1)%Z, k);
  k_epoll_ctl _ _ _ _ k := ((-1)%Z, k);
  k_epoll_wait _ _ _ k := (0%Z, [], k);
  k_poll _ _ k := (0%Z, [], k);
  k_read := host_read;
  k_write _ p k := (Ok (length p), k);
  k_accept _ := host_accept;
  k_set_read_timeout _ _ k := (Ok tt, k);
  k_set_write_timeout _ _ k := (Ok tt, k);
  budget k := k.(host_backlog) + length k.(host_in);
}.

#[export] Instance host_processes : Processes Host := {
  current := host_current;
  run_as p k := mkHost p k.(host_procs) k.(host_files) k.(host_backlog) k.(host_in);
  k_fork k :=
    match k.(host_procs) !! k.(host_current) with
    | Some t => let pid := next_fd (dom k.(host_procs)) in (pid, set_procs (<[pid := t]> k.(host_procs)) k)
    | None => ((-1)%Z, k)
    end;
  k_exit k := set_procs (alter (fun _ => ∅) k.(host_current) k.(host_procs)) k;
  k_reap pid k := set_procs (delete pid k.(host_procs)) k;
}.

(** ** Its laws *)

Lemma host_table_alter p (f : gmap Z Z -> gmap Z Z) q k :
  q <> p -> host_table q (set_procs (alter f p k.(host_procs)) k) = host_table q k.
Proof. intros Hq. unfold host_table. cbn. by rewrite lookup_alter_ne. Qed.

Lemma host_accept_inv k r k' :
  host_accept k = (r, k') ->
  r = Err (Os EAGAIN) /\ k' = k \/
  exists t fd, r = Ok fd /\ k.(host_procs) !! k.(host_current) = Some t /\ fd = next_fd (dom t) /\
    k'.(host_current) = k.(host_current) /\ k'.(host_in) = k.(host_in) /\
    k'.(host_procs) = <[k.(host_current) := <[fd := k.(host_files)]> t]> k.(host_procs).
Proof.
  unfold host_accept. intros E. destruct (host_procs k !! host_current k) as [t|]; [|simplify_eq; by left].
  destruct (host_backlog k) as [|n]; simplify_eq; [by left|]. right. by exists t, (next_fd (dom t)).
Qed.

Lemma host_read_inv fd n k r k' :
  host_read fd n k = (r, k') ->
  k'.(host_current) = k.(host_current) /\ k'.(host_procs) = k.(host_procs) /\ k'.(host_backlog) = k.(host_backlog) /\
  ((k' = k /\ exists e, r = Err e) \/
   exists file b, host_table k.(host_current) k !! fd = Some file /\ dequeue file k.(host_in) = Some (b, k'.(host_in)) /\
     r = Ok (take (N.to_nat n) b)).
Proof.
  unfold host_read. intros E. destruct (host_table (host_current k) k !! fd) as [file|] eqn:Ef.
  - destruct (dequeue file (host_in k)) as [[b q]|] eqn:Ed; simplify_eq/=.
    + split_and!; [done..|]. right. by exists file, b.
    + split_and!; [done..|]. left. split; [done|by eexists].
  - simplify_eq. split_and!; [done..|]. left. split; [done|by eexists].
Qed.

#[export] Program Instance host_laws : KernelLaws Host := {
  opened k := dom (host_table k.(host_current) k);
  interests _ _ := ∅;
}.
Next Obligation. intros l k fd a k' E Hfd. cbn in E. by simplify_eq. Qed.
Next Obligation. intros l k a k' E. cbn in E. by simplify_eq. Qed.
Next Obligation. intros fd k r k' E. cbn in E. by simplify_eq. Qed.
Next Obligation. intros fd fl k r k' E. cbn in E. by simplify_eq. Qed.
Next Obligation.
  intros fd k. cbn. split_and!; [|intros; by rewrite delete_empty|done]. unfold host_table. cbn.
  destruct (host_procs k !! host_current k) as [t|] eqn:Et.
  - rewrite lookup_alter_eq, Et. cbn. apply dom_delete_L.
  - rewrite lookup_alter_eq, Et. cbn. set_solver.
Qed.
Next Obligation. intros k ep k' E Hep. cbn in E. by simplify_eq. Qed.
Next Obligation. intros k k' E. cbn in E. by simplify_eq. Qed.
Next Obligation. intros ep op fd ev k r k' E. cbn in E. simplify_eq. split_and!; [done..|]. destruct op; cbn; by rewrite ?delete_empty. Qed.
Next Obligation. intros ep cap t k r evs k' E. cbn in E. by simplify_eq. Qed.
Next Obligation. intros fds t k r revs k' E. cbn in E. by simplify_eq. Qed.
Next Obligation.
  intros fd n k r k' E. cbn in E. destruct (host_read_inv _ _ _ _ _ E) as (Hc & Hp & Hb & Hr). unfold host_table.
  rewrite Hc, Hp. split_and!; [done..|]. cbn. destruct Hr as [[-> _]|(file & b & _ & Hd & _)]; [done|].
  apply dequeue_length in Hd. lia.
Qed.
Next Obligation.
  intros fd n k b bs k' E. cbn in E. destruct (host_read_inv _ _ _ _ _ E) as (Hc & Hp & Hb & Hr). cbn.
  destruct Hr as [[_ [e ?]]|(file & c & _ & Hd & Hc')]; [done|]. apply dequeue_length in Hd as [_ Hd].
  destruct c; [by rewrite take_nil in Hc'|]. specialize (Hd ltac:(done)). lia.
Qed.
Next Obligation. intros fd bs k r k' E. cbn in E. by simplify_eq. Qed.
Next Obligation. intros fd b bs k n k' E. cbn in E. simplify_eq. lia. Qed.
Next Obligation.
  intros l k r k' E. cbn in E.
  destruct (host_accept_inv _ _ _ E) as [[-> ->]|(t & fd & -> & Ht & -> & Hc & _ & Hp)]; [done|].
  unfold host_table. rewrite Hc, Hp, Ht, lookup_insert_eq. cbn. split; [apply next_fd_new|apply dom_insert_L].
Qed.
Next Obligation. intros fd t k r k' E. cbn in E. by simplify_eq. Qed.
Next Obligation. intros fd t k r k' E. cbn in E. by simplify_eq. Qed.

#[export] Program Instance host_process_laws : ProcessLaws Host := {
  table p k := dom (host_table p k);
  procs k := dom k.(host_procs);
}.
Next Obligation. done. Qed.
Next Obligation. done. Qed.
Next Obligation.
  intros k pid k' E Hpid. cbn in E. destruct (host_procs k !! host_current k) as [t|] eqn:Et; [|by simplify_eq].
  simplify_eq. unfold host_table. cbn. split_and!.
  - apply next_fd_new.
  - apply dom_insert_L.
  - done.
  - by rewrite lookup_insert_eq, Et.
  - intros q Hq. by rewrite lookup_insert_ne.
Qed.
Next Obligation.
  intros k k' E. cbn in E. destruct (host_procs k !! host_current k) as [t|]; [|by simplify_eq].
  injection E as E _. pose proof (next_fd_pos (dom (host_procs k))). lia.
Qed.
Next Obligation.
  intros k. cbn. split; [apply dom_alter_L|]. intros q Hq. f_equal. by apply host_table_alter.
Qed.
Next Obligation.
  intros pid k. cbn. split; [apply dom_delete_L|]. intros q Hq. unfold host_table. cbn. by rewrite lookup_delete_ne.
Qed.
Next Obligation.
  intros fd n k r k' E. cbn in E. destruct (host_read_inv _ _ _ _ _ E) as (Hc & Hp & _).
  split_and!; cbn; unfold host_table; by rewrite ?Hp.
Qed.
Next Obligation. intros fd bs k r k' E. cbn in E. by simplify_eq. Qed.
Next Obligation.
  intros l k r k' E. cbn in E.
  destruct (host_accept_inv _ _ _ E) as [[-> ->]|(t & fd & -> & Ht & -> & Hc & _ & Hp)]; [done|].
  split_and!; cbn; unfold host_table; rewrite ?Hp; [|done|].
  - rewrite dom_insert_L. apply elem_of_dom_2 in Ht. set_solver.
  - intros q Hq. by rewrite lookup_insert_ne.
Qed.
Next Obligation.
  intros fd k. split_and!; cbn; [apply dom_alter_L|done|]. intros q Hq. f_equal. by apply host_table_alter.
Qed.
Next Obligation. intros fd t k r k' E. cbn in E. by simplify_eq. Qed.
Next Obligation. intros fd t k r k' E. cbn in E. by simplify_eq. Qed.
