(* ===== verification/ForkServing.v ===== *)
(** * The forking server at work

    Forking, whose steps are those of what the parent and the reaper share,
    with processes that have descriptors of their own: the parent accepts,
    forks and closes its copies, and every child closes the listener and runs
    [serve_connection] one system call at a time, in any order with the parent,
    the signals and the other children. *)

From S2P Require Import Prelude RustStr Http Response Request RequestSpec RequestRefine Router Asset App Conn ConnSpec ConnProps Site Syscall Socket ConnTable EventIo EventIoProps Session Trace Blocking BlockingProps Serving ServingProps Process Forking ForkingProps.

(** Where a child is: back from [fork], before [close(listener_fd)]; in
    [serve_connection]; and after it, before [_exit]. *)
Inductive Place := Born | AtWork (t : Task) | Leaving.

(** A child, with the stream it was forked for and its copy of the
    application. *)
Record Kid (H : Type) := mkKid { kid_stream : Z; place : Place; kid_app : App H }.
Arguments mkKid {H} _ _ _.
Arguments kid_stream {H} _.
Arguments place {H} _.
Arguments kid_app {H} _.

Record ForkServer (K H : Type) := mkServer { forks : Forks; fk : K; kids : gmap Z (Kid H) }.
Arguments mkServer {K H} _ _ _.
Arguments forks {K H} _.
Arguments fk {K H} _.
Arguments kids {K H} _.

(** [Alone lbl]: a step of [Forking] that is neither [accept], [fork] nor a
    child's; [FChild pid]: the child's next call. *)
Inductive FLabel := FAccept | FFork | Alone (lbl : Label) | FChild (pid : Z).

#[export] Instance flabel_eq_dec : EqDecision FLabel.
Proof. solve_decision. Defined.

Definition is_alone (lbl : Label) : bool :=
  match lbl with
  | CheckCap | Reserve | Release | ParentDrop | Interrupt | Reap | ReapDone => true
  | _ => false
  end.

Section ForkServing.
Context {K H : Type} `{Processes K} `{Handlers H} (parent l : Z) (cfg : ServerConfig) (app : App H).

Definition Server_new (k : K) : ForkServer K H := mkServer Forks_new k ∅.

(** The parent's application, which a child copies. *)
Definition forks_app (t : Forks) : App H := mkApp app.(router) app.(assets) t.(f_metrics).

Definition accept_call (s : ForkServer K H) : option (ForkServer K H) :=
  match s.(forks).(pc), s.(forks).(in_handler) with
  | Accepting, false =>
    let '(r, k) := k_accept l (run_as parent s.(fk)) in
    t ← step cfg (match r with Ok fd => AcceptOk fd | Err _ => AcceptErr end) s.(forks);
    Some (mkServer t k s.(kids))
  | _, _ => None
  end.

Definition fork_call (s : ForkServer K H) : option (ForkServer K H) :=
  match s.(forks).(pc), s.(forks).(in_handler) with
  | ForkCall stream, false =>
    let '(pid, k) := k_fork (run_as parent s.(fk)) in
    if is_minus_one pid then t ← step cfg ForkErr s.(forks); Some (mkServer t k s.(kids))
    else
      t ← step cfg (ForkOk pid) s.(forks);
      Some (mkServer t k (<[pid := mkKid stream Born (forks_app s.(forks))]> s.(kids)))
  | _, _ => None
  end.

(** The stream the parent drops in a step. *)
Definition dropped (t t' : Forks) : option Z :=
  match t.(pc), t'.(pc) with
  | (Checking stream | ForkFailed stream | InParent stream), Accepting => Some stream
  | _, _ => None
  end.

(** The child that a step waits for. *)
Definition reaped (lbl : Label) (t : Forks) : option Z :=
  match lbl with Reap => head t.(zombies) | _ => None end.

Definition alone_step (lbl : Label) (s : ForkServer K H) : option (ForkServer K H) :=
  t ← step cfg lbl s.(forks);
  let k := match dropped s.(forks) t with
           | Some stream => k_close stream (run_as parent s.(fk))
           | None => s.(fk)
           end in
  let k := match reaped lbl s.(forks) with Some pid => k_reap pid (run_as parent k) | None => k end in
  Some (mkServer t k s.(kids)).

Definition set_kid (pid : Z) (kid : Kid H) (p : Place) (k : K) (s : ForkServer K H) : ForkServer K H :=
  mkServer s.(forks) k (<[pid := mkKid kid.(kid_stream) p kid.(kid_app)]> s.(kids)).

Definition child_call (pid : Z) (s : ForkServer K H) : option (outcome (ForkServer K H)) :=
  kid ← s.(kids) !! pid;
  let k := run_as pid s.(fk) in
  match kid.(place) with
  | Born => Some (Ret (set_kid pid kid (AtWork SettingRead) (k_close l k) s))
  (* the stream is [serve_connection]'s *)
  | AtWork (Finished r) => Some (Ret (set_kid pid kid Leaving (k_close kid.(kid_stream) k) s))
  | AtWork t =>
    Some ('(t, k) ← task_step cfg kid.(kid_stream) kid.(kid_app) t k; Ret (set_kid pid kid (AtWork t) k s))
  | Leaving =>
    t ← step cfg (ChildExit pid) s.(forks); Some (Ret (mkServer t (k_exit k) (delete pid s.(kids))))
  end.

Definition server_step (lbl : FLabel) (s : ForkServer K H) : option (outcome (ForkServer K H)) :=
  match lbl with
  | FAccept => s ← accept_call s; Some (Ret s)
  | FFork => s ← fork_call s; Some (Ret s)
  | Alone lbl => if is_alone lbl then s ← alone_step lbl s; Some (Ret s) else None
  | FChild pid => child_call pid s
  end.

(** [None]: the next of the steps is none of the state it is reached in. *)
Fixpoint server_steps (ls : list FLabel) (s : ForkServer K H) : option (outcome (ForkServer K H)) :=
  match ls with
  | [] => Some (Ret s)
  | lbl :: ls =>
    o ← server_step lbl s;
    match o with
    | Ret s => server_steps ls s
    | Panic => Some Panic
    | Diverge => Some Diverge
    end
  end.
End ForkServing.
