(* ===== verification/ForkServingProps.v ===== *)
(** * Properties of the forking server at work

    On the recording kernel [Machine]: what every process holds and has
    exchanged, under every interleaving of the parent, the reaper, the signals
    and the children. *)

From S2P Require Import Prelude RustStr Http Response Request RequestSpec RequestRefine Router Asset App Conn ConnSpec ConnProps Site Syscall Socket ConnTable EventIo EventIoProps Session Trace Blocking BlockingProps Serving ServingProps Process Forking ForkingProps EpollTrace SimProc ForkServing.

(** ** A child's calls on the recording kernel *)

Section Kid.
Context {K H : Type} `{ProcessLaws K} `{SiteHandlers H} (cfg : ServerConfig).

Lemma kid_task (app : App H) h fd t (m : Machine K) :
  fits app -> task_at app h t ->
  exists t' m' ios, task_step cfg fd app t m = Ret (t', m') /\ task_at app (h ++ ios) t' /\
    opened m' = opened m /\ alone m m' /\ m'.(conns) = conns_io fd ios (current m) m.(conns).
Proof.
  intros Hfit Ht. destruct (task_step_spec cfg app h fd t m Hfit Ht) as (t' & m' & ios & Hst & Hat & Ho & Hio).
  exists t', m', ios. split_and!; [done|done|done|..].
  - destruct t; [destruct Hio as (_ & r & E); by eapply read_timeout_alone|
      destruct Hio as (_ & r & E); by eapply write_timeout_alone|by eapply performs_alone..].
  - destruct t; [destruct Hio as (-> & r & E); apply mlift_inv in E as [_ ->]; by rewrite conns_io_nil|
      destruct Hio as (-> & r & E); apply mlift_inv in E as [_ ->]; by rewrite conns_io_nil|by apply performs_conns..].
Qed.
End Kid.

(** ** The invariant *)

(** The stream the parent holds alone. *)
Definition unforked (p : Pc) : option Z :=
  match p with
  | Checking s | Reserving s | ForkCall s | ForkFailed s => Some s
  | _ => None
  end.

Section Inv.
Context {K H : Type} `{ProcessLaws K} `{SiteHandlers H}.
Context (parent l : Z) (cfg : ServerConfig) (app : App H) (base : gset Z).
Context (Hcap : (cfg.(max_connections) <= usize_max)%N) (Hl : l ∈ base) (Hfit : all_fit app).

Notation FS := (ForkServer (Machine K) H).

(** The descriptors of a child and what it has exchanged. *)
Definition kid_ok (m : Machine K) (pid : Z) (kid : Kid H) : Prop :=
  let fd := kid.(kid_stream) in
  same_site app kid.(kid_app) /\ fd ∉ base /\
  match kid.(place) with
  | Born => table pid m = {[fd]} ∪ base /\ log_of pid fd m.(conns) = Some []
  | AtWork t => table pid m = {[fd]} ∪ base ∖ {[l]} /\
      exists h, log_of pid fd m.(conns) = Some h /\ task_at app h t
  | Leaving => table pid m = base ∖ {[l]}
  end.

(** [pid] is the process that will exchange something with its descriptor
    [fd]. *)
Definition holder (s : FS) (pid fd : Z) : Prop :=
  pid = parent /\ unforked s.(forks).(pc) = Some fd \/
  exists kid, s.(kids) !! pid = Some kid /\ kid.(kid_stream) = fd /\ kid.(place) <> Leaving.

Record server_inv (s : FS) : Prop := {
  sv_forks : forks_inv cfg s.(forks);
  sv_nodup : NoDup (s.(forks).(running) ++ s.(forks).(zombies));
  sv_procs : forall pid, pid ∈ s.(forks).(running) ++ s.(forks).(zombies) -> pid ∈ procs s.(fk) /\ pid <> parent;
  sv_parent : parent ∈ procs s.(fk);
  sv_table : table parent s.(fk) = base ∪ list_to_set s.(forks).(streams);
  sv_fresh : forall fd, fd ∈ s.(forks).(streams) -> fd ∉ base;
  sv_kids : dom s.(kids) = list_to_set s.(forks).(running);
  sv_kid : map_Forall (kid_ok s.(fk)) s.(kids);
  sv_logs : Forall (run_of app) s.(fk).(conns).(logs);
  sv_unforked : forall fd, unforked s.(forks).(pc) = Some fd -> log_of parent fd s.(fk).(conns) = Some [];
  sv_distinct : forall pid fd pid' fd' id, holder s pid fd -> holder s pid' fd' ->
    file pid fd s.(fk).(conns) = Some id -> file pid' fd' s.(fk).(conns) = Some id -> pid = pid';
}.

(** What [pid] holds and has exchanged. *)
Definition same_view (pid fd : Z) (m m' : Machine K) : Prop :=
  file pid fd m'.(conns) = file pid fd m.(conns) /\ log_of pid fd m'.(conns) = log_of pid fd m.(conns).

Lemma kid_ok_view m m' pid kid :
  kid_ok m pid kid -> table pid m' = table pid m ->
  (kid.(place) <> Leaving -> same_view pid kid.(kid_stream) m m') -> kid_ok m' pid kid.
Proof.
  intros (Hs & Hb & Hp) Ht Hv. split_and!; [done..|]. rewrite Ht.
  destruct (place kid); [..|done]; (destruct Hv as [_ ->]; [done|exact Hp]).
Qed.

Lemma holder_log s pid fd : server_inv s -> holder s pid fd -> is_Some (log_of pid fd s.(fk).(conns)).
Proof.
  intros Hi [[-> Hu]|(kid & Hk & <- & Hpl)]; [rewrite (sv_unforked _ Hi _ Hu); by eexists|].
  destruct (sv_kid _ Hi pid kid Hk) as (_ & _ & Hp).
  destruct (place kid) as [|t|]; [destruct Hp as [_ ->]; by eexists|destruct Hp as (_ & h & -> & _); by eexists|done].
Qed.

Lemma kid_running s pid : server_inv s -> is_Some (s.(kids) !! pid) <-> pid ∈ s.(forks).(running).
Proof. intros Hi. by rewrite <-elem_of_dom, (sv_kids _ Hi), elem_of_list_to_set. Qed.

Lemma kid_process s pid : server_inv s -> is_Some (s.(kids) !! pid) -> pid ∈ procs s.(fk) /\ pid <> parent.
Proof. intros Hi Hk%(kid_running s pid Hi). apply (sv_procs _ Hi), elem_of_app. by left. Qed.

Lemma log_of_file pid fd c h : log_of pid fd c = Some h -> exists id, file pid fd c = Some id /\ c.(logs) !! id = Some h.
Proof. unfold log_of. destruct (file pid fd c) as [id|]; [|done]. cbn. by exists id. Qed.

Lemma server_start_inv k :
  table parent k = base -> parent ∈ procs k -> server_inv (Server_new (machine k)).
Proof.
  intros Ht Hp. split; cbn; try done.
  - apply (forks_new_inv cfg).
  - constructor.
  - by intros pid ?%not_elem_of_nil.
  - rewrite Ht. set_solver.
  - by intros fd ?%not_elem_of_nil.
Qed.

Lemma kid_holder s pid kid : s.(kids) !! pid = Some kid -> kid.(place) <> Leaving -> holder s pid kid.(kid_stream).
Proof. intros Hk Hp. right. by exists kid. Qed.

(** Holders do not come from nowhere. *)
Lemma distinct_sub (s s' : FS) :
  server_inv s ->
  (forall q fd, holder s' q fd -> holder s q fd /\ file q fd s'.(fk).(conns) = file q fd s.(fk).(conns)) ->
  forall pid fd pid' fd' id, holder s' pid fd -> holder s' pid' fd' ->
    file pid fd s'.(fk).(conns) = Some id -> file pid' fd' s'.(fk).(conns) = Some id -> pid = pid'.
Proof.
  intros Hi Hsub pid fd pid' fd' id [H1' E1]%Hsub [H2' E2]%Hsub. rewrite E1, E2. by apply (sv_distinct _ Hi).
Qed.

(** ** The steps of a child *)

Lemma kid_moves s pid kid p' (m' : Machine K) :
  server_inv s -> s.(kids) !! pid = Some kid -> kid.(place) <> Leaving ->
  procs m' = procs s.(fk) -> (forall q, q <> pid -> table q m' = table q s.(fk)) ->
  (forall q fd, q <> pid -> holder s q fd -> same_view q fd s.(fk) m') ->
  (p' <> Leaving -> file pid kid.(kid_stream) m'.(conns) = file pid kid.(kid_stream) s.(fk).(conns)) ->
  Forall (run_of app) m'.(conns).(logs) -> kid_ok m' pid (mkKid kid.(kid_stream) p' kid.(kid_app)) ->
  server_inv (set_kid pid kid p' m' s).
Proof.
  intros Hi Hk Hpl Hpr Ht Hv Hf Hlogs Hok.
  destruct (kid_process s pid Hi) as [_ Hne]; [by eexists|].
  assert (forall q fd, holder (set_kid pid kid p' m' s) q fd -> holder s q fd /\ (q = pid -> p' <> Leaving /\ fd = kid.(kid_stream))) as Hsub.
  { intros q fd [[-> Hu]|(kid' & Hk' & Hs & Hp)]; [by split; [left|intros ->]|]. cbn in Hk'.
    apply lookup_insert_Some in Hk' as [[<- <-]|[Hq Hk']].
    - cbn in Hs, Hp. subst fd. split; [by apply kid_holder|done].
    - split; [right; by exists kid'|by intros ->]. }
  split; cbn [set_kid forks fk kids]; try apply Hi.
  - intros q Hq. rewrite Hpr. by apply (sv_procs _ Hi).
  - rewrite Hpr. apply (sv_parent _ Hi).
  - rewrite Ht by done. apply (sv_table _ Hi).
  - rewrite dom_insert_L, (sv_kids _ Hi). assert (pid ∈ running (forks s)); [|set_solver].
    apply (kid_running s pid Hi). by eexists.
  - intros q kid' [[<- <-]|[Hq Hk']]%lookup_insert_Some; [done|].
    apply (kid_ok_view s.(fk)); [by apply (sv_kid _ Hi)|by apply Ht|]. intros Hp'. apply Hv; [done|]. by apply kid_holder.
  - done.
  - intros fd Hu. destruct (Hv parent fd) as [_ ->]; [done|by left|]. by apply (sv_unforked _ Hi).
  - apply (distinct_sub s (set_kid pid kid p' m' s) Hi). intros q fd [Hh Hq]%Hsub. split; [done|]. cbn [set_kid fk].
    destruct (decide (q = pid)) as [->|Hn]; [|by apply (Hv q fd)]. destruct (Hq eq_refl) as [Hp ->]. by apply Hf.
Qed.

(** Closing one of its descriptors. *)
Lemma kid_closes s pid kid p' fd :
  server_inv s -> s.(kids) !! pid = Some kid -> kid.(place) <> Leaving ->
  let m' := k_close fd (run_as pid s.(fk)) in
  (p' <> Leaving -> fd <> kid.(kid_stream)) ->
  (table pid s.(fk) ∖ {[fd]} = table pid m' -> kid_ok m' pid (mkKid kid.(kid_stream) p' kid.(kid_app))) ->
  server_inv (set_kid pid kid p' m' s).
Proof.
  intros Hi Hk Hpl m' Hfd Hok. destruct (run_as_effect pid s.(fk)) as (Hc & Ht & Hp).
  pose proof (close_alone fd (run_as pid s.(fk))) as (Hp' & Hc' & Ht').
  assert (m'.(conns) = conns_close fd pid s.(fk).(conns)) as Hconns.
  { cbn. by rewrite (proj1 (run_as_effect pid s.(fk).(mk))). }
  apply kid_moves; [done..| | | | | |].
  - etrans; [exact Hp'|exact Hp].
  - intros q Hq. rewrite <-Ht. apply Ht'. by rewrite Hc.
  - intros q fd' Hq _. unfold same_view. rewrite Hconns. apply conns_close_view. by left.
  - intros Hp0. rewrite Hconns. apply conns_close_view. right. intros E. by apply (Hfd Hp0).
  - rewrite Hconns. apply (sv_logs _ Hi).
  - apply Hok. rewrite <-(Ht pid). rewrite <-Hc at 1. rewrite <-(opened_table (run_as pid s.(fk))).
    unfold m'. rewrite <-(proj1 (close_effect fd (run_as pid s.(fk)))), opened_table. by rewrite Hc', Hc.
Qed.

(** What the parent and the reaper share moves as in [Forking], or not. *)
Definition forks_run (s s' : FS) : Prop := exists ls, Forking.steps cfg ls s.(forks) = Some s'.(forks).

Lemma forks_one s lbl t k (m : gmap Z (Kid H)) : Forking.step cfg lbl s.(forks) = Some t -> forks_run s (mkServer t k m).
Proof. intros E. exists [lbl]. cbn [Forking.steps]. by rewrite E. Qed.

Lemma forks_none s k (m : gmap Z (Kid H)) : forks_run s (mkServer s.(forks) k m).
Proof. by exists []. Qed.

(** A call of a child in [serve_connection]. *)
Lemma kid_serves s pid kid t :
  server_inv s -> s.(kids) !! pid = Some kid -> kid.(place) = AtWork t ->
  exists t' m', task_step cfg kid.(kid_stream) kid.(kid_app) t (run_as pid s.(fk)) = Ret (t', m') /\
    server_inv (set_kid pid kid (AtWork t') m' s).
Proof.
  intros Hi Hk Hp. destruct (sv_kid _ Hi pid kid Hk) as (Hs & Hb & Hpl). rewrite Hp in Hpl.
  destruct Hpl as (Htab & h & Hlog & Hat). apply (task_at_same app _ h t Hs) in Hat.
  destruct (run_as_effect pid s.(fk)) as (Hc & Ht & Hpr).
  destruct (kid_task cfg kid.(kid_app) h kid.(kid_stream) t (run_as pid s.(fk)) (Hfit _ Hs) Hat)
    as (t' & m' & ios & Hst & Hat' & Ho & (Hpr' & Hc' & Ht') & Hconns).
  exists t', m'. split; [done|]. rewrite Hc in *.
  destruct (log_of_file _ _ _ _ Hlog) as (id & Hf & Hl').
  change (conns (run_as pid (fk s))) with (conns (fk s)) in Hconns.
  destruct (conns_io_log _ ios _ _ _ _ Hf Hl') as [Hnew Hold]. rewrite <-Hconns in Hnew, Hold.
  assert (files (conns m') = files (conns (fk s))) as Hfiles by (rewrite Hconns; apply conns_io_files).
  assert (forall q fd, file q fd (conns m') = file q fd (conns (fk s))) as Hfile by (intros; unfold file; by rewrite Hfiles).
  apply (task_at_same app _ _ _ Hs) in Hat'.
  assert (kid.(place) <> Leaving) as Hnl by by rewrite Hp.
  apply kid_moves; [done..| | | | | |].
  - etrans; [exact Hpr'|exact Hpr].
  - intros q Hq. rewrite <-Ht. by apply Ht'.
  - intros q fd Hq Hh. split; [done|]. unfold log_of. rewrite Hfile.
    destruct (file q fd (conns (fk s))) as [id'|] eqn:Hf'; [|done]. cbn. apply Hold. intros ->.
    apply Hq. by apply (sv_distinct _ Hi q fd pid kid.(kid_stream) id Hh (kid_holder _ _ _ Hk Hnl)).
  - intros _. apply Hfile.
  - apply Forall_lookup. intros i x Hx. destruct (decide (i = id)) as [->|Hne].
    + rewrite Hnew in Hx. injection Hx as <-. by eapply task_at_run.
    + rewrite Hold in Hx by done. exact (Forall_lookup_1 _ _ _ _ (sv_logs _ Hi) Hx).
  - split_and!; [done..|]. cbn [place kid_stream]. split.
    + rewrite <-Htab, <-(Ht pid). pose proof (opened_table m') as E1. pose proof (opened_table (run_as pid (fk s))) as E2.
      rewrite Hc' in E1. rewrite Hc in E2. congruence.
    + exists (h ++ ios). split; [|done]. unfold log_of. by rewrite Hfile, Hf.
Qed.

Lemma elem_of_others pid q (ps : list Z) : q ∈ List.filter (fun p => negb (p =? pid)%Z) ps <-> q ∈ ps /\ q <> pid.
Proof. rewrite !list_elem_of_In, filter_In, negb_true_iff, Z.eqb_neq. done. Qed.

(** The end of a child. *)
Lemma kid_exits s pid kid t :
  server_inv s -> s.(kids) !! pid = Some kid -> kid.(place) = Leaving ->
  Forking.step cfg (ChildExit pid) s.(forks) = Some t ->
  server_inv (mkServer t (k_exit (run_as pid s.(fk))) (delete pid s.(kids))).
Proof.
  intros Hi Hk Hp E. destruct (kid_process s pid Hi) as [_ Hne]; [by eexists|].
  destruct (run_as_effect pid s.(fk)) as (Hc & Ht & Hpr). set (m' := k_exit (run_as pid (fk s))).
  destruct (exit_effect (run_as pid s.(fk))) as [Hpr' Ht']. fold m' in Hpr', Ht'. rewrite Hpr in Hpr'. rewrite Hc in Ht'.
  assert (forall q, q <> pid -> table q m' = table q (fk s)) as Htab by (intros q Hq; rewrite <-Ht; by apply Ht').
  assert (conns m' = conns_exit pid (conns (fk s))) as Hconns.
  { cbn. change (current (run_as pid (mk (fk s)))) with (current (run_as pid (fk s))). by rewrite Hc. }
  pose proof (forks_step_inv cfg Hcap _ _ _ (sv_forks _ Hi) E) as Hf'. cbn [Forking.step] in E.
  case_decide as Hrun; [|done]. injection E as <-.
  pose proof (sv_nodup _ Hi) as Hnd. pose proof Hnd as (Hndr & Hrz & Hndz)%NoDup_app.
  assert (forall q fd, holder (mkServer (set_signals true (in_handler (forks s))
      (set_children (List.filter (fun p => negb (p =? pid)%Z) (running (forks s))) (zombies (forks s) ++ [pid]) (forks s)))
      m' (delete pid (kids s))) q fd -> holder s q fd /\ q <> pid) as Hsub.
  { intros q fd [[-> Hu]|(kid' & Hk' & Hrest)]; [by split; [left|]|].
    cbn [kids] in Hk'. apply lookup_delete_Some in Hk' as [Hq Hk']. split; [right; by exists kid'|done]. }
  assert (forall q fd, holder s q fd -> q <> pid -> same_view q fd (fk s) m') as Hview.
  { intros q fd _ Hq. unfold same_view. rewrite Hconns. by apply conns_exit_view. }
  split; cbn [forks fk kids set_signals set_children running zombies streams pc].
  - exact Hf'.
  - apply NoDup_app. split_and!.
    + by apply filter_nodup.
    + intros q [Hq Hqp]%elem_of_others [Hz|Hz%list_elem_of_singleton]%elem_of_app; [by eapply Hrz|done].
    + apply NoDup_app. split_and!; [done| |apply NoDup_singleton].
      intros q Hz ->%list_elem_of_singleton. by eapply Hrz.
  - intros q Hq. rewrite Hpr'. apply (sv_procs _ Hi). rewrite !elem_of_app, elem_of_others, list_elem_of_singleton in Hq.
    rewrite elem_of_app. naive_solver.
  - rewrite Hpr'. apply (sv_parent _ Hi).
  - rewrite Htab by done. apply (sv_table _ Hi).
  - apply (sv_fresh _ Hi).
  - rewrite dom_delete_L, (sv_kids _ Hi). apply set_eq. intros q.
    rewrite elem_of_difference, !elem_of_list_to_set, elem_of_others, elem_of_singleton. done.
  - intros q kid' [Hq Hk']%lookup_delete_Some. apply (kid_ok_view (fk s)); [by apply (sv_kid _ Hi)|by apply Htab|].
    intros Hpl. apply Hview; [by apply kid_holder|done].
  - rewrite Hconns. apply (sv_logs _ Hi).
  - intros fd Hu. destruct (Hview parent fd) as [_ ->]; [by left|done|]. by apply (sv_unforked _ Hi).
  - eapply (distinct_sub s); [done|]. intros q fd [Hh Hq]%Hsub. split; [done|]. by apply (Hview q fd).
Qed.

(** A child can always go on, and never panics. *)
Lemma child_call_inv s pid :
  server_inv s -> is_Some (s.(kids) !! pid) ->
  exists s', child_call l cfg pid s = Some (Ret s') /\ server_inv s' /\ forks_run s s'.
Proof.
  intros Hi Hsome. pose proof Hsome as [kid Hk]. unfold child_call. rewrite Hk. cbn [mbind option_bind].
  destruct (sv_kid _ Hi pid kid Hk) as (Hs & Hb & Hpl).
  destruct (place kid) as [|t|] eqn:Hp.
  - eexists. split; [done|]. split; [|apply forks_none].
    assert (l <> kid_stream kid) as Hne by (intros E; by rewrite <-E in Hb).
    apply kid_closes; [done|done|by rewrite Hp|done|]. intros Htab. destruct Hpl as [Ht Hlog].
    split_and!; [done..|]. cbn [place kid_stream]. split.
    + rewrite <-Htab, Ht. set_solver.
    + exists []. split; [|done]. cbn [k_close machine_kernel conns].
      change (current (mk (run_as pid (fk s)))) with (current (run_as pid (fk s))).
      rewrite (proj1 (run_as_effect pid (fk s))). rewrite <-Hlog. apply conns_close_view. by right.
  - destruct (finished t) eqn:Hnf.
    + destruct t as [| | |r]; try done. eexists. split; [done|]. split; [|apply forks_none].
      apply kid_closes; [done|done|by rewrite Hp|done|]. intros Htab. destruct Hpl as [Ht _].
      split_and!; [done..|]. cbn [place]. rewrite <-Htab, Ht. set_solver.
    + destruct (kid_serves s pid kid t Hi Hk Hp) as (t' & m' & Hst & Hi').
      exists (set_kid pid kid (AtWork t') m' s). split; [|split; [done|apply forks_none]].
      destruct t; try done; by rewrite Hst.
  - destruct (Forking.step cfg (ChildExit pid) (forks s)) as [t|] eqn:E.
    + eexists. split; [done|]. split; [by eapply kid_exits|by eapply forks_one].
    + exfalso. cbn [Forking.step] in E. apply (kid_running s pid Hi) in Hsome. by rewrite decide_True in E.
Qed.

(** ** The steps of the parent *)

(** No child is new. *)
Lemma parent_moves s t (m' : Machine K) :
  server_inv s -> forks_inv cfg t -> t.(running) = s.(forks).(running) ->
  NoDup (t.(running) ++ t.(zombies)) ->
  (forall pid, pid ∈ t.(running) ++ t.(zombies) -> pid ∈ procs m' /\ pid <> parent) -> parent ∈ procs m' ->
  table parent m' = base ∪ list_to_set t.(streams) -> (forall fd, fd ∈ t.(streams) -> fd ∈ s.(forks).(streams)) ->
  (forall pid, is_Some (s.(kids) !! pid) -> table pid m' = table pid s.(fk)) ->
  (forall fd, unforked t.(pc) = Some fd -> unforked s.(forks).(pc) = Some fd) ->
  (forall q fd, holder (mkServer t m' s.(kids)) q fd -> same_view q fd s.(fk) m') ->
  Forall (run_of app) m'.(conns).(logs) -> server_inv (mkServer t m' s.(kids)).
Proof.
  intros Hi Hf Hr Hnd Hpr Hpar Htab Hst Hkt Hun Hv Hlogs.
  assert (forall q fd, holder (mkServer t m' s.(kids)) q fd -> holder s q fd) as Hsub.
  { intros q fd [[-> Hu]|Hk]; [left; split; [done|by apply Hun]|by right]. }
  split; cbn [forks fk kids]; try done.
  - intros fd Hfd. by apply (sv_fresh _ Hi), Hst.
  - rewrite Hr. apply (sv_kids _ Hi).
  - intros pid kid Hk. apply (kid_ok_view (fk s)); [by apply (sv_kid _ Hi)|apply Hkt; by eexists|].
    intros Hp. apply Hv. right. by exists kid.
  - intros fd Hu. destruct (Hv parent fd) as [_ ->]; [by left|]. by apply (sv_unforked _ Hi), Hun.
  - eapply (distinct_sub s); [done|]. intros q fd Hh. split; [by apply Hsub|]. by apply (Hv q fd).
Qed.

(** What these steps do to the parent and to the lists of children. *)
Lemma alone_facts lbl f t :
  is_alone lbl = true -> Forking.step cfg lbl f = Some t ->
  t.(running) = f.(running) /\
  (reaped lbl f = None /\ t.(zombies) = f.(zombies) \/
   exists pid, reaped lbl f = Some pid /\ f.(zombies) = pid :: t.(zombies) /\ dropped f t = None) /\
  (forall fd, unforked t.(pc) = Some fd -> unforked f.(pc) = Some fd) /\
  match dropped f t with
  | Some fd => owned f.(pc) = [fd] /\ t.(pc) = Accepting
  | None => owned t.(pc) = owned f.(pc)
  end.
Proof.
  intros Ha E. unfold dropped.
  destruct lbl; try done; cbn in E; repeat (case_match; simplify_eq/=; try done);
    (split; [done|split; [first [by left|right; by eexists]|split; [naive_solver|try done]]]).
Qed.

(** A descriptor the parent drops. *)
Lemma parent_closes s t fd :
  server_inv s -> forks_inv cfg t -> t.(running) = s.(forks).(running) -> t.(zombies) = s.(forks).(zombies) ->
  owned s.(forks).(pc) = [fd] -> t.(pc) = Accepting ->
  server_inv (mkServer t (k_close fd (run_as parent s.(fk))) s.(kids)).
Proof.
  intros Hi Hf Hr Hz Ho Hpc. set (m' := k_close fd (run_as parent s.(fk))).
  destruct (run_as_effect parent s.(fk)) as (Hc & Ht & Hp).
  pose proof (close_alone fd (run_as parent s.(fk))) as (Hp' & Hc' & Ht'). fold m' in Hp', Hc', Ht'.
  assert (m'.(conns) = conns_close fd parent s.(fk).(conns)) as Hconns.
  { cbn. change (current (run_as parent (mk (fk s)))) with (current (run_as parent (fk s))). by rewrite Hc. }
  pose proof (fi_streams _ _ (sv_forks _ Hi)) as Hst. pose proof (fi_streams _ _ Hf) as Hst'.
  rewrite Hpc in Hst'. rewrite Ho in Hst. cbn in Hst'.
  assert (forall q, q <> parent -> table q m' = table q (fk s)) as Htab by (intros q Hq; rewrite <-Ht; apply Ht'; by rewrite Hc).
  apply parent_moves; try done.
  - rewrite Hr, Hz. apply (sv_nodup _ Hi).
  - rewrite Hr, Hz. intros pid Hin. rewrite Hp', Hp. by apply (sv_procs _ Hi).
  - rewrite Hp', Hp. apply (sv_parent _ Hi).
  - pose proof (opened_table m') as E1. pose proof (opened_table (run_as parent (fk s))) as E2.
    rewrite Hc' in E1. rewrite Hc in E1, E2. rewrite <-E1. unfold m'. rewrite (proj1 (close_effect _ _)), E2, Ht.
    rewrite (sv_table _ Hi), Hst, Hst'. assert (fd ∉ base) by (apply (sv_fresh _ Hi); rewrite Hst; by left). set_solver.
  - rewrite Hst'. by intros x ?%not_elem_of_nil.
  - intros pid Hk. apply Htab. by apply (kid_process s).
  - by rewrite Hpc.
  - intros q fd' [[-> Hu]|(kid & Hk & <- & _)]; [cbn in Hu; by rewrite Hpc in Hu|].
    unfold same_view. rewrite Hconns. apply conns_close_view. left. apply (kid_process s); [done|by eexists].
  - rewrite Hconns. apply (sv_logs _ Hi).
Qed.

Lemma parent_reaps s t pid :
  server_inv s -> forks_inv cfg t -> t.(running) = s.(forks).(running) -> s.(forks).(zombies) = pid :: t.(zombies) ->
  owned t.(pc) = owned s.(forks).(pc) -> (forall fd, unforked t.(pc) = Some fd -> unforked s.(forks).(pc) = Some fd) ->
  server_inv (mkServer t (k_reap pid (run_as parent s.(fk))) s.(kids)).
Proof.
  intros Hi Hf Hr Hz Ho Hun. set (m' := k_reap pid (run_as parent s.(fk))).
  destruct (run_as_effect parent s.(fk)) as (Hc & Ht & Hp).
  destruct (reap_effect pid (run_as parent s.(fk))) as (Hp' & Ht'). fold m' in Hp', Ht'.
  pose proof (fi_streams _ _ (sv_forks _ Hi)) as Hst. pose proof (fi_streams _ _ Hf) as Hst'.
  pose proof (sv_nodup _ Hi) as Hnd. rewrite Hz, <-Hr in Hnd.
  assert (pid ∉ running t ++ zombies t /\ NoDup (running t ++ zombies t)) as [Hni Hnd'].
  { rewrite <-Permutation_middle in Hnd. by apply NoDup_cons. }
  assert (pid <> parent) as Hne by (apply (sv_procs _ Hi); rewrite Hz; apply elem_of_app; right; by left).
  assert (forall q, q <> pid -> table q m' = table q (fk s)) as Htab by (intros q Hq; rewrite <-Ht; by apply Ht').
  apply parent_moves; try done.
  - intros q Hq. assert (q <> pid) by congruence. destruct (sv_procs _ Hi q) as [Hq' ?].
    { rewrite Hz, <-Hr. rewrite elem_of_app in Hq |- *. destruct Hq; [by left|right; by right]. }
    split; [|done]. rewrite Hp', Hp. set_solver.
  - rewrite Hp', Hp. pose proof (sv_parent _ Hi). set_solver.
  - rewrite Htab by congruence. rewrite (sv_table _ Hi). by rewrite Hst, Hst', Ho.
  - by rewrite Hst, Hst', Ho.
  - intros q Hk. apply Htab. intros ->. apply Hni, elem_of_app. left. rewrite Hr. by apply (kid_running s).
  - apply (sv_logs _ Hi).
Qed.

Lemma alone_step_inv s s' lbl :
  server_inv s -> is_alone lbl = true -> alone_step parent cfg lbl s = Some s' -> server_inv s' /\ forks_run s s'.
Proof.
  intros Hi Ha E. unfold alone_step in E. destruct (Forking.step cfg lbl (forks s)) as [t|] eqn:Et; [|done].
  cbn [mbind option_bind] in E. injection E as <-. split; [|by eapply forks_one].
  pose proof (forks_step_inv cfg Hcap _ _ _ (sv_forks _ Hi) Et) as Hf.
  destruct (alone_facts _ _ _ Ha Et) as (Hr & Hz & Hun & Hd).
  destruct (dropped (forks s) t) as [fd|] eqn:Hdr.
  - destruct Hz as [[-> Hz]|(pid & _ & _ & ?)]; [|done]. destruct Hd as [Ho Hpc]. by apply parent_closes.
  - destruct Hz as [[-> Hz]|(pid & -> & Hz & _)]; [|by apply parent_reaps].
    apply parent_moves; try done; rewrite ?Hr, ?Hz.
    + apply (sv_nodup _ Hi).
    + apply (sv_procs _ Hi).
    + apply (sv_parent _ Hi).
    + rewrite (sv_table _ Hi), (fi_streams _ _ (sv_forks _ Hi)), (fi_streams _ _ Hf). by rewrite Hd.
    + by rewrite (fi_streams _ _ (sv_forks _ Hi)), (fi_streams _ _ Hf), Hd.
    + apply (sv_logs _ Hi).
Qed.

(** A call of a process leaves the others. *)
Lemma call_alone pid (m m' : Machine K) :
  alone (run_as pid m) m' ->
  procs m' = procs m /\ opened m' = table pid m' /\ opened (run_as pid m) = table pid m /\
  (forall q, q <> pid -> table q m' = table q m).
Proof.
  intros (Hp' & Hc' & Ht'). destruct (run_as_effect pid m) as (Hc & Ht & Hp). split_and!.
  - etrans; [exact Hp'|exact Hp].
  - pose proof (opened_table m') as E. by rewrite Hc', Hc in E.
  - pose proof (opened_table (run_as pid m)) as E. rewrite Hc, Ht in E. exact E.
  - intros q Hq. rewrite <-Ht. apply Ht'. by rewrite Hc.
Qed.

(** A connection the parent has accepted is its own, with nothing exchanged. *)
Lemma parent_accepts s fd (m' : Machine K) t :
  server_inv s -> s.(forks).(pc) = Accepting -> s.(forks).(in_handler) = false ->
  k_accept l (run_as parent s.(fk)) = (Ok fd, m') -> Forking.step cfg (AcceptOk fd) s.(forks) = Some t ->
  server_inv (mkServer t m' s.(kids)).
Proof.
  intros Hi Hpc Hh Ea Et. pose proof (forks_step_inv cfg Hcap _ _ _ (sv_forks _ Hi) Et) as Hf.
  destruct (call_alone parent s.(fk) m') as (Hpr & Ho' & Ho & Htab); [exact (accept_alone _ _ _ _ Ea)|].
  pose proof (accept_effect _ _ _ _ Ea) as [Hnew Hop]. rewrite Ho in Hnew, Hop. rewrite Ho', (sv_table _ Hi) in Hop.
  rewrite (sv_table _ Hi) in Hnew.
  apply mlift_inv in Ea as [_ Hc]. change (current (mk (run_as parent (fk s)))) with (current (run_as parent (fk s))) in Hc.
  rewrite (proj1 (run_as_effect parent (fk s))) in Hc. change (conns (run_as parent (fk s))) with (conns (fk s)) in Hc.
  pose proof (fi_streams _ _ (sv_forks _ Hi)) as Hst. rewrite Hpc in Hst. cbn [owned] in Hst.
  cbn [Forking.step] in Et. rewrite Hh in Et. cbn [parent_step] in Et. rewrite Hpc in Et. case_decide; [done|]. injection Et as <-.
  assert (forall q fd', holder s q fd' -> q <> parent /\ same_view q fd' (fk s) m' /\
      file q fd' (conns m') <> Some (length (logs (conns (fk s))))) as Hview.
  { intros q fd' Hh'. assert (q <> parent) as Hq.
    { destruct Hh' as [[_ Hu]|(kid & Hk & _)]; [by rewrite Hpc in Hu|]. apply (kid_process s); [done|by eexists]. }
    assert (forall id, file q fd' (conns (fk s)) = Some id -> id < length (logs (conns (fk s)))) as Hlt.
    { intros id Hid. destruct (holder_log _ _ _ Hi Hh') as [h Hlog]. unfold log_of in Hlog. rewrite Hid in Hlog.
      by apply lookup_lt_Some in Hlog. }
    assert (same_view q fd' (fk s) m') as Hv by (unfold same_view; rewrite Hc; apply conns_accept_view; [by left|done]).
    split_and!; [done..|]. rewrite (proj1 Hv). intros Hid%Hlt. lia. }
  assert (forall q fd', holder (mkServer (set_pc (Checking fd) (set_metrics (inc_connections (f_metrics (forks s)))
      (set_streams (fd :: streams (forks s)) (forks s)))) m' (kids s)) q fd' -> q = parent /\ fd' = fd \/ holder s q fd') as Hsub.
  { intros q fd' [[-> Hu]|Hk]; [left; split; [done|by injection Hu as <-]|right; by right]. }
  destruct (conns_accept_new parent fd (conns (fk s))) as [Hfn Hln]. rewrite <-Hc in Hfn, Hln.
  split; cbn [forks fk kids set_pc set_metrics set_streams running zombies streams pc].
  - exact Hf.
  - apply (sv_nodup _ Hi).
  - rewrite Hpr. apply (sv_procs _ Hi).
  - rewrite Hpr. apply (sv_parent _ Hi).
  - rewrite Hop. set_solver.
  - intros x [->|Hx]%elem_of_cons; [set_solver|]. by apply (sv_fresh _ Hi).
  - apply (sv_kids _ Hi).
  - intros pid kid Hk. apply (kid_ok_view (fk s)); [by apply (sv_kid _ Hi)|apply Htab, (kid_process s); [done|by eexists]|].
    intros Hp. apply Hview. by apply kid_holder.
  - rewrite Hc. apply Forall_app. split; [apply (sv_logs _ Hi)|]. repeat constructor. exists (AReading []). constructor.
  - intros fd' Hu. injection Hu as <-. done.
  - cbn [fk]. intros q fd1 q' fd1' id [[-> ->]|Hq]%Hsub [[-> ->]|Hq']%Hsub E1 E2; [done|..].
    + rewrite Hfn in E1. injection E1 as <-. by destruct (Hview _ _ Hq') as (_ & _ & []).
    + rewrite Hfn in E2. injection E2 as <-. by destruct (Hview _ _ Hq) as (_ & _ & []).
    + rewrite (proj1 (proj1 (proj2 (Hview _ _ Hq)))) in E1. rewrite (proj1 (proj1 (proj2 (Hview _ _ Hq')))) in E2.
      by eapply (sv_distinct _ Hi).
Qed.

(** A call of the parent that changes none of its descriptors, nor what is
    recorded. *)
Lemma parent_fails s t (m' : Machine K) :
  server_inv s -> forks_inv cfg t -> t.(running) = s.(forks).(running) -> t.(zombies) = s.(forks).(zombies) ->
  t.(streams) = s.(forks).(streams) -> (forall fd, unforked t.(pc) = Some fd -> unforked s.(forks).(pc) = Some fd) ->
  procs m' = procs s.(fk) -> (forall q, table q m' = table q s.(fk)) -> m'.(conns) = s.(fk).(conns) ->
  server_inv (mkServer t m' s.(kids)).
Proof.
  intros Hi Hf Hr Hz Hst Hun Hp Ht Hc. apply parent_moves; try done; rewrite ?Hr, ?Hz, ?Hp, ?Ht, ?Hst, ?Hc; try done.
  - apply (sv_nodup _ Hi).
  - apply (sv_procs _ Hi).
  - apply (sv_parent _ Hi).
  - apply (sv_table _ Hi).
  - intros q fd _. unfold same_view. by rewrite Hc.
  - apply (sv_logs _ Hi).
Qed.

Lemma accept_call_inv s s' : server_inv s -> accept_call parent l cfg s = Some s' -> server_inv s' /\ forks_run s s'.
Proof.
  intros Hi E. unfold accept_call in E. destruct (pc (forks s)) eqn:Hpc; try done.
  destruct (in_handler (forks s)) eqn:Hh; [done|].
  destruct (k_accept l (run_as parent (fk s))) as [r m'] eqn:Ea.
  destruct (Forking.step cfg _ (forks s)) as [t|] eqn:Et; [|done]. injection E as <-. split; [|by eapply forks_one].
  destruct r as [fd|e]; [by eapply parent_accepts|].
  pose proof (forks_step_inv cfg Hcap _ _ _ (sv_forks _ Hi) Et) as Hf.
  destruct (call_alone parent s.(fk) m') as (Hpr & Ho' & Ho & Htab); [exact (accept_alone _ _ _ _ Ea)|].
  pose proof (accept_effect _ _ _ _ Ea) as Hop. rewrite Ho, Ho' in Hop. apply mlift_inv in Ea as [_ Hc].
  cbn [Forking.step] in Et. rewrite Hh in Et. cbn [parent_step] in Et. rewrite Hpc in Et. injection Et as <-.
  apply parent_fails; try done. intros q. destruct (decide (q = parent)) as [->|Hq]; [done|by apply Htab].
Qed.
(** A new child takes over the parent's connection. *)
Lemma parent_forks s stream pid (m' : Machine K) t :
  server_inv s -> s.(forks).(pc) = ForkCall stream -> s.(forks).(in_handler) = false -> pid <> (-1)%Z ->
  k_fork (run_as parent s.(fk)) = (pid, m') -> Forking.step cfg (ForkOk pid) s.(forks) = Some t ->
  server_inv (mkServer t m' (<[pid := mkKid stream Born (forks_app app s.(forks))]> s.(kids))).
Proof.
  intros Hi Hpc Hh Hpid Ea Et. pose proof (forks_step_inv cfg Hcap _ _ _ (sv_forks _ Hi) Et) as Hf.
  destruct (run_as_effect parent s.(fk)) as (Hcu & Htr & Hpr0).
  destruct (fork_effect _ _ _ Ea Hpid) as (Hnew & Hpr & _ & Htc & Htab).
  assert (pid ∉ procs (fk s)) as Hnp by (rewrite <-Hpr0; exact Hnew).
  assert (procs m' = {[pid]} ∪ procs (fk s)) as Hprocs by (rewrite <-Hpr0; exact Hpr).
  assert (forall q, q <> pid -> table q m' = table q (fk s)) as Htq by (intros q Hq; rewrite <-Htr; by apply Htab).
  assert (table pid m' = base ∪ list_to_set (streams (forks s))) as Htp.
  { rewrite <-(sv_table _ Hi), <-Htr. rewrite Hcu in Htc. exact Htc. }
  apply mlift_inv in Ea as [_ Hc]. change (current (mk (run_as parent (fk s)))) with (current (run_as parent (fk s))) in Hc.
  rewrite Hcu in Hc. change (conns (run_as parent (fk s))) with (conns (fk s)) in Hc.
  pose proof (fi_streams _ _ (sv_forks _ Hi)) as Hst. rewrite Hpc in Hst. cbn [owned] in Hst.
  cbn [Forking.step] in Et. rewrite Hh in Et. cbn [parent_step] in Et. rewrite Hpc in Et.
  case_decide as Hfresh; [done|]. injection Et as <-.
  assert (parent <> pid) as Hpar by (intros <-; by apply Hnp, (sv_parent _ Hi)).
  assert (holder s parent stream) as Hold by (left; split; [done|by rewrite Hpc]).
  pose proof (sv_unforked _ Hi stream) as Hlog. rewrite Hpc in Hlog. specialize (Hlog eq_refl).
  destruct (conns_fork_child parent pid (conns (fk s)) stream Hpid) as [Hfn Hln]. rewrite <-Hc in Hfn, Hln.
  assert (forall q fd, q <> pid -> same_view q fd (fk s) m') as Hview.
  { intros q fd Hq. unfold same_view. rewrite Hc. by apply conns_fork_view. }
  set (s' := mkServer _ _ _) in *.
  assert (forall q fd, holder s' q fd -> q = pid /\ fd = stream \/ q <> pid /\ q <> parent /\ holder s q fd) as Hsub.
  { intros q fd [[_ Hu]|(kid & Hk & Hfd & Hpl)]; [done|]. cbn in Hk.
    apply lookup_insert_Some in Hk as [[<- <-]|[Hq Hk]]; [by left|]. right. split_and!; [done| |right; by exists kid].
    apply (kid_process s); [done|by eexists]. }
  split; cbn [s' forks fk kids set_pc set_children running zombies streams pc].
  - exact Hf.
  - apply NoDup_cons. split; [done|apply (sv_nodup _ Hi)].
  - intros q [->|Hq]%elem_of_cons; rewrite Hprocs; [set_solver|]. destruct (sv_procs _ Hi q Hq). set_solver.
  - rewrite Hprocs. pose proof (sv_parent _ Hi). set_solver.
  - rewrite Htq by done. apply (sv_table _ Hi).
  - apply (sv_fresh _ Hi).
  - rewrite dom_insert_L, (sv_kids _ Hi). done.
  - intros q kid [[<- <-]|[Hq Hk]]%lookup_insert_Some.
    + split_and!; [split; [done|reflexivity]|apply (sv_fresh _ Hi); rewrite Hst; by left|]. cbn [place kid_stream].
      split; [rewrite Htp, Hst; set_solver|by rewrite Hln].
    + apply (kid_ok_view (fk s)); [by apply (sv_kid _ Hi)|by apply Htq|]. intros _. by apply Hview.
  - rewrite Hc. unfold conns_fork. destruct (is_minus_one pid); apply (sv_logs _ Hi).
  - done.
  - intros q fd q' fd' id [[-> ->]|(Hq & Hqp & Hh1)]%Hsub [[-> ->]|(Hq' & Hqp' & Hh2)]%Hsub E1 E2; [done|..].
    + rewrite Hfn in E1. rewrite (proj1 (Hview _ _ Hq')) in E2.
      by destruct Hqp'; apply (sv_distinct _ Hi q' fd' parent stream id).
    + rewrite Hfn in E2. rewrite (proj1 (Hview _ _ Hq)) in E1.
      by destruct Hqp; apply (sv_distinct _ Hi q fd parent stream id).
    + rewrite (proj1 (Hview _ _ Hq)) in E1. rewrite (proj1 (Hview _ _ Hq')) in E2. by eapply (sv_distinct _ Hi).
Qed.

Lemma fork_call_inv s s' :
  server_inv s -> fork_call parent cfg app s = Some s' -> server_inv s' /\ forks_run s s'.
Proof.
  intros Hi E. unfold fork_call in E. destruct (pc (forks s)) as [| | |stream| |] eqn:Hpc; try done.
  destruct (in_handler (forks s)) eqn:Hh; [done|].
  destruct (k_fork (run_as parent (fk s))) as [pid m'] eqn:Ea.
  destruct (is_minus_one pid) eqn:Hm.
  - destruct (Forking.step cfg ForkErr (forks s)) as [t|] eqn:Et; [|done]. injection E as <-.
    split; [|by eapply forks_one]. apply Z.eqb_eq in Hm as ->.
    destruct (run_as_effect parent s.(fk)) as (Hcu & Htr & Hpr0). destruct (fork_fail _ _ Ea) as (Hpr & _ & Htab).
    apply mlift_inv in Ea as [_ Hc].
    pose proof (forks_step_inv cfg Hcap _ _ _ (sv_forks _ Hi) Et) as Hf.
    cbn [Forking.step] in Et. rewrite Hh in Et. cbn [parent_step] in Et. rewrite Hpc in Et. injection Et as <-.
    apply parent_fails; try done.
    + by intros fd Hu; rewrite Hpc.
    + etrans; [exact Hpr|exact Hpr0].
    + intros q. etrans; [apply Htab|apply Htr].
  - destruct (Forking.step cfg (ForkOk pid) (forks s)) as [t|] eqn:Et; [|done]. injection E as <-.
    split; [|by eapply forks_one]. apply Z.eqb_neq in Hm. by eapply parent_forks.
Qed.

(** ** Runs *)

Lemma server_step_inv lbl s o :
  server_inv s -> server_step parent l cfg app lbl s = Some o ->
  exists s', o = Ret s' /\ server_inv s' /\ forks_run s s'.
Proof.
  intros Hi E. destruct lbl as [| |lbl|pid]; cbn [server_step] in E.
  - destruct (accept_call _ _ _ _) as [s'|] eqn:Ec; [|done]. injection E as <-. exists s'. split; [done|].
    by apply accept_call_inv.
  - destruct (fork_call _ _ _ _) as [s'|] eqn:Ec; [|done]. injection E as <-. exists s'. split; [done|].
    by apply fork_call_inv.
  - destruct (is_alone lbl) eqn:Ha; [|done]. destruct (alone_step _ _ _ _) as [s'|] eqn:Ec; [|done]. injection E as <-.
    exists s'. split; [done|]. by eapply alone_step_inv.
  - destruct (kids s !! pid) as [kid|] eqn:Hk; [|unfold child_call in E; by rewrite Hk in E].
    destruct (child_call_inv s pid Hi) as (s' & Ec & Hs'); [by eexists|]. rewrite Ec in E. injection E as <-.
    by exists s'.
Qed.

Lemma forks_steps_app ls ls' t t' : Forking.steps cfg ls t = Some t' -> Forking.steps cfg (ls ++ ls') t = Forking.steps cfg ls' t'.
Proof.
  revert t. induction ls as [|lbl ls IH]; intros t E; cbn in E |- *; [by injection E as <-|].
  destruct (Forking.step cfg lbl t) as [t1|]; [|done]. by apply IH.
Qed.

Lemma server_steps_inv ls s o :
  server_inv s -> server_steps parent l cfg app ls s = Some o ->
  exists s', o = Ret s' /\ server_inv s' /\ forks_run s s'.
Proof.
  revert s. induction ls as [|lbl ls IH]; intros s Hi E; cbn [server_steps] in E.
  - injection E as <-. exists s. split_and!; [done..|]. by exists [].
  - destruct (server_step parent l cfg app lbl s) as [o1|] eqn:E1; [|done].
    destruct (server_step_inv _ _ _ Hi E1) as (s1 & -> & Hi1 & ls1 & Hr1).
    destruct (IH s1 Hi1 E) as (s' & -> & Hi' & ls' & Hr'). exists s'. split_and!; [done..|].
    exists (ls1 ++ ls'). by rewrite (forks_steps_app _ _ _ _ Hr1).
Qed.
End Inv.

Section Claim.
Context {K H : Type} `{ProcessLaws K} `{SiteHandlers H}.

(** C14. End to end, for a process per connection: whatever the order in which
    the parent accepts, forks and closes, the children make their system calls
    and exit, and the signals and the reaper come in between, no process panics,
    and the parent, the signals and the reaper do nothing that is not a run of
    [Forking].  The parent has open the descriptors it had and the stream it is
    handling; a child those of the parent but the listener, and its stream.
    Every client has been written a part of exactly the session of what was read
    from it, by whatever process, and all of it where [serve_connection] returns
    without an error; no two children share a connection; and a child can always
    make its next call. *)
Theorem forking_serves_sessions ls parent l cfg (k : K) (app : App H) o
    (Hcap : (cfg.(max_connections) <= usize_max)%N) (Hfit : fits app) (Hl : l ∈ table parent k)
    (Hparent : parent ∈ procs k)
    (Hs : server_steps parent l cfg app ls (Server_new (machine k)) = Some o) :
  exists s, o = Ret s /\ (exists fls, Forking.steps cfg fls Forks_new = Some s.(forks)) /\
    table parent s.(fk) = table parent k ∪ list_to_set s.(forks).(streams) /\
    (forall h, h ∈ s.(fk).(conns).(logs) -> sent h `prefix_of` session app [] (received h)) /\
    (forall pid kid, s.(kids) !! pid = Some kid ->
      let fd := kid.(kid_stream) in
      fd ∉ table parent k /\
      match kid.(place) with
      | Born => table pid s.(fk) = {[fd]} ∪ table parent k /\ log_of pid fd s.(fk).(conns) = Some []
      | AtWork t => table pid s.(fk) = {[fd]} ∪ table parent k ∖ {[l]} /\
          exists h, log_of pid fd s.(fk).(conns) = Some h /\ task_serves app h t
      | Leaving => table pid s.(fk) = table parent k ∖ {[l]}
      end /\
      exists s', child_call l cfg pid s = Some (Ret s')) /\
    (forall pid kid pid' kid' id, s.(kids) !! pid = Some kid -> s.(kids) !! pid' = Some kid' ->
      kid.(place) <> Leaving -> kid'.(place) <> Leaving ->
      file pid kid.(kid_stream) s.(fk).(conns) = Some id ->
      file pid' kid'.(kid_stream) s.(fk).(conns) = Some id -> pid = pid').
Proof.
  pose proof (fits_all app Hfit) as Hall.
  assert (server_inv parent l cfg app (table parent k) (Server_new (machine k))) as H0i by by apply server_start_inv.
  destruct (server_steps_inv parent l cfg app _ Hcap Hl Hall ls _ o H0i Hs) as (s & -> & Hi & Hrun).
  exists s. split_and!; [done|exact Hrun|apply (sv_table _ _ _ _ _ _ Hi)|..].
  - intros h Hh. pose proof (sv_logs _ _ _ _ _ _ Hi) as Hlogs. rewrite Forall_forall in Hlogs.
    destruct (Hlogs h Hh) as [a Hm]. rewrite (moves_session _ _ _ Hm). by eexists.
  - intros pid kid Hk. destruct (sv_kid _ _ _ _ _ _ Hi pid kid Hk) as (_ & Hb & Hp). split_and!; [done| |].
    + destruct (place kid); [done| |done]. destruct Hp as (Ht & h & Hlog & Hat). split; [done|].
      exists h. split; [done|]. by apply task_at_serves.
    + destruct (child_call_inv parent l cfg app _ Hcap Hl Hall s pid Hi) as (s' & E & _); [by eexists|]. by exists s'.
  - intros pid kid pid' kid' id Hk Hk' Hp Hp'. apply (sv_distinct _ _ _ _ _ _ Hi); by apply kid_holder.
Qed.
End Claim.

(** Process 1 has the listener, 3; the first client sends a request and ends
    its connection, the second only a request. *)
Definition host : Host := mkHost 1 {[1%Z := {[3%Z := 0%Z]}]} 1 2 [(1%Z, get_root); (1%Z, []); (2%Z, get_root)].

Definition fork_turns : list FLabel :=
  [FAccept; Alone CheckCap; Alone Reserve; FFork; FChild 3; FChild 3; Alone ParentDrop; FChild 3; FAccept; FChild 3;
   Alone CheckCap; Alone Reserve; FFork; FChild 3; FChild 3; Alone ParentDrop; FChild 4].

(** Both children have their connection as descriptor 4; the first has served
    its client. *)
Definition served_apart (s : ForkServer (Machine Host) Handler) : bool :=
  bool_decide (sent <$> s.(fk).(conns).(logs) = [answer sample_app sample_request; []]) &&
  match s.(kids) !! 3%Z, s.(kids) !! 4%Z with
  | Some (mkKid fd (AtWork (Finished (Ok _))) _), Some (mkKid fd' (AtWork SettingRead) _) =>
    bool_decide (fd = 4%Z /\ fd' = 4%Z)
  | _, _ => false
  end.

Lemma forking_serves_sessions_witness :
  exists s, server_steps 1 3 fork_config sample_app fork_turns (Server_new (machine host)) = Some (Ret s) /\
    served_apart s = true /\
    (forall h, h ∈ s.(fk).(conns).(logs) -> sent h `prefix_of` session sample_app [] (received h)) /\
    table 1 s.(fk) = {[3%Z]} /\ file 3 4 s.(fk).(conns) <> file 4 4 s.(fk).(conns).
Proof.
  pose proof (forking_serves_sessions fork_turns 1 3 fork_config host sample_app) as Hrun.
  assert (match server_steps 1 3 fork_config sample_app fork_turns (Server_new (machine host)) with
    | Some (Ret s) => served_apart s && bool_decide (s.(forks).(streams) = [] /\ is_Some (file 3 4 s.(fk).(conns)))
    | _ => false end = true) as Hok by (vm_compute; reflexivity).
  destruct (server_steps _ _ _ _ _ _) as [o|]; [|discriminate Hok].
  destruct (Hrun o) as (s & -> & _ & Htab & Hlogs & _ & Hdist);
    [vm_compute; congruence|exact sample_app_fits|vm_compute; reflexivity..|].
  apply andb_prop in Hok as [Hok Hst]. apply bool_decide_eq_true in Hst as [Hst [id Hid]].
  exists s. split_and!; [reflexivity|exact Hok|exact Hlogs|..].
  - rewrite Htab, Hst. vm_compute. reflexivity.
  - intros E. unfold served_apart in Hok. apply andb_prop in Hok as [_ Hk].
    destruct (kids s !! 3%Z) as [[fd [|[| | |[]]|] a]|] eqn:E3; try discriminate Hk.
    destruct (kids s !! 4%Z) as [[fd' [|[| | |]|] a']|] eqn:E4; try discriminate Hk.
    apply bool_decide_eq_true in Hk as [-> ->].
    discriminate (Hdist 3%Z _ 4%Z _ id E3 E4 ltac:(discriminate) ltac:(discriminate) Hid (eq_trans (eq_sym E) Hid)).
Defined.
