(* ===== verification/BlockingTrace.v ===== *)
(** * What the blocking accept loops serve

    The iterative model, the worker process of the preforked one and a child
    of the forking one, on the recording kernel of Trace: each client is served
    before the next, to the end or to an I/O error, and the records say what it
    was written. *)

From S2P Require Import Prelude RustStr Http Response Request RequestSpec RequestRefine Router Asset App Conn ConnSpec ConnProps Site Syscall Socket Listener SysPoll ConnTable EventIo EventIoProps Session Trace EpollTrace Sim Forking Blocking BlockingProps Preforked PreforkedProps.

(** ** The signal on a recording kernel *)

#[export] Program Instance traced_due {K} `{SignalDue K} : SignalDue (Traced K) := { due t := due t.(tk) }.
Next Obligation. intros K ? ? l t r t' Hs E. untrace E. eapply due_accept in E; [|exact Hs]. by destruct r. Qed.
Next Obligation. intros K ? ? fd n t r t' E. untrace E. apply due_read in E. by destruct r as [[|]|]. Qed.
Next Obligation. intros K ? ? fd bs t r t' E. untrace E. apply due_write in E. by destruct r as [[|]|]. Qed.
Next Obligation. intros K ? ? fd t. apply (due_close fd t.(tk)). Qed.
Next Obligation. intros K ? ? fd ns t r t' E. untrace E. by eapply due_read_timeout. Qed.
Next Obligation. intros K ? ? fd ns t r t' E. untrace E. by eapply due_write_timeout. Qed.

Section Rounds.
Context {K H : Type} `{KernelLaws K} `{SiteHandlers H}.

Lemma traced_accept_log l (t : Traced K) r t' :
  k_accept l t = (r, t') -> match r with Ok fd => begun fd t t' | Err _ => same_log t t' end.
Proof.
  intros E. cbn in E. unfold traced_accept in E. destruct (lift (k_accept l) t) as [r0 t0] eqn:E0.
  apply lift_inv in E0 as (k & _ & ->). by destruct r0; simplify_eq.
Qed.

Lemma timeouts_log fd cfg (t : Traced K) : same_log t (timeouts_set fd cfg t).
Proof.
  unfold timeouts_set.
  destruct (k_set_read_timeout fd _ t) as [[u|e] t1] eqn:E1; apply lift_log in E1; [|done].
  destruct (k_set_write_timeout fd _ t1) as [r t2] eqn:E2. apply lift_log in E2. by etrans.
Qed.

Lemma same_histories (t t' : Traced K) : same_log t t' -> histories t' = histories t.
Proof. unfold histories. by intros [-> ->]. Qed.

(** The record of a connection that is served as soon as it is accepted is
    what was exchanged with it. *)
Lemma begun_histories fd (t t1 t2 : Traced K) ios t3 :
  begun fd t t1 -> same_log t1 t2 -> performs fd t2 ios t3 -> histories t3 ≡ₚ ios :: histories t.
Proof.
  intros [Bc Bp] [Sc Sp] (Pc & Pp)%performs_log. unfold histories.
  rewrite Pc, Pp, Sc, Sp, Bc, Bp, alter_insert_eq. cbn [Datatypes.app].
  assert ((map_to_list (<[fd := ios]> t.(current))).*2 ≡ₚ ios :: (map_to_list (delete fd t.(current))).*2) as ->.
  { rewrite <-insert_delete_eq, map_to_list_insert by apply lookup_delete_eq. done. }
  destruct (current t !! fd) as [h|] eqn:Eh.
  - rewrite <-(map_to_list_delete _ _ _ Eh). cbn [fmap list_fmap snd]. by rewrite <-!Permutation_middle.
  - by rewrite <-Permutation_middle, delete_id.
Qed.

(** ** Clients served whole *)

(** What was exchanged with a client, and how its connection ended. *)
Definition served (app : App H) (x : list IO * result unit IoError) : Prop :=
  sent x.1 `prefix_of` session app [] (received x.1) /\
  (x.2 = Ok tt -> sent x.1 = session app [] (received x.1)).

Definition failed (x : list IO * result unit IoError) : bool := match x.2 with Ok _ => false | Err _ => true end.

(** [w'] is [w] after the clients [xs]. *)
Definition after (app : App H) (xs : list (list IO * result unit IoError)) (w w' : World (Traced K) H) : Prop :=
  histories w'.(kern) ≡ₚ xs.*1 ++ histories w.(kern) /\ Forall (served app) xs /\
  w'.(wapp) = counted (length xs) (length (List.filter failed xs)) w.(wapp).

Lemma moves_served app app' ios a r :
  same_site app app' -> moves app' (AReading []) ios a -> (r = Ok tt -> rests a) -> served app (ios, r).
Proof.
  intros Hs Hm%(moves_same _ _ _ _ _ Hs) Hr. pose proof (moves_session _ _ _ Hm) as Hout. split; cbn [fst snd].
  - rewrite Hout. by apply prefix_app_r.
  - intros Hok. specialize (Hr Hok). rewrite Hout. destruct a; [|done|]; cbn; by rewrite app_nil_r.
Qed.

Lemma round_after app l cfg (w w' : World (Traced K) H) :
  all_fit app -> same_site app w.(wapp) -> round_to l cfg w w' -> exists xs, after app xs w w' /\ opened w'.(kern) = opened w.(kern).
Proof.
  intros Hfit Hsame [fuel Hround]. pose proof (iterative_round_spec l cfg w (all_fit_same _ _ Hfit Hsame)) as Hs.
  destruct (k_accept l (kern w)) as [[fd|e] t1] eqn:Ea; apply traced_accept_log in Ea.
  - destruct Hs as (fuel1 & t2 & r & ios & Hf & Hp & Ho & a & Hm & Hr).
    pose proof (begun_histories _ _ _ _ _ _ Ea (timeouts_log fd cfg t1) Hp) as Hh.
    specialize (Hround (max fuel fuel1) ltac:(lia)). rewrite Hf in Hround by lia. injection Hround as <-.
    exists [(ios, r)]. unfold after. split; [|by destruct r]. split_and!; [by destruct r| |by destruct r].
    apply Forall_singleton. exact (moves_served _ (app_inc_connections w.(wapp)) _ _ _ Hsame Hm Hr).
  - destruct Hs as [Ho Hf]. specialize (Hround fuel ltac:(lia)). rewrite Hf in Hround. injection Hround as <-.
    exists []. split; [|exact Ho]. split_and!; [|constructor|done].
    change (histories t1 ≡ₚ histories (kern w)). by rewrite (same_histories _ _ Ea).
Qed.

Lemma after_site app xs w w' : after app xs w w' -> same_site app w.(wapp) -> same_site app w'.(wapp).
Proof. intros (_ & _ & ->) Hs. exact (same_site_trans _ _ _ Hs (counted_site _ _ _)). Qed.

Lemma rounds_after app l cfg (w w' : World (Traced K) H) :
  all_fit app -> same_site app w.(wapp) -> rtc (round_to l cfg) w w' ->
  exists xs, after app xs w w' /\ opened w'.(kern) = opened w.(kern).
Proof.
  intros Hfit Hs Hr. induction Hr as [w|w w1 w' Hround _ IH].
  - exists []. split; [|done]. split_and!; [done|constructor|done].
  - destruct (round_after app l cfg w w1 Hfit Hs Hround) as (xs & Ha & Ho).
    destruct IH as (ys & (Hh & Hf & Hw) & Ho'); [by eapply after_site|].
    destruct Ha as (Hh1 & Hf1 & Hw1). exists (ys ++ xs). split; [|congruence]. split_and!.
    + by rewrite Hh, Hh1, fmap_app, app_assoc.
    + by apply Forall_app.
    + rewrite Hw, Hw1, counted_add, List.filter_app, !length_app. done.
Qed.

(** Every client that was ever accepted is served whole, and counted. *)
Definition all_served (app : App H) (w' : World (Traced K) H) : Prop :=
  exists xs, histories w'.(kern) ≡ₚ xs.*1 /\ Forall (served app) xs /\
    w'.(wapp) = counted (length xs) (length (List.filter failed xs)) app.

Lemma after_all_served app k w xs w' :
  same_log (traced k) w.(kern) -> w.(wapp) = app -> after app xs w w' -> all_served app w'.
Proof.
  intros Hl <- (Hh & Hf & Hw). exists xs. split_and!; [|done|done].
  rewrite Hh, (same_histories _ _ Hl). by rewrite app_nil_r.
Qed.

Lemma iterative_rounds_run l cfg n (w : World (Traced K) H) :
  all_fit w.(wapp) ->
  exists fuel0 w', (forall fuel, fuel0 <= fuel -> iterative_rounds n fuel l cfg w = Ret w') /\
    rtc (round_to l cfg) w w'.
Proof.
  revert w. induction n as [|n IH]; intros w Hfit; [by exists 0, w|].
  pose proof (iterative_round_spec l cfg w Hfit) as Hs.
  assert (exists w1, round_to l cfg w w1 /\ all_fit w1.(wapp)) as (w1 & [fuel1 Hround] & Hfit1).
  { destruct (k_accept l (kern w)) as [[fd|e] t1].
    - destruct Hs as (fuel1 & t2 & r & ios & Hf & _). eexists. split; [by exists fuel1|].
      eapply all_fit_same; [exact Hfit|]. by destruct r.
    - destruct Hs as [_ Hf]. exists (set_kern t1 w). split; [by exists 0|done]. }
  destruct (IH w1 Hfit1) as (fuel2 & w' & Hrun & Hrtc). exists (max fuel1 fuel2), w'. split.
  - intros fuel Hf. cbn [iterative_rounds]. rewrite Hround by lia. apply Hrun. lia.
  - eapply rtc_l; [by exists fuel1|exact Hrtc].
Qed.
End Rounds.

Section Claim.
Context {K H : Type} `{SocketLaws K} `{SiteHandlers H}.

(** The iterative server, for [n] rounds. *)
Lemma iterative_serves n cfg (k : K) (app : App H) :
  all_fit app ->
  exists fuel0 r, (forall fuel, fuel0 <= fuel -> Iterative_serve n fuel cfg (mkWorld (traced k) app) = Ret r) /\
    match r with
    | Ok w => all_served app w
    | Err e => (bind_listener cfg.(addr) false (traced k)).1 = Err e
    end.
Proof.
  intros Hfit. unfold Iterative_serve. cbn [kern].
  pose proof (bind_listener_log cfg.(addr) false (traced k)) as Hl.
  destruct (bind_listener (addr cfg) false (traced k)) as [[l|e] t1]; [|by exists 0, (Err e)].
  destruct (iterative_rounds_run l cfg n (set_kern t1 (mkWorld (traced k) app)) Hfit) as (fuel0 & w' & Hrun & Hrtc).
  exists fuel0, (Ok w'). split; [intros fuel Hf; by rewrite Hrun|].
  destruct (rounds_after app l cfg (set_kern t1 (mkWorld (traced k) app)) w' Hfit (same_site_refl app) Hrtc) as (xs & Ha & _).
  exact (after_all_served app k (set_kern t1 (mkWorld (traced k) app)) xs w' Hl eq_refl Ha).
Qed.

(** The worker process. *)
Lemma worker_serves `{!SignalDue K} cfg (k : K) (app : App H) :
  all_fit app ->
  exists n0 fuel0 w' code, (forall n fuel, n0 <= n -> fuel0 <= fuel ->
      worker_process n fuel cfg (mkWorld (traced k) app) = Ret (w', code)) /\ all_served app w'.
Proof.
  intros Hfit. unfold worker_process, child_main. cbn [kern].
  pose proof (bind_listener_log cfg.(addr) true (traced k)) as Hl.
  assert (forall t' : Traced K, same_log (traced k) t' -> all_served app (set_kern t' (mkWorld (traced k) app))) as Hnone.
  { intros t' Hl'. apply (after_all_served app k (set_kern t' (mkWorld (traced k) app)) []); [exact Hl'|done|].
    split_and!; [done|constructor|done]. }
  destruct (bind_listener (addr cfg) true (traced k)) as [[l|e] t1].
  2: { by exists 0, 0, (set_kern t1 (mkWorld (traced k) app)), 1%N; split; [|apply Hnone]. }
  destruct (set_accept_timeout l SHUTDOWN_POLL t1) as [r t2] eqn:Et.
  assert (same_log (traced k) t2) as Hl2.
  { etrans; [exact Hl|]. unfold set_accept_timeout, syscall in Et.
    destruct (k_set_rcvtimeo _ _ _ t1) as [z t] eqn:E. apply lift_log in E. cbn [fst snd] in Et.
    by destruct (cvt z t); simplify_eq. }
  destruct r as [u|e].
  2: { by exists 0, 0, (set_kern t2 (mkWorld (traced k) app)), 1%N; split; [|apply Hnone]. }
  destruct (worker_loop_stops l cfg (due t2) (set_kern t2 (mkWorld (traced k) app)))
    as (fuel0 & w1 & c & e & Hloop & Hrtc & _); [done|done|].
  exists (S (due t2)), fuel0, (set_kern (k_close l (kern w1)) w1), 0%N. split.
  - intros n fuel Hn Hf. rewrite Hloop by (done || lia). done.
  - destruct (rounds_after app l cfg (set_kern t2 (mkWorld (traced k) app)) w1 Hfit (same_site_refl app) Hrtc) as (xs & (Hh & Hf & Hw) & _).
    apply (after_all_served app k (set_kern t2 (mkWorld (traced k) app)) xs); [exact Hl2|done|]. by split_and!.
Qed.

(** A child forked with the stream just accepted. *)
Lemma child_serves l fd cfg (k : K) t1 (app : App H) :
  all_fit app -> k_accept l (traced k) = (Ok fd, t1) ->
  exists fuel0 w' ios r, (forall fuel, fuel0 <= fuel ->
      child fuel fd l cfg (mkWorld t1 app) = Ret w' /\
      serve_connection fuel fd cfg (mkWorld (k_close l t1) app) = Ret (w', r)) /\
    histories w'.(kern) ≡ₚ [ios] /\ served app (ios, r) /\
    opened w'.(kern) = opened k ∖ {[l]} /\ w'.(wapp) = app.
Proof.
  intros Hfit Ea. pose proof (accept_effect _ _ _ _ Ea) as [Hnew Ho].
  apply traced_accept_log in Ea.
  destruct (serve_connection_spec fd cfg (mkWorld (k_close l t1) app) Hfit)
    as (fuel0 & t2 & r & ios & Hf & Hp & Ho2 & a & Hm & Hr).
  exists fuel0, (set_kern (k_close fd t2) (mkWorld (k_close l t1) app)), ios, r. split_and!.
  - intros fuel Hfuel. split; [|by apply Hf]. specialize (Hf fuel Hfuel). unfold child, set_kern in *. cbn [kern wapp] in *.
    by rewrite Hf.
  - assert (same_log t1 (timeouts_set fd cfg (k_close l t1))) as Hl by exact (timeouts_log fd cfg (k_close l t1)).
    exact (begun_histories fd (traced k) t1 _ ios t2 Ea Hl Hp).
  - exact (moves_served _ _ _ _ _ (same_site_refl app) Hm Hr).
  - change (opened (k_close fd t2) = opened k ∖ {[l]}). rewrite (proj1 (close_effect fd t2)), Ho2.
    cbn [kern]. rewrite (proj1 (close_effect l t1)), Ho. cbn in Hnew |- *. set_solver.
  - done.
Qed.

(** C24. End to end, with termination, for the servers that block, on a kernel
    whose clients each send a finite amount ([budget]: a successful read lowers
    it, no read, write, close or timeout raises it, a blocking accept may); a
    client that sends for ever would hold its server for ever.  With enough
    fuel the iterative one completes any number of rounds of its accept loop, and
    a preforked worker exits once the signal comes; neither panics, whatever the
    clients send and however reads, writes and accepts fail; each client accepted
    was written a prefix of, and unless its connection ended in an I/O error all
    of, the [session] of what was read from it; and the counters are the
    connections accepted and those that ended in an error. *)
Theorem blocking_loops_serve_sessions `{!SignalDue K} n cfg (k : K) (app : App H) (Hfit : fits app) :
  (exists fuel0 r, (forall fuel, fuel0 <= fuel -> Iterative_serve n fuel cfg (mkWorld (traced k) app) = Ret r) /\
    match r with
    | Ok w => all_served app w
    | Err e => (bind_listener cfg.(addr) false (traced k)).1 = Err e
    end) /\
  (exists n0 fuel0 w' code, (forall n fuel, n0 <= n -> fuel0 <= fuel ->
      worker_process n fuel cfg (mkWorld (traced k) app) = Ret (w', code)) /\ all_served app w') /\
  (forall l fd t1, k_accept l (traced k) = (Ok fd, t1) -> exists fuel0 w' ios r,
    (forall fuel, fuel0 <= fuel ->
      child fuel fd l cfg (mkWorld t1 app) = Ret w' /\
      serve_connection fuel fd cfg (mkWorld (k_close l t1) app) = Ret (w', r)) /\
    histories w'.(kern) ≡ₚ [ios] /\ served app (ios, r) /\
    opened w'.(kern) = opened k ∖ {[l]} /\ w'.(wapp) = app).
Proof.
  pose proof (fits_all app Hfit) as Hall.
  split_and!; [by apply iterative_serves|by apply worker_serves|intros l fd t1; by apply child_serves].
Qed.
End Claim.

(** ** A run *)

(** The records of two rounds: one client that sends the root request, and a
    wait without any. *)
Definition root_served (r : outcome (result (World (Traced Sim) Handler) IoError)) : bool :=
  match r with
  | Ret (Ok w) =>
    bool_decide (received <$> histories w.(kern) = [[get_root]]) &&
    bool_decide (sent <$> histories w.(kern) = [answer sample_app sample_request])
  | _ => false
  end.

(** A parent with its listener and a client that waits. *)
Definition forked_kernel : Sim := mkSim 0 0 {[3%Z]} 1 [(4%Z, get_root)] [] ∅ [] ∅.

Lemma blocking_loops_serve_sessions_witness :
  root_served (Iterative_serve 2 10 preforked_config (mkWorld (traced sim_worker.(kern)) sample_app)) = true /\
  (exists fuel0 w, (forall fuel, fuel0 <= fuel ->
      Iterative_serve 2 fuel preforked_config (mkWorld (traced sim_worker.(kern)) sample_app) = Ret (Ok w)) /\
    all_served sample_app w) /\
  (exists n0 fuel0 w' code, (forall n fuel, n0 <= n -> fuel0 <= fuel ->
      worker_process n fuel preforked_config (mkWorld (traced sim_worker.(kern)) sample_app) = Ret (w', code)) /\
    all_served sample_app w') /\
  (exists fd t1 fuel0 w' r, k_accept 3 (traced forked_kernel) = (Ok fd, t1) /\
    (forall fuel, fuel0 <= fuel ->
      child fuel fd 3 preforked_config (mkWorld t1 sample_app) = Ret w' /\
      serve_connection fuel fd preforked_config (mkWorld (k_close 3 t1) sample_app) = Ret (w', r)) /\
    opened w'.(kern) = {[3%Z]} ∖ {[3%Z]}).
Proof.
  destruct (blocking_loops_serve_sessions 2 preforked_config sim_worker.(kern) sample_app sample_app_fits)
    as ((fuel0 & r & Hf & Hr) & Hworker & _).
  destruct (blocking_loops_serve_sessions 0 preforked_config forked_kernel sample_app sample_app_fits)
    as (_ & _ & Hchild).
  split; [vm_compute; reflexivity|]. split; [|split; [exact Hworker|]].
  - destruct r as [w|e]; [by exists fuel0, w|]. exfalso.
    assert ((bind_listener preforked_config.(addr) false (traced sim_worker.(kern))).1 <> Err e) as Hne
      by (vm_compute; discriminate). by apply Hne.
  - destruct (k_accept 3 (traced forked_kernel)) as [[fd|e] t1] eqn:Ea; [|vm_compute in Ea; discriminate Ea].
    destruct (Hchild 3%Z fd t1 Ea) as (fuel1 & w' & ios & r' & Hrun & _ & _ & Ho & _).
    by exists fd, t1, fuel1, w', r'.
Defined.
