(* ===== verification/Fair.v ===== *)
(** * Fair schedules

    A system of steps under a schedule, and the rule by which something is
    shown to happen in the end: a measure no step raises, and at every moment a
    step of a thread that lowers it and stays possible until it is taken. *)

From S2P Require Import Prelude.

Section Schedule.
Context {St Lb : Type} (step : Lb -> St -> option (outcome St)).

(** A turn that is not possible is lost. *)
Definition turn (lbl : Lb) (s : St) : outcome St := default (Ret s) (step lbl s).

(** The first [n] turns. *)
Fixpoint run (sched : nat -> Lb) (n : nat) (s : St) : outcome St :=
  match n with
  | 0 => Ret s
  | S n => s ← run sched n s; turn (sched n) s
  end.

(** The labels [mine] get their turn again and again. *)
Definition fair (mine : Lb -> Prop) (sched : nat -> Lb) : Prop :=
  forall lbl, mine lbl -> forall n, exists m, n <= m /\ sched m = lbl.

(** ** The rule *)

Context {W : Type} (R : W -> W -> Prop) (mu : St -> W).

(** From [P] to [Q] within [I], by steps of [mine], once only [allowed] labels
    get turns. *)
Record progress (I P Q : St -> Prop) (mine allowed : Lb -> Prop) (helps : St -> Lb -> Prop) : Prop := {
  pg_wf : well_founded R;
  pg_keeps lbl s o : I s -> step lbl s = Some o -> exists s', o = Ret s' /\ I s';
  pg_helper s : I s -> P s -> exists h, mine h /\ helps s h;
  pg_enabled s h : I s -> P s -> helps s h -> is_Some (step h s);
  pg_stays lbl s s' : I s -> P s -> step lbl s = Some (Ret s') -> I s' -> Q s' \/ P s';
  pg_moves lbl s s' : allowed lbl -> I s -> P s -> step lbl s = Some (Ret s') -> I s' ->
    Q s' \/ P s' /\ (R (mu s') (mu s) \/
      mu s' = mu s /\ ~ helps s lbl /\ forall h, helps s h -> helps s' h);
}.

Lemma turn_keeps I P Q mine allowed helps lbl s :
  progress I P Q mine allowed helps -> I s -> exists s', turn lbl s = Ret s' /\ I s'.
Proof using Type.
  intros Hp Hi. unfold turn. destruct (step lbl s) as [o|] eqn:E; cbn; [|by exists s].
  by apply (pg_keeps _ _ _ _ _ _ Hp lbl s).
Qed.

Lemma run_keeps I P Q mine allowed helps sched n s :
  progress I P Q mine allowed helps -> I s -> exists s', run sched n s = Ret s' /\ I s'.
Proof using Type.
  intros Hp Hi. induction n as [|n (s1 & E & Hi1)]; [by exists s|]. cbn [run]. rewrite E.
  by eapply turn_keeps.
Qed.

(** What [h] can do it can do until it gets its turn, or something better
    has happened. *)
Lemma helper_waits I P Q mine allowed helps sched s0 n s h k :
  progress I P Q mine allowed helps -> I s0 -> (forall m, n <= m -> allowed (sched m)) ->
  run sched n s0 = Ret s -> P s -> helps s h ->
  (exists m s', n <= m /\ run sched m s0 = Ret s' /\ (Q s' \/ P s' /\ R (mu s') (mu s))) \/
  (exists s', run sched (n + k) s0 = Ret s' /\ P s' /\ mu s' = mu s /\ helps s' h).
Proof using Type.
  intros Hp Hi Hall Hrun HP Hh. induction k as [|k [Hdone|(s1 & Hrun1 & HP1 & Hmu1 & Hh1)]].
  - right. exists s. by rewrite Nat.add_0_r.
  - by left.
  - destruct (run_keeps _ _ _ _ _ _ sched (n + k) s0 Hp Hi) as (s1' & E & Hi1).
    rewrite Hrun1 in E. injection E as <-.
    assert (run sched (S (n + k)) s0 = turn (sched (n + k)) s1) as Hnext by (cbn [run]; by rewrite Hrun1).
    destruct (turn_keeps _ _ _ _ _ _ (sched (n + k)) s1 Hp Hi1) as (s2 & Ht & Hi2). rewrite Ht in Hnext.
    rewrite Nat.add_succ_r. unfold turn in Ht.
    destruct (step (sched (n + k)) s1) as [o|] eqn:E; cbn in Ht; [subst o|injection Ht as <-; right; by exists s1].
    destruct (pg_moves _ _ _ _ _ _ Hp _ s1 s2 (Hall (n + k) ltac:(lia)) Hi1 HP1 E Hi2) as [HQ|[HP2 [HR|(Hmu & _ & Hk)]]].
    + left. exists (S (n + k)), s2. split_and!; [lia|done|by left].
    + left. exists (S (n + k)), s2. split_and!; [lia|done|]. right. split; [done|by rewrite <-Hmu1].
    + right. exists s2. split_and!; [done|done|congruence|by apply Hk].
Qed.

Lemma progress_once I P Q mine allowed helps sched s0 n s :
  progress I P Q mine allowed helps -> fair mine sched -> (forall m, n <= m -> allowed (sched m)) ->
  I s0 -> run sched n s0 = Ret s -> P s ->
  exists m s', n <= m /\ run sched m s0 = Ret s' /\ (Q s' \/ P s' /\ R (mu s') (mu s)).
Proof using Type.
  intros Hp Hfair Hall Hi0 Hrun HP.
  destruct (run_keeps _ _ _ _ _ _ sched n s0 Hp Hi0) as (s' & E & Hi). rewrite Hrun in E. injection E as <-.
  destruct (pg_helper _ _ _ _ _ _ Hp s Hi HP) as (h & Hmine & Hh).
  destruct (Hfair h Hmine n) as (m & Hle & Hm).
  destruct (helper_waits _ _ _ _ _ _ sched s0 n s h (m - n) Hp Hi0 Hall Hrun HP Hh)
    as [Hdone|(s1 & Hrun1 & HP1 & Hmu1 & Hh1)]; [done|].
  replace (n + (m - n)) with m in Hrun1 by lia.
  destruct (run_keeps _ _ _ _ _ _ sched m s0 Hp Hi0) as (s1' & E & Hi1). rewrite Hrun1 in E. injection E as <-.
  destruct (pg_enabled _ _ _ _ _ _ Hp s1 h Hi1 HP1 Hh1) as [o Ho].
  destruct (pg_keeps _ _ _ _ _ _ Hp h s1 o Hi1 Ho) as (s2 & -> & Hi2).
  exists (S m), s2. split_and!; [lia|cbn [run]; rewrite Hrun1; unfold turn; cbn; by rewrite Hm, Ho|].
  assert (allowed h) as Ha by (rewrite <-Hm; by apply Hall).
  destruct (pg_moves _ _ _ _ _ _ Hp h s1 s2 Ha Hi1 HP1 Ho Hi2) as [HQ|[HP2 [HR|(_ & Hno & _)]]]; [by left| |done].
  right. split; [done|by rewrite <-Hmu1].
Qed.

Lemma progress_on I P Q mine allowed helps sched s0 n s :
  progress I P Q mine allowed helps -> fair mine sched -> (forall m, n <= m -> allowed (sched m)) ->
  I s0 -> run sched n s0 = Ret s -> P s ->
  exists m s', n <= m /\ run sched m s0 = Ret s' /\ I s' /\ Q s'.
Proof using Type.
  intros Hp Hfair Hall Hi0 Hrun HP. remember (mu s) as w eqn:Hw.
  revert n s Hall Hrun HP Hw. induction (pg_wf _ _ _ _ _ _ Hp w) as [w _ IH]. intros n s Hall Hrun HP Hw.
  destruct (progress_once _ _ _ _ _ _ sched s0 n s Hp Hfair Hall Hi0 Hrun HP)
    as (m & s' & Hle & Hrun' & [HQ|[HP' HR]]).
  - destruct (run_keeps _ _ _ _ _ _ sched m s0 Hp Hi0) as (s1 & E & Hi). rewrite Hrun' in E. injection E as <-.
    by exists m, s'.
  - rewrite <-Hw in HR. destruct (IH _ HR m s') as (m' & s'' & Hle' & Hrest); [intros m' ?; apply Hall; lia|done..|].
    exists m', s''. split; [lia|done].
Qed.

Lemma stays_until I P Q mine allowed helps sched s0 n s k :
  progress I P Q mine allowed helps -> I s0 -> run sched n s0 = Ret s -> P s ->
  (exists m s', n <= m /\ run sched m s0 = Ret s' /\ I s' /\ Q s') \/
  (exists s', run sched (n + k) s0 = Ret s' /\ P s').
Proof using Type.
  intros Hp Hi0 Hrun HP. induction k as [|k [Hdone|(s1 & Hrun1 & HP1)]].
  - right. exists s. by rewrite Nat.add_0_r.
  - by left.
  - destruct (run_keeps _ _ _ _ _ _ sched (n + k) s0 Hp Hi0) as (s1' & E & Hi1). rewrite Hrun1 in E. injection E as <-.
    destruct (run_keeps _ _ _ _ _ _ sched (S (n + k)) s0 Hp Hi0) as (s2 & Hrun2 & Hi2).
    pose proof Hrun2 as Ht. cbn [run] in Ht. rewrite Hrun1 in Ht. cbn in Ht. unfold turn in Ht.
    destruct (step (sched (n + k)) s1) as [o|] eqn:E; cbn in Ht.
    + subst o. destruct (pg_stays _ _ _ _ _ _ Hp _ s1 s2 Hi1 HP1 E Hi2) as [HQ|HP2].
      * left. exists (S (n + k)), s2. by split; [lia|].
      * right. exists s2. by rewrite Nat.add_succ_r.
    + injection Ht as <-. right. exists s1. by rewrite Nat.add_succ_r.
Qed.

(** Under a fair schedule [P] leads to [Q]. *)
Lemma leads_to I P Q mine allowed helps sched s0 n s :
  progress I P Q mine allowed helps -> fair mine sched -> (exists n0, forall m, n0 <= m -> allowed (sched m)) ->
  I s0 -> run sched n s0 = Ret s -> P s ->
  exists m s', n <= m /\ run sched m s0 = Ret s' /\ I s' /\ Q s'.
Proof using Type.
  intros Hp Hfair [n0 Hall] Hi0 Hrun HP.
  destruct (stays_until _ _ _ _ _ _ sched s0 n s n0 Hp Hi0 Hrun HP) as [Hdone|(s1 & Hrun1 & HP1)]; [done|].
  destruct (progress_on _ _ _ _ _ _ sched s0 (n + n0) s1 Hp Hfair) as (m & s' & Hle & Hrest); try done.
  { intros m Hm. apply Hall. lia. }
  exists m, s'. split; [lia|done].
Qed.

End Schedule.

(** ** Measures *)

(** Lexicographic order on measures of two and more parts. *)
Definition lex {A B} (R1 : A -> A -> Prop) (R2 : B -> B -> Prop) : A * B -> A * B -> Prop :=
  fun x y => R1 x.1 y.1 \/ x.1 = y.1 /\ R2 x.2 y.2.

Lemma lex_wf {A B} (R1 : A -> A -> Prop) (R2 : B -> B -> Prop) :
  well_founded R1 -> well_founded R2 -> well_founded (lex R1 R2).
Proof.
  intros H1 H2 [a b]. revert b. induction (H1 a) as [a _ IHa]. intros b.
  induction (H2 b) as [b _ IHb]. constructor. intros [a' b'] [Hlt|[Heq Hlt]]; cbn in *; [by apply IHa|].
  subst a'. by apply IHb.
Qed.

Definition lex2 : nat * nat -> nat * nat -> Prop := lex lt lt.
Definition lex3 : nat * (nat * nat) -> nat * (nat * nat) -> Prop := lex lt lex2.

Lemma lex2_wf : well_founded lex2.
Proof. apply lex_wf; apply lt_wf. Qed.
Lemma lex3_wf : well_founded lex3.
Proof. apply lex_wf; [apply lt_wf|apply lex2_wf]. Qed.
#[export] Hint Resolve lex2_wf lex3_wf : core.

(** ** A fair schedule *)

(** Every number again and again: 0, 0 1 2, 0 1 2 3 4, ... *)
Definition diagonal {Lb} (enum : nat -> Lb) (n : nat) : Lb := enum (n - Nat.sqrt n * Nat.sqrt n).

Lemma diagonal_fair {Lb} (enum : nat -> Lb) (mine : Lb -> Prop) :
  (forall lbl, mine lbl -> exists v, enum v = lbl) -> fair mine (diagonal enum).
Proof.
  intros Henum lbl Hm n. destruct (Henum lbl Hm) as [v <-]. set (k := n + v).
  exists (k * k + v). assert (Nat.sqrt (k * k + v) = k) as Hk by (apply Nat.sqrt_unique; lia).
  split; [nia|]. unfold diagonal. rewrite Hk. f_equal. lia.
Qed.

(** ** The first element that ... *)

Fixpoint first_at {A} (f : A -> bool) (l : list A) : nat :=
  match l with
  | [] => 0
  | x :: l => if f x then 0 else S (first_at f l)
  end.

Lemma first_at_in {A} (f : A -> bool) l x : x ∈ l -> f x = true -> exists y, l !! first_at f l = Some y /\ f y = true.
Proof.
  intros Hin Hx. induction l as [|y l IH]; [by apply not_elem_of_nil in Hin|]. cbn.
  destruct (f y) eqn:Hy; [by exists y|]. apply IH. apply elem_of_cons in Hin as [->|]; [congruence|done].
Qed.

Lemma first_at_eq {A} (f : A -> bool) l i x :
  l !! i = Some x -> f x = true -> (forall j y, j < i -> l !! j = Some y -> f y = false) -> first_at f l = i.
Proof.
  revert i. induction l as [|y l IH]; intros [|i] Hi Hf Hlt; try done; cbn in *.
  - injection Hi as ->. by rewrite Hf.
  - rewrite (Hlt 0 y) by (done || lia). f_equal. apply IH; [done..|]. intros j z Hj. apply (Hlt (S j)). lia.
Qed.

Lemma first_at_app {A} (f : A -> bool) l l' x : x ∈ l -> f x = true -> first_at f (l ++ l') = first_at f l.
Proof.
  intros Hin Hx. induction l as [|y l IH]; [by apply not_elem_of_nil in Hin|]. cbn.
  destruct (f y) eqn:Hy; [done|]. f_equal. apply IH. apply elem_of_cons in Hin as [->|]; [congruence|done].
Qed.
