(* ===== verification/ServingLive.v ===== *)
(** * Clients that end

    What it takes for the threads of Serving to come to an end under any
    schedule: each client sends a finite number of pieces.  Then every call a
    thread makes brings it nearer to its return, whatever the others do. *)

From S2P Require Import Prelude RustStr Http Response Request RequestSpec RequestRefine Router Asset App Conn ConnSpec ConnProps Site Syscall Socket ConnTable EventIo EventIoProps Session Trace Blocking BlockingProps Serving ServingProps Sim Fair.

(** [left_of fd k]: what the peer of [fd] has still to send, in reads. *)
Class FiniteClients (K : Type) `{Kernel K} := {
  left_of : Z -> K -> nat;
  left_read fd n k b bs k' : k_read fd n k = (Ok (b :: bs), k') -> left_of fd k' < left_of fd k;
  left_read_frame fd n k r k' fd' : k_read fd n k = (r, k') -> left_of fd' k' <= left_of fd' k;
  left_write_frame fd p k r k' fd' : k_write fd p k = (r, k') -> left_of fd' k' <= left_of fd' k;
  left_accept_frame l k r k' fd' : k_accept l k = (r, k') -> r <> Ok fd' -> left_of fd' k' <= left_of fd' k;
  left_close_frame fd k fd' : fd' <> fd -> left_of fd' (k_close fd k) <= left_of fd' k;
  left_read_timeout fd ns k r k' fd' : k_set_read_timeout fd ns k = (r, k') -> left_of fd' k' <= left_of fd' k;
  left_write_timeout fd ns k r k' fd' : k_set_write_timeout fd ns k = (r, k') -> left_of fd' k' <= left_of fd' k;
}.

#[export] Program Instance traced_clients {K} `{FiniteClients K} : FiniteClients (Traced K) := {
  left_of fd t := left_of fd t.(tk);
}.
Next Obligation. intros K ? ? fd n t b bs t' E. untrace E. by eapply left_read. Qed.
Next Obligation. intros K ? ? fd n t r t' fd' E. untrace E. apply (left_read_frame _ _ _ _ _ fd') in E. by destruct r as [[|]|]. Qed.
Next Obligation. intros K ? ? fd p t r t' fd' E. untrace E. apply (left_write_frame _ _ _ _ _ fd') in E. by destruct r as [[|]|]. Qed.
Next Obligation. intros K ? ? l t r t' fd' E Hr. untrace E. eapply left_accept_frame in E; [|exact Hr]. by destruct r. Qed.
Next Obligation. intros K ? ? fd t fd' Hne. by apply left_close_frame. Qed.
Next Obligation. intros K ? ? fd ns t r t' fd' E. untrace E. by eapply left_read_timeout. Qed.
Next Obligation. intros K ? ? fd ns t r t' fd' E. untrace E. by eapply left_write_timeout. Qed.

(** The calls to go: before the loop, to write what is pending, to read. *)
Definition task_rank (t : Task) : nat :=
  match t with
  | SettingRead => 3
  | SettingWrite => 2
  | Looping c WantWrite => 2 + match pending_write c with Ret p => length p | _ => 0 end
  | Looping _ _ => 1
  | Finished _ => 0
  end.

Definition task_left `{FiniteClients K} (fd : Z) (t : Task) (k : K) : nat * nat := (left_of fd k, task_rank t).

Section Task.
Context {K H : Type} `{KernelLaws K, !FiniteClients K} `{Handlers H} (cfg : ServerConfig).

Lemma task_rank_looping c a : refines c a ->
  task_rank (Looping c (a_action a)) = match a with AWriting u _ => 2 + length u | _ => 1 end.
Proof. intros Hr. pose proof (pending_write_refines _ _ Hr) as Hp. destruct a; cbn; [done|by rewrite Hp|done]. Qed.

(** The calls of a thread, of those it makes for others. *)
Lemma task_step_frame fd app t (k : K) t' k' fd' :
  task_step cfg fd app t k = Ret (t', k') -> left_of fd' k' <= left_of fd' k.
Proof.
  intros E. destruct t as [| |c []|r]; cbn [task_step loop_step] in E.
  - destruct (k_set_read_timeout _ _ k) as [r k1] eqn:Ek. simplify_eq. by eapply left_read_timeout.
  - destruct (k_set_write_timeout _ _ k) as [r k1] eqn:Ek. simplify_eq. by eapply left_write_timeout.
  - destruct (k_read _ _ k) as [r k1] eqn:Ek. apply (left_read_frame _ _ _ _ _ fd') in Ek.
    destruct r as [[|b bs]|e]; simplify_eq; try done.
    destruct (on_bytes c (b :: bs) app) as [[c1 act]| |]; by simplify_eq/=.
  - destruct (pending_write c) as [p| |]; try done. cbn [mbind outcome_bind] in E.
    destruct (k_write _ _ k) as [r k1] eqn:Ek. apply (left_write_frame _ _ _ _ _ fd') in Ek.
    destruct r as [n|e]; simplify_eq; try done. destruct (on_written (now k1) c n) as [c1 act]. by simplify_eq.
  - by simplify_eq.
  - by simplify_eq.
Qed.

(** Every call brings a thread nearer to its return. *)
Lemma task_step_lowers fd app h t (k : K) t' k' :
  fits app -> task_at app h t -> finished t = false -> task_step cfg fd app t k = Ret (t', k') ->
  lex2 (task_left fd t' k') (task_left fd t k).
Proof.
  intros Hfit Ht Hnf E. pose proof (task_step_frame _ _ _ _ _ _ fd E) as Hle.
  assert (task_rank t' < task_rank t -> lex2 (task_left fd t' k') (task_left fd t k)) as Hrank.
  { intros Hlt. unfold lex2, lex, task_left. cbn. lia. }
  destruct t as [| |c action|r]; cbn [task_step task_at] in *; [..|done].
  - destruct (k_set_read_timeout _ _ k) as [r k1]. simplify_eq. apply Hrank. destruct r; cbn; lia.
  - destruct (k_set_write_timeout _ _ k) as [r k1]. simplify_eq. apply Hrank. destruct r; cbn; lia.
  - destruct Ht as (a & _ & Hr & ->). rewrite (task_rank_looping _ _ Hr) in Hrank.
    destruct a as [s|u next|]; cbn [a_action loop_step] in E.
    + destruct (k_read _ _ k) as [[[|b bs]|e] k1] eqn:Ek; [simplify_eq; apply Hrank; cbn; lia| |simplify_eq; apply Hrank; cbn; lia].
      apply left_read in Ek. destruct (on_bytes c (b :: bs) app) as [[c1 act]| |]; try done.
      cbn [mbind outcome_bind] in E. simplify_eq. left. exact Ek.
    + rewrite (pending_write_refines _ _ Hr) in E. cbn [mbind outcome_bind] in E.
      destruct (k_write fd u k) as [[n|e] k1] eqn:Ek; [|simplify_eq; apply Hrank; cbn; lia].
      assert (0 < n) as Hpos.
      { pose proof (refines_unsent _ _ _ Hr). destruct u; [done|by eapply write_some]. }
      destruct (on_written_refines (now k1) c _ n Hr) as (c1 & Hon & Hr1 & _). rewrite Hon in E. simplify_eq.
      apply Hrank. eapply Nat.le_lt_trans; [exact (Nat.eq_le_incl _ _ (task_rank_looping _ _ Hr1))|].
      cbn [a_written]. destruct (Nat.ltb_spec n (length u)); [rewrite length_drop; lia|]. destruct next; lia.
    + simplify_eq. apply Hrank. cbn. lia.
Qed.
End Task.

(** ** A process *)

Section Crew.
Context {K H : Type} `{KernelLaws K, !FiniteClients K} `{SiteHandlers H} (cfg : ServerConfig) (app : App H) (base : gset Z).

(** How far the serving of a stream is. *)
Definition crew_left (f : option Z) (c : Crew (Traced K)) : nat * nat :=
  match f with
  | Some f => match c.(tasks) !! f with Some t => task_left f t c.(ck) | None => (0, 0) end
  | None => (0, 0)
  end.

(** What leaves the serving of [f]. *)
Definition unmoved (f : Z) (c c' : Crew (Traced K)) : Prop :=
  c'.(tasks) !! f = c.(tasks) !! f /\ left_of f c'.(ck) <= left_of f c.(ck).

Lemma unmoved_refl f c : unmoved f c c.
Proof. done. Qed.

Lemma unmoved_left f c c' :
  unmoved f c c' -> lex2 (crew_left (Some f) c') (crew_left (Some f) c) \/ crew_left (Some f) c' = crew_left (Some f) c.
Proof.
  intros [Ht Hl]. cbn. rewrite Ht. destruct (tasks c !! f) as [t|]; [|by right]. unfold task_left.
  destruct (decide (left_of f c'.(ck) = left_of f c.(ck))) as [->|]; [by right|].
  left. left. cbn in *. lia.
Qed.

Lemma accept_unmoved l c r c' f :
  crew_inv app base c -> crew_accept l c = (r, c') -> is_Some (c.(tasks) !! f) -> unmoved f c c'.
Proof.
  intros Hc Ea Hf. destruct (crew_accept_inv app base l c r c' Hc Ea) as (_ & Htk).
  unfold crew_accept in Ea. destruct (k_accept l (ck c)) as [r0 k] eqn:Ek. simplify_eq. cbn [tasks ck] in *.
  destruct r as [fd'|e]; (split; [|eapply left_accept_frame; [exact Ek|]]); cbn [tasks]; try done.
  all: assert (f <> fd') as Hne by (intros ->; destruct Hf, Htk; congruence).
  - by apply lookup_insert_ne.
  - congruence.
Qed.

Lemma close_unmoved fd c f : f <> fd -> unmoved f c (crew_close fd c).
Proof. intros Hne. split; [by apply lookup_delete_ne|by apply left_close_frame]. Qed.

(** A call of the thread of [fd]. *)
Lemma crew_step_left app' fd t c :
  all_fit app -> same_site app app' -> crew_inv app base c -> c.(tasks) !! fd = Some t -> finished t = false ->
  exists t' c', crew_step cfg app' fd c = Some (Ret c') /\ crew_inv app base c' /\ c'.(tasks) !! fd = Some t' /\
    lex2 (crew_left (Some fd) c') (crew_left (Some fd) c) /\ forall f, f <> fd -> unmoved f c c'.
Proof.
  intros Hfit Hsite Hc Ht Hnf.
  destruct (crew_step_inv cfg app base app' fd t c Hfit Hsite Hc Ht Hnf) as (t' & k' & Hst & Hcr & Hc' & _).
  destruct (cv_tasks _ _ _ Hc fd t Ht) as (h & _ & Hat). apply (task_at_same app app' h t Hsite) in Hat.
  exists t', (mkCrew k' (<[fd := t']> (tasks c))). split_and!; [done|done|apply lookup_insert_eq|..].
  - cbn [crew_left tasks ck]. rewrite lookup_insert_eq, Ht. by eapply task_step_lowers; [apply Hfit| | |].
  - intros f Hne. split; [by apply lookup_insert_ne|]. exact (task_step_frame cfg fd app' t (ck c) t' k' f Hst).
Qed.
End Crew.

(** What a peer of [Sim] sends. *)
Definition sim_left (fd : Z) (k : Sim) : nat := waiting fd k.(s_in).

#[export] Program Instance sim_clients : FiniteClients Sim := { left_of := sim_left }.
Next Obligation.
  intros fd n k b bs k' E. simpl in E. unfold sim_read, sim_left in *.
  destruct (dequeue fd (s_in k)) as [[c q]|] eqn:Hd; [|done]. injection E as E <-.
  destruct (dequeue_waiting _ _ _ _ fd Hd) as (_ & Hlt & _). apply Hlt. intros ->. by rewrite take_nil in E.
Qed.
Next Obligation.
  intros fd n k r k' fd' E. simpl in E. unfold sim_read, sim_left in *.
  destruct (dequeue fd (s_in k)) as [[c q]|] eqn:Hd; [|by simplify_eq]. injection E as _ <-.
  exact (proj1 (dequeue_waiting _ _ _ _ fd' Hd)).
Qed.
Next Obligation. intros fd p k r k' fd' E. simpl in E. unfold sim_write in E. by simplify_eq. Qed.
Next Obligation.
  intros l k r k' fd' E _. simpl in E. unfold sim_accept in E. destruct (s_backlog k); simpl in E; [by simplify_eq|].
  by case_match; simplify_eq.
Qed.
Next Obligation. done. Qed.
Next Obligation. intros fd ns k r k' fd' E. by simplify_eq/=. Qed.
Next Obligation. intros fd ns k r k' fd' E. by simplify_eq/=. Qed.
