(* ===== verification/Responsive.v ===== *)
(** * Peers that keep nobody waiting for ever

    What liveness of a readiness loop needs of the kernel and the peers: a
    descriptor that can make progress is reported after a finite number of
    polls, and is seldom reported for nothing; with epoll, no edge is lost.  What
    one turn of [drive_io] then does for its connection, and what the loops show
    of one client while they serve the others. *)

From S2P Require Import Prelude RustStr Http Response Request RequestSpec RequestRefine Router Asset App Conn ConnSpec ConnProps Site Syscall Socket SysPoll ConnTable EventIo EventIoProps Session Trace Blocking BlockingProps Sim Fair Serving ServingLive.

(** [revents] with a flag the loops look at. *)
Definition shows (r : N) : bool :=
  has_flag r (N.lor POLLERR POLLNVAL) || has_flag r POLLHUP || (has_flag r POLLIN || has_flag r POLLOUT).

(** [patience fd k]: a bound on the calls, in a row, that have nothing to show
    for [fd]: polls that do not report what it waits for, reads while its peer
    has still to send, and writes, that would block. *)
Class Responsive (K : Type) `{FiniteClients K} := {
  patience : Z -> K -> nat;
  poll_reports fds ms k n revs k' i fd ev : k_poll fds ms k = (n, revs, k') -> fds !! i = Some (fd, ev) ->
    ev = POLLIN /\ 0 < left_of fd k \/ ev = POLLOUT ->
    n <> (-1)%Z /\ (exists r, revs !! i = Some r /\ shows r = true) \/ patience fd k' < patience fd k;
  read_blocks fd n k e k' : k_read fd n k = (Err e, k') -> kind e = WouldBlock -> 0 < left_of fd k ->
    patience fd k' < patience fd k;
  (* a read of nothing is the end of what the peer sends; closing adds nothing *)
  read_end fd n k k' : k_read fd n k = (Ok [], k') -> (0 < n)%N -> left_of fd k' = 0;
  close_own fd k : left_of fd (k_close fd k) <= left_of fd k;
  write_blocks fd p k e k' : k_write fd p k = (Err e, k') -> kind e = WouldBlock ->
    patience fd k' < patience fd k;
  (* the other calls leave [left_of] and [patience], or better *)
  getfl_settles fd k r k' f : k_fcntl_getfl fd k = (r, k') -> left_of f k' <= left_of f k /\ patience f k' <= patience f k;
  setfl_settles fd fl k r k' f : k_fcntl_setfl fd fl k = (r, k') ->
    left_of f k' <= left_of f k /\ patience f k' <= patience f k;
  accept4_settles l k fd a k' f : k_accept4 l k = (fd, a, k') -> fd = (-1)%Z \/ f <> fd ->
    left_of f k' <= left_of f k /\ patience f k' <= patience f k;
  close_settles fd k f : f <> fd -> left_of f (k_close fd k) <= left_of f k /\ patience f (k_close fd k) <= patience f k;
  poll_settles fds ms k r k' f : k_poll fds ms k = (r, k') -> left_of f k' <= left_of f k /\ patience f k' <= patience f k;
  read_settles fd n k r k' f : k_read fd n k = (r, k') -> f <> fd ->
    left_of f k' <= left_of f k /\ patience f k' <= patience f k;
  write_settles fd p k r k' f : k_write fd p k = (r, k') -> f <> fd ->
    left_of f k' <= left_of f k /\ patience f k' <= patience f k;
}.

(** The connection of [fd] does not fail. *)
Class Faultless (K : Type) `{Kernel K} (fd : Z) := {
  read_fine n k e k' : k_read fd n k = (Err e, k') -> kind e = WouldBlock;
  write_fine p k e k' : k_write fd p k = (Err e, k') -> kind e = WouldBlock;
  poll_fine fds ms k n revs k' i ev r : k_poll fds ms k = (n, revs, k') -> fds !! i = Some (fd, ev) ->
    revs !! i = Some r -> has_flag r (N.lor POLLERR POLLNVAL) = false /\ has_flag r POLLHUP = false;
}.

#[export] Program Instance traced_responsive {K} `{Responsive K} : Responsive (Traced K) := {
  patience fd t := patience fd t.(tk);
}.
Next Obligation. intros K ? ? ? fds ms t n revs t' i fd ev E Hi Hev. untrace E. by eapply poll_reports. Qed.
Next Obligation. intros K ? ? ? fd n t e t' E He Hl. untrace E. by eapply read_blocks. Qed.
Next Obligation. intros K ? ? ? fd n t t' E Hn. untrace E. by eapply read_end. Qed.
Next Obligation. intros K ? ? ? fd t. exact (close_own fd t.(tk)). Qed.
Next Obligation. intros K ? ? ? fd p t e t' E He. untrace E. by eapply write_blocks. Qed.
Next Obligation. intros K ? ? ? fd t r t' f E. untrace E. by eapply getfl_settles. Qed.
Next Obligation. intros K ? ? ? fd fl t r t' f E. untrace E. by eapply setfl_settles. Qed.
Next Obligation. intros K ? ? ? l t fd a t' f E Hf. untrace E. eapply accept4_settles in E; [|done]. by destruct (is_minus_one _). Qed.
Next Obligation. intros K ? ? ? fd t f Hf. exact (close_settles fd t.(tk) f Hf). Qed.
Next Obligation. intros K ? ? ? fds ms t r t' f E. untrace E. by eapply poll_settles. Qed.
Next Obligation. intros K ? ? ? fd n t r t' f E Hf. untrace E. eapply read_settles in E; [|done]. by destruct r as [[|]|]. Qed.
Next Obligation. intros K ? ? ? fd p t r t' f E Hf. untrace E. eapply write_settles in E; [|done]. by destruct r as [[|]|]. Qed.

#[export] Program Instance traced_faultless {K} `{Faultless K fd} : Faultless (Traced K) fd.
Next Obligation. intros K ? fd ? n t e t' E. untrace E. by eapply read_fine. Qed.
Next Obligation. intros K ? fd ? p t e t' E. untrace E. by eapply write_fine. Qed.
Next Obligation. intros K ? fd ? fds ms t n revs t' i ev r E Hi Hr. untrace E. by eapply poll_fine. Qed.

Section Settled.
Context {K : Type} `{Responsive K}.

(** For [f], nothing has got worse. *)
Definition settled (f : Z) (k k' : K) : Prop := left_of f k' <= left_of f k /\ patience f k' <= patience f k.

#[export] Instance settled_preorder f : PreOrder (settled f).
Proof. unfold settled. split; [done|]. intros k1 k2 k3 [] []. split; lia. Qed.

Lemma performs_settles fd (k : K) ios k' f : performs fd k ios k' -> f <> fd -> settled f k k'.
Proof.
  intros Hp Hf. induction Hp as [k|k b bs k1 l k2 E _ IH|k p n k1 l k2 E _ IH|k r k1 E _|k p r k1 E _]; [done|..].
  - etrans; [by eapply read_settles|exact IH].
  - etrans; [by eapply write_settles|exact IH].
  - by eapply read_settles.
  - by eapply write_settles.
Qed.

Lemma set_nonblocking_settles fd (k : K) r k' f : set_nonblocking fd k = (r, k') -> settled f k k'.
Proof.
  unfold set_nonblocking, syscall. intros E. destruct (k_fcntl_getfl fd k) as [fl k1] eqn:E1.
  assert (settled f k k1) as H1' by by eapply getfl_settles. cbn [fst snd] in E. destruct (cvt fl k1) as [flags|e]; [|by simplify_eq].
  destruct (k_fcntl_setfl fd _ k1) as [r2 k2] eqn:E2. assert (settled f k1 k2) as H2' by by eapply setfl_settles.
  cbn [fst snd] in E. destruct (cvt r2 k2); simplify_eq; by etrans.
Qed.

(** Accepting, seen from a connection that is not the new one. *)
Lemma accept_nonblocking_call f l (k : K) r k' `{!KernelLaws K} :
  accept_nonblocking l k = (r, k') -> match r with Ok (Some (fd, _)) => fd <> f | _ => True end ->
  exists fd a, k_accept4 l k = (fd, a, k') /\ (fd = (-1)%Z \/ f <> fd).
Proof.
  unfold accept_nonblocking, cvt, is_minus_one. destruct (k_accept4 l k) as [[fd a] k1] eqn:E4.
  destruct (Z.eqb_spec fd (-1)) as [->|Hm]; intros E Hne.
  - exists (-1)%Z, a. split; [|by left]. by case_decide; injection E as _ <-.
  - pose proof E4 as E5. apply accept4_new in E5 as (_ & _ & _ & Ha & _); [|done].
    unfold sockaddr_to_socketaddr in E. exists fd, a.
    destruct Ha as [Ha|Ha]; rewrite Ha in E; cbn in E; injection E as <- <-; (split; [done|]); right; congruence.
Qed.

Lemma accept_nonblocking_settles f l (k : K) r k' `{!KernelLaws K} :
  accept_nonblocking l k = (r, k') -> match r with Ok (Some (fd, _)) => fd <> f | _ => True end -> settled f k k'.
Proof. intros E Hne. destruct (accept_nonblocking_call f l k r k' E Hne) as (fd & a & E4 & Hf). by eapply accept4_settles. Qed.
End Settled.

(** ** A turn of [drive_io] *)

Lemma performs_left {K} `{FiniteClients K} fd (k : K) ios k' f : performs fd k ios k' -> left_of f k' <= left_of f k.
Proof.
  intros Hp. induction Hp as [k|k b bs k1 l k2 E _ IH|k p n k1 l k2 E _ IH|k r k1 E _|k p r k1 E _]; [done|..].
  - etrans; [exact IH|by eapply left_read_frame].
  - etrans; [exact IH|by eapply left_write_frame].
  - by eapply left_read_frame.
  - by eapply left_write_frame.
Qed.

Definition unsent_of (a : AConn) : nat := match a with AWriting u _ => length u | _ => 0 end.

Lemma refines_unsent_of c a a' : refines c a -> refines c a' -> unsent_of a = unsent_of a'.
Proof.
  intros Hr Hr'. pose proof (pending_write_refines _ _ Hr) as E. rewrite (pending_write_refines _ _ Hr') in E.
  injection E as E. apply (f_equal length) in E. by destruct a, a'.
Qed.

Section Reach.
Context {K : Type} `{Responsive K} (fd : Z).

(** How far a connection with [u] bytes to send is from having nothing to do. *)
Definition reach (u : nat) (k : K) : nat * (nat * nat) := (left_of fd k, (u, patience fd k)).

Definition idle (u : nat) (k : K) : Prop := u = 0 /\ left_of fd k = 0.

(** At most as far as [mu], and nearer. *)
Definition within (mu : nat * (nat * nat)) (u : nat) (k : K) : Prop :=
  idle u k \/ reach u k = mu \/ lex3 (reach u k) mu.

Definition nearer (mu : nat * (nat * nat)) (u : nat) (k : K) : Prop := idle u k \/ lex3 (reach u k) mu.

Lemma nearer_within mu u k : nearer mu u k -> within mu u k.
Proof. intros [Hi|Hl]; [by left|by do 2 right]. Qed.

Lemma within_settled mu u k k' : settled fd k k' -> within mu u k -> within mu u k'.
Proof.
  intros [Hl Hp] [[-> Hz]|Hc]; [left; split; [done|lia]|]. right.
  destruct mu as [x [y z]]. unfold reach, lex3, lex2, lex in *. cbn in *.
  destruct Hc as [E|Hc]; [injection E as <- <- <-|lia].
  apply Nat.lt_eq_cases in Hl as [Hl|Hl]; [right; by left|]. apply Nat.lt_eq_cases in Hp as [Hp|Hp]; [right; by right; split; [|right]|].
  left. by rewrite Hl, Hp.
Qed.

Lemma nearer_settled mu u k k' : settled fd k k' -> nearer mu u k -> nearer mu u k'.
Proof.
  intros [Hl Hp] [[-> Hz]|Hc]; [left; split; [done|lia]|]. right.
  destruct mu as [x [y z]]. unfold reach, lex3, lex2, lex in *. cbn in *. lia.
Qed.

(** Something was exchanged. *)
Lemma exchanged_nearer mu u k u' k' :
  left_of fd k' < left_of fd k \/ left_of fd k' = left_of fd k /\ u' < u -> within mu u k -> nearer mu u' k'.
Proof.
  intros Hlt [[-> Hz]|Hc]; [lia|]. right. destruct mu as [x [y z]]. unfold reach, lex3, lex2, lex in *. cbn in *.
  destruct Hc as [E|Hc]; [injection E as <- <- <-|]; lia.
Qed.

(** A call was in vain. *)
Lemma blocked_nearer mu u k k' :
  left_of fd k' <= left_of fd k -> (0 < u \/ 0 < left_of fd k -> patience fd k' < patience fd k) ->
  within mu u k -> nearer mu u k'.
Proof.
  intros Hl Hp Hw. destruct (decide (u = 0 /\ left_of fd k = 0)) as [[-> Hz]|Hn]; [left; split; [done|lia]|].
  assert (patience fd k' < patience fd k) as Hlt by (apply Hp; lia). right.
  destruct Hw as [[-> Hz]|Hc]; [by destruct Hn|]. destruct mu as [x [y z]]. unfold reach, lex3, lex2, lex in *. cbn in *.
  destruct Hc as [E|Hc]; [injection E as <- <- <-|]; lia.
Qed.
End Reach.

Section Turn.
Context {K H : Type} `{KernelLaws K, !FiniteClients K, !Responsive K} `{Handlers H}.
Context (fd : Z) `{!Faultless K fd}.

(** What a turn does for a connection [from] where it is. *)
Definition brings (from : nat * (nat * nat) -> nat -> K -> Prop) (a : AConn) (w : World K H)
    (r : World K H * Connection * ConnAction) : Prop :=
  let '(w', c', act) := r in
  exists ios a', performs fd w.(kern) ios w'.(kern) /\ moves w.(wapp) a ios a' /\ refines c' a' /\
    (act = Close /\ rests a' /\ (left_of fd w'.(kern) = 0 \/ a' = AClosed) \/
     act = a_action a' /\ live a' /\
     forall mu, from mu (unsent_of a) w.(kern) -> nearer fd mu (unsent_of a') w'.(kern)).

Lemma brings_weaken a w r : brings (within fd) a w r -> brings (nearer fd) a w r.
Proof.
  destruct r as [[w' c'] act]. intros (ios & a' & Hp & Hm & Hr & Hcase). exists ios, a'. split_and!; [done..|].
  destruct Hcase as [?|(? & ? & Hn)]; [by left|right]. split_and!; [done..|]. intros mu Hw. by apply Hn, nearer_within.
Qed.

Lemma brings_step a io a1 k1 (w : World K H) r :
  (forall l k2, performs fd k1 l k2 -> performs fd w.(kern) (io :: l) k2) ->
  (forall l a2, moves w.(wapp) a1 l a2 -> moves w.(wapp) a (io :: l) a2) ->
  left_of fd k1 < left_of fd w.(kern) \/ left_of fd k1 = left_of fd w.(kern) /\ unsent_of a1 < unsent_of a ->
  brings (nearer fd) a1 (set_kern k1 w) r -> brings (within fd) a w r.
Proof.
  destruct r as [[w' c'] act]. intros Hp Hm Hlt (ios & a' & Hp' & Hm' & Hr & Hcase). exists (io :: ios), a'.
  split_and!; [by apply Hp|by apply Hm|done|]. destruct Hcase as [?|(? & ? & Hn')]; [by left|right].
  split_and!; [done..|]. intros mu Hw. by eapply Hn', exchanged_nearer.
Qed.

(** The loop stops. *)
Lemma brings_stop a c (w : World K H) : refines c a -> brings (nearer fd) a w (w, c, a_action a).
Proof.
  intros Hr. exists [], a. split_and!; [constructor|constructor|done|]. destruct a; [by right|by right|]. left. split_and!; [done|done|by right].
Qed.

Lemma brings_blocked a c (w w' : World K H) :
  performs fd w.(kern) [] w'.(kern) -> refines c a -> live a ->
  (0 < unsent_of a \/ 0 < left_of fd w.(kern) -> patience fd w'.(kern) < patience fd w.(kern)) ->
  brings (within fd) a w (w', c, a_action a).
Proof.
  intros Hp Hr Hl Hpat. exists [], a. split_and!; [done|constructor|done|]. right. split_and!; [done..|].
  intros mu. apply blocked_nearer; [by eapply performs_left|done].
Qed.

Lemma drive_loop_brings fuel drain w c a r :
  all_fit w.(wapp) -> refines c a -> live a -> drive_loop fuel drain fd w c (a_action a) = Ret r ->
  brings (within fd) a w r.
Proof.
  revert w c a. induction fuel as [|fuel IH]; intros w c a Hfit Hr Hl; [done|].
  assert (forall w c a, all_fit w.(wapp) -> refines c a -> drive_loop fuel drain fd w c (a_action a) = Ret r ->
    brings (nearer fd) a w r) as Hnext.
  { clear -IH. intros w c a Hfit Hr. destruct a; [intros E; apply brings_weaken; by eapply IH..|].
    destruct fuel; [done|]. intros E. injection E as <-. by apply (brings_stop AClosed). }
  destruct a as [s|u next|]; [| |done]; cbn [a_action drive_loop].
  - destruct (k_read fd READ_CHUNK (kern w)) as [[[|b bs]|e] k1] eqn:E.
    + intros Er. injection Er as <-. exists [], (AReading s). split_and!; [by eapply performs_no_read|constructor|done|]. left.
      split_and!; [done|done|left]. by eapply read_end.
    + destruct (on_bytes_refines w.(wapp) (Hfit _ (same_site_refl _)) c _ (b :: bs) Hr) as (c1 & Hon & Hr1 & _).
      cbn [set_kern wapp]. rewrite Hon. cbn [mbind outcome_bind]. intros Er.
      apply (brings_step _ (Received (b :: bs)) (a_bytes w.(wapp) (AReading s) (b :: bs)) k1).
      * intros l k2. by apply performs_read.
      * intros l a2. apply moves_in.
      * left. by eapply left_read.
      * destruct drain; cbn [negb] in Er; [by eapply Hnext|]. injection Er as <-. by apply brings_stop.
    + rewrite decide_True by by eapply read_fine. intros Er. injection Er as <-. apply (brings_blocked (AReading s)); [|done..|].
      * by eapply performs_no_read.
      * cbn. intros [?|Hleft]; [lia|]. eapply read_blocks; [done|by eapply read_fine|done].
  - pose proof (refines_unsent _ _ _ Hr) as Hu. destruct u as [|u0 us]; [done|].
    rewrite (pending_write_refines _ _ Hr). cbn [mbind outcome_bind]. remember (u0 :: us) as u eqn:Eu.
    destruct (k_write fd u (kern w)) as [[n|e] k1] eqn:E.
    + assert (0 < n) as Hn by (rewrite Eu in E; by eapply write_some). destruct n as [|n]; [lia|].
      destruct (on_written_refines (now k1) c _ (S n) Hr) as (c1 & Hon & Hr1 & _). cbn [set_kern kern]. rewrite Hon. intros Er.
      apply (brings_step _ (Sent (take (S n) u)) (a_written (AWriting u next) (S n)) k1).
      * intros l k2. by apply performs_write.
      * intros l a2. apply moves_out.
      * assert (unsent_of (a_written (AWriting u next) (S n)) < unsent_of (AWriting u next)).
        { assert (0 < length u) by (rewrite Eu; cbn; lia). cbn [a_written unsent_of].
          destruct (Nat.ltb_spec (S n) (length u)); cbn; [rewrite length_drop; lia|]. destruct next; cbn; lia. }
        pose proof (left_write_frame _ _ _ _ _ fd E). lia.
      * destruct (decide (a_action (a_written (AWriting u next) (S n)) = WantWrite)) as [Ha|Ha].
        { injection Er as <-. by apply brings_stop. }
        destruct drain; cbn [negb] in Er; [by eapply Hnext|]. injection Er as <-. by apply brings_stop.
    + rewrite decide_True by by eapply write_fine. intros Er. injection Er as <-. apply (brings_blocked (AWriting u next)); [|done..|].
      * by eapply performs_no_write.
      * intros _. eapply write_blocks; [done|by eapply write_fine].
Qed.

Lemma drive_io_brings drain w c a :
  all_fit w.(wapp) -> refines c a -> live a ->
  exists w' c' act, drive_io drain fd w c = Ret (w', c', act) /\ driven drain fd w a w' c' act /\
    brings (within fd) a w (w', c', act).
Proof.
  intros Hfit Hr Hl. destruct (drive_io_spec drain fd w c a Hfit Hr Hl) as (w' & c' & act & E & Hd).
  exists w', c', act. split_and!; [done..|]. unfold drive_io in E. rewrite (pending_write_refines _ _ Hr) in E.
  cbn [mbind outcome_bind] in E. eapply drive_loop_brings; [done..|]. rewrite <-E.
  f_equal. destruct a as [s|u next|]; [done| |done]. apply refines_unsent in Hr. by destruct u.
Qed.
End Turn.

(** ** An epoll that loses no edge

    An instance is [armed] for a descriptor while a readiness of it would be
    reported.  It always is level-triggered; edge-triggered a report takes it
    away, and it comes back when the registration is made or modified, and when
    a read or a write has found that there is no more to be had. *)

(** A flag the loops look at. *)
Definition shows_event (fl : N) : bool :=
  has_flag fl EPOLLERR || has_flag fl EPOLLHUP || (has_flag fl EPOLLIN || has_flag fl EPOLLOUT).

(** There is no more to be had of the socket for now. *)
Definition exhausted (p : bytes) (r : result nat IoError) : Prop :=
  match r with
  | Ok n => 0 < n < length p
  | Err e => kind e = WouldBlock
  end.

Class Notifying (K : Type) `{KernelLaws K, !FiniteClients K, !Responsive K} := {
  armed : Z -> Z -> K -> Prop;
  level_armed ep fd k mask data : interests k ep !! fd = Some (mask, data) -> has_flag mask EPOLLET = false ->
    armed ep fd k;
  ctl_arms ep op fd ev k r k' : k_epoll_ctl ep op fd ev k = (r, k') -> op <> EPOLL_CTL_DEL -> r <> (-1)%Z ->
    armed ep fd k';
  read_arms ep fd n k e k' mask data : k_read fd n k = (Err e, k') -> kind e = WouldBlock ->
    interests k ep !! fd = Some (mask, data) -> has_flag mask EPOLLIN = true -> armed ep fd k';
  write_arms ep fd p k r k' mask data : k_write fd p k = (r, k') -> exhausted p r ->
    interests k ep !! fd = Some (mask, data) -> has_flag mask EPOLLOUT = true -> armed ep fd k';
  (* what an armed descriptor waits for is reported, or [patience] is lost *)
  wait_reports ep cap ms k n evs k' fd mask data : k_epoll_wait ep cap ms k = (n, evs, k') ->
    interests k ep !! fd = Some (mask, data) -> armed ep fd k ->
    (n <> (-1)%Z /\ exists fl, (fl, data) ∈ take (Z.to_nat n) evs /\ shows_event fl = true) \/
    armed ep fd k' /\
      (has_flag mask EPOLLIN = true /\ 0 < left_of fd k \/ has_flag mask EPOLLOUT = true ->
       patience fd k' < patience fd k);
  (* the other calls leave it as it is *)
  getfl_armed ep f fd k r k' : k_fcntl_getfl fd k = (r, k') -> armed ep f k -> armed ep f k';
  setfl_armed ep f fd fl k r k' : k_fcntl_setfl fd fl k = (r, k') -> armed ep f k -> armed ep f k';
  accept4_armed ep f l k fd a k' : k_accept4 l k = (fd, a, k') -> fd = (-1)%Z \/ f <> fd ->
    armed ep f k -> armed ep f k';
  close_armed ep f fd k : f <> fd -> ep <> fd -> armed ep f k -> armed ep f (k_close fd k);
  ctl_armed ep f op fd ev k r k' : k_epoll_ctl ep op fd ev k = (r, k') -> f <> fd ->
    armed ep f k -> armed ep f k';
  read_armed ep f fd n k r k' : k_read fd n k = (r, k') -> f <> fd -> armed ep f k -> armed ep f k';
  write_armed ep f fd p k r k' : k_write fd p k = (r, k') -> f <> fd -> armed ep f k -> armed ep f k';
  ctl_settles ep op fd ev k r k' f : k_epoll_ctl ep op fd ev k = (r, k') -> settled f k k';
  wait_settles ep cap ms k r k' f : k_epoll_wait ep cap ms k = (r, k') -> settled f k k';
}.

(** No event speaks of a failure of [fd], and it can be registered anew. *)
Class Unfailing (K : Type) `{KernelLaws K} (fd : Z) := {
  wait_fine ep cap ms k n evs k' fl data : k_epoll_wait ep cap ms k = (n, evs, k') -> (fl, data) ∈ evs ->
    u64_as_fd data = fd -> has_flag fl EPOLLERR = false /\ has_flag fl EPOLLHUP = false;
  mod_fine ep ev k r k' : k_epoll_ctl ep EPOLL_CTL_MOD fd ev k = (r, k') ->
    is_Some (interests k ep !! fd) -> r <> (-1)%Z;
}.

#[export] Program Instance traced_notifying {K} `{Notifying K} : Notifying (Traced K) := {
  armed ep fd t := armed ep fd t.(tk);
}.
Next Obligation. intros K ? ? ? ? ? ep fd t mask data. cbn. apply level_armed. Qed.
Next Obligation. intros K ? ? ? ? ? ep op fd ev t r t' E. untrace E. by eapply ctl_arms. Qed.
Next Obligation. intros K ? ? ? ? ? ep fd n t e t' mask data E. untrace E. by eapply read_arms. Qed.
Next Obligation.
  intros K ? ? ? ? ? ep fd p t r t' mask data E. untrace E. destruct r as [[|n]|]; by eapply write_arms.
Qed.
Next Obligation. intros K ? ? ? ? ? ep cap ms t n evs t' fd mask data E. untrace E. by eapply wait_reports. Qed.
Next Obligation. intros K ? ? ? ? ? ep f fd t r t' E. untrace E. by eapply getfl_armed. Qed.
Next Obligation. intros K ? ? ? ? ? ep f fd fl t r t' E. untrace E. by eapply setfl_armed. Qed.
Next Obligation.
  intros K ? ? ? ? ? ep f l t fd a t' E Hf. untrace E. intros Ha. eapply accept4_armed in Ha; [|done..]. by destruct (is_minus_one _).
Qed.
Next Obligation. intros K ? ? ? ? ? ep f fd t Hf Hep. exact (close_armed ep f fd t.(tk) Hf Hep). Qed.
Next Obligation. intros K ? ? ? ? ? ep f op fd ev t r t' E. untrace E. by eapply ctl_armed. Qed.
Next Obligation. intros K ? ? ? ? ? ep f fd n t r t' E Hf. untrace E. destruct r as [[|]|]; by eapply read_armed. Qed.
Next Obligation. intros K ? ? ? ? ? ep f fd p t r t' E Hf. untrace E. destruct r as [[|]|]; by eapply write_armed. Qed.
Next Obligation. intros K ? ? ? ? ? ep op fd ev t r t' f E. untrace E. exact (ctl_settles _ _ _ _ _ _ _ f E). Qed.
Next Obligation. intros K ? ? ? ? ? ep cap ms t r t' f E. untrace E. exact (wait_settles _ _ _ _ _ _ f E). Qed.

#[export] Program Instance traced_unfailing {K} `{Unfailing K fd} : Unfailing (Traced K) fd.
Next Obligation. intros K ? ? fd ? ep cap ms t n evs t' fl data E. untrace E. by eapply wait_fine. Qed.
Next Obligation. intros K ? ? fd ? ep ev t r t' E. untrace E. by eapply mod_fine. Qed.

Section Armed.
Context {K : Type} `{Notifying K}.

Lemma performs_armed ep f fd (k : K) ios k' : performs fd k ios k' -> f <> fd -> armed ep f k -> armed ep f k'.
Proof.
  intros Hp Hf. induction Hp as [k|k b bs k1 l k2 E _ IH|k p n k1 l k2 E _ IH|k r k1 E _|k p r k1 E _]; [done|..]; intros Ha.
  - apply IH. by eapply read_armed.
  - apply IH. by eapply write_armed.
  - by eapply read_armed.
  - by eapply write_armed.
Qed.

Lemma set_nonblocking_armed ep f fd (k : K) r k' : set_nonblocking fd k = (r, k') -> armed ep f k -> armed ep f k'.
Proof.
  unfold set_nonblocking, syscall. intros E Ha. destruct (k_fcntl_getfl fd k) as [fl k1] eqn:E1.
  eapply getfl_armed in Ha; [|exact E1]. cbn [fst snd] in E. destruct (cvt fl k1) as [flags|e]; [|by simplify_eq].
  destruct (k_fcntl_setfl fd _ k1) as [r2 k2] eqn:E2. eapply setfl_armed in Ha; [|exact E2].
  cbn [fst snd] in E. by destruct (cvt r2 k2); simplify_eq.
Qed.

Lemma accept_nonblocking_armed ep f l (k : K) r k' :
  accept_nonblocking l k = (r, k') -> match r with Ok (Some (fd, _)) => fd <> f | _ => True end ->
  armed ep f k -> armed ep f k'.
Proof.
  intros E Hne. destruct (accept_nonblocking_call f l k r k' E Hne) as (fd & a & E4 & Hf). by eapply accept4_armed.
Qed.

(** A control call about another descriptor; and one that goes through. *)
Lemma ctl_other_armed ep f op fd ev (k : K) r k' :
  ok_unit (syscall (k_epoll_ctl ep op fd ev k)) = (r, k') -> f <> fd -> armed ep f k -> armed ep f k'.
Proof.
  unfold ok_unit, syscall. destruct (k_epoll_ctl ep op fd ev k) as [z k1] eqn:E. cbn [fst snd]. intros E' Hf Ha.
  eapply ctl_armed in Ha; [|exact E|done]. by destruct (cvt z k1); simplify_eq.
Qed.

Lemma ctl_ok_armed ep op fd ev (k : K) u k' :
  ok_unit (syscall (k_epoll_ctl ep op fd ev k)) = (Ok u, k') -> op <> EPOLL_CTL_DEL -> armed ep fd k'.
Proof.
  unfold ok_unit, syscall, cvt, is_minus_one. destruct (k_epoll_ctl ep op fd ev k) as [z k1] eqn:E. cbn [fst snd].
  destruct (Z.eqb_spec z (-1)); [done|]. intros E' Hop. injection E' as _ <-. by eapply ctl_arms.
Qed.

Lemma ctl_any_settles ep f op fd ev (k : K) r k' :
  ok_unit (syscall (k_epoll_ctl ep op fd ev k)) = (r, k') -> settled f k k'.
Proof.
  unfold ok_unit, syscall. destruct (k_epoll_ctl ep op fd ev k) as [z k1] eqn:E. cbn [fst snd]. intros E'.
  eapply (ctl_settles _ _ _ _ _ _ _ f) in E. by destruct (cvt z k1); simplify_eq.
Qed.

Lemma Epoll_wait_settles f ep cap t (k : K) r k' : Epoll_wait ep cap t k = (r, k') -> settled f k k'.
Proof.
  unfold Epoll_wait. destruct (k_epoll_wait ep _ _ k) as [[n raw] k1] eqn:E. intros E'.
  eapply (wait_settles _ _ _ _ _ _ f) in E. by destruct (cvt n k1); simplify_eq.
Qed.

(** After a turn that drained the socket. *)
Lemma drained_armed ep fd (k : K) act mask data :
  drained fd k act -> interests k ep !! fd = Some (mask, data) ->
  (act = WantRead -> has_flag mask EPOLLIN = true) -> (act = WantWrite -> has_flag mask EPOLLOUT = true) ->
  act <> Close -> armed ep fd k.
Proof.
  intros Hd Hi Hin Hout Hc. destruct act; [| |done].
  - destruct Hd as (k1 & e & E & Hk). pose proof (read_frame _ _ _ _ _ E) as (_ & Hfr & _). rewrite Hfr in Hi.
    by eapply read_arms; [..|apply Hin].
  - destruct Hd as (k1 & p & r & E & Hk). pose proof (write_frame _ _ _ _ _ E) as (_ & Hfr & _). rewrite Hfr in Hi.
    by eapply write_arms; [..|apply Hout].
Qed.
End Armed.

(** ** One client of an event loop

    Whether it is still served and how far it is from having nothing to do, or
    has been answered; and what a turn of its own does. *)

Section Follow.
Context {K H : Type} `{KernelLaws K, !FiniteClients K, !Responsive K} `{SiteHandlers H}.
(** The client was followed from when [h0] had been exchanged with it. *)
Context (app : App H) (fd : Z) (h0 : list IO).

(** The connections of a loop, and its kernel. *)
Notation view := (gmap Z Slot * Traced K)%type.

Definition followed (t : Traced K) : Prop := exists h, t.(current) !! fd = Some h /\ h0 `prefix_of` h.

(** Its client has been written all it is to be written: the session of what it
    has sent, which is all it sends, or as much as its state machine takes. *)
Definition answered (t : Traced K) : Prop :=
  exists h, t.(current) !! fd = Some h /\ h0 `prefix_of` h /\ sent h = session app [] (received h) /\
    (left_of fd t = 0 \/ moves app (AReading []) h AClosed).

Definition ended (v : view) : Prop := v.1 !! fd = None /\ answered v.2.

(** It is in the table, [P] of its way. *)
Definition served (P : nat -> Traced K -> Prop) (v : view) : Prop :=
  exists s a, v.1 !! fd = Some s /\ refines s.(conn) a /\ P (unsent_of a) v.2 /\ followed v.2.

(** What is done to it while others are served. *)
Definition others (v v' : view) : Prop :=
  v'.1 !! fd = v.1 !! fd /\ settled fd v.2 v'.2 /\ v'.2.(current) !! fd = v.2.(current) !! fd.

#[export] Instance others_preorder : PreOrder others.
Proof.
  split; [by intros v|]. intros v1 v2 v3 (Hs1 & Ht1 & Hc1) (Hs2 & Ht2 & Hc2).
  split_and!; [congruence|by etrans|congruence].
Qed.

Lemma others_kernel (tbl : gmap Z Slot) t t' :
  settled fd t t' -> same_log t t' -> others (tbl, t) (tbl, t').
Proof. intros Ht [Hc _]. split_and!; [done|done|]. cbn. by rewrite Hc. Qed.

Lemma others_followed v v' : others v v' -> followed v.2 -> followed v'.2.
Proof. intros (_ & _ & Hc) (h & Hh & Hp). exists h. split; [congruence|done]. Qed.

Lemma others_ended v v' : others v v' -> ended v -> ended v'.
Proof.
  intros (Hs & [Hl _] & Hc) [Hn (h & Hh & Hpre & E & Hz)]. split; [congruence|]. exists h. split_and!; [congruence|done..|].
  destruct Hz as [Hz|]; [left; lia|by right].
Qed.

(** Once it is closed. *)
Lemma answered_closed t t' :
  answered t -> left_of fd t' <= left_of fd t -> t'.(current) = t.(current) -> answered t'.
Proof.
  intros (h & Hh & Hpre & E & Hz) Hl Hc. exists h. split_and!; [congruence|done..|].
  destruct Hz as [Hz|]; [left; lia|by right].
Qed.

Lemma others_within v v' mu : others v v' -> served (within fd mu) v -> served (within fd mu) v'.
Proof.
  intros Ho (s & a & Hsl & Hr & Hw & Hf). exists s, a. pose proof (others_followed _ _ Ho Hf).
  destruct Ho as (Hs & Ht & _). split_and!; [congruence|done|by eapply within_settled|done].
Qed.

Lemma others_nearer v v' mu : others v v' -> served (nearer fd mu) v -> served (nearer fd mu) v'.
Proof.
  intros Ho (s & a & Hsl & Hr & Hw & Hf). exists s, a. pose proof (others_followed _ _ Ho Hf).
  destruct Ho as (Hs & Ht & _). split_and!; [congruence|done|by eapply nearer_settled|done].
Qed.

Lemma served_nearer_within mu v : served (nearer fd mu) v -> served (within fd mu) v.
Proof. intros (s & a & Hs & Hr & Hn & Hf). exists s, a. split_and!; [done|done|by apply nearer_within|done]. Qed.

(** Where it is, by its record. *)
Record serving (v : view) (s : Slot) (a : AConn) (h : list IO) : Prop := {
  se_slot : v.1 !! fd = Some s;
  se_refines : refines s.(conn) a;
  se_live : live a;
  se_log : v.2.(current) !! fd = Some h;
  se_moves : moves app (AReading []) h a;
}.

Lemma faithful_serving v s a0 :
  faithful app v.1 v.2 -> v.1 !! fd = Some s -> refines s.(conn) a0 -> live a0 ->
  exists a h, serving v s a h /\ unsent_of a = unsent_of a0 /\ a_action a = a_action a0.
Proof.
  intros Hf Hs Hr0 Hl0. destruct (fa_slots _ _ _ Hf fd s Hs) as (h & a & Hh & Hm & Hr).
  change (refines s.(conn) a) in Hr. exists a, h. split_and!.
  - split; [done|done|exact (refines_live _ _ _ Hr0 Hr Hl0)|done|done].
  - exact (refines_unsent_of _ _ _ Hr Hr0).
  - pose proof (refines_action _ _ Hr) as E. by rewrite (refines_action _ _ Hr0) in E.
Qed.

Lemma rests_answered h a : moves app (AReading []) h a -> rests a -> sent h = session app [] (received h).
Proof. intros Hm Hr. rewrite (moves_session _ _ _ Hm). destruct a; [|done|]; cbn; by rewrite app_nil_r. Qed.

(** With nothing to do, it has been answered. *)
Lemma idle_answered v s a :
  faithful app v.1 v.2 -> v.1 !! fd = Some s -> refines s.(conn) a -> live a ->
  idle fd (unsent_of a) v.2 -> followed v.2 -> answered v.2.
Proof.
  intros Hf Hs Hra Hl [Hu Hz] (h' & Hh' & Hpre).
  destruct (faithful_serving v s a Hf Hs Hra Hl) as (a' & h & [_ Hra' _ Hh Hm] & Hu' & _).
  rewrite Hh' in Hh. injection Hh as ->. exists h. split_and!; [done..| |by left]. eapply rests_answered; [done|].
  rewrite <-Hu' in Hu. destruct a' as [|u next|]; [done| |done]. apply refines_unsent in Hra'. by destruct u.
Qed.

(** A turn of its own: it is answered and to be closed, or kept, nearer. *)
Lemma turn `{!Faultless K fd} drain (w : World (Traced K) H) tbl s a0 mu :
  all_fit w.(wapp) -> same_site app w.(wapp) -> faithful app tbl w.(kern) -> tbl !! fd = Some s ->
  refines s.(conn) a0 -> live a0 -> within fd mu (unsent_of a0) w.(kern) -> followed w.(kern) ->
  exists w' c act a, drive_io drain fd w s.(conn) = Ret (w', c, act) /\ driven drain fd w a w' c act /\
    (act = Close /\ answered w'.(kern) \/
     exists a', refines c a' /\ live a' /\ act = a_action a' /\
       nearer fd mu (unsent_of a') w'.(kern) /\ followed w'.(kern)).
Proof.
  intros Hfit Hsite Hf Hs Hr0 Hl0 Hw (h' & Hh' & Hpre).
  destruct (faithful_serving (tbl, w.(kern)) s a0 Hf Hs Hr0 Hl0) as (a & h & [_ Hra Hl Hh Hm] & Hu & _).
  cbn [snd] in Hh. rewrite Hh' in Hh. injection Hh as ->. rewrite <-Hu in Hw.
  destruct (drive_io_brings fd drain w s.(conn) a Hfit Hra Hl)
    as (w' & c & act & E & Hd & (ios & a' & Hp & Hm' & Hr' & Hcase)).
  exists w', c, act, a. split_and!; [done..|]. apply (moves_same app) in Hm'; [|done].
  pose proof (moves_trans _ _ _ _ _ _ Hm Hm') as Hall. destruct (performs_log _ _ _ _ Hp) as [Hcur _].
  assert (w'.(kern).(current) !! fd = Some (h ++ ios)) as Hnow by by rewrite Hcur, lookup_alter_eq, Hh'.
  assert (h0 `prefix_of` h ++ ios) as Hpre' by by apply prefix_app_r.
  destruct Hcase as [(-> & Hrest & Hz)|(Ha & Hl' & Hn)]; [left|right].
  - split; [done|]. exists (h ++ ios). split_and!; [done..|by eapply rests_answered|].
    destruct Hz as [Hz| ->]; [by left|by right].
  - exists a'. split_and!; [done..|by apply Hn|]. by exists (h ++ ios).
Qed.
End Follow.
