(* ===== verification/SimReady.v ===== *)
(** * A kernel whose polls tell the truth

    [Sim], but for the script: a poll reports a descriptor asked for writing,
    and one asked for reading for which a chunk waits; while connections wait
    to be accepted it reports all the others too.  So does waiting with epoll,
    but a descriptor that is registered edge-triggered is reported only once
    after it was registered or modified, or a read of it would have blocked.
    The shutdown flag stays down. *)

From S2P Require Import Prelude RustStr Http Response Request Router Asset App Conn ConnSpec ConnProps Site Syscall Socket SysPoll ConnTable EventIo EventIoProps Session Trace Sim Fair Serving ServingLive Responsive.

(** [redges]: the epoll instances and descriptors whose edge is to come. *)
Record Ready := mkReady { rk : Sim; redges : gset (Z * Z) }.

Definition onto {R} (f : Sim -> R * Sim) (k : Ready) : R * Ready :=
  let '(r, s) := f k.(rk) in (r, mkReady s k.(redges)).

(** A read would not block. *)
Definition has_input (fd : Z) (k : Sim) : bool :=
  match dequeue fd k.(s_in) with Some _ => true | None => false end.

Lemma left_has_input fd k : 0 < sim_left fd k -> has_input fd k = true.
Proof.
  unfold sim_left, has_input. intros Hl. destruct (dequeue fd (s_in k)) eqn:Hd; [done|].
  apply dequeue_none in Hd. lia.
Qed.

Definition ready_revents (k : Sim) (fd : Z) (ev : N) : N :=
  if (ev =? POLLOUT)%N then POLLOUT
  else if has_input fd k || (0 <? k.(s_backlog)) then POLLIN else 0%N.

Definition ready_poll (fds : list (Z * N)) (k : Sim) : Z * list N * Sim :=
  (1%Z, (fun p => ready_revents k p.1 p.2) <$> fds, sim_tick 1000000 k.(s_script) k).

Definition ready_ctl (ep : Z) (op : EpollOp) (fd : Z) (ev : N * N) (k : Ready) : Z * Ready :=
  let '(r, s) := sim_ctl ep op fd ev k.(rk) in
  (r, mkReady s (match op with EPOLL_CTL_DEL => k.(redges) | _ => {[(ep, fd)]} ∪ k.(redges) end)).

Definition ready_flags (k : Sim) (fd : Z) (mask : N) : N :=
  if has_flag mask EPOLLOUT then EPOLLOUT
  else if has_flag mask EPOLLIN && (has_input fd k || (0 <? k.(s_backlog))) then EPOLLIN else 0%N.

(** Whether a registration is reported. *)
Definition reports (k : Ready) (ep fd : Z) (mask : N) : bool :=
  negb (ready_flags k.(rk) fd mask =? 0)%N && (negb (has_flag mask EPOLLET) || bool_decide ((ep, fd) ∈ k.(redges))).

Definition ready_wait (ep : Z) (k : Ready) : Z * list (N * N) * Ready :=
  let hits := List.filter (fun p => reports k ep p.1 p.2.1) (map_to_list (sim_interests k.(rk) ep)) in
  (Z.of_nat (length hits), (fun p => (ready_flags k.(rk) p.1 p.2.1, p.2.2)) <$> hits,
   mkReady (sim_tick 1000000 k.(rk).(s_script) k.(rk))
     (k.(redges) ∖ list_to_set ((fun p => (ep, p.1)) <$> hits))).

Definition ready_read (fd : Z) (n : N) (k : Ready) : result bytes IoError * Ready :=
  let '(r, s) := sim_read fd n k.(rk) in
  (r, mkReady s (match r with
                 | Ok _ => k.(redges)
                 | Err _ => set_map (fun ep => (ep, fd)) (dom k.(rk).(s_reg)) ∪ k.(redges)
                 end)).

#[export] Instance ready_kernel : Kernel Ready := {
  last_errno k := last_errno k.(rk);
  now k := now k.(rk);
  shutdown _ := false;
  k_fcntl_getfl fd := onto (k_fcntl_getfl fd);
  k_fcntl_setfl fd fl := onto (k_fcntl_setfl fd fl);
  k_accept4 l := onto (k_accept4 l);
  k_close fd k := mkReady (k_close fd k.(rk)) k.(redges);
  k_epoll_create1 := onto k_epoll_create1;
  k_epoll_ctl := ready_ctl;
  k_epoll_wait ep _ _ := ready_wait ep;
  k_poll fds _ := onto (ready_poll fds);
  k_read := ready_read;
  k_write fd p := onto (k_write fd p);
  k_accept l := onto (k_accept l);
  k_set_read_timeout fd ns := onto (k_set_read_timeout fd ns);
  k_set_write_timeout fd ns := onto (k_set_write_timeout fd ns);
  budget k := budget k.(rk);
}.

Lemma onto_inv {R} (f : Sim -> R * Sim) k r k' : onto f k = (r, k') -> f k.(rk) = (r, k'.(rk)).
Proof. unfold onto. destruct (f (rk k)) as [r0 s]. intros E. by simplify_eq. Qed.

Lemma onto_edges {R} (f : Sim -> R * Sim) k r k' : onto f k = (r, k') -> k'.(redges) = k.(redges).
Proof. unfold onto. destruct (f (rk k)) as [r0 s]. intros E. by simplify_eq. Qed.

Lemma ready_ctl_inv ep op fd ev k r k' : ready_ctl ep op fd ev k = (r, k') ->
  k_epoll_ctl ep op fd ev k.(rk) = (r, k'.(rk)) /\
  k'.(redges) = match op with EPOLL_CTL_DEL => k.(redges) | _ => {[(ep, fd)]} ∪ k.(redges) end.
Proof. cbn [k_epoll_ctl sim_kernel]. unfold ready_ctl. destruct (sim_ctl ep op fd ev (rk k)) as [r0 s]. intros E. by simplify_eq. Qed.

Lemma ready_read_inv fd n k r k' : ready_read fd n k = (r, k') ->
  k_read fd n k.(rk) = (r, k'.(rk)) /\
  k'.(redges) = match r with
                | Ok _ => k.(redges)
                | Err _ => set_map (fun ep => (ep, fd)) (dom k.(rk).(s_reg)) ∪ k.(redges)
                end.
Proof. cbn [k_read sim_kernel]. unfold ready_read. destruct (sim_read fd n (rk k)) as [r0 s]. intros E. by simplify_eq. Qed.

#[export] Program Instance ready_laws : KernelLaws Ready := {
  opened k := opened k.(rk);
  interests k := interests k.(rk);
}.
Next Obligation. intros l k fd a k' E%onto_inv Hfd. exact (accept4_new _ _ _ _ _ E Hfd). Qed.
Next Obligation. intros l k a k' E%onto_inv. exact (accept4_fail _ _ _ _ E). Qed.
Next Obligation. intros fd k r k' E%onto_inv. exact (getfl_frame _ _ _ _ E). Qed.
Next Obligation. intros fd fl k r k' E%onto_inv. exact (setfl_frame _ _ _ _ _ E). Qed.
Next Obligation. intros fd k. exact (close_effect fd k.(rk)). Qed.
Next Obligation. intros k ep k' E%onto_inv Hep. exact (create1_new _ _ _ E Hep). Qed.
Next Obligation. intros k k' E%onto_inv. exact (create1_fail _ _ E). Qed.
Next Obligation. intros ep op fd ev k r k' [E _]%ready_ctl_inv. exact (ctl_effect _ _ _ _ _ _ _ E). Qed.
Next Obligation. intros ep cap ms k r evs k' E. injection E as _ _ <-. done. Qed.
Next Obligation. intros fds ms k r revs k' E%onto_inv. injection E as _ _ E. cbn. by rewrite <-E. Qed.
Next Obligation. intros fd n k r k' [E _]%ready_read_inv. exact (read_frame _ _ _ _ _ E). Qed.
Next Obligation. intros fd n k b bs k' [E _]%ready_read_inv. exact (read_budget _ _ _ _ _ _ E). Qed.
Next Obligation. intros fd bs k r k' E%onto_inv. exact (write_frame _ _ _ _ _ E). Qed.
Next Obligation. intros fd b bs k n k' E%onto_inv. exact (write_some _ _ _ _ _ _ E). Qed.
Next Obligation. intros l k r k' E%onto_inv. exact (accept_effect _ _ _ _ E). Qed.
Next Obligation. intros fd ns k r k' E%onto_inv. exact (read_timeout_frame _ _ _ _ _ E). Qed.
Next Obligation. intros fd ns k r k' E%onto_inv. exact (write_timeout_frame _ _ _ _ _ E). Qed.

#[export] Program Instance ready_clients : FiniteClients Ready := { left_of fd k := left_of fd k.(rk) }.
Next Obligation. intros fd n k b bs k' [E _]%ready_read_inv. exact (left_read _ _ _ _ _ _ E). Qed.
Next Obligation. intros fd n k r k' f [E _]%ready_read_inv. exact (left_read_frame _ _ _ _ _ f E). Qed.
Next Obligation. intros fd p k r k' f E%onto_inv. exact (left_write_frame _ _ _ _ _ f E). Qed.
Next Obligation. intros l k r k' f E%onto_inv Hr. exact (left_accept_frame _ _ _ _ f E Hr). Qed.
Next Obligation. intros fd k f Hf. exact (left_close_frame fd k.(rk) f Hf). Qed.
Next Obligation. intros fd ns k r k' f E%onto_inv. exact (left_read_timeout _ _ _ _ _ f E). Qed.
Next Obligation. intros fd ns k r k' f E%onto_inv. exact (left_write_timeout _ _ _ _ _ f E). Qed.

(** No call is in vain. *)
#[export] Program Instance ready_responsive : Responsive Ready := { patience _ _ := 0 }.
Next Obligation.
  intros fds ms k n revs k' i fd ev E%onto_inv Hi Hev. injection E as <- <- _. left. split; [done|].
  eexists. split; [by rewrite list_lookup_fmap, Hi|]. unfold ready_revents. cbn [fst snd].
  destruct Hev as [[-> Hl]| ->]; [|done]. change (0 < sim_left fd (rk k)) in Hl. by rewrite left_has_input.
Qed.
Next Obligation.
  intros fd n k e k' [E _]%ready_read_inv _ Hl. exfalso. cbn in E, Hl. unfold sim_read in E.
  destruct (dequeue fd (s_in (rk k))) as [[b q]|] eqn:Hd; [by simplify_eq|]. apply dequeue_none in Hd.
  unfold sim_left in Hl. rewrite Hd in Hl. lia.
Qed.
Next Obligation.
  intros fd n k k' [E _]%ready_read_inv Hn. cbn in E. change (sim_left fd (rk k') = 0). unfold sim_read, sim_left in *.
  destruct (dequeue fd (s_in (rk k))) as [[c q]|] eqn:Hd; [|done]. injection E as E <-.
  destruct (dequeue_waiting _ _ _ _ fd Hd) as (_ & _ & Hend). apply Hend.
  destruct c; [done|]. destruct (N.to_nat n) eqn:?; [lia|done].
Qed.
Next Obligation. done. Qed.
Next Obligation. intros fd p k e k' E%onto_inv _. cbn in E. unfold sim_write in E. by simplify_eq. Qed.
Next Obligation. intros fd k r k' f E%onto_inv. injection E as _ E. split; [|done]. cbn. by rewrite <-E. Qed.
Next Obligation. intros fd fl k r k' f E%onto_inv. injection E as _ E. split; [|done]. cbn. by rewrite <-E. Qed.
Next Obligation.
  intros l k fd a k' f E%onto_inv _. cbn in E. unfold sim_accept in E. split; [|done]. cbn. unfold sim_left.
  destruct (s_backlog (rk k)); injection E as _ _ E; by rewrite <-E.
Qed.
Next Obligation. done. Qed.
Next Obligation. intros fds ms k r k' f E%onto_inv. injection E as _ E. split; [|done]. cbn. by rewrite <-E. Qed.
Next Obligation. intros fd n k r k' f [E _]%ready_read_inv _. split; [|done]. exact (left_read_frame _ _ _ _ _ f E). Qed.
Next Obligation. intros fd p k r k' f E%onto_inv _. split; [|done]. exact (left_write_frame _ _ _ _ _ f E). Qed.

#[export] Program Instance ready_faultless fd : Faultless Ready fd.
Next Obligation.
  intros fd n k e k' [E _]%ready_read_inv. cbn in E. unfold sim_read in E.
  by destruct (dequeue fd (s_in (rk k))) as [[b q]|]; simplify_eq.
Qed.
Next Obligation. intros fd p k e k' E%onto_inv. cbn in E. unfold sim_write in E. by simplify_eq. Qed.
Next Obligation.
  intros fd fds ms k n revs k' i ev r E%onto_inv Hi Hr. injection E as _ <- _.
  rewrite list_lookup_fmap, Hi in Hr. injection Hr as <-. unfold ready_revents.
  destruct (_ =? _)%N; [done|]. by destruct (_ || _).
Qed.

(** Level-triggered, or with its edge to come. *)
Definition ready_armed (ep fd : Z) (k : Ready) : Prop :=
  (ep, fd) ∈ k.(redges) \/
  exists mask data, sim_interests k.(rk) ep !! fd = Some (mask, data) /\ has_flag mask EPOLLET = false.

(** Its registration is as it was, and its edge has not passed. *)
Lemma ready_armed_kept ep fd k k' :
  sim_interests k'.(rk) ep !! fd = sim_interests k.(rk) ep !! fd ->
  ((ep, fd) ∈ k.(redges) -> (ep, fd) ∈ k'.(redges)) -> ready_armed ep fd k -> ready_armed ep fd k'.
Proof. intros Hi He [Hin|(mask & data & Hreg & Hm)]; [left; auto|right]. exists mask, data. by rewrite Hi. Qed.

Lemma onto_armed {R} (f : Sim -> R * Sim) k r k' ep fd :
  onto f k = (r, k') -> interests k'.(rk) = interests k.(rk) -> ready_armed ep fd k -> ready_armed ep fd k'.
Proof.
  intros E Hi. apply ready_armed_kept; [|by rewrite (onto_edges _ _ _ _ E)].
  by change (interests (rk k') ep !! fd = interests (rk k) ep !! fd); rewrite Hi.
Qed.

Lemma ready_wait_reports ep k fd mask data :
  sim_interests k.(rk) ep !! fd = Some (mask, data) -> reports k ep fd mask = true ->
  (ready_flags k.(rk) fd mask, data) ∈ (ready_wait ep k).1.2.
Proof.
  intros Hreg Hr. cbn. apply list_elem_of_fmap. exists (fd, (mask, data)). split; [done|].
  apply list_elem_of_In, filter_In. split; [|done]. by apply list_elem_of_In, elem_of_map_to_list.
Qed.

Lemma ready_wait_spares ep k fd mask data :
  sim_interests k.(rk) ep !! fd = Some (mask, data) -> reports k ep fd mask = false ->
  (ep, fd) ∈ k.(redges) -> (ep, fd) ∈ (ready_wait ep k).2.(redges).
Proof.
  intros Hreg Hr Hin. cbn. apply elem_of_difference. split; [done|]. rewrite elem_of_list_to_set, list_elem_of_fmap.
  intros ([fd' [mask' data']] & E & Hin'). injection E as <-. apply list_elem_of_In, filter_In in Hin' as [Hin' Hr'].
  apply list_elem_of_In, elem_of_map_to_list in Hin'. cbn in *. congruence.
Qed.

Lemma ready_flags_shows k fd mask : (ready_flags k fd mask =? 0)%N = false -> shows_event (ready_flags k fd mask) = true.
Proof. unfold ready_flags. destruct (has_flag mask EPOLLOUT); [done|]. by destruct (_ && _). Qed.

Lemma ready_flags_fine k fd mask :
  has_flag (ready_flags k fd mask) EPOLLERR = false /\ has_flag (ready_flags k fd mask) EPOLLHUP = false.
Proof. unfold ready_flags. destruct (has_flag mask EPOLLOUT); [done|]. by destruct (_ && _). Qed.

(** What an armed descriptor waits for is reported. *)
Lemma wanting_reports k ep fd mask data :
  sim_interests k.(rk) ep !! fd = Some (mask, data) -> ready_armed ep fd k ->
  has_flag mask EPOLLIN = true /\ 0 < sim_left fd k.(rk) \/ has_flag mask EPOLLOUT = true ->
  reports k ep fd mask = true.
Proof.
  intros Hreg Ha Hw. unfold reports. apply andb_true_intro. split.
  - unfold ready_flags. destruct (has_flag mask EPOLLOUT); [done|]. destruct Hw as [[-> Hl]|]; [|done].
    by rewrite left_has_input.
  - destruct Ha as [Hin|(mask' & data' & Hreg' & Hm)]; [by rewrite bool_decide_true, orb_true_r|].
    rewrite Hreg in Hreg'. injection Hreg' as -> ->. by rewrite Hm.
Qed.

#[export] Program Instance ready_notifying : Notifying Ready := { armed := ready_armed }.
Next Obligation. intros ep fd k mask data Hreg Hm. right. by exists mask, data. Qed.
Next Obligation.
  intros ep op fd ev k r k' [_ He]%ready_ctl_inv Hop _. left. rewrite He. destruct op; [set_solver..|done].
Qed.
Next Obligation.
  intros ep fd n k e k' mask data [_ He]%ready_read_inv _ Hreg _. left. rewrite He. apply elem_of_union_l, elem_of_map.
  exists ep. split; [done|]. apply elem_of_dom. change (sim_interests (rk k) ep !! fd = Some (mask, data)) in Hreg.
  unfold sim_interests in Hreg. destruct (s_reg (rk k) !! ep) as [m|]; [by eexists|done].
Qed.
Next Obligation. intros ep fd p k r k' mask data E%onto_inv Hx. injection E as <- _. cbn in Hx. lia. Qed.
Next Obligation.
  intros ep cap ms k n evs k' fd mask data E Hreg Ha. change (ready_wait ep k = (n, evs, k')) in E.
  destruct (reports k ep fd mask) eqn:Hr.
  - left. pose proof (ready_wait_reports ep k fd mask data Hreg Hr) as Hin.
    injection E as <- <- _. split; [lia|]. exists (ready_flags (rk k) fd mask). rewrite Nat2Z.id.
    split; [rewrite firstn_all2; [exact Hin|by rewrite length_fmap]|]. apply ready_flags_shows.
    unfold reports in Hr. by destruct (_ =? _)%N.
  - right. split; [|intros Hw; by rewrite (wanting_reports k ep fd mask data Hreg Ha Hw) in Hr].
    pose proof (ready_wait_spares ep k fd mask data Hreg Hr) as Hs. rewrite E in Hs.
    injection E as _ _ <-. revert Ha. by apply ready_armed_kept.
Qed.
Next Obligation. intros ep f fd k r k' E. apply (onto_armed _ _ _ _ _ _ E). apply onto_inv in E. by injection E as _ <-. Qed.
Next Obligation. intros ep f fd fl k r k' E. apply (onto_armed _ _ _ _ _ _ E). apply onto_inv in E. by injection E as _ <-. Qed.
Next Obligation.
  intros ep f l k fd a k' E _. apply (onto_armed _ _ _ _ _ _ E). apply onto_inv in E. cbn in E. unfold sim_accept in E.
  destruct (s_backlog (rk k)); by injection E as _ _ <-.
Qed.
Next Obligation.
  intros ep f fd k Hf Hep. apply ready_armed_kept; [|done].
  change (interests (k_close fd (rk k)) ep !! f = interests (rk k) ep !! f).
  destruct (close_effect fd (rk k)) as (_ & Hi & _). rewrite Hi by done. by rewrite lookup_delete_ne.
Qed.
Next Obligation.
  intros ep f op fd ev k r k' [E He]%ready_ctl_inv Hf. apply ready_armed_kept; [|rewrite He; destruct op; set_solver].
  apply ctl_effect in E as (_ & _ & _ & Hi). change (interests (rk k') ep !! f = interests (rk k) ep !! f). rewrite Hi.
  destruct op; [destruct (is_minus_one r); [done|by rewrite lookup_insert_ne]..|by rewrite lookup_delete_ne].
Qed.
Next Obligation.
  intros ep f fd n k r k' [E He]%ready_read_inv _. apply ready_armed_kept; [|rewrite He; destruct r; set_solver].
  apply read_frame in E as (_ & Hi & _). change (interests (rk k') ep !! f = interests (rk k) ep !! f). by rewrite Hi.
Qed.
Next Obligation.
  intros ep f fd p k r k' E _. apply (onto_armed _ _ _ _ _ _ E). apply onto_inv in E. by injection E as _ <-.
Qed.
Next Obligation.
  intros ep op fd ev k r k' f [E _]%ready_ctl_inv. split; [|done].
  change (sim_left f (rk k') <= sim_left f (rk k)). cbn in E. unfold sim_ctl in E.
  destruct op, (sim_interests (rk k) ep !! fd); injection E as _ <-; exact (le_n _).
Qed.
Next Obligation. intros ep cap ms k r k' f E. injection E as _ <-. by split. Qed.

#[export] Program Instance ready_unfailing fd : Unfailing Ready fd.
Next Obligation.
  intros fd ep cap ms k n evs k' fl data E Hin _. injection E as _ <- _.
  apply list_elem_of_fmap in Hin as ([fd' [mask d]] & Heq & _). injection Heq as -> _. apply ready_flags_fine.
Qed.
Next Obligation.
  intros fd ep ev k r k' [E _]%ready_ctl_inv [x Hx]. change (sim_interests (rk k) ep !! fd = Some x) in Hx.
  cbn in E. unfold sim_ctl in E. rewrite Hx in E. by injection E as <- _.
Qed.
