(* ===== verification/PollLive.v ===== *)
(** * Every client of the poll loop is answered in the end

    As long as the loop runs, a client whose connection does not fail and who
    sends a finite number of chunks, however late, is answered completely, or
    its connection has passed its deadline. *)

From S2P Require Import Prelude RustStr Http Response Request RequestSpec RequestRefine Router Asset App Conn ConnSpec ConnProps Site Syscall Socket SysPoll ConnTable EventIo EventIoProps Session Trace EpollInv EpollProps EpollTrace Blocking BlockingProps Serving Poll PollProps PollTrace Sim Fair ServingLive Responsive SimReady.

Section Poll.
Context {K H : Type} `{KernelLaws K, !FiniteClients K, !Responsive K} `{HashOrder} `{SiteHandlers H}.
Context (l : Z) (cfg : ServerConfig) (base : gset Z) (app : App H) (fd : Z) `{!Faultless K fd} (h0 : list IO).

Notation PL := (PollLoop (Traced K) H).

(** ** What the other connections do to this one *)

Notation view st := (slots (conns st), kernel st).
Notation others st st' := (Responsive.others fd (view st) (view st')).
Notation ended st := (Responsive.ended app fd h0 (view st)).
Notation served P st := (Responsive.served fd h0 P (view st)).






(** ** What a round does to it *)













(** ** The rounds *)




End Poll.

Section Claim.
Context {K H : Type} `{KernelLaws K, !FiniteClients K, !Responsive K} `{HashOrder} `{SiteHandlers H}.


End Claim.


