(* ===== verification/EpollLive.v ===== *)
(** * Every client of the epoll loops is answered in the end

    As PollLive, for models/epoll.rs.  Between two rounds the epoll instance is
    armed for every connection in the table, under level triggering and, because
    the loop drains what it drives, under edge triggering: no readiness is lost.
    A connection may end in the middle of a batch of events, and its descriptor
    be accepted again in the same batch: what is said is said of that moment. *)

From S2P Require Import Prelude RustStr Http Response Request RequestSpec RequestRefine Router Asset App Conn ConnSpec ConnProps Site Syscall Socket SysPoll ConnTable EventIo EventIoProps Session Trace Epoll EpollInv EpollProps EpollTrace Blocking BlockingProps Serving Sim Fair ServingLive Responsive SimReady.

(** ** The loops stay informed *)



Section Wait.
Context {K : Type} `{Notifying K}.

End Wait.

Section Armed.
Context {K H : Type} `{Notifying K} `{HashOrder} `{Handlers H}.
Context (ctx : AcceptCtx) (base : gset Z) (fd : Z).
Context (Hfd : (- 2 ^ 31 <= fd < 2 ^ 31)%Z) (Htrig : ctx.(trigger) = Level \/ ctx.(drain) = true).






(** *** Accepting *)


(** *** Driving *)





(** *** Events and rounds *)







End Armed.

(** ** What they do for one client *)




Section Epoll.
Context {K H : Type} `{Notifying K} `{HashOrder} `{SiteHandlers H}.
Context (ctx : AcceptCtx) (base : gset Z) (app : App H) (fd : Z) `{!Faultless K fd, !Unfailing K fd} (h0 : list IO).
Context (Hfd : (- 2 ^ 31 <= fd < 2 ^ 31)%Z) (Htrig : ctx.(trigger) = Level \/ ctx.(drain) = true).

Notation EL := (Loop (Traced K) H).
Notation view st := (slots (conns st), kernel st).
Notation others st st' := (Responsive.others fd (view st) (view st')).
Notation ended st := (Responsive.ended app fd h0 (view st)).
Notation served P st := (Responsive.served fd h0 P (view st)).
Notation recorded := (recorded app ∅).

(** ** What the other connections do to this one *)





Notation put st fd' s c a := (
  let st1 := mkLoop st.(world) (ConnTable_put st.(conns) fd' (mkSlot s.(stream) c)) st.(wants) in
  if negb (matches_interest (wants st1 !! fd') (direction a)) then
    let '(r, k) := Epoll_modify ctx.(epoll) fd' (direction a) ctx.(trigger) (kernel st1) in
    match r with
    | Err _ => drop_conn ctx fd' (set_kernel k st1)
    | Ok _ => mkLoop (set_kern k st1.(world)) st1.(conns) (<[fd' := direction a]> st1.(wants))
    end
  else st1).





(** ** What a round does to it *)












(** ** The rounds *)





End Epoll.

Section Claim.
Context {K H : Type} `{Notifying K} `{HashOrder} `{SiteHandlers H}.


End Claim.

Section Serves.
Context {K H : Type} `{Notifying K} `{HashOrder} `{SiteHandlers H}.

End Serves.


