(* ===== verification/ForkLive.v ===== *)
(** * Every child of the forking server ends

    Under any schedule that gives a child and the reaper their turns, a client
    that sends a finite number of chunks is served to the end, and the process
    that serves it exits and is waited for. *)

From S2P Require Import Prelude RustStr Http Response Request RequestSpec RequestRefine Router Asset App Conn ConnSpec ConnProps Site Syscall Socket ConnTable EventIo EventIoProps Session Trace Blocking BlockingProps Serving ServingProps Process Sim EpollTrace Fair ServingLive Forking ForkingProps SimProc ForkServing ForkServingProps.

(** [peer_left p fd k]: what the peer of the descriptor [fd] of process [p] has
    still to send, in reads. *)
Class FinitePeers (K : Type) `{Processes K} := {
  peer_left : Z -> Z -> K -> nat;
  peer_read fd n k b bs k' : k_read fd n k = (Ok (b :: bs), k') ->
    peer_left (current k) fd k' < peer_left (current k) fd k;
  (* a read of nothing is the end of what the peer sends *)
  peer_eof fd n k k' : k_read fd n k = (Ok [], k') -> (0 < n)%N -> peer_left (current k) fd k' = 0;
  peer_read_frame fd n k r k' p f : k_read fd n k = (r, k') -> peer_left p f k' <= peer_left p f k;
  peer_write_frame fd bs k r k' p f : k_write fd bs k = (r, k') -> peer_left p f k' <= peer_left p f k;
  peer_accept_frame l k r k' p f : k_accept l k = (r, k') -> p <> current k \/ r <> Ok f ->
    peer_left p f k' <= peer_left p f k;
  peer_close_frame fd k p f : p <> current k \/ f <> fd -> peer_left p f (k_close fd k) <= peer_left p f k;
  peer_read_timeout fd ns k r k' p f : k_set_read_timeout fd ns k = (r, k') -> peer_left p f k' <= peer_left p f k;
  peer_write_timeout fd ns k r k' p f : k_set_write_timeout fd ns k = (r, k') -> peer_left p f k' <= peer_left p f k;
  peer_run_as q k p f : peer_left p f (run_as q k) <= peer_left p f k;
  peer_fork k pid k' p f : k_fork k = (pid, k') -> p <> pid \/ pid = (-1)%Z ->
    peer_left p f k' <= peer_left p f k;
  peer_exit k p f : p <> current k -> peer_left p f (k_exit k) <= peer_left p f k;
  peer_reap pid k p f : p <> pid -> peer_left p f (k_reap pid k) <= peer_left p f k;
}.

(** Those of the process that runs. *)
#[export] Program Instance peers_clients {K} `{ProcessLaws K, !FinitePeers K} : FiniteClients K := {
  left_of fd k := peer_left (current k) fd k;
}.
Next Obligation.
  intros K ? ? ? ? ? fd n k b bs k' E. destruct (read_alone _ _ _ _ _ E) as (_ & -> & _). by eapply peer_read.
Qed.
Next Obligation.
  intros K ? ? ? ? ? fd n k r k' f E. destruct (read_alone _ _ _ _ _ E) as (_ & -> & _). by eapply peer_read_frame.
Qed.
Next Obligation.
  intros K ? ? ? ? ? fd p k r k' f E. destruct (write_alone _ _ _ _ _ E) as (_ & -> & _). by eapply peer_write_frame.
Qed.
Next Obligation.
  intros K ? ? ? ? ? l k r k' f E Hr. destruct (accept_alone _ _ _ _ E) as (_ & -> & _).
  eapply peer_accept_frame; [done|by right].
Qed.
Next Obligation.
  intros K ? ? ? ? ? fd k f Hf. destruct (close_alone fd k) as (_ & -> & _). apply peer_close_frame. by right.
Qed.
Next Obligation.
  intros K ? ? ? ? ? fd ns k r k' f E. destruct (read_timeout_alone _ _ _ _ _ E) as (_ & -> & _). by eapply peer_read_timeout.
Qed.
Next Obligation.
  intros K ? ? ? ? ? fd ns k r k' f E. destruct (write_timeout_alone _ _ _ _ _ E) as (_ & -> & _). by eapply peer_write_timeout.
Qed.

#[export] Program Instance machine_peers {K} `{FinitePeers K} : FinitePeers (Machine K) := {
  peer_left p fd m := peer_left p fd m.(mk);
}.
Next Obligation. intros K ? ? ? fd n m b bs m' [E _]%mlift_inv. exact (peer_read _ _ _ _ _ _ E). Qed.
Next Obligation. intros K ? ? ? fd n m m' [E _]%mlift_inv Hn. exact (peer_eof _ _ _ _ E Hn). Qed.
Next Obligation. intros K ? ? ? fd n m r m' p f [E _]%mlift_inv. exact (peer_read_frame _ _ _ _ _ _ _ E). Qed.
Next Obligation. intros K ? ? ? fd bs m r m' p f [E _]%mlift_inv. exact (peer_write_frame _ _ _ _ _ _ _ E). Qed.
Next Obligation. intros K ? ? ? l m r m' p f [E _]%mlift_inv Hp. exact (peer_accept_frame _ _ _ _ _ _ E Hp). Qed.
Next Obligation. intros K ? ? ? fd m p f Hp. exact (peer_close_frame fd m.(mk) p f Hp). Qed.
Next Obligation. intros K ? ? ? fd ns m r m' p f [E _]%mlift_inv. exact (peer_read_timeout _ _ _ _ _ _ _ E). Qed.
Next Obligation. intros K ? ? ? fd ns m r m' p f [E _]%mlift_inv. exact (peer_write_timeout _ _ _ _ _ _ _ E). Qed.
Next Obligation. intros K ? ? ? q m p f. exact (peer_run_as q m.(mk) p f). Qed.
Next Obligation. intros K ? ? ? m pid m' p f [E _]%mlift_inv Hp. exact (peer_fork _ _ _ _ _ E Hp). Qed.
Next Obligation. intros K ? ? ? m p f Hp. exact (peer_exit m.(mk) p f Hp). Qed.
Next Obligation. intros K ? ? ? pid m p f Hp. exact (peer_reap pid m.(mk) p f Hp). Qed.

(** ** The way of a child *)

(** The reaper, once [pid] is a zombie. *)
Section Zombie.
Context (cfg : ServerConfig) (pid : Z).

Definition ahead (t : Forks) : nat * nat :=
  (first_at (fun p => bool_decide (p = pid)) t.(zombies), if t.(in_handler) then 0 else 1).

Definition reaper (t : Forks) : Label := if t.(in_handler) then Reap else Interrupt.

Lemma zombie_moves lbl t t' :
  pid ∈ t.(zombies) -> Forking.step cfg lbl t = Some t' ->
  lbl = Reap /\ t.(zombies) = pid :: t'.(zombies) \/
  pid ∈ t'.(zombies) /\ (lex2 (ahead t') (ahead t) \/
    ahead t' = ahead t /\ reaper t <> lbl /\ t'.(in_handler) = t.(in_handler)).
Proof.
  intros Hin E.
  assert (t'.(zombies) = t.(zombies) -> t'.(in_handler) = t.(in_handler) -> reaper t <> lbl ->
    lbl = Reap /\ t.(zombies) = pid :: t'.(zombies) \/
    pid ∈ t'.(zombies) /\ (lex2 (ahead t') (ahead t) \/
      ahead t' = ahead t /\ reaper t <> lbl /\ t'.(in_handler) = t.(in_handler))) as Hsame.
  { intros Hz Hh Hr. right. rewrite Hz. split; [done|]. right. unfold ahead. by rewrite Hz, Hh. }
  unfold reaper in *.
  destruct lbl; cbn [Forking.step] in E;
    try (destruct (in_handler t) eqn:Hh; [done|]; apply Hsame; [| |done];
         unfold parent_step in E; repeat (case_match; simplify_eq/=; try done); done).
  - case_decide; [|done]. injection E as <-. right. cbn [zombies set_signals set_children in_handler].
    split; [apply elem_of_app; by left|]. right. unfold ahead. cbn [zombies set_signals set_children in_handler].
    rewrite (first_at_app _ _ _ pid) by (done || by apply bool_decide_eq_true). split_and!; [done| |done].
    by destruct (in_handler t).
  - destruct (sigchld_pending t && negb (in_handler t)) eqn:Hp; [|done]. injection E as <-.
    apply andb_prop in Hp as [_ Hh]. destruct (in_handler t) eqn:Hh'; [done|]. right. split; [done|]. left.
    unfold ahead. cbn [zombies set_signals in_handler]. rewrite Hh'. right. cbn. split; [done|lia].
  - destruct (in_handler t) eqn:Hh; [|done]. cbn [handler_step] in E. destruct (zombies t) as [|p zs] eqn:Hz; [done|].
    injection E as <-. cbn [zombies set_live set_children in_handler].
    destruct (decide (p = pid)) as [->|Hne]; [by left|]. right.
    apply elem_of_cons in Hin as [->|Hin]; [done|]. split; [done|]. left. left. unfold ahead.
    cbn [zombies set_live set_children]. rewrite Hz. cbn. rewrite bool_decide_eq_false_2 by done. lia.
  - destruct (in_handler t) eqn:Hh; [|done]. cbn [handler_step] in E. destruct (zombies t) as [|p zs] eqn:Hz; [|done].
    by apply not_elem_of_nil in Hin.
Qed.

Lemma reaper_enabled t : forks_inv cfg t -> pid ∈ t.(zombies) -> is_Some (Forking.step cfg (reaper t) t).
Proof.
  intros Hi Hin. assert (zombies t <> []) as Hz by (intros E; rewrite E in Hin; by apply not_elem_of_nil in Hin).
  unfold reaper. destruct (in_handler t) eqn:Hh; cbn [Forking.step]; rewrite Hh.
  - cbn [handler_step]. destruct (zombies t); [done|by eexists].
  - destruct (fi_signal _ _ Hi Hz) as [->|?]; [by eexists|congruence].
Qed.
End Zombie.

Section Child.
Context {K H : Type} `{ProcessLaws K, !FinitePeers K} `{SiteHandlers H}.
Context (parent l : Z) (cfg : ServerConfig) (app : App H) (base : gset Z).
Context (Hcap : (cfg.(max_connections) <= usize_max)%N) (Hl : l ∈ base) (Hfit : all_fit app).

Notation FS := (ForkServer (Machine K) H).
Notation inv := (server_inv parent l cfg app base).
Notation do_step := (server_step parent l cfg app).

(** What the parent and the reaper share in a step. *)
Lemma server_step_forks lbl (s s' : FS) :
  do_step lbl s = Some (Ret s') ->
  s'.(forks) = s.(forks) /\ (forall a, lbl <> Alone a) \/
  exists flbl, Forking.step cfg flbl s.(forks) = Some s'.(forks) /\ forall a, lbl = Alone a -> flbl = a.
Proof.
  intros E. destruct lbl as [| |lbl|pid]; cbn [server_step] in E.
  - right. unfold accept_call in E. destruct (pc (forks s)), (in_handler (forks s)); try done.
    destruct (k_accept _ _) as [r m]. destruct (Forking.step cfg _ (forks s)) as [t|] eqn:Et; [|done]. injection E as <-.
    eexists. by split; [exact Et|].
  - right. unfold fork_call in E. destruct (pc (forks s)), (in_handler (forks s)); try done.
    destruct (k_fork _) as [pid m]. destruct (is_minus_one pid); cbn [mbind option_bind] in E;
      (destruct (Forking.step cfg _ (forks s)) as [t|] eqn:Et; [|done]); injection E as <-; eexists; by split; [exact Et|].
  - right. destruct (is_alone lbl); [|done]. unfold alone_step in E.
    destruct (Forking.step cfg lbl (forks s)) as [t|] eqn:Et; [|done]. injection E as <-. exists lbl.
    split; [done|]. intros a Ha. by injection Ha.
  - unfold child_call in E. destruct (kids s !! pid) as [kid|]; [|done]. cbn [mbind option_bind] in E.
    destruct (place kid) as [|t|].
    + injection E as <-. by left.
    + destruct t; [..|injection E as <-; by left];
        (destruct (task_step _ _ _ _ _) as [[t' m']| |]; [|done..]; cbn [mbind outcome_bind] in E;
         injection E as <-; by left).
    + destruct (Forking.step cfg (ChildExit pid) (forks s)) as [t|] eqn:Et; [|done]. injection E as <-.
      right. eexists. by split; [exact Et|].
Qed.

Lemma task_peer_frame fd a t (m m' : Machine K) t' p f :
  task_step cfg fd a t m = Ret (t', m') -> peer_left p f m' <= peer_left p f m.
Proof.
  intros E. destruct t as [| |c []|r]; cbn [task_step loop_step] in E.
  - destruct (k_set_read_timeout _ _ m) as [r m1] eqn:Ek. simplify_eq. by eapply peer_read_timeout.
  - destruct (k_set_write_timeout _ _ m) as [r m1] eqn:Ek. simplify_eq. by eapply peer_write_timeout.
  - destruct (k_read _ _ m) as [r m1] eqn:Ek. apply (peer_read_frame _ _ _ _ _ p f) in Ek.
    destruct r as [[|b bs]|e]; simplify_eq; try done.
    destruct (on_bytes c (b :: bs) a) as [[c1 act]| |]; by simplify_eq/=.
  - destruct (pending_write c) as [bs| |]; try done. cbn [mbind outcome_bind] in E.
    destruct (k_write _ _ m) as [r m1] eqn:Ek. apply (peer_write_frame _ _ _ _ _ p f) in Ek.
    destruct r as [n|e]; simplify_eq; try done. destruct (on_written (now m1) c n) as [c1 act]. by simplify_eq.
  - by simplify_eq.
  - by simplify_eq.
Qed.

(** The others leave a child, and what it has to read. *)
Lemma kid_frame pid kid lbl (s s' : FS) :
  inv s -> s.(kids) !! pid = Some kid -> lbl <> FChild pid -> do_step lbl s = Some (Ret s') ->
  s'.(kids) !! pid = Some kid /\ peer_left pid kid.(kid_stream) s'.(fk) <= peer_left pid kid.(kid_stream) s.(fk).
Proof.
  intros Hi Hk Hlbl E. set (fd := kid_stream kid).
  assert (is_Some (kids s !! pid)) as Hsome by by eexists.
  destruct (kid_process _ _ _ _ _ s pid Hi Hsome) as [_ Hne]. apply (kid_running _ _ _ _ _ s pid Hi) in Hsome as Hrun.
  assert (forall q, peer_left pid fd (run_as q s.(fk)) <= peer_left pid fd s.(fk)) as Has by (intros; apply peer_run_as).
  assert (forall q, current (run_as q s.(fk)) = q) as Hcur by (intros; apply run_as_effect).
  assert (forall q x, q <> pid -> peer_left pid fd (k_close x (run_as q s.(fk))) <= peer_left pid fd s.(fk)) as Hclose.
  { intros q x Hq. etrans; [|apply (Has q)]. refine (peer_close_frame x (run_as q s.(fk)) pid fd _). left. by rewrite Hcur. }
  destruct lbl as [| |lbl|q]; cbn [server_step] in E.
  - unfold accept_call in E. destruct (pc (forks s)), (in_handler (forks s)); try done.
    destruct (k_accept _ _) as [r m] eqn:Ea. destruct (Forking.step cfg _ (forks s)) as [t|]; [|done]. injection E as <-. cbn [forks fk kids set_kid].
    split; [done|]. etrans; [|apply (Has parent)]. eapply peer_accept_frame; [exact Ea|]. left. by rewrite Hcur.
  - unfold fork_call in E. destruct (pc (forks s)) eqn:Hpc, (in_handler (forks s)) eqn:Hh; try done.
    destruct (k_fork _) as [q m] eqn:Ea. destruct (is_minus_one q) eqn:Hq.
    + apply Z.eqb_eq in Hq as ->. destruct (Forking.step cfg _ (forks s)) as [t|]; [|done]. injection E as <-. cbn [forks fk kids set_kid].
      split; [done|]. etrans; [|apply (Has parent)]. eapply peer_fork; [exact Ea|].
      by right.
    + destruct (Forking.step cfg _ (forks s)) as [t|] eqn:Et; [|done]. injection E as <-. cbn [forks fk kids set_kid].
      cbn [Forking.step] in Et. rewrite Hh in Et. cbn [parent_step] in Et. rewrite Hpc in Et. case_decide as Hnew; [done|].
      assert (q <> pid) as Hqp by (intros ->; by apply Hnew, elem_of_app; left).
      split; [by rewrite lookup_insert_ne|]. etrans; [|apply (Has parent)]. eapply peer_fork; [exact Ea|]. left. congruence.
  - destruct (is_alone lbl) eqn:Ha; [|done]. unfold alone_step in E.
    destruct (Forking.step cfg lbl (forks s)) as [t|] eqn:Et; [|done]. injection E as <-. cbn [forks fk kids set_kid]. split; [done|].
    destruct (alone_facts cfg _ _ _ Ha Et) as (_ & Hz & _ & _).
    destruct (dropped (forks s) t) as [x|].
    + destruct Hz as [[-> _]|(? & _ & _ & ?)]; [|done]. by apply Hclose.
    + destruct (reaped lbl (forks s)) as [q|]; [|done]. destruct Hz as [[? _]|(q' & Hq & Hz & _)]; [done|].
      injection Hq as <-. etrans; [|apply (Has parent)]. refine (peer_reap q (run_as parent s.(fk)) pid fd _). intros <-.
      pose proof (sv_nodup _ _ _ _ _ _ Hi) as (_ & Hd & _)%NoDup_app. apply (Hd pid Hrun). rewrite Hz. by left.
  - assert (pid <> q) as Hq by congruence. unfold child_call in E.
    destruct (kids s !! q) as [kid'|] eqn:Hk'; [|done]. cbn [mbind option_bind] in E.
    destruct (place kid') as [|t|].
    + injection E as <-. cbn [forks fk kids set_kid]. split; [by rewrite lookup_insert_ne|]. by apply Hclose.
    + destruct t as [| |c action|r]; [..|injection E as <-; cbn [forks fk kids set_kid]; split; [by rewrite lookup_insert_ne|];by apply Hclose];
        (destruct (task_step _ _ _ _ _) as [[t' m']| |] eqn:Et; [|done..]; cbn [mbind outcome_bind] in E; injection E as <-;
         cbn [forks fk kids set_kid]; split; [by rewrite lookup_insert_ne|]; etrans; [|apply (Has q)]; by eapply task_peer_frame).
    + destruct (Forking.step cfg (ChildExit q) (forks s)) as [t|]; [|done]. injection E as <-. cbn [forks fk kids set_kid].
      split; [by rewrite lookup_delete_ne|]. etrans; [|apply (Has q)]. refine (peer_exit (run_as q s.(fk)) pid fd _). by rewrite Hcur.
Qed.

(** The child's own call. *)
Definition place_left (pid fd : Z) (p : Place) (m : Machine K) : nat * (nat * nat) :=
  match p with
  | Born => (3, (0, 0))
  | AtWork t => (2, (peer_left pid fd m, task_rank t))
  | Leaving => (1, (0, 0))
  end.

Lemma own_call pid kid (s s' : FS) :
  inv s -> s.(kids) !! pid = Some kid -> child_call l cfg pid s = Some (Ret s') ->
  (exists kid', s'.(kids) !! pid = Some kid' /\
    lex3 (place_left pid kid'.(kid_stream) kid'.(place) s'.(fk)) (place_left pid kid.(kid_stream) kid.(place) s.(fk))) \/
  s'.(kids) !! pid = None /\ pid ∈ s'.(forks).(zombies).
Proof.
  intros Hi Hk E. unfold child_call in E. rewrite Hk in E. cbn [mbind option_bind] in E.
  destruct (place kid) as [|t|] eqn:Hp.
  - injection E as <-. left. eexists. split; [apply lookup_insert_eq|]. left. cbn. lia.
  - destruct (finished t) eqn:Hnf.
    + destruct t; try done. injection E as <-. left. eexists. split; [apply lookup_insert_eq|]. left. cbn. lia.
    + destruct (sv_kid _ _ _ _ _ _ Hi pid kid Hk) as (Hs & _ & Hpl). rewrite Hp in Hpl. destruct Hpl as (_ & h & _ & Hat).
      apply (task_at_same app _ h t Hs) in Hat.
      destruct (kid_task cfg kid.(kid_app) h kid.(kid_stream) t (run_as pid s.(fk)) (Hfit _ Hs) Hat)
        as (t' & m' & ios & Hst & _ & _ & (_ & Hc & _) & _).
      pose proof (task_step_lowers cfg _ _ _ _ _ _ _ (Hfit _ Hs) Hat Hnf Hst) as Hlow.
      destruct (run_as_effect pid s.(fk)) as (Hcur & _ & _).
      pose proof (peer_run_as pid s.(fk) pid kid.(kid_stream)) as Has.
      unfold task_left, left_of, peers_clients in Hlow. rewrite Hc, Hcur in Hlow.
      left. exists (mkKid kid.(kid_stream) (AtWork t') kid.(kid_app)).
      assert (s' = set_kid pid kid (AtWork t') m' s) as ->.
      { destruct t; try done; rewrite Hst in E; by injection E. }
      split; [apply lookup_insert_eq|]. right. split; [done|]. cbn [place_left place kid_stream set_kid fk].
      destruct Hlow as [Hlow|[Hlow Hr]]; [left; exact (Nat.lt_le_trans _ _ _ Hlow Has)|].
      pose proof (Nat.le_trans _ _ _ (Nat.eq_le_incl _ _ Hlow) Has) as Hle.
      apply Nat.lt_eq_cases in Hle as [Hle|Hle]; [by left|right; by split].
  - destruct (Forking.step cfg (ChildExit pid) (forks s)) as [t|] eqn:Et; [|done]. injection E as <-. right.
    split; [apply lookup_delete_eq|]. cbn [Forking.step] in Et. case_decide; [|done]. injection Et as <-.
    cbn. apply elem_of_app. right. by left.
Qed.

(** ** The end of its service *)

(** [serve_connection] has yet to return. *)
Definition early (p : Place) : bool :=
  match p with Born => true | AtWork t => negb (finished t) | Leaving => false end.

(** It returns: what was exchanged, and why it ended if not for an error. *)
Definition service_over (pid fd : Z) (s : FS) : Prop :=
  exists kid r h, s.(kids) !! pid = Some kid /\ kid.(kid_stream) = fd /\ kid.(place) = AtWork (Finished r) /\
    log_of pid fd s.(fk).(conns) = Some h /\ task_serves app h (Finished r) /\
    sent h `prefix_of` session app [] (received h) /\
    (r = Ok tt -> peer_left pid fd s.(fk) = 0 \/ moves app (AReading []) h AClosed).

Lemma task_returns a h fd t (m m' : Machine K) :
  task_at a h t -> finished t = false -> task_step cfg fd a t m = Ret (Finished (Ok tt), m') ->
  k_read fd READ_CHUNK m = (Ok [], m') \/ m' = m /\ moves a (AReading []) h AClosed.
Proof.
  intros Hat Hnf E. destruct t as [| |c act|r]; cbn [task_step loop_step] in E.
  - destruct (k_set_read_timeout _ _ m) as [[u|e] m1]; by simplify_eq.
  - destruct (k_set_write_timeout _ _ m) as [[u|e] m1]; by simplify_eq.
  - destruct act; cbn [loop_step] in E.
    + destruct (k_read _ _ m) as [[[|b bs]|e] m1] eqn:Ek; [injection E as <-; by left| |by simplify_eq].
      by destruct (on_bytes c (b :: bs) a) as [[c1 act]| |]; simplify_eq/=.
    + destruct (pending_write c) as [bs| |]; try done. cbn [mbind outcome_bind] in E.
      destruct (k_write _ _ m) as [[n|e] m1]; [|by simplify_eq]. by destruct (on_written (now m1) c n); simplify_eq.
    + injection E as <-. right. split; [done|]. destruct Hat as (x & Hm & _ & Hx). by destruct x.
  - done.
Qed.

(** What the record of a finished service says. *)
Lemma finished_serves pid kid r (s : FS) :
  inv s -> s.(kids) !! pid = Some kid -> kid.(place) = AtWork (Finished r) ->
  exists h, log_of pid kid.(kid_stream) s.(fk).(conns) = Some h /\ task_serves app h (Finished r) /\
    sent h `prefix_of` session app [] (received h).
Proof.
  intros Hi Hk Hp. destruct (sv_kid _ _ _ _ _ _ Hi pid kid Hk) as (_ & _ & Hpl). rewrite Hp in Hpl.
  destruct Hpl as (_ & h & Hlog & Hat). exists h. split_and!; [done|by apply task_at_serves|].
  destruct Hat as (x & Hm & _). rewrite (moves_session _ _ _ Hm). by apply prefix_app_r.
Qed.

Lemma own_call_serves pid kid (s s' : FS) :
  inv s -> s.(kids) !! pid = Some kid -> early kid.(place) = true -> child_call l cfg pid s = Some (Ret s') -> inv s' ->
  (exists kid', s'.(kids) !! pid = Some kid' /\ kid'.(kid_stream) = kid.(kid_stream) /\ early kid'.(place) = true) \/
  service_over pid kid.(kid_stream) s'.
Proof.
  intros Hi Hk He E Hi'. unfold child_call in E. rewrite Hk in E. cbn [mbind option_bind] in E.
  destruct (place kid) as [|t|] eqn:Hp; [|cbn in He|done].
  { injection E as <-. left. eexists. split; [apply lookup_insert_eq|done]. }
  apply negb_true_iff in He as Hnf.
  destruct (task_step cfg (kid_stream kid) (kid_app kid) t (run_as pid (fk s))) as [[t' m']| |] eqn:Et;
    [|by destruct t..].
  assert (s' = set_kid pid kid (AtWork t') m' s) as -> by (destruct t; try done; cbn in E; by injection E).
  destruct (finished t') eqn:Hf'; [right|left; eexists; split; [apply lookup_insert_eq|split; [done|cbn; by rewrite Hf']]].
  destruct t' as [| | |r]; try done.
  set (kid' := mkKid kid.(kid_stream) (AtWork (Finished r)) kid.(kid_app)).
  assert (kids (set_kid pid kid (AtWork (Finished r)) m' s) !! pid = Some kid') as Hk' by apply lookup_insert_eq.
  destruct (finished_serves pid kid' r _ Hi' Hk' eq_refl) as (h & Hlog & Hserves & Hpre).
  exists kid', r, h. split_and!; [done..|]. intros ->.
  destruct (sv_kid _ _ _ _ _ _ Hi pid kid Hk) as (Hs & _ & Hpl). rewrite Hp in Hpl. destruct Hpl as (_ & h0 & Hlog0 & Hat).
  destruct (run_as_effect pid s.(fk)) as (Hcur & _ & _).
  apply (task_at_same app _ h0 t Hs) in Hat.
  destruct (task_returns _ _ _ _ _ _ Hat Hnf Et) as [Er|[-> Hm]].
  - left. apply peer_eof in Er; [|done]. by rewrite Hcur in Er.
  - right. change (log_of pid (kid_stream kid) (conns (fk s)) = Some h) in Hlog.
    rewrite Hlog in Hlog0. injection Hlog0 as <-.
    by eapply moves_same.
Qed.

Lemma step_serves pid kid lbl (s s' : FS) :
  inv s -> s.(kids) !! pid = Some kid -> early kid.(place) = true -> do_step lbl s = Some (Ret s') -> inv s' ->
  (exists kid', s'.(kids) !! pid = Some kid' /\ kid'.(kid_stream) = kid.(kid_stream) /\ early kid'.(place) = true) \/
  service_over pid kid.(kid_stream) s'.
Proof.
  intros Hi Hk He E Hi'. destruct (decide (lbl = FChild pid)) as [->|Hlbl].
  - exact (own_call_serves pid kid s s' Hi Hk He E Hi').
  - left. exists kid. split; [|by split]. exact (proj1 (kid_frame pid kid lbl s s' Hi Hk Hlbl E)).
Qed.

Lemma run_serves sched pid fd s0 n s j :
  inv s0 -> run do_step sched n s0 = Ret s ->
  (exists kid, s.(kids) !! pid = Some kid /\ kid.(kid_stream) = fd /\ early kid.(place) = true) ->
  (exists s', run do_step sched (n + j) s0 = Ret s' /\
     exists kid, s'.(kids) !! pid = Some kid /\ kid.(kid_stream) = fd /\ early kid.(place) = true) \/
  exists m s', n <= m <= n + j /\ run do_step sched m s0 = Ret s' /\ service_over pid fd s'.
Proof.
  intros Hi0 Hrun Hkid.
  assert (forall lbl s1 o, inv s1 -> do_step lbl s1 = Some o -> exists s2, o = Ret s2 /\ inv s2) as Hstep.
  { intros lbl s1 o Hi E. destruct (server_step_inv parent l cfg app base Hcap Hl Hfit lbl s1 o Hi E) as (s2 & -> & Hi2 & _).
    by exists s2. }
  assert (forall i s1, run do_step sched i s0 = Ret s1 -> inv s1) as Hinv.
  { intros i. induction i as [|i IH]; intros s1 E; [by injection E as <-|]. cbn [run] in E.
    destruct (run do_step sched i s0) as [s2| |]; [|done..]. cbn [mbind outcome_bind] in E. unfold turn in E.
    destruct (do_step (sched i) s2) as [o|] eqn:Eo; cbn in E; [|injection E as <-; by apply IH].
    destruct (Hstep _ _ _ (IH s2 eq_refl) Eo) as (s3 & -> & Hi3). by injection E as <-. }
  induction j as [|j [(s1 & Hrun1 & kid & Hk & Hfd & He)|(m & s1 & Hm & Hrest)]].
  - left. exists s. by rewrite Nat.add_0_r.
  - pose proof (Hinv _ _ Hrun1) as Hi1. rewrite Nat.add_succ_r.
    destruct (do_step (sched (n + j)) s1) as [o|] eqn:Eo.
    + destruct (Hstep _ _ _ Hi1 Eo) as (s2 & -> & Hi2).
      assert (run do_step sched (S (n + j)) s0 = Ret s2) as Hrun2
        by (cbn [run]; rewrite Hrun1; cbn [mbind outcome_bind]; unfold turn; by rewrite Eo).
      destruct (step_serves pid kid _ s1 s2 Hi1 Hk He Eo Hi2) as [(kid' & Hk' & Hfd' & He')|Hover].
      * left. exists s2. split; [done|]. exists kid'. split_and!; [done|congruence|done].
      * right. exists (S (n + j)), s2. split_and!; [lia|lia|done|by rewrite <-Hfd].
    + left. exists s1. split; [|by exists kid]. cbn [run]. rewrite Hrun1. cbn [mbind outcome_bind]. unfold turn. by rewrite Eo.
  - right. exists m, s1. split; [lia|done].
Qed.

(** ** Progress *)

Definition unreaped (pid : Z) (s : FS) : Prop := pid ∈ s.(forks).(running) ++ s.(forks).(zombies).

Definition way (pid : Z) (s : FS) : nat * (nat * nat) :=
  match s.(kids) !! pid with
  | Some kid => place_left pid kid.(kid_stream) kid.(place) s.(fk)
  | None => (0, ahead pid s.(forks))
  end.

(** The child while it runs, the reaper after. *)
Definition helper (pid : Z) (s : FS) : FLabel :=
  match s.(kids) !! pid with Some _ => FChild pid | None => Alone (reaper s.(forks)) end.

Definition of_child (pid : Z) (lbl : FLabel) : Prop := lbl = FChild pid \/ lbl = Alone Interrupt \/ lbl = Alone Reap.

Lemma unreaped_zombie pid s : inv s -> unreaped pid s -> s.(kids) !! pid = None -> pid ∈ s.(forks).(zombies).
Proof.
  intros Hi Hin Hk. apply elem_of_app in Hin as [Hr|]; [|done].
  apply (kid_running _ _ _ _ _ s pid Hi) in Hr as [kid Hr]. congruence.
Qed.

Lemma kid_unreaped pid s : inv s -> is_Some (s.(kids) !! pid) -> unreaped pid s.
Proof. intros Hi Hk. apply elem_of_app. left. by apply (kid_running _ _ _ _ _ s pid Hi). Qed.

Lemma running_moves pid kid lbl s s' :
  inv s -> s.(kids) !! pid = Some kid -> do_step lbl s = Some (Ret s') -> inv s' ->
  unreaped pid s' /\ (lex3 (way pid s') (way pid s) \/
    way pid s' = way pid s /\ helper pid s <> lbl /\ helper pid s' = helper pid s).
Proof.
  intros Hi Hk E Hi'. unfold helper, way. rewrite Hk.
  destruct (decide (lbl = FChild pid)) as [->|Hlbl].
  - destruct (own_call pid kid s s' Hi Hk E) as [(kid' & Hk' & Hlex)|[Hk' Hz]]; rewrite Hk'.
    + split; [apply kid_unreaped; [done|by eexists]|by left].
    + split; [apply elem_of_app; by right|]. left. left. destruct (place kid); cbn; lia.
  - destruct (kid_frame pid kid lbl s s' Hi Hk Hlbl E) as [Hk' Hle]. rewrite Hk'.
    split; [apply kid_unreaped; [done|by eexists]|].
    destruct (place kid) as [|t|]; cbn [place_left]; [right; by split_and!| |right; by split_and!].
    apply Nat.lt_eq_cases in Hle as [Hlt|Heq]; [left; right; split; [done|by left]|rewrite Heq; right; by split_and!].
Qed.

Lemma zombie_goes_on pid lbl s s' :
  inv s -> pid ∈ s.(forks).(zombies) -> s.(kids) !! pid = None -> do_step lbl s = Some (Ret s') -> inv s' ->
  ~ unreaped pid s' \/ unreaped pid s' /\ (lex3 (way pid s') (way pid s) \/
    way pid s' = way pid s /\ helper pid s <> lbl /\ helper pid s' = helper pid s).
Proof.
  intros Hi Hz Hk E Hi'.
  assert (pid ∈ s'.(forks).(zombies) -> s'.(kids) !! pid = None) as Hnone.
  { intros Hz'. destruct (kids s' !! pid) as [kid|] eqn:Hk'; [|done].
    pose proof (sv_nodup _ _ _ _ _ _ Hi') as (_ & Hd & _)%NoDup_app. destruct (Hd pid); [|done].
    apply (kid_running _ _ _ _ _ s' pid Hi'). by eexists. }
  unfold way, helper. rewrite Hk.
  destruct (server_step_forks lbl s s' E) as [[Heq Hal]|(flbl & Et & Hal)].
  { right. rewrite Heq in Hnone. split; [unfold unreaped; rewrite Heq; apply elem_of_app; by right|]. right.
    rewrite Hnone, Heq by done. split_and!; [done| |done]. intros E'. by apply (Hal (reaper (forks s))). }
  destruct (zombie_moves cfg pid _ _ _ Hz Et) as [[-> Hz']|[Hin Hmv]].
  - left. unfold unreaped. intros Hin. pose proof (sv_nodup _ _ _ _ _ _ Hi) as Hnd.
    destruct (alone_facts cfg Reap _ _ eq_refl Et) as (Hr & _). rewrite Hz', <-Hr, <-Permutation_middle in Hnd.
    by apply NoDup_cons in Hnd as [Hnd _].
  - right. split; [apply elem_of_app; by right|]. rewrite (Hnone Hin).
    destruct Hmv as [Hlex|(Heq & Hne & Hh)]; [left; right; by split|right]. split_and!; [by rewrite Heq| |].
    + intros <-. apply Hne. by rewrite (Hal _ eq_refl).
    + unfold reaper. by rewrite Hh.
Qed.

Lemma child_progress pid :
  progress do_step lex3 (way pid) inv (unreaped pid) (fun s => ~ unreaped pid s) (of_child pid) (fun _ => True)
    (fun s h => helper pid s = h).
Proof.
  assert (forall lbl s s', inv s -> unreaped pid s -> do_step lbl s = Some (Ret s') -> inv s' ->
    ~ unreaped pid s' \/ unreaped pid s' /\ (lex3 (way pid s') (way pid s) \/
      way pid s' = way pid s /\ helper pid s <> lbl /\ helper pid s' = helper pid s)) as Hmoves.
  { intros lbl s s' Hi Hun E Hi'. destruct (kids s !! pid) as [kid|] eqn:Hk.
    - right. by eapply running_moves.
    - eapply zombie_goes_on; try done. by apply unreaped_zombie. }
  split.
  - done.
  - intros lbl s o Hi E. destruct (server_step_inv parent l cfg app base Hcap Hl Hfit lbl s o Hi E) as (s' & -> & Hi' & _).
    by exists s'.
  - intros s Hi Hun. exists (helper pid s). split; [|done]. unfold helper, of_child, reaper.
    destruct (kids s !! pid); [by left|]. destruct (in_handler (forks s)); naive_solver.
  - intros s h Hi Hun <-. unfold helper. destruct (kids s !! pid) as [kid|] eqn:Hk.
    + destruct (child_call_inv parent l cfg app base Hcap Hl Hfit s pid Hi) as (s' & E & _); [by eexists|].
      cbn [server_step]. rewrite E. by eexists.
    + destruct (reaper_enabled cfg pid _ (sv_forks _ _ _ _ _ _ Hi) (unreaped_zombie pid s Hi Hun Hk)) as [t Et].
      assert (is_alone (reaper (forks s)) = true) as Ha by (unfold reaper; by destruct (in_handler (forks s))).
      cbn [server_step]. rewrite Ha. unfold alone_step. rewrite Et. by eexists.
  - intros lbl s s' Hi Hun E Hi'. destruct (Hmoves lbl s s' Hi Hun E Hi') as [?|[? _]]; [by left|by right].
  - intros lbl s s' _ Hi Hun E Hi'. destruct (Hmoves lbl s s' Hi Hun E Hi') as [?|[Hun' [?|(Hw & Hne & Hh)]]];
      [by left|right; split; [done|by left]|]. right. split; [done|]. right. split_and!; [done..|]. intros h <-. exact Hh.
Qed.
End Child.

Section Claim.
Context {K H : Type} `{ProcessLaws K, !FinitePeers K} `{SiteHandlers H}.

(** C18. Liveness, for a process per connection, for clients that each send a
    finite number of chunks: under every schedule that gives a child and the
    reaper their turns again and again, whatever the parent, the other children
    and the signals do in between, a child that has been forked exits and is
    waited for, its slot given back; and if its [serve_connection] has yet to
    return, it does so before: then its client was written the session of what
    was received from it, all that it sends or as much as its state machine
    takes, or, where [serve_connection] ends in an I/O error, a part of it. *)
Theorem children_serve_and_end sched parent l cfg (k : K) (app : App H) n s pid kid
    (Hcap : (cfg.(max_connections) <= usize_max)%N) (Hfit : fits app) (Hl : l ∈ table parent k)
    (Hparent : parent ∈ procs k) (Hfair : fair (of_child pid) sched)
    (Hrun : run (server_step parent l cfg app) sched n (Server_new (machine k)) = Ret s)
    (Hkid : s.(kids) !! pid = Some kid) :
  exists m s', n <= m /\ run (server_step parent l cfg app) sched m (Server_new (machine k)) = Ret s' /\
    pid ∉ s'.(forks).(running) ++ s'.(forks).(zombies) /\
    s'.(forks).(live_children) =
      N.of_nat (length s'.(forks).(running) + length s'.(forks).(zombies) + reserved s'.(forks).(pc)) /\
    (early kid.(place) = true ->
     exists m1 s1 kid1 r h, n <= m1 <= m /\
       run (server_step parent l cfg app) sched m1 (Server_new (machine k)) = Ret s1 /\
       s1.(kids) !! pid = Some kid1 /\ kid1.(place) = AtWork (Finished r) /\ kid1.(kid_stream) = kid.(kid_stream) /\
       log_of pid kid.(kid_stream) s1.(fk).(conns) = Some h /\
       sent h `prefix_of` session app [] (received h) /\
       (r = Ok tt -> sent h = session app [] (received h) /\
         (peer_left pid kid.(kid_stream) s1.(fk) = 0 \/ moves app (AReading []) h AClosed))).
Proof.
  pose proof (fits_all app Hfit) as Hall.
  assert (server_inv parent l cfg app (table parent k) (Server_new (machine k))) as H0i by by apply server_start_inv.
  pose proof (child_progress parent l cfg app _ Hcap Hl Hall pid) as Hp.
  destruct (run_keeps _ _ _ _ _ _ _ _ _ sched n _ Hp H0i) as (s1 & E & Hi). rewrite Hrun in E. injection E as <-.
  destruct (leads_to _ _ _ _ _ _ _ _ _ sched _ n s Hp Hfair (ex_intro _ 0 (fun _ _ => I)) H0i Hrun)
    as (m & s' & Hle & Hrun' & Hi' & Hend).
  { eapply kid_unreaped; [done|by eexists]. }
  exists m, s'. split_and!; [done|done|exact Hend|apply (fi_live _ _ (sv_forks _ _ _ _ _ _ Hi'))|]. intros He.
  destruct (run_serves parent l cfg app _ Hcap Hl Hall sched pid kid.(kid_stream) _ n s (m - n) H0i Hrun)
    as [(s1 & Hrun1 & kid1 & Hk1 & _)|(m1 & s1 & Hm1 & Hrun1 & kid1 & r & h & Hk1 & Hfd & Hpl & Hlog & Hserves & Hpre & Hok)].
  { by exists kid. }
  - rewrite Nat.add_comm, Nat.sub_add in Hrun1 by done. rewrite Hrun' in Hrun1. injection Hrun1 as <-.
    destruct Hend. eapply kid_unreaped; [done|by eexists].
  - exists m1, s1, kid1, r, h. split_and!; [lia|lia|done..|]. intros ->. split; [exact Hserves|by apply Hok].
Qed.
End Claim.

(** ** A run *)

Definition host_left (p fd : Z) (k : Host) : nat :=
  match host_table p k !! fd with
  | Some file => waiting file k.(host_in)
  | None => 0
  end.

Lemma host_left_table p fd k k' :
  host_table p k' !! fd = host_table p k !! fd -> k'.(host_in) = k.(host_in) -> host_left p fd k' <= host_left p fd k.
Proof. unfold host_left. by intros -> ->. Qed.

#[export] Program Instance host_peers : FinitePeers Host := { peer_left := host_left }.
Next Obligation.
  intros fd n k b bs k' E. cbn in E.
  destruct (host_read_inv _ _ _ _ _ E) as (Hc & Hp & _ & [[_ [e ?]]|(file & c & Hf & Hd & Hr)]); [done|].
  cbn. unfold host_left, host_table in *. rewrite Hp, Hf. destruct (dequeue_waiting _ _ _ _ file Hd) as (_ & Hlt & _).
  apply Hlt. intros ->. by rewrite take_nil in Hr.
Qed.
Next Obligation.
  intros fd n k k' E Hn. cbn in E.
  destruct (host_read_inv _ _ _ _ _ E) as (Hc & Hp & _ & [[_ [e ?]]|(file & c & Hf & Hd & Hr)]); [done|].
  cbn. unfold host_left, host_table in *. rewrite Hp, Hf. destruct (dequeue_waiting _ _ _ _ file Hd) as (_ & _ & Hend).
  apply Hend. destruct c; [done|]. destruct (N.to_nat n) eqn:?; [lia|done].
Qed.
Next Obligation.
  intros fd n k r k' p f E. cbn in E.
  destruct (host_read_inv _ _ _ _ _ E) as (Hc & Hp & _ & [[-> _]|(file & c & Hf & Hd & _)]); [done|].
  unfold host_left, host_table in *. rewrite Hp. destruct (_ !! f) as [file'|]; [|done].
  exact (proj1 (dequeue_waiting _ _ _ _ file' Hd)).
Qed.
Next Obligation. intros fd bs k r k' p f E. cbn in E. by simplify_eq. Qed.
Next Obligation.
  intros l k r k' p f E Hne. cbn in E.
  destruct (host_accept_inv _ _ _ E) as [[-> ->]|(t & fd & -> & Ht & -> & _ & Hin & Hp)]; [done|].
  apply host_left_table; [|done]. unfold host_table. rewrite Hp. destruct (decide (p = host_current k)) as [->|Hq].
  - rewrite lookup_insert_eq, Ht. cbn. apply lookup_insert_ne. destruct Hne; [done|congruence].
  - by rewrite lookup_insert_ne.
Qed.
Next Obligation.
  intros fd k p f Hne. apply host_left_table; [|done]. cbn. unfold host_table. cbn.
  destruct (decide (p = host_current k)) as [->|Hq]; [|by rewrite lookup_alter_ne].
  rewrite lookup_alter_eq. destruct (host_procs k !! host_current k); [|done]. cbn. apply lookup_delete_ne.
  destruct Hne; [done|congruence].
Qed.
Next Obligation. intros fd ns k r k' p f E. cbn in E. by simplify_eq. Qed.
Next Obligation. intros fd ns k r k' p f E. cbn in E. by simplify_eq. Qed.
Next Obligation. done. Qed.
Next Obligation.
  intros k pid k' p f E Hne. cbn in E. destruct (host_procs k !! host_current k) as [t|]; [|by simplify_eq].
  injection E as <- <-. apply host_left_table; [|done]. unfold host_table. cbn. rewrite lookup_insert_ne; [done|].
  destruct Hne as [|Hm]; [congruence|]. pose proof (next_fd_pos (dom (host_procs k))). lia.
Qed.
Next Obligation.
  intros k p f Hne. apply host_left_table; [|done]. unfold host_table. cbn. by rewrite lookup_alter_ne.
Qed.
Next Obligation.
  intros pid k p f Hne. apply host_left_table; [|done]. unfold host_table. cbn. by rewrite lookup_delete_ne.
Qed.

(** The parent's labels, the reaper's, and those of every child. *)
Definition fork_labels (v : nat) : FLabel :=
  let i := v / 9 in
  match v mod 9 with
  | 0 => FAccept
  | 1 => Alone CheckCap
  | 2 => Alone Reserve
  | 3 => FFork
  | 4 => Alone ParentDrop
  | 5 => FChild (Z.of_nat i)
  | 6 => Alone Interrupt
  | 7 => Alone Reap
  | _ => Alone ReapDone
  end.

Lemma fork_labels_child pid lbl : (0 <= pid)%Z -> of_child pid lbl -> exists v, fork_labels v = lbl.
Proof.
  intros Hpid [->|[->| ->]]; [exists (5 + Z.to_nat pid * 9)|by exists 6|by exists 7].
  unfold fork_labels. rewrite Nat.div_add, Nat.div_small, Nat.Div0.mod_add, Nat.mod_small by lia.
  by rewrite Nat.add_0_l, Z2Nat.id.
Qed.

Lemma children_serve_and_end_witness :
  let init := Server_new (machine host) in
  let sched := diagonal fork_labels in
  exists s, run (server_step 1 3 fork_config sample_app) sched 40 init = Ret s /\
    exists kid, s.(kids) !! 3%Z = Some kid /\
    exists m s', 40 <= m /\ run (server_step 1 3 fork_config sample_app) sched m init = Ret s' /\
      3%Z ∉ s'.(forks).(running) ++ s'.(forks).(zombies) /\
      exists m1 s1 kid1 r h, 40 <= m1 <= m /\
        run (server_step 1 3 fork_config sample_app) sched m1 init = Ret s1 /\
        s1.(kids) !! 3%Z = Some kid1 /\ kid1.(place) = AtWork (Finished r) /\
        log_of 3 kid.(kid_stream) s1.(fk).(conns) = Some h /\ sent h `prefix_of` session sample_app [] (received h).
Proof.
  intros init sched.
  assert (match run (server_step 1 3 fork_config sample_app) sched 40 init with
    | Ret s => match s.(kids) !! 3%Z with Some kid => early kid.(place) | None => false end
    | _ => false end = true) as Hok by (vm_compute; reflexivity).
  destruct (run (server_step 1 3 fork_config sample_app) sched 40 init) as [s| |] eqn:Hrun; try discriminate Hok.
  exists s. split; [reflexivity|].
  destruct (kids s !! 3%Z) as [kid|] eqn:Hkid; [|discriminate Hok]. exists kid. split; [reflexivity|].
  assert (fair (of_child 3) sched) as Hfair.
  { apply diagonal_fair. intros lbl. apply fork_labels_child. lia. }
  assert (fork_config.(max_connections) <= usize_max)%N as Hcap by (vm_compute; congruence).
  assert (3%Z ∈ table 1 host) as Hl by (vm_compute; reflexivity).
  assert (1%Z ∈ procs host) as Hp by (vm_compute; reflexivity).
  destruct (children_serve_and_end sched 1 3 fork_config host sample_app 40 s 3%Z kid Hcap sample_app_fits Hl Hp Hfair Hrun Hkid)
    as (m & s' & Hle & Hrun' & Hend & _ & Hserved).
  exists m, s'. split; [exact Hle|]. split; [exact Hrun'|]. split; [exact Hend|].
  destruct (Hserved Hok) as (m1 & s1 & kid1 & r & h & Hm1 & Hrun1 & Hk1 & Hpl & _ & Hlog & Hpre & _).
  exists m1, s1, kid1, r, h. split; [exact Hm1|]. split; [exact Hrun1|]. split; [exact Hk1|]. split; [exact Hpl|].
  split; [exact Hlog|exact Hpre].
Defined.
