(* ===== verification/ThreadPerConn.v ===== *)
(** * The thread-per-connection model

    server/src/models/thread_per_conn.rs: the counting semaphore over a mutex
    and a condition variable, the accept loop and its detached workers.  A
    step is one access to what the threads share: taking the lock, a statement
    under it, leaving it; [step] is executable. *)

From S2P Require Import Prelude RustStr Http Response Request App Syscall.

(** ** The state *)

(** The accept loop, with the stream it holds: before [lock] in [acquire],
    under the lock before the test of [while], in [wait], and past [acquire];
    and panicked. *)
Inductive APc :=
  | Accepting
  | Locking (stream : Z)
  | Testing (stream : Z)
  | Waiting (stream : Z)
  | Spawning (stream : Z)
  | Crashed.

(** A worker: in [serve_connection], before [lock] in [release], under the
    lock, and after the notification, before the lock is left. *)
Inductive WPc := Serving | Returned | Releasing | Notified.

#[global] Instance WPc_eq_dec : EqDecision WPc.
Proof. solve_decision. Defined.

Inductive Owner := Acceptor | Worker.

#[global] Instance Owner_eq_dec : EqDecision Owner.
Proof. solve_decision. Defined.

Record Threads := mkThreads {
  permits : N;
  lock : option Owner;
  (* the waiter has been woken *)
  woken : bool;
  apc : APc;
  workers : list (Z * WPc);
  t_metrics : Metrics;
  (* descriptors of accepted streams not yet closed *)
  t_streams : list Z;
}.

Inductive Label :=
  | AcceptOk (stream : Z)
  | AcceptErr
  | AcquireLock
  | TestPermits
  | Wake
  | SpuriousWake
  | Spawn
  (* the system gives no thread *)
  | SpawnPanics
  (* of the [i]th thread alive *)
  | Served (i : nat) (r : result unit IoError)
  | ReleaseLock (i : nat)
  | Release (i : nat)
  | Unlock (i : nat).

(** [Semaphore::new(cfg.max_connections.max(1))], in [serve]. *)
Definition Threads_new (cfg : ServerConfig) : Threads :=
  mkThreads (N.max cfg.(max_connections) 1) None false Accepting [] Metrics_new [].

Definition set_permits (n : N) (s : Threads) : Threads :=
  mkThreads n s.(lock) s.(woken) s.(apc) s.(workers) s.(t_metrics) s.(t_streams).
Definition set_lock (o : option Owner) (s : Threads) : Threads :=
  mkThreads s.(permits) o s.(woken) s.(apc) s.(workers) s.(t_metrics) s.(t_streams).
Definition set_woken (b : bool) (s : Threads) : Threads :=
  mkThreads s.(permits) s.(lock) b s.(apc) s.(workers) s.(t_metrics) s.(t_streams).
Definition set_apc (p : APc) (s : Threads) : Threads :=
  mkThreads s.(permits) s.(lock) s.(woken) p s.(workers) s.(t_metrics) s.(t_streams).
Definition set_workers (ws : list (Z * WPc)) (s : Threads) : Threads :=
  mkThreads s.(permits) s.(lock) s.(woken) s.(apc) ws s.(t_metrics) s.(t_streams).
Definition set_t_metrics (m : Metrics) (s : Threads) : Threads :=
  mkThreads s.(permits) s.(lock) s.(woken) s.(apc) s.(workers) m s.(t_streams).
Definition set_t_streams (l : list Z) (s : Threads) : Threads :=
  mkThreads s.(permits) s.(lock) s.(woken) s.(apc) s.(workers) s.(t_metrics) l.

(** The stream is dropped. *)
Definition close_stream (stream : Z) (s : Threads) : Threads :=
  set_t_streams (List.filter (fun fd => negb (fd =? stream)%Z) s.(t_streams)) s.

(** ** The accept loop *)

Definition is_free (s : Threads) : bool := bool_decide (s.(lock) = None).

Definition acceptor_step (l : Label) (s : Threads) : option Threads :=
  match l, s.(apc) with
  | AcceptOk stream, Accepting =>
    if decide (stream ∈ s.(t_streams)) then None else
    let s := set_t_streams (stream :: s.(t_streams)) s in
    Some (set_apc (Locking stream) (set_t_metrics (inc_connections s.(t_metrics)) s))
  | AcceptErr, Accepting => Some s
  | AcquireLock, Locking stream =>
    if is_free s then Some (set_apc (Testing stream) (set_lock (Some Acceptor) s)) else None
  | TestPermits, Testing stream =>
    if (s.(permits) =? 0)%N then
      (* [wait] leaves the lock *)
      Some (set_apc (Waiting stream) (set_woken false (set_lock None s)))
    else
      Some (set_apc (Spawning stream) (set_lock None (set_permits (s.(permits) - 1) s)))
  (* [wait] returns with the lock, after a notification or without one *)
  | Wake, Waiting stream =>
    if s.(woken) && is_free s
    then Some (set_apc (Testing stream) (set_woken false (set_lock (Some Acceptor) s))) else None
  | SpuriousWake, Waiting stream =>
    if is_free s then Some (set_apc (Testing stream) (set_lock (Some Acceptor) s)) else None
  | Spawn, Spawning stream =>
    Some (set_apc Accepting (set_workers (s.(workers) ++ [(stream, Serving)]) s))
  (* [thread::spawn] drops its closure, and unwraps *)
  | SpawnPanics, Spawning stream => Some (set_apc Crashed (close_stream stream s))
  | _, _ => None
  end.

(** ** The workers *)

(** [available.notify_one()]: the accept loop is the only one that waits. *)
Definition notify_one (s : Threads) : Threads :=
  match s.(apc) with Waiting _ => set_woken true s | _ => s end.

Definition move_worker (i : nat) (stream : Z) (p : WPc) (s : Threads) : Threads :=
  set_workers (<[i := (stream, p)]> s.(workers)) s.

(** The thread ends. *)
Definition end_worker (i : nat) (s : Threads) : Threads :=
  set_workers (delete i s.(workers)) s.

(** [serve_connection] returned [r], and closed its stream. *)
Definition on_served (stream : Z) (r : result unit IoError) (s : Threads) : Threads :=
  let s := match r with Ok _ => s | Err _ => set_t_metrics (inc_errors s.(t_metrics)) s end in
  close_stream stream s.

Definition worker_step (l : Label) (s : Threads) : option Threads :=
  match l with
  | Served i r =>
    match s.(workers) !! i with
    | Some (stream, Serving) => Some (move_worker i stream Returned (on_served stream r s))
    | _ => None
    end
  | ReleaseLock i =>
    match s.(workers) !! i with
    | Some (stream, Returned) =>
      if is_free s then Some (move_worker i stream Releasing (set_lock (Some Worker) s)) else None
    | _ => None
    end
  | Release i =>
    match s.(workers) !! i with
    | Some (stream, Releasing) =>
      Some (move_worker i stream Notified (notify_one (set_permits (s.(permits) + 1) s)))
    | _ => None
    end
  | Unlock i =>
    match s.(workers) !! i with
    | Some (stream, Notified) => Some (end_worker i (set_lock None s))
    | _ => None
    end
  | _ => None
  end.

Definition step (l : Label) (s : Threads) : option Threads :=
  match l with
  | Served _ _ | ReleaseLock _ | Release _ | Unlock _ => worker_step l s
  | _ => acceptor_step l s
  end.

Fixpoint steps (ls : list Label) (s : Threads) : option Threads :=
  match ls with
  | [] => Some s
  | l :: ls => s ← step l s; steps ls s
  end.

(** ** The invariant *)

(** The permit is held until [release] has given it back. *)
Definition holds (w : Z * WPc) : bool := match w.2 with Notified => false | _ => true end.
Definition locked (w : Z * WPc) : bool := match w.2 with Releasing | Notified => true | _ => false end.
Definition serves (w : Z * WPc) : bool := match w.2 with Serving => true | _ => false end.

Definition count (f : Z * WPc -> bool) (ws : list (Z * WPc)) : nat := length (List.filter f ws).
#[global] Arguments count : simpl never.

Definition owned (p : APc) : list Z :=
  match p with
  | Accepting | Crashed => []
  | Locking s | Testing s | Waiting s | Spawning s => [s]
  end.

Definition serving (ws : list (Z * WPc)) : list Z := fst <$> List.filter serves ws.
#[global] Arguments serving : simpl never.

Record threads_inv (cap : N) (s : Threads) : Prop := {
  ti_permits : (s.(permits) + N.of_nat (count holds s.(workers)) +
                (match s.(apc) with Spawning _ | Crashed => 1 | _ => 0 end) = cap)%N;
  ti_lock : s.(lock) = Some Acceptor <-> exists stream, s.(apc) = Testing stream;
  ti_locked : count locked s.(workers) = match s.(lock) with Some Worker => 1 | _ => 0 end;
  ti_waiting : match s.(apc) with
    | Waiting _ => s.(woken) = true <-> (0 < s.(permits))%N
    | _ => True
    end;
  ti_streams : s.(t_streams) ≡ₚ owned s.(apc) ++ serving s.(workers);
  ti_nodup : NoDup s.(t_streams);
}.

Lemma count_insert f ws i w w' :
  ws !! i = Some w ->
  count f (<[i := w']> ws) + (if f w then 1 else 0) = count f ws + (if f w' then 1 else 0).
Proof.
  intros Hi. assert (i < length ws) as Hlt by by eapply lookup_lt_Some.
  rewrite insert_take_drop by done. rewrite <-(take_drop_middle ws i w Hi) at 3.
  unfold count. rewrite !List.filter_app, !length_app. cbn [List.filter].
  destruct (f w), (f w'); simpl; lia.
Qed.

Lemma count_delete f ws i w :
  ws !! i = Some w -> count f (delete i ws) + (if f w then 1 else 0) = count f ws.
Proof.
  intros Hi. rewrite delete_take_drop. rewrite <-(take_drop_middle ws i w Hi) at 3.
  unfold count. rewrite !List.filter_app, !length_app. cbn [List.filter].
  destruct (f w); simpl; lia.
Qed.

Lemma count_snoc f ws w : count f (ws ++ [w]) = count f ws + (if f w then 1 else 0).
Proof. unfold count. rewrite List.filter_app, length_app. cbn. by destruct (f w). Qed.

Lemma serving_insert ws i w w' :
  ws !! i = Some w ->
  serving (<[i := w']> ws) ++ (if serves w then [w.1] else []) ≡ₚ
  serving ws ++ (if serves w' then [w'.1] else []).
Proof.
  intros Hi. assert (i < length ws) as Hlt by by eapply lookup_lt_Some.
  rewrite insert_take_drop by done. rewrite <-(take_drop_middle ws i w Hi) at 3.
  unfold serving. rewrite !List.filter_app, !fmap_app. cbn [List.filter].
  destruct (serves w), (serves w'); cbn; rewrite ?app_nil_r; solve_Permutation.
Qed.

Lemma serving_delete ws i w :
  ws !! i = Some w -> serves w = false -> serving (delete i ws) = serving ws.
Proof.
  intros Hi Hw. rewrite delete_take_drop. rewrite <-(take_drop_middle ws i w Hi) at 3.
  unfold serving. rewrite !List.filter_app. cbn [List.filter]. by rewrite Hw.
Qed.
