(* ===== verification/ThreadPerConnProps.v ===== *)
(** * Properties of the thread-per-connection model *)

From S2P Require Import Prelude RustStr Http Response Request App Syscall ThreadPerConn.

Section Props.
Context (cap : N).

Lemma threads_acceptor_inv l s s' :
  threads_inv cap s -> acceptor_step l s = Some s' -> threads_inv cap s'.
Proof using Type.
  intros [Hp Hl Hk Hw Hs Hn] Hst.
  destruct l, (apc s) eqn:Hpc; try done; cbn [acceptor_step] in Hst; rewrite Hpc in Hst; try done;
    cbn [owned Datatypes.app] in *.
  - case_decide; [done|]. injection Hst as <-. split; try done; cbn; [|by rewrite Hs|by apply NoDup_cons].
    rewrite Hl. split; intros [? ?]; done.
  - injection Hst as <-. split; rewrite ?Hpc; try done.
  - unfold is_free in Hst. case_bool_decide as Hlk; [|done]. injection Hst as <-.
    rewrite Hlk in Hk. split; try done; cbn. split; [by eexists|done].
  - assert (lock s = Some Acceptor) as Hlk by (apply Hl; by eexists). rewrite Hlk in Hk.
    assert (~ (exists stream0, Waiting stream = Testing stream0)) as Hnw by (by intros [? ?]).
    destruct (N.eqb_spec (permits s) 0) as [Hz|Hz]; injection Hst as <-.
    + split; try done; cbn. rewrite Hz. split; [done|lia].
    + split; try done; cbn; [lia|split; [done|by intros [? ?]]].
  - destruct (woken s) eqn:Hwk; [|done]. cbn [andb] in Hst. unfold is_free in Hst.
    case_bool_decide as Hlk; [|done]. injection Hst as <-. rewrite Hlk in Hk.
    split; try done; cbn. split; [by eexists|done].
  - unfold is_free in Hst. case_bool_decide as Hlk; [|done]. injection Hst as <-. rewrite Hlk in Hk.
    split; try done; cbn. split; [by eexists|done].
  - injection Hst as <-. split; try done; cbn [set_apc set_workers permits lock woken apc workers t_streams];
      rewrite ?count_snoc; cbn; try done.
    + lia.
    + rewrite Hl. split; intros [? ?]; done.
    + rewrite Hk. lia.
    + unfold serving in *. rewrite List.filter_app, fmap_app. cbn. rewrite Hs. solve_Permutation.
  - injection Hst as <-. split; try done; cbn -[List.filter].
    + rewrite Hl. split; intros [? ?]; done.
    + by apply (filter_take_out _ stream); [intros y; rewrite negb_true_iff; apply Z.eqb_neq|..].
    + by apply NoDup_ListNoDup, List.NoDup_filter, NoDup_ListNoDup.
Qed.

Lemma threads_worker_inv l s s' :
  threads_inv cap s -> worker_step l s = Some s' -> threads_inv cap s'.
Proof using Type.
  intros [Hp Hl Hk Hw Hs Hn] Hst.
  destruct l as [| | | | | | | |i r|i|i|i]; try done; cbn [worker_step] in Hst;
    destruct (workers s !! i) as [[stream []]|] eqn:Hi; try done.
  - injection Hst as <-.
    pose proof (count_insert holds _ i _ (stream, Returned) Hi) as Hh.
    pose proof (count_insert locked _ i _ (stream, Returned) Hi) as Hlo.
    pose proof (serving_insert _ i _ (stream, Returned) Hi) as Hse. cbn in Hh, Hlo, Hse.
    rewrite app_nil_r in Hse.
    assert (t_streams s ≡ₚ stream :: owned (apc s) ++ serving (<[i:=(stream, Returned)]> (workers s))) as Hs'.
    { rewrite Hs, <-Hse. solve_Permutation. }
    unfold on_served. destruct r; (split; cbn -[List.filter]; try done; try lia;
      [by apply (filter_take_out _ stream); [intros y; rewrite negb_true_iff; apply Z.eqb_neq|..]|by apply NoDup_ListNoDup, List.NoDup_filter, NoDup_ListNoDup]).
  - unfold is_free in Hst. case_bool_decide as Hlk; [|done]. injection Hst as <-.
    pose proof (count_insert holds _ i _ (stream, Releasing) Hi) as Hh.
    pose proof (count_insert locked _ i _ (stream, Releasing) Hi) as Hlo.
    pose proof (serving_insert _ i _ (stream, Releasing) Hi) as Hse. cbn in Hh, Hlo, Hse.
    rewrite !app_nil_r in Hse. rewrite Hlk in Hk, Hl. cbn in Hk.
    split; cbn; try done; try lia; [|by rewrite Hse].
    split; [done|]. intros He. by apply Hl in He.
  - injection Hst as <-.
    pose proof (count_insert holds _ i _ (stream, Notified) Hi) as Hh.
    pose proof (count_insert locked _ i _ (stream, Notified) Hi) as Hlo.
    pose proof (serving_insert _ i _ (stream, Notified) Hi) as Hse. cbn in Hh, Hlo, Hse.
    rewrite !app_nil_r in Hse.
    unfold notify_one. cbn [set_permits apc]. destruct (apc s) eqn:Hpc;
      (split; cbn; rewrite ?Hpc in *; try done; try lia; try (by rewrite Hse)).
  - injection Hst as <-.
    pose proof (count_delete holds _ i _ Hi) as Hh. pose proof (count_delete locked _ i _ Hi) as Hlo.
    pose proof (serving_delete _ i _ Hi eq_refl) as Hse. cbn in Hh, Hlo.
    assert (lock s = Some Worker) as Hlk.
    { destruct (lock s) as [[]|]; [lia|done|lia]. }
    rewrite Hlk in Hk, Hl. cbn in Hk.
    split; cbn; try done; try lia; [|by rewrite Hse].
    split; [done|]. intros He. by apply Hl in He.
Qed.

Lemma threads_steps_inv ls s s' : threads_inv cap s -> steps ls s = Some s' -> threads_inv cap s'.
Proof using Type.
  revert s. induction ls as [|l ls IH]; intros s Hi Hs; cbn [steps] in Hs; [by injection Hs as <-|].
  destruct (step l s) as [s1|] eqn:E; [|done]. cbn [mbind option_bind] in Hs.
  apply (IH s1); [|done]. destruct l; cbn [step] in E;
    first [by eapply threads_acceptor_inv|by eapply threads_worker_inv].
Qed.
End Props.

Lemma threads_new_inv cfg : threads_inv (N.max cfg.(max_connections) 1) (Threads_new cfg).
Proof.
  split; cbn; [change (count holds []) with 0; lia|split; [done|by intros [? ?]]|done|done|done|apply NoDup_nil_2].
Qed.

Lemma serving_holds ws : length (serving ws) <= count holds ws.
Proof.
  unfold serving, count. rewrite length_fmap. induction ws as [|[x p] ws IH]; [done|].
  cbn [List.filter]. destruct p; cbn; lia.
Qed.

(** C34. Invariant and absence of lost wake-ups: under every interleaving of
    the accept loop and the workers, spurious wake-ups included, the permits
    free and those held, by the workers and by the accept loop between taking
    one and handing it over, make up [max(max_connections, 1)] (one whose thread
    the system refused is lost for good, and the accept loop with it); so at
    most that
    many connections are served at once, and at most one more is open.  When
    the accept loop waits, it has been woken exactly when a permit is free:
    then, as soon as the lock is free, it goes on to spawn, and otherwise some
    worker still holds the permit whose release will wake it. *)
Theorem threads_capped_no_lost_wakeup cfg ls s (cap := N.max cfg.(max_connections) 1)
    (Hs : steps ls (Threads_new cfg) = Some s) :
  (s.(permits) + N.of_nat (count holds s.(workers)) +
    match s.(apc) with Spawning _ | Crashed => 1 | _ => 0 end = cap)%N /\
  (N.of_nat (length (serving s.(workers))) <= cap)%N /\
  NoDup s.(t_streams) /\ (N.of_nat (length s.(t_streams)) <= cap + 1)%N /\
  match s.(apc) with
  | Waiting stream =>
    (s.(permits) = 0%N /\ 0 < count holds s.(workers)) \/
    (s.(woken) = true /\ (s.(lock) = None ->
       exists s', steps [Wake; TestPermits] s = Some s' /\ s'.(apc) = Spawning stream))
  | _ => True
  end.
Proof.
  destruct (threads_steps_inv cap ls _ s (threads_new_inv cfg) Hs) as [Hp Hl Hk Hw Hst Hn].
  pose proof (serving_holds s.(workers)) as Hle. split_and!; [destruct (apc s); cbn in Hp |- *; lia|lia|done| |].
  - rewrite Hst, length_app. assert (length (owned (apc s)) <= 1) by (by destruct (apc s); cbn; lia). lia.
  - destruct (apc s) as [| | |stream| |] eqn:Hpc; try done.
    destruct (N.eq_dec (permits s) 0%N) as [Hz|Hz]; [left|right].
    + split; [done|]. unfold cap in *. lia.
    + assert (woken s = true) as Hwk by (apply Hw; lia). split; [done|]. intros Hfree.
      cbn [steps step acceptor_step]. rewrite Hpc, Hwk. unfold is_free.
      rewrite bool_decide_true by done. cbn [andb mbind option_bind set_apc set_woken set_lock apc permits].
      rewrite (proj2 (N.eqb_neq _ _) Hz). by eexists.
Qed.

(** An accept loop that the system refuses a thread panics, and never accepts
    again. *)
Lemma crashed_for_good ls s s' : s.(apc) = Crashed -> steps ls s = Some s' -> s'.(apc) = Crashed.
Proof.
  revert s. induction ls as [|l ls IH]; intros s Hc Hs; cbn [steps] in Hs; [by injection Hs as <-|].
  destruct (step l s) as [s1|] eqn:E; [|done]. apply (IH s1); [|done]. clear IH Hs.
  destruct l; cbn [step] in E; unfold acceptor_step in E; rewrite ?Hc in E; try done; cbn [worker_step] in E;
    repeat (case_match; simplify_eq/=; try done). unfold notify_one. cbn [set_permits apc]. by rewrite Hc.
Qed.

(** ** A run: a cap of one, two clients. *)

Definition one_thread : ServerConfig :=
  let c := ServerConfig_default (E:=IoError) (Ok 1%N) in
  mkConfig c.(addr) c.(App.workers) c.(read_timeout) c.(write_timeout) 1 c.(cfg_assets_dir).

Definition thread_run : list Label :=
  [AcceptOk 7; AcquireLock; TestPermits; Spawn; AcceptOk 8; AcquireLock; TestPermits; SpuriousWake;
   TestPermits; Served 0 (Ok tt); ReleaseLock 0; Release 0; Unlock 0].

Lemma threads_capped_no_lost_wakeup_witness :
  exists s, steps thread_run (Threads_new one_thread) = Some s /\ s.(apc) = Waiting 8 /\
    s.(woken) = true /\ exists s', steps [Wake; TestPermits] s = Some s' /\ s'.(apc) = Spawning 8.
Proof.
  pose proof (threads_capped_no_lost_wakeup one_thread thread_run) as Hall.
  destruct (steps thread_run (Threads_new one_thread)) as [s|] eqn:E; [|vm_compute in E; discriminate E].
  exists s. split; [reflexivity|]. pose proof (proj2 (proj2 (proj2 (proj2 (Hall s eq_refl))))) as Hw.
  vm_compute in E. injection E as <-. cbn in Hw. split; [reflexivity|]. split; [reflexivity|].
  destruct Hw as [[Hp _]|[_ Hw]]; [discriminate Hp|]. exact (Hw eq_refl).
Defined.
