(* ===== verification/ThreadsServing.v ===== *)
(** * The thread-per-connection model at work

    ThreadPerConn, whose steps are those of what the threads share, with the
    serving of Serving from [Spawn] to [Served]: the accept loop, the semaphore
    and the system calls of all the workers, in any order. *)

From S2P Require Import Prelude RustStr Http Response Request RequestSpec RequestRefine Router Asset App Conn ConnSpec ConnProps Site Syscall Socket ConnTable EventIo EventIoProps Session Trace Blocking BlockingProps Serving ServingProps EpollTrace Sim ThreadPerConn ThreadPerConnProps.

Record Threaded (K : Type) := mkThreaded { threads : Threads; tcrew : Crew K }.
Arguments mkThreaded {K} _ _.
Arguments threads {K} _.
Arguments tcrew {K} _.

(** [Share lbl]: a step that makes no system call on a socket; [TServe i]: the
    [i]th worker goes on in [serve_connection], or returns from it, closing the
    stream. *)
Inductive TLabel := TAccept | TSpawnPanics | Share (lbl : Label) | TServe (i : nat).

Definition is_shared (lbl : Label) : bool :=
  match lbl with AcceptOk _ | AcceptErr | SpawnPanics | Served _ _ => false | _ => true end.

Section Threaded.
Context {K H : Type} `{Kernel K} `{Handlers H} (l : Z) (cfg : ServerConfig) (app : App H).

(** The shared application: its counters are the threads'. *)
Definition threads_app (s : Threads) : App H := mkApp app.(router) app.(assets) s.(t_metrics).

Definition Threaded_new (k : K) : Threaded K := mkThreaded (Threads_new cfg) (mkCrew k ∅).

Definition accept_step (s : Threaded K) : option (Threaded K) :=
  match s.(threads).(apc) with
  | Accepting =>
    let '(r, c) := crew_accept l s.(tcrew) in
    t ← acceptor_step (match r with Ok fd => AcceptOk fd | Err _ => AcceptErr end) s.(threads);
    Some (mkThreaded t c)
  | _ => None
  end.

(** The closure that is dropped owns the stream. *)
Definition panic_step (s : Threaded K) : option (Threaded K) :=
  match s.(threads).(apc) with
  | Spawning fd => t ← acceptor_step SpawnPanics s.(threads); Some (mkThreaded t (crew_close fd s.(tcrew)))
  | _ => None
  end.

Definition worker_goes_on (i : nat) (fd : Z) (s : Threaded K) : option (outcome (Threaded K)) :=
  match s.(tcrew).(tasks) !! fd with
  | Some (Finished r) =>
    t ← worker_step (Served i r) s.(threads); Some (Ret (mkThreaded t (crew_close fd s.(tcrew))))
  | _ =>
    o ← crew_step cfg (threads_app s.(threads)) fd s.(tcrew);
    Some (c ← o; Ret (mkThreaded s.(threads) c))
  end.

Definition threaded_step (lbl : TLabel) (s : Threaded K) : option (outcome (Threaded K)) :=
  match lbl with
  | TAccept => s ← accept_step s; Some (Ret s)
  | TSpawnPanics => s ← panic_step s; Some (Ret s)
  | Share lbl =>
    if is_shared lbl then t ← step lbl s.(threads); Some (Ret (mkThreaded t s.(tcrew))) else None
  | TServe i =>
    match s.(threads).(workers) !! i with
    | Some (fd, Serving) => worker_goes_on i fd s
    | _ => None
    end
  end.

(** [None]: the next of the steps is none of the state it is reached in. *)
Fixpoint threaded_steps (ls : list TLabel) (s : Threaded K) : option (outcome (Threaded K)) :=
  match ls with
  | [] => Some (Ret s)
  | lbl :: ls =>
    o ← threaded_step lbl s;
    match o with
    | Ret s => threaded_steps ls s
    | Panic => Some Panic
    | Diverge => Some Diverge
    end
  end.
End Threaded.

(** ** The invariant *)

Section Inv.
Context {K H : Type} `{KernelLaws K} `{SiteHandlers H}.
Context (l : Z) (cfg : ServerConfig) (app : App H) (base : gset Z) (cap : N).

Record threaded_inv (s : Threaded (Traced K)) : Prop := {
  tv_threads : threads_inv cap s.(threads);
  tv_streams : forall fd, is_Some (s.(tcrew).(tasks) !! fd) <-> fd ∈ s.(threads).(t_streams);
  tv_crew : crew_inv app base s.(tcrew);
}.

Definition threads_run (s s' : Threaded (Traced K)) : Prop :=
  exists ls, steps ls s.(threads) = Some s'.(threads).

Lemma one_step lbl s t (c : Crew (Traced K)) :
  step lbl s.(threads) = Some t -> threads_run s (mkThreaded t c).
Proof. intros E. exists [lbl]. cbn [steps]. by rewrite E. Qed.

Lemma shared_streams lbl s s' : is_shared lbl = true -> step lbl s = Some s' -> s'.(t_streams) = s.(t_streams).
Proof.
  intros Hsh E. destruct lbl; try done; cbn in E; repeat (case_match; simplify_eq/=; try done).
  unfold notify_one. by case_match.
Qed.

Lemma accept_step_inv s s' : threaded_inv s -> accept_step l s = Some s' -> threaded_inv s' /\ threads_run s s'.
Proof.
  intros [Ht Hs Hc] Hst. unfold accept_step in Hst. destruct (apc (threads s)) eqn:Hpc; try done.
  destruct (crew_accept l (tcrew s)) as [r c] eqn:Ea. apply (crew_accept_inv app base) in Ea as (Hc' & Htk); [|done].
  destruct (acceptor_step _ (threads s)) as [t|] eqn:Et; [|done]. cbn in Hst. simplify_eq.
  split; [|destruct r as [fd|e]; [by apply (one_step (AcceptOk fd))|by apply (one_step AcceptErr)]].
  split; cbn [threads tcrew]; [by eapply threads_acceptor_inv| |done].
  unfold acceptor_step in Et. rewrite Hpc in Et. destruct r as [fd|e].
  - destruct Htk as [Hnone Htk]. case_decide; [done|]. simplify_eq. intros fd'. cbn [set_apc set_t_streams set_t_metrics t_streams].
    rewrite Htk, elem_of_cons, <-Hs. destruct (decide (fd' = fd)) as [->|Hne].
    + rewrite lookup_insert_eq. naive_solver.
    + rewrite lookup_insert_ne by done. naive_solver.
  - simplify_eq. intros fd. by rewrite Htk.
Qed.
(** A stream is closed. *)
Lemma threaded_close_inv s t fd :
  threaded_inv s -> threads_inv cap t -> is_Some (s.(tcrew).(tasks) !! fd) ->
  t.(t_streams) = (close_stream fd s.(threads)).(t_streams) ->
  threaded_inv (mkThreaded t (crew_close fd s.(tcrew))).
Proof.
  intros [_ Hs Hc] Ht Hin Ho. split; cbn [threads tcrew]; [done| |by apply crew_close_inv].
  intros fd'. cbn [crew_close tasks]. rewrite Ho, lookup_delete_is_Some, Hs.
  cbn [close_stream set_t_streams t_streams].
  rewrite !list_elem_of_In, filter_In, negb_true_iff, Z.eqb_neq. naive_solver.
Qed.

Lemma panic_step_inv s s' : threaded_inv s -> panic_step s = Some s' -> threaded_inv s' /\ threads_run s s'.
Proof.
  intros Hi E. pose proof Hi as [Ht Hs _]. unfold panic_step in E. destruct (apc (threads s)) as [| | | |fd|] eqn:Hpc; try done.
  destruct (acceptor_step SpawnPanics (threads s)) as [t|] eqn:Et; [|done]. cbn in E. simplify_eq.
  split; [|by apply (one_step SpawnPanics)]. apply threaded_close_inv; [done|by eapply threads_acceptor_inv|..].
  - apply Hs. rewrite (ti_streams _ _ Ht), Hpc. apply elem_of_app. left. by left.
  - unfold acceptor_step in Et. rewrite Hpc in Et. by simplify_eq.
Qed.

Context (Hfit : all_fit app).

Lemma threads_app_site t : same_site app (threads_app app t).
Proof. done. Qed.

Lemma worker_in_crew s i fd :
  threaded_inv s -> s.(threads).(workers) !! i = Some (fd, Serving) -> is_Some (s.(tcrew).(tasks) !! fd).
Proof.
  intros [Ht Hs _] Hw. apply Hs. rewrite (ti_streams _ _ Ht), elem_of_app. right. unfold serving.
  apply list_elem_of_fmap. exists (fd, Serving). split; [done|]. apply list_elem_of_In, filter_In.
  split; [|done]. apply list_elem_of_In, list_elem_of_lookup. by exists i.
Qed.

(** One call of a thread, or its return: enabled, and never a panic. *)
Lemma worker_goes_on_inv s i fd :
  threaded_inv s -> s.(threads).(workers) !! i = Some (fd, Serving) ->
  exists s', worker_goes_on cfg app i fd s = Some (Ret s') /\ threaded_inv s' /\ threads_run s s'.
Proof.
  intros Hi Hw. pose proof Hi as [Ht Hs Hc]. unfold worker_goes_on.
  destruct (worker_in_crew s i fd Hi Hw) as [t Hin]. rewrite Hin. destruct (finished t) eqn:Hnf.
  - destruct t as [| | |r]; try done. cbn [worker_step]. rewrite Hw. cbn [mbind option_bind].
    eexists. split; [done|]. split; [|apply (one_step (Served i r)); cbn [step worker_step]; by rewrite Hw].
    apply threaded_close_inv; [done| |by eexists|by destruct r].
    apply (threads_worker_inv cap (Served i r) (threads s)); [done|]. cbn [worker_step]. by rewrite Hw.
  - destruct (crew_step_inv cfg app base (threads_app app (threads s)) fd t (tcrew s) Hfit (threads_app_site _) Hc Hin Hnf)
      as (t' & k' & _ & Hcr & Hc' & Hdom).
    eexists. split; [destruct t; try done; by rewrite Hcr|]. split; [|by exists []].
    split; cbn [threads tcrew tasks]; try done. intros fd'. by rewrite <-elem_of_dom, Hdom, elem_of_dom.
Qed.

Lemma threaded_step_inv lbl s o :
  threaded_inv s -> threaded_step l cfg app lbl s = Some o ->
  exists s', o = Ret s' /\ threaded_inv s' /\ threads_run s s'.
Proof.
  intros Hi. destruct lbl as [| |lbl|i]; cbn [threaded_step].
  - destruct (accept_step l s) as [s'|] eqn:E; [|done]. intros E'. simplify_eq/=.
    exists s'. split; [done|]. by apply accept_step_inv.
  - destruct (panic_step s) as [s'|] eqn:E; [|done]. intros E'. simplify_eq/=.
    exists s'. split; [done|]. by apply panic_step_inv.
  - destruct (is_shared lbl) eqn:Hsh; [|done]. destruct (step lbl (threads s)) as [t|] eqn:E; [|done].
    intros E'. simplify_eq/=. eexists. split; [done|]. split; [|by apply (one_step lbl)].
    destruct Hi as [Ht Hs Hc]. split; cbn [threads tcrew]; [by apply (threads_steps_inv cap [lbl] (threads s)); [|cbn; rewrite E]| |done].
    by rewrite (shared_streams _ _ _ Hsh E).
  - destruct (workers (threads s) !! i) as [[fd []]|] eqn:Hw; try done.
    destruct (worker_goes_on_inv s i fd Hi Hw) as (s' & -> & Hs'). intros E. simplify_eq. by exists s'.
Qed.

Lemma steps_trans ls1 ls2 t t1 t2 : steps ls1 t = Some t1 -> steps ls2 t1 = Some t2 -> steps (ls1 ++ ls2) t = Some t2.
Proof.
  revert t. induction ls1 as [|lbl ls1 IH]; intros t E1 E2; cbn in *; [by simplify_eq|].
  destruct (step lbl t); [|done]. by apply IH.
Qed.

Lemma threaded_steps_inv ls s o :
  threaded_inv s -> threaded_steps l cfg app ls s = Some o ->
  exists s', o = Ret s' /\ threaded_inv s' /\ threads_run s s'.
Proof.
  revert s. induction ls as [|lbl ls IH]; intros s Hi Hs; cbn [threaded_steps] in Hs.
  { simplify_eq. exists s. split_and!; [done..|]. by exists []. }
  destruct (threaded_step l cfg app lbl s) as [o1|] eqn:E; [|done].
  destruct (threaded_step_inv lbl s o1 Hi E) as (s1 & -> & Hi1 & [ls1 Hr1]). cbn [mbind option_bind] in Hs.
  destruct (IH s1 Hi1 Hs) as (s' & -> & Hi' & [ls2 Hr2]). exists s'. split_and!; [done..|].
  exists (ls1 ++ ls2). by eapply steps_trans.
Qed.

(** A worker that is left to run serves its stream to the end. *)
Lemma thread_finishes s i fd :
  threaded_inv s -> s.(threads).(workers) !! i = Some (fd, Serving) ->
  exists m s', threaded_steps l cfg app (replicate m (TServe i)) s = Some (Ret s') /\
    s'.(threads).(workers) !! i = Some (fd, Returned) /\ s'.(tcrew).(tasks) !! fd = None.
Proof.
  intros Hi Hw. pose proof (worker_in_crew s i fd Hi Hw) as Hin. destruct s as [t c]. cbn [threads] in Hw.
  apply (crew_finish_ind cfg app base (fun c => exists m s',
    threaded_steps l cfg app (replicate m (TServe i)) (mkThreaded t c) = Some (Ret s') /\
    s'.(threads).(workers) !! i = Some (fd, Returned) /\ s'.(tcrew).(tasks) !! fd = None)
    (threads_app app t) fd Hfit (threads_app_site t)); [| |by apply tv_crew in Hi|done].
  - intros c0 r _ Hin0. exists 1. eexists. split_and!.
    + cbn [threaded_steps replicate threaded_step threads]. rewrite Hw.
      unfold worker_goes_on. cbn [tcrew threads]. rewrite Hin0. cbn [worker_step]. rewrite Hw. reflexivity.
    + destruct r; cbn; apply list_lookup_insert_eq; by eapply lookup_lt_Some.
    + apply lookup_delete_eq.
  - intros c0 c1 _ Hst _ _ (m & s' & Hm & Hs). exists (S m), s'. split; [|done].
    cbn [threaded_steps replicate threaded_step threads]. rewrite Hw.
    unfold worker_goes_on. cbn [tcrew threads]. rewrite Hst. unfold crew_step in Hst.
    destruct (tasks c0 !! fd) as [[]|]; done.
Qed.
End Inv.

Lemma threaded_start_inv {K H} `{KernelLaws K} `{SiteHandlers H} cfg (k : K) (app : App H) :
  threaded_inv app (opened k) (N.max cfg.(max_connections) 1) (Threaded_new cfg (traced k)).
Proof.
  split; cbn; [apply threads_new_inv| |by apply crew_start_inv].
  intros fd. split; [by intros [t ?]|by intros ?%not_elem_of_nil].
Qed.

Section Claim.
Context {K H : Type} `{KernelLaws K} `{SiteHandlers H}.

(** C13. End to end, for a thread per connection: whatever the order in which the
    accept loop and the workers use the semaphore and make their system calls,
    spurious wake-ups included, no thread panics, and the threads do nothing
    that is not a run of [ThreadPerConn]; the descriptors open are those the
    process had and those of the open streams; every client has been written a
    part of exactly the session of what was read from it, and all of it where
    [serve_connection] returns without an error; and a worker that is left to
    run serves its stream to the end and closes it, what its client sends being
    finite (the [budget] of the kernel). *)
Theorem threads_serve_sessions ls l cfg (k : K) (app : App H) o (Hfit : fits app)
    (Hs : threaded_steps l cfg app ls (Threaded_new cfg (traced k)) = Some o) :
  exists s, o = Ret s /\ (exists tls, steps tls (Threads_new cfg) = Some s.(threads)) /\
    (forall fd, fd ∈ opened s.(tcrew).(ck) <-> fd ∈ opened k \/ fd ∈ s.(threads).(t_streams)) /\
    (forall fd, fd ∈ s.(threads).(t_streams) -> fd ∉ opened k) /\
    crew_serves app s.(tcrew) /\
    (forall i fd, s.(threads).(workers) !! i = Some (fd, Serving) -> exists m s',
      threaded_steps l cfg app (replicate m (TServe i)) s = Some (Ret s') /\
      s'.(threads).(workers) !! i = Some (fd, Returned) /\ s'.(tcrew).(tasks) !! fd = None).
Proof.
  pose proof (fits_all app Hfit) as Hall.
  assert (threaded_inv app (opened k) (N.max cfg.(max_connections) 1) (Threaded_new cfg (traced k))) as H0i
    by apply threaded_start_inv.
  destruct (threaded_steps_inv l cfg app (opened k) _ Hall ls _ o H0i Hs) as (s & -> & Hi & Hrun).
  pose proof Hi as [_ Hst Hc]. exists s. split_and!; [done|exact Hrun|..|by eapply crew_inv_serves|].
  - intros fd. by rewrite (cv_opened _ _ _ Hc), elem_of_union, elem_of_dom, Hst.
  - intros fd Hin%Hst%elem_of_dom. pose proof (cv_base _ _ _ Hc). set_solver.
  - intros i fd. by apply (thread_finishes l cfg app (opened k) (N.max cfg.(max_connections) 1)).
Qed.
End Claim.

(** A cap of one: descriptor 4 sends a request and ends its connection; 5 is
    accepted, and waits for its permit. *)
Definition sim_threads : Sim :=
  mkSim 0 0 {[3%Z]} 2 [(4%Z, get_root); (4%Z, [])] [] ∅ [] ∅.

Definition thread_turns : list TLabel :=
  [TAccept; Share AcquireLock; Share TestPermits; Share Spawn; TServe 0; TServe 0; TAccept;
   TServe 0; Share AcquireLock; TServe 0; Share TestPermits; TServe 0].

Definition waits_and_served (s : Threaded (Traced Sim)) : bool :=
  bool_decide (sent <$> s.(tcrew).(ck).(current) !! 4%Z = Some (answer sample_app sample_request)) &&
  match s.(tcrew).(tasks) !! 4%Z with Some (Finished (Ok _)) => true | _ => false end &&
  match s.(threads).(apc) with Waiting fd => bool_decide (fd = 5%Z) | _ => false end.

Lemma threads_serve_sessions_witness :
  exists s, threaded_steps 3 one_thread sample_app thread_turns (Threaded_new one_thread (traced sim_threads)) = Some (Ret s) /\
    waits_and_served s = true /\ crew_serves sample_app s.(tcrew) /\
    exists m s', threaded_steps 3 one_thread sample_app (replicate m (TServe 0)) s = Some (Ret s') /\
      s'.(threads).(workers) !! 0 = Some (4%Z, Returned).
Proof.
  pose proof (threads_serve_sessions thread_turns 3 one_thread sim_threads sample_app) as Hrun.
  assert (match threaded_steps 3 one_thread sample_app thread_turns (Threaded_new one_thread (traced sim_threads)) with
    | Some (Ret s) => waits_and_served s && bool_decide (s.(threads).(workers) !! 0 = Some (4%Z, Serving))
    | _ => false end = true) as Hok by (vm_compute; reflexivity).
  destruct (threaded_steps _ _ _ _ _) as [o|]; [|discriminate Hok].
  destruct (Hrun o sample_app_fits eq_refl) as (s & -> & _ & _ & _ & Hserves & Hfin).
  apply andb_prop in Hok as [Hok Hw]. apply bool_decide_eq_true in Hw.
  exists s. split_and!; [reflexivity|exact Hok|exact Hserves|].
  destruct (Hfin 0 4%Z Hw) as (m & s' & Hm & Hs' & _). by exists m, s'.
Defined.
