(* ===== verification/ThreadsLive.v ===== *)
(** * Every client of a thread per connection is served in the end

    Under a schedule that is fair to the accept loop and the workers, with
    finitely many spurious wake-ups, a connection that was accepted gets its
    permit and its thread, and that thread returns. *)

From S2P Require Import Prelude RustStr Http Response Request RequestSpec RequestRefine Router Asset App Conn ConnSpec ConnProps Site Syscall Socket ConnTable EventIo EventIoProps Session Trace Blocking BlockingProps Serving ServingProps EpollTrace Sim Fair ServingLive ThreadPerConn ThreadPerConnProps ThreadsServing.

(** ** What the workers have to do *)

Lemma first_of_count (f : Z * WPc -> bool) ws : 0 < count f ws -> exists w, ws !! first_at f ws = Some w /\ f w = true.
Proof.
  unfold count. intros Hpos. destruct (List.filter f ws) as [|w l] eqn:E; [cbn in Hpos; lia|].
  assert (w ∈ List.filter f ws) as Hin by (rewrite E; by left).
  apply list_elem_of_In, filter_In in Hin as [Hin Hf]. apply list_elem_of_In in Hin. by eapply first_at_in.
Qed.

(** What the workers have still to do with the semaphore. *)
Definition stage_left (w : Z * WPc) : nat :=
  match w.2 with Serving => 4 | Returned => 3 | Releasing => 2 | Notified => 1 end.

Definition stages (ws : list (Z * WPc)) : nat := sum_list_with stage_left ws.

Lemma stages_insert ws i w w' : ws !! i = Some w -> stages (<[i := w']> ws) + stage_left w = stages ws + stage_left w'.
Proof.
  intros Hi. assert (i < length ws) as Hlt by by eapply lookup_lt_Some.
  rewrite insert_take_drop by done. rewrite <-(take_drop_middle ws i w Hi) at 3.
  unfold stages. rewrite !sum_list_with_app. cbn. lia.
Qed.

Lemma stages_delete ws i w : ws !! i = Some w -> stages (delete i ws) + stage_left w = stages ws.
Proof.
  intros Hi. rewrite delete_take_drop. rewrite <-(take_drop_middle ws i w Hi) at 3.
  unfold stages. rewrite !sum_list_with_app. cbn. lia.
Qed.

Lemma stages_snoc ws w : stages (ws ++ [w]) = stages ws + stage_left w.
Proof. unfold stages. rewrite sum_list_with_app. cbn. lia. Qed.

(** ** What is in the way of a stream *)

Section Way.
Context (fd : Z).

Definition ours (w : Z * WPc) : bool := serves w && (w.1 =? fd)%Z.

(** The accept loop still has the stream. *)
Definition with_acceptor (t : Threads) : bool := bool_decide (fd ∈ owned t.(apc)).

(** It needs a permit and none is free. *)
Definition blocked (t : Threads) : bool :=
  match t.(apc) with Spawning _ => false | _ => (t.(permits) =? 0)%N end.

Definition acceptor_rank (t : Threads) : nat :=
  match t.(apc) with
  | Locking _ => 4
  | Testing _ => 3
  | Waiting _ => if blocked t then 2 else 4
  | Spawning _ => 1
  | Accepting | Crashed => 0
  end.

Definition way (t : Threads) : nat * (nat * nat) :=
  if with_acceptor t then (if blocked t then 2 else 1, (stages t.(workers), acceptor_rank t))
  else (0, (first_at ours t.(workers), 0)).

(** The stream whose serving is waited for. *)
Definition target (t : Threads) : option Z :=
  if with_acceptor t then
    if blocked t then
      match t.(workers) !! first_at holds t.(workers) with Some (fd', Serving) => Some fd' | _ => None end
    else None
  else Some fd.

(** The thread whose next step is waited for. *)
Definition helper (t : Threads) : TLabel :=
  if with_acceptor t then
    match t.(apc), t.(lock) with
    | Spawning _, _ => Share Spawn
    | Testing _, _ => Share TestPermits
    | p, None =>
      if blocked t then
        let i := first_at holds t.(workers) in
        match t.(workers) !! i with Some (_, Returned) => Share (ReleaseLock i) | _ => TServe i end
      else match p with Locking _ => Share AcquireLock | _ => Share Wake end
    | _, Some _ =>
      let i := first_at locked t.(workers) in
      match t.(workers) !! i with Some (_, Releasing) => Share (Release i) | _ => Share (Unlock i) end
    end
  else TServe (first_at ours t.(workers)).

(** The labels of the threads' own steps. *)
Definition thread_label (lbl : TLabel) : Prop :=
  match lbl with
  | TServe _ | Share (AcquireLock | TestPermits | Wake | Spawn | ReleaseLock _ | Release _ | Unlock _) => True
  | _ => False
  end.

Definition no_spurious (lbl : TLabel) : Prop := lbl <> Share SpuriousWake.

Lemma helper_label t : thread_label (helper t).
Proof. unfold helper. repeat case_match; done. Qed.

(** ** Where the stream is *)

Lemma serving_unique ws i j :
  NoDup (serving ws) -> ws !! i = Some (fd, Serving) -> ws !! j = Some (fd, Serving) -> i = j.
Proof.
  assert (forall ws i, ws !! i = Some (fd, Serving) -> fd ∈ serving ws) as Hin.
  { intros ws0 i0 Hi. unfold serving. apply list_elem_of_fmap. exists (fd, Serving). split; [done|].
    apply list_elem_of_In, filter_In. split; [|done]. apply list_elem_of_In, list_elem_of_lookup. by exists i0. }
  revert i j. induction ws as [|w ws IH]; intros [|i] [|j] Hnd Hi Hj; try done; cbn in Hi, Hj.
  1, 2: exfalso; simplify_eq; unfold serving in Hnd; cbn in Hnd; apply NoDup_cons in Hnd as [Hni _];
    apply Hni; by eapply Hin.
  f_equal. apply IH; [|done..]. unfold serving in *. cbn in Hnd. destruct (serves w); [|done].
  by apply NoDup_cons in Hnd as [_ Hnd].
Qed.

Lemma ours_first ws i : NoDup (serving ws) -> ws !! i = Some (fd, Serving) -> first_at ours ws = i.
Proof.
  intros Hnd Hi. eapply first_at_eq; [exact Hi|unfold ours; cbn; by rewrite Z.eqb_refl|].
  intros j [fd' p] Hlt Hj. destruct (ours (fd', p)) eqn:Ho; [|done]. exfalso.
  apply andb_prop in Ho as [Hs He%Z.eqb_eq]. cbn in He. subst fd'. destruct p; try done.
  pose proof (serving_unique ws i j Hnd Hi Hj). lia.
Qed.

Context (cap : N) (Hcap : (0 < cap)%N).

Lemma inv_serving t : threads_inv cap t -> NoDup (serving t.(workers)).
Proof. intros Hi. pose proof (ti_nodup _ _ Hi) as Hnd. rewrite (ti_streams _ _ Hi) in Hnd. by apply NoDup_app in Hnd as (_ & _ & Hnd). Qed.

Lemma with_worker t :
  threads_inv cap t -> fd ∈ t.(t_streams) -> with_acceptor t = false ->
  exists i, t.(workers) !! i = Some (fd, Serving) /\ first_at ours t.(workers) = i.
Proof.
  intros Hi Hin Hw. rewrite (ti_streams _ _ Hi), elem_of_app in Hin. apply bool_decide_eq_false in Hw.
  destruct Hin as [|Hin]; [done|]. unfold serving in Hin.
  apply list_elem_of_fmap in Hin as ([fd' p] & Hfd & Hin). apply list_elem_of_In, filter_In in Hin as [Hin Hs].
  cbn in Hfd. subst fd'. destruct p; try done. apply list_elem_of_In, list_elem_of_lookup in Hin as [i Hi'].
  exists i. split; [exact Hi'|]. by apply ours_first; [apply inv_serving|].
Qed.

(** The worker with the lock can go on. *)
Lemma locked_enabled t o :
  threads_inv cap t -> lock t = Some o -> (forall x, apc t <> Testing x) ->
  let i := first_at locked t.(workers) in
  match t.(workers) !! i with
  | Some (_, Releasing) => is_Some (step (Release i) t)
  | _ => is_Some (step (Unlock i) t)
  end.
Proof.
  intros Hi Ho Hn. pose proof (ti_locked _ _ Hi) as Hl. pose proof (ti_lock _ _ Hi) as Hla.
  destruct o; [destruct (proj1 Hla Ho) as [x Hx]; by apply Hn in Hx|]. rewrite Ho in Hl. cbn.
  destruct (first_of_count locked t.(workers)) as ([fd' p] & Hf & Hlk); [lia|]. rewrite Hf.
  destruct p; try done; by eexists.
Qed.

(** Where no permit is free and the lock is, a worker that has one is serving
    or about to take the lock. *)
Lemma holder_enabled t :
  threads_inv cap t -> blocked t = true -> lock t = None -> apc t <> Crashed ->
  let i := first_at holds t.(workers) in
  exists fd', t.(workers) !! i = Some (fd', Serving) \/
    t.(workers) !! i = Some (fd', Returned) /\ is_Some (step (ReleaseLock i) t).
Proof.
  intros Hi Hb Hlk Hc. pose proof (ti_permits _ _ Hi) as Hp. pose proof (ti_locked _ _ Hi) as Hl.
  unfold blocked in Hb. rewrite Hlk in Hl. cbn.
  destruct (first_of_count holds t.(workers)) as ([fd' p] & Hf & Hh); [revert Hp Hb Hc; destruct (apc t); try done; intros ? ?%N.eqb_eq ?; lia|].
  exists fd'. destruct p; [by left| | |done].
  - right. rewrite Hf. split; [done|]. unfold is_free. rewrite bool_decide_true by done. by eexists.
  - exfalso. apply list_elem_of_lookup_2, list_elem_of_In in Hf.
    assert ((fd', Releasing) ∈ List.filter locked (workers t)) as Hx by by apply list_elem_of_In, filter_In.
    unfold count in Hl. destruct (List.filter locked (workers t)); [by apply not_elem_of_nil in Hx|done].
Qed.

(** A step of the helper is possible, or it serves the target. *)
Lemma helper_enabled t :
  threads_inv cap t -> fd ∈ t.(t_streams) ->
  match helper t with
  | TServe i => exists fd', t.(workers) !! i = Some (fd', Serving) /\ target t = Some fd'
  | Share lbl => is_shared lbl = true /\ is_Some (step lbl t)
  | _ => False
  end.
Proof.
  intros Hi Hin. unfold helper, target. destruct (with_acceptor t) eqn:Hw.
  2: { destruct (with_worker t Hi Hin Hw) as (i & Hi' & Hf). exists fd. by rewrite Hf. }
  pose proof (locked_enabled t) as Hlocked. pose proof (holder_enabled t Hi) as Hholds.
  pose proof (ti_waiting _ _ Hi) as Hwait.
  destruct (apc t) as [|x|x|x|x|] eqn:Hpc; try (unfold with_acceptor in Hw; rewrite Hpc in Hw; done).
  2: { split; [done|]. cbn. rewrite Hpc. case_match; by eexists. }
  3: { split; [done|]. cbn. rewrite Hpc. by eexists. }
  all: destruct (lock t) as [o|] eqn:Hlk;
    [specialize (Hlocked o Hi eq_refl); specialize (Hlocked ltac:(done)); cbv zeta in Hlocked;
     destruct (workers t !! first_at locked (workers t)) as [[? []]|]; (split; [done|exact Hlocked])|].
  all: destruct (blocked t) eqn:Hb;
    [destruct (Hholds eq_refl eq_refl ltac:(done)) as (fd' & [Hs|[Hs Hen]]); rewrite Hs; [by exists fd'|done]|].
  all: split; [done|]; cbn; rewrite Hpc; unfold is_free; rewrite bool_decide_true by done; try by eexists.
  unfold blocked in Hb. rewrite Hpc in Hb. apply N.eqb_neq in Hb. rewrite (proj2 Hwait ltac:(lia)). by eexists.
Qed.

(** ** No step is away from the goal *)

Lemma way_worker t :
  threads_inv cap t -> fd ∈ t.(t_streams) -> with_acceptor t = false ->
  exists i, t.(workers) !! i = Some (fd, Serving) /\
    way t = (0, (i, 0)) /\ target t = Some fd /\ helper t = TServe i.
Proof.
  intros Hi Hin Hw. destruct (with_worker t Hi Hin Hw) as (i & Hi' & Hf). exists i.
  unfold way, target, helper. by rewrite Hw, Hf.
Qed.

(** The workers after a step of the accept loop, and what it holds. *)
Lemma acceptor_step_workers lbl t t' :
  acceptor_step lbl t = Some t' ->
  (t'.(workers) = t.(workers) \/ exists w, t'.(workers) = t.(workers) ++ [w]) /\
  (forall x, x ∈ owned t'.(apc) -> x ∈ owned t.(apc) \/ x ∉ t.(t_streams)).
Proof.
  unfold acceptor_step. intros E. destruct lbl, (apc t) eqn:Hpc; try done;
    repeat case_match; simplify_eq; try (split; [by left|]); try (split; [by right; eexists|]);
    cbn; rewrite ?Hpc; intros y Hy; try (by left); try (by apply not_elem_of_nil in Hy).
  apply list_elem_of_singleton in Hy. subst. by right.
Qed.

Lemma worker_step_serving lbl t t' i :
  worker_step lbl t = Some t' -> t.(workers) !! i = Some (fd, Serving) -> fd ∈ t'.(t_streams) ->
  t'.(apc) = t.(apc) /\ exists i', i' <= i /\ t'.(workers) !! i' = Some (fd, Serving).
Proof.
  intros E Hi Hin.
  assert (forall j w, j <> i -> exists i', i' <= i /\ <[j := w]> (workers t) !! i' = Some (fd, Serving)) as Hother.
  { intros j w Hne. exists i. by rewrite list_lookup_insert_ne. }
  destruct lbl as [| | | | | | | |j r|j|j|j]; try done; cbn [worker_step] in E;
    destruct (workers t !! j) as [[fd' []]|] eqn:Hj; try done; repeat case_match; simplify_eq;
    (split; [first [done|by destruct r|by unfold notify_one; cbn; case_match]|]).
  - assert (j <> i) as Hne; [|by destruct r; apply Hother]. intros ->. rewrite Hi in Hj. simplify_eq.
    destruct r; cbn in Hin; apply list_elem_of_In, filter_In in Hin as [_ Hin]; by rewrite Z.eqb_refl in Hin.
  - apply Hother. intros ->. congruence.
  - unfold notify_one. cbn [set_permits apc]. case_match; apply Hother; intros ->; congruence.
  - cbn. assert (j <> i) as Hne by (intros ->; congruence). destruct (decide (i < j)).
    + exists i. by rewrite list_lookup_delete_lt.
    + exists (i - 1). split; [lia|]. rewrite list_lookup_delete_ge by lia. by replace (S (i - 1)) with i by lia.
Qed.

(** With a worker already, the stream stays there. *)
Lemma way_with_worker lbl t t' :
  threads_inv cap t -> threads_inv cap t' -> step lbl t = Some t' -> fd ∈ t.(t_streams) -> fd ∈ t'.(t_streams) ->
  with_acceptor t = false ->
  lex3 (way t') (way t) \/ way t' = way t /\ target t' = target t /\ helper t' = helper t.
Proof.
  intros Hi Hi' E Hin Hin' Hw. destruct (way_worker t Hi Hin Hw) as (i & Hserve & -> & -> & ->).
  assert (with_acceptor t' = false /\ exists i', i' <= i /\ workers t' !! i' = Some (fd, Serving)) as (Hw' & i' & Hle & Hs').
  { assert (fd ∉ owned (apc t)) as Ho by by apply bool_decide_eq_false in Hw.
    assert (acceptor_step lbl t = Some t' \/ worker_step lbl t = Some t') as [Ha|Ha]
      by (destruct lbl; auto).
    - apply acceptor_step_workers in Ha as [Hws Hown]. split; [|exists i; split; [done|]].
      + apply bool_decide_eq_false. intros Ho'. destruct (Hown _ Ho'); done.
      + destruct Hws as [-> |[w ->]]; [done|]. by apply lookup_app_l_Some.
    - destruct (worker_step_serving _ _ _ _ Ha Hserve Hin') as [Hpc Hex]. split; [|done].
      unfold with_acceptor. by rewrite Hpc. }
  destruct (way_worker t' Hi' Hin' Hw') as (i1 & Hserve' & -> & -> & ->).
  pose proof (serving_unique _ _ _ (inv_serving _ Hi') Hs' Hserve') as <-.
  destruct (decide (i' = i)) as [->|]; [by right|]. left. unfold lex3, lex2, lex. cbn. lia.
Qed.

(** In the hands of the accept loop, the accept loop and the workers get it
    there. *)
Lemma worker_step_stages lbl t t' :
  worker_step lbl t = Some t' ->
  t'.(apc) = t.(apc) /\ stages t'.(workers) < stages t.(workers) /\ (t.(permits) <= t'.(permits))%N.
Proof.
  intros E. destruct lbl as [| | | | | | | |j r|j|j|j]; try done; cbn [worker_step] in E;
    destruct (workers t !! j) as [[fd' []]|] eqn:Hj; try done; repeat case_match; simplify_eq; unfold stages.
  - pose proof (stages_insert _ j _ (fd', Returned) Hj) as Hs. unfold stages in Hs; cbn [stage_left snd] in Hs.
    destruct r; cbn; split_and!; done || lia.
  - pose proof (stages_insert _ j _ (fd', Releasing) Hj) as Hs. unfold stages in Hs; cbn [stage_left snd] in Hs.
    cbn; split_and!; done || lia.
  - pose proof (stages_insert _ j _ (fd', Notified) Hj) as Hs. unfold stages in Hs; cbn [stage_left snd] in Hs.
    unfold notify_one. cbn [set_permits apc]. destruct (apc t) eqn:Hpc; cbn; rewrite ?Hpc; split_and!; done || lia.
  - pose proof (stages_delete _ j _ Hj) as Hs. unfold stages in Hs; cbn [stage_left snd] in Hs. cbn; split_and!; done || lia.
Qed.

Lemma way_with_acceptor lbl t t' :
  threads_inv cap t -> step lbl t = Some t' -> lbl <> SpuriousWake -> fd ∈ t'.(t_streams) ->
  with_acceptor t = true -> lex3 (way t') (way t).
Proof.
  intros Hi E Hns Hin' Hw. pose proof (ti_waiting _ _ Hi) as Hwait.
  assert (acceptor_step lbl t = Some t' \/ worker_step lbl t = Some t') as [Ha|Ha] by (destruct lbl; auto).
  - assert (fd ∈ owned (apc t)) as Ho by by apply bool_decide_eq_true in Hw.
    unfold way. rewrite Hw. unfold acceptor_step in Ha. clear E.
    destruct lbl, (apc t) as [|x|x|x|x|] eqn:Hpc; try done; try by apply not_elem_of_nil in Ho.
    all: apply list_elem_of_singleton in Ho; subst x.
    all: unfold lex3, lex2, lex, with_acceptor, blocked, acceptor_rank, stages.
    + destruct (is_free t); simplify_eq. cbn. rewrite Hpc, bool_decide_true by by left. destruct (permits t =? 0)%N; cbn; lia.
    + destruct (permits t =? 0)%N eqn:Hz; simplify_eq; cbn; rewrite Hpc, bool_decide_true by by left; cbn.
      * unfold blocked. cbn. rewrite Hz. lia.
      * cbn. lia.
    + destruct (woken t) eqn:Hwk, (is_free t); try done. cbn in Ha. simplify_eq. cbn.
      rewrite Hpc, bool_decide_true by by left. unfold blocked. cbn. rewrite Hpc.
      rewrite (proj2 (N.eqb_neq _ _)) by (pose proof (proj1 Hwait eq_refl); lia). cbn. lia.
    + simplify_eq. cbn. rewrite Hpc, bool_decide_false by by intros ?%not_elem_of_nil. cbn. lia.
    + simplify_eq. cbn in Hin'. apply list_elem_of_In, filter_In in Hin' as [_ Hne]. by rewrite Z.eqb_refl in Hne.
  - destruct (worker_step_stages _ _ _ Ha) as (Hpc & Hst & Hpe). unfold way. rewrite Hw.
    assert (with_acceptor t' = true) as -> by (unfold with_acceptor; by rewrite Hpc).
    unfold lex3, lex2, lex, blocked. cbn. rewrite Hpc.
    destruct (apc t), (N.eqb_spec (permits t) 0), (N.eqb_spec (permits t') 0); cbn; lia.
Qed.
End Way.

(** ** The threads and their streams *)

Section Live.
Context {K H : Type} `{KernelLaws K, !FiniteClients K} `{SiteHandlers H}.
Context (l : Z) (cfg : ServerConfig) (app : App H) (base : gset Z) (fd : Z) (Hfit : all_fit app).

Let cap : N := N.max cfg.(max_connections) 1.
Notation TS := (Threaded (Traced K)).

Definition served_to_end (s : TS) : Prop := exists r, s.(tcrew).(tasks) !! fd = Some (Finished r).
Definition under_way (s : TS) : Prop := exists t, s.(tcrew).(tasks) !! fd = Some t /\ finished t = false.
Definition lost_in_crash (s : TS) : Prop := s.(threads).(apc) = Crashed /\ fd ∉ s.(threads).(t_streams).

Definition remaining (s : TS) : nat * (nat * nat) * (nat * nat) :=
  (way fd s.(threads), crew_left (target fd s.(threads)) s.(tcrew)).

Definition lower : nat * (nat * nat) * (nat * nat) -> nat * (nat * nat) * (nat * nat) -> Prop := lex lex3 lex2.

Lemma streams_tasks s f : threaded_inv app base cap s -> is_Some (s.(tcrew).(tasks) !! f) -> f ∈ s.(threads).(t_streams).
Proof. intros Hi. by apply (tv_streams _ _ _ _ Hi). Qed.

Lemma target_in_crew s f :
  threaded_inv app base cap s -> under_way s -> target fd s.(threads) = Some f -> is_Some (s.(tcrew).(tasks) !! f).
Proof.
  intros Hi (t & Ht & _) E. unfold target in E. destruct (with_acceptor fd (threads s)); [|simplify_eq; by exists t].
  destruct (blocked (threads s)); [|done].
  destruct (workers (threads s) !! first_at holds (workers (threads s))) as [[f' []]|] eqn:Hw; simplify_eq.
  by eapply worker_in_crew.
Qed.

(** A step on what the threads share that leaves the serving of the target. *)
Lemma moves_by s s' lbl :
  threaded_inv app base cap s -> threaded_inv app base cap s' -> under_way s ->
  step lbl s.(threads) = Some s'.(threads) -> lbl <> SpuriousWake -> fd ∈ s'.(threads).(t_streams) ->
  (forall f, is_Some (s.(tcrew).(tasks) !! f) -> with_acceptor fd s.(threads) = false -> target fd s.(threads) = Some f ->
    unmoved f s.(tcrew) s'.(tcrew)) ->
  lower (remaining s') (remaining s) \/
  remaining s' = remaining s /\ with_acceptor fd s.(threads) = false /\
    helper fd s'.(threads) = helper fd s.(threads).
Proof.
  intros Hi Hi' Hun E Hns Hin' Hf. pose proof Hun as (t & Ht & _).
  assert (fd ∈ s.(threads).(t_streams)) as Hin by (eapply streams_tasks; [done|by eexists]).
  assert (0 < cap)%N as Hcap by (unfold cap; lia).
  pose proof (tv_threads _ _ _ _ Hi) as Hti. pose proof (tv_threads _ _ _ _ Hi') as Hti'.
  destruct (with_acceptor fd s.(threads)) eqn:Hw.
  { left. left. exact (way_with_acceptor fd cap Hcap lbl _ _ Hti E Hns Hin' Hw). }
  destruct (way_with_worker fd cap Hcap lbl _ _ Hti Hti' E Hin Hin' Hw) as [Hlt|(Hway & Htg & Hh)]; [by left; left|].
  unfold remaining. rewrite Hway, Htg.
  destruct (target fd s.(threads)) as [f|] eqn:Hf'; [|by right].
  destruct (unmoved_left f _ _ (Hf f (target_in_crew s f Hi Hun Hf') eq_refl eq_refl)) as [Hlt| ->]; [left; right; by split|by right].
Qed.

Definition ended (s : TS) : Prop := served_to_end s \/ lost_in_crash s.

(** What a step comes to. *)
Definition goes_on (lbl : TLabel) (s s' : TS) : Prop :=
  ended s' \/ under_way s' /\ (lower (remaining s') (remaining s) \/
    remaining s' = remaining s /\ helper fd s.(threads) <> lbl /\
    forall h, helper fd s.(threads) = h -> helper fd s'.(threads) = h).

Lemma helper_with_worker t : with_acceptor fd t = false -> exists i, helper fd t = TServe i.
Proof. intros Hw. unfold helper. rewrite Hw. by eexists. Qed.

(** The same, of a step of [ThreadPerConn] that is not the helper's. *)
Lemma shared_goes_on s s' lbl tlbl :
  threaded_inv app base cap s -> threaded_inv app base cap s' -> under_way s -> under_way s' ->
  step lbl s.(threads) = Some s'.(threads) -> lbl <> SpuriousWake ->
  (forall f, is_Some (s.(tcrew).(tasks) !! f) -> with_acceptor fd s.(threads) = false -> target fd s.(threads) = Some f ->
    unmoved f s.(tcrew) s'.(tcrew)) ->
  (with_acceptor fd s.(threads) = false -> helper fd s.(threads) <> tlbl) -> goes_on tlbl s s'.
Proof.
  intros Hi Hi' Hun Hun' E Hns Hf Hh. right. split; [done|].
  assert (fd ∈ s'.(threads).(t_streams)) as Hin'.
  { destruct Hun' as (t & Ht & _). eapply streams_tasks; [done|by eexists]. }
  destruct (moves_by s s' lbl Hi Hi' Hun E Hns Hin' Hf) as [|(Heq & Hw & Hhe)]; [by left|right].
  split_and!; [done|by apply Hh|by intros h <-].
Qed.

Lemma under_way_frame s s' : under_way s -> s'.(tcrew).(tasks) !! fd = s.(tcrew).(tasks) !! fd -> under_way s'.
Proof. intros (t & Ht & Hnf) E. exists t. by rewrite E. Qed.

Lemma accept_goes_on s s' :
  threaded_inv app base cap s -> under_way s -> accept_step l s = Some s' -> goes_on TAccept s s'.
Proof.
  intros Hi Hun E. destruct (accept_step_inv l app base cap s s' Hi E) as [Hi' _].
  unfold accept_step in E. destruct (apc (threads s)); try done.
  destruct (crew_accept l (tcrew s)) as [r c] eqn:Ea.
  destruct (acceptor_step _ (threads s)) as [t|] eqn:Et; [|done]. cbn in E. simplify_eq.
  assert (forall f, is_Some (tasks (tcrew s) !! f) -> unmoved f (tcrew s) c) as Hframe
    by (intros f; apply (accept_unmoved app base l _ r c f (tv_crew _ _ _ _ Hi) Ea)).
  apply (shared_goes_on _ _ (match r with Ok fd => AcceptOk fd | Err _ => AcceptErr end)); [done|done|done|..].
  - eapply under_way_frame; [done|]. apply Hframe. destruct Hun as (x & Hx & _). by exists x.
  - destruct r; exact Et.
  - by destruct r.
  - intros f Hf _ _. by apply Hframe.
  - intros (i & ->)%helper_with_worker. done.
Qed.

Lemma panic_goes_on s s' :
  threaded_inv app base cap s -> under_way s -> panic_step s = Some s' -> goes_on TSpawnPanics s s'.
Proof.
  intros Hi Hun E. destruct (panic_step_inv app base cap s s' Hi E) as [Hi' _].
  unfold panic_step in E. destruct (apc (threads s)) as [| | | |x|] eqn:Hpc; try done.
  destruct (acceptor_step SpawnPanics (threads s)) as [t|] eqn:Et; [|done]. cbn in E. simplify_eq.
  destruct (decide (x = fd)) as [->|Hne].
  - left. right. split; cbn [threads].
    + unfold acceptor_step in Et. rewrite Hpc in Et. by simplify_eq.
    + intros Hin%(tv_streams _ _ _ _ Hi'). cbn in Hin. rewrite lookup_delete_eq in Hin. by destruct Hin.
  - apply (shared_goes_on _ _ SpawnPanics); [done|done|done|..].
    + eapply under_way_frame; [done|]. by apply close_unmoved.
    + exact Et.
    + done.
    + intros f _ Hw Hf. apply close_unmoved. unfold target in Hf. rewrite Hw in Hf. congruence.
    + intros (i & ->)%helper_with_worker. done.
Qed.

Lemma shared_step_goes_on s s' lbl :
  threaded_inv app base cap s -> threaded_inv app base cap s' -> under_way s -> lbl <> SpuriousWake ->
  threaded_step l cfg app (Share lbl) s = Some (Ret s') -> goes_on (Share lbl) s s'.
Proof.
  intros Hi Hi' Hun Hns E. cbn [threaded_step] in E. destruct (is_shared lbl); [|done].
  destruct (step lbl (threads s)) as [t|] eqn:Et; [|done]. cbn in E. simplify_eq.
  apply (shared_goes_on _ _ lbl); [done|done|done|by eapply under_way_frame|exact Et|done|done|].
  intros (i & ->)%helper_with_worker. done.
Qed.

(** A system call of a worker. *)
Lemma served_goes_on s i fd' t' c :
  let s' := mkThreaded s.(threads) c in
  under_way s -> c.(tasks) !! fd' = Some t' -> lex2 (crew_left (Some fd') c) (crew_left (Some fd') s.(tcrew)) ->
  (forall f, f <> fd' -> unmoved f s.(tcrew) c) ->
  (helper fd s.(threads) = TServe i -> target fd s.(threads) = Some fd') -> goes_on (TServe i) s s'.
Proof.
  intros s' Hun Ht' Hlow Hle Hh.
  assert (served_to_end s' \/ under_way s') as [|Hun']; [|by left; left|].
  { destruct (decide (fd' = fd)) as [He|Hne].
    - rewrite He in Ht'. destruct t' as [| |a act|r]; [right; by eexists..|left; by exists r].
    - right. eapply under_way_frame; [done|]. by apply Hle. }
  right. split; [done|]. unfold remaining. cbn [threads tcrew s'].
  destruct (target fd (threads s)) as [f|] eqn:Hf; [|right; split_and!; [done|naive_solver|done]].
  destruct (decide (f = fd')) as [->|Hne]; [left; right; by split|].
  destruct (unmoved_left f _ _ (Hle f Hne)) as [Hlt| ->]; [left; right; by split|].
  right. split_and!; [done|naive_solver|done].
Qed.

(** The steps of a worker at work. *)
Lemma serve_goes_on s s' i fd' :
  threaded_inv app base cap s -> threaded_inv app base cap s' -> under_way s ->
  s.(threads).(workers) !! i = Some (fd', Serving) -> worker_goes_on cfg app i fd' s = Some (Ret s') ->
  goes_on (TServe i) s s'.
Proof.
  intros Hi Hi' Hun Hw E. pose proof Hun as (t0 & Ht0 & Hnf0). unfold worker_goes_on in E.
  destruct (worker_in_crew app base cap s i fd' Hi Hw) as [t Ht]. rewrite Ht in E.
  destruct (finished t) eqn:Hnf.
  - destruct t as [| | |r]; try done. cbn [worker_step] in E. rewrite Hw in E. cbn in E. simplify_eq.
    assert (fd <> fd') as Hne by congruence.
    apply (shared_goes_on _ _ (Served i r)); [done|done|done|..].
    + eapply under_way_frame; [done|]. by apply close_unmoved.
    + cbn. by rewrite Hw.
    + done.
    + intros f _ Hwa Hf. apply close_unmoved. unfold target in Hf. rewrite Hwa in Hf. congruence.
    + intros Hwa Hh. pose proof (helper_enabled fd cap ltac:(unfold cap; lia) _ (tv_threads _ _ _ _ Hi)) as Hen.
      rewrite Hh in Hen. destruct Hen as (f & Hf & Htg); [by eapply streams_tasks|].
      unfold target in Htg. rewrite Hwa in Htg. congruence.
  - pose proof Hi as [Hti _ Hc].
    destruct (crew_step_left cfg app base (threads_app app (threads s)) fd' t _ Hfit (threads_app_site _ _) Hc Ht Hnf)
      as (t' & c & Hcr & _ & Ht' & Hlow & Hle).
    assert (s' = mkThreaded (threads s) c) as -> by (rewrite Hcr in E; destruct t; try done; by simplify_eq/=).
    apply (served_goes_on s i fd' t' c); [done..|]. intros Hh.
    pose proof (helper_enabled fd cap ltac:(unfold cap; lia) _ Hti) as Hen.
    rewrite Hh in Hen. destruct Hen as (f & Hf & Htg); [eapply streams_tasks; [done|by eexists]|]. congruence.
Qed.

Lemma threaded_moves lbl s s' :
  no_spurious lbl -> threaded_inv app base cap s -> under_way s ->
  threaded_step l cfg app lbl s = Some (Ret s') -> threaded_inv app base cap s' -> goes_on lbl s s'.
Proof.
  intros Hns Hi Hun E Hi'. destruct lbl as [| |lbl|i]; cbn [threaded_step] in E.
  - destruct (accept_step l s) eqn:Ea; [|done]. simplify_eq/=. by apply accept_goes_on.
  - destruct (panic_step s) eqn:Ep; [|done]. simplify_eq/=. by apply panic_goes_on.
  - apply shared_step_goes_on; [done..| |done]. intros ->. by apply Hns.
  - destruct (workers (threads s) !! i) as [[fd' []]|] eqn:Hw; try done. by eapply serve_goes_on.
Qed.

(** A stream is on its way to the end of its serving. *)
Lemma threaded_progress :
  progress (threaded_step l cfg app) lower remaining (threaded_inv app base cap) under_way ended
    thread_label no_spurious (fun s h => helper fd s.(threads) = h).
Proof.
  assert (0 < cap)%N as Hcap by (unfold cap; lia). split.
  - apply lex_wf; [apply lex3_wf|apply lex2_wf].
  - intros lbl s o Hi E. destruct (threaded_step_inv l cfg app base cap Hfit lbl s o Hi E) as (s' & -> & Hi' & _).
    by exists s'.
  - intros s Hi _. exists (helper fd s.(threads)). split; [apply helper_label|done].
  - intros s h Hi Hun <-. pose proof (helper_enabled fd cap Hcap _ (tv_threads _ _ _ _ Hi)) as Hen.
    destruct Hun as (t & Ht & _). specialize (Hen (streams_tasks s fd Hi (mk_is_Some _ _ Ht))).
    destruct (helper fd (threads s)) as [| |lbl|i]; try done; cbn [threaded_step].
    + destruct Hen as [-> [t' ->]]. by eexists.
    + destruct Hen as (f & Hf & _). rewrite Hf.
      destruct (worker_goes_on_inv cfg app base cap Hfit s i f Hi Hf) as (s' & -> & _). by eexists.
  - intros lbl s s' Hi Hun E Hi'. assert (lbl = Share SpuriousWake \/ no_spurious lbl) as [->|Hns]
      by (destruct lbl as [| |[]|]; first [by left|by right]).
    + right. cbn [threaded_step is_shared step] in E. destruct (acceptor_step SpuriousWake (threads s)); [|done]. simplify_eq/=.
      by eapply under_way_frame.
    + destruct (threaded_moves lbl s s' Hns Hi Hun E Hi') as [|[? _]]; [by left|by right].
  - intros lbl s s' Hns Hi Hun E Hi'. by apply threaded_moves.
Qed.
End Live.

(** ** The claim *)

Section Claim.
Context {K H : Type} `{KernelLaws K, !FiniteClients K} `{SiteHandlers H}.

(** C16. Liveness, without starvation: under every schedule that gives the accept
    loop and the workers their turns again and again and has finitely many
    spurious wake-ups, for clients that each send finitely many pieces, every
    connection accepted gets its permit and its thread in the end, and
    [serve_connection] returns for it, however others come, hold their
    permits and contend for the lock; save one whose thread the system refuses,
    which ends the accept loop. *)
Theorem threads_serve_everyone sched l cfg (k : K) (app : App H) n s fd (Hfit : fits app)
    (Hfair : fair thread_label sched)
    (Hspurious : exists n0, forall m, n0 <= m -> no_spurious (sched m))
    (Hrun : run (threaded_step l cfg app) sched n (Threaded_new cfg (traced k)) = Ret s)
    (Hfd : fd ∈ s.(threads).(t_streams)) :
  exists m s', n <= m /\ run (threaded_step l cfg app) sched m (Threaded_new cfg (traced k)) = Ret s' /\
    ((exists r, s'.(tcrew).(tasks) !! fd = Some (Finished r)) \/
     s'.(threads).(apc) = Crashed /\ fd ∉ s'.(threads).(t_streams)).
Proof.
  pose proof (fits_all app Hfit) as Hall. set (cap := N.max cfg.(max_connections) 1).
  assert (threaded_inv app (opened k) cap (Threaded_new cfg (traced k))) as H0i by by apply threaded_start_inv.
  pose proof (threaded_progress l cfg app (opened k) fd Hall) as Hp.
  destruct (run_keeps _ _ _ _ _ _ _ _ _ sched n _ Hp H0i) as (s1 & E & Hi). rewrite Hrun in E. injection E as <-.
  apply (tv_streams _ _ _ _ Hi) in Hfd as [t Ht]. destruct (finished t) eqn:Hnf.
  { exists n, s. split_and!; [done..|]. left. destruct t; try done. by eexists. }
  destruct (leads_to _ _ _ _ _ _ _ _ _ sched _ n s Hp Hfair Hspurious H0i Hrun) as (m & s' & Hle & Hrun' & _ & Hend).
  { by exists t. }
  by exists m, s'.
Qed.
End Claim.

(** Every label again and again. *)
Definition thread_labels (v : nat) : TLabel :=
  let i := v / 9 in
  match v mod 9 with
  | 0 => TAccept
  | 1 => Share AcquireLock
  | 2 => Share TestPermits
  | 3 => Share Wake
  | 4 => Share Spawn
  | 5 => TServe i
  | 6 => Share (ReleaseLock i)
  | 7 => Share (Release i)
  | _ => Share (Unlock i)
  end.

Lemma thread_labels_all lbl : thread_label lbl -> exists v, thread_labels v = lbl.
Proof.
  assert (forall i j, j < 9 -> (j + i * 9) / 9 = i /\ (j + i * 9) mod 9 = j) as Hdiv.
  { intros i j Hj. rewrite Nat.div_add, Nat.div_small, Nat.Div0.mod_add, Nat.mod_small by lia. lia. }
  intros Hl. unfold thread_labels. destruct lbl as [| |[]|i]; try done.
  1: exists 1. 2: exists 2. 3: exists 3. 4: exists 4. 5: exists (6 + i * 9). 6: exists (7 + i * 9). 7: exists (8 + i * 9).
  8: exists (5 + i * 9).
  1-4: done.
  all: match goal with |- context [(?j + ?i * 9) mod 9] => destruct (Hdiv i j) as [-> ->]; [lia|done] end.
Qed.

(** A cap of one and two clients; the second is accepted while the first is
    served. *)
Lemma threads_serve_everyone_witness :
  let init := Threaded_new one_thread (traced sim_threads) in
  let sched := diagonal thread_labels in
  exists s, run (threaded_step 3 one_thread sample_app) sched 40 init = Ret s /\ 5%Z ∈ s.(threads).(t_streams) /\
    exists m s', 40 <= m /\ run (threaded_step 3 one_thread sample_app) sched m init = Ret s' /\
      ((exists r, s'.(tcrew).(tasks) !! 5%Z = Some (Finished r)) \/
       s'.(threads).(apc) = Crashed /\ 5%Z ∉ s'.(threads).(t_streams)).
Proof.
  intros init sched.
  assert (match run (threaded_step 3 one_thread sample_app) sched 40 init with
    | Ret s => bool_decide (5%Z ∈ s.(threads).(t_streams)) | _ => false end = true) as Hok by (vm_compute; reflexivity).
  destruct (run (threaded_step 3 one_thread sample_app) sched 40 init) as [s| |] eqn:Hrun; try discriminate Hok.
  apply bool_decide_eq_true in Hok. exists s. split; [reflexivity|]. split; [exact Hok|].
  refine (threads_serve_everyone sched 3 one_thread sim_threads sample_app 40 s 5%Z sample_app_fits _ _ Hrun Hok).
  - apply diagonal_fair, thread_labels_all.
  - exists 0. intros m _ E. unfold sched, diagonal, thread_labels in E. repeat case_match; discriminate E.
Defined.
