(* ===== verification/ThreadPool.v ===== *)
(** * The thread-pool model

    server/src/models/thread_pool.rs: the acceptor, the bounded queue, and the
    workers that share its receiver behind a mutex.  A step is one operation
    on what the threads share; [step] is executable.  A stream is named by its
    rank among the accepted ones, descriptors being reused. *)

From S2P Require Import Prelude RustStr Http Response Request App Syscall.

(** ** The state *)

(** The acceptor: in [accept], before [try_send], and returned. *)
Inductive APc := Accepting | Sending (stream : nat) | Stopped.

(** A worker: before [lock], in [recv] with the lock, in [serve_connection],
    and past the loop. *)
Inductive WPc := Locking | Receiving | Serving (stream : nat) | Exited.

#[global] Instance WPc_eq_dec : EqDecision WPc.
Proof. solve_decision. Defined.

Record Pool := mkPool {
  queue : list nat;
  rx_locked : bool;
  apc : APc;
  pool_workers : list WPc;
  p_metrics : Metrics;
  (* streams not yet closed *)
  open_streams : list nat;
  (* the number accepted, and which were queued, pulled, rejected, served *)
  accepted : nat;
  queued : list nat;
  pulled : list nat;
  rejected : list nat;
  served : list nat;
}.

Inductive Label :=
  | AcceptOk
  | AcceptErr
  | TrySend
  (* of the [i]th worker *)
  | Lock (i : nat)
  | RecvJob (i : nat)
  | RecvDisconnected (i : nat)
  | Served (i : nat) (r : result unit IoError).

Definition queue_capacity (cfg : ServerConfig) : N := N.max cfg.(max_connections) 1.

(** The workers that [serve] spawns. *)
Definition Pool_new (cfg : ServerConfig) : Pool :=
  mkPool [] false Accepting (replicate (N.to_nat (N.max cfg.(App.workers) 1)) Locking) Metrics_new
    [] 0 [] [] [] [].

(** The receiver is shared by the workers that have not exited and by [serve],
    whose [Arc] lives as long as it runs. *)
Definition has_receiver (s : Pool) : bool :=
  match s.(apc) with Stopped => false | _ => true end ||
  existsb (fun w => match w with Exited => false | _ => true end) s.(pool_workers).

(** The sender is [serve]'s. *)
Definition has_sender (s : Pool) : bool := match s.(apc) with Stopped => false | _ => true end.

Definition close (stream : nat) (l : list nat) : list nat :=
  List.filter (fun n => negb (n =? stream)) l.

(** ** The acceptor *)

Definition acceptor_step (cfg : ServerConfig) (l : Label) (s : Pool) : option Pool :=
  match l, s.(apc) with
  | AcceptOk, Accepting =>
    let stream := s.(accepted) in
    Some (mkPool s.(queue) s.(rx_locked) (Sending stream) s.(pool_workers)
      (inc_connections s.(p_metrics)) (stream :: s.(open_streams)) (S stream)
      s.(queued) s.(pulled) s.(rejected) s.(served))
  | AcceptErr, Accepting => Some s
  | TrySend, Sending stream =>
    if negb (has_receiver s) then
      Some (mkPool s.(queue) s.(rx_locked) Stopped s.(pool_workers) s.(p_metrics)
        (close stream s.(open_streams)) s.(accepted) s.(queued) s.(pulled) s.(rejected) s.(served))
    else if (queue_capacity cfg <=? N.of_nat (length s.(queue)))%N then
      Some (mkPool s.(queue) s.(rx_locked) Accepting s.(pool_workers) (inc_errors s.(p_metrics))
        (close stream s.(open_streams)) s.(accepted) s.(queued) s.(pulled)
        (s.(rejected) ++ [stream]) s.(served))
    else
      Some (mkPool (s.(queue) ++ [stream]) s.(rx_locked) Accepting s.(pool_workers) s.(p_metrics)
        s.(open_streams) s.(accepted) (s.(queued) ++ [stream]) s.(pulled) s.(rejected) s.(served))
  | _, _ => None
  end.

(** ** [worker_loop] *)

Definition set_worker (i : nat) (w : WPc) (locked : bool) (s : Pool) : Pool :=
  mkPool s.(queue) locked s.(apc) (<[i := w]> s.(pool_workers)) s.(p_metrics) s.(open_streams)
    s.(accepted) s.(queued) s.(pulled) s.(rejected) s.(served).

Definition worker_step (l : Label) (s : Pool) : option Pool :=
  match l with
  | Lock i =>
    match s.(pool_workers) !! i with
    | Some Locking => if s.(rx_locked) then None else Some (set_worker i Receiving true s)
    | _ => None
    end
  (* [recv] returns, and the lock is left *)
  | RecvJob i =>
    match s.(pool_workers) !! i, s.(queue) with
    | Some Receiving, stream :: rest =>
      Some (set_worker i (Serving stream) false
        (mkPool rest s.(rx_locked) s.(apc) s.(pool_workers) s.(p_metrics) s.(open_streams)
          s.(accepted) s.(queued) (s.(pulled) ++ [stream]) s.(rejected) s.(served)))
    | _, _ => None
    end
  | RecvDisconnected i =>
    match s.(pool_workers) !! i, s.(queue) with
    | Some Receiving, [] => if has_sender s then None else Some (set_worker i Exited false s)
    | _, _ => None
    end
  (* [serve_connection] closes the stream on every way out *)
  | Served i r =>
    match s.(pool_workers) !! i with
    | Some (Serving stream) =>
      Some (set_worker i Locking s.(rx_locked)
        (mkPool s.(queue) s.(rx_locked) s.(apc) s.(pool_workers)
          (match r with Ok _ => s.(p_metrics) | Err _ => inc_errors s.(p_metrics) end)
          (close stream s.(open_streams)) s.(accepted) s.(queued) s.(pulled) s.(rejected)
          (s.(served) ++ [stream])))
    | _ => None
    end
  | _ => None
  end.

Definition step (cfg : ServerConfig) (l : Label) (s : Pool) : option Pool :=
  match l with
  | AcceptOk | AcceptErr | TrySend => acceptor_step cfg l s
  | _ => worker_step l s
  end.

Fixpoint steps (cfg : ServerConfig) (ls : list Label) (s : Pool) : option Pool :=
  match ls with
  | [] => Some s
  | l :: ls => s ← step cfg l s; steps cfg ls s
  end.

(** ** The invariant *)

Definition owned (p : APc) : list nat := match p with Sending n => [n] | _ => [] end.

Definition in_service (ws : list WPc) : list nat :=
  omap (fun w => match w with Serving n => Some n | _ => None end) ws.

Definition receiving (ws : list WPc) : nat :=
  length (List.filter (fun w => match w with Receiving => true | _ => false end) ws).

#[global] Arguments receiving : simpl never.
#[global] Arguments in_service : simpl never.

Record pool_inv (cfg : ServerConfig) (s : Pool) : Prop := {
  pi_fifo : s.(queued) = s.(pulled) ++ s.(queue);
  pi_cap : (N.of_nat (length s.(queue)) <= queue_capacity cfg)%N;
  pi_pulled : s.(pulled) ≡ₚ s.(served) ++ in_service s.(pool_workers);
  pi_all : seq 0 s.(accepted) ≡ₚ s.(queued) ++ s.(rejected) ++ owned s.(apc);
  pi_open : s.(open_streams) ≡ₚ owned s.(apc) ++ s.(queue) ++ in_service s.(pool_workers);
  pi_running : s.(apc) <> Stopped;
  pi_alive : Exited ∉ s.(pool_workers);
  pi_workers : length s.(pool_workers) = N.to_nat (N.max cfg.(App.workers) 1);
  pi_lock : receiving s.(pool_workers) = if s.(rx_locked) then 1 else 0;
}.

Lemma in_service_insert ws i w w' :
  ws !! i = Some w ->
  in_service (<[i := w']> ws) ++ in_service [w] ≡ₚ in_service ws ++ in_service [w'].
Proof.
  intros Hi. assert (i < length ws) as Hlt by by eapply lookup_lt_Some.
  rewrite insert_take_drop by done. rewrite <-(take_drop_middle ws i w Hi) at 3.
  unfold in_service. rewrite !omap_app. cbn [omap list_omap].
  destruct w, w'; cbn; rewrite ?app_nil_r; solve_Permutation.
Qed.

Lemma receiving_insert ws i w w' :
  ws !! i = Some w ->
  receiving (<[i := w']> ws) + receiving [w] = receiving ws + receiving [w'].
Proof.
  intros Hi. assert (i < length ws) as Hlt by by eapply lookup_lt_Some.
  rewrite insert_take_drop by done. rewrite <-(take_drop_middle ws i w Hi) at 3.
  unfold receiving. rewrite !List.filter_app, !length_app. cbn [List.filter].
  destruct w, w'; simpl; lia.
Qed.
