(* ===== verification/ThreadPoolProps.v ===== *)
(** * Properties of the thread-pool model *)

From S2P Require Import Prelude RustStr Http Response Request App Syscall ThreadPool.

Section Props.
Context (cfg : ServerConfig).

Lemma pool_new_inv : pool_inv cfg (Pool_new cfg).
Proof using Type.
  assert (forall n, in_service (replicate n Locking) = [] /\ receiving (replicate n Locking) = 0) as Hr.
  { intros n. induction n as [|n [IH1 IH2]]; [done|]. by split. }
  split; cbn [Pool_new queued pulled queue served rejected accepted apc owned open_streams pool_workers
    rx_locked Datatypes.app seq length]; rewrite ?(proj1 (Hr _)), ?(proj2 (Hr _)); try done.
  - apply N.le_0_l.
  - intros ?%elem_of_replicate. naive_solver.
  - apply length_replicate.
Qed.

Lemma open_nodup s : pool_inv cfg s -> NoDup s.(open_streams).
Proof using Type.
  intros Hi. assert (NoDup (seq 0 (accepted s))) as Hn by apply NoDup_seq.
  rewrite (pi_all _ _ Hi), (pi_fifo _ _ Hi), (pi_pulled _ _ Hi) in Hn. rewrite (pi_open _ _ Hi).
  assert ((served s ++ rejected s) ++ owned (apc s) ++ queue s ++ in_service (pool_workers s) ≡ₚ
    ((served s ++ in_service (pool_workers s)) ++ queue s) ++ rejected s ++ owned (apc s)) as Hp
    by solve_Permutation.
  rewrite <-Hp in Hn. by apply NoDup_app in Hn as (_ & _ & Hn).
Qed.

Lemma close_perm stream s l :
  pool_inv cfg s -> s.(open_streams) ≡ₚ stream :: l -> close stream s.(open_streams) ≡ₚ l.
Proof using Type.
  intros Hi. apply filter_take_out; [|by apply open_nodup].
  intros y. rewrite negb_true_iff. apply Nat.eqb_neq.
Qed.

Lemma has_receiver_running s : s.(apc) <> Stopped -> has_receiver s = true.
Proof using Type. unfold has_receiver. by destruct (apc s). Qed.

Lemma pool_acceptor_inv l s s' :
  pool_inv cfg s -> acceptor_step cfg l s = Some s' -> pool_inv cfg s'.
Proof using Type.
  intros Hi Hst. pose proof (fun n => close_perm n s) as Hclose. pose proof Hi as [Hf Hc Hp Ha Ho Hr Hx Hw Hl].
  destruct l, (apc s) eqn:Hpc; try done; cbn [acceptor_step] in Hst; rewrite Hpc in Hst; try done;
    cbn [owned Datatypes.app] in *.
  - injection Hst as <-. split; try done; cbn [accepted queued rejected owned apc open_streams queue pool_workers].
    + rewrite seq_S, Ha. cbn. solve_Permutation.
    + rewrite Ho. solve_Permutation.
  - injection Hst as <-. done.
  - rewrite has_receiver_running in Hst by congruence. cbn [negb] in Hst.
    destruct (N.leb_spec (queue_capacity cfg) (N.of_nat (length (queue s)))) as [Hfull|Hroom];
      injection Hst as <-.
    + split; try done; cbn [accepted queued rejected owned apc open_streams queue pool_workers].
      * rewrite Ha. solve_Permutation.
      * by apply (Hclose stream).
    + split; try done; cbn [accepted queued pulled rejected owned apc open_streams queue pool_workers].
      * by rewrite Hf, app_assoc.
      * rewrite length_app. simpl. lia.
      * rewrite Ha. solve_Permutation.
      * rewrite Ho. solve_Permutation.
Qed.

Lemma pool_worker_inv l s s' :
  pool_inv cfg s -> worker_step l s = Some s' -> pool_inv cfg s'.
Proof using Type.
  intros Hi Hst. pose proof (fun n => close_perm n s) as Hclose. pose proof Hi as [Hf Hc Hp Ha Ho Hr Hx Hw Hl].
  assert (forall i w, w <> Exited -> Exited ∉ <[i := w]> (pool_workers s)) as Halive.
  { intros i w Hne [j Hj]%list_elem_of_lookup.
    apply list_lookup_insert_Some in Hj as [(_ & ? & _)|(_ & Hj)]; [congruence|].
    by apply Hx, list_elem_of_lookup; exists j. }
  destruct l as [| | |i|i|i|i r]; try done; cbn [worker_step] in Hst;
    destruct (pool_workers s !! i) as [[| |stream|]|] eqn:Hi'; try done;
    pose proof (fun w' => in_service_insert _ i _ w' Hi') as Hse;
    pose proof (fun w' => receiving_insert _ i _ w' Hi') as Hre.
  - destruct (rx_locked s); [done|]. injection Hst as <-. specialize (Hse Receiving). specialize (Hre Receiving).
    change (in_service [Locking]) with (@nil nat) in Hse. change (in_service [Receiving]) with (@nil nat) in Hse.
    rewrite !app_nil_r in Hse. change (receiving [Locking]) with 0 in Hre. change (receiving [Receiving]) with 1 in Hre.
    split; cbn; rewrite ?Hse, ?length_insert; try done; [by apply Halive|lia].
  - destruct (queue s) as [|stream rest] eqn:Hq; [done|]. injection Hst as <-.
    specialize (Hse (Serving stream)). specialize (Hre (Serving stream)).
    change (in_service [Receiving]) with (@nil nat) in Hse. change (in_service [Serving stream]) with [stream] in Hse.
    rewrite !app_nil_r in Hse. change (receiving [Serving stream]) with 0 in Hre. change (receiving [Receiving]) with 1 in Hre.
    split; cbn; rewrite ?Hse, ?length_insert; try done.
    + by rewrite Hf, <-app_assoc.
    + simpl in Hc. lia.
    + rewrite Hp. solve_Permutation.
    + rewrite Ho. solve_Permutation.
    + by apply Halive.
    + destruct (rx_locked s); lia.
  - destruct (queue s) eqn:Hq; [|done]. unfold has_sender in Hst. by destruct (apc s).
  - injection Hst as <-. specialize (Hse Locking). specialize (Hre Locking).
    change (in_service [Locking]) with (@nil nat) in Hse. change (in_service [Serving stream]) with [stream] in Hse.
    rewrite !app_nil_r in Hse. change (receiving [Serving stream]) with 0 in Hre. change (receiving [Locking]) with 0 in Hre.
    split; cbn; rewrite ?length_insert; try done.
    + rewrite Hp, <-Hse. solve_Permutation.
    + apply (Hclose stream); [done|]. rewrite Ho, <-Hse. solve_Permutation.
    + by apply Halive.
    + lia.
Qed.

Lemma pool_steps_inv ls s s' : pool_inv cfg s -> steps cfg ls s = Some s' -> pool_inv cfg s'.
Proof using Type.
  revert s. induction ls as [|l ls IH]; intros s Hi Hs; cbn [steps] in Hs; [by injection Hs as <-|].
  destruct (step cfg l s) as [s1|] eqn:E; [|done]. cbn [mbind option_bind] in Hs.
  apply (IH s1); [|done]. destruct l; cbn [step] in E;
    first [by eapply pool_acceptor_inv|by eapply pool_worker_inv].
Qed.

Lemma some_idle ws :
  length (in_service ws) < length ws ->
  exists i w, ws !! i = Some w /\ forall n, w <> Serving n.
Proof using Type.
  induction ws as [|w ws IH]; intros Hlt; [simpl in Hlt; lia|].
  destruct w; try (by (exists 0; eexists; split; [done|])).
  change (length (in_service (Serving stream :: ws))) with (S (length (in_service ws))) in Hlt.
  simpl in Hlt. destruct IH as (i & w & Hi & Hw); [lia|]. by exists (S i), w.
Qed.

Lemma some_receiving ws : 0 < receiving ws -> exists i, ws !! i = Some Receiving.
Proof using Type.
  unfold receiving. induction ws as [|w ws IH]; simpl; [lia|].
  destruct w; intros Hlt; try (by destruct IH as [i Hi]; [done|exists (S i)]). by exists 0.
Qed.

(** A queued stream is pulled, by a worker in [recv] or one that takes the
    lock for it. *)
Lemma idle_pulls s n rest :
  pool_inv cfg s -> s.(queue) = n :: rest ->
  length (in_service s.(pool_workers)) < length s.(pool_workers) ->
  exists ls s', length ls <= 2 /\ steps cfg ls s = Some s' /\ s'.(pulled) = s.(pulled) ++ [n].
Proof using Type.
  intros Hi Hq Hlt.
  assert (forall i s1, s1.(pool_workers) !! i = Some Receiving -> s1.(queue) = n :: rest ->
    s1.(pulled) = s.(pulled) ->
    exists s', steps cfg [RecvJob i] s1 = Some s' /\ s'.(pulled) = s.(pulled) ++ [n]) as Hrecv.
  { intros i s1 Hw Hq1 Hp. cbn [steps step worker_step]. rewrite Hw, Hq1. eexists.
    split; [reflexivity|]. cbn [set_worker pulled]. by rewrite Hp. }
  destruct (some_idle _ Hlt) as (i & w & Hw & Hns). destruct w as [| |m|].
  - destruct (rx_locked s) eqn:Hlk.
    + pose proof (pi_lock _ _ Hi) as Hl. rewrite Hlk in Hl.
      destruct (some_receiving (pool_workers s)) as [j Hj]; [lia|].
      destruct (Hrecv j s Hj Hq eq_refl) as (s' & ? & ?). exists [RecvJob j], s'. split_and!; [simpl; lia|done..].
    + destruct (Hrecv i (set_worker i Receiving true s)) as (s' & Hs & Hp); [|done|done|].
      { cbn. apply list_lookup_insert_eq. by eapply lookup_lt_Some. }
      exists [Lock i; RecvJob i], s'. split_and!; [simpl; lia| |done].
      cbn [steps step worker_step] in Hs |- *. rewrite Hw, Hlk. exact Hs.
  - destruct (Hrecv i s Hw Hq eq_refl) as (s' & ? & ?). exists [RecvJob i], s'. split_and!; [simpl; lia|done..].
  - by destruct (Hns m).
  - destruct (pi_alive _ _ Hi). apply list_elem_of_lookup. by exists i.
Qed.

(** C25. Invariant: under every interleaving of the acceptor and the workers
    the pool is a bounded FIFO: streams are pulled in the order they were
    queued, the queue never exceeds its capacity, and every accepted stream is
    exactly one of served, in service by one worker, queued, rejected, or in
    the acceptor's hands, the open ones being those not served or rejected.
    At most [max(workers, 1)] are in service; the acceptor never stops; and
    while a worker is free a queued stream is two steps from being pulled. *)
Theorem pool_serves_each_once ls s (Hs : steps cfg ls (Pool_new cfg) = Some s) :
  s.(queued) = s.(pulled) ++ s.(queue) /\
  (N.of_nat (length s.(queue)) <= queue_capacity cfg)%N /\
  seq 0 s.(accepted) ≡ₚ
    (s.(served) ++ in_service s.(pool_workers)) ++ s.(queue) ++ s.(rejected) ++ owned s.(apc) /\
  s.(open_streams) ≡ₚ owned s.(apc) ++ s.(queue) ++ in_service s.(pool_workers) /\
  length s.(pool_workers) = N.to_nat (N.max cfg.(App.workers) 1) /\
  s.(apc) <> Stopped /\
  (length (in_service s.(pool_workers)) < length s.(pool_workers) ->
   match s.(queue) with
   | n :: _ => exists ls' s', length ls' <= 2 /\ steps cfg ls' s = Some s' /\
       s'.(pulled) = s.(pulled) ++ [n]
   | [] => True
   end).
Proof using Type.
  pose proof (pool_steps_inv ls _ s pool_new_inv Hs) as Hi. pose proof Hi as [Hf Hc Hp Ha Ho Hr Hx Hw Hl].
  split_and!; try done.
  - by rewrite Ha, Hf, Hp, <-!app_assoc.
  - intros Hlt. destruct (queue s) as [|n rest] eqn:Hq; [done|]. by eapply idle_pulls.
Qed.
End Props.

(** ** A run: a queue of one, two workers, four clients *)

Definition pool_config : ServerConfig :=
  let c := ServerConfig_default (E:=IoError) (Ok 2%N) in
  mkConfig c.(addr) c.(App.workers) c.(read_timeout) c.(write_timeout) 1 c.(cfg_assets_dir).

Definition pool_run : list Label :=
  [Lock 1; AcceptOk; TrySend; RecvJob 1; AcceptOk; TrySend; AcceptOk; TrySend; Served 1 (Ok tt)].

Lemma pool_serves_each_once_witness :
  exists s, steps pool_config pool_run (Pool_new pool_config) = Some s /\
    s.(served) = [0] /\ s.(queue) = [1] /\ s.(rejected) = [2] /\
    exists ls' s', length ls' <= 2 /\ steps pool_config ls' s = Some s' /\ s'.(pulled) = [0; 1].
Proof.
  pose proof (pool_serves_each_once pool_config pool_run) as Hall.
  destruct (steps pool_config pool_run (Pool_new pool_config)) as [s|] eqn:E;
    [|vm_compute in E; discriminate E].
  exists s. split; [reflexivity|]. destruct (Hall s eq_refl) as (_ & _ & _ & _ & _ & _ & Hpull).
  vm_compute in E. injection E as <-. do 3 (split; [reflexivity|]).
  apply Hpull. apply Nat.leb_le. reflexivity.
Defined.
