(* ===== verification/PoolServing.v ===== *)
(** * The thread pool at work

    ThreadPool, whose steps are those of what the threads share, with the
    serving of Serving between [RecvJob] and [Served]: the acceptor, the queue
    and the system calls of all the workers, in any order. *)

From S2P Require Import Prelude RustStr Http Response Request RequestSpec RequestRefine Router Asset App Conn ConnSpec ConnProps Site Syscall Socket ConnTable EventIo EventIoProps Session Trace Blocking BlockingProps Serving ServingProps EpollTrace Sim ThreadPool ThreadPoolProps.

(** The threads, the descriptors of the open streams, and the streams. *)
Record Pooled (K : Type) := mkPooled { pool : Pool; fds : gmap nat Z; crew : Crew K }.
Arguments mkPooled {K} _ _ _.
Arguments pool {K} _.
Arguments fds {K} _.
Arguments crew {K} _.

(** [Serve i]: the [i]th worker goes on in [serve_connection], or returns from
    it, closing the stream. *)
Inductive PLabel := Accept | Send | TakeLock (i : nat) | Recv (i : nat) | Disconnect (i : nat) | Serve (i : nat).

Section Pooled.
Context {K H : Type} `{Kernel K} `{Handlers H} (l : Z) (cfg : ServerConfig) (app : App H).

(** The shared application: its counters are the pool's. *)
Definition shared_app (p : Pool) : App H := mkApp app.(router) app.(assets) p.(p_metrics).

Definition Pooled_new (k : K) : Pooled K := mkPooled (Pool_new cfg) ∅ (mkCrew k ∅).

Definition acceptor (lbl : PLabel) (s : Pooled K) : option (Pooled K) :=
  match lbl, s.(pool).(apc) with
  | Accept, Accepting =>
    let '(r, c) := crew_accept l s.(crew) in
    match r with
    | Ok fd =>
      p ← acceptor_step cfg AcceptOk s.(pool);
      Some (mkPooled p (<[s.(pool).(accepted) := fd]> s.(fds)) c)
    | Err _ => p ← acceptor_step cfg AcceptErr s.(pool); Some (mkPooled p s.(fds) c)
    end
  | Send, Sending stream =>
    p ← acceptor_step cfg TrySend s.(pool);
    fd ← s.(fds) !! stream;
    Some (if decide (stream ∈ p.(open_streams)) then mkPooled p s.(fds) s.(crew)
          else mkPooled p (delete stream s.(fds)) (crew_close fd s.(crew)))
  | _, _ => None
  end.

(** A stream in service. *)
Definition serve_step (i stream : nat) (fd : Z) (s : Pooled K) : option (outcome (Pooled K)) :=
  match s.(crew).(tasks) !! fd with
  | Some (Finished r) =>
    p ← worker_step (Served i r) s.(pool);
    Some (Ret (mkPooled p (delete stream s.(fds)) (crew_close fd s.(crew))))
  | _ =>
    o ← crew_step cfg (shared_app s.(pool)) fd s.(crew);
    Some (c ← o; Ret (mkPooled s.(pool) s.(fds) c))
  end.

Definition of_pool (lbl : Label) (s : Pooled K) : option (outcome (Pooled K)) :=
  p ← worker_step lbl s.(pool); Some (Ret (mkPooled p s.(fds) s.(crew))).

Definition pooled_step (lbl : PLabel) (s : Pooled K) : option (outcome (Pooled K)) :=
  match lbl with
  | Accept | Send => s ← acceptor lbl s; Some (Ret s)
  | TakeLock i => of_pool (Lock i) s
  | Recv i => of_pool (RecvJob i) s
  | Disconnect i => of_pool (RecvDisconnected i) s
  | Serve i =>
    match s.(pool).(pool_workers) !! i with
    | Some (Serving stream) => fd ← s.(fds) !! stream; serve_step i stream fd s
    | _ => None
    end
  end.

(** [None]: the next of the steps is none of the state it is reached in. *)
Fixpoint pooled_steps (ls : list PLabel) (s : Pooled K) : option (outcome (Pooled K)) :=
  match ls with
  | [] => Some (Ret s)
  | lbl :: ls =>
    o ← pooled_step lbl s;
    match o with
    | Ret s => pooled_steps ls s
    | Panic => Some Panic
    | Diverge => Some Diverge
    end
  end.
End Pooled.

(** ** The invariant *)

Section Inv.
Context {K H : Type} `{KernelLaws K} `{SiteHandlers H}.
Context (l : Z) (cfg : ServerConfig) (app : App H) (base : gset Z).

Record pooled_inv (s : Pooled (Traced K)) : Prop := {
  pv_pool : pool_inv cfg s.(pool);
  pv_dom : dom s.(fds) = list_to_set s.(pool).(open_streams);
  pv_inj : forall n m fd, s.(fds) !! n = Some fd -> s.(fds) !! m = Some fd -> n = m;
  pv_img : forall fd, is_Some (s.(crew).(tasks) !! fd) <-> exists n, s.(fds) !! n = Some fd;
  pv_crew : crew_inv app base s.(crew);
}.

Lemma pooled_start_inv k : opened k = base -> pooled_inv (Pooled_new cfg (traced k)).
Proof.
  intros Ho. split; cbn; [apply pool_new_inv|done|by intros n m fd ?| |by apply crew_start_inv].
  intros fd. split; [by intros [t ?]|by intros [n ?]].
Qed.

Lemma elem_of_close n stream ns : n ∈ close stream ns <-> n ∈ ns /\ n <> stream.
Proof.
  unfold close. rewrite !list_elem_of_In, filter_In, negb_true_iff, Nat.eqb_neq. done.
Qed.

(** The open streams have their descriptors. *)
Lemma open_fd s n : pooled_inv s -> n ∈ s.(pool).(open_streams) <-> is_Some (s.(fds) !! n).
Proof. intros Hi. by rewrite <-elem_of_dom, (pv_dom _ Hi), elem_of_list_to_set. Qed.

(** A stream is closed. *)
Lemma pooled_close_inv s p stream fd :
  pooled_inv s -> pool_inv cfg p -> p.(open_streams) = close stream s.(pool).(open_streams) ->
  s.(fds) !! stream = Some fd ->
  pooled_inv (mkPooled p (delete stream s.(fds)) (crew_close fd s.(crew))).
Proof.
  intros [_ Hd Hj Him Hc] Hp Ho Hfd. split; cbn [pool fds crew crew_close tasks]; [done|..].
  - apply set_eq. intros n. rewrite dom_delete, Hd, Ho. rewrite elem_of_difference, !elem_of_list_to_set.
    rewrite elem_of_close, elem_of_singleton. done.
  - intros n m fd' Hn%lookup_delete_Some Hm%lookup_delete_Some. naive_solver.
  - intros fd'. destruct (decide (fd' = fd)) as [->|Hne].
    + rewrite lookup_delete_eq. split; [by intros [t ?]|]. intros [n [Hn Hn']%lookup_delete_Some].
      destruct Hn. by eapply Hj.
    + rewrite lookup_delete_ne, Him by done. split; intros [n Hn]; exists n;
        [|by apply lookup_delete_Some in Hn as [_ Hn]]. rewrite lookup_delete_ne; [done|].
      intros <-. congruence.
  - apply crew_close_inv; [done|]. apply Him. by exists stream.
Qed.

(** The pool moves and its streams do not. *)
Lemma pooled_move_inv s p :
  pooled_inv s -> pool_inv cfg p -> p.(open_streams) = s.(pool).(open_streams) ->
  pooled_inv (mkPooled p s.(fds) s.(crew)).
Proof. intros [_ Hd Hj Him Hc] Hp Ho. split; cbn; try done. by rewrite Hd, Ho. Qed.

(** What the queue, the lock and the counters are for is the pool's alone. *)
Definition pool_run (s : Pooled (Traced K)) (s' : Pooled (Traced K)) : Prop :=
  exists ls, steps cfg ls s.(pool) = Some s'.(pool).

Lemma pooled_step_run pl s p f (c : Crew (Traced K)) :
  step cfg pl s.(pool) = Some p -> pool_run s (mkPooled p f c).
Proof. intros E. exists [pl]. cbn [steps]. by rewrite E. Qed.

(** The rank of the next stream is new. *)
Lemma accepted_fresh s : pooled_inv s -> s.(fds) !! s.(pool).(accepted) = None.
Proof.
  intros Hi. pose proof (pv_pool _ Hi) as Hp. apply eq_None_not_Some. intros Hin%(open_fd s _ Hi).
  assert (accepted (pool s) ∈ seq 0 (accepted (pool s))) as Hseq; [|apply elem_of_seq in Hseq; lia].
  rewrite (pi_all _ _ Hp), (pi_fifo _ _ Hp), (pi_pulled _ _ Hp). rewrite (pi_open _ _ Hp) in Hin. set_solver.
Qed.

Lemma accept_inv s s' : pooled_inv s -> acceptor l cfg Accept s = Some s' -> pooled_inv s' /\ pool_run s s'.
Proof.
  intros Hi Hst. pose proof Hi as [Hp Hd Hj Him Hc]. unfold acceptor in Hst.
  destruct (apc (pool s)) as [|stream|] eqn:Hpc; try done.
  destruct (crew_accept l (crew s)) as [[fd|e] c] eqn:Ea; apply (crew_accept_inv app base) in Ea as (Hc' & Ht); try done.
  - destruct Ht as [Hnone Ht].
    destruct (acceptor_step cfg AcceptOk (pool s)) as [p|] eqn:Ep; [|done]. cbn in Hst. simplify_eq.
    split; [|by apply (pooled_step_run AcceptOk)]. pose proof (pool_acceptor_inv cfg _ _ _ Hp Ep) as Hp'.
    unfold acceptor_step in Ep. rewrite Hpc in Ep. injection Ep as <-.
    pose proof (accepted_fresh s Hi) as Hfresh.
    assert (forall n, fds s !! n <> Some fd) as Hnot.
    { intros n Hn. destruct (proj2 (Him fd)) as [t Hin]; [by exists n|]. by rewrite Hin in Hnone. }
    split; cbn [pool fds crew open_streams]; [done|..|done].
    + rewrite dom_insert_L, Hd. set_solver.
    + intros n m fd' [[<- <-]|[Hn Hn']]%lookup_insert_Some [[<- ?]|[Hm Hm']]%lookup_insert_Some; naive_solver.
    + intros fd'. rewrite Ht. destruct (decide (fd' = fd)) as [->|Hne].
      * rewrite lookup_insert_eq. split; [|done]. exists (accepted (pool s)). by rewrite lookup_insert_eq.
      * rewrite lookup_insert_ne, Him by done. split; intros [n Hn]; exists n.
        -- rewrite lookup_insert_ne; [done|]. intros <-. congruence.
        -- apply lookup_insert_Some in Hn as [[_ ->]|[_ Hn]]; done.
  - destruct (acceptor_step cfg AcceptErr (pool s)) as [p|] eqn:Ep; [|done]. cbn in Hst. simplify_eq.
    split; [|by apply (pooled_step_run AcceptErr)].
    unfold acceptor_step in Ep. rewrite Hpc in Ep. injection Ep as <-.
    split; cbn [pool fds crew]; try done. by rewrite Ht.
Qed.

Lemma send_inv s s' : pooled_inv s -> acceptor l cfg Send s = Some s' -> pooled_inv s' /\ pool_run s s'.
Proof.
  intros Hi Hst. pose proof (pv_pool _ Hi) as Hp. unfold acceptor in Hst.
  destruct (apc (pool s)) as [|stream|] eqn:Hpc; try done.
  destruct (acceptor_step cfg TrySend (pool s)) as [p|] eqn:Ep; [|done]. cbn [mbind option_bind] in Hst.
  destruct (fds s !! stream) as [fd|] eqn:Hfd; [|done]. cbn [mbind option_bind] in Hst.
  pose proof (pool_acceptor_inv cfg _ _ _ Hp Ep) as Hp'.
  assert (p.(open_streams) = s.(pool).(open_streams) /\ stream ∈ p.(open_streams) \/
          p.(open_streams) = close stream s.(pool).(open_streams)) as [[Ho Hin]|Ho].
  { assert (stream ∈ open_streams (pool s)) as Hin by (apply (open_fd s stream Hi); by exists fd).
    unfold acceptor_step in Ep. rewrite Hpc in Ep.
    destruct (negb _); [simplify_eq; by right|]. destruct (_ <=? _)%N; simplify_eq; [by right|by left]. }
  - rewrite decide_True in Hst by done. simplify_eq. split; [|by apply (pooled_step_run TrySend)].
    by apply pooled_move_inv.
  - rewrite decide_False in Hst by (rewrite Ho, elem_of_close; naive_solver). simplify_eq.
    split; [|by apply (pooled_step_run TrySend)]. by apply pooled_close_inv.
Qed.

(** A stream in service is open. *)
Lemma in_service_fd s i stream :
  pooled_inv s -> s.(pool).(pool_workers) !! i = Some (Serving stream) -> is_Some (s.(fds) !! stream).
Proof.
  intros Hi Hw. apply (open_fd s stream Hi). rewrite (pi_open _ _ (pv_pool _ Hi)), !elem_of_app. right. right.
  apply list_elem_of_omap. exists (Serving stream). split; [|done]. apply list_elem_of_lookup. by exists i.
Qed.

Lemma worker_moves pl s p :
  pool_inv cfg s -> worker_step pl s = Some p -> match pl with Served _ _ => False | _ => True end ->
  p.(open_streams) = s.(open_streams).
Proof.
  intros _ E Hpl. destruct pl as [| | |i|i|i|i r]; try done; cbn in E; destruct (pool_workers s !! i) as [[]|]; try done.
  - by destruct (rx_locked s); simplify_eq.
  - by destruct (queue s); simplify_eq.
  - by destruct (queue s), (has_sender s); simplify_eq.
Qed.

Lemma of_pool_inv pl s o :
  pooled_inv s -> of_pool pl s = Some o ->
  match pl with Lock _ | RecvJob _ | RecvDisconnected _ => True | _ => False end ->
  exists s', o = Ret s' /\ pooled_inv s' /\ pool_run s s'.
Proof.
  intros Hi Hst Hpl. unfold of_pool in Hst. destruct (worker_step pl (pool s)) as [p|] eqn:Ep; [|done].
  cbn in Hst. simplify_eq. eexists. split; [done|]. split.
  - apply pooled_move_inv; [done|by apply (pool_worker_inv cfg pl (pool s)); [apply pv_pool|]|].
    apply (worker_moves pl); [by apply pv_pool|done|by destruct pl].
  - apply (pooled_step_run pl). by destruct pl.
Qed.

Context (Hfit : all_fit app).

Lemma shared_app_site p : same_site app (shared_app app p).
Proof. done. Qed.

(** One call of a thread, or its return: enabled, and never a panic. *)
Lemma serve_step_inv s i stream fd :
  pooled_inv s -> s.(pool).(pool_workers) !! i = Some (Serving stream) -> s.(fds) !! stream = Some fd ->
  exists s', serve_step cfg app i stream fd s = Some (Ret s') /\ pooled_inv s' /\ pool_run s s'.
Proof.
  intros Hi Hw Hfd. pose proof Hi as [Hp Hd Hj Him Hc]. unfold serve_step.
  destruct (proj2 (Him fd)) as [t Hin]; [by exists stream|]. rewrite Hin.
  destruct (finished t) eqn:Hnf.
  - destruct t as [| | |r]; try done.
    destruct (worker_step (Served i r) (pool s)) as [p|] eqn:Ep; [|cbn in Ep; by rewrite Hw in Ep].
    eexists. split; [done|]. split; [|by apply (pooled_step_run (Served i r))].
    apply pooled_close_inv; [done|by apply (pool_worker_inv cfg (Served i r) (pool s))| |done].
    cbn in Ep. rewrite Hw in Ep. by simplify_eq.
  - destruct (crew_step_inv cfg app base (shared_app app (pool s)) fd t (crew s) Hfit (shared_app_site _) Hc Hin Hnf)
      as (t' & k' & _ & Hcr & Hc' & Hdom).
    eexists. split; [destruct t; try done; by rewrite Hcr|]. split; [|by exists []].
    split; cbn [pool fds crew tasks]; try done. intros fd'. by rewrite <-elem_of_dom, Hdom, elem_of_dom.
Qed.

Lemma pooled_step_inv lbl s o :
  pooled_inv s -> pooled_step l cfg app lbl s = Some o ->
  exists s', o = Ret s' /\ pooled_inv s' /\ pool_run s s'.
Proof.
  intros Hi. destruct lbl as [| |i|i|i|i]; cbn [pooled_step].
  - destruct (acceptor l cfg Accept s) as [s'|] eqn:E; [|done]. intros E'. simplify_eq/=.
    exists s'. split; [done|]. by apply accept_inv.
  - destruct (acceptor l cfg Send s) as [s'|] eqn:E; [|done]. intros E'. simplify_eq/=.
    exists s'. split; [done|]. by apply send_inv.
  - intros E. by eapply of_pool_inv.
  - intros E. by eapply of_pool_inv.
  - intros E. by eapply of_pool_inv.
  - destruct (pool_workers (pool s) !! i) as [[| |stream|]|] eqn:Hw; try done.
    destruct (in_service_fd s i stream Hi Hw) as [fd Hfd]. rewrite Hfd. cbn [mbind option_bind].
    destruct (serve_step_inv s i stream fd Hi Hw Hfd) as (s' & -> & Hs'). intros E. simplify_eq. by exists s'.
Qed.

Lemma steps_app ls1 ls2 p p1 p2 :
  steps cfg ls1 p = Some p1 -> steps cfg ls2 p1 = Some p2 -> steps cfg (ls1 ++ ls2) p = Some p2.
Proof.
  revert p. induction ls1 as [|pl ls1 IH]; intros p E1 E2; cbn in *; [by simplify_eq|].
  destruct (step cfg pl p); [|done]. by apply IH.
Qed.

Lemma pooled_steps_inv ls s o :
  pooled_inv s -> pooled_steps l cfg app ls s = Some o ->
  exists s', o = Ret s' /\ pooled_inv s' /\ pool_run s s'.
Proof.
  revert s. induction ls as [|lbl ls IH]; intros s Hi Hs; cbn [pooled_steps] in Hs.
  { simplify_eq. exists s. split_and!; [done..|]. by exists []. }
  destruct (pooled_step l cfg app lbl s) as [o1|] eqn:E; [|done].
  destruct (pooled_step_inv lbl s o1 Hi E) as (s1 & -> & Hi1 & [ls1 Hr1]). cbn [mbind option_bind] in Hs.
  destruct (IH s1 Hi1 Hs) as (s' & -> & Hi' & [ls2 Hr2]). exists s'. split_and!; [done..|].
  exists (ls1 ++ ls2). by eapply steps_app.
Qed.

(** A worker that is left to run serves its stream to the end. *)
Lemma worker_finishes s i stream :
  pooled_inv s -> s.(pool).(pool_workers) !! i = Some (Serving stream) ->
  exists m s', pooled_steps l cfg app (replicate m (Serve i)) s = Some (Ret s') /\
    s'.(pool).(served) = s.(pool).(served) ++ [stream] /\ s'.(pool).(pool_workers) !! i = Some Locking.
Proof.
  intros Hi Hw. destruct (in_service_fd s i stream Hi Hw) as [fd Hfd]. destruct s as [p f c]. cbn [pool fds] in *.
  apply (crew_finish_ind cfg app base (fun c => exists m s',
    pooled_steps l cfg app (replicate m (Serve i)) (mkPooled p f c) = Some (Ret s') /\
    s'.(pool).(served) = p.(served) ++ [stream] /\ s'.(pool).(pool_workers) !! i = Some Locking)
    (shared_app app p) fd Hfit (shared_app_site p)); [| |by apply pv_crew in Hi|].
  - intros c0 r _ Hin. exists 1. eexists. split_and!.
    + cbn [pooled_steps replicate pooled_step pool fds]. rewrite Hw, Hfd. cbn [mbind option_bind].
      unfold serve_step. cbn [crew pool fds]. rewrite Hin. cbn [worker_step]. rewrite Hw. reflexivity.
    + done.
    + cbn. apply list_lookup_insert_eq. by eapply lookup_lt_Some.
  - intros c0 c1 _ Hst _ _ (m & s' & Hm & Hs). exists (S m), s'. split; [|done].
    cbn [pooled_steps replicate pooled_step pool fds]. rewrite Hw, Hfd. cbn [mbind option_bind].
    unfold serve_step. cbn [crew pool fds]. rewrite Hst. unfold crew_step in Hst.
    destruct (tasks c0 !! fd) as [[]|]; try done.
  - apply (pv_img _ Hi). by exists stream.
Qed.
End Inv.

Section Claim.
Context {K H : Type} `{KernelLaws K} `{SiteHandlers H}.

(** C12. End to end, for the thread pool: whatever the order in which the acceptor
    and the workers take the lock, use the queue and make their system calls,
    no thread panics, and the threads do nothing that is not a run of
    [ThreadPool]; the descriptors open are those the process had and, each of
    its own, those of the open streams; every client has been written a part
    of exactly the session of what was read from it, and all of it where
    [serve_connection] returns without an error; and a worker that is left to
    run serves its stream to the end, what its client sends being finite (the
    [budget] of the kernel). *)
Theorem pool_serves_sessions ls l cfg (k : K) (app : App H) o (Hfit : fits app)
    (Hs : pooled_steps l cfg app ls (Pooled_new cfg (traced k)) = Some o) :
  exists s, o = Ret s /\ (exists pls, steps cfg pls (Pool_new cfg) = Some s.(pool)) /\
    (forall n, n ∈ s.(pool).(open_streams) <-> is_Some (s.(fds) !! n)) /\
    (forall n m fd, s.(fds) !! n = Some fd -> s.(fds) !! m = Some fd -> n = m) /\
    (forall fd, fd ∈ opened s.(crew).(ck) <-> fd ∈ opened k \/ exists n, s.(fds) !! n = Some fd) /\
    crew_serves app s.(crew) /\
    (forall i stream, s.(pool).(pool_workers) !! i = Some (Serving stream) -> exists m s',
      pooled_steps l cfg app (replicate m (Serve i)) s = Some (Ret s') /\
      s'.(pool).(served) = s.(pool).(served) ++ [stream] /\ s'.(pool).(pool_workers) !! i = Some Locking).
Proof.
  pose proof (fits_all app Hfit) as Hall.
  destruct (pooled_steps_inv l cfg app (opened k) Hall ls _ o (pooled_start_inv cfg app _ k eq_refl) Hs)
    as (s & -> & Hi & Hrun).
  pose proof (pv_crew _ _ _ _ Hi) as Hc.
  exists s. split_and!; [done|exact Hrun|intros n; by eapply open_fd|apply (pv_inj _ _ _ _ Hi)| |by eapply crew_inv_serves|].
  - intros fd. rewrite (cv_opened _ _ _ Hc), elem_of_union, elem_of_dom. by rewrite (pv_img _ _ _ _ Hi).
  - intros i stream. by apply (worker_finishes l cfg app (opened k)).
Qed.
End Claim.

(** Two workers serve the two clients of descriptors 4 and 5 by turns: the
    first sends a request and ends the connection, the second has sent half of
    its request. *)
Definition sim_pool : Sim :=
  mkSim 0 0 {[3%Z]} 2 [(4%Z, get_root); (5%Z, B "GET / HT"); (4%Z, [])] [] ∅ [] ∅.

Definition pool_turns : list PLabel :=
  [TakeLock 0; Accept; Send; Recv 0; TakeLock 1; Accept; Send; Recv 1;
   Serve 1; Serve 0; Serve 0; Serve 1; Serve 0; Serve 1; Serve 0; Serve 0].

Definition first_served (s : Pooled (Traced Sim)) : bool :=
  bool_decide (sent <$> s.(crew).(ck).(current) !! 4%Z = Some (answer sample_app sample_request)) &&
  match s.(crew).(tasks) !! 4%Z with Some (Finished (Ok _)) => true | _ => false end &&
  bool_decide (received <$> s.(crew).(ck).(current) !! 5%Z = Some [B "GET / HT"]).

Lemma pool_serves_sessions_witness :
  exists s, pooled_steps 3 pool_config sample_app pool_turns (Pooled_new pool_config (traced sim_pool)) = Some (Ret s) /\
    first_served s = true /\ crew_serves sample_app s.(crew) /\
    exists m s', pooled_steps 3 pool_config sample_app (replicate m (Serve 1)) s = Some (Ret s') /\
      s'.(pool).(served) = [1].
Proof.
  pose proof (pool_serves_sessions pool_turns 3 pool_config sim_pool sample_app) as Hrun.
  assert (match pooled_steps 3 pool_config sample_app pool_turns (Pooled_new pool_config (traced sim_pool)) with
    | Some (Ret s) => first_served s && bool_decide (s.(pool).(pool_workers) !! 1 = Some (Serving 1)) && bool_decide (s.(pool).(served) = [])
    | _ => false end = true) as Hok by (vm_compute; reflexivity).
  destruct (pooled_steps _ _ _ _ _) as [o|]; [|discriminate Hok].
  destruct (Hrun o sample_app_fits eq_refl) as (s & -> & _ & _ & _ & _ & Hserves & Hfin).
  apply andb_prop in Hok as [[Hok Hw]%andb_prop Hnone]. apply bool_decide_eq_true in Hw, Hnone.
  exists s. split_and!; [reflexivity|exact Hok|exact Hserves|].
  destruct (Hfin 1 1 Hw) as (m & s' & Hm & Hs' & _). rewrite Hnone in Hs'. by exists m, s'.
Defined.
