(* ===== verification/PoolLive.v ===== *)
(** * Every client of the thread pool is served in the end

    Under a schedule that is fair to the acceptor and the workers, a stream
    that was accepted is refused or leaves the queue for a worker, and
    [serve_connection] returns for it. *)

From S2P Require Import Prelude RustStr Http Response Request RequestSpec RequestRefine Router Asset App Conn ConnSpec ConnProps Site Syscall Socket ConnTable EventIo EventIoProps Session Trace Blocking BlockingProps Serving ServingProps EpollTrace Sim Fair ServingLive ThreadPool ThreadPoolProps PoolServing.

(** ** What the workers have to do *)

Definition stage_left (w : WPc) : nat :=
  match w with Serving _ => 3 | Locking => 2 | Receiving => 1 | Exited => 0 end.

Definition stages (ws : list WPc) : nat := sum_list_with stage_left ws.

Lemma pool_stages_insert ws i w w' : ws !! i = Some w -> stages (<[i := w']> ws) + stage_left w = stages ws + stage_left w'.
Proof.
  intros Hi. assert (i < length ws) as Hlt by by eapply lookup_lt_Some.
  rewrite insert_take_drop by done. rewrite <-(take_drop_middle ws i w Hi) at 3.
  unfold stages. rewrite !sum_list_with_app. cbn. lia.
Qed.

Definition is_receiving (w : WPc) : bool := match w with Receiving => true | _ => false end.
Definition is_locking (w : WPc) : bool := match w with Locking => true | _ => false end.

(** ** What is in the way of a stream *)

Section Way.
Context (cfg : ServerConfig) (n : nat).

Definition serves_it (w : WPc) : bool := match w with Serving m => m =? n | _ => false end.

(** Before [try_send], in the queue, in service. *)
Definition sending (p : Pool) : bool := match p.(apc) with Sending m => m =? n | _ => false end.
Definition waiting (p : Pool) : bool := bool_decide (n ∈ p.(queue)).

Definition way (p : Pool) : nat * (nat * nat) :=
  if sending p then (2, (0, 0))
  else if waiting p then (1, (first_at (Nat.eqb n) p.(queue), stages p.(pool_workers)))
  else (0, (0, 0)).

(** The stream whose serving is waited for: in the queue, where no worker is
    free, that of the first worker. *)
Definition target (p : Pool) : option nat :=
  if sending p then None
  else if waiting p then
    if p.(rx_locked) || existsb is_locking p.(pool_workers) then None
    else match p.(pool_workers) !! 0 with Some (Serving m) => Some m | _ => None end
  else Some n.

(** The thread whose next step is waited for. *)
Definition helper (p : Pool) : PLabel :=
  if sending p then Send
  else if waiting p then
    if p.(rx_locked) then Recv (first_at is_receiving p.(pool_workers))
    else if existsb is_locking p.(pool_workers) then TakeLock (first_at is_locking p.(pool_workers))
    else Serve 0
  else Serve (first_at serves_it p.(pool_workers)).

Definition thread_label (lbl : PLabel) : Prop :=
  match lbl with Send | TakeLock _ | Recv _ | Serve _ => True | _ => False end.

Lemma pool_helper_label p : thread_label (helper p).
Proof. unfold helper. repeat case_match; done. Qed.

(** ** Where the stream is *)

Lemma in_service_at ws : n ∈ in_service ws -> exists i, ws !! i = Some (Serving n).
Proof.
  intros (w & Hin & Hw)%list_elem_of_omap. apply list_elem_of_lookup in Hin as [i Hi]. exists i.
  by destruct w; simplify_eq.
Qed.

Lemma at_in_service ws i : ws !! i = Some (Serving n) -> n ∈ in_service ws.
Proof.
  intros Hi. apply list_elem_of_omap. exists (Serving n). split; [|done]. apply list_elem_of_lookup. by exists i.
Qed.

Lemma service_unique ws i j :
  NoDup (in_service ws) -> ws !! i = Some (Serving n) -> ws !! j = Some (Serving n) -> i = j.
Proof.
  revert i j. induction ws as [|w ws IH]; intros [|i] [|j] Hnd Hi Hj; try done; cbn in Hi, Hj.
  1, 2: exfalso; simplify_eq; change (NoDup (n :: in_service ws)) in Hnd; apply NoDup_cons in Hnd as [Hni _];
    apply Hni; by eapply at_in_service.
  f_equal. apply IH; [|done..]. destruct w; try exact Hnd.
  change (NoDup (stream :: in_service ws)) in Hnd. by apply NoDup_cons in Hnd as [_ Hnd].
Qed.

Lemma inv_service p : pool_inv cfg p -> NoDup (in_service p.(pool_workers)).
Proof.
  intros Hi. pose proof (open_nodup cfg p Hi) as Hnd. rewrite (pi_open _ _ Hi) in Hnd.
  apply NoDup_app in Hnd as (_ & _ & Hnd). by apply NoDup_app in Hnd as (_ & _ & Hnd).
Qed.

Lemma serves_first p i :
  pool_inv cfg p -> p.(pool_workers) !! i = Some (Serving n) -> first_at serves_it p.(pool_workers) = i.
Proof.
  intros Hi Hw. eapply first_at_eq; [exact Hw|cbn; apply Nat.eqb_refl|].
  intros j w Hlt Hj. destruct (serves_it w) eqn:Ho; [|done]. exfalso.
  destruct w as [| |m|]; try done. apply Nat.eqb_eq in Ho as ->.
  pose proof (service_unique _ i j (inv_service p Hi) Hw Hj). lia.
Qed.

Lemma open_where p :
  pool_inv cfg p -> n ∈ p.(open_streams) -> sending p = false -> waiting p = false ->
  exists i, p.(pool_workers) !! i = Some (Serving n) /\ helper p = Serve i.
Proof.
  intros Hi Hin Hs Hw. rewrite (pi_open _ _ Hi), !elem_of_app in Hin.
  pose proof Hw as Hw'. apply bool_decide_eq_false in Hw'. destruct Hin as [Hin|[Hin|Hin]]; [|done|].
  - unfold sending in Hs. destruct (apc p); cbn in Hin; try by apply not_elem_of_nil in Hin.
    apply list_elem_of_singleton in Hin as ->. by rewrite Nat.eqb_refl in Hs.
  - apply in_service_at in Hin as [i Hi']. exists i. unfold helper. rewrite Hs, Hw. split; [done|].
    by rewrite (serves_first p i Hi Hi').
Qed.

(** Accepted and no longer open. *)
Lemma gone p : pool_inv cfg p -> n < p.(accepted) -> n ∉ p.(open_streams) -> n ∈ p.(served) \/ n ∈ p.(rejected).
Proof.
  intros Hi Hlt Hno. assert (n ∈ seq 0 (accepted p)) as Hin by (apply elem_of_seq; lia).
  rewrite (pi_all _ _ Hi), (pi_fifo _ _ Hi), (pi_pulled _ _ Hi) in Hin. rewrite (pi_open _ _ Hi) in Hno. set_solver.
Qed.

Lemma open_accepted p : pool_inv cfg p -> n ∈ p.(open_streams) -> n < p.(accepted).
Proof.
  intros Hi Hin. assert (n ∈ seq 0 (accepted p)) as Hs; [|by apply elem_of_seq in Hs; lia].
  rewrite (pi_all _ _ Hi), (pi_fifo _ _ Hi), (pi_pulled _ _ Hi). rewrite (pi_open _ _ Hi) in Hin. set_solver.
Qed.

Lemma receiving_pos ws i : ws !! i = Some Receiving -> 0 < receiving ws.
Proof. intros Hi. pose proof (receiving_insert ws i _ Locking Hi) as Hr. unfold receiving in *. cbn in Hr. lia. Qed.

(** With a stream in the queue some worker can take it, take the lock for it,
    or is serving. *)
Lemma pool_helper_enabled p :
  pool_inv cfg p -> n ∈ p.(open_streams) ->
  match helper p with
  | Send => is_Some (acceptor_step cfg TrySend p) /\ p.(apc) = Sending n
  | TakeLock i => is_Some (worker_step (Lock i) p)
  | Recv i => is_Some (worker_step (RecvJob i) p)
  | Serve i => exists m, p.(pool_workers) !! i = Some (Serving m) /\ target p = Some m
  | _ => False
  end.
Proof.
  intros Hi Hin. unfold helper, target. destruct (sending p) eqn:Hs.
  { unfold sending in Hs. destruct (apc p) eqn:Hpc; try done. apply Nat.eqb_eq in Hs as ->. split; [|done].
    cbn. rewrite Hpc. repeat case_match; by eexists. }
  destruct (waiting p) eqn:Hw.
  2: { destruct (open_where p Hi Hin Hs Hw) as (i & Hi' & Hh). unfold helper in Hh. rewrite Hs, Hw in Hh.
       injection Hh as ->. by exists n. }
  apply bool_decide_eq_true in Hw. pose proof (pi_lock _ _ Hi) as Hlk. destruct (rx_locked p) eqn:Hrx.
  - destruct (some_receiving (pool_workers p)) as [i Hi']; [lia|].
    destruct (first_at_in is_receiving (pool_workers p) Receiving) as (w & Hf & Hr); [by eapply list_elem_of_lookup_2|done|].
    destruct w; try done. cbn. rewrite Hf. destruct (queue p); [by apply not_elem_of_nil in Hw|by eexists].
  - destruct (existsb is_locking (pool_workers p)) eqn:Hex; cbn [orb].
    + apply existsb_exists in Hex as (w & Hw'%list_elem_of_In & Hl).
      destruct (first_at_in is_locking (pool_workers p) w Hw' Hl) as (w' & Hf & Hl'). destruct w'; try done.
      cbn. rewrite Hf, Hrx. by eexists.
    + destruct (pool_workers p !! 0) as [w|] eqn:H0.
      2: { apply lookup_ge_None in H0. pose proof (pi_workers _ _ Hi). lia. }
      destruct w as [| |m|].
      * assert (existsb is_locking (pool_workers p) = true) as He; [|congruence].
        apply existsb_exists. exists Locking. split; [by eapply list_elem_of_In, list_elem_of_lookup_2|done].
      * pose proof (receiving_pos _ _ H0). lia.
      * by exists m.
      * destruct (pi_alive _ _ Hi). by eapply list_elem_of_lookup_2.
Qed.

(** ** No step is away from the goal *)

(** Whose step it is. *)
Definition thread_of (lbl : Label) : PLabel :=
  match lbl with
  | AcceptOk | AcceptErr => Accept
  | TrySend => Send
  | Lock i => TakeLock i
  | RecvJob i => Recv i
  | RecvDisconnected i => Disconnect i
  | Served i _ => Serve i
  end.

Definition way_goes_on (lbl : Label) (p p' : Pool) : Prop :=
  lex3 (way p') (way p) \/
  way p' = way p /\ target p' = target p /\ helper p' = helper p /\ helper p <> thread_of lbl.

Lemma acceptor_way lbl p p' :
  pool_inv cfg p -> acceptor_step cfg lbl p = Some p' -> n ∈ p.(open_streams) -> way_goes_on lbl p p'.
Proof.
  intros Hi E Hin. pose proof (open_accepted p Hi Hin) as Hlt. unfold acceptor_step in E.
  assert (helper p <> Accept) as Hna by (intros Hh; pose proof (pool_helper_label p) as Hl; by rewrite Hh in Hl).
  destruct lbl, (apc p) as [|m|] eqn:Hpc; try done.
  - simplify_eq. right. unfold way, target, helper, sending, waiting. cbn. rewrite Hpc.
    rewrite (proj2 (Nat.eqb_neq _ _)) by lia. split_and!; try done. intros Hh. apply Hna. rewrite <-Hh.
    unfold helper, sending, waiting. by rewrite Hpc.
  - simplify_eq. by right.
  - destruct (m =? n) eqn:Hm.
    { left. left. unfold way, sending. rewrite Hpc, Hm. repeat case_match; simplify_eq/=; repeat case_match; simplify_eq/=; lia. }
    assert (sending p = false) as Hs by (unfold sending; by rewrite Hpc).
    assert (helper p <> Send) as Hns by (unfold helper; rewrite Hs; repeat case_match; done).
    right. enough (way p' = way p /\ target p' = target p /\ helper p' = helper p) by naive_solver.
    repeat case_match; simplify_eq; unfold way, target, helper, waiting; rewrite Hs; cbn; try done.
    apply Nat.eqb_neq in Hm. destruct (bool_decide (n ∈ queue p)) eqn:Hw.
    + apply bool_decide_eq_true in Hw. rewrite bool_decide_true by (apply elem_of_app; by left).
      by rewrite (first_at_app (Nat.eqb n) _ _ n Hw (Nat.eqb_refl n)).
    + apply bool_decide_eq_false in Hw. rewrite bool_decide_false; [done|].
      rewrite elem_of_app, list_elem_of_singleton. by intros [?| ->].
Qed.

Lemma waiting_way lbl p p' :
  pool_inv cfg p -> worker_step lbl p = Some p' -> sending p = false -> sending p' = false -> waiting p = true ->
  lex3 (way p') (way p).
Proof.
  intros Hi E Hs Hs' Hw. unfold way. rewrite Hs, Hs', Hw. apply bool_decide_eq_true in Hw.
  assert (forall j w w' r q, pool_workers p !! j = Some w -> stage_left w' < stage_left w ->
    lex3 (1, (first_at (Nat.eqb n) q, stages (<[j := w']> (pool_workers p))))
      (1, (first_at (Nat.eqb n) q, r + stages (pool_workers p)))) as Hlow.
  { intros j w w' r q Hj Hlt. pose proof (pool_stages_insert _ j _ w' Hj). right. split; [done|]. right. split; [done|cbn; lia]. }
  destruct lbl as [| | |j|j|j|j r]; try done; cbn [worker_step] in E;
    destruct (pool_workers p !! j) as [[| |m|]|] eqn:Hj; try done.
  - destruct (rx_locked p); simplify_eq. unfold waiting. cbn. rewrite bool_decide_true by done.
    apply (Hlow j _ Receiving 0 _ Hj). cbn. lia.
  - destruct (queue p) as [|m rest] eqn:Hq; simplify_eq. unfold waiting. cbn [queue set_worker pool_workers].
    destruct (bool_decide (n ∈ rest)) eqn:Hr; [|left; cbn; lia].
    apply bool_decide_eq_true in Hr. right. split; [done|]. left. cbn.
    destruct (Nat.eqb_spec n m) as [->|]; [|lia]. exfalso.
    pose proof (open_nodup cfg p Hi) as Hnd. rewrite (pi_open _ _ Hi), Hq in Hnd.
    apply NoDup_app in Hnd as (_ & _ & Hnd). apply NoDup_app in Hnd as (Hnd & _). by apply NoDup_cons in Hnd as [? _].
  - pose proof (pi_running _ _ Hi) as Hr. unfold has_sender in E. by destruct (queue p), (apc p).
  - simplify_eq. unfold waiting. cbn [queue set_worker pool_workers]. rewrite bool_decide_true by done.
    apply (Hlow j _ Locking 0 _ Hj). cbn. lia.
Qed.

Lemma worker_step_service lbl p p' i :
  worker_step lbl p = Some p' -> p.(pool_workers) !! i = Some (Serving n) -> n ∈ p'.(open_streams) ->
  p'.(pool_workers) !! i = Some (Serving n) /\ p'.(queue) ⊆ p.(queue).
Proof.
  intros E Hi Hin.
  assert (forall j w, j <> i -> <[j := w]> (pool_workers p) !! i = Some (Serving n)) as Hother
    by (intros; by rewrite list_lookup_insert_ne).
  destruct lbl as [| | |j|j|j|j r]; try done; cbn [worker_step] in E;
    destruct (pool_workers p !! j) as [[| |m|]|] eqn:Hj; try done; repeat case_match; simplify_eq;
    (split; [|cbn; intros y Hy; first [exact Hy|by right|congruence]]); apply Hother; intros ->; rewrite Hi in Hj; simplify_eq.
  all: cbn in Hin; apply list_elem_of_In, filter_In in Hin as [_ Hin]; by rewrite Nat.eqb_refl in Hin.
Qed.

Lemma worker_way lbl p p' :
  pool_inv cfg p -> pool_inv cfg p' -> worker_step lbl p = Some p' -> n ∈ p.(open_streams) -> n ∈ p'.(open_streams) ->
  way_goes_on lbl p p'.
Proof.
  intros Hi Hi' E Hin Hin'.
  assert (apc p' = apc p) as Hpc.
  { destruct lbl; try done; cbn in E; repeat case_match; by simplify_eq. }
  assert (sending p' = sending p) as Hs' by (unfold sending; by rewrite Hpc).
  destruct (sending p) eqn:Hs; [right; unfold way, target, helper; rewrite Hs, Hs'; by destruct lbl|].
  destruct (waiting p) eqn:Hw; [left; by eapply waiting_way|]. right.
  destruct (open_where p Hi Hin Hs Hw) as (i & Hser & Hh).
  destruct (worker_step_service _ _ _ i E Hser Hin') as [Hser' Hq].
  assert (waiting p' = false) as Hw'.
  { apply bool_decide_eq_false in Hw. apply bool_decide_eq_false. intros Hx. by apply Hw, Hq. }
  rewrite Hh. unfold way, target, helper. rewrite Hs, Hs', Hw, Hw', (serves_first p' i Hi' Hser').
  split_and!; [done..|]. destruct lbl as [| | |j|j|j|j r]; try done. cbn. intros [= <-].
  cbn in E. rewrite Hser in E. simplify_eq. cbn in Hser'. by rewrite list_lookup_insert_eq in Hser' by by eapply lookup_lt_Some.
Qed.
End Way.

Lemma target_open cfg n p m :
  pool_inv cfg p -> n ∈ p.(open_streams) -> target n p = Some m -> m ∈ p.(open_streams).
Proof.
  intros Hi Hin. unfold target. destruct (sending n p); [done|]. destruct (waiting n p); [|by intros [= <-]].
  destruct (_ || _); [done|]. destruct (pool_workers p !! 0) as [[| |m'|]|] eqn:Hw; try done. intros [= <-].
  rewrite (pi_open _ _ Hi), !elem_of_app. right. right. by eapply at_in_service.
Qed.

(** ** The threads and their streams *)

Section Live.
Context {K H : Type} `{KernelLaws K, !FiniteClients K} `{SiteHandlers H}.
Context (l : Z) (cfg : ServerConfig) (app : App H) (base : gset Z) (n : nat) (Hfit : all_fit app).

Notation PS := (Pooled (Traced K)).

Definition is_open (s : PS) : Prop := n ∈ s.(pool).(open_streams).
Definition is_gone (s : PS) : Prop := n ∈ s.(pool).(served) \/ n ∈ s.(pool).(rejected).

Definition target_fd (s : PS) : option Z := m ← target n s.(pool); s.(fds) !! m.

Definition remaining (s : PS) : nat * (nat * nat) * (nat * nat) :=
  (way n s.(pool), crew_left (target_fd s) s.(crew)).

Definition lower : nat * (nat * nat) * (nat * nat) -> nat * (nat * nat) * (nat * nat) -> Prop := lex lex3 lex2.

Definition goes_on (lbl : PLabel) (s s' : PS) : Prop :=
  is_gone s' \/ is_open s' /\ (lower (remaining s') (remaining s) \/
    remaining s' = remaining s /\ helper n s.(pool) <> lbl /\
    forall h, helper n s.(pool) = h -> helper n s'.(pool) = h).

Lemma accepted_grows lbl p p' : step cfg lbl p = Some p' -> p.(accepted) <= p'.(accepted).
Proof. destruct lbl; cbn; intros E; repeat case_match; simplify_eq; cbn; lia. Qed.

(** A step of [ThreadPool], and what it does to the streams that stay open. *)
Lemma pool_shared_goes_on s s' lbl :
  pooled_inv cfg app base s -> pooled_inv cfg app base s' -> is_open s ->
  step cfg lbl s.(pool) = Some s'.(pool) ->
  (forall m fd, m ∈ s.(pool).(open_streams) -> m ∈ s'.(pool).(open_streams) -> s.(fds) !! m = Some fd ->
    s'.(fds) !! m = Some fd /\ unmoved fd s.(crew) s'.(crew)) -> goes_on (thread_of lbl) s s'.
Proof.
  intros Hi Hi' Hop E Hf. pose proof (pv_pool _ _ _ _ Hi) as Hp. pose proof (pv_pool _ _ _ _ Hi') as Hp'.
  destruct (decide (n ∈ s'.(pool).(open_streams))) as [Hop'|Hno].
  2: { left. apply (gone cfg n _ Hp'); [|done]. pose proof (open_accepted cfg n _ Hp Hop).
       pose proof (accepted_grows _ _ _ E). lia. }
  right. split; [done|].
  assert (way_goes_on n lbl (pool s) (pool s')) as [Hlt|(Hway & Htg & Hh & Hne)].
  { assert (acceptor_step cfg lbl (pool s) = Some (pool s') \/ worker_step lbl (pool s) = Some (pool s')) as [Ha|Ha]
      by (destruct lbl; auto); [by eapply acceptor_way|by eapply worker_way]. }
  { left. by left. }
  unfold remaining, target_fd. rewrite Hway, Htg. destruct (target n (pool s)) as [m|] eqn:Ht; cbn [mbind option_bind].
  2: { right. split_and!; [done|done|congruence]. }
  pose proof (target_open cfg n _ m Hp Hop Ht) as Hm.
  pose proof (target_open cfg n _ m Hp' Hop' Htg) as Hm'.
  destruct (proj1 (open_fd cfg app base s m Hi) Hm) as [fd Hfd].
  destruct (Hf m fd Hm Hm' Hfd) as [Hfd' Hun]. rewrite Hfd, Hfd'.
  destruct (unmoved_left fd _ _ Hun) as [Hlt| ->]; [left; right; by split|].
  right. split_and!; [done|done|congruence].
Qed.

Lemma pool_accept_goes_on s s' :
  pooled_inv cfg app base s -> is_open s -> acceptor l cfg Accept s = Some s' -> goes_on Accept s s'.
Proof.
  intros Hi Hop E. destruct (accept_inv l cfg app base s s' Hi E) as [Hi' _].
  unfold acceptor in E. destruct (apc (pool s)); try done.
  destruct (crew_accept l (crew s)) as [[fd|e] c] eqn:Ea;
    destruct (acceptor_step cfg _ (pool s)) as [p|] eqn:Ep; try done; cbn in E; simplify_eq.
  - apply (pool_shared_goes_on _ _ AcceptOk); [done|done|done|exact Ep|]. cbn [fds crew]. intros m fd' Hm _ Hfd'.
    pose proof (open_accepted cfg m _ (pv_pool _ _ _ _ Hi) Hm). rewrite lookup_insert_ne by lia. split; [done|].
    apply (accept_unmoved app base l _ _ _ fd' (pv_crew _ _ _ _ Hi) Ea), (pv_img _ _ _ _ Hi). by exists m.
  - apply (pool_shared_goes_on _ _ AcceptErr); [done|done|done|exact Ep|]. cbn [fds crew]. intros m fd' Hm _ Hfd'.
    split; [done|].
    apply (accept_unmoved app base l _ _ _ fd' (pv_crew _ _ _ _ Hi) Ea), (pv_img _ _ _ _ Hi). by exists m.
Qed.

(** A stream that is closed is another one. *)
Lemma closed_goes_on s p lbl stream fd :
  pooled_inv cfg app base s -> pooled_inv cfg app base (mkPooled p (delete stream s.(fds)) (crew_close fd s.(crew))) ->
  is_open s -> step cfg lbl s.(pool) = Some p -> s.(fds) !! stream = Some fd ->
  p.(open_streams) = close stream s.(pool).(open_streams) ->
  goes_on (thread_of lbl) s (mkPooled p (delete stream s.(fds)) (crew_close fd s.(crew))).
Proof.
  intros Hi Hi' Hop E Hfd Ho. apply pool_shared_goes_on; [done..|]. cbn [fds crew pool]. intros m fd' _ Hm Hfd'.
  rewrite Ho, elem_of_close in Hm. destruct Hm as [_ Hne]. rewrite lookup_delete_ne by done. split; [done|].
  apply close_unmoved. intros ->. by apply Hne, (pv_inj _ _ _ _ Hi m stream fd).
Qed.

Lemma send_goes_on s s' :
  pooled_inv cfg app base s -> is_open s -> acceptor l cfg Send s = Some s' -> goes_on Send s s'.
Proof.
  intros Hi Hop E. destruct (send_inv l cfg app base s s' Hi E) as [Hi' _].
  unfold acceptor in E. destruct (apc (pool s)) as [|stream|] eqn:Hpc; try done.
  destruct (acceptor_step cfg TrySend (pool s)) as [p|] eqn:Ep; [|done]. cbn [mbind option_bind] in E.
  destruct (fds s !! stream) as [fd|] eqn:Hfd; [|done]. cbn [mbind option_bind] in E.
  case_decide as Hin; simplify_eq.
  - apply (pool_shared_goes_on _ _ TrySend); [done|done|done|exact Ep|]. by intros m fd' _ _ Hfd'.
  - apply (closed_goes_on s p TrySend); [done..|]. unfold acceptor_step in Ep. rewrite Hpc in Ep.
    assert (stream ∈ open_streams (pool s)) as Ho by (apply (open_fd cfg app base s stream Hi); by exists fd).
    repeat case_match; simplify_eq/=; done.
Qed.

Lemma of_pool_goes_on s s' lbl :
  pooled_inv cfg app base s -> pooled_inv cfg app base s' -> is_open s -> of_pool lbl s = Some (Ret s') ->
  match lbl with Lock _ | RecvJob _ | RecvDisconnected _ => True | _ => False end -> goes_on (thread_of lbl) s s'.
Proof.
  intros Hi Hi' Hop E Hl. unfold of_pool in E. destruct (worker_step lbl (pool s)) as [p|] eqn:Ep; [|done].
  cbn in E. simplify_eq. apply pool_shared_goes_on; [done|done|done|by destruct lbl|]. by intros m fd _ _ Hfd.
Qed.

(** The steps of a worker at work. *)
Lemma pool_serve_goes_on s s' i stream fd :
  pooled_inv cfg app base s -> pooled_inv cfg app base s' -> is_open s ->
  s.(pool).(pool_workers) !! i = Some (Serving stream) -> s.(fds) !! stream = Some fd ->
  serve_step cfg app i stream fd s = Some (Ret s') -> goes_on (Serve i) s s'.
Proof.
  intros Hi Hi' Hop Hw Hfd E. unfold serve_step in E. pose proof (pv_pool _ _ _ _ Hi) as Hp.
  destruct (proj2 (pv_img _ _ _ _ Hi fd)) as [t Ht]; [by exists stream|]. rewrite Ht in E.
  destruct (finished t) eqn:Hnf.
  - destruct t as [| | |r]; try done. destruct (worker_step (Served i r) (pool s)) as [p|] eqn:Ep; [|done].
    cbn [mbind option_bind] in E. simplify_eq. apply (closed_goes_on s p (Served i r)); [done..|].
    cbn in Ep. rewrite Hw in Ep. by simplify_eq.
  - destruct (crew_step_left cfg app base (shared_app app (pool s)) fd t _ Hfit (shared_app_site _ _) (pv_crew _ _ _ _ Hi) Ht Hnf)
      as (t' & c & Hcr & _ & Ht' & Hlow & Hle).
    assert (s' = mkPooled (pool s) (fds s) c) as -> by (rewrite Hcr in E; destruct t; try done; by simplify_eq/=).
    right. split; [done|]. unfold remaining, target_fd. cbn [pool fds crew].
    destruct (target n (pool s)) as [m|] eqn:Htg; cbn [mbind option_bind].
    2: { right. split_and!; [done| |done]. intros Hh. pose proof (pool_helper_enabled cfg n _ Hp Hop) as Hen.
         rewrite Hh in Hen. by destruct Hen as (m & _ & Hm); rewrite Htg in Hm. }
    destruct (fds s !! m) as [f|] eqn:Hf.
    2: { pose proof (target_open cfg n _ m Hp Hop Htg) as Hm. apply (open_fd cfg app base s m Hi) in Hm as [? ?]. congruence. }
    destruct (decide (f = fd)) as [->|Hne]; [left; right; by split|].
    destruct (unmoved_left f _ _ (Hle f Hne)) as [Hlt| ->]; [left; right; by split|].
    right. split_and!; [done| |done]. intros Hh. pose proof (pool_helper_enabled cfg n _ Hp Hop) as Hen.
    rewrite Hh in Hen. destruct Hen as (m' & Hm' & Htg'). congruence.
Qed.

Lemma pooled_moves lbl s s' :
  pooled_inv cfg app base s -> is_open s -> pooled_step l cfg app lbl s = Some (Ret s') -> pooled_inv cfg app base s' ->
  goes_on lbl s s'.
Proof.
  intros Hi Hop E Hi'. destruct lbl as [| |i|i|i|i]; cbn [pooled_step] in E.
  - destruct (acceptor l cfg Accept s) eqn:Ea; [|done]. simplify_eq/=. by apply pool_accept_goes_on.
  - destruct (acceptor l cfg Send s) eqn:Ea; [|done]. simplify_eq/=. by apply send_goes_on.
  - by apply (of_pool_goes_on s s' (Lock i)).
  - by apply (of_pool_goes_on s s' (RecvJob i)).
  - by apply (of_pool_goes_on s s' (RecvDisconnected i)).
  - destruct (pool_workers (pool s) !! i) as [[| |stream|]|] eqn:Hw; try done.
    destruct (fds s !! stream) as [fd|] eqn:Hfd; [|done]. by eapply pool_serve_goes_on.
Qed.

(** A stream is on its way to a worker, or out. *)
Lemma pooled_progress :
  progress (pooled_step l cfg app) lower remaining (pooled_inv cfg app base) is_open is_gone
    thread_label (fun _ => True) (fun s h => helper n s.(pool) = h).
Proof.
  split.
  - apply lex_wf; [apply lex3_wf|apply lex2_wf].
  - intros lbl s o Hi E. destruct (pooled_step_inv l cfg app base Hfit lbl s o Hi E) as (s' & -> & Hi' & _).
    by exists s'.
  - intros s Hi _. exists (helper n s.(pool)). split; [apply pool_helper_label|done].
  - intros s h Hi Hop <-. pose proof (pool_helper_enabled cfg n _ (pv_pool _ _ _ _ Hi) Hop) as Hen.
    destruct (helper n (pool s)) as [| |i|i|i|i]; try done; cbn [pooled_step].
    + destruct Hen as [[p Hp] Hpc]. destruct (proj1 (open_fd cfg app base s n Hi) Hop) as [fd Hfd].
      unfold acceptor. rewrite Hpc, Hp, Hfd. by eexists.
    + destruct Hen as [p Hp]. unfold of_pool. rewrite Hp. by eexists.
    + destruct Hen as [p Hp]. unfold of_pool. rewrite Hp. by eexists.
    + destruct Hen as (m & Hm & _). rewrite Hm. destruct (in_service_fd cfg app base s i m Hi Hm) as [fd Hfd].
      rewrite Hfd. destruct (serve_step_inv cfg app base Hfit s i m fd Hi Hm Hfd) as (s' & Hs & _).
      cbn [mbind option_bind]. rewrite Hs. by eexists.
  - intros lbl s s' Hi Hop E Hi'. destruct (pooled_moves lbl s s' Hi Hop E Hi') as [|[? _]]; [by left|by right].
  - intros lbl s s' _ Hi Hop E Hi'. by apply pooled_moves.
Qed.
End Live.

(** ** The claim *)

Section Claim.
Context {K H : Type} `{KernelLaws K, !FiniteClients K} `{SiteHandlers H}.

(** C17. Liveness, without starvation: under every schedule that gives the acceptor
    and the workers their turns again and again, for clients that each send
    finitely many pieces, every stream accepted is in the end refused, the queue
    being full, or served: pulled from the queue by a worker whose
    [serve_connection] returns, however the workers contend for the lock and
    whatever else is accepted meanwhile. *)
Theorem pool_serves_everyone sched l cfg (k : K) (app : App H) n s stream (Hfit : fits app)
    (Hfair : fair thread_label sched)
    (Hrun : run (pooled_step l cfg app) sched n (Pooled_new cfg (traced k)) = Ret s)
    (Hstream : stream < s.(pool).(accepted)) :
  exists m s', n <= m /\ run (pooled_step l cfg app) sched m (Pooled_new cfg (traced k)) = Ret s' /\
    (stream ∈ s'.(pool).(served) \/ stream ∈ s'.(pool).(rejected)).
Proof.
  pose proof (fits_all app Hfit) as Hall. pose proof (pooled_start_inv cfg app (opened k) k eq_refl) as H0i.
  pose proof (pooled_progress l cfg app (opened k) stream Hall) as Hp.
  destruct (run_keeps _ _ _ _ _ _ _ _ _ sched n _ Hp H0i) as (s1 & E & Hi). rewrite Hrun in E. injection E as <-.
  destruct (decide (stream ∈ s.(pool).(open_streams))) as [Hop|Hno].
  2: { exists n, s. split_and!; [done..|]. by apply (gone cfg stream _ (pv_pool _ _ _ _ Hi)). }
  destruct (leads_to _ _ _ _ _ _ _ _ _ sched _ n s Hp Hfair (ex_intro _ 0 (fun _ _ => I)) H0i Hrun Hop)
    as (m & s' & Hle & Hrun' & _ & Hend).
  by exists m, s'.
Qed.
End Claim.

(** Every label again and again. *)
Definition pool_labels (v : nat) : PLabel :=
  let i := v / 5 in
  match v mod 5 with
  | 0 => Accept
  | 1 => Send
  | 2 => TakeLock i
  | 3 => Recv i
  | _ => Serve i
  end.

Lemma pool_labels_all lbl : thread_label lbl -> exists v, pool_labels v = lbl.
Proof.
  assert (forall i j, j < 5 -> (j + i * 5) / 5 = i /\ (j + i * 5) mod 5 = j) as Hdiv.
  { intros i j Hj. rewrite Nat.div_add, Nat.div_small, Nat.Div0.mod_add, Nat.mod_small by lia. lia. }
  intros Hl. unfold pool_labels. destruct lbl as [| |i|i|i|i]; try done.
  1: by exists 1. 1: exists (2 + i * 5). 2: exists (3 + i * 5). 3: exists (4 + i * 5).
  all: match goal with |- context [(?j + ?i * 5) mod 5] => destruct (Hdiv i j) as [-> ->]; [lia|done] end.
Qed.

(** Two workers and two clients; both are accepted, the second is queued. *)
Lemma pool_serves_everyone_witness :
  let init := Pooled_new pool_config (traced sim_pool) in
  let sched := diagonal pool_labels in
  exists s, run (pooled_step 3 pool_config sample_app) sched 20 init = Ret s /\ 1 < s.(pool).(accepted) /\
    exists m s', 20 <= m /\ run (pooled_step 3 pool_config sample_app) sched m init = Ret s' /\
      (1 ∈ s'.(pool).(served) \/ 1 ∈ s'.(pool).(rejected)).
Proof.
  intros init sched.
  assert (match run (pooled_step 3 pool_config sample_app) sched 20 init with
    | Ret s => 1 <? s.(pool).(accepted) | _ => false end = true) as Hok by (vm_compute; reflexivity).
  destruct (run (pooled_step 3 pool_config sample_app) sched 20 init) as [s| |] eqn:Hrun; try discriminate Hok.
  apply Nat.ltb_lt in Hok. exists s. split; [reflexivity|]. split; [exact Hok|].
  refine (pool_serves_everyone sched 3 pool_config sim_pool sample_app 20 s 1 sample_app_fits _ Hrun Hok).
  apply diagonal_fair, pool_labels_all.
Defined.
