(* ===== verification/Loadgen.v ===== *)
(** * The load generator's client

    loadgen/src/main.rs: sending a request and reading one response, the
    request it sends.  Its queue and workers are in LoadQueue.  The sockets are
    [std]'s: a buffered reader is the bytes still to come and what ends them. *)

From S2P Require Import Prelude RustStr Http Response Syscall.

(** ** The reader *)

(** [BufReader<TcpStream>]: after [avail] comes the end of the stream, or an
    error. *)
Record Reader := mkReader { avail : bytes; stop : option IoError }.

(** The bytes up to and including the first line feed. *)
Fixpoint take_line (s : bytes) : option (bytes * bytes) :=
  match s with
  | [] => None
  | b :: s =>
    if Byte.eqb b LF then Some ([b], s)
    else '(l, rest) ← take_line s; Some (b :: l, rest)
  end.

(** [BufRead::read_line] into an empty [String]: what it appended. *)
Definition read_line (r : Reader) : result bytes IoError * Reader :=
  let checked (l : bytes) := if utf8_valid l then Ok l else Err (Custom InvalidData) in
  match take_line r.(avail), r.(stop) with
  | Some (l, rest), _ => (checked l, mkReader rest r.(stop))
  | None, Some e => (Err e, mkReader [] r.(stop))
  | None, None => (checked r.(avail), mkReader [] None)
  end.

(** [Read::read_exact] of [n] bytes. *)
Definition read_exact (n : N) (r : Reader) : result unit IoError * Reader :=
  if (n <=? N.of_nat (length r.(avail)))%N then (Ok tt, mkReader (drop (N.to_nat n) r.(avail)) r.(stop))
  else (Err (match r.(stop) with Some e => e | None => Custom UnexpectedEof end), mkReader [] r.(stop)).

(** ** Reading a response *)

(** [str::split_once] at an ASCII character *)
Definition split_once (x : byte) (s : bytes) : option (bytes * bytes) :=
  match position x s with
  | None => None
  | Some i => Some (take i s, drop (i + 1) s)
  end.

Definition header_value (line name : bytes) : option bytes :=
  '(raw_name, raw_value) ← split_once x3a line;
  if eq_ignore_ascii_case (trim raw_name) name then Some raw_value else None.

(** The [loop] over the lines of the head: the content length. *)
Fixpoint read_head (fuel : nat) (content_length : N) (r : Reader)
    : outcome (result N IoError * Reader) :=
  match fuel with
  | 0 => Diverge
  | S fuel =>
    match read_line r with
    | (Err e, r) => Ret (Err e, r)
    | (Ok [], r) => Ret (Err (Custom UnexpectedEof), r)
    | (Ok line, r) =>
      if decide (line = CRLF) then Ret (Ok content_length, r) else
      if decide (line = [LF]) then Ret (Ok content_length, r) else
      match header_value line (B "content-length") with
      | None => read_head fuel content_length r
      | Some value =>
        match parse_usize (trim value) with
        | None => Ret (Err (Custom InvalidData), r)
        | Some n => read_head fuel n r
        end
      end
    end
  end.

(** An allocation has at most [isize::MAX] bytes: [vec!] panics beyond. *)
Definition isize_max : N := (2 ^ 63 - 1)%N.

(** [send_and_read], [written] and [flushed] being what [write_all] and
    [flush] answered.  Every line takes a byte: [avail] bounds the rounds. *)
Definition send_and_read (written flushed : result unit IoError) (r : Reader)
    : outcome (result unit IoError * Reader) :=
  match written, flushed with
  | Err e, _ | Ok _, Err e => Ret (Err e, r)
  | Ok _, Ok _ =>
    '(cl, r) ← read_head (S (length r.(avail))) 0 r;
    match cl with
    | Err e => Ret (Err e, r)
    | Ok content_length =>
      if (0 <? content_length)%N then
        if (isize_max <? content_length)%N then Panic else
        match read_exact content_length r with
        | (Err e, r) => Ret (Err e, r)
        | (Ok _, r) => Ret (Ok tt, r)
        end
      else Ret (Ok tt, r)
    end
  end.

(** The request every worker sends. *)
Definition loadgen_request (target : bytes) : bytes :=
  B "GET / HTTP/1.1" ++ CRLF ++ B "Host: " ++ target ++ CRLF ++ B "Connection: keep-alive" ++ CRLF ++ CRLF.

(** ** Lines *)

Definition no_lf (s : bytes) : bool := forallb (fun b => negb (Byte.eqb b LF)) s.

Lemma take_line_app l rest : no_lf l = true -> take_line (l ++ LF :: rest) = Some (l ++ [LF], rest).
Proof.
  induction l as [|b l IH]; intros Hl; [done|]. cbn [no_lf forallb] in Hl.
  apply andb_true_iff in Hl as [Hb%negb_true_iff Hl]. cbn [Datatypes.app take_line].
  by rewrite Hb, IH.
Qed.

Lemma split_once_none x s : forallb (fun b => negb (Byte.eqb b x)) s = true -> split_once x s = None.
Proof.
  unfold split_once. intros Hs. assert (position x s = None) as ->; [|done].
  induction s as [|b s IH]; [done|]. cbn [forallb] in Hs.
  apply andb_true_iff in Hs as [Hb%negb_true_iff Hs]. cbn [position]. by rewrite Hb, IH.
Qed.
