(* ===== verification/LoadgenProps.v ===== *)
(** * The client against the server *)

From S2P Require Import Prelude RustStr Http Response Request RequestSpec RequestRefine RequestProps Router Asset App Conn ConnSpec ConnProps Site Syscall SysPoll EventIo EventIoProps Session Sim Blocking BlockingProps Loadgen.

(** ** Lines of a head *)

Lemma read_line_crlf l s st :
  no_lf l = true -> utf8_valid l = true ->
  read_line (mkReader (l ++ CRLF ++ s) st) = (Ok (l ++ CRLF), mkReader s st).
Proof.
  intros Hl Hu. unfold read_line. cbn [avail stop].
  assert (no_lf (l ++ [CR]) = true) as Hcr.
  { unfold no_lf in *. rewrite forallb_app, Hl. done. }
  change (l ++ CRLF ++ s) with (l ++ [CR] ++ LF :: s). rewrite app_assoc, take_line_app by done.
  rewrite <-app_assoc. change ([CR] ++ [LF]) with CRLF.
  by rewrite utf8_valid_app.
Qed.

Lemma line_not_blank (l : bytes) : l <> [] -> l ++ CRLF <> CRLF /\ l ++ CRLF <> [LF].
Proof.
  intros Hl. split; intros E; apply (f_equal length) in E; rewrite length_app in E; simpl in E;
    destruct l; simpl in E; try done; lia.
Qed.

(** A line that says nothing of the length is skipped. *)
Lemma read_head_skip fuel cl l s st :
  no_lf l = true -> utf8_valid l = true -> l <> [] ->
  header_value (l ++ CRLF) (B "content-length") = None ->
  read_head (S fuel) cl (mkReader (l ++ CRLF ++ s) st) = read_head fuel cl (mkReader s st).
Proof.
  intros Hl Hu Hne Hh. cbn [read_head]. rewrite read_line_crlf by done.
  destruct (line_not_blank l Hne) as [H1 H2]. destruct (l ++ CRLF) as [|b t] eqn:E.
  - destruct l; done.
  - rewrite <-E in *. by rewrite (decide_False _ _ H1), (decide_False _ _ H2), Hh.
Qed.

Lemma digit_not_ws b : in_range b 48 57 = true ->
  ws1 b = false /\ (forall b1, ws2 b b1 = false /\ ws2 b1 b = false) /\
  (forall b1 b2, ws3 b b1 b2 = false /\ ws3 b1 b2 b = false).
Proof.
  intros Hb. split; [by destruct b|]. split.
  - intros b1. split; [by destruct b|]. unfold ws2. destruct (u8 b1 =? 0xC2)%N; [|done]. by destruct b.
  - intros b1 b2. split; [by destruct b|]. unfold ws3.
    assert (u8 b <> 0x80 /\ in_range b 0x80 0x8A = false /\ u8 b <> 0xA8 /\ u8 b <> 0xA9 /\
            u8 b <> 0xAF /\ u8 b <> 0x9F)%N as (H1 & H2 & H3 & H4 & H5 & H6).
    { apply in_range_spec in Hb. split_and!; try lia.
      apply not_true_is_false. rewrite in_range_spec. lia. }
    rewrite H2. apply N.eqb_neq in H1, H3, H4, H5, H6. by rewrite H1, H3, H4, H5, H6, !andb_false_r.
Qed.

Lemma trim_start_digit b s : in_range b 48 57 = true -> trim_start (b :: s) = b :: s.
Proof.
  intros Hb. destruct (digit_not_ws b Hb) as (H1 & H2 & H3). cbn [trim_start]. rewrite H1.
  destruct s as [|b1 s]; [done|]. rewrite (proj1 (H2 b1)). destruct s as [|b2 s]; [done|].
  by rewrite (proj1 (H3 b1 b2)).
Qed.

Lemma trim_start_rev_digit b s : in_range b 48 57 = true -> trim_start_rev (b :: s) = b :: s.
Proof.
  intros Hb. destruct (digit_not_ws b Hb) as (H1 & H2 & H3). cbn [trim_start_rev]. rewrite H1.
  destruct s as [|b1 s]; [done|]. rewrite (proj2 (H2 b1)). destruct s as [|b2 s]; [done|].
  by rewrite (proj2 (H3 b2 b1)).
Qed.

Lemma trim_decimal n : trim (SP :: decimal n ++ CRLF) = decimal n.
Proof.
  pose proof (decimal_digits n) as Hd. pose proof (decimal_nonempty n) as Hne.
  unfold trim. change (trim_start (SP :: decimal n ++ CRLF)) with (trim_start (decimal n ++ CRLF)).
  destruct (decimal n) as [|b s] eqn:E; [done|]. rewrite <-E in *.
  assert (trim_start (decimal n ++ CRLF) = decimal n ++ CRLF) as ->.
  { rewrite E in Hd |- *. apply Forall_cons in Hd as [Hb _]. by apply trim_start_digit. }
  unfold trim_end. rewrite rev_app_distr. change (rev CRLF) with [LF; CR].
  change (trim_start_rev ([LF; CR] ++ rev (decimal n))) with (trim_start_rev (rev (decimal n))).
  destruct (rev (decimal n)) as [|c t] eqn:Er.
  - apply (f_equal (@rev byte)) in Er. rewrite rev_involutive in Er. by rewrite Er in E.
  - assert (in_range c 48 57 = true) as Hc.
    { rewrite Forall_forall in Hd. apply Hd. apply list_elem_of_In, in_rev. rewrite Er. by left. }
    rewrite trim_start_rev_digit by done. by rewrite <-Er, rev_involutive.
Qed.

Lemma header_value_length n :
  header_value (B "Content-Length: " ++ decimal n ++ CRLF) (B "content-length") =
    Some (SP :: decimal n ++ CRLF).
Proof.
  unfold header_value, split_once.
  change (B "Content-Length: " ++ decimal n ++ CRLF) with (B "Content-Length" ++ x3a :: SP :: decimal n ++ CRLF).
  rewrite position_app by done. reflexivity.
Qed.

Lemma digits_no_byte x s :
  Forall (fun b => in_range b 48 57 = true) s -> in_range x 48 57 = false ->
  forallb (fun b => negb (Byte.eqb b x)) s = true.
Proof.
  intros Hs Hx. induction Hs as [|b s Hb _ IH]; [done|]. cbn [forallb].
  destruct (Byte.eqb b x) eqn:E; [|by rewrite IH]. rewrite byte_eqb_spec in E.
  apply bool_decide_eq_true in E as ->. congruence.
Qed.

(** The status line has neither a line feed nor a colon. *)
Lemma status_line_plain s :
  exists l, status_line s = l ++ CRLF /\ no_lf l = true /\ utf8_valid l = true /\ l <> [] /\
    header_value (l ++ CRLF) (B "content-length") = None.
Proof.
  set (l := B "HTTP/1.1 " ++ decimal s.(code) ++ [SP] ++ reason s).
  assert (forall x, in_range x 48 57 = false -> forallb (fun b => negb (Byte.eqb b x)) (B "HTTP/1.1 ") = true ->
    forallb (fun b => negb (Byte.eqb b x)) ([SP] ++ reason s) = true ->
    forallb (fun b => negb (Byte.eqb b x)) l = true) as Hl.
  { intros x Hx H1 H2. unfold l. rewrite !forallb_app in *. rewrite H1. cbn [andb].
    by rewrite (digits_no_byte _ (decimal _)) by (done || apply decimal_digits). }
  assert (utf8_valid (reason s) = true /\ forallb (fun b => negb (Byte.eqb b LF)) ([SP] ++ reason s) = true /\
          forallb (fun b => negb (Byte.eqb b x3a)) ([SP] ++ reason s) = true) as (Hu & H1 & H2).
  { unfold reason. repeat (match goal with |- context [match ?n with _ => _ end] => destruct n end); done. }
  exists l. split_and!.
  - unfold l, status_line. by rewrite <-!app_assoc.
  - by apply Hl.
  - unfold l. repeat apply utf8_valid_app; try done. apply digits_utf8, decimal_digits.
  - done.
  - unfold header_value. rewrite split_once_none; [done|]. rewrite forallb_app. rewrite Hl by done. done.
Qed.

(** ** Responses a line reader can read *)

(** A user field on one line, that does not pass for a content length. *)
Definition tame_field (kv : bytes * bytes) : bool :=
  no_lf kv.1 && no_lf kv.2 && utf8_valid kv.1 && utf8_valid kv.2 &&
  match header_value (render_field kv) (B "content-length") with None => true | Some _ => false end.

Definition tame (r : Response) : bool :=
  forallb (fun kv => owned kv.1 || tame_field kv) (Headers_iter r.(Response.headers)).

Lemma read_head_fields fuel cl fs s st :
  forallb tame_field fs = true ->
  read_head (length fs + fuel) cl (mkReader (render_fields fs ++ s) st) = read_head fuel cl (mkReader s st).
Proof.
  induction fs as [|[k v] fs IH]; intros Hf; [done|]. cbn [forallb] in Hf.
  apply andb_true_iff in Hf as [Hkv Hf]. unfold tame_field in Hkv. cbn [fst snd] in Hkv.
  rewrite !andb_true_iff in Hkv. destruct Hkv as ((((Hk & Hv) & Huk) & Huv) & Hh).
  assert (render_fields ((k, v) :: fs) ++ s = (k ++ B ": " ++ v) ++ CRLF ++ render_fields fs ++ s) as ->.
  { unfold render_fields, render_field. cbn [fmap list_fmap concat fst snd]. by rewrite <-!app_assoc. }
  cbn [length Nat.add]. rewrite read_head_skip; [by apply IH|..].
  - unfold no_lf in *. by rewrite !forallb_app, Hk, Hv.
  - by repeat apply utf8_valid_app.
  - by destruct k.
  - unfold render_field in Hh. cbn [fst snd] in Hh. rewrite <-!app_assoc.
    by destruct (header_value _ _).
Qed.

Lemma read_head_length fuel cl n s st :
  (n <= usize_max)%N ->
  read_head (S fuel) cl (mkReader (B "Content-Length: " ++ decimal n ++ CRLF ++ s) st) =
    read_head fuel n (mkReader s st).
Proof.
  intros Hn. rewrite app_assoc. cbn [read_head]. rewrite read_line_crlf.
  - destruct (line_not_blank (B "Content-Length: " ++ decimal n)) as [H1 H2]; [done|].
    rewrite <-app_assoc in *. cbn [Datatypes.app] in H1, H2 |- *.
    destruct ((B "Content-Length: " ++ decimal n ++ CRLF)) as [|b t] eqn:E; [done|].
    rewrite <-E in *. rewrite (decide_False _ _ H1), (decide_False _ _ H2), header_value_length.
    unfold parse_usize. by rewrite trim_decimal, parse_uint_decimal.
  - unfold no_lf. rewrite forallb_app. by rewrite (digits_no_byte _ (decimal _)) by (done || apply decimal_digits).
  - apply utf8_valid_app; [done|]. apply digits_utf8, decimal_digits.
Qed.

(** The encoder's own two fields and the blank line. *)
Lemma read_head_own fuel cl n (ka : bool) s st :
  (n <= usize_max)%N ->
  read_head (S (S (S fuel))) cl (mkReader (render_fields
    [(B "Content-Length", decimal n); (B "Connection", if ka then B "keep-alive" else B "close")] ++
    CRLF ++ s) st) = Ret (Ok n, mkReader s st).
Proof.
  intros Hn. rewrite render_own, <-!app_assoc, read_head_length by done.
  rewrite (app_assoc (B "Connection: ")), read_head_skip by by destruct ka. reflexivity.
Qed.

(** Reading a whole head leaves the reader at the body, with its length. *)
Lemma read_head_response fuel r ka s st :
  Response_ok_size r -> tame r = true -> length (encoded_fields r ka) + 2 <= fuel ->
  read_head fuel 0 (mkReader (encoded_head r ka ++ s) st) =
    Ret (Ok (N.of_nat (length (body_bytes r))), mkReader s st).
Proof.
  intros [_ Hb] Ht Hfuel. unfold encoded_head, encoded_fields in *.
  set (own := [(B "Content-Length", _); _]) in *.
  set (fs := List.filter _ (Headers_iter r.(Response.headers))) in *.
  assert (forallb tame_field fs = true) as Hfs.
  { apply forallb_forall. intros kv [Hin Ho%negb_true_iff]%filter_In.
    apply forallb_forall with (x := kv) in Ht; [|done]. by rewrite Ho in Ht. }
  destruct (status_line_plain (Response.status r)) as (l & -> & Hl & Hu & Hne & Hh).
  rewrite length_app in Hfuel. cbn [own length] in Hfuel.
  assert (exists k, fuel = S (length fs + S (S (S k)))) as [k ->] by (exists (fuel - length fs - 4); lia).
  rewrite render_fields_app, <-!app_assoc, read_head_skip by done.
  rewrite read_head_fields by done. by apply read_head_own.
Qed.

Lemma encoded_head_lines r ka : length (encoded_fields r ka) + 2 <= length (encoded_head r ka).
Proof.
  unfold encoded_head. rewrite !length_app.
  assert (forall fs, length fs <= length (render_fields fs)) as Hfs.
  { intros fs. induction fs as [|kv fs IH]; [done|]. unfold render_fields in *.
    cbn [fmap list_fmap concat length]. unfold render_field at 1. rewrite !length_app. simpl. lia. }
  pose proof (Hfs (encoded_fields r ka)). simpl. lia.
Qed.

Lemma send_and_read_response r ka s st :
  Response_ok_size r -> tame r = true -> (N.of_nat (length (body_bytes r)) <= isize_max)%N ->
  send_and_read (Ok tt) (Ok tt) (mkReader (encoded_head r ka ++ body_bytes r ++ s) st) =
    Ret (Ok tt, mkReader s st).
Proof.
  intros Hr Ht Hi. unfold send_and_read. pose proof (encoded_head_lines r ka).
  rewrite read_head_response by (try done; cbn [avail]; rewrite length_app; lia).
  cbn [mbind outcome_bind]. destruct (body_bytes r) as [|b bs] eqn:E; [done|]. rewrite <-E in *.
  assert (0 <? N.of_nat (length (body_bytes r)) = true)%N as -> by (rewrite E; done).
  rewrite (proj2 (N.ltb_ge _ _)) by done. unfold read_exact. cbn [avail stop].
  rewrite (proj2 (N.leb_le _ _)) by (rewrite length_app; lia).
  by rewrite Nat2N.id, drop_app_length.
Qed.

(** Round trip through both programs: the bytes the server's encoder
    writes for a response with a body are read by the client as exactly one
    response, for any status, body and following bytes, unless a user field
    spans lines or passes for a content length; no byte of what follows is
    consumed, and nothing panics. *)
Theorem client_reads_one_response r ka out rest st
    (Hsize : Response_ok_size r) (Htame : tame r = true)
    (Hbody : (N.of_nat (length (body_bytes r)) <= isize_max)%N)
    (Henc : encode r ka true [] = Ret out) :
  send_and_read (Ok tt) (Ok tt) (mkReader (out ++ rest) st) = Ret (Ok tt, mkReader rest st).
Proof.
  rewrite encode_spec in Henc by done. injection Henc as <-. cbn [Datatypes.app].
  rewrite <-app_assoc. by apply send_and_read_response.
Qed.

(** ** The load generator and a server session *)

(** [n] requests on one connection, all answered. *)
Fixpoint reads (n : nat) (r : Reader) : outcome (result unit IoError * Reader) :=
  match n with
  | 0 => Ret (Ok tt, r)
  | S n =>
    '(x, r) ← send_and_read (Ok tt) (Ok tt) r;
    match x with Err e => Ret (Err e, r) | Ok _ => reads n r end
  end.

(** The request a worker sends, as the server parses it. *)
Definition loadgen_req (target : bytes) : Request :=
  mkRequest Get (B "/") Http11 (mkHeaders [(B "Host", target); (B "Connection", B "keep-alive")]) [].

Definition plain_target (target : bytes) : bool :=
  no_cr target && utf8_valid target && bool_decide (trim target = target) && (length target <=? 1000).

Lemma loadgen_request_render target : render_request (B "GET") (loadgen_req target) = loadgen_request target.
Proof.
  unfold render_request, loadgen_request, render_fields, render_field. cbn [loadgen_req req_headers inner
    fmap list_fmap concat fst snd req_body]. rewrite !app_nil_r, <-!app_assoc. reflexivity.
Qed.

Lemma loadgen_printable target :
  plain_target target = true -> printable (B "GET") (loadgen_req target) = true.
Proof.
  unfold plain_target. rewrite !andb_true_iff, bool_decide_eq_true. intros [[[Hcr Hu] Ht] Hl%Nat.leb_le].
  unfold printable. cbn [loadgen_req req_headers inner forallb plain_field].
  rewrite Hcr, Hu, (bool_decide_true (trim target = target)) by done.
  assert (exceeds (length (render_fields [(B "Host", target); (B "Connection", B "keep-alive")]) + 2)
    MAX_HEADER_BYTES = false) as ->.
  { apply exceeds_false. unfold render_fields, render_field. cbn [fmap list_fmap concat fst snd].
    rewrite !length_app. change MAX_HEADER_BYTES with 32768%N. simpl. lia. }
  reflexivity.
Qed.

Section Served.
Context {H : Type} `{Handlers H} (app : App H) (target : bytes).

Lemma loadgen_answer :
  answer app (loadgen_req target) =
    encoded_head (handle app (loadgen_req target)) true ++ body_bytes (handle app (loadgen_req target)).
Proof using Type. reflexivity. Qed.

Lemma reads_answers (cuts : list (list bytes)) :
  Response_ok_size (handle app (loadgen_req target)) -> tame (handle app (loadgen_req target)) = true ->
  (N.of_nat (length (body_bytes (handle app (loadgen_req target)))) <= isize_max)%N ->
  reads (length cuts)
    (mkReader (concat ((fun _ => answer app (loadgen_req target)) <$> cuts)) None) =
    Ret (Ok tt, mkReader [] None).
Proof using Type.
  intros Hs Ht Hb. induction cuts as [|c cuts IH]; [done|].
  cbn [length reads fmap list_fmap concat]. rewrite loadgen_answer at 1. rewrite <-app_assoc.
  rewrite send_and_read_response by done. exact IH.
Qed.

(** C39. End to end: the requests of a load-generator connection, each
    reaching the server cut into reads in any way, are all parsed and
    answered, and the client reads exactly one response for each, without an
    error, and is left with no byte over. *)
Theorem loadgen_served cuts
    (Htarget : plain_target target = true) (Hfits : fits app)
    (Hcuts : Forall (fun cs => concat cs = loadgen_request target /\ Forall (fun b => b <> []) cs) cuts)
    (Htame : tame (handle app (loadgen_req target)) = true)
    (Hbody : (N.of_nat (length (body_bytes (handle app (loadgen_req target)))) <= isize_max)%N) :
  reads (length cuts) (mkReader (session app [] (concat cuts)) None) = Ret (Ok tt, mkReader [] None).
Proof using Type.
  set (xs := (fun cs => mkSending (B "GET") (loadgen_req target) cs) <$> cuts).
  assert (Forall sending_ok xs) as Hxs.
  { apply Forall_fmap. eapply Forall_impl; [exact Hcuts|]. intros cs [Hc Hne].
    split_and!; [by apply loadgen_printable|done|by cbn [sent_request tok chunks]; rewrite Hc, loadgen_request_render|done|done]. }
  assert (cuts = chunks <$> xs) as Hchunks.
  { unfold xs. rewrite <-list_fmap_compose. symmetry. apply list_fmap_id. }
  rewrite Hchunks at 2. rewrite session_all by done. unfold xs. rewrite <-list_fmap_compose.
  exact (reads_answers cuts (Hfits _) Htame Hbody).
Qed.
End Served.

Lemma client_reads_one_response_witness :
  exists out, encode (Response_text NOT_FOUND (B "404 Not Found")) true true [] = Ret out /\
    send_and_read (Ok tt) (Ok tt) (mkReader (out ++ B "HTTP") None) = Ret (Ok tt, mkReader (B "HTTP") None).
Proof.
  eexists. split; [vm_compute; reflexivity|].
  assert (Response_ok_size (Response_text NOT_FOUND (B "404 Not Found"))) as Hs by (split; by vm_compute).
  apply (client_reads_one_response (Response_text NOT_FOUND (B "404 Not Found")) true _ _ _ Hs);
    [by vm_compute|by vm_compute|vm_compute; reflexivity].
Defined.

Definition sample_target : bytes := B "127.0.0.1:8080".

(** The request in one read and in two. *)
Definition sample_cuts : list (list bytes) :=
  [[loadgen_request sample_target];
   [take 10 (loadgen_request sample_target); drop 10 (loadgen_request sample_target)]].

Lemma loadgen_served_witness :
  reads 2 (mkReader (session sample_app [] (concat sample_cuts)) None) = Ret (Ok tt, mkReader [] None).
Proof.
  apply (loadgen_served sample_app sample_target sample_cuts).
  - by vm_compute.
  - exact sample_app_fits.
  - apply Forall_cons_2; [|apply Forall_cons_2; [|apply Forall_nil_2]]; (split; [by vm_compute|]).
    + apply Forall_cons_2; [by vm_compute|apply Forall_nil_2].
    + apply Forall_cons_2; [by vm_compute|]. apply Forall_cons_2; [by vm_compute|apply Forall_nil_2].
  - by vm_compute.
  - by vm_compute.
Defined.
