(* ===== verification/LoadQueue.v ===== *)
(** * The load generator's queue and threads

    loadgen/src/main.rs: [Queue], [worker], and [run] from the spawning of the
    workers on, with the scheduler, the joins and the merge.  A step is one
    operation on what the threads share; a critical section is one step, since
    its mutex excludes the others, and a notification, which comes after it, is
    another.  [step] is executable. *)

From S2P Require Import Prelude RustStr Http Response Syscall.

(** ** The state *)

(** Instants are nanoseconds. *)
Definition Instant : Type := N.

(** A worker before [try_clone]; in [pop], before its critical section and
    waiting; in [send_and_read]; returned; panicked.  It is draining once it
    counts what it pops as errors. *)
Inductive WPc :=
  | Cloning
  | Popping (draining : bool)
  | Waiting (draining : bool)
  | Exchanging (scheduled : Instant)
  | Finished
  | Panicked (scheduled : Instant).

(** [WorkerResult], the histogram being the values recorded. *)
Record Worker := mkWorker { w_pc : WPc; w_hist : list N; w_ok : N; w_errors : N }.

(** [run]: in the scheduler's loop, between [push]'s two parts, between
    [close]'s, joining, and past the joins, with the totals or by a panic. *)
Inductive SPc :=
  | Scheduling (rest : list Instant)
  | Notifying (rest : list Instant)
  | Closing
  | Joining (i : nat) (hist : list N) (ok errors : N)
  | Summary (hist : list N) (ok errors : N)
  | RunPanicked.

Record Load := mkLoad {
  pending : list Instant;
  scheduling_done : bool;
  spc : SPc;
  load_workers : list Worker;
  (* what was popped, in order; of it, what was answered and when, and what
     was counted as an error *)
  popped : list Instant;
  sent_ok : list (Instant * Instant);
  failed : list Instant;
}.

Inductive Label :=
  | SPush
  (* [notify_one] wakes one waiting worker, if there is one *)
  | SNotify (woken : option nat)
  | SClose
  | SNotifyAll
  | SJoin
  | WClone (i : nat) (ok : bool)
  | WPop (i : nat)
  (* [send_and_read], at an instant; [None] when it panics *)
  | WExchange (i : nat) (now : Instant) (r : option (result unit IoError))
  | Spurious (i : nat).

(** [targets]: the instants before [end] at the cadence of the rate. *)
Definition Load_new (connections : nat) (targets : list Instant) : Load :=
  mkLoad [] false (Scheduling targets) (replicate connections (mkWorker Cloning [] 0 0)) [] [] [].

Definition set_spc (p : SPc) (s : Load) : Load :=
  mkLoad s.(pending) s.(scheduling_done) p s.(load_workers) s.(popped) s.(sent_ok) s.(failed).
Definition set_worker (i : nat) (w : Worker) (s : Load) : Load :=
  mkLoad s.(pending) s.(scheduling_done) s.(spc) (<[i := w]> s.(load_workers)) s.(popped) s.(sent_ok) s.(failed).
Definition set_pc (p : WPc) (w : Worker) : Worker := mkWorker p w.(w_hist) w.(w_ok) w.(w_errors).

Definition wake (w : Worker) : Worker :=
  match w.(w_pc) with Waiting d => set_pc (Popping d) w | _ => w end.
Definition is_waiting (w : Worker) : bool := match w.(w_pc) with Waiting _ => true | _ => false end.

(** ** [Queue] and [run] *)

Definition scheduler_step (l : Label) (s : Load) : option Load :=
  match l, s.(spc) with
  | SPush, Scheduling (t :: rest) =>
    Some (mkLoad (s.(pending) ++ [t]) s.(scheduling_done) (Notifying rest) s.(load_workers) s.(popped) s.(sent_ok)
      s.(failed))
  | SNotify woken, Notifying rest =>
    match woken with
    | Some i =>
      match s.(load_workers) !! i with
      | Some w => if is_waiting w then Some (set_spc (Scheduling rest) (set_worker i (wake w) s)) else None
      | None => None
      end
    | None => if existsb is_waiting s.(load_workers) then None else Some (set_spc (Scheduling rest) s)
    end
  | SClose, Scheduling [] =>
    Some (mkLoad s.(pending) true Closing s.(load_workers) s.(popped) s.(sent_ok) s.(failed))
  | SNotifyAll, Closing =>
    Some (mkLoad s.(pending) s.(scheduling_done) (Joining 0 [] 0 0) (wake <$> s.(load_workers)) s.(popped)
      s.(sent_ok) s.(failed))
  | SJoin, Joining i hist ok errors =>
    match s.(load_workers) !! i with
    | None => Some (set_spc (Summary hist ok errors) s)
    | Some w =>
      match w.(w_pc) with
      | Finished => Some (set_spc (Joining (S i) (hist ++ w.(w_hist)) (ok + w.(w_ok)) (errors + w.(w_errors))) s)
      | Panicked _ => Some (set_spc RunPanicked s)
      | _ => None
      end
    end
  | _, _ => None
  end.

(** ** [worker] *)

(** [Instant::elapsed], in microseconds as [u64]. *)
Definition elapsed_micros (scheduled now : Instant) : N := ((now - scheduled) / 1000 mod 2 ^ 64)%N.

Definition count_error (w : Worker) : Worker :=
  mkWorker (Popping true) w.(w_hist) w.(w_ok) (w.(w_errors) + 1).

(** The critical section of [pop], and what the caller does with the result. *)
Definition pop (i : nat) (draining : bool) (w : Worker) (s : Load) : Load :=
  match s.(pending) with
  | t :: rest =>
    let s' := mkLoad rest s.(scheduling_done) s.(spc) s.(load_workers) (s.(popped) ++ [t]) s.(sent_ok) in
    if draining then set_worker i (count_error w) (s' (s.(failed) ++ [t]))
    else set_worker i (set_pc (Exchanging t) w) (s' s.(failed))
  | [] =>
    if s.(scheduling_done) then set_worker i (set_pc Finished w) s
    else set_worker i (set_pc (Waiting draining) w) s
  end.

Definition worker_step (l : Label) (i : nat) (w : Worker) (s : Load) : option Load :=
  match l, w.(w_pc) with
  | WClone _ ok, Cloning => Some (set_worker i (set_pc (Popping (negb ok)) w) s)
  | WPop _, Popping draining => Some (pop i draining w s)
  | WExchange _ now r, Exchanging scheduled =>
    match r with
    | Some (Ok _) =>
      Some (set_worker i
        (mkWorker (Popping false) (w.(w_hist) ++ [elapsed_micros scheduled now]) (w.(w_ok) + 1) w.(w_errors))
        (mkLoad s.(pending) s.(scheduling_done) s.(spc) s.(load_workers) s.(popped) (s.(sent_ok) ++ [(scheduled, now)])
          s.(failed)))
    | Some (Err _) =>
      Some (set_worker i (count_error w)
        (mkLoad s.(pending) s.(scheduling_done) s.(spc) s.(load_workers) s.(popped) s.(sent_ok)
          (s.(failed) ++ [scheduled])))
    | None => Some (set_worker i (set_pc (Panicked scheduled) w) s)
    end
  | Spurious _, Waiting _ => Some (set_worker i (wake w) s)
  | _, _ => None
  end.

Definition step (l : Label) (s : Load) : option Load :=
  match l with
  | WClone i _ | WPop i | WExchange i _ _ | Spurious i => w ← s.(load_workers) !! i; worker_step l i w s
  | _ => scheduler_step l s
  end.

Fixpoint steps (ls : list Label) (s : Load) : option Load :=
  match ls with
  | [] => Some s
  | l :: ls => s ← step l s; steps ls s
  end.

(** ** The invariant *)

(** What a worker holds, for good if it panicked. *)
Definition holds (w : Worker) : option Instant :=
  match w.(w_pc) with Exchanging t | Panicked t => Some t | _ => None end.
Definition in_hand (ws : list Worker) : list Instant := omap holds ws.

(** A worker on its way into [pop]. *)
Definition coming (w : Worker) : nat := match w.(w_pc) with Popping _ => 1 | _ => 0 end.
Definition on_the_way (ws : list Worker) : nat := sum_list_with coming ws.

Definition total (f : Worker -> N) (ws : list Worker) : N := foldr (fun w n => f w + n)%N 0%N ws.
Definition recorded (ws : list Worker) : list N := concat (w_hist <$> ws).

(** The instants scheduled and not yet pushed. *)
Definition to_push (p : SPc) : list Instant :=
  match p with Scheduling rest | Notifying rest => rest | _ => [] end.

(** Past [close]'s critical section; past its notification. *)
Definition closed (p : SPc) : bool :=
  match p with Scheduling _ | Notifying _ => false | _ => true end.
Definition all_woken (p : SPc) : bool :=
  match p with Scheduling _ | Notifying _ | Closing => false | _ => true end.

Definition is_finished (w : Worker) : bool := match w.(w_pc) with Finished => true | _ => false end.

(** The first [i] workers were joined, with these totals. *)
Definition joined (i : nat) (hist : list N) (ok errors : N) (ws : list Worker) : Prop :=
  let done := take i ws in
  forallb is_finished done = true /\ hist = recorded done /\ ok = total w_ok done /\ errors = total w_errors done.

Record load_inv (targets : list Instant) (s : Load) : Prop := {
  (* first in, first out, in the order of the schedule *)
  li_fifo : targets = s.(popped) ++ s.(pending) ++ to_push s.(spc);
  (* no wake-up is lost *)
  li_wake : existsb is_waiting s.(load_workers) = true ->
    length s.(pending) <= on_the_way s.(load_workers) + match s.(spc) with Notifying _ => 1 | _ => 0 end;
  li_done : s.(scheduling_done) = closed s.(spc);
  li_awake : all_woken s.(spc) = true -> existsb is_waiting s.(load_workers) = false;
  (* a worker leaves an empty queue *)
  li_finished : existsb is_finished s.(load_workers) = true -> s.(pending) = [] /\ s.(scheduling_done) = true;
  (* every request popped is accounted for once *)
  li_popped : s.(popped) ≡ₚ s.(sent_ok).*1 ++ s.(failed) ++ in_hand s.(load_workers);
  li_ok : total w_ok s.(load_workers) = N.of_nat (length s.(sent_ok));
  li_errors : total w_errors s.(load_workers) = N.of_nat (length s.(failed));
  li_hist : recorded s.(load_workers) ≡ₚ (fun '(scheduled, now) => elapsed_micros scheduled now) <$> s.(sent_ok);
  li_joined :
    match s.(spc) with
    | Joining i hist ok errors => joined i hist ok errors s.(load_workers)
    | Summary hist ok errors => joined (length s.(load_workers)) hist ok errors s.(load_workers)
    | _ => True
    end;
}.
