(* ===== verification/LoadQueueProps.v ===== *)
(** * Properties of the load generator's queue and threads *)

From S2P Require Import Prelude RustStr Http Response Syscall LoadQueue.

(** ** The list of workers, one of them apart *)

Lemma worker_apart (ws : list Worker) i w :
  ws !! i = Some w ->
  exists l1 l2, ws = l1 ++ w :: l2 /\ length l1 = i /\ forall w', <[i := w']> ws = l1 ++ w' :: l2.
Proof.
  intros Hi. assert (i < length ws) as Hlt by by eapply lookup_lt_Some.
  exists (take i ws), (drop (S i) ws). rewrite take_drop_middle by done.
  split_and!; [done|rewrite length_take; lia|]. intros w'. by rewrite insert_take_drop.
Qed.

Lemma total_app f l1 l2 : total f (l1 ++ l2) = (total f l1 + total f l2)%N.
Proof. unfold total. induction l1 as [|w l1 IH]; cbn; [done|]. rewrite IH. lia. Qed.

Lemma total_cons f w l : total f (w :: l) = (f w + total f l)%N.
Proof. done. Qed.

Lemma in_hand_app l1 l2 : in_hand (l1 ++ l2) = in_hand l1 ++ in_hand l2.
Proof. apply omap_app. Qed.

Lemma in_hand_cons w l : in_hand (w :: l) = match holds w with Some t => [t] | None => [] end ++ in_hand l.
Proof. unfold in_hand. cbn. by destruct (holds w). Qed.

Lemma on_the_way_app l1 l2 : on_the_way (l1 ++ l2) = on_the_way l1 + on_the_way l2.
Proof. apply sum_list_with_app. Qed.

Lemma on_the_way_cons w l : on_the_way (w :: l) = coming w + on_the_way l.
Proof. done. Qed.

Lemma recorded_app l1 l2 : recorded (l1 ++ l2) = recorded l1 ++ recorded l2.
Proof. unfold recorded. by rewrite fmap_app, concat_app. Qed.

Lemma recorded_cons w l : recorded (w :: l) = w.(w_hist) ++ recorded l.
Proof. done. Qed.

#[global] Arguments total : simpl never.
#[global] Arguments in_hand : simpl never.
#[global] Arguments on_the_way : simpl never.
#[global] Arguments recorded : simpl never.

Create Rewrite HintDb workers.
#[export] Hint Rewrite total_app total_cons in_hand_app in_hand_cons on_the_way_app on_the_way_cons
  recorded_app recorded_cons existsb_app length_app : workers.

Ltac workers := autorewrite with workers; cbn [existsb is_waiting is_finished holds coming w_pc w_hist w_ok w_errors
  set_pc wake count_error Datatypes.app length].
Tactic Notation "workers" "in" hyp(H) := autorewrite with workers in H; cbn [existsb is_waiting is_finished holds
  coming w_pc w_hist w_ok w_errors set_pc wake count_error Datatypes.app length] in H.

(** Waking changes nothing but who is waiting. *)
Lemma wake_all ws :
  in_hand (wake <$> ws) = in_hand ws /\ total w_ok (wake <$> ws) = total w_ok ws /\
  total w_errors (wake <$> ws) = total w_errors ws /\ recorded (wake <$> ws) = recorded ws /\
  existsb is_waiting (wake <$> ws) = false /\ existsb is_finished (wake <$> ws) = existsb is_finished ws.
Proof.
  induction ws as [|[p h o e] ws (IH1 & IH2 & IH3 & IH4 & IH5 & IH6)]; [done|].
  rewrite fmap_cons. destruct p; workers; rewrite ?IH1, ?IH2, ?IH3, ?IH4, ?IH5, ?IH6; done.
Qed.

Section Inv.
Context (targets : list Instant).

Lemma load_new_inv n : load_inv targets (Load_new n targets).
Proof.
  assert (forall ws, ws = replicate n (mkWorker Cloning [] 0 0) ->
    existsb is_waiting ws = false /\ existsb is_finished ws = false /\ in_hand ws = [] /\
    total w_ok ws = 0%N /\ total w_errors ws = 0%N /\ recorded ws = []) as Hn.
  { intros ws ->. induction n as [|n (IH1 & IH2 & IH3 & IH4 & IH5 & IH6)]; [done|]. cbn [replicate]. workers.
    by rewrite IH1, IH2, IH3, IH4, IH5, IH6. }
  destruct (Hn _ eq_refl) as (H1 & H2 & H3 & H4 & H5 & H6).
  split; cbn [Load_new popped pending spc load_workers sent_ok failed scheduling_done to_push all_woken closed];
    rewrite ?H1, ?H2, ?H3, ?H4, ?H5, ?H6; done.
Qed.

(** A worker that was joined has returned. *)
Lemma joined_set i j hist ok errors ws w w' :
  joined i hist ok errors ws -> ws !! j = Some w -> is_finished w = false ->
  joined i hist ok errors (<[j := w']> ws).
Proof.
  intros (Hfin & Hrest) Hw Hnf. unfold joined. assert (i <= j) as Hle.
  { apply Nat.nlt_ge. intros Hlt. rewrite forallb_forall in Hfin. rewrite (Hfin w) in Hnf; [done|].
    apply list_elem_of_In, list_elem_of_lookup. exists j. by rewrite lookup_take_lt. }
  by rewrite take_insert_ge.
Qed.

Lemma joined_inv_set p i w w' ws :
  match p with
  | Joining j hist ok errors => joined j hist ok errors ws
  | Summary hist ok errors => joined (length ws) hist ok errors ws
  | _ => True
  end -> ws !! i = Some w -> is_finished w = false ->
  match p with
  | Joining j hist ok errors => joined j hist ok errors (<[i := w']> ws)
  | Summary hist ok errors => joined (length (<[i := w']> ws)) hist ok errors (<[i := w']> ws)
  | _ => True
  end.
Proof. intros Hj Hw Hnf. rewrite length_insert. destruct p; try done; by eapply joined_set. Qed.

Lemma notify_inv i w rest s :
  load_inv targets s -> s.(spc) = Notifying rest -> s.(load_workers) !! i = Some w -> is_waiting w = true ->
  load_inv targets (set_spc (Scheduling rest) (set_worker i (wake w) s)).
Proof.
  intros [Hf Hw Hd Ha Hfin Hp Hok Herr Hh Hj] Hpc Hi Hwait. rewrite Hpc in *.
  destruct w as [[| |d| | |] h o e]; try done.
  destruct (worker_apart _ _ _ Hi) as (l1 & l2 & Hl & _ & Hset).
  split; cbn [set_spc set_worker popped pending spc load_workers sent_ok failed scheduling_done];
    rewrite ?Hset, ?Hl in *; try done; workers; workers in Hw; workers in Hfin; workers in Hp; workers in Hok;
    workers in Herr; workers in Hh; try done.
  - intros _. rewrite orb_true_r in Hw. specialize (Hw eq_refl). lia.
Qed.

Lemma join_inv i w hist ok errors s :
  load_inv targets s -> s.(spc) = Joining i hist ok errors -> s.(load_workers) !! i = Some w ->
  w.(w_pc) = Finished ->
  load_inv targets (set_spc (Joining (S i) (hist ++ w.(w_hist)) (ok + w.(w_ok)) (errors + w.(w_errors))) s).
Proof.
  intros [Hf Hw Hd Ha Hfin Hp Hok Herr Hh Hj] Hpc Hi Hfw. rewrite Hpc in *. destruct Hj as (Hfi & -> & -> & ->).
  split; cbn [set_spc popped pending spc load_workers sent_ok failed scheduling_done]; try done.
  unfold joined. rewrite (take_S_r _ _ _ Hi), forallb_app, recorded_app, !total_app, Hfi. cbn [forallb].
  unfold is_finished. rewrite Hfw. split_and!; [done|..].
  - rewrite recorded_cons. change (recorded []) with (@nil N). by rewrite app_nil_r.
  - rewrite total_cons. change (total w_ok []) with 0%N. lia.
  - rewrite total_cons. change (total w_errors []) with 0%N. lia.
Qed.

Lemma scheduler_inv l s s' : load_inv targets s -> scheduler_step l s = Some s' -> load_inv targets s'.
Proof.
  intros Hi E. pose proof Hi as [Hf Hw Hd Ha Hfin Hp Hok Herr Hh Hj].
  destruct l as [|woken| | | |j b|j|j now r|j],
    (spc s) as [[|t rest]|rest| |i hist ok errors| |] eqn:Hpc;
    cbn [scheduler_step] in E; rewrite ?Hpc in E; try discriminate E; cbn [to_push closed all_woken] in *.
  - injection E as <-. split; cbn [popped pending spc load_workers sent_ok failed scheduling_done to_push]; try done.
    + by rewrite Hf, <-!app_assoc.
    + intros Hwait. specialize (Hw Hwait). rewrite length_app. cbn. lia.
    + intros Hff. destruct (Hfin Hff). congruence.
  - destruct woken as [i|].
    + destruct (load_workers s !! i) as [w|] eqn:Hw'; [|discriminate E].
      destruct (is_waiting w) eqn:Hwait; [|discriminate E]. injection E as <-. by eapply notify_inv.
    + destruct (existsb is_waiting (load_workers s)) eqn:Hnone; [discriminate E|]. injection E as <-.
      split; cbn [set_spc popped pending spc load_workers sent_ok failed scheduling_done]; try done.
      by rewrite Hnone.
  - injection E as <-. split; cbn [popped pending spc load_workers sent_ok failed scheduling_done]; try done.
    intros Hff. by destruct (Hfin Hff).
  - injection E as <-. destruct (wake_all (load_workers s)) as (H1 & H2 & H3 & H4 & H5 & H6).
    split; cbn [popped pending spc load_workers sent_ok failed scheduling_done]; rewrite ?H1, ?H2, ?H3, ?H4, ?H5, ?H6; done.
  - destruct (load_workers s !! i) as [w|] eqn:Hw'.
    + destruct (w_pc w) eqn:Hwp; try discriminate E; injection E as <-; [by apply join_inv|].
      split; cbn [set_spc popped pending spc load_workers sent_ok failed scheduling_done]; done.
    + injection E as <-. split; cbn [set_spc popped pending spc load_workers sent_ok failed scheduling_done]; try done.
      apply lookup_ge_None in Hw'. unfold joined in *. by rewrite firstn_all, take_ge in *.
Qed.
Lemma all_woken_closed p : all_woken p = true -> closed p = true.
Proof. by destruct p. Qed.

Lemma pop_inv i d w s :
  load_inv targets s -> s.(load_workers) !! i = Some w -> w.(w_pc) = Popping d ->
  load_inv targets (pop i d w s).
Proof.
  intros [Hf Hw Hd Ha Hfin Hp Hok Herr Hh Hj] Hi Hpw.
  destruct w as [p h o e]. cbn [w_pc] in Hpw. subst p.
  destruct (worker_apart _ _ _ Hi) as (l1 & l2 & Hl & _ & Hset).
  pose proof (fun w' => joined_inv_set _ _ _ w' _ Hj Hi eq_refl) as Hjs.
  rewrite Hl in Hw, Ha, Hfin, Hp, Hok, Herr, Hh.
  workers in Hw; workers in Ha; workers in Hfin; workers in Hp; workers in Hok; workers in Herr; workers in Hh.
  unfold pop. destruct (pending s) as [|t rest] eqn:Hpend; [destruct (scheduling_done s) eqn:Hsd|destruct d];
    (split; cbn [set_worker popped pending spc load_workers sent_ok failed scheduling_done];
     try exact (Hjs _); rewrite ?Hset, ?Hpend, ?Hsd; workers; try done).
  1, 2, 5, 10: intros Hwait; try specialize (Hw Hwait); simpl in *; lia.
  1: intros Hwk%all_woken_closed; congruence.
  1, 5: by rewrite Hf, <-!app_assoc.
  1, 4: intros Hff; by destruct (Hfin Hff).
  1, 3: rewrite Hp; solve_Permutation.
  lia.
Qed.

(** A worker that counts what it held and goes back to the queue. *)
Lemma exchange_inv i w t now r s s' :
  load_inv targets s -> s.(load_workers) !! i = Some w -> w.(w_pc) = Exchanging t ->
  worker_step (WExchange i now r) i w s = Some s' -> load_inv targets s'.
Proof.
  intros [Hf Hw Hd Ha Hfin Hp Hok Herr Hh Hj] Hi Hpw E. cbn [worker_step] in E. rewrite Hpw in E.
  destruct w as [p h o e]. cbn [w_pc] in Hpw. subst p.
  destruct (worker_apart _ _ _ Hi) as (l1 & l2 & Hl & _ & Hset).
  pose proof (fun w' => joined_inv_set _ _ _ w' _ Hj Hi eq_refl) as Hjs.
  rewrite Hl in Hw, Ha, Hfin, Hp, Hok, Herr, Hh.
  workers in Hw; workers in Ha; workers in Hfin; workers in Hp; workers in Hok; workers in Herr; workers in Hh.
  destruct r as [[u|err]|]; injection E as <-;
    (split; cbn [set_worker popped pending spc load_workers sent_ok failed scheduling_done];
     try exact (Hjs _); rewrite ?Hset; workers; try done).
  1, 5: intros Hwait; specialize (Hw Hwait); lia.
  - rewrite fmap_app, Hp. cbn. solve_Permutation.
  - lia.
  - rewrite fmap_app. cbn. rewrite <-Hh. solve_Permutation.
  - rewrite Hp. solve_Permutation.
  - lia.
Qed.

Lemma worker_inv l i w s s' :
  load_inv targets s -> s.(load_workers) !! i = Some w -> worker_step l i w s = Some s' -> load_inv targets s'.
Proof.
  intros Hinv Hi E. destruct l as [| | | | |j b|j|j now r|j]; try discriminate E.
  2: { cbn [worker_step] in E. destruct (w_pc w) eqn:Hpw; try discriminate E. injection E as <-. by eapply pop_inv. }
  2: { destruct (w_pc w) eqn:Hpw; cbn [worker_step] in E; rewrite Hpw in E; try discriminate E.
       eapply exchange_inv; [done..|]. cbn [worker_step]. by rewrite Hpw. }
  all: destruct Hinv as [Hf Hw Hd Ha Hfin Hp Hok Herr Hh Hj]; destruct w as [[| |d| | |] h o e]; try discriminate E;
    injection E as <-; destruct (worker_apart _ _ _ Hi) as (l1 & l2 & Hl & _ & Hset);
    pose proof (fun w' => joined_inv_set _ _ _ w' _ Hj Hi eq_refl) as Hjs;
    rewrite Hl in Hw, Ha, Hfin, Hp, Hok, Herr, Hh;
    workers in Hw; workers in Ha; workers in Hfin; workers in Hp; workers in Hok; workers in Herr; workers in Hh;
    (split; cbn [set_worker popped pending spc load_workers sent_ok failed scheduling_done];
     try exact (Hjs _); rewrite ?Hset; workers; try done).
  - intros Hwait. specialize (Hw Hwait). lia.
  - intros Hwait. rewrite orb_true_r in Hw. specialize (Hw eq_refl). lia.
  - intros Hwk. specialize (Ha Hwk). by rewrite orb_true_r in Ha.
Qed.

Lemma load_steps_inv ls s s' : load_inv targets s -> steps ls s = Some s' -> load_inv targets s'.
Proof.
  revert s. induction ls as [|l ls IH]; intros s Hi E; cbn [steps] in E; [by injection E as <-|].
  destruct (step l s) as [s1|] eqn:E1; [|done]. cbn [mbind option_bind] in E. apply (IH s1); [|done].
  destruct l; cbn [step] in E1; try exact (scheduler_inv _ _ _ Hi E1);
    (destruct (load_workers s !! i) as [w|] eqn:Hi'; [|done]; exact (worker_inv _ _ _ _ _ Hi Hi' E1)).
Qed.
End Inv.

(** ** How much is left to do *)

Definition worker_left (w : Worker) : nat :=
  match w.(w_pc) with Cloning => 2 | Popping _ => 1 | Exchanging _ => 3 | _ => 0 end.

(** The steps of [run], of [n] workers, and what they allow the workers. *)
Definition run_left (n : nat) (p : SPc) : nat :=
  match p with
  | Scheduling rest => 6 * length rest + 2 * n + 3
  | Notifying rest => 6 * length rest + 2 * n + 5
  | Closing => 2 * n + 2
  | Joining i _ _ _ => n - i + 1
  | Summary _ _ _ | RunPanicked => 0
  end.

Definition load_left (s : Load) : nat :=
  3 * length s.(pending) + sum_list_with worker_left s.(load_workers) + run_left (length s.(load_workers)) s.(spc).

Definition is_spurious (l : Label) : bool := match l with Spurious _ => true | _ => false end.

Lemma left_set ws i w w' :
  ws !! i = Some w ->
  sum_list_with worker_left (<[i := w']> ws) + worker_left w = sum_list_with worker_left ws + worker_left w'.
Proof.
  intros Hi. destruct (worker_apart _ _ _ Hi) as (l1 & l2 & Hl & _ & Hset). rewrite Hset, Hl, !sum_list_with_app.
  cbn [sum_list_with]. lia.
Qed.

Lemma left_wake ws : sum_list_with worker_left (wake <$> ws) <= sum_list_with worker_left ws + length ws.
Proof.
  induction ws as [|[p h o e] ws IH]; [done|]. rewrite fmap_cons. cbn [sum_list_with length]. destruct p; cbn; lia.
Qed.

(** What is left to the worker changed, from where it was. *)
Ltac left_by Hset Hp :=
  match type of Hset with forall w', _ + worker_left ?w = _ =>
    match goal with |- context [<[_ := ?w']> (load_workers _)] =>
      specialize (Hset w');
      let n := eval cbv in (match w_pc w' with Cloning => 2 | Popping _ => 1 | Exchanging _ => 3 | _ => 0 end) in
      change (worker_left w') with n in Hset
    end;
    unfold worker_left at 2 in Hset; rewrite Hp in Hset; cbv beta iota in Hset
  end.

Lemma load_step_left l s s' :
  step l s = Some s' -> load_left s' <= load_left s + (if is_spurious l then 1 else 0) /\
  (is_spurious l = false -> load_left s' < load_left s).
Proof.
  intros E. unfold load_left. destruct l as [|woken| | | |i b|i|i now r|i]; cbn [step scheduler_step is_spurious] in *.
  6-9: destruct (load_workers s !! i) as [w|] eqn:Hi; [|discriminate E]; cbn [mbind option_bind worker_step] in E;
    pose proof (fun w' => left_set _ _ _ w' Hi) as Hset.
  - destruct (spc s) as [[|t rest]| | | | |]; try discriminate E. injection E as <-. cbn [pending load_workers spc run_left].
    rewrite length_app. cbn [length]. lia.
  - destruct (spc s) as [|rest| | | |]; try discriminate E. destruct woken as [i|].
    + destruct (load_workers s !! i) as [w|] eqn:Hi; [|discriminate E]. destruct (is_waiting w); [|discriminate E].
      injection E as <-. pose proof (left_set _ _ _ (wake w) Hi) as Hset. cbn [set_spc set_worker pending load_workers spc run_left].
      rewrite length_insert. assert (worker_left (wake w) <= worker_left w + 1) by (destruct w as [[] h o e]; cbn; lia). lia.
    + destruct (existsb _ _); [discriminate E|]. injection E as <-. cbn [set_spc pending load_workers spc run_left]. lia.
  - destruct (spc s) as [[|]| | | | |]; try discriminate E. injection E as <-. cbn [pending load_workers spc run_left length]. lia.
  - destruct (spc s); try discriminate E. injection E as <-. cbn [pending load_workers spc run_left].
    rewrite length_fmap. pose proof (left_wake (load_workers s)). lia.
  - destruct (spc s) as [| | |i hist ok errors| |]; try discriminate E.
    destruct (load_workers s !! i) as [w|] eqn:Hi; [apply lookup_lt_Some in Hi|].
    + destruct (w_pc w); try discriminate E; injection E as <-; cbn [set_spc pending load_workers spc run_left]; lia.
    + injection E as <-. apply lookup_ge_None in Hi. cbn [set_spc pending load_workers spc run_left]. lia.
  - destruct (w_pc w) eqn:Hp; try discriminate E. injection E as <-. cbn [set_worker pending load_workers spc].
    rewrite length_insert. left_by Hset Hp. lia.
  - destruct (w_pc w) eqn:Hp; try discriminate E. injection E as <-.
    unfold pop. destruct (pending s) as [|t rest] eqn:Hpend; [destruct (scheduling_done s)|destruct draining];
      cbn [set_worker pending load_workers spc length]; rewrite length_insert, ?Hpend; cbn [length];
      left_by Hset Hp; lia.
  - destruct (w_pc w) eqn:Hp; try discriminate E.
    destruct r as [[u|err]|]; injection E as <-; cbn [set_worker pending load_workers spc]; rewrite length_insert;
      left_by Hset Hp; lia.
  - destruct (w_pc w) eqn:Hp; try discriminate E. injection E as <-. cbn [set_worker pending load_workers spc].
    rewrite length_insert. specialize (Hset (wake w)). assert (worker_left w = 0) by (unfold worker_left; by rewrite Hp).
    assert (worker_left (wake w) = 1) by (unfold wake; by rewrite Hp). split; [lia|done].
Qed.

Lemma load_steps_left ls s s' :
  steps ls s = Some s' ->
  length (List.filter (fun l => negb (is_spurious l)) ls) + load_left s' <=
  load_left s + length (List.filter is_spurious ls).
Proof.
  revert s. induction ls as [|l ls IH]; intros s E; cbn [steps] in E; [injection E as <-; cbn; lia|].
  destruct (step l s) as [s1|] eqn:E1; [|done]. cbn [mbind option_bind] in E. specialize (IH s1 E).
  destruct (load_step_left _ _ _ E1) as [H1 H2]. cbn [List.filter].
  destruct (is_spurious l); cbn [negb length]; [lia|]. specialize (H2 eq_refl). lia.
Qed.

Lemma load_workers_length ls s s' :
  steps ls s = Some s' -> length s'.(load_workers) = length s.(load_workers).
Proof.
  revert s. induction ls as [|l ls IH]; intros s E; cbn [steps] in E; [by injection E as <-|].
  destruct (step l s) as [s1|] eqn:E1; [|done]. cbn [mbind option_bind] in E. rewrite (IH s1 E).
  clear -E1. destruct l; cbn [step scheduler_step] in E1.
  6-9: destruct (load_workers s !! i) as [w|]; [|discriminate E1]; cbn [mbind option_bind worker_step] in E1.
  all: try unfold pop in E1; repeat (case_match; try discriminate E1); injection E1 as <-; cbn;
    by rewrite ?length_insert, ?length_fmap.
Qed.

Lemma total_finished ws :
  forallb is_finished ws = true -> in_hand ws = [] /\ (0 < length ws -> existsb is_finished ws = true).
Proof.
  intros Hf. split.
  - induction ws as [|[p h o e] ws IH]; [done|]. cbn [forallb] in Hf. apply andb_true_iff in Hf as [Hp Hf].
    workers. by destruct p; try discriminate Hp; apply IH.
  - destruct ws as [|w ws]; cbn; [lia|]. intros _. cbn [forallb] in Hf. by apply andb_true_iff in Hf as [-> _].
Qed.

Lemma waiting_at ws : existsb is_waiting ws = true -> exists i w, ws !! i = Some w /\ is_waiting w = true.
Proof.
  intros He. apply existsb_exists in He as (w & Hin & Hw). apply list_elem_of_In, list_elem_of_lookup in Hin as [i Hi].
  by exists i, w.
Qed.

Lemma load_can_step targets s :
  load_inv targets s ->
  match s.(spc) with
  | Summary _ _ _ | RunPanicked => True
  | _ => exists l, is_spurious l = false /\ is_Some (step l s)
  end.
Proof.
  intros Hi. destruct (spc s) as [[|t rest]|rest| |i hist ok errors| |] eqn:Hpc; try done.
  - exists SClose. cbn. rewrite Hpc. by split.
  - exists SPush. cbn. rewrite Hpc. by split.
  - destruct (existsb is_waiting (load_workers s)) eqn:Hw.
    + destruct (waiting_at _ Hw) as (i & w & Hl & Hwt). exists (SNotify (Some i)). cbn. rewrite Hpc, Hl, Hwt. by split.
    + exists (SNotify None). cbn. rewrite Hpc, Hw. by split.
  - exists SNotifyAll. cbn. rewrite Hpc. by split.
  - destruct (load_workers s !! i) as [w|] eqn:Hl.
    + destruct (w_pc w) eqn:Hp.
      * exists (WClone i true). cbn. rewrite Hl. cbn. rewrite Hp. by split.
      * exists (WPop i). cbn. rewrite Hl. cbn. rewrite Hp. by split.
      * assert (existsb is_waiting (load_workers s) = false) as Hn by (apply (li_awake _ _ Hi); by rewrite Hpc).
        exfalso. apply not_true_iff_false in Hn. apply Hn, existsb_exists. exists w.
        split; [apply list_elem_of_In, list_elem_of_lookup; by exists i|]. unfold is_waiting. by rewrite Hp.
      * exists (WExchange i 0%N (Some (Ok tt))). cbn. rewrite Hl. cbn. rewrite Hp. by split.
      * exists SJoin. cbn. rewrite Hpc, Hl, Hp. by split.
      * exists SJoin. cbn. rewrite Hpc, Hl, Hp. by split.
    + exists SJoin. cbn. rewrite Hpc, Hl. by split.
Qed.

Lemma load_left_new n targets : load_left (Load_new n targets) = 4 * n + 6 * length targets + 3.
Proof.
  unfold load_left. cbn [Load_new pending load_workers spc run_left length]. rewrite length_replicate.
  assert (sum_list_with worker_left (replicate n (mkWorker Cloning [] 0 0)) = 2 * n) as ->; [|lia].
  induction n as [|n IH]; [done|]. cbn [replicate sum_list_with]. rewrite IH. cbn. lia.
Qed.

Definition latencies (answered : list (Instant * Instant)) : list N :=
  (fun '(scheduled, now) => elapsed_micros scheduled now) <$> answered.

(** What the totals are once the workers are joined. *)
Lemma summary_exact targets connections ls s hist ok errors :
  steps ls (Load_new connections targets) = Some s -> s.(spc) = Summary hist ok errors ->
  ok = N.of_nat (length s.(sent_ok)) /\ errors = N.of_nat (length s.(failed)) /\
  hist ≡ₚ latencies s.(sent_ok) /\
  (0 < connections -> targets ≡ₚ s.(sent_ok).*1 ++ s.(failed) /\ (ok + errors = N.of_nat (length targets))%N).
Proof.
  intros Hs Hpc. pose proof (load_steps_inv targets ls _ s (load_new_inv targets connections) Hs) as Hi.
  pose proof Hi as [Hf _ _ _ Hfin Hp Hok Herr Hh Hj]. rewrite Hpc in Hj, Hf.
  unfold joined in Hj. rewrite firstn_all in Hj. destruct Hj as (Hall & -> & -> & ->). split_and!; try done.
  intros Hc. destruct (total_finished _ Hall) as [Hhand Hex].
  assert (length (load_workers s) = connections) as Hlen.
  { rewrite (load_workers_length _ _ _ Hs). cbn. by rewrite length_replicate. }
  destruct Hfin as [Hpend _]; [apply Hex; lia|]. rewrite Hpend in Hf. cbn in Hf. rewrite app_nil_r in Hf.
  rewrite Hhand, app_nil_r in Hp. rewrite Hf. split; [done|]. rewrite Hok, Herr, Hp, length_app, length_fmap. lia.
Qed.

(** ** The theorems *)

Section Theorems.
Context (connections : nat) (targets : list Instant).

(** No request is omitted, under every interleaving of the scheduler and the
    workers: they are popped in the order of the schedule, each is pending, in
    one worker's hands, answered or counted as an error, exactly once; each
    latency recorded is the time from the scheduled instant, not from the
    sending, to the answer; and the summary adds up: [ok] and [errors] together
    are the number of requests scheduled. *)
Theorem load_counts_every_request ls s (Hs : steps ls (Load_new connections targets) = Some s) :
  targets = s.(popped) ++ s.(pending) ++ to_push s.(spc) /\
  s.(popped) ≡ₚ s.(sent_ok).*1 ++ s.(failed) ++ in_hand s.(load_workers) /\
  recorded s.(load_workers) ≡ₚ latencies s.(sent_ok) /\
  match s.(spc) with
  | Summary hist ok errors =>
    ok = N.of_nat (length s.(sent_ok)) /\ errors = N.of_nat (length s.(failed)) /\
    hist ≡ₚ latencies s.(sent_ok) /\
    (0 < connections -> targets ≡ₚ s.(sent_ok).*1 ++ s.(failed) /\ (ok + errors = N.of_nat (length targets))%N)
  | _ => True
  end.
Proof.
  pose proof (load_steps_inv targets ls _ s (load_new_inv targets connections) Hs) as Hi.
  split_and!; try apply Hi. destruct (spc s) as [| | | |hist ok errors|] eqn:Hpc; try done.
  by apply (summary_exact _ _ ls).
Qed.

(** C28. Termination: whatever the schedule, a run has a bounded number of steps
    besides spurious wake-ups, it never deadlocks before the summary, and no
    wake-up is lost: while a worker waits, every pending request has a worker
    on its way to it or a notification about to be sent. *)
Theorem load_terminates ls s (Hs : steps ls (Load_new connections targets) = Some s) :
  length (List.filter (fun l => negb (is_spurious l)) ls) <=
    4 * connections + 6 * length targets + 3 + length (List.filter is_spurious ls) /\
  (existsb is_waiting s.(load_workers) = true ->
    length s.(pending) <= on_the_way s.(load_workers) + match s.(spc) with Notifying _ => 1 | _ => 0 end) /\
  match s.(spc) with
  | Summary _ _ _ | RunPanicked => True
  | _ => exists l, is_spurious l = false /\ is_Some (step l s)
  end.
Proof.
  pose proof (load_steps_inv targets ls _ s (load_new_inv targets connections) Hs) as Hi. split_and!.
  - pose proof (load_steps_left _ _ _ Hs) as Hl.
    rewrite load_left_new in Hl. lia.
  - apply (li_wake _ _ Hi).
  - by eapply load_can_step.
Qed.
End Theorems.

(** ** A run: two connections, three requests, one connection breaks *)

Definition load_targets : list Instant := [0; 1000000; 2000000]%N.

Definition load_run : list Label :=
  [WClone 0 true; WClone 1 true; WPop 0; SPush; SNotify (Some 0); WPop 0; WPop 1; SPush; SNotify (Some 1); WPop 1;
   WExchange 1 3000000%N (Some (Ok tt)); SPush; SNotify None; WPop 1; WExchange 1 9000000%N (Some (Err (Os 104%Z)));
   WExchange 0 5000000%N (Some (Ok tt)); SClose; WPop 0; SNotifyAll; SJoin; WPop 1; SJoin; SJoin].

Definition load_summary (s : Load) : option (list N * N * N) :=
  match s.(spc) with Summary hist ok errors => Some (hist, ok, errors) | _ => None end.

Lemma load_counts_every_request_witness :
  exists s, steps load_run (Load_new 2 load_targets) = Some s /\
    load_summary s = Some ([5000; 2000], 2, 1)%N /\ s.(sent_ok) = [(1000000, 3000000); (0, 5000000)]%N /\
    load_targets ≡ₚ s.(sent_ok).*1 ++ s.(failed).
Proof.
  pose proof (load_counts_every_request 2 load_targets load_run) as Hall.
  destruct (steps load_run (Load_new 2 load_targets)) as [s|] eqn:E; [|vm_compute in E; discriminate E].
  exists s. split; [reflexivity|]. destruct (Hall s eq_refl) as (_ & _ & _ & Hsum).
  assert (load_summary s = Some ([5000; 2000], 2, 1)%N /\ s.(sent_ok) = [(1000000, 3000000); (0, 5000000)]%N)
    as [Hs1 Hs2] by (vm_compute in E; injection E as <-; split; reflexivity).
  split; [exact Hs1|]. split; [exact Hs2|]. unfold load_summary in Hs1.
  destruct (spc s) as [| | | |hist ok errors|]; try discriminate Hs1.
  destruct Hsum as (_ & _ & _ & Hc). destruct Hc as [Hc _]; [lia|exact Hc].
Defined.

Lemma load_terminates_witness :
  exists s, steps load_run (Load_new 2 load_targets) = Some s /\
    length (List.filter (fun l => negb (is_spurious l)) load_run) <= 29 /\ load_summary s <> None.
Proof.
  pose proof (load_terminates 2 load_targets load_run) as Hall.
  destruct (steps load_run (Load_new 2 load_targets)) as [s|] eqn:E; [|vm_compute in E; discriminate E].
  exists s. split; [reflexivity|]. destruct (Hall s eq_refl) as (Hl & _ & _).
  split; [exact Hl|]. vm_compute in E. injection E as <-. discriminate.
Defined.
