(* ===== verification/F64.v ===== *)
(** * [f64] and [Duration]

    The part of Rust's [std] the load generator computes its schedule with:
    binary64 arithmetic, rounding to nearest, and [std::time::Duration], which
    is a number of nanoseconds.  The floats are [SpecFloat]'s; the lemmas bound
    the relative error of an operation by 2^-52, in rationals. *)

From S2P Require Import Prelude.
From Stdlib Require Import ZArith QArith Qabs Qpower Lqa SpecFloat.
Local Open Scope Z_scope.

(** ** [f64] *)

Definition f64 : Type := spec_float.

(** [n as f64] *)
Definition f64_of (n : N) : f64 := binary_normalize 53 1024 (Z.of_N n) 0 false.
Definition f64_mul : f64 -> f64 -> f64 := SFmul 53 1024.
Definition f64_div : f64 -> f64 -> f64 := SFdiv 53 1024.
Definition f64_add : f64 -> f64 -> f64 := SFadd 53 1024.

(** ** [Duration] *)

(** Nanoseconds; [Duration::MAX] is u64::MAX seconds and 999999999 of them. *)
Definition Duration : Type := N.
Definition NANOS : N := 1000000000.

Definition from_secs (n : N) : Duration := (n * NANOS)%N.

Definition as_secs_f64 (d : Duration) : f64 :=
  f64_add (f64_of (d / NANOS)) (f64_div (f64_of (d mod NANOS)) (f64_of NANOS)).

(** [n / 2^k], to nearest, ties to even. *)
Definition round_even (n k : Z) : Z :=
  let q := n / 2 ^ k in
  match (2 * (n mod 2 ^ k) ?= 2 ^ k) with
  | Lt => q
  | Gt => q + 1
  | Eq => if Z.even q then q else q + 1
  end.

(** [Duration::from_secs_f64] panics on what is negative, not finite or past
    [u64] seconds. *)
Definition from_secs_f64 (x : f64) : outcome Duration :=
  match x with
  | S754_zero _ => Ret 0%N
  | S754_finite false m e =>
    if (if 0 <=? e then Zpos m * 2 ^ e else Zpos m / 2 ^ (- e)) <? 2 ^ 64
    then Ret (Z.to_N (if 0 <=? e then Zpos m * 2 ^ e * 1000000000
      else round_even (Zpos m * 1000000000) (- e)))
    else Panic
  | _ => Panic
  end.

(** [Duration::mul_f64] *)
Definition mul_f64 (d : Duration) (x : f64) : outcome Duration := from_secs_f64 (f64_mul x (as_secs_f64 d)).

(** ** Rounding *)

Lemma digits2_log2 p : Zpos (digits2_pos p) = Z.log2 (Zpos p) + 1.
Proof.
  induction p as [p IH|p IH|]; cbn [digits2_pos]; [| |done]; rewrite Pos2Z.inj_succ, IH.
  - replace (Zpos p~1) with (2 * Zpos p + 1) by lia. rewrite Z.log2_succ_double by lia. lia.
  - replace (Zpos p~0) with (2 * Zpos p) by lia. rewrite Z.log2_double by lia. lia.
Qed.

Lemma Zdigits2_log2 m : 0 < m -> Zdigits2 m = Z.log2 m + 1.
Proof. destruct m as [|p|p]; [lia| |lia]. intros _. apply digits2_log2. Qed.

Lemma shr_1_half r : 0 <= shr_m r -> shr_m (shr_1 r) = shr_m r / 2.
Proof.
  destruct r as [[|[p|p|]|p] r s]; cbn [shr_m shr_1]; intros H; rewrite <-?Z.div2_div; by try lia.
Qed.

Lemma iter_shr p r : 0 <= shr_m r -> shr_m (iter_pos shr_1 p r) = shr_m r / 2 ^ Zpos p.
Proof.
  assert (forall x j k, 0 <= j -> 0 <= k -> x / 2 ^ j / 2 ^ k = x / 2 ^ (j + k)) as Hdd.
  { intros x j k Hj Hk. rewrite Z.pow_add_r by done.
    apply Z.div_div; [apply Z.pow_nonzero|apply Z.pow_pos_nonneg]; lia. }
  assert (forall x k, 0 <= x -> 0 <= k -> 0 <= x / 2 ^ k) as Hp.
  { intros x k Hx Hk. apply Z.div_pos; [done|apply Z.pow_pos_nonneg; lia]. }
  revert r. induction p as [p IH|p IH|]; intros r H; cbn [iter_pos]; [| |by rewrite shr_1_half].
  - assert (shr_m (shr_1 r) = shr_m r / 2 ^ 1) as H1 by by rewrite shr_1_half.
    assert (0 <= shr_m (shr_1 r)) by (rewrite H1; apply Hp; lia).
    rewrite IH by (rewrite IH by done; apply Hp; lia). rewrite IH by done.
    rewrite H1, !Hdd by lia. do 2 f_equal. lia.
  - rewrite IH by (rewrite IH by done; apply Hp; lia). rewrite IH by done.
    rewrite !Hdd by lia. do 2 f_equal. lia.
Qed.

Lemma shr_quotient m e l n r e' :
  0 <= m -> 0 <= n -> shr (shr_record_of_loc m l) e n = (r, e') -> shr_m r = m / 2 ^ n /\ e' = e + n.
Proof.
  intros Hm Hn. assert (shr_m (shr_record_of_loc m l) = m) as Hl by by destruct l as [|[]].
  destruct n as [|p|p]; cbn [shr]; intros E; [| |lia]; injection E as <- <-.
  - rewrite Hl, Z.div_1_r. split; [done|lia].
  - rewrite iter_shr by (by rewrite Hl). by rewrite Hl.
Qed.

Lemma round_up_by mx lx : round_nearest_even mx lx = mx \/ round_nearest_even mx lx = mx + 1.
Proof. destruct lx as [|[]]; cbn; [by left|destruct (Z.even mx)| |]; by (left + right). Qed.

Lemma shr_fexp_le m e l :
  0 < m -> Z.max (Z.log2 m + 1 + e - 53) (-1074) <= e -> shr_fexp 53 1024 m e l = (shr_record_of_loc m l, e).
Proof.
  intros Hm He. unfold shr_fexp. rewrite Zdigits2_log2 by done. unfold fexp, emin.
  destruct (Z.max (Z.log2 m + 1 + e - 53) (3 - 1024 - 53) - e) as [|p|p] eqn:E; [done|lia|done].
Qed.

(** A mantissa of 53 bits stays. *)
Lemma round_exact m e :
  Zpos m < 2 ^ 53 -> -1074 <= e <= 971 -> binary_round_aux 53 1024 false (Zpos m) e loc_Exact = S754_finite false m e.
Proof.
  intros Hm He. assert (Z.log2 (Zpos m) < 53) by (apply Z.log2_lt_pow2; lia).
  unfold binary_round_aux. rewrite shr_fexp_le by lia. cbn [shr_record_of_loc shr_m loc_of_shr_record round_nearest_even].
  rewrite shr_fexp_le by lia. cbn [shr_record_of_loc shr_m]. by rewrite (proj2 (Z.leb_le _ _)) by lia.
Qed.

(** A longer one is rounded to 53 bits, down or up by less than the last of
    them, also when it stood for something between it and the next. *)
Lemma round_near m e l :
  2 ^ 52 <= m -> -1021 <= Z.log2 m + e <= 1000 ->
  exists m' e', binary_round_aux 53 1024 false m e l = S754_finite false m' e' /\
    2 ^ 52 <= Zpos m' < 2 ^ 53 /\ e <= e' /\ Z.log2 m - 52 <= e' - e <= Z.log2 m - 51 /\
    (Zpos m' - 1) * 2 ^ (e' - e) <= m < (Zpos m' + 1) * 2 ^ (e' - e).
Proof.
  intros Hm He. assert (52 <= Z.log2 m) as Hl by (change 52 with (Z.log2 (2 ^ 52)); by apply Z.log2_le_mono).
  set (n := Z.log2 m - 52). assert (0 < 2 ^ n) as Hn by (apply Z.pow_pos_nonneg; lia).
  destruct (Z.log2_spec m ltac:(lia)) as [Hlo Hhi].
  assert (2 ^ 52 <= m / 2 ^ n < 2 ^ 53) as Hq.
  { split; [apply Z.div_le_lower_bound|apply Z.div_lt_upper_bound]; try done; rewrite <-Z.pow_add_r by lia.
    - by replace (n + 52) with (Z.log2 m) by lia.
    - by replace (n + 53) with (Z.succ (Z.log2 m)) by lia. }
  pose proof (Z.mul_div_le m (2 ^ n) Hn) as H1. pose proof (Z.mul_succ_div_gt m (2 ^ n) Hn) as H2.
  unfold binary_round_aux, shr_fexp at 1. rewrite Zdigits2_log2 by lia. unfold fexp at 1, emin.
  replace (Z.max _ _ - e) with n by lia.
  destruct (shr (shr_record_of_loc m l) e n) as [r e1] eqn:Hr.
  apply shr_quotient in Hr as [Hr ->]; [|lia..]. rewrite Hr. set (q := m / 2 ^ n) in *.
  destruct (round_up_by q (loc_of_shr_record r)) as [-> | ->].
  - assert (Z.log2 q < 53) by (apply Z.log2_lt_pow2; lia).
    rewrite shr_fexp_le by lia. cbn [shr_record_of_loc shr_m].
    destruct q as [|p|p] eqn:Hp; [lia| |lia]. rewrite (proj2 (Z.leb_le _ _)) by lia.
    exists p, (e + n). replace (e + n - e) with n by lia. split_and!; try done; try lia; nia.
  - destruct (Z.eq_dec q (2 ^ 53 - 1)) as [Hq'|Hq'].
    + rewrite Hq'. replace (2 ^ 53 - 1 + 1) with (Zpos (2 ^ 53)) by lia.
      unfold shr_fexp. rewrite Zdigits2_log2 by done. unfold fexp, emin.
      replace (Z.max _ _ - (e + n)) with 1 by (change (Z.log2 (Zpos (2 ^ 53))) with 53; lia).
      change (shr (shr_record_of_loc (Zpos (2 ^ 53)) loc_Exact) (e + n) 1)
        with (Build_shr_record (Zpos (2 ^ 52)) false false, e + n + 1). cbn [shr_m].
      rewrite (proj2 (Z.leb_le _ _)) by lia.
      exists (2 ^ 52)%positive, (e + n + 1). replace (e + n + 1 - e) with (n + 1) by lia.
      rewrite Z.pow_add_r by lia. rewrite Hq' in *. split_and!; try done; try lia; nia.
    + assert (Z.log2 (q + 1) < 53) by (apply Z.log2_lt_pow2; lia).
      rewrite shr_fexp_le by lia. cbn [shr_record_of_loc shr_m].
      destruct (q + 1) as [|p|p] eqn:Hp; [lia| |lia]. rewrite (proj2 (Z.leb_le _ _)) by lia.
      exists p, (e + n). replace (e + n - e) with n by lia. split_and!; try done; try lia; nia.
Qed.

(** ** Relative errors *)

Local Open Scope Q_scope.

Definition val (m : positive) (e : Z) : Q := inject_Z (Zpos m) * (2#1) ^ e.

(** 2^-52. *)
Definition eps : Q := 1 # 4503599627370496.

(** A normal number: [m 2^e], the mantissa having all its bits. *)
Definition normal (x : f64) (m : positive) (e : Z) : Prop :=
  x = S754_finite false m e /\ (2 ^ 52 <= Zpos m < 2 ^ 53)%Z.

Lemma pow2_pos e : 0 < (2#1) ^ e.
Proof. by apply Qpower_0_lt. Qed.

Lemma val_pos m e : 0 < val m e.
Proof. apply Qmult_lt_0_compat; [by rewrite <-(Zlt_Qlt 0)|apply pow2_pos]. Qed.

Lemma pow2_add a b : (2#1) ^ (a + b) == (2#1) ^ a * (2#1) ^ b.
Proof. by apply Qpower_plus. Qed.

Lemma pow2_Z n : (0 <= n)%Z -> (2#1) ^ n == inject_Z (2 ^ n).
Proof. intros H. rewrite Zpower_Qpower by done. done. Qed.

(** [b 2^e], for what an integer [b] of units in the last place is. *)
Lemma scale_le a b d e : (0 <= d)%Z -> (a * 2 ^ d <= b)%Z -> inject_Z a * (2#1) ^ (e + d) <= inject_Z b * (2#1) ^ e.
Proof.
  intros Hd H. rewrite pow2_add, (pow2_Z d) by done. rewrite (Qmult_comm ((2#1) ^ e)), Qmult_assoc, <-inject_Z_mult.
  apply Qmult_le_compat_r; [by rewrite <-Zle_Qle|apply Qlt_le_weak, pow2_pos].
Qed.

Lemma scale_ge a b d e : (0 <= d)%Z -> (b <= a * 2 ^ d)%Z -> inject_Z b * (2#1) ^ e <= inject_Z a * (2#1) ^ (e + d).
Proof.
  intros Hd H. rewrite pow2_add, (pow2_Z d) by done. rewrite (Qmult_comm ((2#1) ^ e)), Qmult_assoc, <-inject_Z_mult.
  apply Qmult_le_compat_r; [by rewrite <-Zle_Qle|apply Qlt_le_weak, pow2_pos].
Qed.

(** What is rounded, [v], is [m 2^e] or between it and the next. *)
Lemma round_val m e l v :
  (2 ^ 52 <= m)%Z -> (-1021 <= Z.log2 m + e <= 1000)%Z ->
  inject_Z m * (2#1) ^ e <= v <= inject_Z (m + 1) * (2#1) ^ e ->
  exists m' e', normal (binary_round_aux 53 1024 false m e l) m' e' /\
    (Z.log2 m - 52 <= e' - e <= Z.log2 m - 51)%Z /\ Qabs (val m' e' - v) <= eps * val m' e'.
Proof.
  intros Hm He [Hv1 Hv2]. destruct (round_near m e l Hm He) as (m' & e' & Hr & Hm' & Hee & Hd & Hlo & Hhi).
  exists m', e'. split; [done|]. split; [done|].
  assert (0 <= e' - e)%Z as Hde by lia.
  pose proof (scale_le _ _ _ e Hde Hlo) as H1. pose proof (scale_ge (Zpos m' + 1) (m + 1) _ e Hde ltac:(lia)) as H2.
  replace (e + (e' - e))%Z with e' in H1, H2 by lia.
  assert ((2#1) ^ e' <= eps * val m' e') as Hu.
  { unfold val. rewrite Qmult_assoc. rewrite <-(Qmult_1_l ((2#1) ^ e')) at 1.
    apply Qmult_le_compat_r; [|apply Qlt_le_weak, pow2_pos]. unfold eps, Qle, inject_Z, Qmult. cbn. lia. }
  unfold Zminus in H1. rewrite !inject_Z_plus, Qmult_plus_distr_l in H1. rewrite !inject_Z_plus, !Qmult_plus_distr_l in H2.
  change (inject_Z 1) with 1 in H2. change (inject_Z (- (1))) with (- (1)) in H1. rewrite inject_Z_plus, Qmult_plus_distr_l in Hv2.
  change (inject_Z 1) with 1 in Hv2. fold (val m' e') in H1, H2. clear -H1 H2 Hv1 Hv2 Hu.
  apply Qabs_Qle_condition. split; lra.
Qed.

Lemma val_split m1 m2 e1 e2 : inject_Z (Zpos (m1 * m2)) * (2#1) ^ (e1 + e2) == val m1 e1 * val m2 e2.
Proof. unfold val. rewrite Pos2Z.inj_mul, inject_Z_mult, pow2_add. ring. Qed.

(** Multiplication of normal numbers. *)
Lemma mul_near x y m1 e1 m2 e2 :
  normal x m1 e1 -> normal y m2 e2 -> (-900 <= e1 + e2 <= 800)%Z ->
  exists m e, normal (f64_mul x y) m e /\ (e1 + e2 + 52 <= e <= e1 + e2 + 54)%Z /\
    Qabs (val m e - val m1 e1 * val m2 e2) <= eps * val m e.
Proof.
  intros [-> H1] [-> H2] He. unfold f64_mul, SFmul. cbn [xorb].
  assert (104 <= Z.log2 (Zpos (m1 * m2)) <= 105)%Z as Hl.
  { rewrite Pos2Z.inj_mul. split.
    - change 104%Z with (Z.log2 (2 ^ 52 * 2 ^ 52)). apply Z.log2_le_mono. nia.
    - assert (Z.log2 (Zpos m1 * Zpos m2) < 106)%Z; [|lia]. apply Z.log2_lt_pow2; [lia|].
      change (2 ^ 106)%Z with (2 ^ 53 * 2 ^ 53)%Z. nia. }
  destruct (round_val (Zpos (m1 * m2)) (e1 + e2) loc_Exact (val m1 e1 * val m2 e2)) as (m & e & Hn & Hd & Hv).
  - rewrite Pos2Z.inj_mul. nia.
  - lia.
  - rewrite inject_Z_plus, Qmult_plus_distr_l, val_split. change (inject_Z 1) with 1.
    pose proof (pow2_pos (e1 + e2)). split; lra.
  - exists m, e. split; [exact Hn|]. split; [lia|exact Hv].
Qed.

(** Division of normal numbers. *)
Lemma div_near x y m1 e1 m2 e2 :
  normal x m1 e1 -> normal y m2 e2 -> (-900 <= e1 - e2 <= 800)%Z ->
  exists m e, normal (f64_div x y) m e /\ (e1 - e2 - 53 <= e <= e1 - e2 - 51)%Z /\
    Qabs (val m e - val m1 e1 / val m2 e2) <= eps * val m e.
Proof.
  intros [-> H1] [-> H2] He. unfold f64_div, SFdiv. cbn [xorb]. unfold SFdiv_core_binary.
  assert (Z.log2 (Zpos m1) = 52)%Z as L1 by (apply Z.log2_unique; lia).
  assert (Z.log2 (Zpos m2) = 52)%Z as L2 by (apply Z.log2_unique; lia).
  rewrite !Zdigits2_log2, L1, L2 by lia. unfold fexp, emin.
  replace (Z.min _ _) with (e1 - e2 - 53)%Z by lia.
  replace (e1 - e2 - (e1 - e2 - 53))%Z with 53%Z by lia. rewrite Z.shiftl_mul_pow2 by lia.
  pose proof (Z.div_mod (Zpos m1 * 2 ^ 53) (Zpos m2) ltac:(lia)) as Hdm.
  pose proof (Z.mod_pos_bound (Zpos m1 * 2 ^ 53) (Zpos m2) ltac:(lia)) as Hr.
  unfold Z.div, Z.modulo in Hdm, Hr. destruct (Z.div_eucl (Zpos m1 * 2 ^ 53) (Zpos m2)) as [q r].
  assert (2 ^ 52 <= q < 2 ^ 54)%Z as Hq by nia.
  assert (52 <= Z.log2 q <= 53)%Z as Lq.
  { split; [change 52%Z with (Z.log2 (2 ^ 52)); apply Z.log2_le_mono; lia|].
    assert (Z.log2 q < 54)%Z; [|lia]. apply Z.log2_lt_pow2; lia. }
  destruct (round_val q (e1 - e2 - 53) (new_location (Zpos m2) r) (val m1 e1 / val m2 e2)) as (m & e & Hn & Hd & Hv); [lia..| |].
  - pose proof (val_pos m2 e2) as Hp.
    assert (val m1 e1 == inject_Z (Zpos m1 * 2 ^ 53) * (2#1) ^ (e1 - 53)) as Hv1.
    { unfold val. rewrite inject_Z_mult, <-(pow2_Z 53) by lia. rewrite <-Qmult_assoc, <-pow2_add.
      by replace (53 + (e1 - 53))%Z with e1 by lia. }
    assert (forall a, inject_Z a * (2#1) ^ (e1 - e2 - 53) * val m2 e2 == inject_Z (a * Zpos m2) * (2#1) ^ (e1 - 53)) as Ha.
    { intros a. unfold val. rewrite inject_Z_mult. replace (e1 - 53)%Z with (e1 - e2 - 53 + e2)%Z by lia.
      rewrite pow2_add. ring. }
    pose proof (pow2_pos (e1 - 53)) as Hpp. split; [apply Qle_shift_div_l|apply Qle_shift_div_r]; try done;
      rewrite Ha, Hv1; apply Qmult_le_compat_r; try (by apply Qlt_le_weak); rewrite <-Zle_Qle; nia.
  - exists m, e. split; [exact Hn|]. split; [lia|exact Hv].
Qed.

Lemma pos_shift p d : Zpos (Pos.iter xO p d) = (Zpos p * 2 ^ Zpos d)%Z.
Proof. rewrite <-Z.shiftl_mul_pow2 by done. cbn. by apply Pos.iter_swap_gen. Qed.

Lemma shl_align_to m e e' :
  (e' <= e)%Z -> exists p, shl_align m e e' = (p, e') /\ Zpos p = (Zpos m * 2 ^ (e - e'))%Z.
Proof.
  intros He. unfold shl_align. destruct (e' - e)%Z as [|d|d] eqn:E; [|lia|].
  - exists m. replace e' with e by lia. split; [done|]. rewrite Z.sub_diag. lia.
  - exists (Pos.iter xO m d). split; [done|]. rewrite pos_shift. do 2 f_equal. lia.
Qed.

Lemma shl_align_keep m e e' : (e <= e')%Z -> shl_align m e e' = (m, e).
Proof. intros He. unfold shl_align. by destruct (e' - e)%Z eqn:E; [| |lia]. Qed.

(** An integer of at most 53 bits is exact. *)
Lemma f64_of_exact n :
  (0 < n < 2 ^ 53)%N ->
  exists m e, normal (f64_of n) m e /\ (e = Z.log2 (Z.of_N n) - 52)%Z /\ val m e == inject_Z (Z.of_N n).
Proof.
  intros Hn. destruct n as [|n]; [lia|]. unfold f64_of, binary_normalize, binary_round. cbn [Z.of_N].
  rewrite digits2_log2. unfold fexp, emin. set (k := Z.log2 (Zpos n)).
  assert (0 <= k < 53)%Z as Hk by (split; [apply Z.log2_nonneg|apply Z.log2_lt_pow2; lia]).
  replace (Z.max _ _) with (k - 52)%Z by lia.
  destruct (shl_align_to n 0 (k - 52)) as (p & -> & Hp); [lia|].
  destruct (Z.log2_spec (Zpos n) ltac:(lia)) as [Hlo Hhi]. fold k in Hlo, Hhi.
  replace (0 - (k - 52))%Z with (52 - k)%Z in Hp by lia.
  assert (2 ^ k * 2 ^ (52 - k) = 2 ^ 52)%Z as H1 by (rewrite <-Z.pow_add_r by lia; f_equal; lia).
  assert (2 ^ Z.succ k * 2 ^ (52 - k) = 2 ^ 53)%Z as H2 by (rewrite <-Z.pow_add_r by lia; f_equal; lia).
  assert (0 < 2 ^ (52 - k))%Z by (apply Z.pow_pos_nonneg; lia).
  assert (2 ^ 52 <= Zpos p < 2 ^ 53)%Z as Hp' by nia.
  rewrite round_exact by lia. exists p, (k - 52)%Z. split_and!; try done; try lia.
  unfold val. rewrite Hp, inject_Z_mult, <-pow2_Z, <-Qmult_assoc, <-pow2_add by lia.
  replace (52 - k + (k - 52))%Z with 0%Z by lia. cbn. ring.
Qed.

(** Addition of normal numbers. *)
Lemma add_near x y m1 e1 m2 e2 :
  normal x m1 e1 -> normal y m2 e2 -> (-900 <= e1 <= 800)%Z -> (-900 <= e2 <= 800)%Z ->
  exists m e, normal (f64_add x y) m e /\ (Z.min e1 e2 <= e <= Z.max e1 e2 + 2)%Z /\
    Qabs (val m e - (val m1 e1 + val m2 e2)) <= eps * val m e.
Proof.
  intros [-> H1] [-> H2] He1 He2. unfold f64_add, SFadd. cbn [cond_Zopp]. set (ez := Z.min e1 e2).
  destruct (shl_align_to m1 e1 ez) as (p1 & -> & Hp1); [lia|]. destruct (shl_align_to m2 e2 ez) as (p2 & -> & Hp2); [lia|].
  cbn [fst]. change (Zpos p1 + Zpos p2)%Z with (Zpos (p1 + p2)). unfold binary_normalize, binary_round.
  rewrite digits2_log2. unfold fexp at 1, emin.
  assert (forall e, 0 <= e - ez -> 1 <= 2 ^ (e - ez))%Z as Hone by (intros e He; pose proof (Z.pow_pos_nonneg 2 (e - ez)); lia).
  pose proof (Hone e1 ltac:(lia)) as G1. pose proof (Hone e2 ltac:(lia)) as G2.
  assert (2 ^ (e1 - ez) <= 2 ^ (Z.max e1 e2 - ez))%Z as K1 by (apply Z.pow_le_mono_r; lia).
  assert (2 ^ (e2 - ez) <= 2 ^ (Z.max e1 e2 - ez))%Z as K2 by (apply Z.pow_le_mono_r; lia).
  assert (2 ^ 53 <= Zpos (p1 + p2))%Z as Hge by (rewrite Pos2Z.inj_add; nia).
  assert (53 <= Z.log2 (Zpos (p1 + p2)) < Z.max e1 e2 - ez + 54)%Z as Hl.
  { split; [change 53%Z with (Z.log2 (2 ^ 53)); by apply Z.log2_le_mono|].
    apply Z.log2_lt_pow2; [lia|]. rewrite Z.pow_add_r, Pos2Z.inj_add by lia.
    change (2 ^ 54)%Z with (2 ^ 53 + 2 ^ 53)%Z. nia. }
  rewrite shl_align_keep by lia.
  destruct (round_val (Zpos (p1 + p2)) ez loc_Exact (val m1 e1 + val m2 e2)) as (m & e & Hn & Hd & Hv); [lia..| |].
  - assert (val m1 e1 + val m2 e2 == inject_Z (Zpos (p1 + p2)) * (2#1) ^ ez) as ->.
    { rewrite Pos2Z.inj_add, Hp1, Hp2. unfold val. rewrite inject_Z_plus, !inject_Z_mult, <-!pow2_Z, Qmult_plus_distr_l,
        <-!Qmult_assoc, <-!pow2_add by lia. by rewrite !Z.sub_add. }
    rewrite inject_Z_plus, Qmult_plus_distr_l. change (inject_Z 1) with 1. pose proof (pow2_pos ez). split; lra.
  - exists m, e. split; [exact Hn|]. split; [lia|exact Hv].
Qed.

(** ** [Duration] and back *)

(** The seconds of a duration up to a day or so, to three roundings. *)
Definition secs (d : Duration) : Q := inject_Z (Z.of_N d) * (1 # 1000000000).

Lemma f64_of_nanos : exists m e, normal (f64_of NANOS) m e /\ (e = -23)%Z /\ val m e == inject_Z 1000000000.
Proof. destruct (f64_of_exact NANOS) as (m & e & Hn & He & Hv); [by vm_compute|]. by exists m, e. Qed.

Lemma nanos_near n :
  (0 < n < NANOS)%N ->
  exists m e, normal (f64_div (f64_of n) (f64_of NANOS)) m e /\ (-90 <= e <= 0)%Z /\
    Qabs (val m e - secs n) <= eps * val m e.
Proof.
  unfold NANOS. intros Hn. destruct (f64_of_exact n) as (m1 & e1 & Hx & He1 & Hv1); [lia|].
  destruct f64_of_nanos as (m2 & e2 & Hy & He2 & Hv2).
  assert (0 <= Z.log2 (Z.of_N n) < 30)%Z by (split; [apply Z.log2_nonneg|apply Z.log2_lt_pow2; lia]).
  destruct (div_near _ _ _ _ _ _ Hx Hy) as (m & e & Hq & He & Hv); [lia|].
  exists m, e. split; [exact Hq|]. split; [lia|]. unfold secs. rewrite Hv1, Hv2 in Hv. exact Hv.
Qed.

Lemma as_secs_near d :
  (0 < d <= 10 ^ 14)%N ->
  exists m e, normal (as_secs_f64 d) m e /\ (-90 <= e <= 2)%Z /\ Qabs (val m e - secs d) <= 3 * eps * val m e.
Proof.
  intros Hd. unfold as_secs_f64. pose proof (N.div_mod d NANOS ltac:(done)) as Hdm.
  pose proof (N.mod_lt d NANOS ltac:(done)) as Hr. unfold NANOS in Hdm, Hr. fold NANOS in Hr.
  set (s := (d / NANOS)%N) in *. set (n := (d mod NANOS)%N) in *. fold NANOS s n in Hdm.
  assert (secs d == inject_Z (Z.of_N s) + secs n) as Hsum.
  { unfold secs. rewrite Hdm, N2Z.inj_add, N2Z.inj_mul, inject_Z_plus, inject_Z_mult.
    change (inject_Z (Z.of_N NANOS)) with (1000000000 # 1). ring. }
  assert (s <= 10 ^ 5)%N as Hs by (unfold NANOS in Hdm; lia).
  destruct (N.eq_dec n 0) as [Hn0|Hn0].
  - destruct (f64_of_exact s) as (m & e & Hx & He & Hv); [lia|].
    assert (0 <= Z.log2 (Z.of_N s) < 17)%Z by (split; [apply Z.log2_nonneg|apply Z.log2_lt_pow2; lia]).
    exists m, e. destruct f64_of_nanos as (m2 & e2 & [Hy ?] & _). rewrite Hn0, Hy.
    split; [destruct Hx as [-> ?]; by split|]. split; [lia|]. rewrite Hsum, Hn0, Hv.
    pose proof (val_pos m e) as Hp. rewrite Hv in Hp. apply Qabs_Qle_condition.
    change (secs 0%N) with (0 # 1000000000). unfold eps. split; lra.
  - destruct (nanos_near n) as (m2 & e2 & Hq & He2 & Hv2); [unfold NANOS in *; lia|].
    apply Qabs_Qle_condition in Hv2. pose proof (val_pos m2 e2).
    destruct (N.eq_dec s 0) as [Hs0|Hs0].
    + exists m2, e2. rewrite Hs0. split; [destruct Hq as [-> ?]; by split|]. split; [lia|].
      rewrite Hsum, Hs0. apply Qabs_Qle_condition. change (inject_Z (Z.of_N 0)) with 0. unfold eps in *. lra.
    + destruct (f64_of_exact s) as (m1 & e1 & Hx & He1 & Hv1); [lia|].
      assert (0 <= Z.log2 (Z.of_N s) < 17)%Z by (split; [apply Z.log2_nonneg|apply Z.log2_lt_pow2; lia]).
      destruct (add_near _ _ _ _ _ _ Hx Hq) as (m & e & Hr' & He & Hv); [lia..|].
      apply Qabs_Qle_condition in Hv. rewrite Hv1 in Hv.
      exists m, e. split; [exact Hr'|]. split; [lia|]. rewrite Hsum. apply Qabs_Qle_condition.
      pose proof (val_pos m e). assert (0 <= inject_Z (Z.of_N s)) by (rewrite <-(Zle_Qle 0); lia).
      unfold eps in *. lra.
Qed.

Lemma round_even_near n k N :
  (0 <= k)%Z -> (- 2 ^ k < 2 * n - 2 * (N * 2 ^ k) < 2 ^ k)%Z -> round_even n k = N.
Proof.
  intros Hk H. unfold round_even. assert (0 < 2 ^ k)%Z as Hp by (apply Z.pow_pos_nonneg; lia).
  pose proof (Z.div_mod n (2 ^ k) ltac:(lia)) as Hdm. pose proof (Z.mod_pos_bound n (2 ^ k) Hp) as Hr.
  set (q := (n / 2 ^ k)%Z) in *. set (r := (n mod 2 ^ k)%Z) in *.
  set (p := (2 ^ k)%Z) in *. clearbody p q r. subst n.
  assert (q <= N - 2 \/ q = N - 1 \/ q = N \/ N + 1 <= q)%Z as [Hq|[->|[->|Hq]]] by lia;
    destruct (Z.compare_spec (2 * r) p); nia.
Qed.

(** A float within half a nanosecond of a whole number of them. *)
Lemma from_secs_near x m e n :
  normal x m e -> (n <= 10 ^ 20)%N -> Qabs (val m e * 1000000000 - inject_Z (Z.of_N n)) < 1 # 2 ->
  from_secs_f64 x = Ret n.
Proof.
  intros [-> Hm] Hn Hv. apply Qabs_Qlt_condition in Hv. cbn [from_secs_f64].
  assert (inject_Z (Z.of_N n) <= inject_Z (10 ^ 20)) as Hn' by (rewrite <-Zle_Qle; lia).
  change (inject_Z (10 ^ 20)) with (100000000000000000000 # 1) in Hn'.
  destruct (Z.leb_spec 0 e) as [He|He].
  - exfalso. assert (inject_Z (2 ^ 52) <= val m e) as Hge.
    { unfold val. rewrite pow2_Z, <-inject_Z_mult, <-Zle_Qle by done. assert (0 < 2 ^ e)%Z by (by apply Z.pow_pos_nonneg). nia. }
    change (inject_Z (2 ^ 52)) with (4503599627370496 # 1) in Hge. lra.
  - assert (Zpos m / 2 ^ (- e) <= Zpos m)%Z as Hd by (apply Z.div_le_upper_bound; [|assert (0 < 2 ^ (- e))%Z by (apply Z.pow_pos_nonneg; lia); nia]; apply Z.pow_pos_nonneg; lia).
    rewrite (proj2 (Z.ltb_lt _ _)) by lia.
    rewrite (round_even_near _ _ (Z.of_N n)), N2Z.id; [done|lia|].
    assert (val m e * inject_Z (2 ^ (- e)) == inject_Z (Zpos m)) as Hmv.
    { unfold val. rewrite <-pow2_Z, <-Qmult_assoc, <-pow2_add by lia. rewrite Z.add_opp_diag_r. cbn. ring. }
    assert (0 < inject_Z (2 ^ (- e))) as Hp by (rewrite <-(Zlt_Qlt 0); apply Z.pow_pos_nonneg; lia).
    rewrite !Zlt_Qlt. unfold Zminus. rewrite inject_Z_plus, !inject_Z_opp, !inject_Z_mult, <-Hmv.
    change (inject_Z 2) with 2. change (inject_Z 1000000000) with 1000000000.
    set (a := inject_Z (2 ^ (- e))) in *. destruct Hv as [H1 H2].
    apply (Qmult_lt_compat_r _ _ a Hp) in H1, H2. split; lra.
Qed.

(** A period times an integer is exact up to a day and some hours: the float's
    rounding is less than half a nanosecond. *)
Lemma mul_f64_exact p i :
  (0 < p)%N -> (i * p <= 10 ^ 14)%N -> (p <= 10 ^ 14)%N -> mul_f64 p (f64_of i) = Ret (i * p)%N.
Proof.
  intros Hp Hip Hp'. unfold mul_f64. destruct (as_secs_near p) as (m2 & e2 & Hy & He2 & Hv2); [lia|].
  destruct (N.eq_dec i 0) as [->|Hi]; [destruct Hy as [-> _]; done|].
  destruct (f64_of_exact i) as (m1 & e1 & Hx & He1 & Hv1); [nia|].
  assert (0 <= Z.log2 (Z.of_N i) < 53)%Z by (split; [apply Z.log2_nonneg|apply Z.log2_lt_pow2; nia]).
  destruct (mul_near _ _ _ _ _ _ Hx Hy) as (m & e & Hr & He & Hv); [lia|].
  apply (from_secs_near _ m e); [exact Hr|lia|].
  rewrite Hv1 in Hv. apply Qabs_Qle_condition in Hv, Hv2. apply Qabs_Qlt_condition.
  assert (0 < inject_Z (Z.of_N i)) as Hi' by (rewrite <-(Zlt_Qlt 0); lia).
  assert (inject_Z (Z.of_N (i * p)) <= inject_Z (10 ^ 14)) as Hb by (rewrite <-Zle_Qle; lia).
  change (inject_Z (10 ^ 14)) with (100000000000000 # 1) in Hb. unfold secs in Hv2.
  rewrite N2Z.inj_mul, inject_Z_mult in *. set (a := inject_Z (Z.of_N i)) in *. set (P := inject_Z (Z.of_N p)) in *.
  destruct Hv2 as [H1 H2]. pose proof (Qlt_le_weak _ _ Hi') as Hi2.
  apply (Qmult_le_compat_r _ _ a) in H1, H2; try done. pose proof (val_pos m e).
  unfold eps in *. split; lra.
Qed.

Lemma round_even_bound n k :
  (0 <= k)%Z -> (- 2 ^ k <= 2 * n - 2 * (round_even n k * 2 ^ k) <= 2 ^ k)%Z.
Proof.
  intros Hk. unfold round_even. assert (0 < 2 ^ k)%Z as Hp by (apply Z.pow_pos_nonneg; lia).
  pose proof (Z.div_mod n (2 ^ k) ltac:(lia)) as Hdm. pose proof (Z.mod_pos_bound n (2 ^ k) Hp) as Hr.
  set (q := (n / 2 ^ k)%Z) in *. set (r := (n mod 2 ^ k)%Z) in *. set (p := (2 ^ k)%Z) in *. clearbody p q r. subst n.
  destruct (Z.compare_spec (2 * r) p); [destruct (Z.even q)|..]; nia.
Qed.

Lemma from_secs_round x m e :
  normal x m e -> (e < 0)%Z ->
  exists n, from_secs_f64 x = Ret n /\ Qabs (val m e * 1000000000 - inject_Z (Z.of_N n)) <= 1 # 2.
Proof.
  intros [-> Hm] He. cbn [from_secs_f64]. rewrite (proj2 (Z.leb_gt _ _)) by done.
  assert (0 < 2 ^ (- e))%Z as Hp by (apply Z.pow_pos_nonneg; lia).
  assert (Zpos m / 2 ^ (- e) <= Zpos m)%Z by (apply Z.div_le_upper_bound; nia).
  rewrite (proj2 (Z.ltb_lt _ _)) by lia. eexists. split; [done|].
  pose proof (round_even_bound (Zpos m * 1000000000) (- e) ltac:(lia)) as Hr.
  set (n := round_even (Zpos m * 1000000000) (- e)) in *.
  assert (0 <= n)%Z as Hn by nia. rewrite Z2N.id by done.
  assert (val m e * inject_Z (2 ^ (- e)) == inject_Z (Zpos m)) as Hmv.
  { unfold val. rewrite <-pow2_Z, <-Qmult_assoc, <-pow2_add by lia. rewrite Z.add_opp_diag_r. cbn. ring. }
  rewrite !Zle_Qle in Hr. unfold Zminus in Hr. rewrite inject_Z_plus, !inject_Z_opp, !inject_Z_mult, <-Hmv in Hr.
  change (inject_Z 2) with 2 in Hr. change (inject_Z 1000000000) with 1000000000 in Hr.
  assert (0 < inject_Z (2 ^ (- e))) as Hq by by rewrite <-(Zlt_Qlt 0). destruct Hr as [H1 H2].
  apply Qabs_Qle_condition. split; apply (Qmult_le_r _ _ _ Hq); lra.
Qed.

(** One over an integer, in nanoseconds, is the nearest duration. *)
Lemma inverse_nearest r :
  (0 < r < 2 ^ 53)%N ->
  exists p, from_secs_f64 (f64_div (f64_of 1) (f64_of r)) = Ret p /\
    (Z.abs (2 * (Z.of_N p * Z.of_N r - 1000000000)) <= Z.of_N r)%Z.
Proof.
  intros Hr. destruct (f64_of_exact 1) as (m1 & e1 & Hx & He1 & Hv1); [lia|].
  destruct (f64_of_exact r) as (m2 & e2 & Hy & He2 & Hv2); [lia|]. change (Z.log2 (Z.of_N 1)) with 0%Z in He1.
  assert (0 <= Z.log2 (Z.of_N r) < 53)%Z by (split; [apply Z.log2_nonneg|apply Z.log2_lt_pow2; lia]).
  destruct (div_near _ _ _ _ _ _ Hx Hy) as (m & e & Hq & He & Hv); [lia|].
  destruct (from_secs_round _ _ _ Hq ltac:(lia)) as (p & -> & Hp). exists p. split; [done|].
  assert (0 < inject_Z (Z.of_N r)) as Hr' by (rewrite <-(Zlt_Qlt 0); lia).
  change (inject_Z (Z.of_N 1)) with 1 in Hv1. rewrite Hv1, Hv2 in Hv.
  apply Qabs_Qle_condition in Hv, Hp. destruct Hv as [H1 H2], Hp as [H3 H4].
  set (R := inject_Z (Z.of_N r)) in *. set (P := inject_Z (Z.of_N p)) in *. set (q := val m e) in *.
  assert (1 / R * R == 1) as Hinv by (field; lra).
  pose proof (Qlt_le_weak _ _ Hr') as Hr2.
  apply (Qmult_le_compat_r _ _ R) in H1, H2, H3, H4; try done.
  assert (-(R + 1) < 2 * (P * R - 1000000000) < R + 1) as [K1 K2] by (unfold eps in *; split; lra).
  clear - K1 K2. unfold R, P in *.
  assert (inject_Z (2 * (Z.of_N p * Z.of_N r - 1000000000)) ==
    2 * (inject_Z (Z.of_N p) * inject_Z (Z.of_N r) - 1000000000)) as Hz.
  { unfold Zminus, Qminus. by rewrite inject_Z_mult, inject_Z_plus, inject_Z_mult. }
  assert (inject_Z (Z.of_N r + 1) == inject_Z (Z.of_N r) + 1) as Hz' by by rewrite inject_Z_plus.
  assert (inject_Z (- (Z.of_N r + 1)) == -(inject_Z (Z.of_N r) + 1)) as Hz'' by by rewrite inject_Z_opp, Hz'.
  rewrite <-Hz, <-Hz', <-Zlt_Qlt in K2. rewrite <-Hz, <-Hz'', <-Zlt_Qlt in K1. lia.
Qed.
