(* ===== verification/LoadArgs.v ===== *)
(** * The load generator's command line

    loadgen/src/main.rs: [Config], [parse_args] and the exit codes of [main].
    The type [F] of the rate is [f64], given with its [FromStr] and the test
    [<= 0.0]; LoadRun takes that of F64. *)

From S2P Require Import Prelude RustStr Http App.

Section Args.
Context {F : Type} (parse_f64 : bytes -> option F) (non_positive : F -> bool) (default_rate : F).

Record Config := mkLoadConfig {
  target : bytes;
  load_model : bytes;
  rate : F;
  load_connections : N;
  duration_secs : N;
  out : bytes;
}.

Definition Config_default : Config :=
  mkLoadConfig (B "127.0.0.1:8080") (B "unknown") default_rate 10 10 (B "loadgen-results.csv").

Definition with_target (v : bytes) (c : Config) : Config :=
  mkLoadConfig v c.(load_model) c.(rate) c.(load_connections) c.(duration_secs) c.(out).
Definition with_model (v : bytes) (c : Config) : Config :=
  mkLoadConfig c.(target) v c.(rate) c.(load_connections) c.(duration_secs) c.(out).
Definition with_rate (v : F) (c : Config) : Config :=
  mkLoadConfig c.(target) c.(load_model) v c.(load_connections) c.(duration_secs) c.(out).
Definition with_connections (v : N) (c : Config) : Config :=
  mkLoadConfig c.(target) c.(load_model) c.(rate) v c.(duration_secs) c.(out).
Definition with_duration (v : N) (c : Config) : Config :=
  mkLoadConfig c.(target) c.(load_model) c.(rate) c.(load_connections) v c.(out).
Definition with_out (v : bytes) (c : Config) : Config :=
  mkLoadConfig c.(target) c.(load_model) c.(rate) c.(load_connections) c.(duration_secs) v.

(** What [parse_args] does: it returns, or [-h] exits with 0. *)
Inductive Parsed :=
  | Returns (r : result Config bytes)
  | Exits (code : N).

(** [expect(&mut args, flag)?], and what to do with the rest of them. *)
Definition expect {A} (flag : bytes) (rest : option (bytes * A)) (k : bytes -> A -> Parsed) : Parsed :=
  match rest with
  | Some (v, continue) => k v continue
  | None => Returns (Err (B "missing value for " ++ flag))
  end.

(** [raw.parse()] to an integer type, and the check that it is not 0. *)
Definition positive (max : N) (raw invalid zero : bytes) (k : N -> Parsed) : Parsed :=
  match parse_uint max raw with
  | None => Returns (Err invalid)
  | Some n => if (n =? 0)%N then Returns (Err zero) else k n
  end.

(** The [while let] loop over the remaining arguments. *)
Fixpoint load_loop (args : list bytes) (c : Config) : Parsed :=
  match args with
  | [] => Returns (Ok c)
  | arg :: args =>
    let rest := match args with v :: args => Some (v, load_loop args) | [] => None end in
    if bool_decide (arg = B "--target") then
      expect arg rest (fun v continue => continue (with_target v c))
    else if bool_decide (arg = B "--model") then
      expect arg rest (fun v continue => continue (with_model v c))
    else if bool_decide (arg = B "--rate") then
      expect arg rest (fun raw continue =>
        match parse_f64 raw with
        | None => Returns (Err (B "invalid --rate"))
        | Some r =>
          if non_positive r then Returns (Err (B "--rate must be > 0")) else continue (with_rate r c)
        end)
    else if bool_decide (arg = B "--connections") then
      expect arg rest (fun raw continue =>
        positive usize_max raw (B "invalid --connections") (B "--connections must be >= 1")
          (fun n => continue (with_connections n c)))
    else if bool_decide (arg = B "--duration") then
      expect arg rest (fun raw continue =>
        positive usize_max raw (B "invalid --duration") (B "--duration must be >= 1")
          (fun n => continue (with_duration n c)))
    else if bool_decide (arg = B "--out") then
      expect arg rest (fun v continue => continue (with_out v c))
    else if bool_decide (arg = B "-h") || bool_decide (arg = B "--help") then Exits 0
    else Returns (Err (B "unknown argument: " ++ arg))
  end.

Definition load_args (args : list bytes) : Parsed := load_loop args Config_default.

(** [main], [run_and_write] being the run and the writing of its output. *)
Definition load_main (args : list bytes) (run_and_write : Config -> result unit bytes) : N :=
  match load_args args with
  | Exits code => code
  | Returns (Err _) => 2
  | Returns (Ok c) => match run_and_write c with Ok _ => 0 | Err _ => 1 end
  end%N.

(** ** Properties *)

Definition config_ok (c : Config) : Prop :=
  (1 <= c.(load_connections) <= usize_max)%N /\ (1 <= c.(duration_secs) <= usize_max)%N /\
  non_positive c.(rate) = false.

Lemma positive_ok max raw e1 e2 k (P : Parsed -> Prop) :
  P (Returns (Err e1)) -> P (Returns (Err e2)) -> (forall n, (1 <= n <= max)%N -> P (k n)) -> P (positive max raw e1 e2 k).
Proof.
  intros He1 He2 Hk. unfold positive. destruct (parse_uint max raw) as [n|] eqn:E; [|done].
  apply parse_uint_bound in E. destruct (N.eqb_spec n 0); [done|]. apply Hk. lia.
Qed.

(** Arguments that are accepted give at least one connection, a duration of at
    least a second and a rate that passes the test; everything else is an
    error with a message and exit code 2, help exits with 0. *)
Theorem load_args_valid args (Hd : non_positive default_rate = false) :
  match load_args args with
  | Returns (Ok c) => config_ok c
  | Returns (Err e) => e <> [] /\ forall run, load_main args run = 2%N
  | Exits code => code = 0%N
  end.
Proof.
  assert (forall n args c, length args <= n -> config_ok c ->
    match load_loop args c with
    | Returns (Ok c) => config_ok c
    | Returns (Err e) => e <> []
    | Exits code => code = 0%N
    end) as Hall.
  { clear args. intros n. induction n as [|n IH]; intros [|arg l] c Hn Hc; cbn [length] in Hn; [done|lia|done|].
    cbn [load_loop]. unfold expect. destruct Hc as (H1 & H2 & H3).
    repeat match goal with |- context [if bool_decide (arg = ?f) then _ else _] =>
      destruct (bool_decide_reflect (arg = f)); [subst arg; destruct l as [|v l]; [by vm_compute|cbn [length] in Hn]|] end.
    - apply IH; [lia|done].
    - apply IH; [lia|done].
    - destruct (parse_f64 v) as [r|]; [|by vm_compute]. destruct (non_positive r) eqn:Hr; [by vm_compute|]. apply IH; [lia|exact (conj H1 (conj H2 Hr))].
    - apply positive_ok; [by vm_compute..|]. intros m Hm. apply IH; [lia|exact (conj Hm (conj H2 H3))].
    - apply positive_ok; [by vm_compute..|]. intros m Hm. apply IH; [lia|exact (conj H1 (conj Hm H3))].
    - apply IH; [lia|done].
    - destruct (_ || _); by vm_compute. }
  specialize (Hall (length args) args Config_default (le_n _)).
  destruct (load_args args) as [[c|e]|code] eqn:E; unfold load_main; rewrite ?E; unfold load_args in E; rewrite E in Hall;
    (assert (config_ok Config_default) as H0 by (unfold config_ok, usize_max; split_and!; done || (cbn; lia))); specialize (Hall H0); done.
Qed.
End Args.
Arguments mkLoadConfig {F} _ _ _ _ _ _.

(** Rates as whole numbers. *)
Lemma load_args_valid_witness :
  exists c, load_args (parse_uint usize_max) (fun r => r =? 0)%N 1000%N
      [B "--rate"; B "1500"; B "--connections"; B "64"] = Returns (Ok c) /\
    c.(rate) = 1500%N /\ c.(load_connections) = 64%N /\ config_ok (fun r => r =? 0)%N c.
Proof.
  pose proof (load_args_valid (parse_uint usize_max) (fun r => r =? 0)%N 1000%N
    [B "--rate"; B "1500"; B "--connections"; B "64"] eq_refl) as Hall.
  destruct (load_args (parse_uint usize_max) (fun r => r =? 0)%N 1000%N
    [B "--rate"; B "1500"; B "--connections"; B "64"]) as [[c|e]|code] eqn:E; vm_compute in E; try discriminate E.
  exists c. split; [reflexivity|]. injection E as <-. split; [reflexivity|]. split; [reflexivity|exact Hall].
Defined.
