(* ===== verification/LoadRun.v ===== *)
(** * A run of the load generator

    loadgen/src/main.rs: [run], from connecting to the summary: the connections,
    the cadence, which is computed in [f64], and the queue and workers of
    LoadQueue on what they give.  [Client] are [std]'s calls on the client side
    of a connection. *)

From S2P Require Import Prelude RustStr Http Response Request Router Asset App Syscall Listener Sim.
From S2P Require Import LoadQueue LoadQueueProps F64 LoadArgs.
From Stdlib Require Import SpecFloat.
Local Open Scope nat_scope.

(** ** Connecting *)

Definition SOCKET_TIMEOUT : Duration := from_secs 10.

(** [TcpStream::connect] and [set_nodelay]. *)
Class Client (K : Type) := {
  k_connect : bytes -> K -> result Z IoError * K;
  k_set_nodelay : Z -> bool -> K -> result unit IoError * K;
}.

Class ClientLaws (K : Type) `{KernelLaws K, !Client K} := {
  connect_effect target k r k' : k_connect target k = (r, k') ->
    match r with
    | Ok fd => (fd ∉ opened k) /\ opened k' = {[fd]} ∪ opened k
    | Err _ => opened k' = opened k
    end;
  nodelay_frame fd b k r k' : k_set_nodelay fd b k = (r, k') -> opened k' = opened k;
}.

Section Connect.
Context {K : Type} `{Kernel K, !Client K}.

Definition prepare (stream : Z) (k : K) : result unit IoError * K :=
  and_then (k_set_nodelay stream true k) (fun _ k =>
  and_then (k_set_read_timeout stream SOCKET_TIMEOUT k) (fun _ k =>
  k_set_write_timeout stream SOCKET_TIMEOUT k)).

(** The first loop, [n] connections before its end; an early return drops the
    stream at hand and those before it.  The error of [connect] keeps its kind. *)
Fixpoint connect_all (n : nat) (target : bytes) (streams : list Z) (k : K) : result (list Z) IoError * K :=
  match n with
  | 0 => (Ok streams, k)
  | S n =>
    match k_connect target k with
    | (Err e, k) => (Err (Custom (kind e)), close_all streams k)
    | (Ok stream, k) =>
      match prepare stream k with
      | (Err e, k) => (Err e, close_all streams (k_close stream k))
      | (Ok _, k) => connect_all n target (streams ++ [stream]) k
      end
    end
  end.
End Connect.

(** ** The cadence *)

(** [Instant + Duration]: an [Instant] has [i64] seconds. *)
Definition instant_add (t : Instant) (d : Duration) : outcome Instant :=
  if (t + d <? 2 ^ 63 * NANOS)%N then Ret (t + d)%N else Panic.

(** The scheduler's loop from the [i]-th request on: the instants it pushes. *)
Fixpoint emit (fuel : nat) (period : Duration) (start end_ : Instant) (i : N) : outcome (list Instant) :=
  match fuel with
  | 0 => Diverge
  | S fuel =>
    d ← mul_f64 period (f64_of i);
    target ← instant_add start d;
    if (end_ <=? target)%N then Ret []
    else rest ← emit fuel period start end_ (i + 1); Ret (target :: rest)
  end.

Definition period_of (rate : f64) : outcome Duration := from_secs_f64 (f64_div (f64_of 1) rate).

Definition schedule (fuel : nat) (rate : f64) (duration : Duration) (start : Instant) : outcome (list Instant) :=
  period ← period_of rate;
  end_ ← instant_add start duration;
  emit fuel period start end_ 0%N.

(** ** [run] *)

(** [rate <= 0.0] *)
Definition not_positive (rate : f64) : bool := SFleb rate (S754_zero false).

Definition load_duration (c : Config (F := f64)) : Duration := from_secs c.(duration_secs).

(** [run] up to the threads: what LoadQueue starts from. *)
Definition run {K : Type} `{Kernel K, !Client K} (fuel : nat) (c : Config (F := f64)) (start : Instant) (k : K)
    : outcome (result Load IoError * K) :=
  match connect_all (N.to_nat c.(load_connections)) c.(target) [] k with
  | (Err e, k) => Ret (Err e, k)
  | (Ok streams, k) =>
    targets ← schedule fuel c.(rate) (load_duration c) start;
    Ret (Ok (Load_new (length streams) targets), k)
  end.

Definition throughput (ok : N) (duration : Duration) : f64 := f64_div (f64_of ok) (as_secs_f64 duration).

(** ** Lemmas *)

Section ConnectLemmas.
Context {K : Type} `{ClientLaws K}.

Lemma close_all_opened fds k : opened (close_all fds k) = opened k ∖ list_to_set fds.
Proof using Type*.
  revert k. induction fds as [|fd fds IH]; intros k; [cbn; set_solver|].
  change (opened (close_all fds (k_close fd k)) = opened k ∖ ({[fd]} ∪ list_to_set fds)).
  rewrite IH, (proj1 (close_effect fd k)). set_solver.
Qed.

Lemma prepare_frame stream k r k' : prepare stream k = (r, k') -> opened k' = opened k.
Proof using Type*.
  unfold prepare, and_then. intros E.
  destruct (k_set_nodelay stream true k) as [[u|e] k1] eqn:E1; apply nodelay_frame in E1; [|by simplify_eq].
  destruct (k_set_read_timeout stream SOCKET_TIMEOUT k1) as [[u'|e] k2] eqn:E2;
    apply read_timeout_frame in E2 as [E2 _]; [|simplify_eq; congruence].
  apply write_timeout_frame in E as [E _]. congruence.
Qed.

Lemma connect_all_spec n target streams base k r k' :
  opened k = list_to_set streams ∪ base -> NoDup streams -> (forall fd, fd ∈ streams -> fd ∉ base) ->
  connect_all n target streams k = (r, k') ->
  match r with
  | Ok l => length l = length streams + n /\ opened k' = list_to_set l ∪ base /\ NoDup l /\ forall fd, fd ∈ l -> fd ∉ base
  | Err _ => opened k' = base
  end.
Proof using Type*.
  revert streams k. induction n as [|n IH]; intros streams k Ho Hnd Hb E; cbn [connect_all] in E.
  - simplify_eq. split; [lia|done].
  - assert (forall k1, opened k1 = list_to_set streams ∪ base -> opened (close_all streams k1) = base) as Hclose.
    { intros k1 Hk1. rewrite close_all_opened, Hk1. apply set_eq. intros fd. specialize (Hb fd). set_solver. }
    destruct (k_connect target k) as [[stream|e] k1] eqn:E1; apply connect_effect in E1.
    2: { simplify_eq. apply Hclose. by rewrite E1. }
    destruct E1 as [Hnew E1]. rewrite Ho in Hnew.
    destruct (prepare stream k1) as [[u|e] k2] eqn:E2; apply prepare_frame in E2.
    + apply IH in E.
      * destruct r as [l|e]; [|done]. rewrite length_app in E. cbn in E. split; [lia|apply E].
      * rewrite E2, E1, Ho. apply set_eq. intros fd. rewrite list_to_set_app. set_solver.
      * apply NoDup_app. split_and!; [done| |by apply NoDup_singleton]. intros fd Hin ->%list_elem_of_singleton. set_solver.
      * intros fd [Hin| ->%list_elem_of_singleton]%elem_of_app; [by apply Hb|]. set_solver.
    + simplify_eq. apply Hclose. rewrite (proj1 (close_effect stream k2)), E2, E1, Ho.
      apply set_eq. intros fd. destruct (decide (fd = stream)) as [->|]; set_solver.
Qed.
End ConnectLemmas.

(** The instants [start], [start + period], [start + 2 period], .... *)
Definition cadence (start : Instant) (period : Duration) (count : nat) : list Instant :=
  (fun i => start + N.of_nat i * period)%N <$> seq 0 count.

(** How many of them come before the end. *)
Definition scheduled (duration : Duration) (period : Duration) : N := ((duration + period - 1) / period)%N.

Lemma scheduled_spec d p i : (0 < p)%N -> (i < scheduled d p <-> i * p < d)%N.
Proof.
  intros Hp. unfold scheduled. pose proof (N.div_mod (d + p - 1) p ltac:(lia)) as Hdm.
  pose proof (N.mod_lt (d + p - 1) p ltac:(lia)) as Hr.
  set (q := ((d + p - 1) / p)%N) in *. set (r := ((d + p - 1) mod p)%N) in *. clearbody q r. split; nia.
Qed.

Lemma emit_exact p start d :
  (0 < p)%N -> (d + p <= 10 ^ 14)%N -> (start + d + p < 2 ^ 63 * NANOS)%N ->
  forall left i fuel, N.of_nat (i + left) = scheduled d p -> left < fuel ->
  emit fuel p start (start + d)%N (N.of_nat i) =
  Ret ((fun i => start + N.of_nat i * p)%N <$> seq i left).
Proof.
  intros Hp Hd Hs left. induction left as [|left IH]; intros i fuel Hi Hf; (destruct fuel as [|fuel]; [lia|]); cbn [emit].
  - assert (~ N.of_nat i * p < d)%N as Hge by (rewrite <-scheduled_spec by done; lia).
    assert (N.of_nat i * p < d + p)%N as Hlt.
    { destruct i as [|i]; [lia|]. assert (N.of_nat i * p < d)%N by (rewrite <-scheduled_spec by done; lia). lia. }
    rewrite mul_f64_exact by lia. cbn [mbind outcome_bind]. unfold instant_add.
    rewrite (proj2 (N.ltb_lt _ _)) by lia. cbn [mbind outcome_bind]. by rewrite (proj2 (N.leb_le _ _)) by lia.
  - assert (N.of_nat i * p < d)%N as Hlt by (rewrite <-scheduled_spec by done; lia).
    rewrite mul_f64_exact by lia. cbn [mbind outcome_bind]. unfold instant_add.
    rewrite (proj2 (N.ltb_lt _ _)) by lia. cbn [mbind outcome_bind]. rewrite (proj2 (N.leb_gt _ _)) by lia.
    replace (N.of_nat i + 1)%N with (N.of_nat (S i)) by lia. rewrite IH by lia. done.
Qed.

(** A period of zero never gets to the end: as many requests as there is fuel. *)
Lemma emit_zero start end_ fuel i :
  (start < end_)%N -> (start < 2 ^ 63 * NANOS)%N -> (i + N.of_nat fuel <= 2 ^ 53)%N ->
  emit fuel 0%N start end_ i = Diverge.
Proof.
  intros Hs Hb. revert i. induction fuel as [|fuel IH]; intros i Hi; [done|]. cbn [emit].
  assert (mul_f64 0%N (f64_of i) = Ret 0%N) as ->.
  { unfold mul_f64. change (as_secs_f64 0%N) with (S754_zero false). destruct (N.eq_dec i 0%N) as [->|Hn]; [done|].
    destruct (f64_of_exact i) as (m & e & [-> _] & _); [lia|done]. }
  cbn [mbind outcome_bind]. unfold instant_add. rewrite N.add_0_r, (proj2 (N.ltb_lt _ _)) by done.
  cbn [mbind outcome_bind]. rewrite (proj2 (N.leb_gt _ _)) by done. by rewrite IH by lia.
Qed.

Lemma period_nearest r :
  (0 < r < 2 ^ 53)%N ->
  exists p, period_of (f64_of r) = Ret p /\
    (Z.abs (2 * (Z.of_N p * Z.of_N r - 1000000000)) <= Z.of_N r)%Z.
Proof. apply inverse_nearest. Qed.

Lemma schedule_exact rate p d start fuel :
  period_of rate = Ret p -> (0 < p)%N -> (d + p <= 10 ^ 14)%N -> (start + d + p < 2 ^ 63 * NANOS)%N ->
  N.to_nat (scheduled d p) < fuel ->
  schedule fuel rate d start = Ret (cadence start p (N.to_nat (scheduled d p))).
Proof.
  intros Hrate Hp Hd Hs Hf. unfold schedule. rewrite Hrate. cbn [mbind outcome_bind]. unfold instant_add at 1.
  rewrite (proj2 (N.ltb_lt _ _)) by lia. cbn [mbind outcome_bind].
  apply (emit_exact p start d Hp Hd Hs _ 0); [lia|done].
Qed.

(** The simulated kernel, where every connection succeeds. *)
#[export] Instance sim_client : Client Sim := {
  k_connect target k := let fd := next_fd (s_open k) in (Ok fd, sim_open fd k);
  k_set_nodelay fd b k := (Ok tt, k);
}.

#[export] Program Instance sim_client_laws : ClientLaws Sim.
Next Obligation. intros target k r k' E. cbn in E. simplify_eq/=. split; [apply next_fd_new|done]. Qed.
Next Obligation. intros fd b k r k' E. by simplify_eq/=. Qed.

(** ** Properties *)

(** C30. The cadence.  For a whole rate below two per nanosecond and a duration of
    up to a day, the period is the nanoseconds nearest to 1/rate (exactly that
    when the rate divides 10^9), and although every instant is computed in
    [f64], the loop ends after exactly the instants [start + i period] before
    the end.  Above that rate the period is zero and it goes on for ever. *)
Theorem cadence_exact r seconds start (Hr : (0 < r < 2 ^ 53)%N) (Hd : (1 <= seconds <= 86400)%N)
    (Hs : (start < 2 ^ 62)%N) :
  (r < 2 * NANOS -> exists p, period_of (f64_of r) = Ret p /\ 0 < p /\
    (Z.abs (2 * (Z.of_N p * Z.of_N r - 1000000000)) <= Z.of_N r)%Z /\
    (NANOS mod r = 0 -> p = NANOS / r) /\
    forall fuel, (N.to_nat (scheduled (from_secs seconds) p) < fuel)%nat ->
      schedule fuel (f64_of r) (from_secs seconds) start =
      Ret (cadence start p (N.to_nat (scheduled (from_secs seconds) p))))%N /\
  ((2 * NANOS < r)%N -> forall fuel, (N.of_nat fuel <= 2 ^ 53)%N ->
    schedule fuel (f64_of r) (from_secs seconds) start = Diverge).
Proof.
  destruct (period_nearest r Hr) as (p & Hp & Hnear). unfold from_secs, NANOS in *. split.
  - intros Hlt. exists p. assert (0 < p)%N as Hp0 by (destruct p; [exfalso|]; lia). split_and!; try done.
    + intros Hdiv. apply N.Div0.mod_divides in Hdiv as [q Hq]. rewrite Hq, N.mul_comm, N.div_mul by lia. nia.
    + intros fuel Hf. apply schedule_exact; unfold NANOS; try done; nia.
  - intros Hlt fuel Hf. assert (p = 0)%N as -> by (destruct p; [done|nia]). unfold schedule. rewrite Hp.
    cbn [mbind outcome_bind]. unfold instant_add at 1, NANOS. rewrite (proj2 (N.ltb_lt _ _)) by lia.
    cbn [mbind outcome_bind]. apply emit_zero; unfold NANOS; lia.
Qed.

Lemma cadence_exact_witness :
  exists p, period_of (f64_of 3) = Ret p /\ p = 333333333%N /\
    schedule 5 (f64_of 3) (from_secs 1) 0%N = Ret [0; 333333333; 666666666; 999999999]%N.
Proof.
  destruct (cadence_exact 3 1 0%N ltac:(lia) ltac:(lia) ltac:(lia)) as [Hc _].
  destruct (Hc ltac:(unfold NANOS; lia)) as (p & Hp & _ & Hn & _ & Hf). assert (p = 333333333%N) as -> by lia.
  exists 333333333%N. split; [exact Hp|]. split; [reflexivity|]. apply (Hf 5). vm_compute. lia.
Defined.

(** [nan] parses as a rate and passes its test; the period of it panics. *)
Lemma nan_rate_panics fuel d start : not_positive S754_nan = false /\ schedule fuel S754_nan d start = Panic.
Proof. by split. Qed.

Section Run.
Context {K : Type} `{ClientLaws K}.

(** C29. A run from its command line to its summary, at a whole rate below two per
    nanosecond, for one second to a day, with at least one connection.  It connects first, and a failure leaves no descriptor open; else there
    are as many new descriptors as connections, and under every interleaving of
    the scheduler and the workers the summary accounts for exactly the instants
    of the cadence before the end, each answered or counted as an error. *)
Theorem load_run_complete (c : Config (F := f64)) r start fuel (k : K)
    (Hrate : c.(rate) = f64_of r) (Hr : (0 < r < 2 * NANOS)%N) (Hd : (1 <= c.(duration_secs) <= 86400)%N)
    (Hc : (0 < c.(load_connections))%N) (Hs : (start < 2 ^ 62)%N)
    (Hf : (2 * r * c.(duration_secs) < N.of_nat fuel)%N) :
  exists p res k', period_of c.(rate) = Ret p /\ run fuel c start k = Ret (res, k') /\
  match res with
  | Err _ => opened k' = opened k
  | Ok s0 =>
    (exists streams, length streams = N.to_nat c.(load_connections) /\ NoDup streams /\
      opened k' = list_to_set streams ∪ opened k /\ forall fd, fd ∈ streams -> fd ∉ opened k) /\
    forall ls s hist ok errors, steps ls s0 = Some s -> s.(spc) = Summary hist ok errors ->
      cadence start p (N.to_nat (scheduled (load_duration c) p)) ≡ₚ s.(sent_ok).*1 ++ s.(failed) /\
      ok = N.of_nat (length s.(sent_ok)) /\ errors = N.of_nat (length s.(failed)) /\
      (ok + errors = scheduled (load_duration c) p)%N
  end.
Proof using Type*.
  destruct (period_nearest r) as (p & Hp & Hnear); [unfold NANOS in *; lia|]. unfold run. rewrite Hrate.
  assert (0 < p)%N as Hp0 by (unfold NANOS in *; destruct p; lia).
  assert (p <= NANOS)%N as Hp1 by (unfold NANOS in *; nia).
  destruct (connect_all (N.to_nat (load_connections c)) (target c) [] k) as [res k1] eqn:Econ.
  apply (connect_all_spec _ _ _ (opened k)) in Econ; [|cbn; set_solver|constructor|by intros fd ?%elem_of_nil].
  exists p. destruct res as [streams|e]; [|by exists (Err e), k1].
  destruct Econ as (Hlen & Ho & Hnd & Hnew). cbn [length] in Hlen.
  assert (scheduled (load_duration c) p <= 2 * r * c.(duration_secs))%N as Hsch.
  { apply N.nlt_ge. intros Hlt. apply (scheduled_spec _ _ _ Hp0) in Hlt. unfold load_duration, from_secs, NANOS in *.
    assert (1000000000 <= 2 * (r * p))%N by nia. nia. }
  rewrite (schedule_exact _ p); try done; unfold load_duration, from_secs, NANOS in *; try lia.
  cbn [mbind outcome_bind]. exists (Ok (Load_new (length streams) (cadence start p
    (N.to_nat (scheduled (c.(duration_secs) * 1000000000)%N p))))), k1. split_and!; try done.
  { exists streams. by split_and!. }
  intros ls s hist ok errors Hls Hpc. destruct (summary_exact _ _ _ _ _ _ _ Hls Hpc) as (Hok & Herr & _ & Hall).
  destruct Hall as [Hperm Hsum]; [lia|]. split_and!; try done. rewrite Hsum. unfold cadence.
  rewrite length_fmap, length_seq. lia.
Qed.
End Run.

Definition two_per_second : Config (F := f64) :=
  mkLoadConfig (B "127.0.0.1:8080") (B "iterative") (f64_of 2) 1 1 (B "out.csv").

(** One connection, two requests: the second one fails. *)
Definition short_run : list LoadQueue.Label :=
  [WClone 0 true; SPush; SNotify None; WPop 0; WExchange 0 4000000 (Some (Ok tt)); SPush; SNotify None; WPop 0;
   WExchange 0 501000000 (Some (Err (Os 104))); SClose; WPop 0; SNotifyAll; SJoin; SJoin]%N.

Lemma load_run_complete_witness :
  let k0 := mkSim 0 0 ∅ 0 [] [] ∅ [] ∅ in
  exists s0 k', run 5 two_per_second 0%N k0 = Ret (Ok s0, k') /\ size (opened k') = 1 /\
    exists s, steps short_run s0 = Some s /\ load_summary s = Some ([4000], 1, 1)%N /\
      [0; 500000000]%N ≡ₚ s.(sent_ok).*1 ++ s.(failed).
Proof.
  intros k0. destruct (load_run_complete two_per_second 2 0%N 5 k0) as (p & res & k' & Hp & Hrun & Hres);
    [reflexivity|unfold NANOS; lia|cbn; lia|cbn; lia|lia|cbn; lia|].
  assert (exists s0, res = Ok s0 /\ size (opened k') = 1 /\ p = 500000000%N /\
    exists s, steps short_run s0 = Some s /\ load_summary s = Some ([4000], 1, 1)%N) as (s0 & -> & Hsz & -> & s & Hls & Hsum).
  { vm_compute in Hp. injection Hp as <-. vm_compute in Hrun. injection Hrun as <- <-. eexists.
    split; [reflexivity|]. split; [vm_compute; reflexivity|]. split; [reflexivity|]. eexists. split; vm_compute; reflexivity. }
  exists s0, k'. split; [exact Hrun|]. split; [exact Hsz|]. exists s. split; [exact Hls|]. split; [exact Hsum|].
  destruct Hres as [_ Hall]. unfold load_summary in Hsum. destruct (spc s) as [| | | |hist ok errors|] eqn:Hpc; try discriminate Hsum.
  destruct (Hall short_run s hist ok errors Hls Hpc) as [Hperm _]. exact Hperm.
Defined.
