(* ===== verification/LoadOutput.v ===== *)
(** * What the load generator writes

    loadgen/src/main.rs: [write_output], [write_histogram_dump], [dump_path]
    and the text of their lines.  The histogram is the class [Histogram] of the
    hdrhistogram crate's queries; the file system is the class [Files] of the
    calls the source makes.  A path is its components, as [std::path] compares
    them. *)

From S2P Require Import Prelude RustStr Http Response Syscall Listener Sim F64 LoadArgs LoadRun.
From Stdlib Require Import SpecFloat.
Local Open Scope nat_scope.

(** ** Numbers as text *)

Definition f64_sub : f64 -> f64 -> f64 := SFsub 53 1024.

(** [x as u64]: towards zero, saturating, 0 for NaN. *)
Definition as_u64 (x : f64) : N :=
  match x with
  | S754_infinity false => usize_max
  | S754_finite false m e =>
    N.min usize_max (Z.to_N (if (0 <=? e)%Z then Zpos m * 2 ^ e else Zpos m / 2 ^ (- e))%Z)
  | _ => 0
  end.

(** [n] in decimal with [d] digits, zeros first. *)
Fixpoint padded (d : nat) (n : N) : bytes :=
  match d with
  | 0 => []
  | S d => padded d (n / 10) ++ [digit n]
  end.

(** [{:.d}]: the exact value rounded to [d] decimals, ties to even. *)
Definition fixed (d : nat) (x : f64) : bytes :=
  match x with
  | S754_nan => B "NaN"
  | S754_infinity s => (if s then B "-" else []) ++ B "inf"
  | S754_zero s => (if s then B "-" else []) ++ B "0." ++ padded d 0
  | S754_finite s m e =>
    let scale := (10 ^ N.of_nat d)%N in
    let n := Z.to_N (if (0 <=? e)%Z then Zpos m * Z.of_N scale * 2 ^ e
      else round_even (Zpos m * Z.of_N scale) (- e))%Z in
    (if s then B "-" else []) ++ decimal (n / scale) ++ B "." ++ padded d (n mod scale)
  end.

(** ** Paths *)

Record Path := mkPath { rooted : bool; comps : list bytes }.

#[global] Instance Path_eq_dec : EqDecision Path.
Proof. solve_decision. Defined.

#[global] Program Instance Path_countable : Countable Path :=
  inj_countable' (fun p => (p.(rooted), p.(comps))) (fun '(r, c) => mkPath r c) _.
Next Obligation. by intros []. Qed.

(** [Path::components]: repeated separators and [.] go, but for a leading one. *)
Definition path_of (s : bytes) : Path :=
  let rooted := match s with b :: _ => Byte.eqb b x2f | [] => false end in
  let plain := List.filter (fun c => negb (bool_decide (c = [] \/ c = B "."))) (split_on x2f s) in
  mkPath rooted
    (if negb rooted && match split_on x2f s with c :: _ => bool_decide (c = B ".") | [] => false end
     then B "." :: plain else plain).

Definition parent (p : Path) : option Path :=
  match p.(comps) with
  | [] => None
  | _ => Some (mkPath p.(rooted) (removelast p.(comps)))
  end.

Definition file_name (p : Path) : option bytes :=
  match last p.(comps) with
  | Some c => if bool_decide (c = B "." \/ c = B "..") then None else Some c
  | None => None
  end.

(** [rsplitn(2, '.')]: what comes before the last dot, unless that is nothing. *)
Definition stem_of (name : bytes) : bytes :=
  match position x2e (rev name) with
  | Some i =>
    match rev (drop (S i) (rev name)) with
    | [] => name
    | before => before
    end
  | None => name
  end.

Definition file_stem (p : Path) : option bytes := stem_of <$> file_name p.

(** [Path::join] of a relative name. *)
Definition join (p : Path) (name : bytes) : Path := mkPath p.(rooted) (p.(comps) ++ [name]).

Definition dump_name (c : Config (F := f64)) : bytes :=
  let stem := match file_stem (path_of c.(out)) with Some s => s | None => B "loadgen" end in
  stem ++ B "_r" ++ decimal (as_u64 c.(rate)) ++ B "_c" ++ decimal c.(load_connections) ++ B ".hgrm".

Definition dump_path (c : Config (F := f64)) : Path :=
  let dir := match parent (path_of c.(out)) with Some d => d | None => path_of (B ".") end in
  join dir (dump_name c).

(** ** The lines *)

(** The crate's queries of a histogram. *)
Class Histogram (H : Type) := {
  value_at_quantile : H -> f64 -> N;
  count_between : H -> N -> N -> N;
  hist_max : H -> N;
}.

Record Summary (H : Type) := mkSummary { hist : H; ok : N; errors : N; throughput_rps : f64 }.
Arguments mkSummary {H} _ _ _ _.
Arguments hist {H} _.
Arguments ok {H} _.
Arguments errors {H} _.
Arguments throughput_rps {H} _.

(** A literal [n / 10^k]: the nearest [f64]. *)
Definition literal (n : N) (k : N) : f64 := f64_div (f64_of n) (f64_of (10 ^ k)).

Definition comma (l : list bytes) : bytes := concat (removelast (flat_map (fun b => [b; B ","]) l)) ++ [LF].

Definition csv_header : bytes :=
  B "model,rate,connections,throughput_rps,errors,p50,p90,p99,p999,p9999,max" ++ [LF].

Section Lines.
Context {H : Type} `{Histogram H}.

Definition csv_row (c : Config (F := f64)) (s : Summary H) : bytes :=
  let q n k := decimal (value_at_quantile s.(hist) (literal n k)) in
  comma [c.(load_model); decimal (as_u64 c.(rate)); decimal c.(load_connections); fixed 1 s.(throughput_rps);
    decimal s.(errors); q 50 2; q 90 2; q 99 2; q 999 3; q 9999 4; decimal (hist_max s.(hist))]%N.

(** One line of the dump. *)
Definition dump_line (h : H) (quantile : f64) : bytes :=
  let one := f64_of 1 in
  let value := value_at_quantile h quantile in
  let inverse := if SFleb one quantile then S754_infinity false else f64_div one (f64_sub one quantile) in
  comma [decimal value; fixed 7 quantile; decimal (count_between h 0 value); fixed 1 inverse].

(** The loop of [write_histogram_dump]: the quantiles it goes through. *)
Fixpoint ladder (fuel : nat) (quantile half_distance : f64) : outcome (list f64) :=
  match fuel with
  | 0 => Diverge
  | S fuel =>
    if SFleb (f64_of 1) quantile then Ret [quantile]
    else
      let half_distance := f64_div half_distance (f64_of 2) in
      let next := f64_sub (f64_of 1) half_distance in
      let next := if SFltb (literal 9999999 7) next then f64_of 1 else next in
      rest ← ladder fuel next half_distance; Ret (quantile :: rest)
  end.

Definition quantiles (fuel : nat) : outcome (list f64) := ladder fuel (S754_zero false) (f64_of 1).
End Lines.

Definition dump_header : bytes := B "value_us,percentile,total_count,inverse_1_minus_p" ++ [LF].

(** The lines after the header. *)
Definition dump_lines {H : Type} `{Histogram H} (fuel : nat) (h : H) : outcome (list bytes) :=
  qs ← quantiles fuel; Ret (map (dump_line h) qs).

(** ** The files *)

(** Opening for appending creates the file; opening for the dump truncates it
    too.  [k_write_line] is [writeln!], [k_drop] the end of a [File]. *)
Class Files (K : Type) := {
  k_create_dir_all : Path -> K -> result unit IoError * K;
  k_metadata_len : Path -> K -> result N IoError * K;
  k_open_append : Path -> K -> result Z IoError * K;
  k_open_truncate : Path -> K -> result Z IoError * K;
  k_write_line : Z -> bytes -> K -> result unit IoError * K;
  k_drop : Z -> K -> K;
}.

(** [files k]: what the files hold; [file_at k]: what the open ones are of.
    A length given is that of the file, and there may be none given whether the
    file is there or not; a write that fails may have written a part; a path
    leads to no other's file. *)
Class FilesLaws (K : Type) `{!Files K} := {
  files : K -> gmap Path bytes;
  file_at : K -> gmap Z Path;

  create_dir_frame p k r k' : k_create_dir_all p k = (r, k') -> files k' = files k /\ file_at k' = file_at k;
  metadata_effect p k r k' : k_metadata_len p k = (r, k') ->
    files k' = files k /\ file_at k' = file_at k /\
    match r with
    | Ok n => exists content, files k !! p = Some content /\ n = N.of_nat (length content)
    | Err _ => True
    end;
  open_append_effect p k r k' : k_open_append p k = (r, k') ->
    match r with
    | Ok fd => file_at k !! fd = None /\ file_at k' = <[fd := p]> (file_at k) /\
        files k' = <[p := default [] (files k !! p)]> (files k)
    | Err _ => files k' = files k /\ file_at k' = file_at k
    end;
  open_truncate_effect p k r k' : k_open_truncate p k = (r, k') ->
    match r with
    | Ok fd => file_at k !! fd = None /\ file_at k' = <[fd := p]> (file_at k) /\ files k' = <[p := []]> (files k)
    | Err _ => files k' = files k /\ file_at k' = file_at k
    end;
  write_line_effect fd p line k r k' : file_at k !! fd = Some p -> k_write_line fd line k = (r, k') ->
    file_at k' = file_at k /\
    exists written, files k' = alter (.++ written) p (files k) /\ written `prefix_of` line /\
      (r = Ok tt -> written = line);
  drop_effect fd k : files (k_drop fd k) = files k /\ file_at (k_drop fd k) = delete fd (file_at k);
}.

Section Output.
Context {K H : Type} `{!Files K, !Histogram H}.

(** Lines to one file, up to the first that fails. *)
Fixpoint write_lines (fd : Z) (lines : list bytes) (k : K) : result unit IoError * K :=
  match lines with
  | [] => (Ok tt, k)
  | line :: lines => and_then (k_write_line fd line k) (fun _ k => write_lines fd lines k)
  end.

(** A [File] is closed when its owner returns. *)
Definition with_file (opened : result Z IoError * K) (body : Z -> K -> result unit IoError * K)
    : result unit IoError * K :=
  and_then opened (fun fd k => let '(r, k) := body fd k in (r, k_drop fd k)).

Definition write_histogram_dump (c : Config (F := f64)) (lines : list bytes) (k : K) : result unit IoError * K :=
  with_file (k_open_truncate (dump_path c) k) (fun f k => write_lines f (dump_header :: lines) k).

Definition write_output (fuel : nat) (c : Config (F := f64)) (summary : Summary H) (k : K)
    : outcome (result unit IoError * K) :=
  lines ← dump_lines fuel summary.(hist);
  let path := path_of c.(out) in
  Ret (and_then
    match parent path with
    | Some p => if bool_decide (p = mkPath false []) then (Ok tt, k) else k_create_dir_all p k
    | None => (Ok tt, k)
    end (fun _ k =>
  let '(m, k) := k_metadata_len path k in
  let needs_header := match m with Ok n => (n =? 0)%N | Err _ => true end in
  with_file (k_open_append path k) (fun csv k =>
    and_then (write_lines csv ((if needs_header then [csv_header] else []) ++ [csv_row c summary]) k) (fun _ k =>
    write_histogram_dump c lines k)))).
End Output.

(** ** Lemmas *)

Lemma position_split x s i : position x s = Some i -> s = take i s ++ x :: drop (S i) s.
Proof.
  revert i. induction s as [|b s IH]; intros i E; cbn in E; [done|]. rewrite byte_eqb_spec in E.
  destruct (bool_decide_reflect (b = x)) as [->|]; [by injection E as <-|].
  destruct (position x s) as [j|] eqn:Ej; [|done]. injection E as <-. cbn. by rewrite <-(IH j eq_refl).
Qed.

Lemma stem_cases name : stem_of name = name \/ exists rest, name = stem_of name ++ x2e :: rest.
Proof.
  unfold stem_of. destruct (position x2e (rev name)) as [i|] eqn:E; [|by left].
  apply position_split in E. apply (f_equal (@rev byte)) in E.
  rewrite rev_involutive, rev_app_distr in E. cbn [rev] in E. rewrite <-app_assoc in E. cbn in E.
  destruct (rev (drop (S i) (rev name))) as [|b before] eqn:Eb; [by left|]. right. by exists (rev (take i (rev name))).
Qed.

(** The dump never goes over the file of the rows. *)
Lemma dump_path_other c : dump_path c <> path_of c.(out).
Proof.
  unfold dump_path, dump_name, file_stem, file_name, parent, join. set (p := path_of c.(out)). clearbody p.
  destruct p as [r cs]. cbn [rooted comps]. destruct cs as [|b cs _] using rev_ind; [done|].
  rewrite last_snoc. intros E. apply (f_equal comps) in E.
  assert (exists a l, cs ++ [b] = a :: l) as (a & l & Hl) by (destruct cs; cbn; eauto).
  rewrite Hl in E. cbn [comps rooted] in E. rewrite <-Hl, removelast_last in E. apply app_inv_head in E. injection E as E.
  destruct (bool_decide_reflect (b = B "." \/ b = B "..")) as [[->| ->]|]; cbn [fmap option_fmap option_map] in E; [done..|].
  destruct (stem_cases b) as [Hst|[rest Hst]].
  - rewrite Hst in E. apply (f_equal length) in E. rewrite length_app in E. cbn in E. lia.
  - rewrite Hst in E at 2. apply app_inv_head in E. discriminate E.
Qed.

Section OutputLemmas.
Context {K H : Type} `{!Files K, !FilesLaws K, !Histogram H}.

Lemma write_lines_spec fd p lines k r k' :
  file_at k !! fd = Some p -> write_lines fd lines k = (r, k') ->
  file_at k' = file_at k /\
  exists written, files k' = alter (.++ written) p (files k) /\ written `prefix_of` concat lines /\
    (r = Ok tt -> written = concat lines).
Proof.
  revert k. induction lines as [|line lines IH]; intros k Hfd E; cbn [write_lines] in E.
  - simplify_eq. split; [done|]. exists []. split_and!; try done. symmetry. apply map_eq. intros q.
    destruct (decide (q = p)) as [->|]; [rewrite lookup_alter_eq|by rewrite lookup_alter_ne].
    destruct (files k' !! p); [|done]. cbn. by rewrite app_nil_r.
  - destruct (k_write_line fd line k) as [[[]|e] k1] eqn:E1; cbn [and_then] in E;
      destruct (write_line_effect _ _ _ _ _ _ Hfd E1) as (Ha & w & Hw & Hpre & Hok).
    + rewrite (Hok eq_refl) in Hw. rewrite <-Ha in Hfd. destruct (IH k1 Hfd E) as (Ha1 & w1 & Hw1 & Hpre1 & Hok1).
      split; [congruence|]. exists (line ++ w1). cbn [concat]. split_and!.
      * rewrite Hw1, Hw. apply map_eq. intros q. destruct (decide (q = p)) as [->|];
          [rewrite !lookup_alter_eq|by rewrite !lookup_alter_ne]. destruct (files k !! p); [|done]. cbn. by rewrite app_assoc.
      * by apply prefix_app.
      * intros Hr. by rewrite (Hok1 Hr).
    + simplify_eq. split; [done|]. exists w. split_and!; [done| |done]. cbn [concat]. by apply prefix_app_r.
Qed.

(** What writing lines to a file just opened, with [content], leaves. *)
Lemma written_file p content fd lines k k1 r k' :
  file_at k !! fd = None -> file_at k1 = <[fd := p]> (file_at k) -> files k1 = <[p := content]> (files k) ->
  write_lines fd lines k1 = (r, k') ->
  file_at (k_drop fd k') = file_at k /\
  exists w, files (k_drop fd k') = <[p := content ++ w]> (files k) /\ (r = Ok tt -> w = concat lines).
Proof.
  intros Hnone Ha Hf E. destruct (write_lines_spec fd p lines k1 r k') as (Ha' & w & Hw & _ & Hok); [|done|].
  { by rewrite Ha, lookup_insert_eq. }
  destruct (drop_effect fd k') as [Hd1 Hd2]. rewrite Hd1, Hd2, Ha', Ha, delete_insert_id by done. split; [done|].
  exists w. split; [|done]. rewrite Hw, Hf. apply map_eq. intros q. destruct (decide (q = p)) as [->|].
  - by rewrite lookup_alter_eq, !lookup_insert_eq.
  - by rewrite lookup_alter_ne, !lookup_insert_ne.
Qed.

Lemma dump_spec c lines k r k' :
  write_histogram_dump c lines k = (r, k') ->
  file_at k' = file_at k /\ (forall p, p <> dump_path c -> files k' !! p = files k !! p) /\
  (r = Ok tt -> files k' !! dump_path c = Some (concat (dump_header :: lines))).
Proof.
  unfold write_histogram_dump, with_file. intros E.
  destruct (k_open_truncate (dump_path c) k) as [[fd|e] k1] eqn:E1; apply open_truncate_effect in E1; cbn [and_then] in E.
  2: { simplify_eq. destruct E1 as [-> ->]. done. }
  destruct E1 as (Hn & Ha & Hf). destruct (write_lines fd (dump_header :: lines) k1) as [r2 k2] eqn:E2. simplify_eq.
  destruct (written_file _ _ _ _ _ _ _ _ Hn Ha Hf E2) as (Ha2 & w & Hw & Hok).
  split; [done|]. split.
  - intros p Hp. by rewrite Hw, lookup_insert_ne.
  - intros Hr. rewrite Hw, lookup_insert_eq, (Hok Hr). done.
Qed.
End OutputLemmas.

(** The rungs of the ladder: 1 - 2^-k down to 2^-23, then 1. *)
Definition rungs : list f64 :=
  ((fun k => f64_sub (f64_of 1) (f64_div (f64_of 1) (f64_of (2 ^ N.of_nat k)))) <$> seq 0 24) ++ [f64_of 1].

Lemma ladder_rungs : quantiles 25 = Ret rungs.
Proof. vm_compute. reflexivity. Qed.

Lemma ladder_more fuel fuel' q h l : ladder fuel q h = Ret l -> fuel <= fuel' -> ladder fuel' q h = Ret l.
Proof.
  revert fuel' q h l. induction fuel as [|fuel IH]; intros fuel' q h l E Hf; [done|]. destruct fuel' as [|fuel']; [lia|].
  cbn [ladder] in *. destruct (SFleb (f64_of 1) q); [done|].
  apply outcome_bind_ret in E as (l1 & E1 & E2). rewrite (IH fuel' _ _ _ E1) by lia. exact E2.
Qed.

(** ** Properties *)

Section OutputTheorem.
Context {K H : Type} `{!Files K, !FilesLaws K, !Histogram H}.

(** What is in the row's file before. *)
Definition rows_before (c : Config (F := f64)) (k : K) : bytes := default [] (files k !! path_of c.(out)).

(** The directory of the file is made. *)
Definition prepared (c : Config (F := f64)) (k : K) : result unit IoError * K :=
  match parent (path_of c.(out)) with
  | Some p => if bool_decide (p = mkPath false []) then (Ok tt, k) else k_create_dir_all p k
  | None => (Ok tt, k)
  end.

(** Then its length could not be had. *)
Definition metadata_fails (c : Config (F := f64)) (k : K) : bool :=
  match (k_metadata_len (path_of c.(out)) (prepared c k).2).1 with Ok _ => false | Err _ => true end.

Definition new_rows (c : Config (F := f64)) (s : Summary H) (k : K) : bytes :=
  (if bool_decide (rows_before c k = []) || metadata_fails c k then csv_header else []) ++ csv_row c s.

(** The header goes before the first row, and wherever the length is not had. *)
Lemma rows_to_write c s k m k1 :
  files (prepared c k).2 = files k -> k_metadata_len (path_of c.(out)) (prepared c k).2 = (m, k1) ->
  concat ((if match m with Ok n => (n =? 0)%N | Err _ => true end then [csv_header] else []) ++ [csv_row c s]) =
  new_rows c s k.
Proof.
  intros Hf E. unfold new_rows, metadata_fails. rewrite E. cbn [fst]. apply metadata_effect in E as (_ & _ & Hm).
  assert (match m with Ok n => (n =? 0)%N | Err _ => true end =
    bool_decide (rows_before c k = []) || match m with Ok _ => false | Err _ => true end) as ->.
  { destruct m as [n|e]; [|by rewrite orb_true_r]. rewrite orb_false_r. unfold rows_before. rewrite <-Hf.
    destruct Hm as (content & -> & ->). by destruct content. }
  destruct (_ || _); cbn [app concat]; by rewrite ?app_nil_r.
Qed.

(** C40. The loop of the dump ends, on the rungs 1 - 2^-k and then 1.  Writing the
    output closes what it opens and touches two files only: to the one it only
    appends, whatever fails, and in the end the row is there, after the header
    exactly when the file was empty or its length could not be had
    ([fs::metadata] failed: then the header may come again); the other holds the
    dump and nothing else. *)
Theorem write_output_exact fuel (c : Config (F := f64)) (s : Summary H) (k : K) (Hfuel : 25 <= fuel) :
  exists r k', write_output fuel c s k = Ret (r, k') /\
  file_at k' = file_at k /\
  (forall p, p <> path_of c.(out) -> p <> dump_path c -> files k' !! p = files k !! p) /\
  (rows_before c k `prefix_of` rows_before c k') /\
  (r = Ok tt ->
    files k' !! path_of c.(out) = Some (rows_before c k ++ new_rows c s k) /\
    files k' !! dump_path c = Some (concat (dump_header :: map (dump_line s.(hist)) rungs))).
Proof.
  unfold write_output, dump_lines, quantiles. rewrite (ladder_more 25 fuel _ _ _ ladder_rungs Hfuel). cbn [mbind outcome_bind].
  set (p := path_of c.(out)). set (lines := map (dump_line s.(hist)) rungs). clearbody lines.
  assert (dump_path c <> p) as Hdp by apply dump_path_other.
  fold p. change (match parent p with Some _ => _ | None => _ end) with (prepared c k).
  pose proof (fun m k1 Hf => rows_to_write c s k m k1 Hf) as Hrows0. fold p in Hrows0.
  destruct (prepared c k) as [r0 k0] eqn:E0. cbn [snd] in Hrows0.
  assert (files k0 = files k /\ file_at k0 = file_at k) as [Hf0 Ha0].
  { unfold prepared in E0. fold p in E0. destruct (parent p) as [d|]; [|by simplify_eq]. destruct (bool_decide (d = mkPath false [])); [by simplify_eq|].
    by apply create_dir_frame in E0. }
  destruct r0 as [u|e]; cbn [and_then].
  2: { eexists _, _. split; [done|]. unfold rows_before. rewrite Hf0. by split_and!. }
  destruct (k_metadata_len p k0) as [m k1] eqn:E1. pose proof (Hrows0 m k1 Hf0 eq_refl) as Hrows.
  apply metadata_effect in E1 as (Hf1 & Ha1 & _).
  set (rows := (if match m with Ok n => (n =? 0)%N | Err _ => true end then [csv_header] else []) ++ [csv_row c s]) in *.
  clearbody rows. unfold with_file. destruct (k_open_append p k1) as [[csv|e] k2] eqn:E2; apply open_append_effect in E2;
    rewrite Hf1, Hf0, Ha1, Ha0 in E2; cbn [and_then].
  2: { destruct E2 as [Hf2 Ha2]. eexists _, _. split; [done|]. unfold rows_before. rewrite Hf2. by split_and!. }
  destruct E2 as (Hn & Ha2 & Hf2). fold (rows_before c k) in Hf2.
  destruct (write_lines csv rows k2) as [r3 k3] eqn:E3.
  destruct (write_lines_spec csv p rows k2 r3 k3) as (Ha3 & w & Hw & _ & Hok); [by rewrite Ha2, lookup_insert_eq|done|].
  assert (forall q, files k3 !! q = if decide (q = p) then Some (rows_before c k ++ w) else files k !! q) as Hf3.
  { intros q. rewrite Hw, Hf2. destruct (decide (q = p)) as [->|];
      [by rewrite lookup_alter_eq, lookup_insert_eq|by rewrite lookup_alter_ne, lookup_insert_ne]. }
  assert (forall (r : result unit IoError) k4, file_at k4 = file_at k3 ->
    file_at (k_drop csv k4) = file_at k /\ files (k_drop csv k4) = files k4) as Hdrop.
  { intros r k4 Ha4. destruct (drop_effect csv k4) as [-> ->]. rewrite Ha4, Ha3, Ha2. split; [|done].
    by apply delete_insert_id. }
  destruct r3 as [[]|e]; cbn [and_then].
  - destruct (write_histogram_dump c lines k3) as [r4 k4] eqn:E4. destruct (dump_spec _ _ _ _ _ E4) as (Ha4 & Hf4 & Hd4).
    destruct (Hdrop r4 k4 Ha4) as [Ha5 Hf5]. eexists _, _. split; [done|]. split; [done|].
    assert (files (k_drop csv k4) !! p = Some (rows_before c k ++ w)) as Hp.
    { rewrite Hf5, Hf4 by congruence. by rewrite Hf3, decide_True. }
    split; [intros q Hq1 Hq2; by rewrite Hf5, Hf4, Hf3, decide_False|].
    split; [unfold rows_before at 2; fold p; rewrite Hp; by eexists|].
    intros Hr. rewrite Hp, (Hok eq_refl), Hrows, Hf5. split; [done|by apply Hd4].
  - destruct (Hdrop (Err e) k3 eq_refl) as [Ha5 Hf5]. eexists _, _. split; [done|]. split; [done|].
    split; [intros q Hq1 Hq2; by rewrite Hf5, Hf3, decide_False|].
    split; [|done]. unfold rows_before at 2. fold p. rewrite Hf5, Hf3, decide_True by done. by eexists.
Qed.
End OutputTheorem.

(** A disk on which every call succeeds, but for the lengths if they may not be
    had, and a histogram that is the sorted list of its values. *)
Record Disk := mkDisk { d_files : gmap Path bytes; d_open : gmap Z Path; d_lengths : bool }.

Definition disk_open (p : Path) (content : bytes) (k : Disk) : result Z IoError * Disk :=
  let fd := next_fd (dom k.(d_open)) in
  (Ok fd, mkDisk (<[p := content]> k.(d_files)) (<[fd := p]> k.(d_open)) k.(d_lengths)).

#[export] Instance disk_files : Files Disk := {
  k_create_dir_all p k := (Ok tt, k);
  k_metadata_len p k :=
    (match k.(d_files) !! p with
     | Some b => if k.(d_lengths) then Ok (N.of_nat (length b)) else Err (Os 13)
     | None => Err (Os 2)
     end, k);
  k_open_append p k := disk_open p (default [] (k.(d_files) !! p)) k;
  k_open_truncate p k := disk_open p [] k;
  k_write_line fd line k :=
    (Ok tt, match k.(d_open) !! fd with Some p => mkDisk (alter (.++ line) p k.(d_files)) k.(d_open) k.(d_lengths) | None => k end);
  k_drop fd k := mkDisk k.(d_files) (delete fd k.(d_open)) k.(d_lengths);
}.

Lemma disk_open_new k : d_open k !! next_fd (dom (d_open k)) = None.
Proof. apply not_elem_of_dom, next_fd_new. Qed.

#[export] Program Instance disk_laws : FilesLaws Disk := { files := d_files; file_at := d_open }.
Next Obligation. intros p k r k' E. by simplify_eq/=. Qed.
Next Obligation.
  intros p k r k' E. cbn in E. destruct (d_files k !! p) as [b|] eqn:Eb, (d_lengths k); simplify_eq; split_and!; try done. by exists b.
Qed.
Next Obligation. intros p k r k' E. cbn in E. unfold disk_open in E. simplify_eq/=. split; [apply disk_open_new|done]. Qed.
Next Obligation. intros p k r k' E. cbn in E. unfold disk_open in E. simplify_eq/=. split; [apply disk_open_new|done]. Qed.
Next Obligation. intros fd p line k r k' Hfd E. cbn in E. rewrite Hfd in E. simplify_eq/=. split; [done|]. by exists line. Qed.
Next Obligation. done. Qed.

#[export] Instance list_histogram : Histogram (list N) := {
  value_at_quantile h q :=
    default 0%N (h !! Nat.min (N.to_nat (as_u64 (f64_mul q (f64_of (N.of_nat (length h)))))) (length h - 1));
  count_between h lo hi := N.of_nat (length (List.filter (fun v => (lo <=? v) && (v <=? hi))%N h));
  hist_max h := default 0%N (last h);
}.

(** A second run appends its row to the file of the first one's. *)
Lemma write_output_exact_witness :
  let c := mkLoadConfig (B "127.0.0.1:8080") (B "iterative") (f64_of 1500) 64 10 (B "bench/results/iterative.csv") in
  let s := mkSummary [2; 3; 5; 8]%N 4 1 (throughput 4 (from_secs 10)) in
  let row := B "iterative,1500,64,0.4,1,5,8,8,8,8,8" ++ [LF] in
  let out := mkPath false [B "bench"; B "results"; B "iterative.csv"] in
  let k1 := mkDisk {[ out := csv_header ++ row ]} ∅ true in
  exists k', write_output 25 c s k1 = Ret (Ok tt, k') /\ files k' !! out = Some (csv_header ++ row ++ row) /\
    is_Some (files k' !! mkPath false [B "bench"; B "results"; B "iterative_r1500_c64.hgrm"]).
Proof.
  intros c s row out k1. destruct (write_output_exact 25 c s k1 (le_n 25)) as (r & k' & E & _ & _ & _ & Hw).
  assert (r = Ok tt) as ->.
  { apply (f_equal (fun o => match o with Ret (r, _) => Some r | _ => None end)) in E. vm_compute in E. by injection E. }
  destruct (Hw eq_refl) as [Hrow Hdump]. exists k'. split; [exact E|]. split.
  - assert (path_of c.(LoadArgs.out) = out) as Hp by (vm_compute; reflexivity). rewrite Hp in Hrow. rewrite Hrow.
    vm_compute. reflexivity.
  - assert (dump_path c = mkPath false [B "bench"; B "results"; B "iterative_r1500_c64.hgrm"]) as <- by (vm_compute; reflexivity).
    rewrite Hdump. by eexists.
Defined.

(** Where the length of the file may not be had, its header is written again. *)
Lemma header_repeated :
  let c := mkLoadConfig (B "127.0.0.1:8080") (B "iterative") (f64_of 1500) 64 10 (B "iterative.csv") in
  let s := mkSummary [2; 3; 5; 8]%N 4 1 (throughput 4 (from_secs 10)) in
  let k := mkDisk {[ path_of (B "iterative.csv") := csv_header ]} ∅ false in
  match write_output 25 c s k with
  | Ret (Ok _, k') => bool_decide (files k' !! path_of (B "iterative.csv") = Some (csv_header ++ csv_header ++ csv_row c s))
  | _ => false
  end = true.
Proof. vm_compute. reflexivity. Qed.
